(* ===== verification/_CoqProject ===== *)
-Q . S2P
Prelude.v
Text.v
Externals.v
Floats.v
RobotsPattern.v
RobotsTxt.v
CrawlerBase.v
Policy.v
HostState.v
Politeness.v
Network.v
Exclusions.v
Directives.v
RobotsManager.v
RobotClient.v
Disk.v
Compliance.v
Canonical.v
ComplianceModel.v
JournalRow.v
RowFields.v
Journal.v
Transitions.v
Listed.v
Rules.v
Payload.v
Inventory.v
PayloadReference.v
Tickets.v
Transactions.v
Owner.v
OwnerReference.v
Recovery.v
Startup.v
StartupReference.v
FileStore.v
Bloom.v
KvMerge.v
KvSegment.v
KvDb.v
QueryTerm.v
QueryBounds.v
QueryPlan.v
Planner.v
MinimumMatch.v
QueryRender.v
QueryStage.v
