(* ===== verification/Prelude.v ===== *)
(** * Agentic Search: verification of the crawler, compliance and query core

    The repository is a search engine whose own code, on top of an upstream
    engine and a vendored index, is a crawler that must not overstep what
    publishers, hosts and operators allow, a store of reports and decisions
    that governs what is served, and a bounded planner of agents' queries. This
    library models that core as executable Rocq definitions translated from the
    Rust sources and proves what makes it correct.

    ** The program's parts and how they interact

    A crawl target passes, in this order, the ingestion policy
    ([config/ingestion.rs]: is this configuration allowed to crawl at all), the
    exclusions ([crawler/exclusions.rs]: is this host, country or language
    allowed), URL and address admission ([crawler/network.rs]: http(s) only,
    public addresses only, resolved addresses pinned), robots.txt
    ([crates/robotstxt]: may this agent fetch this path) and the host gate
    ([crawler/politeness.rs]: one start at a time, at most so many live
    connections, at least the gap between two starts). The gate reads and
    writes the persisted host registry ([crawler/host_state.rs]: blocks, rate
    deadlines, listing budgets), which survives a restart. A response's headers
    and document are then read for publisher directives
    ([crawler/directives.rs]: noindex, nosnippet, rights signals).

    A search request's text is scanned into bounded atoms
    ([query/planner/bounds.rs], over the grammar of [query/parser]), planned
    into at most four stages ([query/planner/mod.rs]), each of which becomes a
    node and a boolean query ([query/plan]) that is compiled for the index under
    a budget ([query/plan/render.rs], [query/mod.rs]); thresholds are scored by
    [query/plan/minimum_match.rs].

    Complaints and removal requests about served results go through the
    compliance store: a request becomes rows of the journal, the rows reduce to
    a ticket, and a decision on a ticket becomes a delta of the serving rules,
    which the request path reads together with the hash lists.

    Centralities, ranks and pages of the live index are kept in the storage
    crates: an on-disk key-value store ([crates/speedy-kv]) with Bloom filters
    ([crates/bloom]), files of items ([crates/file-store]) and a write-ahead log
    ([crates/simple-wal]).

    ** Files

    - [Prelude.v]: Rust's [Result] with its monad, machine-width integer
      operations ([checked_*], [saturating_*], wrap-around), [opt_le] on
      deadlines, tactics and the shared list and option lemmas.
    - [Text.v]: [str] as a list of Unicode scalar values and the [core::str]
      operations the code calls.
    - [Externals.v]: the crates [nom], [percent-encoding], [url] and [chrono]
      as classes of operations with classes of laws, and a reference instance
      of each, so that definitions evaluate and laws are known to be consistent.
    - [Floats.v]: [str::parse::<f32>] and [::<f64>] by [SpecFloat], and
      [Duration::from_secs_f32].
    - [RobotsPattern.v] ([robotstxt/src/pattern.rs]) and [RobotsTxt.v]
      ([robotstxt/src/parser.rs], [lib.rs]): [Pattern_new], [Pattern_matches];
      the line grammar, [capture_group], [Robots_new] and the decisions.
    - [CrawlerBase.v] ([crawler/mod.rs] and the response headers of
      [network.rs]): errors, limits, [ResponseHeaders].
    - [Policy.v] ([config/ingestion.rs], [crawler/identity.rs]): the
      configuration records, their validation and the production gate.
    - [HostState.v] ([crawler/host_state.rs]): the registry. Its state is the
      map in memory together with the bytes on disk and the failed flag; each
      operation takes the outcomes of its system calls as the argument [io].
    - [Politeness.v] ([crawler/politeness.rs]): the gate of one host as a world
      of tasks, semaphore, start mutex and timing; every piece of
      [acquire_host] and of the permit between two lock or await points is a
      function, and [step] is the relation of their interleavings.
    - [Network.v] ([crawler/network.rs]), [Exclusions.v]
      ([crawler/exclusions.rs]), [Directives.v] ([crawler/directives.rs]).
    - [RobotsManager.v] ([crawler/robots_txt.rs]): group selection, delays and
      conservative paths; [refresh_loop] is the redirect loop, which also
      returns the requests it made, and [snapshot_traced] the cached decision.
    - [RobotClient.v] ([crawler/robot_client.rs]): [get_traced], [ensure_robots]
      and the send loop, which compose all of the above for one content request.
    - [Compliance.v] ([compliance/bounds.rs], [clock.rs], [config/compliance.rs]),
      [ComplianceModel.v] ([compliance/model.rs]), [JournalRow.v] and
      [Journal.v] ([compliance/journal.rs]), [Transitions.v]
      ([compliance/transitions.rs]): the report store. Complaints and removal
      requests are rows of a hash-chained journal with a checkpoint file; a
      ticket is the reduction of its rows. [RowFields.v] holds the assignments
      to the fields of a row.
    - [Canonical.v] and [Payload.v] ([compliance/payload.rs]): canonical JSON and
      the personal revisions, a directory of files under salted commitments;
      [Inventory.v] what their inventory counts, [PayloadReference.v] concrete
      encodings.
    - [Tickets.v] ([compliance/tickets.rs]): the ticket owner; a transaction is
      planned, sized and executed row by row, with an outcome per system call.
      [Transactions.v] is what one execution leaves, [Owner.v] what any history
      of requests does, [OwnerReference.v] concrete requests.
    - [Recovery.v] ([compliance/recovery.rs]) and [Startup.v]
      ([ComplianceStore::open], [Journal::open_unpublished]): rebuilding,
      verifying and finishing what a stopped process left;
      [StartupReference.v] a concrete disk.
    - [Disk.v] ([compliance/disk.rs]): names of staging files, checkpoint
      captures and file facts. [Listed.v] ([compliance/listed.rs]) and
      [Rules.v] ([compliance/rules.rs]): what the search front end may serve.
      The store's state is the snapshot in memory with the directory's files;
      [persist] takes the outcome of each of its steps, [owner_step] is the
      relation of changes, clock readings, stops and restarts.
    - [FileStore.v] ([crates/file-store], [crates/simple-wal]): fixed-size and
      length-prefixed stores over a buffered writer; [Wal] is the log, whose
      file handle says what its coming system calls do.
    - [Bloom.v] ([crates/bloom]): both filters and their sizes.
    - [KvMerge.v], [KvSegment.v], [KvDb.v] ([crates/speedy-kv]): the heap-driven
      merge; the four files of a segment, its writer and its reads; the store as
      a pair of the value in memory and the file system, with [kv_run] and
      [typed_run] for its histories. The [fst] crate, [bincode], the logarithm
      and the hash are classes with laws and a reference instance.
    - [QueryTerm.v] ([query/parser]): terms and the grammar over the [nom]
      combinators. [QueryBounds.v] ([query/planner/bounds.rs]): [scan_query],
      [validate_query] and the checks of numbers and preferences.
    - [QueryPlan.v] ([query/plan/node.rs], [plan/mod.rs]): nodes, both
      optimisations over hash sets whose lookups and order are a class
      ([NodeHash]), queries, [into_query] and [initial]; [node_matches] and
      [query_matches] say which documents they match, given which lexical terms
      a document matches.
    - [Planner.v] ([query/planner/mod.rs], [stopwords.rs]): the lexical rules and
      [AgentPlan_new], a list of stages.
    - [MinimumMatch.v] ([query/plan/minimum_match.rs]): the threshold scorer over
      the [DocSet] interface, whose laws say that a set is a sorted list read
      from the front.
    - [QueryRender.v] ([query/plan/render.rs]) and [QueryStage.v]
      ([Query::compile_stage] of [query/mod.rs]): the compiler, as methods on the
      budget, and the whole request. Tokenizers, schema and JSON are the class
      [Analysis].

    ** What the theorems show

    - Gate ([Politeness.v]): in every interleaving of tasks, cancellations,
      drops and restarts, two starts are at least the effective gap apart, live
      connections never exceed the limit, no start follows an observed refusal
      while its block lasts, a restart recovers the gap from disk, and a task
      that is given its turns holds its permit or is refused.
    - Registry ([HostState.v]): blocks only grow, a refusal observed before a
      restart still blocks after it, a failed write closes the registry, the
      listing budget bounds admissions, backoff doubles up to its cap.
    - robots.txt: the greedy matcher decides exactly the wildcard language
      [glob]; all groups for an agent are merged; the decision is that of the
      most specific rule.
    - Robots manager: permission rests on a response that a call really got for
      the origin's robots.txt and whose body arrived whole, a refresh is
      bounded and never steps down to http, refreshes of an origin are spaced,
      dot segments are resolved, the publisher's delay is never understated.
    - Client: no content request is sent unless every component admits it.
    - Network: only vetted addresses are pinned, the bit tests of the address
      policy are the published CIDR list, URL admission, narrowing of scopes,
      the bound of a body read.
    - Policy and exclusions: validation accepts exactly the sound policies, a
      production permit is issued exactly for one of them with one complete
      approval, the user agent identifies the operator, host rules match whole
      labels, adding rules never admits more, a country must be unanimous.
    - Directives: metadata only restricts, a noindex of a document is honoured,
      merging is a join, observations are bounded, restrictions survive merging.
    - Journal: verification accepts exactly the hash chains that contain the
      committed prefix, a checkpoint binds its history up to a SHA-256
      collision, and an append survives a failure at any of its system calls.
    - Tickets ([Transitions.v]): every replayed ticket is well formed, personal
      data is purged only when retention since the closing row has passed, an intimate-image report
      is acknowledged only after its protection, extensions are timely and
      single.

    - Ticket owner ([Owner.v], [Payload.v], [Startup.v]): memory and disk stay
      together over any history of requests and failures, an acknowledged
      intimate-image report is withheld, a recorded purge has deleted the
      revisions, a failed request changes nothing or disables the store, a
      revision reads as committed, and a start that succeeds leaves no operation
      pending, no admission unfinished and no decision without its action.

    - Serving rules ([Rules.v], [Listed.v]): the served snapshot is what a
      restart would read, a reversed decision is never reapplied, a change does
      what its intent asks and leaves other tickets alone, the index decides
      like a scan, lists match at label boundaries, a clock moved back lifts no
      denial.

    - Storage: the log reads back what was written to it, after a failed write up
      to the record that was cut (and then panics when the cut is past its
      header), filters have no false negatives, merging keeps the newest values in
      key order, and the store refines a map through commits, merges and
      restarts; iteration from an offset skips, [Db_merge] adds the other
      store's entries as the newest.

    - Queries: an admitted query is exactly its atoms at their source intervals
      and within every bound; planning adds no error and its stages are bounded
      and ordered; the query of a node matches exactly what the node does when the
      optimised node is proper and nothing otherwise ([leading_negations_match_nothing]
      is an instance); later stages match exactly the
      constraints with enough content and only widen; the compiled query is the
      query and fits its budget; the threshold scorer is a document set; a
      compiled request keeps every explicit constraint and safe search.

    ** Fuel and bounds

    Recursion that is not structural carries fuel equal to a measure of its
    input: the robots.txt scanner takes the number of lines and the [nom]
    repetition combinators the length of the remaining text (each iteration
    consumes a line or a character, and lemmas state that the fuel is enough),
    decimal printing takes 20 digits (enough for [u64]), the IPv6 reader takes
    the eight groups of the source's array, the loops over host labels and of
    the binary search take the length of what they search, the redirect loop the
    eleven iterations of its range and the send loop the retry budget, a reader
    one more step than its file has bytes, the merge one more than there are
    entries and its inner loop one more than there are segments, a query term
    and the scan of a query one more than the characters left, the conversion of
    a node one more than thresholds are nested, and the scorer's loop more than
    the documents its children hold (the theorem takes any such fuel). Limits of
    the source (body bytes, header bytes, observations, requests) are kept as
    its constants. Integers that can overflow are [Z] with the checked,
    saturating or wrapping operation of the source written out.

    ** Not modelled

    The sorted reader, seeking and floats of the file stores, the
    interpretation of directories beyond the files of a store, the HTTP client,
    tracing, TOML loading and HTML parsing (a document is its
    list of elements), and the filesystem beyond the outcome of each call. The
    hash of a node and the index below the [DocSet] interface are parameters;
    scores, explanations and the optics' queries are left out. The upstream
    search engine (index, ranking, web graph, API), the crawl ledger and
    measurement, encrypted records and reviews, the vendored crates and the
    command-line glue are outside the development: they are input and output,
    third-party code or numeric code without a contract of its own. *)

From stdpp Require Export base decidable option list gmap strings numbers sorting.
From Stdlib Require Export ZArith Lia.

#[local] Open Scope Z_scope.

(** ** Rust [Result] *)

Inductive result (E A : Type) : Type :=
| Ok (a : A)
| Err (e : E).
Arguments Ok {E A} a.
Arguments Err {E A} e.

#[export] Instance result_ret E : MRet (result E) := fun A a => Ok a.
#[export] Instance result_bind E : MBind (result E) :=
  fun A B k m => match m with Ok a => k a | Err e => Err e end.
#[export] Instance result_fmap E : FMap (result E) :=
  fun A B f m => match m with Ok a => Ok (f a) | Err e => Err e end.

#[export] Instance result_eq_dec {E A} `{EqDecision E, EqDecision A} :
  EqDecision (result E A).
Proof. solve_decision. Defined.

(** [r.is_ok()] and [r.ok()]. *)
Definition is_ok {E A} (r : result E A) : bool :=
  match r with Ok _ => true | Err _ => false end.
Definition ok {E A} (r : result E A) : option A :=
  match r with Ok a => Some a | Err _ => None end.

(** [o.ok_or(e)] and [r.map_err(|_| e)]. *)
Definition ok_or {E A} (o : option A) (e : E) : result E A :=
  match o with Some a => Ok a | None => Err e end.
Definition map_err {E F A} (e : F) (r : result E A) : result F A :=
  match r with Ok a => Ok a | Err _ => Err e end.

(** [if bad { return Err(e) }]: the early return of a guard. *)
Definition refuse_if {E} (bad : bool) (e : E) : result E unit :=
  if bad then Err e else Ok tt.

(** Left-to-right loop over a slice whose body may return an error. *)
Fixpoint try_for_each {E A} (f : A -> result E unit) (l : list A) : result E unit :=
  match l with
  | [] => Ok tt
  | x :: l' => f x ≫= fun _ => try_for_each f l'
  end.

(** [iter.map(f).collect::<Result<Vec<_>>>()]. *)
Fixpoint try_map {E A B} (f : A -> result E B) (l : list A) : result E (list B) :=
  match l with
  | [] => Ok []
  | x :: l' => b ← f x; bs ← try_map f l'; Ok (b :: bs)
  end.

(** [iter.try_fold(init, f)]. *)
Fixpoint try_fold {E A S} (f : S -> A -> result E S) (s : S) (l : list A) : result E S :=
  match l with
  | [] => Ok s
  | x :: l' => s' ← f s x; try_fold f s' l'
  end.

Section Result.
Context {E A B : Type}.

Lemma bind_Ok (m : result E A) (k : A -> result E B) b :
  m ≫= k = Ok b <-> exists a, m = Ok a /\ k a = Ok b.
Proof. destruct m; cbn; naive_solver. Qed.

Lemma bind_Err (m : result E A) (k : A -> result E B) e :
  m ≫= k = Err e <-> m = Err e \/ exists a, m = Ok a /\ k a = Err e.
Proof. destruct m; cbn; naive_solver. Qed.

Lemma refuse_if_Ok bad (e : E) u : refuse_if bad e = Ok u <-> bad = false.
Proof. destruct bad, u; cbn; naive_solver. Qed.

Lemma ok_or_Ok (o : option A) (e : E) a : ok_or o e = Ok a <-> o = Some a.
Proof. destruct o; cbn; naive_solver. Qed.

Lemma map_err_Ok {F} (r : result E A) (e : F) a : map_err e r = Ok a <-> r = Ok a.
Proof. destruct r; cbn; naive_solver. Qed.

Lemma is_ok_true (r : result E A) : is_ok r = true <-> exists a, r = Ok a.
Proof. destruct r; cbn; naive_solver. Qed.

Lemma try_for_each_Ok (f : A -> result E unit) l u :
  try_for_each f l = Ok u <-> Forall (fun x => f x = Ok tt) l.
Proof.
  destruct u; induction l as [|x l IH]; cbn; [by split|].
  rewrite Forall_cons. destruct (f x) as [[]|]; cbn; rewrite ?IH; naive_solver.
Qed.

Lemma try_map_Ok (f : A -> result E B) l bs :
  try_map f l = Ok bs <-> Forall2 (fun x b => f x = Ok b) l bs.
Proof.
  revert bs; induction l as [|x l IH]; intros bs; cbn.
  - split; [intros [= <-]; constructor|by inversion 1].
  - destruct (f x) as [b|] eqn:Hf; cbn.
    + destruct (try_map f l) as [bs'|] eqn:Hl; cbn.
      * split; [intros [= <-]; constructor; [done|by apply IH]|].
        inversion 1 as [|? b' ? bs'' Hb Hbs]; simplify_eq.
        apply IH in Hbs. congruence.
      * split; [done|]. inversion 1 as [|? b' ? bs'' Hb Hbs]; simplify_eq.
        by apply IH in Hbs.
    + split; [done|]. inversion 1; congruence.
Qed.
End Result.

(** ** Methods on [&mut self] that may fail

    The state is threaded also through failures: what was assigned before an
    early return stays assigned. *)

Definition method (S E A : Type) : Type := S -> S * result E A.
#[export] Instance method_ret S E : MRet (method S E) := fun A a s => (s, Ok a).
#[export] Instance method_bind S E : MBind (method S E) :=
  fun A B k m s => match m s with (s', Ok a) => k a s' | (s', Err e) => (s', Err e) end.

(** A check of the state that does not change it, and an assignment. *)
Definition inspect {S E A} (f : S -> result E A) : method S E A := fun s => (s, f s).
Definition assign {S E} (f : S -> S) : method S E unit := fun s => (f s, Ok tt).

Section Method.
Context {S E A B : Type}.

Lemma method_bind_Ok (m : method S E A) (k : A -> method S E B) s s'' b :
  (m ≫= k) s = (s'', Ok b) <-> exists s' a, m s = (s', Ok a) /\ k a s' = (s'', Ok b).
Proof.
  unfold mbind, method_bind. split.
  - destruct (m s) as [s' [a|e]]; [by intros; exists s', a|done].
  - by intros (s' & a & -> & Hk).
Qed.

(** A bind ends in its continuation, or in the first failure. *)
Lemma method_bind_cases (m : method S E A) (k : A -> method S E B) s s'' r :
  (m ≫= k) s = (s'', r) ->
  (exists s' a, m s = (s', Ok a) /\ k a s' = (s'', r)) \/
  (exists e, m s = (s'', Err e) /\ r = Err e).
Proof.
  unfold mbind, method_bind. destruct (m s) as [s' [a|e]]; [by left; eexists _, _|].
  intros [= <- <-]. right. by eexists.
Qed.

Lemma inspect_Ok (f : S -> result E A) s s' a :
  inspect f s = (s', Ok a) <-> s' = s /\ f s = Ok a.
Proof. unfold inspect. split; [by intros [= <- <-]|by intros [-> ->]]. Qed.

Lemma assign_Ok (f : S -> S) s s' u : assign (E := E) f s = (s', Ok u) <-> s' = f s.
Proof. unfold assign. destruct u. split; [by intros [= <-]|by intros ->]. Qed.
End Method.

(** Splits every successful bind, guard and conversion in the context. *)
Ltac res_inv :=
  repeat match goal with
  | H : mbind _ _ = Ok _ |- _ => apply bind_Ok in H as (? & ? & H)
  | H : refuse_if _ _ = Ok _ |- _ => apply refuse_if_Ok in H
  | H : ok_or _ _ = Ok _ |- _ => apply ok_or_Ok in H
  | H : map_err _ _ = Ok _ |- _ => apply map_err_Ok in H
  | H : Ok _ = Ok _ |- _ => injection H as H
  | H : Err _ = Ok _ |- _ => discriminate H
  | H : Ok _ = Err _ |- _ => discriminate H
  end; subst.

(** Turns boolean facts into propositions that [lia] and [set_solver] read. *)
Ltac bool_to_prop :=
  repeat match goal with
  | H : (_ && _) = true |- _ => apply andb_true_iff in H as [? ?]
  | H : (_ || _) = false |- _ => apply orb_false_iff in H as [? ?]
  | H : negb _ = true |- _ => apply negb_true_iff in H
  | H : negb _ = false |- _ => apply negb_false_iff in H
  | H : bool_decide _ = true |- _ => apply bool_decide_eq_true in H
  | H : bool_decide _ = false |- _ => apply bool_decide_eq_false in H
  | H : (_ <=? _) = true |- _ => apply Z.leb_le in H
  | H : (_ <=? _) = false |- _ => apply Z.leb_gt in H
  | H : (_ <? _) = true |- _ => apply Z.ltb_lt in H
  | H : (_ <? _) = false |- _ => apply Z.ltb_ge in H
  | H : (_ =? _) = true |- _ => apply Z.eqb_eq in H
  | H : (_ =? _) = false |- _ => apply Z.eqb_neq in H
  end.

(** ** Machine integers: values are [Z], the width is in the operation *)

Definition u16_max : Z := 65535.
Definition u32_max : Z := 4294967295.
Definition u64_max : Z := 18446744073709551615.
Definition i64_max : Z := 9223372036854775807.
Definition i64_min : Z := -9223372036854775808.

Definition is_u64 (x : Z) : Prop := 0 <= x <= u64_max.
Definition is_i64 (x : Z) : Prop := i64_min <= x <= i64_max.

Definition u64_checked_add (a b : Z) : option Z :=
  if a + b <=? u64_max then Some (a + b) else None.
Definition u64_checked_sub (a b : Z) : option Z :=
  if b <=? a then Some (a - b) else None.
Definition u64_saturating_add (a b : Z) : Z := Z.min (a + b) u64_max.
Definition u64_saturating_sub (a b : Z) : Z := Z.max (a - b) 0.
Definition u64_saturating_mul (a b : Z) : Z := Z.min (a * b) u64_max.
(** [u64::checked_shl]: [None] only when the shift amount reaches the width;
    bits shifted past the top are lost. *)
Definition u64_checked_shl (a n : Z) : option Z :=
  if n <? 64 then Some (Z.shiftl a n mod 2 ^ 64) else None.
Definition u32_saturating_add (a b : Z) : Z := Z.min (a + b) u32_max.
Definition u32_saturating_sub (a b : Z) : Z := Z.max (a - b) 0.
Definition u32_checked_add (a b : Z) : option Z :=
  if a + b <=? u32_max then Some (a + b) else None.
Definition i64_checked_add (a b : Z) : option Z :=
  if (i64_min <=? a + b) && (a + b <=? i64_max) then Some (a + b) else None.
(** [as i64] from an unsigned 64-bit value wraps. *)
Definition u64_as_i64 (a : Z) : Z := if a <=? i64_max then a else a - 2 ^ 64.

Ltac ints := unfold is_u64, is_i64, u64_saturating_add, u64_saturating_sub,
  u64_saturating_mul, u32_saturating_add, u32_saturating_sub, u16_max,
  u32_max, u64_max, i64_max, i64_min in *.

Lemma u64_checked_add_Some a b r :
  u64_checked_add a b = Some r <-> r = a + b /\ a + b <= u64_max.
Proof. unfold u64_checked_add. case_match; bool_to_prop; naive_solver lia. Qed.

Lemma u64_checked_sub_Some a b r :
  u64_checked_sub a b = Some r <-> r = a - b /\ b <= a.
Proof. unfold u64_checked_sub. case_match; bool_to_prop; naive_solver lia. Qed.

Lemma i64_checked_add_Some a b r :
  i64_checked_add a b = Some r <-> r = a + b /\ is_i64 (a + b).
Proof.
  unfold i64_checked_add, is_i64.
  destruct (Z.leb_spec i64_min (a + b)), (Z.leb_spec (a + b) i64_max); cbn;
    naive_solver lia.
Qed.

(** ** [Option<T: Ord>]: [None] is below every [Some] *)

Definition opt_max (a b : option Z) : option Z :=
  match a, b with
  | Some x, Some y => Some (Z.max x y)
  | None, b => b
  | a, None => a
  end.
Definition opt_le (a b : option Z) : Prop :=
  match a, b with
  | None, _ => True
  | Some _, None => False
  | Some x, Some y => x <= y
  end.

#[export] Instance opt_le_preorder : PreOrder opt_le.
Proof.
  split.
  - intros [x|]; cbn; lia.
  - intros [x|] [y|] [z|]; cbn; lia || tauto.
Qed.

Lemma opt_le_refl a : opt_le a a.
Proof. reflexivity. Qed.
Lemma opt_max_l a b : opt_le a (opt_max a b).
Proof. destruct a, b; cbn; lia || done. Qed.
Lemma opt_max_r a b : opt_le b (opt_max a b).
Proof. destruct a, b; cbn; lia || done. Qed.
Lemma opt_max_lub a b c : opt_le a c -> opt_le b c -> opt_le (opt_max a b) c.
Proof. destruct a, b, c; cbn; lia || done. Qed.

Create HintDb agentic.
#[export] Hint Resolve opt_le_refl opt_max_l opt_max_r opt_max_lub : agentic.

(** ** Stable sorting, as [slice::sort] and [sort_by] *)

Section StableSort.
Context {A : Type} (cmp : A -> A -> comparison).

(** [x] goes before the first element strictly greater than it. *)
Fixpoint insert_sorted (x : A) (l : list A) : list A :=
  match l with
  | [] => [x]
  | y :: l' => match cmp x y with Gt => y :: insert_sorted x l' | _ => x :: l end
  end.

(** Elements are inserted from the right, so equal ones keep their order. *)
Fixpoint stable_sort (l : list A) : list A :=
  match l with [] => [] | x :: l' => insert_sorted x (stable_sort l') end.

Lemma insert_sorted_perm x l : insert_sorted x l ≡ₚ x :: l.
Proof.
  induction l as [|y l IH]; cbn; [done|].
  destruct (cmp x y); try done. rewrite IH. apply Permutation_swap.
Qed.

Lemma stable_sort_perm l : stable_sort l ≡ₚ l.
Proof. induction l as [|x l IH]; cbn; [done|]. by rewrite insert_sorted_perm, IH. Qed.

Lemma elem_of_stable_sort x l : x ∈ stable_sort l <-> x ∈ l.
Proof. by rewrite stable_sort_perm. Qed.

Lemma stable_sort_nil l : stable_sort l = [] <-> l = [].
Proof.
  split; [|by intros ->]. intros H. apply Permutation_nil_r.
  by rewrite <- (stable_sort_perm l), H.
Qed.

Definition cmp_le (x y : A) : Prop := cmp x y <> Gt.

Context (cmp_total : forall x y, cmp y x = CompOpp (cmp x y)).
Context (cmp_trans : forall x y z, cmp_le x y -> cmp_le y z -> cmp_le x z).

Lemma cmp_flip x y : cmp x y = Gt -> cmp_le y x.
Proof. unfold cmp_le. intros H. by rewrite cmp_total, H. Qed.

Lemma insert_sorted_sorted x l :
  StronglySorted cmp_le l -> StronglySorted cmp_le (insert_sorted x l).
Proof.
  induction 1 as [|y l Hs IH Hy]; cbn; [by repeat constructor|].
  destruct (cmp x y) eqn:Hxy.
  1, 2: assert (cmp_le x y) by (unfold cmp_le; congruence);
    constructor; [by constructor|]; constructor; [done|];
    apply (Forall_impl _ _ _ Hy); naive_solver.
  constructor; [done|]. rewrite insert_sorted_perm.
  constructor; [by apply cmp_flip|done].
Qed.

Lemma stable_sort_sorted l : StronglySorted cmp_le (stable_sort l).
Proof. induction l; cbn; [constructor|by apply insert_sorted_sorted]. Qed.

(** The head of the sorted slice is an element below every other one. *)
Lemma stable_sort_head l x l' :
  stable_sort l = x :: l' -> x ∈ l /\ forall y, y ∈ l -> cmp_le x y.
Proof.
  intros H. pose proof (stable_sort_sorted l) as Hs. rewrite H in Hs.
  inversion Hs as [|?? _ Hall]; subst. rewrite Forall_forall in Hall.
  split.
  - rewrite <- elem_of_stable_sort, H. left.
  - intros y Hy. rewrite <- elem_of_stable_sort, H in Hy.
    apply elem_of_cons in Hy as [->|Hy]; [|by apply Hall].
    unfold cmp_le. pose proof (cmp_total x x) as Hx. by destruct (cmp x x).
Qed.
End StableSort.

(** ** Adjacent pairs of a slice, as [windows(2).all(..)] *)

Fixpoint windows2_all {A} (f : A -> A -> bool) (l : list A) : bool :=
  match l with
  | x :: (y :: _) as l' => f x y && windows2_all f l'
  | _ => true
  end.

Lemma windows2_all_sorted {A} (f : A -> A -> bool) (l : list A) :
  (forall x y z, f x y = true -> f y z = true -> f x z = true) ->
  windows2_all f l = true <-> StronglySorted (fun x y => f x y = true) l.
Proof.
  intros Htrans. split.
  - intros H. apply Sorted_StronglySorted; [intros x y z; apply Htrans|].
    induction l as [|x [|y l] IH]; [constructor|by repeat constructor|].
    cbn in H. bool_to_prop. constructor; [by apply IH|by constructor].
  - induction 1 as [|x l Hs IH Hx]; [done|].
    destruct l as [|y l]; [done|]. cbn. inversion Hx; subst.
    by rewrite andb_true_iff.
Qed.

(** ** [slice::binary_search_by] *)

Section BinarySearch.
Context {A : Type} (f : A -> comparison).

(** The halving loop of the standard library: the probe moves [base] up
    unless the element it sees is greater. *)
Fixpoint search_loop (fuel : nat) (l : list A) (base size : nat) : nat :=
  match fuel with
  | 0%nat => base
  | S fuel' =>
      if (size <=? 1)%nat then base
      else
        let half := (size / 2)%nat in
        let base := match f <$> l !! (base + half)%nat with
                    | Some Gt => base
                    | _ => (base + half)%nat
                    end in
        search_loop fuel' l base (size - half)
  end.
Definition binary_search_by (l : list A) : option nat :=
  let base := search_loop (length l) l 0 (length l) in
  match f <$> l !! base with Some Eq => Some base | _ => None end.

(** Elements below the target come first, elements above it last. *)
Definition ordered_around (l : list A) : Prop :=
  forall i j x y, (i < j)%nat -> l !! i = Some x -> l !! j = Some y ->
    (f x = Gt -> f y = Gt) /\ (f y = Lt -> f x = Lt) /\ (f x = Eq -> f y = Gt).

Lemma search_loop_keeps fuel l base size k x :
  ordered_around l -> (size <= S fuel)%nat -> (base + size <= length l)%nat ->
  l !! k = Some x -> f x = Eq -> (base <= k < base + size)%nat ->
  search_loop fuel l base size = k.
Proof.
  intros Ho. revert base size. induction fuel as [|fuel IH]; intros base size Hf Hl Hk Hx Hr; cbn [search_loop]; [lia|]. cbv zeta.
  destruct (Nat.leb_spec size 1) as [?|Hs]; [lia|].
  pose proof (Nat.div_mod_eq size 2) as Hd. pose proof (Nat.mod_upper_bound size 2 ltac:(lia)) as Hm.
  set (half := (size / 2)%nat) in *.
  destruct (lookup_lt_is_Some_2 l (base + half)) as [y Hy]; [lia|]. rewrite Hy. cbn [fmap option_fmap option_map]. clearbody half.
  destruct (decide (k = (base + half)%nat)) as [->|Hne].
  - rewrite Hk in Hy. injection Hy as <-. rewrite Hx. apply IH; (done || lia).
  - destruct (decide (k < base + half)%nat) as [Hlt|Hge].
    + destruct (Ho _ _ _ _ Hlt Hk Hy) as (_ & _ & ->); [|done]. apply IH; (done || lia).
    + assert (base + half < k)%nat as Hgt by lia.
      destruct (Ho _ _ _ _ Hgt Hy Hk) as (HG & _ & HE).
      destruct (f y) eqn:Ey; [by rewrite HE in Hx|apply IH; (done || lia)|by rewrite HG in Hx].
Qed.

(** On a sorted slice the search finds the element equal to the target. *)
Lemma binary_search_Some l k :
  ordered_around l -> binary_search_by l = Some k <-> exists x, l !! k = Some x /\ f x = Eq.
Proof.
  intros Ho. unfold binary_search_by. split.
  - destruct (l !! _) as [x|] eqn:Hx; [|done]. cbn. destruct (f x) eqn:Ex; [|done..].
    intros [= <-]. eauto.
  - intros (x & Hk & Hx). pose proof (lookup_lt_Some _ _ _ Hk).
    rewrite (search_loop_keeps _ l 0 (length l) k x); [|done|lia|lia|done|done|lia].
    rewrite Hk. cbn. by rewrite Hx.
Qed.

Lemma binary_search_found l :
  ordered_around l -> is_Some (binary_search_by l) <-> exists x, x ∈ l /\ f x = Eq.
Proof.
  intros Ho. split.
  - intros [k (x & Hk & Hx)%binary_search_Some]; [|done]. exists x. split; [|done].
    by eapply list_elem_of_lookup_2.
  - intros (x & [k Hk]%list_elem_of_lookup_1 & Hx). exists k. apply binary_search_Some; eauto.
Qed.
End BinarySearch.
