(* ===== verification/Text.v ===== *)
(** * Rust string slices

    A [str] is the list of its Unicode scalar values ([char]s), each a [Z].
    Byte offsets of the source always fall on character boundaries, so a slice
    [s[i..]] is [drop] of the same number of characters; where the source
    counts bytes, [byte_len] does. The operations below are the ones of
    [core::str] and [char] that the modelled code calls. *)

From S2P Require Import Prelude.

#[local] Open Scope Z_scope.

Abbreviation char := Z.
Abbreviation str := (list Z).

(** String literals of the source. *)
Definition lit (s : string) : str :=
  map (fun a => Z.of_N (Ascii.N_of_ascii a)) (String.list_ascii_of_string s).

Arguments lit s%_string.

(** Evaluates the literals of a goal to their characters. *)
Ltac eval_lits :=
  repeat match goal with
  | |- context [lit ?w] =>
      let s := eval vm_compute in (lit w) in change (lit w) with s
  end.

(** ** Characters *)

Definition ch_tab : char := 9.
Definition ch_lf : char := 10.
Definition ch_cr : char := 13.
Definition ch_space : char := 32.
Definition ch_hash : char := 35.
Definition ch_dollar : char := 36.
Definition ch_star : char := 42.
Definition ch_comma : char := 44.
Definition ch_minus : char := 45.
Definition ch_slash : char := 47.
Definition ch_colon : char := 58.
Definition ch_eq : char := 61.
Definition ch_question : char := 63.
Definition ch_underscore : char := 95.

Definition between (lo hi c : Z) : bool := (lo <=? c) && (c <=? hi).
Definition is_ascii (c : char) : bool := between 0 127 c.
Definition is_ascii_digit (c : char) : bool := between 48 57 c.
Definition is_ascii_uppercase (c : char) : bool := between 65 90 c.
Definition is_ascii_lowercase (c : char) : bool := between 97 122 c.
Definition is_ascii_alphabetic (c : char) : bool :=
  is_ascii_uppercase c || is_ascii_lowercase c.
Definition is_ascii_alphanumeric (c : char) : bool :=
  is_ascii_alphabetic c || is_ascii_digit c.
(** [char::is_control]: general category Cc. *)
Definition is_control (c : char) : bool := between 0 31 c || between 127 159 c.
(** [u8::is_ascii_whitespace]: space, tab, line feed, form feed, return. *)
Definition is_ascii_whitespace (c : char) : bool :=
  (c =? 32) || (c =? 9) || (c =? 10) || (c =? 12) || (c =? 13).
(** [char::is_whitespace]: the Unicode property White_Space. *)
Definition is_whitespace (c : char) : bool :=
  between 9 13 c || (c =? 32) || (c =? 133) || (c =? 160) || (c =? 5760) ||
  between 8192 8202 c || (c =? 8232) || (c =? 8233) || (c =? 8239) ||
  (c =? 8287) || (c =? 12288).
Definition to_ascii_lower (c : char) : char :=
  if is_ascii_uppercase c then c + 32 else c.

(** ** Whole-string operations *)

Definition str_eqb (a b : str) : bool := bool_decide (a = b).
(** [matches!(s, "a" | "b" | ..)]. *)
Definition one_of (s : str) (words : list string) : bool :=
  existsb (fun w => str_eqb s (lit w)) words.
Definition is_empty {A} (l : list A) : bool :=
  match l with [] => true | _ => false end.
Definition to_ascii_lowercase (s : str) : str := map to_ascii_lower s.
Definition eq_ignore_ascii_case (a b : str) : bool :=
  str_eqb (to_ascii_lowercase a) (to_ascii_lowercase b).
(** [s.replace(from, to)] for characters. *)
Definition replace_char (from to : char) (s : str) : str :=
  map (fun c => if c =? from then to else c) s.

(** UTF-8 length: [str::len]. *)
Definition char_len (c : char) : Z :=
  if c <? 128 then 1 else if c <? 2048 then 2 else if c <? 65536 then 3 else 4.
Definition byte_len (s : str) : Z := fold_right (fun c n => char_len c + n) 0 s.

Fixpoint trim_start_by (f : char -> bool) (s : str) : str :=
  match s with [] => [] | c :: s' => if f c then trim_start_by f s' else s end.
Definition trim_end_by (f : char -> bool) (s : str) : str :=
  rev (trim_start_by f (rev s)).
Definition trim_start (s : str) : str := trim_start_by is_whitespace s.
Definition trim (s : str) : str := trim_end_by is_whitespace (trim_start s).
Definition trim_end_matches (c : char) (s : str) : str := trim_end_by (Z.eqb c) s.

(** ** Splitting *)

(** [s.split(p)]: one more part than there are separators, never empty. *)
Fixpoint split_by (p : char -> bool) (s : str) : list str :=
  match s with
  | [] => [[]]
  | c :: s' =>
      if p c then [] :: split_by p s'
      else match split_by p s' with
           | part :: parts => (c :: part) :: parts
           | [] => [[c]]
           end
  end.
Definition split (c : char) (s : str) : list str := split_by (Z.eqb c) s.
Definition one_char_of (cs : list char) (c : char) : bool := existsb (Z.eqb c) cs.
Definition split_whitespace (s : str) : list str :=
  List.filter (fun p => negb (is_empty p)) (split_by is_whitespace s).
Definition split_ascii_whitespace (s : str) : list str :=
  List.filter (fun p => negb (is_empty p)) (split_by is_ascii_whitespace s).
(** First part of a split: [s.split(p).next().unwrap_or_default()]. *)
Definition split_first (p : char -> bool) (s : str) : str :=
  match split_by p s with part :: _ => part | [] => [] end.
Fixpoint split_once (c : char) (s : str) : option (str * str) :=
  match s with
  | [] => None
  | d :: s' =>
      if d =? c then Some ([], s')
      else match split_once c s' with
           | Some (a, b) => Some (d :: a, b)
           | None => None
           end
  end.
(** [s.lines()]: pieces ended by LF, a CR before that LF dropped, and no
    piece after a final LF. *)
Definition strip_cr (s : str) : str :=
  match rev s with
  | c :: r => if c =? ch_cr then rev r else s
  | [] => s
  end.
Fixpoint lines_of (parts : list str) : list str :=
  match parts with
  | [] => []
  | [last] => if is_empty last then [] else [last]
  | p :: parts' => strip_cr p :: lines_of parts'
  end.
Definition lines (s : str) : list str := lines_of (split ch_lf s).

Fixpoint join (sep : str) (parts : list str) : str :=
  match parts with
  | [] => []
  | [p] => p
  | p :: parts' => p ++ sep ++ join sep parts'
  end.

(** [trim_matches] with a character predicate. *)
Definition trim_matches (p : char -> bool) (s : str) : str := trim_end_by p (trim_start_by p s).

(** Decimal digits of a non-negative integer below 10^20. *)
Fixpoint dec_digits (fuel : nat) (n : Z) (acc : str) : str :=
  match fuel with
  | 0%nat => acc
  | S fuel => let acc := (48 + n mod 10) :: acc in if n <? 10 then acc else dec_digits fuel (n / 10) acc
  end.
Definition dec (n : Z) : str := dec_digits 20 n [].

(** ** Bytes *)

(** [str::as_bytes]: UTF-8. *)
Definition utf8_char (c : char) : list Z :=
  if c <? 128 then [c]
  else if c <? 2048 then [192 + c / 64; 128 + c mod 64]
  else if c <? 65536 then [224 + c / 4096; 128 + c / 64 mod 64; 128 + c mod 64]
  else [240 + c / 262144; 128 + c / 4096 mod 64; 128 + c / 64 mod 64; 128 + c mod 64].
Definition as_bytes (s : str) : list Z := concat (map utf8_char s).

Definition is_byte (b : Z) : Prop := 0 <= b < 256.

(** [str::from_utf8]: no overlong form, surrogate or value above 0x10FFFF. *)
Definition continuation (b : Z) : bool := between 128 191 b.
Fixpoint from_utf8 (bytes : list Z) : option str :=
  match bytes with
  | [] => Some []
  | a :: r =>
      if a <? 128 then cons a <$> from_utf8 r
      else match r with
      | [] => None
      | b :: r =>
          if between 194 223 a then
            if continuation b then cons ((a - 192) * 64 + (b - 128)) <$> from_utf8 r else None
          else match r with
          | [] => None
          | c :: r =>
              if between 224 239 a then
                let v := (a - 224) * 4096 + (b - 128) * 64 + (c - 128) in
                if continuation b && continuation c && (2048 <=? v) && negb (between 55296 57343 v)
                then cons v <$> from_utf8 r else None
              else match r with
              | [] => None
              | d :: r =>
                  let v := (a - 240) * 262144 + (b - 128) * 4096 + (c - 128) * 64 + (d - 128) in
                  if between 240 244 a && continuation b && continuation c && continuation d &&
                     between 65536 1114111 v
                  then cons v <$> from_utf8 r else None
              end
          end
      end
  end.

(** [{byte:02x}]. *)
Definition hex_char (n : Z) : char := if n <? 10 then 48 + n else 87 + n.
Definition encode_byte (byte : Z) : str := [hex_char (byte / 16); hex_char (byte mod 16)].

(** ** Searching *)

Fixpoint starts_with (p s : str) : bool :=
  match p, s with
  | [], _ => true
  | c :: p', d :: s' => (c =? d) && starts_with p' s'
  | _ :: _, [] => false
  end.
Definition ends_with (p s : str) : bool := starts_with (rev p) (rev s).
Fixpoint find (p s : str) : option nat :=
  if starts_with p s then Some 0%nat
  else match s with [] => None | _ :: s' => S <$> find p s' end.
Fixpoint rfind (p s : str) : option nat :=
  match s with
  | [] => if is_empty p then Some 0%nat else None
  | _ :: s' =>
      match rfind p s' with
      | Some i => Some (S i)
      | None => if starts_with p s then Some 0%nat else None
      end
  end.
(** [strip_prefix] and [strip_suffix]. *)
Definition strip_prefix (p s : str) : option str :=
  if starts_with p s then Some (drop (length p) s) else None.
Definition strip_suffix (p s : str) : option str :=
  if ends_with p s then Some (take (length s - length p) s) else None.
Definition contains_char (c : char) (s : str) : bool := existsb (Z.eqb c) s.
Definition contains (p s : str) : bool := match find p s with Some _ => true | None => false end.

(** ** Numbers: [str::parse] *)

Definition digits_value (s : str) : Z := fold_left (fun n c => 10 * n + (c - 48)) s 0.
Definition all_digits (s : str) : bool := forallb is_ascii_digit s.
Definition parse_u64 (s : str) : option Z :=
  let body := match s with 43 :: b => b | _ => s end in
  if negb (is_empty body) && all_digits body && (digits_value body <=? u64_max)
  then Some (digits_value body) else None.
Definition parse_i64 (s : str) : option Z :=
  let '(neg, body) :=
    match s with 43 :: b => (false, b) | 45 :: b => (true, b) | _ => (false, s) end in
  let v := if neg then - digits_value body else digits_value body in
  if negb (is_empty body) && all_digits body && (i64_min <=? v) && (v <=? i64_max)
  then Some v else None.

(** [Ord] of [str]: lexicographic, by bytes and so by scalar values. *)
Fixpoint str_cmp (a b : str) : comparison :=
  match a, b with
  | [], [] => Eq
  | [], _ => Lt
  | _, [] => Gt
  | x :: a', y :: b' => match x ?= y with Eq => str_cmp a' b' | order => order end
  end.
Definition str_ltb (a b : str) : bool := match str_cmp a b with Lt => true | _ => false end.

(** ** Lemmas *)

Lemma str_eqb_eq a b : str_eqb a b = true <-> a = b.
Proof. apply bool_decide_eq_true. Qed.

Lemma str_eqb_refl a : str_eqb a a = true.
Proof. by apply str_eqb_eq. Qed.

Lemma is_empty_true {A} (l : list A) : is_empty l = true <-> l = [].
Proof. by destruct l. Qed.

Lemma is_empty_false {A} (l : list A) : is_empty l = false <-> l <> [].
Proof. by destruct l. Qed.

Lemma one_of_In s words : one_of s words = true <-> exists w, In w words /\ s = lit w.
Proof. unfold one_of. rewrite existsb_exists. by setoid_rewrite str_eqb_eq. Qed.

Lemma starts_with_spec p s : starts_with p s = true <-> exists t, s = p ++ t.
Proof.
  revert s; induction p as [|c p IH]; intros [|d s]; cbn.
  - naive_solver.
  - naive_solver.
  - split; [done|]. intros (t & ?); done.
  - rewrite andb_true_iff, Z.eqb_eq, IH. naive_solver.
Qed.

Lemma starts_with_app p t : starts_with p (p ++ t) = true.
Proof. apply starts_with_spec. eauto. Qed.

Lemma ends_with_spec p s : ends_with p s = true <-> exists t, s = t ++ p.
Proof.
  unfold ends_with. rewrite starts_with_spec. split; intros [t Ht].
  - exists (rev t). by rewrite <- (rev_involutive s), Ht, rev_app_distr, rev_involutive.
  - exists (rev t). by rewrite Ht, rev_app_distr.
Qed.

(** [find] returns the leftmost occurrence. *)
Lemma find_Some p s i :
  find p s = Some i ->
  exists a b, s = a ++ p ++ b /\ length a = i /\
    forall a' b', s = a' ++ p ++ b' -> (i <= length a')%nat.
Proof.
  revert i; induction s as [|c s IH]; intros i; cbn [find];
    destruct (starts_with p _) eqn:Hp; intros Hf; simplify_eq/=;
    try (apply starts_with_spec in Hp as [t Ht]; exists [], t; cbn; repeat split;
         [done|lia]).
  destruct (find p s) as [j|] eqn:Hj; simplify_eq/=.
  destruct (IH j eq_refl) as (a & b & -> & <- & Hmin).
  exists (c :: a), b. repeat split. intros [|c' a'] b' Heq; cbn in *.
  - exfalso. rewrite Heq in Hp. by rewrite starts_with_app in Hp.
  - injection Heq as _ Heq. apply Hmin in Heq. lia.
Qed.

Lemma find_None p s : find p s = None <-> forall a b, s <> a ++ p ++ b.
Proof.
  split.
  - induction s as [|c s IH]; cbn [find]; destruct (starts_with p _) eqn:Hp; try done;
      intros Hf a b Heq.
    + destruct a; cbn in *; [|done]. rewrite Heq, starts_with_app in Hp. done.
    + destruct (find p s); [done|]. destruct a as [|c' a]; cbn in *.
      * rewrite Heq, starts_with_app in Hp. done.
      * simplify_eq. by eapply IH.
  - intros Hn. destruct (find p s) eqn:Hf; [|done].
    apply find_Some in Hf as (a & b & -> & _). by destruct (Hn a b).
Qed.

Lemma find_is_Some p s : is_Some (find p s) <-> exists a b, s = a ++ p ++ b.
Proof.
  split.
  - intros [i Hi]. apply find_Some in Hi as (a & b & -> & _). eauto.
  - intros (a & b & ->). destruct (find p _) eqn:Hf; [eauto|].
    rewrite find_None in Hf. by destruct (Hf a b).
Qed.

Lemma rfind_Some p s i :
  rfind p s = Some i -> exists a b, s = a ++ p ++ b /\ length a = i.
Proof.
  revert i; induction s as [|c s IH]; intros i; cbn [rfind].
  - destruct p; [|done]. intros [= <-]. by exists [], [].
  - destruct (rfind p s) as [j|].
    + intros [= <-]. destruct (IH j eq_refl) as (a & b & -> & <-). by exists (c :: a), b.
    + destruct (starts_with p _) eqn:Hp; [|done]. intros [= <-].
      apply starts_with_spec in Hp as [t ->]. by exists [], t.
Qed.

(** A suffix is the rightmost occurrence. *)
Lemma rfind_suffix p a : rfind p (a ++ p) = Some (length a).
Proof.
  induction a as [|c a IH]; cbn [app rfind length].
  - assert (Hlong : forall s, (length s < length p)%nat -> rfind p s = None).
    { intros s Hs. destruct (rfind p s) eqn:Hr; [|done].
      apply rfind_Some in Hr as (x & y & -> & _). rewrite !length_app in Hs. lia. }
    destruct p as [|c p]; cbn [rfind]; [done|].
    rewrite Hlong by (cbn; lia).
    by rewrite (proj2 (starts_with_spec (c :: p) (c :: p))) by (exists []; by rewrite app_nil_r).
  - by rewrite IH.
Qed.

Lemma split_by_nonempty p s : split_by p s <> [].
Proof. destruct s as [|c s]; cbn; [done|]. destruct (p c); [done|]. by destruct (split_by p s). Qed.

Lemma split_by_cons_skip p c s part parts :
  p c = false -> split_by p s = part :: parts -> split_by p (c :: s) = (c :: part) :: parts.
Proof. intros Hc Hs. cbn. by rewrite Hc, Hs. Qed.

(** Splitting at the first separator. *)
Lemma split_by_app p a c b :
  forallb (fun x => negb (p x)) a = true -> p c = true ->
  split_by p (a ++ c :: b) = a :: split_by p b.
Proof.
  intros Ha Hc. induction a as [|x a IH]; cbn in *; [by rewrite Hc|].
  bool_to_prop. rewrite H, IH by done. done.
Qed.

Lemma split_by_none p a :
  forallb (fun x => negb (p x)) a = true -> split_by p a = [a].
Proof.
  induction a as [|x a IH]; cbn; [done|]. intros. bool_to_prop. by rewrite H, IH.
Qed.

Lemma split_parts_clean p s part :
  In part (split_by p s) -> forallb (fun x => negb (p x)) part = true.
Proof.
  revert part; induction s as [|c s IH]; cbn; intros part; [by intros [<-|[]]|].
  destruct (p c) eqn:Hc; [by intros [<-|H]; [|apply IH]|].
  destruct (split_by p s) as [|q qs] eqn:Hs.
  - intros [<-|[]]. cbn. by rewrite Hc.
  - intros [<-|H]; [|by apply IH; right]. cbn. rewrite Hc. cbn. apply IH. by left.
Qed.

Lemma split_once_Some c s a b :
  split_once c s = Some (a, b) -> s = a ++ c :: b /\ contains_char c a = false.
Proof.
  revert a b; induction s as [|d s IH]; cbn; intros a b; [done|].
  destruct (Z.eqb_spec d c) as [->|Hd]; [by intros [= <- <-]|].
  destruct (split_once c s) as [[a' b']|]; [|done]. intros [= <- <-].
  destruct (IH a' b' eq_refl) as [-> Ha]. split; [done|]. cbn.
  rewrite (proj2 (Z.eqb_neq c d)) by lia. done.
Qed.

(** The longest prefix of characters satisfying [p], and the rest. *)
Fixpoint span (p : char -> bool) (s : str) : str * str :=
  match s with
  | [] => ([], [])
  | c :: s' => if p c then let '(a, b) := span p s' in (c :: a, b) else ([], s)
  end.

Lemma span_app p s a b : span p s = (a, b) -> s = a ++ b.
Proof.
  revert a b; induction s as [|c s IH]; cbn; intros a b.
  - by intros [= <- <-].
  - destruct (p c); [|by intros [= <- <-]].
    destruct (span p s) as [a' b']. intros [= <- <-]. cbn. by f_equal; apply IH.
Qed.

Lemma span_prefix p a s :
  forallb p a = true -> span p (a ++ s) = (a ++ (span p s).1, (span p s).2).
Proof.
  induction a as [|c a IH]; cbn; [by destruct (span p s)|].
  intros Ha. bool_to_prop. by rewrite H, IH.
Qed.

Lemma span_stop p s : match s with [] => True | c :: _ => p c = false end -> span p s = ([], s).
Proof. destruct s as [|c s]; cbn; [done|]. by intros ->. Qed.

(** ** Splitting and joining *)

Lemma split_app c a b : split c (a ++ c :: b) = split c a ++ split c b.
Proof.
  unfold split. induction a as [|x a IH]; cbn; [by rewrite Z.eqb_refl|].
  destruct (c =? x); [by rewrite IH|]. rewrite IH.
  pose proof (split_by_nonempty (Z.eqb c) a). by destruct (split_by (Z.eqb c) a).
Qed.

Lemma split_clean c s : c ∉ s -> split c s = [s].
Proof.
  intros Hc. apply split_by_none, forallb_forall. intros d Hd%list_elem_of_In.
  apply negb_true_iff, Z.eqb_neq. by intros ->.
Qed.

Lemma join_cons sep p parts : parts <> [] -> join sep (p :: parts) = p ++ sep ++ join sep parts.
Proof. by destruct parts. Qed.
Lemma split_join_char c parts :
  parts <> [] -> Forall (fun s => c ∉ s) parts -> split c (join [c] parts) = parts.
Proof.
  induction parts as [|s parts IH]; intros Hne Hs; [done|]. apply Forall_cons in Hs as [Hs Hss].
  destruct parts as [|s' parts]; [by apply split_clean|].
  rewrite join_cons by done. change ([c] ++ ?x) with (c :: x).
  rewrite split_app, split_clean, IH by done. done.
Qed.

Lemma join_app sep xs ys :
  xs <> [] -> ys <> [] -> join sep (xs ++ ys) = join sep xs ++ sep ++ join sep ys.
Proof.
  intros Hx Hy. induction xs as [|x xs IH]; [done|]. destruct xs as [|x' xs].
  - cbn [app]. by rewrite join_cons.
  - change ((x :: x' :: xs) ++ ys) with (x :: (x' :: xs) ++ ys).
    rewrite !join_cons by done. rewrite IH by done. by rewrite <- !app_assoc.
Qed.

Lemma join_split c s : join [c] (split c s) = s.
Proof.
  unfold split. induction s as [|x s IH]; [done|]. cbn [split_by].
  pose proof (split_by_nonempty (Z.eqb c) s) as Hne.
  destruct (Z.eqb_spec c x) as [<-|_].
  - rewrite join_cons by done. cbn. by rewrite IH.
  - destruct (split_by (Z.eqb c) s) as [|part parts]; [done|].
    destruct parts; [by rewrite <- IH|]. rewrite join_cons in IH |- * by done. by rewrite <- IH.
Qed.

Lemma strip_suffix_Some p s t : strip_suffix p s = Some t <-> s = t ++ p.
Proof.
  unfold strip_suffix. destruct (ends_with p s) eqn:He.
  - apply ends_with_spec in He as [u ->]. rewrite length_app.
    replace (length u + length p - length p)%nat with (length u) by lia. rewrite take_app_length.
    split; [by intros [= <-]|]. intros H%app_inv_tail. by subst.
  - split; [done|]. intros ->. exfalso. assert (ends_with p (t ++ p) = true); [|congruence].
    apply ends_with_spec. eauto.
Qed.

Lemma strip_prefix_Some p s t : strip_prefix p s = Some t <-> s = p ++ t.
Proof.
  unfold strip_prefix. destruct (starts_with p s) eqn:He.
  - apply starts_with_spec in He as [u ->]. rewrite drop_app_length.
    split; [by intros [= <-]|]. intros H%app_inv_head. by subst.
  - split; [done|]. intros ->. by rewrite starts_with_app in He.
Qed.

Lemma str_cmp_Eq a b : str_cmp a b = Eq <-> a = b.
Proof.
  revert b; induction a as [|x a IH]; intros [|y b]; cbn; try done.
  destruct (Z.compare_spec x y) as [->|?|?]; [rewrite IH; naive_solver|..];
    (split; [done|intros [= -> _]; lia]).
Qed.

Lemma str_cmp_opp a b : str_cmp b a = CompOpp (str_cmp a b).
Proof.
  revert b; induction a as [|x a IH]; intros [|y b]; cbn; try done.
  rewrite (Z.compare_antisym x y). destruct (x ?= y); cbn; [apply IH|done..].
Qed.

Lemma str_cmp_Lt_trans a b c : str_cmp a b = Lt -> str_cmp b c = Lt -> str_cmp a c = Lt.
Proof.
  revert b c; induction a as [|x a IH]; intros [|y b] [|z c]; cbn; try done.
  intros H1 H2. destruct (Z.compare_spec x y) as [->|?|?], (Z.compare_spec y z) as [->|?|?];
    try done; try (rewrite (proj2 (Z.compare_lt_iff _ _)); (done || lia)).
  all: first [by apply (IH b) | by rewrite Z.compare_refl; apply (IH b)].
Qed.
Lemma str_le_trans a b c : cmp_le str_cmp a b -> cmp_le str_cmp b c -> cmp_le str_cmp a c.
Proof.
  unfold cmp_le. intros H1 H2. destruct (str_cmp a b) eqn:E1; [apply str_cmp_Eq in E1 as ->; done| |done].
  destruct (str_cmp b c) eqn:E2; [apply str_cmp_Eq in E2 as <-; congruence| |done].
  by rewrite (str_cmp_Lt_trans _ _ _ E1 E2).
Qed.

Lemma str_ltb_trans a b c : str_ltb a b = true -> str_ltb b c = true -> str_ltb a c = true.
Proof.
  unfold str_ltb. destruct (str_cmp a b) eqn:H1; try done. destruct (str_cmp b c) eqn:H2; try done.
  by rewrite (str_cmp_Lt_trans a b c).
Qed.

Lemma str_ltb_irrefl a : str_ltb a a = false.
Proof. unfold str_ltb. by rewrite (proj2 (str_cmp_Eq a a)). Qed.

Lemma split_once_None c s : split_once c s = None -> c ∉ s.
Proof.
  induction s as [|d s IH]; cbn; [intros _; apply not_elem_of_nil|].
  destruct (Z.eqb_spec d c) as [->|Hd]; [done|].
  destruct (split_once c s) as [[? ?]|]; [done|]. intros _.
  apply not_elem_of_cons. split; [done|by apply IH].
Qed.

Lemma contains_char_false c s : contains_char c s = false <-> c ∉ s.
Proof.
  unfold contains_char. induction s as [|d s IH]; cbn; [split; [intros _; apply not_elem_of_nil|done]|].
  rewrite orb_false_iff, IH, not_elem_of_cons, Z.eqb_neq. naive_solver.
Qed.

(** Where another occurrence of the separator lies relative to the first. *)
Lemma split_at_first (c : char) (a b p s : str) :
  c ∉ a -> a ++ c :: b = p ++ c :: s ->
  (p = a /\ s = b) \/ exists p', p = a ++ c :: p' /\ b = p' ++ c :: s.
Proof.
  revert p; induction a as [|x a IH]; intros [|y p] Hc E; cbn in E.
  - injection E as ->. by left.
  - injection E as -> ->. right. by exists p.
  - injection E as -> _. exfalso. apply Hc. left.
  - injection E as -> E. apply not_elem_of_cons in Hc as [_ Hc].
    destruct (IH p Hc E) as [[-> ->]|(p' & -> & ->)]; [by left|right; by exists p'].
Qed.

(** ** Numbers *)

Lemma digits_value_nonneg s : all_digits s = true -> 0 <= digits_value s.
Proof.
  unfold digits_value, all_digits. intros Hs. assert (0 <= 0) as Hacc by lia. revert Hacc Hs.
  generalize 0 at 2 4 as acc. induction s as [|c s IH]; intros acc Hacc Hs; [done|].
  cbn in Hs |- *. unfold is_ascii_digit at 1, between in Hs. bool_to_prop. apply IH; [lia|done].
Qed.

Lemma parse_u64_nonneg s n : parse_u64 s = Some n -> 0 <= n.
Proof.
  unfold parse_u64. repeat case_match; try done; intros [= <-]; bool_to_prop; by apply digits_value_nonneg.
Qed.

(** ** UTF-8 *)

Lemma byte_len_as_bytes s : byte_len s = Z.of_nat (length (as_bytes s)).
Proof.
  induction s as [|c s IH]; [done|]. change (byte_len (c :: s)) with (char_len c + byte_len s).
  rewrite IH. unfold as_bytes; cbn. rewrite length_app.
  unfold char_len, utf8_char. repeat case_match; cbn; lia.
Qed.

(** A Unicode scalar value: what a [char] can be. *)
Definition scalar_value (c : char) : Prop := 0 <= c < 55296 \/ 57343 < c <= 1114111.

Lemma from_utf8_char c rest :
  scalar_value c -> from_utf8 (utf8_char c ++ rest) = cons c <$> from_utf8 rest.
Proof.
  intros Hc. unfold utf8_char, scalar_value in *.
  destruct (Z.ltb_spec c 128); [cbn; by rewrite (proj2 (Z.ltb_lt _ _)) by lia|].
  assert (forall x lo hi, lo <= x <= hi -> between lo hi x = true) as Hin
    by (intros; unfold between; rewrite !(proj2 (Z.leb_le _ _)) by lia; done).
  assert (forall x lo hi, x < lo \/ hi < x -> between lo hi x = false) as Hout.
  { intros x lo hi [?|?]; unfold between; [by rewrite (proj2 (Z.leb_gt _ _)) by lia|].
    rewrite (proj2 (Z.leb_gt x hi)) by lia. by rewrite andb_false_r. }
  destruct (Z.ltb_spec c 2048); [|destruct (Z.ltb_spec c 65536)]; cbn [app from_utf8]; unfold continuation.
  - rewrite (proj2 (Z.ltb_ge _ _)) by (Z.to_euclidean_division_equations; lia).
    rewrite !Hin by (Z.to_euclidean_division_equations; lia).
    do 2 f_equal. Z.to_euclidean_division_equations. lia.
  - rewrite (proj2 (Z.ltb_ge _ _)) by (Z.to_euclidean_division_equations; lia).
    rewrite (Hout _ 194 223) by (Z.to_euclidean_division_equations; lia).
    rewrite (Hin _ 224 239) by (Z.to_euclidean_division_equations; lia).
    replace ((224 + c / 4096 - 224) * 4096 + (128 + c / 64 mod 64 - 128) * 64 + (128 + c mod 64 - 128)) with c
      by (Z.to_euclidean_division_equations; lia).
    rewrite !(Hin _ 128 191) by (Z.to_euclidean_division_equations; lia).
    rewrite (proj2 (Z.leb_le _ _)), Hout by lia. done.
  - rewrite (proj2 (Z.ltb_ge _ _)) by (Z.to_euclidean_division_equations; lia).
    rewrite (Hout _ 194 223), (Hout _ 224 239) by (Z.to_euclidean_division_equations; lia).
    replace ((240 + c / 262144 - 240) * 262144 + (128 + c / 4096 mod 64 - 128) * 4096 +
             (128 + c / 64 mod 64 - 128) * 64 + (128 + c mod 64 - 128)) with c
      by (Z.to_euclidean_division_equations; lia).
    rewrite (Hin _ 240 244), !(Hin _ 128 191), (Hin _ 65536 1114111)
      by (Z.to_euclidean_division_equations; lia). done.
Qed.

Lemma from_utf8_as_bytes s : Forall scalar_value s -> from_utf8 (as_bytes s) = Some s.
Proof.
  induction 1 as [|c s Hc _ IH]; [done|]. unfold as_bytes in *. cbn [map concat].
  by rewrite from_utf8_char, IH.
Qed.
