(* ===== verification/Floats.v ===== *)
(** * Decimal text to binary floating point, and durations

    [str::parse::<f32>] and [::<f64>] as the Rust reference defines their
    grammar, with correct rounding to nearest even through the Standard
    Library's [SpecFloat]; and [Duration::from_secs_f32]. *)

From Stdlib Require Import SpecFloat.
From S2P Require Import Prelude Text.

#[local] Open Scope Z_scope.

Abbreviation float := spec_float.

(** ** Grammar *)

(** Optional sign; [true] is negative. *)
Definition take_sign (s : str) : bool * str :=
  match s with 43 :: s' => (false, s') | 45 :: s' => (true, s') | _ => (false, s) end.

(** [Exp ::= 'e' Sign? Digit+], or nothing. *)
Definition parse_exponent (s : str) : option Z :=
  match s with
  | [] => Some 0
  | c :: s' =>
      if to_ascii_lower c =? 101 then
        let '(neg, ds) := take_sign s' in
        if negb (is_empty ds) && all_digits ds
        then Some (if neg then - digits_value ds else digits_value ds) else None
      else None
  end.

(** [Number]: its digits as one integer, and the power of ten it is scaled by. *)
Definition parse_number (s : str) : option (Z * Z) :=
  let '(int, rest) := span is_ascii_digit s in
  let '(frac, rest) :=
    match rest with 46 :: r => span is_ascii_digit r | _ => ([], rest) end in
  if is_empty int && is_empty frac then None
  else e ← parse_exponent rest;
       Some (digits_value (int ++ frac), e - Z.of_nat (length frac)).

(** ** Rounding *)

Section Width.
Context (prec emax : Z).

(** [m * 10^d] to the nearest float. Beyond four hundred decimal places the
    result is an infinity or a zero in both widths, without the power. *)
Definition round_decimal (neg : bool) (m d : Z) : float :=
  match m with
  | Zpos p =>
      let magnitude := Z.log2 m * 30103 / 100000 + d in
      if 400 <? magnitude then S754_infinity neg
      else if magnitude <? -800 then S754_zero neg
      else if 0 <=? d then
        match m * 10 ^ d with
        | Zpos q => binary_round prec emax neg q 0
        | _ => S754_zero neg
        end
      else
        let '(q, e, l) := SFdiv_core_binary prec emax m 0 (10 ^ (- d)) 0 in
        binary_round_aux prec emax neg q e l
  | _ => S754_zero neg
  end.

Definition parse_float (s : str) : option float :=
  let '(neg, body) := take_sign s in
  let word := to_ascii_lowercase body in
  if one_of word ["inf"; "infinity"]%string then Some (S754_infinity neg)
  else if str_eqb word (lit "nan") then Some S754_nan
  else '(m, d) ← parse_number body; Some (round_decimal neg m d).
End Width.

Definition parse_f32 : str -> option float := parse_float 24 128.
Definition parse_f64 : str -> option float := parse_float 53 1024.

(** ** Tests on floats *)

(** [x >= 0.0]: false on NaN, true on both zeros. *)
Definition ge_zero (x : float) : bool :=
  match x with
  | S754_zero _ => true
  | S754_infinity s => negb s
  | S754_finite s _ _ => negb s
  | S754_nan => false
  end.
Definition is_finite (x : float) : bool :=
  match x with S754_zero _ | S754_finite _ _ _ => true | _ => false end.

(** ** [Duration::from_secs_f32]

    Nanoseconds, rounded to nearest even; [None] is the panic on a negative,
    too large or non-finite argument. *)

Definition round_half_even (n d : Z) : Z :=
  let q := n / d in
  let r := n mod d in
  if 2 * r <? d then q
  else if d <? 2 * r then q + 1
  else if Z.even q then q else q + 1.

Definition scaled (k m e : Z) : Z :=
  if 0 <=? e then k * m * 2 ^ e else round_half_even (k * m) (2 ^ (- e)).

Definition from_secs_f32 (x : float) : option Z :=
  match x with
  | S754_zero _ => Some 0
  | S754_finite false m e =>
      let nanos := scaled 1000000000 (Zpos m) e in
      if nanos <? 2 ^ 64 * 1000000000 then Some nanos else None
  | _ => None
  end.

(** ** Multiplication and rounding up, for [(seconds * 1000.0).ceil()] *)

Definition f64_1000 : float := binary_round 53 1024 false 1000 0.
Definition f64_mul (x y : float) : float := SFmul 53 1024 x y.
(** The exact value of [x.ceil()] when [x] is finite. *)
Definition ceil_Z (x : float) : Z :=
  match x with
  | S754_finite s m e =>
      let v := if s then Zneg m else Zpos m in
      if 0 <=? e then v * 2 ^ e else - ((- v) / 2 ^ (- e))
  | _ => 0
  end.
