(* ===== verification/RobotsPattern.v ===== *)
(** * robots.txt path patterns ([crates/robotstxt/src/pattern.rs])

    [Pattern_new] and [Pattern_matches] translate [Pattern::new] and
    [Pattern::matches]; the specification is the wildcard language [glob],
    and the main theorem says that the greedy left-to-right matcher of the
    code decides exactly that language. *)

From S2P Require Import Prelude Text Externals.

#[local] Open Scope Z_scope.

Section Pattern.
Context `{PercentEncoding}.

Record Pattern := { pattern : str; pattern_len : Z }.

(** The ASCII set of [percent_encode]: controls, space, quote, [<], [>] and
    backquote. *)
Definition FRAGMENT (c : char) : bool :=
  between 0 31 c || (c =? 127) || (c =? 32) || (c =? 34) || (c =? 60) ||
  (c =? 62) || (c =? 96).

Definition percent_encode (input : str) : str :=
  utf8_percent_encode FRAGMENT (percent_decode_lossy input).

(** [Ord for Pattern]: longer source text first. *)
Definition Pattern_cmp (a b : Pattern) : comparison :=
  CompOpp (Z.compare (pattern_len a) (pattern_len b)).

Definition Pattern_new (raw : str) : Pattern :=
  let len := byte_len raw in
  let p := percent_encode raw in
  if contains_char ch_dollar p
  then {| pattern := split_first (Z.eqb ch_dollar) p ++ lit "$"; pattern_len := len |}
  else {| pattern := p; pattern_len := len |}.

(** The loop of [Pattern::matches] from part number [idx] on; [start] is the
    position in [path] reached so far. *)
Fixpoint matches_from (path : str) (parts : list str) (idx start : nat) : bool :=
  match parts with
  | [] => true
  | part :: parts' =>
      if ends_with (lit "$") part then
        if (0 <? idx)%nat && forallb (Z.eqb ch_dollar) part then true
        else
          let part := trim_end_matches ch_dollar part in
          if (idx =? 0)%nat then str_eqb path part
          else match rfind part (drop start path) with
               | Some i => (start + (i + length part) =? length path)%nat
               | None => false
               end
      else if (idx =? 0)%nat then
        if negb (starts_with part path) then false
        else matches_from path parts' (S idx) (start + length part)
      else match find part (drop start path) with
           | Some i => matches_from path parts' (S idx) (start + (i + length part))
           | None => false
           end
  end.

Definition Pattern_matches (p : Pattern) (path : str) : bool :=
  matches_from (percent_encode path) (split ch_star (pattern p)) 0 0.

(** ** The wildcard language

    [*] stands for any string, every other character for itself. *)
Inductive glob : str -> str -> Prop :=
| glob_nil : glob [] []
| glob_char c p s : c <> ch_star -> glob p s -> glob (c :: p) (c :: s)
| glob_star_stop p s : glob p s -> glob (ch_star :: p) s
| glob_star_more c p s : glob (ch_star :: p) s -> glob (ch_star :: p) (c :: s).

(** A pattern with a [$] must match the whole path, up to the first [$];
    any other pattern must match a prefix of it. *)
Definition pattern_language (p path : str) : Prop :=
  if contains_char ch_dollar p
  then glob (split_first (Z.eqb ch_dollar) p) path
  else exists pre post, path = pre ++ post /\ glob p pre.

(** Parts found one after the other with arbitrary gaps, the text after the
    last one being free ([floats]) or empty ([floats_end]). *)
Fixpoint floats (parts : list str) (s : str) : Prop :=
  match parts with
  | [] => True
  | p :: ps => exists a b, s = a ++ p ++ b /\ floats ps b
  end.
Fixpoint floats_end (parts : list str) (s : str) : Prop :=
  match parts with
  | [] => s = []
  | [p] => exists a, s = a ++ p
  | p :: ps => exists a b, s = a ++ p ++ b /\ floats_end ps b
  end.

Lemma glob_char_iff c p s :
  c <> ch_star -> glob (c :: p) s <-> exists s', s = c :: s' /\ glob p s'.
Proof.
  intros Hc. split; [inversion 1; naive_solver|].
  intros (s' & -> & Hg). by constructor.
Qed.

Lemma glob_star_iff p s : glob (ch_star :: p) s <-> exists a b, s = a ++ b /\ glob p b.
Proof.
  split.
  - remember (ch_star :: p) as q eqn:Hq. induction 1; simplify_eq.
    + exists [], s. done.
    + destruct (IHglob eq_refl) as (a & b & -> & Hg). exists (c :: a), b. done.
  - intros (a & b & -> & Hg). induction a; cbn; by constructor.
Qed.

Lemma glob_nil_iff s : glob [] s <-> s = [].
Proof. split; [by inversion 1|intros ->; constructor]. Qed.

Lemma floats_end_cons p ps s :
  floats_end (p :: ps) s <-> exists a b, s = a ++ p ++ b /\ floats_end ps b.
Proof.
  destruct ps as [|q qs]; cbn; [|done]. split.
  - intros (a & ->). exists a, []. by rewrite app_nil_r.
  - intros (a & b & -> & ->). exists a. by rewrite app_nil_r.
Qed.

(** The language read off the parts between the stars. *)
Lemma glob_split p : forall s part parts,
  split ch_star p = part :: parts ->
  glob p s <-> exists b, s = part ++ b /\ floats_end parts b.
Proof.
  unfold split. induction p as [|c p IH]; intros s part parts; cbn [split_by].
  - intros [= <- <-]. rewrite glob_nil_iff. cbn. naive_solver.
  - pose proof (split_by_nonempty (Z.eqb ch_star) p) as Hne.
    destruct (split_by (Z.eqb ch_star) p) as [|q qs] eqn:Hs; [done|].
    destruct (Z.eqb_spec ch_star c) as [<-|Hc]; intros [= <- <-].
    + rewrite glob_star_iff. setoid_rewrite (fun b => IH b q qs eq_refl).
      cbn [app]. setoid_rewrite floats_end_cons. naive_solver.
    + rewrite glob_char_iff by done. setoid_rewrite (fun b => IH b q qs eq_refl).
      naive_solver.
Qed.

Lemma floats_of_end parts b : floats parts b <-> exists x y, b = x ++ y /\ floats_end parts x.
Proof.
  revert b; induction parts as [|p ps IH]; intros b; cbn [floats].
  - split; [by exists [], b|done].
  - setoid_rewrite floats_end_cons. setoid_rewrite IH. split.
    + intros (a & c & -> & x & y & -> & Hx).
      exists (a ++ p ++ x), y. rewrite <- !app_assoc. eauto.
    + intros (x & y & -> & a & c & -> & Hc).
      exists a, (c ++ y). rewrite <- !app_assoc. eauto.
Qed.

(** A longer gap before the first part changes nothing. *)
Lemma floats_gap parts x b : floats parts b -> floats parts (x ++ b).
Proof.
  destruct parts as [|p ps]; cbn; [done|].
  intros (a & c & -> & Hf). exists (x ++ a), c. by rewrite app_assoc.
Qed.
Lemma floats_end_gap p ps x b : floats_end (p :: ps) b -> floats_end (p :: ps) (x ++ b).
Proof.
  rewrite !floats_end_cons. intros (a & c & -> & Hf). exists (x ++ a), c.
  by rewrite app_assoc.
Qed.

(** Taking the leftmost occurrence loses no match: any other occurrence
    leaves a shorter rest. *)
Lemma leftmost_suffices p s (Q : str -> Prop) :
  (forall x b, Q b -> Q (x ++ b)) ->
  (exists a b, s = a ++ p ++ b /\ Q b) <->
  (exists i, find p s = Some i /\ Q (drop (i + length p) s)).
Proof.
  intros Hgap. split.
  - intros (a & b & Hs & HQ).
    destruct (proj2 (find_is_Some p s)) as [i Hi]; [eauto|].
    exists i. split; [done|]. apply find_Some in Hi as (a' & b' & Hs' & Hlen & Hmin).
    assert (i <= length a)%nat as Hle by (eapply Hmin; done).
    replace b with (drop (length a + length p) s) in HQ.
    2: { rewrite Hs, app_assoc, drop_app_length'; [done|by rewrite length_app]. }
    replace (drop (i + length p) s)
      with (take (length a - i) (drop (i + length p) s) ++ drop (length a + length p) s);
      [by apply Hgap|].
    rewrite <- (take_drop (length a - i) (drop (i + length p) s)) at 2.
    f_equal. rewrite drop_drop. f_equal. lia.
  - intros (i & Hi & HQ). apply find_Some in Hi as (a & b & -> & <- & _).
    exists a, b. split; [done|].
    by rewrite app_assoc, drop_app_length' in HQ by (by rewrite length_app).
Qed.

Lemma floats_greedy p ps s :
  floats (p :: ps) s <-> exists i, find p s = Some i /\ floats ps (drop (i + length p) s).
Proof. apply (leftmost_suffices p s (floats ps)). intros. by apply floats_gap. Qed.

Lemma floats_end_greedy p q qs s :
  floats_end (p :: q :: qs) s <->
  exists i, find p s = Some i /\ floats_end (q :: qs) (drop (i + length p) s).
Proof. apply (leftmost_suffices p s (floats_end (q :: qs))). intros. by apply floats_end_gap. Qed.

(** ** The loop of [matches] *)

Definition no_dollar (p : str) : Prop := contains_char ch_dollar p = false.

Lemma ends_with_dollar_no p : no_dollar p -> ends_with (lit "$") p = false.
Proof.
  intros Hp. destruct (ends_with _ p) eqn:He; [|done].
  apply ends_with_spec in He as [t ->].
  unfold no_dollar, contains_char in Hp. rewrite existsb_app in Hp. by bool_to_prop.
Qed.

Lemma ends_with_dollar_yes p : ends_with (lit "$") (p ++ lit "$") = true.
Proof. apply ends_with_spec. eauto. Qed.

Lemma trim_end_matches_dollar p : no_dollar p -> trim_end_matches ch_dollar (p ++ lit "$") = p.
Proof.
  intros Hp. unfold trim_end_matches, trim_end_by. rewrite rev_app_distr.
  change (rev (trim_start_by (Z.eqb ch_dollar) (rev p)) = p).
  rewrite <- (rev_involutive p) at 2. f_equal.
  destruct p as [|c p _] using rev_ind; [done|].
  rewrite rev_app_distr. cbn [rev app trim_start_by].
  unfold no_dollar, contains_char in Hp. rewrite existsb_app in Hp.
  cbn [existsb] in Hp. bool_to_prop. by rewrite (proj2 (Z.eqb_neq _ _)).
Qed.

Lemma forallb_dollar p : forallb (Z.eqb ch_dollar) (p ++ lit "$") = forallb (Z.eqb ch_dollar) p.
Proof. rewrite forallb_app. cbn. by rewrite andb_true_r. Qed.

Lemma no_dollar_forallb p : no_dollar p -> forallb (Z.eqb ch_dollar) p = is_empty p.
Proof.
  destruct p as [|c p]; [done|]. unfold no_dollar, contains_char.
  cbn [existsb forallb]. intros. bool_to_prop. by rewrite (proj2 (Z.eqb_neq _ _)).
Qed.

Lemma matches_from_open path parts idx start :
  Forall no_dollar parts ->
  matches_from path parts (S idx) start = true <-> floats parts (drop start path).
Proof.
  revert idx start; induction parts as [|p ps IH]; intros idx start Hnd; [done|].
  apply Forall_cons in Hnd as [Hp Hps]. rewrite floats_greedy. cbn [matches_from].
  rewrite ends_with_dollar_no by done. cbn [Nat.eqb].
  destruct (find p (drop start path)) as [i|]; [|naive_solver].
  rewrite IH by done. setoid_rewrite drop_drop. naive_solver.
Qed.

(** The parts of a pattern that ends in [$]. *)
Fixpoint dollar_last (parts : list str) : list str :=
  match parts with
  | [] => []
  | [p] => [p ++ lit "$"]
  | p :: ps => p :: dollar_last ps
  end.

Lemma split_dollar p : split ch_star (p ++ lit "$") = dollar_last (split ch_star p).
Proof.
  unfold split. induction p as [|c p IH]; [done|]. cbn [app split_by].
  rewrite IH. pose proof (split_by_nonempty (Z.eqb ch_star) p).
  destruct (split_by (Z.eqb ch_star) p) as [|q [|r qs]]; [done|..];
    by destruct (ch_star =? c).
Qed.

Lemma matches_from_anchored path p ps idx start :
  Forall no_dollar (p :: ps) -> (start <= length path)%nat ->
  matches_from path (dollar_last (p :: ps)) (S idx) start = true <->
  floats_end (p :: ps) (drop start path).
Proof.
  revert p idx start; induction ps as [|q qs IH]; intros p idx start Hnd Hstart.
  - apply Forall_cons in Hnd as [Hp _]. cbn [dollar_last matches_from floats_end].
    rewrite ends_with_dollar_yes, forallb_dollar, no_dollar_forallb,
      trim_end_matches_dollar by done.
    cbn [Nat.ltb Nat.leb Nat.eqb andb]. destruct (is_empty p) eqn:He.
    { apply is_empty_true in He as ->. cbn. split; [|done].
      exists (drop start path). by rewrite app_nil_r. }
    destruct (rfind p (drop start path)) as [i|] eqn:Hr.
    + pose proof Hr as Hlast. apply rfind_Some in Hr as (a & b & Hs & <-).
      assert (length (drop start path) = length a + (length p + length b))%nat as Hl
        by (by rewrite Hs, !length_app).
      rewrite length_drop in Hl. rewrite Nat.eqb_eq. split.
      * intros Heq. exists a. rewrite Hs.
        assert (length b = 0%nat) as ->%nil_length_inv by lia. by rewrite app_nil_r.
      * intros (a' & Ha'). rewrite Ha', rfind_suffix in Hlast.
        injection Hlast as Hlast.
        assert (length (drop start path) = length (a' ++ p)) as Hl' by congruence.
        rewrite length_drop, length_app in Hl'. lia.
    + split; [done|]. intros (a & Ha). by rewrite Ha, rfind_suffix in Hr.
  - apply Forall_cons in Hnd as [Hp Hps]. rewrite floats_end_greedy.
    change (dollar_last (p :: q :: qs)) with (p :: dollar_last (q :: qs)).
    cbn [matches_from]. rewrite ends_with_dollar_no by done. cbn [Nat.eqb].
    destruct (find p (drop start path)) as [i|] eqn:Hf; [|naive_solver].
    apply find_Some in Hf as (a & b & Hs & <- & _).
    assert (length (drop start path) = length a + (length p + length b))%nat as Hl
      by (by rewrite Hs, !length_app).
    rewrite length_drop in Hl.
    rewrite IH by (done || lia). setoid_rewrite drop_drop. naive_solver.
Qed.

Lemma split_first_clean p s :
  forallb (fun c => negb (p c)) (split_first p s) = true.
Proof.
  unfold split_first. pose proof (split_by_nonempty p s).
  destruct (split_by p s) as [|q qs] eqn:Hs; [done|].
  apply (split_parts_clean p s). rewrite Hs. by left.
Qed.

Lemma no_dollar_clean p : forallb (fun c => negb (ch_dollar =? c)) p = true -> no_dollar p.
Proof.
  unfold no_dollar, contains_char. induction p; cbn [forallb existsb]; [done|].
  intros. bool_to_prop. rewrite IHp, orb_false_r by done. by apply Z.eqb_neq.
Qed.

Lemma split_no_dollar p : no_dollar p -> Forall no_dollar (split ch_star p).
Proof.
  unfold split. induction p as [|c p IH]; intros Hp; [by repeat constructor|].
  unfold no_dollar, contains_char in Hp. cbn [existsb] in Hp. bool_to_prop.
  specialize (IH H1). cbn [split_by].
  destruct (ch_star =? c); [by constructor|].
  destruct (split_by (Z.eqb ch_star) p) as [|q qs]; inversion IH; subst;
    (constructor; [|done]); unfold no_dollar, contains_char in *; cbn [existsb];
    rewrite (proj2 (Z.eqb_neq _ _)) by done; done.
Qed.

(** The whole loop, for a pattern without and with a final [$]. *)
Lemma matches_open p path :
  no_dollar p ->
  matches_from path (split ch_star p) 0 0 = true <->
  exists pre post, path = pre ++ post /\ glob p pre.
Proof.
  intros Hp. pose proof (split_no_dollar p Hp) as Hnd.
  pose proof (split_by_nonempty (Z.eqb ch_star) p) as Hne. fold (split ch_star p) in Hne.
  destruct (split ch_star p) as [|q qs] eqn:Hs; [done|]. apply Forall_cons in Hnd as [Hq Hqs].
  setoid_rewrite (fun s => glob_split p s q qs Hs).
  cbn [matches_from]. rewrite ends_with_dollar_no by done. cbn [Nat.eqb].
  destruct (starts_with q path) eqn:Hst; cbn [negb].
  - apply starts_with_spec in Hst as [t ->].
    rewrite matches_from_open by done. rewrite drop_app_length', floats_of_end by lia.
    split.
    + intros (x & y & -> & Hx). exists (q ++ x), y. rewrite <- app_assoc. eauto.
    + intros (pre & post & Heq & b & -> & Hb). rewrite <- app_assoc in Heq.
      apply app_inv_head in Heq as ->. eauto.
  - split; [done|]. intros (pre & post & -> & b & -> & _).
    by rewrite <- app_assoc, starts_with_app in Hst.
Qed.

Lemma matches_anchored p path :
  no_dollar p ->
  matches_from path (split ch_star (p ++ lit "$")) 0 0 = true <-> glob p path.
Proof.
  intros Hp. pose proof (split_no_dollar p Hp) as Hnd. rewrite split_dollar.
  pose proof (split_by_nonempty (Z.eqb ch_star) p) as Hne. fold (split ch_star p) in Hne.
  destruct (split ch_star p) as [|q qs] eqn:Hs; [done|]. apply Forall_cons in Hnd as [Hq Hqs].
  rewrite (glob_split p path q qs Hs). destruct qs as [|r rs].
  - cbn [dollar_last matches_from floats_end].
    rewrite ends_with_dollar_yes, trim_end_matches_dollar by done. cbn [Nat.ltb Nat.leb Nat.eqb andb].
    rewrite str_eqb_eq. split; [intros ->; exists []; by rewrite app_nil_r|].
    intros (b & -> & ->). by rewrite app_nil_r.
  - change (dollar_last (q :: r :: rs)) with (q :: dollar_last (r :: rs)).
    cbn [matches_from]. rewrite ends_with_dollar_no by done. cbn [Nat.eqb].
    destruct (starts_with q path) eqn:Hst; cbn [negb].
    + apply starts_with_spec in Hst as [t ->].
      rewrite matches_from_anchored by (done || (rewrite length_app; lia)).
      rewrite drop_app_length' by lia. split; [eauto|].
      intros (b & Heq & Hb). by apply app_inv_head in Heq as ->.
    + split; [done|]. intros (b & -> & _). by rewrite starts_with_app in Hst.
Qed.

(** C33: [Pattern::matches] on a pattern built by [Pattern::new] decides the
    wildcard language of the percent-normalised pattern text: [*] matches any
    string, the text after the first [$] is ignored and anchors the match at
    the end of the path, and every other pattern is a prefix match. *)
Theorem pattern_matches_language raw path :
  Pattern_matches (Pattern_new raw) path = true <->
  pattern_language (percent_encode raw) (percent_encode path).
Proof.
  unfold Pattern_matches, Pattern_new, pattern_language.
  destruct (contains_char ch_dollar (percent_encode raw)) eqn:Hd; cbn [pattern].
  - apply matches_anchored, no_dollar_clean, split_first_clean.
  - by apply matches_open.
Qed.
End Pattern.
