(* ===== verification/RobotsTxt.v ===== *)
(** * The robots.txt crate ([crates/robotstxt/src/parser.rs] and [lib.rs])

    The line grammar ([Parser]), the selection of the groups that apply to a
    user agent and the access decision ([Robots]). *)

From Stdlib Require Import SpecFloat.
From S2P Require Import Prelude Text Externals Floats RobotsPattern.

#[local] Open Scope Z_scope.

(** ** parser.rs *)

Inductive Line :=
| LUserAgent (agents : list str)
| LAllow (path : str)
| LDisallow (path : str)
| LSitemap (url : str)
| LCrawlDelay (delay : option float)
| LRaw.

Module Parser.
Section Parser.
Context `{Nom}.

Definition is_not_line_ending (c : char) : bool := negb (c =? ch_lf) && negb (c =? ch_cr).
Definition is_not_line_ending_or_comment (c : char) : bool :=
  is_not_line_ending c && negb (c =? ch_hash).
Definition is_carriage_return (c : char) : bool := c =? ch_cr.

Definition consume_newline : parser (option str) := fun input =>
  '(input, _) ← take_while is_carriage_return input;
  '(input, output) ← opt (tag [ch_lf]) input;
  Some (input, output).

Definition product : parser str := fun input =>
  '(input, _) ← alt [preceded space0 (tag (lit ":")); space1] input;
  '(input, line) ← take_while is_not_line_ending_or_comment input;
  '(input, _) ← opt (preceded (tag (lit "#")) (take_while is_not_line_ending)) input;
  '(input, _) ← consume_newline input;
  Some (input, trim line).

(** [alt] of the spellings of one field name. *)
Definition names (ws : list string) : parser str := alt (map (fun w => tag_no_case (lit w)) ws).

Definition useragent_names : list string :=
  ["user-agent"; "user agent"; "useragent"; "user-agents"; "user agents"; "useragents"]%string.
Definition allow_names : list string :=
  ["allow"; "alow"; "alaw"; "allows"; "alows"; "alaws"]%string.
Definition disallow_names : list string :=
  ["disallow"; "dissallow"; "dissalow"; "disalow"; "diasllow"; "disallaw"; "disallows";
   "dissallows"; "dissalows"; "disalows"; "diasllows"; "disallaws"]%string.
Definition sitemap_names : list string :=
  ["sitemap"; "site map"; "site-map"; "site maps"; "site-maps"; "site-maps"]%string.
Definition crawl_delay_names : list string :=
  ["crawl-delay"; "crawl delay"; "crawldelay"; "crawl delays"; "crawl-delays";
   "crawl-delays"; "crawldelays"]%string.

Definition parse_user_agent : parser Line := fun input =>
  '(input, _) ← preceded space0 (names useragent_names) input;
  '(input, user_agents) ← product input;
  Some (input, LUserAgent (flat_map (split ch_comma) (split_whitespace user_agents))).

Definition parse_allow : parser Line := fun input =>
  '(input, _) ← preceded space0 (names allow_names) input;
  '(input, allow) ← product input;
  Some (input, LAllow allow).

Definition parse_disallow : parser Line := fun input =>
  '(input, _) ← preceded space0 (names disallow_names) input;
  '(input, disallow) ← product input;
  Some (input, LDisallow disallow).

Definition parse_sitemap : parser Line := fun input =>
  '(input, _) ← preceded space0 (names sitemap_names) input;
  '(input, sitemap) ← product input;
  Some (input, LSitemap sitemap).

Definition parse_crawl_delay : parser Line := fun input =>
  '(input, _) ← preceded space0 (names crawl_delay_names) input;
  '(input, crawl_delay) ← product input;
  let crawl_delay :=
    match parse_f32 crawl_delay with
    | Some x => if ge_zero x then Some x else None
    | None => None
    end in
  Some (input, LCrawlDelay crawl_delay).

Definition parse_raw : parser Line := fun input =>
  '(input, _) ← take_while is_not_line_ending input;
  '(input, _) ← consume_newline input;
  Some (input, LRaw).

Definition parse_line : parser Line :=
  alt [parse_user_agent; parse_allow; parse_disallow; parse_sitemap; parse_crawl_delay;
       parse_raw].

Definition parse : parser (list Line) := fun input =>
  '(input, (lines, _)) ← many_till parse_line eof input;
  Some (input, lines).
End Parser.
End Parser.

(** ** lib.rs *)

Inductive Directive := Allow | Disallow.
#[export] Instance Directive_eq_dec : EqDecision Directive.
Proof. solve_decision. Defined.

Record Rule := { rule_pattern : Pattern; rule_directive : Directive }.

(** [Ord for Directive] and [Ord for Rule]: longest pattern first, then
    [Allow] before [Disallow]. *)
Definition Directive_cmp (a b : Directive) : comparison :=
  match a, b with
  | Allow, Disallow => Lt
  | Disallow, Allow => Gt
  | _, _ => Eq
  end.
Definition Rule_cmp (a b : Rule) : comparison :=
  match Pattern_cmp (rule_pattern a) (rule_pattern b) with
  | Eq => Directive_cmp (rule_directive a) (rule_directive b)
  | c => c
  end.

Definition MAX_CHAR_LIMIT_DEFAULT : Z := 512000.

Record Robots := {
  rules : list Rule;
  robots_crawl_delay : option float;
  robots_sitemaps : list str;
}.

Inductive RobotsError := InvalidUserAgent | ParserError.

Section Robots.
Context `{N : Nom} `{P : PercentEncoding} `{U : UrlOps}.

Definition is_valid_user_agent (useragent : str) : bool :=
  forallb (fun c => is_ascii_alphabetic c || (c =? ch_minus) || (c =? ch_underscore)) useragent
  && negb (is_empty useragent).

(** [agent.chars().zip(useragent.chars()).all(..)]: one is a prefix of the
    other, up to the case of [agent]. *)
Definition agent_matches (useragent agent : str) : bool :=
  forallb (fun p => to_ascii_lower p.1 =? p.2) (combine agent useragent).

Definition push_rule (path : str) (d : Directive) (acc : Robots) : Robots :=
  {| rules := rules acc ++ [{| rule_pattern := Pattern_new path; rule_directive := d |}];
     robots_crawl_delay := robots_crawl_delay acc;
     robots_sitemaps := robots_sitemaps acc |}.
Definition push_sitemap (s : str) (acc : Robots) : Robots :=
  {| rules := rules acc; robots_crawl_delay := robots_crawl_delay acc;
     robots_sitemaps := robots_sitemaps acc ++ [s] |}.
Definition set_crawl_delay (d : float) (acc : Robots) : Robots :=
  {| rules := rules acc; robots_crawl_delay := Some d;
     robots_sitemaps := robots_sitemaps acc |}.

(** The inner loop: the lines of a matching group, up to the user-agent line
    that opens the next one. Returns the lines left. *)
Fixpoint capture_group (lines : list Line) (has_captured_directive : bool) (acc : Robots)
    : list Line * Robots :=
  match lines with
  | [] => ([], acc)
  | line :: rest =>
      match line with
      | LAllow path =>
          capture_group rest true (if is_empty path then acc else push_rule path Allow acc)
      | LDisallow path =>
          capture_group rest true (if is_empty path then acc else push_rule path Disallow acc)
      | LUserAgent _ =>
          if has_captured_directive then (lines, acc)
          else capture_group rest has_captured_directive acc
      | LSitemap s => capture_group rest has_captured_directive (push_sitemap s acc)
      | LCrawlDelay (Some d) => capture_group rest true (set_crawl_delay d acc)
      | _ => capture_group rest has_captured_directive acc
      end
  end.

(** Rules that precede every user-agent line. *)
Definition global_line (line : Line) (acc : Robots) : Robots :=
  match line with
  | LAllow path => push_rule path Allow acc
  | LDisallow path => push_rule path Disallow acc
  | LCrawlDelay (Some d) => set_crawl_delay d acc
  | _ => acc
  end.

(** The outer loop; [None] when the fuel runs out. *)
Fixpoint scan_lines (fuel : nat) (useragent : str) (lines : list Line) (useragent_lines : nat)
    (acc : Robots) : option Robots :=
  match lines with
  | [] => Some acc
  | line :: rest =>
      match fuel with
      | O => None
      | S fuel' =>
          let '(rest, useragent_lines, acc) :=
            match line with
            | LUserAgent agents =>
                if existsb (agent_matches useragent) agents then
                  let '(rest, acc) := capture_group rest false acc in
                  (rest, S useragent_lines, acc)
                else (rest, S useragent_lines, acc)
            | _ =>
                if (useragent_lines =? 0)%nat
                then (rest, useragent_lines, global_line line acc)
                else (rest, useragent_lines, acc)
            end in
          let acc := match line with LSitemap s => push_sitemap s acc | _ => acc end in
          scan_lines fuel' useragent rest useragent_lines acc
      end
  end.

Definition names_agent (useragent : str) (line : Line) : bool :=
  match line with
  | LUserAgent agents => existsb (agent_matches useragent) agents
  | _ => false
  end.

Definition empty_robots : Robots :=
  {| rules := []; robots_crawl_delay := None; robots_sitemaps := [] |}.

Definition parse_with_params (useragent robotstxt : str) (char_limit : Z)
    : result RobotsError Robots :=
  _ ← refuse_if (negb (is_valid_user_agent useragent)) InvalidUserAgent;
  let robotstxt := take (Z.to_nat char_limit) robotstxt in
  let robotstxt := replace_char 0 ch_lf robotstxt in
  '(_, lines) ← ok_or (Parser.parse robotstxt) ParserError;
  let useragent := to_ascii_lowercase useragent in
  let useragent :=
    if negb (existsb (names_agent useragent) lines) then lit "*" else useragent in
  ok_or (scan_lines (length lines) useragent lines 0 empty_robots) ParserError.

Definition parse (useragent robotstxt : str) : result RobotsError Robots :=
  parse_with_params useragent robotstxt MAX_CHAR_LIMIT_DEFAULT.

Definition is_precise_path_allowed (r : Robots) (path : str) : bool :=
  let path := if is_empty path then lit "/" else path in
  if str_eqb path (lit "/robots.txt") then true
  else
    let matches := List.filter (fun rule => Pattern_matches (rule_pattern rule) path) (rules r) in
    match stable_sort Rule_cmp matches with
    | rule :: _ => bool_decide (rule_directive rule = Allow)
    | [] => true
    end.

Definition is_path_allowed (r : Robots) (path : str) : bool :=
  let res := is_precise_path_allowed r path in
  if negb res && ends_with (lit "/") path
  then is_precise_path_allowed r (path ++ lit "index.html")
  else res.

(** [coalesce] of adjacent slashes. *)
Fixpoint collapse_slashes (s : str) : str :=
  match s with
  | a :: s' =>
      match collapse_slashes s' with
      | b :: r => if (a =? ch_slash) && (b =? ch_slash) then b :: r else a :: b :: r
      | [] => [a]
      end
  | [] => []
  end.

Definition prepare_path (u : url) : str :=
  let path := collapse_slashes (url_path u) in
  match url_query u with
  | Some query => path ++ lit "?" ++ query
  | None => path
  end.

Definition is_allowed (r : Robots) (u : url) : bool := is_path_allowed r (prepare_path u).

Definition is_allowed_strict (r : Robots) (u : url) : bool :=
  is_precise_path_allowed r
    match url_query u with
    | Some query => url_path u ++ lit "?" ++ query
    | None => url_path u
    end.

(** [crawl_delay]: nanoseconds; [None] inside is no delay, outside a panic of
    [Duration::from_secs_f32]. *)
Definition crawl_delay (r : Robots) : option (option Z) :=
  match robots_crawl_delay r with
  | None => Some None
  | Some d => Some <$> from_secs_f32 d
  end.
End Robots.

(** ** The parser accepts every text *)

Section ParserFacts.
Context {N : Nom} {NL : NomLaws N}.
Import Parser.

Lemma names_down ws :
  forallb (fun w => forallb plain_case (lit w)) ws = true -> consumes_down (names ws).
Proof.
  intros H. apply alt_down, Forall_map, List.Forall_forall. intros w Hw.
  apply tag_no_case_down. rewrite forallb_forall in H. by apply H.
Qed.

Lemma consume_newline_down : consumes_down consume_newline.
Proof.
  intros i i' a. unfold consume_newline.
  destruct (take_while _ i) as [[r x]|] eqn:He; cbn; [|done].
  destruct (opt _ r) as [[r' y]|] eqn:Ho; cbn; [|done]. intros [= <- <-].
  apply take_while_down in He. apply opt_down in Ho; [lia|auto with nom].
Qed.

Lemma product_down : consumes_down product.
Proof.
  intros i i' a. unfold product.
  destruct (alt _ i) as [[i1 x1]|] eqn:H1; cbn; [|done].
  destruct (take_while _ i1) as [[i2 x2]|] eqn:H2; cbn; [|done].
  destruct (opt _ i2) as [[i3 x3]|] eqn:H3; cbn; [|done].
  destruct (consume_newline i3) as [[i4 x4]|] eqn:H4; cbn; [|done]. intros [= <- <-].
  apply alt_down in H1; [|by repeat constructor; auto with nom].
  apply take_while_down in H2. apply opt_down in H3; [|auto with nom].
  apply consume_newline_down in H4. lia.
Qed.

(** A field name followed by its value. *)
Lemma field_down {A} ws (f : str -> A) :
  forallb (fun w => forallb plain_case (lit w)) ws = true ->
  consumes_down (fun input =>
    '(input, _) ← preceded space0 (names ws) input;
    '(input, v) ← product input;
    Some (input, f v)).
Proof.
  intros Hws i i' a.
  destruct (preceded _ _ i) as [[i1 x1]|] eqn:H1; cbn; [|done].
  destruct (product i1) as [[i2 x2]|] eqn:H2; cbn; [|done]. intros [= <- <-].
  apply preceded_down in H1; [|auto using names_down with nom..].
  apply product_down in H2. lia.
Qed.

(** [parse_raw] takes any text up to and including its line ending. *)
Lemma parse_raw_total i :
  exists i', parse_raw i = Some (i', LRaw) /\ (length i' <= length i)%nat /\
    (i <> [] -> (length i' < length i)%nat).
Proof.
  unfold parse_raw, consume_newline. rewrite take_while_spec.
  destruct (span is_not_line_ending i) as [a b] eqn:Ha. cbn.
  rewrite take_while_spec. destruct (span is_carriage_return b) as [c d] eqn:Hc. cbn.
  rewrite opt_spec, tag_spec. pose proof (span_app _ _ _ _ Ha) as ->.
  pose proof (span_app _ _ _ _ Hc) as ->. rewrite !length_app.
  destruct (starts_with [ch_lf] d) eqn:Hd; cbn.
  - apply starts_with_spec in Hd as [t ->]. eexists; split; [done|].
    rewrite !length_app, length_drop; cbn. split; intros; lia.
  - eexists; split; [done|]. split; [lia|]. intros Hne.
    destruct a as [|x a]; cbn; [|lia]. destruct c as [|x c]; cbn; [|lia].
    destruct d as [|x d]; [done|]. cbn [app span starts_with] in Ha, Hc, Hd.
    rewrite andb_true_r, Z.eqb_sym in Hd.
    unfold is_not_line_ending, is_carriage_return in *. rewrite Hd in Ha.
    destruct (x =? ch_cr) eqn:Hcr; [by destruct (span _ d)|].
    cbn [negb andb] in Ha. by destruct (span _ d).
Qed.

Lemma parse_line_down : consumes_down parse_line.
Proof.
  apply alt_down. repeat constructor; try by apply field_down.
  intros i i' a Hr. destruct (parse_raw_total i) as (r & Hi & Hle & _). congruence.
Qed.

(** Every alternative that succeeds on a non-empty text consumes some of it. *)
Lemma tag_no_case_progress t i i' a :
  forallb plain_case t = true -> t <> [] ->
  tag_no_case t i = Some (i', a) -> (length i' < length i)%nat.
Proof.
  intros Ht Hne. rewrite tag_no_case_spec by done. case_match; [|done]. intros [= <- <-].
  apply starts_with_spec in H as [u Hu]. apply (f_equal length) in Hu.
  rewrite length_app in Hu. unfold to_ascii_lowercase in Hu. rewrite !length_map in Hu.
  rewrite length_drop. destruct t; [done|]. cbn in *. lia.
Qed.

Lemma names_progress ws i i' a :
  forallb (fun w => forallb plain_case (lit w) && negb (is_empty (lit w))) ws = true ->
  names ws i = Some (i', a) -> (length i' < length i)%nat.
Proof.
  unfold names. induction ws as [|w ws IH]; cbn [map forallb]; intros Hws.
  - by rewrite alt_nil.
  - bool_to_prop. rewrite alt_cons. destruct (tag_no_case (lit w) i) as [[r x]|] eqn:Ht; [|by apply IH].
    intros [= <- <-]. eapply tag_no_case_progress; [done| |done].
    by apply is_empty_false.
Qed.

Lemma field_progress {A} ws (f : str -> A) i i' a :
  forallb (fun w => forallb plain_case (lit w) && negb (is_empty (lit w))) ws = true ->
  ('(input, _) ← preceded space0 (names ws) i;
   '(input, v) ← product input;
   Some (input, f v)) = Some (i', a) -> (length i' < length i)%nat.
Proof.
  intros Hws. rewrite preceded_spec.
  destruct (space0 i) as [[i0 x0]|] eqn:H0; cbn; [|done].
  destruct (names ws i0) as [[i1 x1]|] eqn:H1; cbn; [|done].
  destruct (product i1) as [[i2 x2]|] eqn:H2; cbn; [|done]. intros [= <- <-].
  apply space0_down in H0. apply names_progress in H1; [|done]. apply product_down in H2. lia.
Qed.

Lemma parse_line_progress i :
  i <> [] -> exists i' l, parse_line i = Some (i', l) /\ (length i' < length i)%nat.
Proof.
  intros Hi. unfold parse_line. rewrite !alt_cons, alt_nil.
  destruct (parse_raw_total i) as (r & Hr & _ & Hlt). rewrite Hr.
  repeat (case_match eqn:Hp;
    [match goal with p : (str * Line)%type |- _ => destruct p end;
     do 2 eexists; split; [done|]; by eapply field_progress in Hp|clear Hp]).
  do 2 eexists; split; [done|]. auto.
Qed.

Lemma parse_total i : exists lines, Parser.parse i = Some ([], lines).
Proof.
  assert (exists lines, many_till parse_line eof i = Some ([], (lines, []))) as [lines Hl].
  { induction i as [i IH] using (induction_ltof1 _ (@length Z)). unfold ltof in IH.
    rewrite many_till_spec by apply parse_line_down. unfold many_till_round.
    rewrite eof_spec. destruct (is_empty i) eqn:He.
    - apply is_empty_true in He as ->. by exists [].
    - destruct (parse_line_progress i) as (i' & l & -> & Hlt); [by apply is_empty_false|].
      destruct (Nat.eqb_spec (length i') (length i)); [lia|].
      destruct (IH i' Hlt) as [lines ->]. by exists (l :: lines). }
  exists lines. unfold Parser.parse. by rewrite Hl.
Qed.
End ParserFacts.

(** ** Groups

    A reference reading of the file in one pass, as RFC 9309 describes it:
    consecutive user-agent lines open one group, a user-agent line after a
    rule opens the next, and the groups that name the agent are merged. *)

Section Groups.
Context {P : PercentEncoding}.

Record GroupState := {
  g_open : bool;    (** a user-agent line was seen *)
  g_match : bool;   (** the current group names the agent *)
  g_ruled : bool;   (** the current group already has a rule *)
}.

Definition group_rule (st : GroupState) (path : str) (d : Directive) (acc : Robots)
    : GroupState * Robots :=
  ({| g_open := g_open st; g_match := g_match st; g_ruled := true |},
   if g_open st
   then if g_match st && negb (is_empty path) then push_rule path d acc else acc
   else push_rule path d acc).

Definition group_step (useragent : str) (st : GroupState * Robots) (line : Line)
    : GroupState * Robots :=
  let '(g, acc) := st in
  match line with
  | LUserAgent agents =>
      let m := existsb (agent_matches useragent) agents in
      ({| g_open := true;
          g_match := if g_ruled g then m else g_match g || m;
          g_ruled := false |}, acc)
  | LAllow path => group_rule g path Allow acc
  | LDisallow path => group_rule g path Disallow acc
  | LCrawlDelay (Some d) =>
      ({| g_open := g_open g; g_match := g_match g; g_ruled := true |},
       if negb (g_open g) || g_match g then set_crawl_delay d acc else acc)
  | LSitemap s => (g, push_sitemap s acc)
  | _ => (g, acc)
  end.

Definition merge_groups (useragent : str) (lines : list Line) : Robots :=
  (foldl (group_step useragent)
     ({| g_open := false; g_match := false; g_ruled := false |}, empty_robots) lines).2.

(** Outside a matching group the state only remembers that a group is open. *)
Lemma group_fold_unmatched ua lines b b' acc :
  (foldl (group_step ua) ({| g_open := true; g_match := false; g_ruled := b |}, acc) lines).2 =
  (foldl (group_step ua) ({| g_open := true; g_match := false; g_ruled := b' |}, acc) lines).2.
Proof.
  revert b b' acc; induction lines as [|l lines IH]; intros b b' acc; [done|].
  destruct l as [agents|p|p|s|[d|]|]; cbn; try apply IH. by destruct b, b'.
Qed.

Lemma capture_group_length lines has acc rest acc' :
  capture_group lines has acc = (rest, acc') -> (length rest <= length lines)%nat.
Proof.
  revert has acc; induction lines as [|l lines IH]; intros has acc; cbn.
  - by intros [= <- <-].
  - destruct l as [agents|p|p|s|[d|]|]; try (intros H%IH; lia).
    destruct has; [intros [= <- <-]; cbn; lia|intros H%IH; lia].
Qed.

(** Capturing a group and reading on is reading on in a matching group. *)
Lemma capture_group_fold ua lines has acc rest acc' :
  capture_group lines has acc = (rest, acc') ->
  (foldl (group_step ua) ({| g_open := true; g_match := true; g_ruled := has |}, acc) lines).2 =
  (foldl (group_step ua) ({| g_open := true; g_match := false; g_ruled := true |}, acc') rest).2.
Proof.
  revert has acc; induction lines as [|l lines IH]; intros has acc; cbn.
  - by intros [= <- <-].
  - destruct l as [agents|p|p|s|[d|]|]; cbn; try apply IH.
    + destruct has; [by intros [= <- <-]|]. apply IH.
    + intros H%IH. rewrite <- H. by destruct p.
    + intros H%IH. rewrite <- H. by destruct p.
Qed.

Lemma scan_lines_open ua fuel lines n acc b :
  (length lines <= fuel)%nat ->
  scan_lines fuel ua lines (S n) acc =
  Some (foldl (group_step ua) ({| g_open := true; g_match := false; g_ruled := b |}, acc) lines).2.
Proof.
  revert lines n acc b; induction fuel as [|fuel IH]; intros [|l lines] n acc b Hlen;
    cbn in *; try done; [lia|].
  destruct l as [agents|p|p|s|[d|]|]; cbn; try by apply IH; lia.
  destruct (existsb (agent_matches ua) agents) eqn:Hm.
  - destruct (capture_group lines false acc) as [rest acc'] eqn:Hc.
    pose proof (capture_group_length _ _ _ _ _ Hc).
    rewrite (IH rest (S n) acc' true) by lia. f_equal.
    rewrite <- (capture_group_fold ua _ _ _ _ _ Hc). by destruct b.
  - rewrite (IH lines (S n) acc false) by lia. by destruct b.
Qed.

Lemma scan_lines_groups ua fuel lines acc b :
  (length lines <= fuel)%nat ->
  scan_lines fuel ua lines 0 acc =
  Some (foldl (group_step ua) ({| g_open := false; g_match := false; g_ruled := b |}, acc) lines).2.
Proof.
  revert lines acc b; induction fuel as [|fuel IH]; intros [|l lines] acc b Hlen;
    cbn in *; try done; [lia|].
  destruct l as [agents|p|p|s|[d|]|]; cbn; try by apply IH; lia.
  destruct (existsb (agent_matches ua) agents) eqn:Hm.
  - destruct (capture_group lines false acc) as [rest acc'] eqn:Hc.
    pose proof (capture_group_length _ _ _ _ _ Hc).
    rewrite (scan_lines_open ua _ rest 0 acc' true) by lia. f_equal.
    rewrite <- (capture_group_fold ua _ _ _ _ _ Hc). by destruct b.
  - rewrite (scan_lines_open ua _ lines 0 acc false) by lia. by destruct b.
Qed.
End Groups.

Section ParseFacts.
Context {N : Nom} {NL : NomLaws N} {P : PercentEncoding}.

(** The token the groups are compared with: the agent, or [*] when no line
    names it. *)
Definition selected_agent (useragent : str) (lines : list Line) : str :=
  let useragent := to_ascii_lowercase useragent in
  if existsb (names_agent useragent) lines then useragent else lit "*".

(** C32: [Robots::parse_with_params] is total and implements group merging. It
    fails only on an invalid user-agent token; on every other input, whatever
    the text, the grammar accepts all of it and the nested capture loops
    terminate with exactly the rules, delay and sitemaps of the one-pass
    reading by groups. *)
Theorem parse_merges_groups useragent text limit :
  if is_valid_user_agent useragent
  then exists lines,
    Parser.parse (replace_char 0 ch_lf (take (Z.to_nat limit) text)) = Some ([], lines) /\
    parse_with_params useragent text limit =
      Ok (merge_groups (selected_agent useragent lines) lines)
  else parse_with_params useragent text limit = Err InvalidUserAgent.
Proof.
  unfold parse_with_params. destruct (is_valid_user_agent useragent); cbn; [|done].
  destruct (parse_total (replace_char 0 ch_lf (take (Z.to_nat limit) text))) as [lines Hl].
  rewrite Hl. exists lines. split; [done|]. cbn.
  rewrite (scan_lines_groups _ _ _ _ false) by lia. cbn. unfold merge_groups, selected_agent.
  by destruct (existsb _ lines).
Qed.
End ParseFacts.

(** ** The access decision *)

Section Decision.
Context {P : PercentEncoding}.

(** [Rule_cmp] as an order on one number. *)
Definition rule_key (r : Rule) : Z :=
  (match rule_directive r with Allow => 0 | Disallow => 1 end)
  - 2 * pattern_len (rule_pattern r).

Lemma Rule_cmp_key a b : Rule_cmp a b = Z.compare (rule_key a) (rule_key b).
Proof.
  unfold Rule_cmp, Pattern_cmp, rule_key.
  destruct (Z.compare_spec (pattern_len (rule_pattern a)) (pattern_len (rule_pattern b)));
    cbn; destruct (rule_directive a), (rule_directive b); cbn; symmetry;
    apply Z.compare_eq_iff || apply Z.compare_lt_iff || apply Z.compare_gt_iff; lia.
Qed.

Lemma Rule_cmp_le a b : cmp_le Rule_cmp a b <-> rule_key a <= rule_key b.
Proof. unfold cmp_le. by rewrite Rule_cmp_key. Qed.

Lemma Rule_sort_head l x l' :
  stable_sort Rule_cmp l = x :: l' -> x ∈ l /\ forall y, y ∈ l -> rule_key x <= rule_key y.
Proof.
  intros H. setoid_rewrite <- Rule_cmp_le. eapply stable_sort_head; [..|done].
  - intros. rewrite !Rule_cmp_key. apply Z.compare_antisym.
  - intros. rewrite !Rule_cmp_le in *. lia.
Qed.

Definition applies (path : str) (r : Rule) : Prop :=
  Pattern_matches (rule_pattern r) path = true.

(** A rule that applies and whose pattern text is as long as that of every
    other rule that applies. *)
Definition most_specific (rs : list Rule) (path : str) (r : Rule) : Prop :=
  r ∈ rs /\ applies path r /\
  forall r', r' ∈ rs -> applies path r' ->
    pattern_len (rule_pattern r') <= pattern_len (rule_pattern r).

Lemma elem_of_applicable rs path r :
  r ∈ List.filter (fun rule => Pattern_matches (rule_pattern rule) path) rs <->
  r ∈ rs /\ applies path r.
Proof. by rewrite !list_elem_of_In, filter_In. Qed.

(** C34: the access decision of [is_precise_path_allowed] is the one RFC 9309
    asks for. A path is refused exactly when it is not [/robots.txt], some
    rule applies to it, and no [Allow] rule is among the applicable rules
    with the longest pattern; so a tie goes to [Allow] and no rule means
    access. *)
Theorem precise_decision_most_specific r path :
  is_precise_path_allowed r path = false <->
  let path := if is_empty path then lit "/" else path in
  path <> lit "/robots.txt" /\
  (exists rule, rule ∈ rules r /\ applies path rule) /\
  (forall rule, most_specific (rules r) path rule -> rule_directive rule = Disallow).
Proof.
  unfold is_precise_path_allowed. cbn zeta.
  generalize (if is_empty path then lit "/" else path) as p. clear path. intros p.
  destruct (str_eqb p (lit "/robots.txt")) eqn:Hr.
  { apply str_eqb_eq in Hr. naive_solver. }
  assert (p <> lit "/robots.txt") as Hne by (intros ->; by rewrite str_eqb_refl in Hr).
  destruct (stable_sort _ _) as [|x l] eqn:Hs.
  - split; [done|]. intros (_ & (rule & Hrule) & _).
    apply stable_sort_nil in Hs. apply elem_of_applicable in Hrule.
    rewrite Hs in Hrule. by apply not_elem_of_nil in Hrule.
  - apply Rule_sort_head in Hs as [Hx Hmin]. apply elem_of_applicable in Hx.
    setoid_rewrite elem_of_applicable in Hmin. rewrite bool_decide_eq_false. split.
    + intros Hx'. split_and!; [done|by exists x|]. intros y (Hy & Hya & Hmax).
      destruct (rule_directive y) eqn:Hyd; [|done]. exfalso.
      pose proof (Hmin y (conj Hy Hya)) as Hle. destruct Hx as [Hxr Hxa].
      pose proof (Hmax x Hxr Hxa). unfold rule_key in Hle.
      rewrite Hyd in Hle. destruct (rule_directive x); [done|lia].
    + intros (_ & _ & Hall) Hx'. enough (rule_directive x = Disallow) by congruence.
      apply Hall. destruct Hx as [Hxr Hxa]. split_and!; [done..|].
      intros y Hy Hya. pose proof (Hmin y (conj Hy Hya)) as Hle.
      unfold rule_key in Hle. rewrite Hx' in Hle. destruct (rule_directive y); lia.
Qed.
End Decision.

(** ** Spellings the grammar lists but never takes

    [alt] commits to the first spelling that is a prefix of the text, so a
    plural spelling listed after its singular is out of reach: the field name
    ends before the [s], the separator is then missing and the line is raw. *)

Definition plural_names : list string :=
  ["user-agents"; "user agents"; "useragents"; "allows"; "alows"; "alaws"; "disallows";
   "dissallows"; "dissalows"; "disalows"; "diasllows"; "disallaws"; "site maps"; "site-maps";
   "crawl delays"; "crawl-delays"; "crawldelays"]%string.

Section Plurals.
Context {N : Nom} {NL : NomLaws N}.

(** The first listed spelling that is a prefix of the text. *)
Fixpoint pick_name (ws : list str) (i : str) : option (str * str) :=
  match ws with
  | [] => None
  | w :: ws' =>
      if starts_with (to_ascii_lowercase w) (to_ascii_lowercase i)
      then Some (drop (length w) i, take (length w) i) else pick_name ws' i
  end.

Lemma names_pick ws i :
  forallb (fun w => forallb plain_case (lit w)) ws = true ->
  Parser.names ws i = pick_name (map lit ws) i.
Proof.
  unfold Parser.names. induction ws as [|w ws IH]; cbn [map forallb pick_name]; intros Hws.
  - apply alt_nil.
  - bool_to_prop. rewrite alt_cons, tag_no_case_spec, IH by done.
    by destruct (starts_with _ _).
Qed.

(** Both separators of [product] refuse a text that starts with a letter. *)
Lemma product_refuses_letter c rest :
  is_space_or_tab c = false -> (ch_colon =? c) = false -> Parser.product (c :: rest) = None.
Proof.
  intros Hs Hc. unfold Parser.product.
  rewrite !alt_cons, alt_nil, preceded_spec, space0_spec, space1_spec.
  cbn [span]. rewrite Hs. cbn [is_empty]. rewrite tag_spec.
  change (lit ":") with [ch_colon]. cbn [starts_with]. by rewrite Hc.
Qed.

(** no plural spelling listed by the parser is recognised: a line
    "<plural>: value" is read as an unknown line for every value, so such a
    [Disallows] line restricts nothing. *)
Theorem plural_names_are_raw v :
  Forall (fun w => Parser.parse_line (lit w ++ lit ":" ++ v) =
                   Parser.parse_raw (lit w ++ lit ":" ++ v)) plural_names.
Proof.
  unfold plural_names, Parser.parse_line.
  repeat (apply List.Forall_cons; [|]); [..|apply List.Forall_nil];
    rewrite !alt_cons, alt_nil;
    unfold Parser.parse_user_agent, Parser.parse_allow, Parser.parse_disallow,
      Parser.parse_sitemap, Parser.parse_crawl_delay;
    rewrite !preceded_spec, !space0_spec; eval_lits; cbn [app span];
    cbn; rewrite !names_pick by done; cbn [map Parser.useragent_names
      Parser.allow_names Parser.disallow_names Parser.sitemap_names
      Parser.crawl_delay_names]; eval_lits; cbn;
    rewrite ?product_refuses_letter by done; cbn; by case_match.
Qed.
End Plurals.

(** ** Concrete files *)

Module RobotsExamples.
Import NomReference PercentReference.

Definition sample_text : str :=
  lit "User-agent: avasearchbot" ++ [10] ++ lit "Disallow: /private" ++ [10] ++
  lit "User-agent: other" ++ [10] ++ lit "Disallow: /" ++ [10] ++
  lit "User-agent: AVASearchBot" ++ [10] ++ lit "Allow: /private/open" ++ [10].

(** Two groups of the same agent are merged. *)
Lemma parse_merges_groups_witness :
  exists lines,
    Parser.parse (replace_char 0 ch_lf (take (Z.to_nat 512000) sample_text)) = Some ([], lines) /\
    parse_with_params (lit "AVASearchBot") sample_text 512000 =
      Ok (merge_groups (selected_agent (lit "AVASearchBot") lines) lines).
Proof.
  exact (parse_merges_groups (lit "AVASearchBot") sample_text 512000).
Defined.

Example sample_decisions :
  match parse (lit "AVASearchBot") sample_text with
  | Ok r => [is_path_allowed r (lit "/private/x"); is_path_allowed r (lit "/private/open/x");
             is_path_allowed r (lit "/")]
  | Err _ => []
  end = [false; true; true].
Proof. vm_compute. reflexivity. Qed.

Lemma plural_names_are_raw_witness :
  Forall (fun w => Parser.parse_line (lit w ++ lit ":" ++ lit " /secret") =
                   Parser.parse_raw (lit w ++ lit ":" ++ lit " /secret")) plural_names.
Proof. exact (plural_names_are_raw (lit " /secret")). Defined.
End RobotsExamples.
