(* ===== verification/CrawlerBase.v ===== *)
(** * Data shared by the crawler components

    The crawler's error type ([crawler/mod.rs]), the politeness limits
    ([crawler/politeness.rs], [config/ingestion.rs]) and the response headers
    kept for policy decisions ([crawler/network.rs]). *)

From S2P Require Import Prelude Text Externals.

#[local] Open Scope Z_scope.

Inductive ExclusionPhase := Frontier | PostParse.
Inductive ExclusionReason :=
| OutsideScope | NeverCrawl | CctldDenied | CctldNotAllowed | CountryUnresolved
| HostingCountryDenied | HostingCountryNotAllowed | LanguageDenied | LanguageNotAllowed
| ListingBudgetExhaustedReason.
#[export] Instance ExclusionPhase_eq_dec : EqDecision ExclusionPhase.
Proof. solve_decision. Defined.
#[export] Instance ExclusionReason_eq_dec : EqDecision ExclusionReason.
Proof. solve_decision. Defined.

(** The variants of [crawler::Error]; the ones that carry a payload the
    modelled code never inspects carry none here. *)
Inductive Error :=
| InvalidContentType | FetchFailed (status_code : Z) | InvalidUrl | UrlTooLong | SchemeRefused
| PortRefused | OffScope | RefusedPrivateAddress | ConnectError | TlsError | Timeout
| HostBlocked | ChallengeDetected | CrawlDelayExceedsCeiling | RobotsUnreachable
| HostStateWrite | StoreRefused | StoreOwned | CountryProviderUnavailable
| ExcludedByPolicy (reason : ExclusionReason) (phase : ExclusionPhase)
| RecordInvalid | SinkWrite | LedgerWrite | LedgerIncomplete | DuplicateTarget | FatalRun
| RetentionBacklog | ListingBudgetExhausted | Cancelled | InternalInvariant
| TestNetworkDisabled | DomainMismatch | AlreadyCrawled | IgnoredExtension | EmptyBody
| ContentTooLarge | ResponseBodyReadFailed | InvalidRedirect | DisallowedPath | AnyhowError.
#[export] Instance Error_eq_dec : EqDecision Error.
Proof. solve_decision. Defined.

Abbreviation res := (result Error).

(** ** Compiled-in limits ([politeness.rs]) *)

Definition HARD_MIN_HOST_GAP_MS : Z := 500.
Definition HARD_MAX_HOST_CONCURRENCY : Z := 2.
Definition MIN_BLOCK_SECS : Z := 24 * 60 * 60.
Definition MAX_ROBOTS_CACHE_SECS : Z := 24 * 60 * 60.
Definition DEFAULT_HOST_GAP_MS : Z := 10000.
Definition DEFAULT_HOST_CONCURRENCY : Z := 1.
Definition MAX_ACCEPTED_CRAWL_DELAY_SECS : Z := 60.
Definition ROBOTS_FAILURE_RETRY_SECS : Z := 300.

(** ** Configured limits ([config/ingestion.rs]) *)

Record PolitenessConfig := {
  gap_ms : Z;
  max_concurrent_per_host : Z;
  block_secs : Z;
  retry_budget : Z;
}.
Definition PolitenessConfig_default : PolitenessConfig :=
  {| gap_ms := DEFAULT_HOST_GAP_MS; max_concurrent_per_host := DEFAULT_HOST_CONCURRENCY;
     block_secs := MIN_BLOCK_SECS; retry_budget := 3 |}.

Definition checked_duration (gap : Z) : bool := gap <=? 86400000.

(** The politeness part of [IngestionPolicy::validate]; [now] is [Utc::now()]. *)
Definition validate_politeness `{Chrono} (now : Z) (p : PolitenessConfig) : bool :=
  negb (gap_ms p <? HARD_MIN_HOST_GAP_MS) && checked_duration (gap_ms p) &&
  ((1 <=? max_concurrent_per_host p) && (max_concurrent_per_host p <=? HARD_MAX_HOST_CONCURRENCY)) &&
  ((MIN_BLOCK_SECS <=? block_secs p) &&
   (if block_secs p <=? i64_max
    then match try_seconds (block_secs p) with
         | Some d => match date_add now d with Some _ => true | None => false end
         | None => false
         end
    else false)) &&
  (retry_budget p <=? 3).

(** ** Response headers ([network.rs]) *)

Record HeaderValues := { values : list str; header_invalid : bool }.
Definition HeaderValues_default : HeaderValues := {| values := []; header_invalid := false |}.
Definition ResponseHeaders : Type := gmap (list Z) HeaderValues.

Definition printable (c : char) : bool := between 32 126 c.

Definition header_observe (h : ResponseHeaders) (name : str) (value : option str)
    : ResponseHeaders :=
  let key := to_ascii_lowercase name in
  let entry := default HeaderValues_default (h !! key) in
  <[key :=
      match value with
      | Some v =>
          if forallb printable v
          then {| values := values entry ++ [v]; header_invalid := header_invalid entry |}
          else {| values := values entry; header_invalid := true |}
      | None => {| values := values entry; header_invalid := true |}
      end]> h.

Definition headers_invalid (h : ResponseHeaders) (name : string) : bool :=
  match h !! to_ascii_lowercase (lit name) with
  | Some entry => header_invalid entry
  | None => false
  end.
Definition header_get (h : ResponseHeaders) (name : string) : option str :=
  match h !! to_ascii_lowercase (lit name) with
  | Some entry => if header_invalid entry then None else head (values entry)
  | None => None
  end.
Definition header_all (h : ResponseHeaders) (name : string) : list str :=
  match h !! to_ascii_lowercase (lit name) with
  | Some entry => values entry
  | None => []
  end.
Arguments headers_invalid h name%_string.
Arguments header_get h name%_string.
Arguments header_all h name%_string.
