(* ===== verification/Policy.v ===== *)
(** * The ingestion policy ([crates/core/src/config/ingestion.rs]) and the
    crawler identity ([crates/core/src/crawler/identity.rs])

    The configuration records with their defaults, the validation every policy
    passes before anything is fetched or stored, and the production gate. The
    text of a failed [ensure!] is the error value. *)

From S2P Require Import Prelude Text Externals CrawlerBase.

#[local] Open Scope Z_scope.

Abbreviation checked := (result string).

(** [ensure!(cond, message)]. *)
Definition ensure (cond : bool) (message : string) : checked unit :=
  if cond then Ok tt else Err message.
Arguments ensure cond message%_string.

Lemma ensure_Ok cond message u : ensure cond message = Ok u <-> cond = true.
Proof. destruct cond, u; cbn; naive_solver. Qed.

(** ** Identity *)

Record IdentityConfig := { policy_url : str; contact : str }.
Definition IdentityConfig_default : IdentityConfig :=
  {| policy_url := lit "https://github.com/Al3xWalton/agentic-search/blob/main/CRAWLER_POLICY.md";
     contact := lit "https://github.com/Al3xWalton/agentic-search/issues" |}.

(** The delimiters of the user-agent comment: parentheses and semicolon. *)
Definition ua_delimiter (c : char) : bool := (c =? 40) || (c =? 41) || (c =? 59).

Section Identity.
Context `{U : UrlOps}.

Definition validate_policy_url (value : str) : checked unit :=
  _ ← ensure (negb (is_empty value) &&
              negb (existsb (fun c => is_whitespace c || is_control c || ua_delimiter c) value))
        "identity location contains invalid characters";
  u ← ok_or (url_parse value) "identity location is not an absolute URL"%string;
  ensure (str_eqb (url_scheme u) (lit "https") &&
          match url_domain u with Some host => negb (is_empty host) | None => false end &&
          is_empty (url_username u) && negb (bool_decide (is_Some (url_password u))) &&
          negb (bool_decide (is_Some (url_fragment u))) &&
          negb (contains_char 64 (default [] (split ch_slash value !! 2%nat))))
    "identity location must be HTTPS without userinfo or fragment".

Definition is_ascii_control (c : char) : bool := between 0 31 c || (c =? 127).

Definition validate_contact (value : str) : checked unit :=
  if starts_with (lit "https://") value then validate_policy_url value
  else
    _ ← ensure (forallb is_ascii value &&
                negb (existsb (fun c => is_ascii_whitespace c || is_ascii_control c ||
                                        ua_delimiter c || (c =? 58) || (c =? 47) || (c =? 92)) value))
          "identity contact contains invalid characters";
    '(local, domain) ← ok_or (split_once 64 value) "identity contact must be email or HTTPS"%string;
    ensure (negb (is_empty local) && negb (contains_char 64 domain) && contains_char 46 domain &&
            forallb (fun label => negb (is_empty label) &&
                       forallb (fun c => is_ascii_alphanumeric c || (c =? ch_minus)) label)
              (split 46 domain))
      "identity contact has invalid mailbox shape".

(** [pkg_version] is [CARGO_PKG_VERSION]. *)
Definition build_user_agent (pkg_version : str) (identity : IdentityConfig) : checked str :=
  _ ← validate_policy_url (policy_url identity);
  _ ← validate_contact (contact identity);
  Ok (lit "AVASearchBot/" ++ pkg_version ++
      lit " (+" ++ policy_url identity ++ lit "; " ++ contact identity ++ lit ")").
End Identity.

(** ** Records *)

Record RobotsConfig := { cache_secs : Z }.
Record RetentionConfig := {
  raw_body_max_age_days : Z; snippet_max_chars : Z; query_log_max_age_days : Z;
  query_ip_v4_prefix : Z; query_ip_v6_prefix : Z; query_rotating_salt_required : bool;
  cached_copy : bool; profiling_allowed : bool; advertising_allowed : bool;
}.
Definition RobotsConfig_default : RobotsConfig := {| cache_secs := 3600 |}.
Definition RetentionConfig_default : RetentionConfig :=
  {| raw_body_max_age_days := 30; snippet_max_chars := 300; query_log_max_age_days := 90;
     query_ip_v4_prefix := 24; query_ip_v6_prefix := 48; query_rotating_salt_required := true;
     cached_copy := false; profiling_allowed := false; advertising_allowed := false |}.

Inductive ContentClass :=
| Terrorism | Csea | AssistingSuicide | EncouragingSeriousSelfHarm | ThreatsHarassmentStalking
| PublicOrderHate | Drugs | FirearmsWeapons | IllegalImmigrationTrafficking | SexualExploitation
| IntimateImageOffencesCyberflashing | ProceedsOfCrime | Fraud | FinancialServices
| ForeignInterference | AnimalWelfare | Pornography | SuicidePromotion | SelfHarmPromotion
| EatingDisorderPromotion | PriorityS62PendingReview.
#[export] Instance ContentClass_eq_dec : EqDecision ContentClass.
Proof. solve_decision. Defined.
Definition requires_adult_verification (c : ContentClass) : bool :=
  match c with
  | Pornography | SuicidePromotion | SelfHarmPromotion | EatingDisorderPromotion => true
  | _ => false
  end.

Inductive ContentPolicy := NeverCrawlPolicy | CrawlButSuppressUk | SuppressForChildren | DownRank.
#[export] Instance ContentPolicy_eq_dec : EqDecision ContentPolicy.
Proof. solve_decision. Defined.

Record ClassRule := {
  rule_id : str; rule_host : str; rule_subdomains : bool;
  rule_class : ContentClass; rule_policy : ContentPolicy;
}.
Record ListingPolicy := {
  listing_host : str; listing_subdomains : bool; max_page_attempts_per_24h : Z;
}.
Record PolicyChange := {
  change_version : str; date_utc : Z; change_reason : str; review_ref : str;
}.
Record ProviderConfig := { provider_id : str; provider_version : str }.
Record ServingPolicy := {
  uk_or_unknown_measures : bool; non_uk_policy : str; missing_adult_is_child : bool;
}.
Record ExclusionsConfig := {
  exclusions_version : str;
  changed_at_utc : Z;
  change_log : list PolicyChange;
  cctld_allow : list str;
  cctld_deny : list str;
  language_allow : list str;
  language_deny : list str;
  hosting_country_allow : list str;
  hosting_country_deny : list str;
  hosting_country_provider : option ProviderConfig;
  rules : list ClassRule;
  listing_sites : list ListingPolicy;
  serving : ServingPolicy;
}.
Definition ServingPolicy_default : ServingPolicy :=
  {| uk_or_unknown_measures := true; non_uk_policy := lit "same-as-uk"; missing_adult_is_child := true |}.
(** 2026-09-11T00:00:00Z in nanoseconds. *)
Definition default_change_date : Z := 1789084800 * 1000000000.
Definition ExclusionsConfig_default : ExclusionsConfig :=
  {| exclusions_version := lit "585.1"; changed_at_utc := default_change_date;
     change_log := [{| change_version := lit "585.1"; date_utc := default_change_date;
                       change_reason := lit "Initial empty lists; founder review pending";
                       review_ref := lit "Story #585" |}];
     cctld_allow := []; cctld_deny := []; language_allow := []; language_deny := [];
     hosting_country_allow := []; hosting_country_deny := []; hosting_country_provider := None;
     rules := []; listing_sites := []; serving := ServingPolicy_default |}.

Inductive ApprovalStatus := Draft | Approved | Revoked.
#[export] Instance ApprovalStatus_eq_dec : EqDecision ApprovalStatus.
Proof. solve_decision. Defined.
Record ApprovedRecord := {
  record_id : str; record_status : ApprovalStatus; approver : str; approved_at_utc : Z;
  lia_id : str; lia_summary_url : str; article14_measures_id : str; policy_version : str;
}.
Record ProductionApproval := {
  dpia_id : option str;
  approved_records : list ApprovedRecord;
  distributed_host_lease_configured : bool;
}.
Record PolicyContent := {
  controller_identity : option str; content_lia_summary_url : option str; removal_url : option str;
  osa_report_url : option str; complaints_url : option str; ico_url : option str;
  article14_measures : option str; egress_file_url : option str;
}.
Definition PolicyContent_default : PolicyContent :=
  {| controller_identity := None; content_lia_summary_url := None; removal_url := None;
     osa_report_url := None; complaints_url := None; ico_url := None; article14_measures := None;
     egress_file_url := None |}.
Record IngestionPolicy := {
  version : str;
  identity : IdentityConfig;
  robots : RobotsConfig;
  politeness : PolitenessConfig;
  retention : RetentionConfig;
  exclusions : ExclusionsConfig;
  production : ProductionApproval;
  policy_content : PolicyContent;
}.
Definition IngestionPolicy_default : IngestionPolicy :=
  {| version := lit "585.1"; identity := IdentityConfig_default; robots := RobotsConfig_default;
     politeness := PolitenessConfig_default; retention := RetentionConfig_default;
     exclusions := ExclusionsConfig_default;
     production := {| dpia_id := None; approved_records := [];
                      distributed_host_lease_configured := false |};
     policy_content := PolicyContent_default |}.

(** ** Validation *)

Definition nonempty (value : str) : bool :=
  negb (is_empty (trim value)) && negb (existsb is_control value).

Definition valid_host (host : str) : bool :=
  negb (is_empty host) && (byte_len host <=? 253) &&
  forallb (fun part =>
    negb (is_empty part) && (byte_len part <=? 63) &&
    negb (starts_with [ch_minus] part) && negb (ends_with [ch_minus] part) &&
    forallb (fun c => is_ascii_lowercase c || is_ascii_digit c || (c =? ch_minus)) part)
    (split 46 host).

Definition language_part (first : bool) (part : str) : bool :=
  negb (is_empty part) && (byte_len part <=? 8) &&
  forallb (if first then is_ascii_alphabetic else is_ascii_alphanumeric) part.
Definition language_tag (value : str) : bool :=
  match split ch_minus value with
  | [] => true
  | part :: parts => language_part true part && forallb (language_part false) parts
  end.

Definition validate_retention_bounds (r : RetentionConfig) : checked unit :=
  ensure ((raw_body_max_age_days r <=? 30) && (snippet_max_chars r <=? 300) &&
          (query_log_max_age_days r <=? 90) && (query_ip_v4_prefix r =? 24) &&
          (query_ip_v6_prefix r =? 48) && query_rotating_salt_required r &&
          negb (cached_copy r) && negb (profiling_allowed r) && negb (advertising_allowed r))
    "ingestion.retention violates bounds or required safeguards".

(** The loop over the rules, with the set of identifiers seen so far. *)
Fixpoint rules_ok (ids : list str) (l : list ClassRule) : checked unit :=
  match l with
  | [] => Ok tt
  | rule :: l =>
      _ ← ensure (nonempty (rule_id rule) && negb (bool_decide (rule_id rule ∈ ids)) &&
                  valid_host (rule_host rule))
            "ingestion.exclusions invalid or duplicate rule";
      rules_ok (rule_id rule :: ids) l
  end.

Definition code_ok (letter : char -> bool) (code : str) : bool :=
  Nat.eqb (length code) 2 && forallb letter code.

Definition validate_exclusion_schema (e : ExclusionsConfig) : checked unit :=
  _ ← ensure (nonempty (exclusions_version e)) "ingestion.exclusions.version is required";
  head ← ok_or (last (change_log e)) "ingestion.exclusions.change_log is empty"%string;
  _ ← ensure (str_eqb (change_version head) (exclusions_version e) &&
              (date_utc head =? changed_at_utc e))
        "ingestion.exclusions change-log head differs from policy";
  _ ← try_for_each (fun change =>
        ensure (nonempty (change_version change) && nonempty (change_reason change) &&
                nonempty (review_ref change))
          "ingestion.exclusions incomplete change-log entry") (change_log e);
  _ ← try_for_each (fun code => ensure (code_ok is_ascii_lowercase code)
        "ingestion.exclusions ccTLD must be two lowercase DNS letters") (cctld_allow e ++ cctld_deny e);
  _ ← try_for_each (fun code => ensure (code_ok is_ascii_uppercase code)
        "ingestion.exclusions country code must be two uppercase letters")
        (hosting_country_allow e ++ hosting_country_deny e);
  _ ← try_for_each (fun tag => ensure (language_tag tag) "ingestion.exclusions invalid language tag")
        (language_allow e ++ language_deny e);
  _ ← (if negb (is_empty (hosting_country_allow e)) || negb (is_empty (hosting_country_deny e)) then
         ensure (bool_decide (is_Some (hosting_country_provider e)))
           "ingestion.exclusions country restrictions require an offline provider"
       else Ok tt);
  _ ← match hosting_country_provider e with
      | Some provider =>
          ensure (nonempty (provider_id provider) && nonempty (provider_version provider))
            "ingestion.exclusions incomplete country provider"
      | None => Ok tt
      end;
  _ ← rules_ok [] (rules e);
  _ ← try_for_each (fun listing => ensure (valid_host (listing_host listing))
        "ingestion.exclusions invalid listing host") (listing_sites e);
  ensure (uk_or_unknown_measures (serving e) && str_eqb (non_uk_policy (serving e)) (lit "same-as-uk") &&
          missing_adult_is_child (serving e))
    "ingestion.exclusions.serving must preserve conservative defaults".

Section Validate.
Context `{U : UrlOps} `{C : Chrono} (pkg_version : str).

(** [now] is [Utc::now()]. *)
Definition validate_block_secs (now : Z) (p : PolitenessConfig) : bool :=
  (MIN_BLOCK_SECS <=? block_secs p) &&
  (if block_secs p <=? i64_max
   then bool_decide (is_Some (try_seconds (block_secs p) ≫= date_add now))
   else false).

Definition validate (now : Z) (p : IngestionPolicy) : checked IngestionPolicy :=
  _ ← ensure (nonempty (version p)) "ingestion.version is required";
  _ ← build_user_agent pkg_version (identity p);
  _ ← ensure (negb ((cache_secs (robots p) =? 0) || (MAX_ROBOTS_CACHE_SECS <? cache_secs (robots p))))
        "ingestion.robots.cache_secs must be 1..=86400";
  _ ← ensure (negb (gap_ms (politeness p) <? HARD_MIN_HOST_GAP_MS))
        "ingestion.politeness.gap_ms must be at least 500";
  _ ← ensure (checked_duration (gap_ms (politeness p)))
        "ingestion.politeness.gap_ms exceeds 24 hours";
  _ ← ensure ((1 <=? max_concurrent_per_host (politeness p)) &&
              (max_concurrent_per_host (politeness p) <=? HARD_MAX_HOST_CONCURRENCY))
        "ingestion.politeness.max_concurrent_per_host must be 1..=2";
  _ ← ensure (validate_block_secs now (politeness p))
        "ingestion.politeness.block_secs violates minimum or UTC arithmetic";
  _ ← ensure (retry_budget (politeness p) <=? 3) "ingestion.politeness.retry_budget must be 0..=3";
  _ ← validate_retention_bounds (retention p);
  _ ← validate_exclusion_schema (exclusions p);
  let content := policy_content p in
  _ ← try_for_each (fun location =>
        match location with Some value => validate_policy_url value | None => Ok tt end)
        [content_lia_summary_url content; removal_url content; osa_report_url content;
         complaints_url content; ico_url content; egress_file_url content];
  Ok p.

(** [utc_now] is the reading of [validate], [now] the argument. *)
Definition require_production_approval (utc_now now : Z) (environment_id : option str)
    (p : IngestionPolicy) : checked IngestionPolicy :=
  policy ← validate utc_now p;
  let approval := production p in
  id ← ok_or (match dpia_id approval with
              | Some id => if nonempty id then Some id else None
              | None => None
              end) "production requires selected dpia_id"%string;
  _ ← ensure match environment_id with Some value => str_eqb value id | None => true end
        "DPIA_ID must equal configured dpia_id";
  let matching := List.filter (fun record => str_eqb (record_id record) id) (approved_records approval) in
  _ ← ensure (Nat.eqb (length matching) 1) "production requires exactly one matching assessment";
  record ← ok_or (head matching) "unreachable"%string;
  _ ← ensure (bool_decide (record_status record = Approved) && (approved_at_utc record <=? now) &&
              nonempty (approver record) && nonempty (lia_id record) &&
              nonempty (article14_measures_id record) &&
              str_eqb (policy_version record) (version p))
        "production assessment is incomplete, unapproved, future-dated or for another policy";
  _ ← validate_policy_url (lia_summary_url record);
  _ ← ensure (distributed_host_lease_configured approval)
        "production requires coordinated host ownership";
  Ok policy.
End Validate.

(** ** Identity cannot be forged *)

(** Characters that cannot end a header or the user-agent comment. *)
Definition ua_plain (c : char) : bool := negb (is_control c) && negb (ua_delimiter c).

Lemma existsb_false {A} (f : A -> bool) l : existsb f l = false <-> Forall (fun x => f x = false) l.
Proof.
  induction l as [|x l IH]; cbn; [by split|]. rewrite orb_false_iff, Forall_cons, IH. done.
Qed.

Section IdentityClaims.
Context `{U : UrlOps}.

Lemma validate_policy_url_plain value u : validate_policy_url value = Ok u -> Forall (fun c => ua_plain c = true) value.
Proof.
  unfold validate_policy_url. intros H. apply bind_Ok in H as (_ & H%ensure_Ok & _).
  apply andb_true_iff in H as [_ H%negb_true_iff%existsb_false].
  apply (Forall_impl _ _ _ H). intros c Hc. unfold ua_plain.
  apply orb_false_iff in Hc as [[_ ->]%orb_false_iff ->]. done.
Qed.

Lemma validate_contact_plain value u : validate_contact value = Ok u -> Forall (fun c => ua_plain c = true) value.
Proof.
  unfold validate_contact. destruct (starts_with _ value); [apply validate_policy_url_plain|].
  intros H. apply bind_Ok in H as (_ & H%ensure_Ok & _). bool_to_prop.
  apply existsb_false in H0. rewrite forallb_forall in H.
  rewrite Forall_forall in H0 |- *. intros c Hc. specialize (H0 c Hc). cbn in H0. bool_to_prop.
  assert (is_ascii c = true) as Ha by (by apply H, list_elem_of_In).
  unfold ua_plain. unfold is_ascii, is_control, is_ascii_control, between in *. bool_to_prop.
  destruct (ua_delimiter c); [done|]. lia.
Qed.

Lemma app_cons_inj {A} (p : A -> bool) (a a' b b' : list A) x :
  p x = false -> Forall (fun c => p c = true) a -> Forall (fun c => p c = true) a' ->
  a ++ x :: b = a' ++ x :: b' -> a = a' /\ b = b'.
Proof.
  intros Hx Ha. revert a'. induction Ha as [|c a Hc _ IH]; intros [|c' a'] Ha'; cbn; intros H.
  - by simplify_eq.
  - apply Forall_cons in Ha' as [? _]. simplify_eq. congruence.
  - simplify_eq. congruence.
  - apply Forall_cons in Ha' as [_ Ha']. injection H as -> H. by apply IH in H as [-> ->].
Qed.

(** the user agent of a valid identity has no control character (so it
    cannot split a header), and its comment is unambiguous: the policy location
    and the contact can be read back from it, no two identities share one. *)
Theorem user_agent_identifies pkg_version i i' ua :
  forallb (fun c => negb (is_control c)) pkg_version = true ->
  build_user_agent pkg_version i = Ok ua ->
  forallb (fun c => negb (is_control c)) ua = true /\
  (build_user_agent pkg_version i' = Ok ua -> i = i').
Proof.
  intros Hv H. unfold build_user_agent in *.
  apply bind_Ok in H as (? & Hp%validate_policy_url_plain & H).
  apply bind_Ok in H as (? & Hc%validate_contact_plain & H).
  assert (forall a b : str, @Ok string str a = Ok b -> a = b) as Ok_inj by congruence.
  apply Ok_inj in H as <-. split.
  - assert (forall s, Forall (fun c => ua_plain c = true) s ->
      forallb (fun c => negb (is_control c)) s = true) as Hplain.
    { intros s Hs. apply forallb_forall. intros c Hin%list_elem_of_In.
      rewrite Forall_forall in Hs. specialize (Hs c Hin). unfold ua_plain in Hs.
      by apply andb_true_iff in Hs as [? _]. }
    rewrite !forallb_app, Hv, (Hplain _ Hp), (Hplain _ Hc). reflexivity.
  - intros H'. apply bind_Ok in H' as (? & Hp'%validate_policy_url_plain & H').
    apply bind_Ok in H' as (? & _ & H'). apply Ok_inj in H'.
    do 3 apply app_inv_head in H'.
    change (lit "; ") with [59; 32] in H'. cbn [app] in H'.
    apply (app_cons_inj ua_plain) in H' as [Hpol Htail]; [|done..].
    injection Htail as Htail. apply app_inv_tail in Htail.
    destruct i, i'; cbn in *. congruence.
Qed.
End IdentityClaims.

(** ** What a validated policy promises *)

(** An absolute https location with a host name, without credentials or
    fragment, that cannot end the user-agent comment. *)
Definition https_location `{U : UrlOps} (value : str) : Prop :=
  value <> [] /\ Forall (fun c => is_whitespace c = false /\ is_control c = false /\ ua_delimiter c = false) value /\
  contains_char 64 (default [] (split ch_slash value !! 2%nat)) = false /\
  exists u host, url_parse value = Some u /\ url_scheme u = lit "https" /\ url_domain u = Some host /\ host <> [] /\
    url_username u = [] /\ url_password u = None /\ url_fragment u = None.
(** An address of plain characters: something, an at sign, and dotted labels. *)
Definition mailbox (value : str) : Prop :=
  Forall (fun c => is_ascii c = true /\ is_ascii_whitespace c = false /\ is_ascii_control c = false /\
                   ua_delimiter c = false /\ c <> 58 /\ c <> 47 /\ c <> 92) value /\
  exists local domain, split_once 64 value = Some (local, domain) /\ local <> [] /\
    contains_char 64 domain = false /\ contains_char 46 domain = true /\
    Forall (fun label => label <> [] /\
      Forall (fun c => is_ascii_alphanumeric c = true \/ c = ch_minus) label) (split 46 domain).
Definition contact_location `{U : UrlOps} (value : str) : Prop :=
  if starts_with (lit "https://") value then https_location value else mailbox value.

Record retention_sound (r : RetentionConfig) : Prop := {
  rs_bodies : raw_body_max_age_days r <= 30;
  rs_snippets : snippet_max_chars r <= 300;
  rs_logs : query_log_max_age_days r <= 90;
  rs_prefixes : query_ip_v4_prefix r = 24 /\ query_ip_v6_prefix r = 48;
  rs_salt : query_rotating_salt_required r = true;
  rs_uses : cached_copy r = false /\ profiling_allowed r = false /\ advertising_allowed r = false;
}.
Record exclusions_sound (e : ExclusionsConfig) : Prop := {
  es_version : nonempty (exclusions_version e) = true;
  es_head : exists change, last (change_log e) = Some change /\
    change_version change = exclusions_version e /\ date_utc change = changed_at_utc e;
  es_changes : Forall (fun c => nonempty (change_version c) = true /\ nonempty (change_reason c) = true /\
    nonempty (review_ref c) = true) (change_log e);
  es_cctlds : Forall (fun c => length c = 2%nat /\ Forall (fun x => is_ascii_lowercase x = true) c)
    (cctld_allow e ++ cctld_deny e);
  es_countries : Forall (fun c => length c = 2%nat /\ Forall (fun x => is_ascii_uppercase x = true) c)
    (hosting_country_allow e ++ hosting_country_deny e);
  es_languages : Forall (fun t => language_tag t = true) (language_allow e ++ language_deny e);
  es_provider : hosting_country_allow e ++ hosting_country_deny e <> [] -> is_Some (hosting_country_provider e);
  es_provider_named : forall x, hosting_country_provider e = Some x ->
    nonempty (provider_id x) = true /\ nonempty (provider_version x) = true;
  es_rules : NoDup (map rule_id (rules e)) /\
    Forall (fun r => nonempty (rule_id r) = true /\ valid_host (rule_host r) = true) (rules e);
  es_listings : Forall (fun l => valid_host (listing_host l) = true) (listing_sites e);
  es_serving : uk_or_unknown_measures (serving e) = true /\ non_uk_policy (serving e) = lit "same-as-uk" /\
    missing_adult_is_child (serving e) = true;
}.
Definition locations (p : IngestionPolicy) : list str :=
  let c := policy_content p in
  omap id [content_lia_summary_url c; removal_url c; osa_report_url c; complaints_url c; ico_url c; egress_file_url c].
(** Everything a policy must satisfy before anything is fetched. *)
Record policy_sound `{U : UrlOps} `{C : Chrono} (utc_now : Z) (p : IngestionPolicy) : Prop := {
  ps_version : nonempty (version p) = true;
  ps_identity : https_location (policy_url (identity p)) /\ contact_location (contact (identity p));
  ps_robots : cache_secs (robots p) <> 0 /\ cache_secs (robots p) <= 86400;
  ps_gap : 500 <= gap_ms (politeness p) <= 86400000;
  ps_concurrency : 1 <= max_concurrent_per_host (politeness p) <= 2;
  ps_block : 86400 <= block_secs (politeness p) <= i64_max /\
    exists d until, try_seconds (block_secs (politeness p)) = Some d /\ date_add utc_now d = Some until;
  ps_retry : retry_budget (politeness p) <= 3;
  ps_retention : retention_sound (retention p);
  ps_exclusions : exclusions_sound (exclusions p);
  ps_locations : Forall https_location (locations p);
}.

Lemma ensure_bind {A} cond message (k : checked A) a :
  (_ ← ensure cond message; k) = Ok a <-> cond = true /\ k = Ok a.
Proof. destruct cond; cbn; naive_solver. Qed.
Lemma ok_or_bind {A B} (o : option A) message (k : A -> checked B) b :
  (x ← ok_or o message; k x) = Ok b <-> exists x, o = Some x /\ k x = Ok b.
Proof. rewrite bind_Ok. by setoid_rewrite ok_or_Ok. Qed.
Lemma for_each_bind {A B} (f : A -> checked unit) l (k : checked B) b :
  (_ ← try_for_each f l; k) = Ok b <-> Forall (fun x => f x = Ok tt) l /\ k = Ok b.
Proof.
  rewrite bind_Ok. setoid_rewrite try_for_each_Ok. split; [intros [_ ?]; done|by exists tt].
Qed.
Lemma forallb_Forall {A} (f : A -> bool) l : forallb f l = true <-> Forall (fun x => f x = true) l.
Proof. rewrite forallb_forall, Forall_forall. by setoid_rewrite list_elem_of_In. Qed.
Lemma is_empty_negb {A} (l : list A) : negb (is_empty l) = true <-> l <> [].
Proof. by destruct l. Qed.
Lemma not_existsb {A} (f : A -> bool) l : negb (existsb f l) = true <-> Forall (fun x => f x = false) l.
Proof. by rewrite negb_true_iff, existsb_false. Qed.

Section ValidateClaims.
Context `{U : UrlOps} `{C : Chrono} (pkg_version : str).

Lemma validate_policy_url_iff value u : validate_policy_url value = Ok u <-> https_location value.
Proof.
  destruct u. unfold validate_policy_url, https_location. rewrite ensure_bind, ok_or_bind.
  rewrite andb_true_iff, is_empty_negb, not_existsb. setoid_rewrite ensure_Ok.
  assert (Forall (fun c => is_whitespace c || is_control c || ua_delimiter c = false) value <->
    Forall (fun c => is_whitespace c = false /\ is_control c = false /\ ua_delimiter c = false) value) as ->.
  { apply Forall_iff. intros c. rewrite !orb_false_iff. tauto. }
  split.
  - intros ([Hne Hf] & u & Hu & Hg). bool_to_prop. split_and!; [done|done|done|].
    destruct (url_domain u) as [host|] eqn:Hd; [|done]. exists u, host. bool_to_prop.
    split_and!; try done; try (by apply str_eqb_eq); try (by apply is_empty_true); try (by apply is_empty_false);
      by apply eq_None_not_Some.
  - intros (Hne & Hf & Hat & u & host & Hu & Hs & Hd & Hh & Hn & Hp & Hfr). split; [done|]. exists u. split; [done|].
    rewrite Hs, Hd, Hn, Hp, Hfr, Hat, str_eqb_refl. cbn. by destruct host.
Qed.

Lemma validate_contact_iff value u : validate_contact value = Ok u <-> contact_location value.
Proof.
  unfold validate_contact, contact_location. destruct (starts_with _ value); [apply validate_policy_url_iff|].
  destruct u. unfold mailbox. rewrite ensure_bind, andb_true_iff, forallb_Forall, not_existsb.
  rewrite <- Forall_and.
  match goal with |- context [Forall ?P value /\ _] => match goal with |- context [_ <-> Forall ?Q value /\ _] =>
    assert (Forall P value <-> Forall Q value) as -> end end.
  { apply Forall_iff. intros c. rewrite !orb_false_iff, !Z.eqb_neq. tauto. }
  apply and_iff_compat_l. rewrite bind_Ok. setoid_rewrite ok_or_Ok. split.
  - intros ([local domain] & Hs & Hg%ensure_Ok). bool_to_prop. exists local, domain. apply is_empty_false in H.
    split_and!; try done. apply forallb_Forall in H0. eapply Forall_impl; [exact H0|].
    intros label Hl. cbn in Hl. bool_to_prop. split; [by apply is_empty_false|]. apply forallb_Forall in H4.
    eapply Forall_impl; [exact H4|]. intros c Hc. apply orb_true_iff in Hc as [?|?%Z.eqb_eq]; auto.
  - intros (local & domain & Hs & Hl & Ha & Hdot & Hf). exists (local, domain). split; [done|]. apply ensure_Ok.
    rewrite Ha, Hdot. destruct local; [done|]. cbn. apply forallb_Forall. eapply Forall_impl; [exact Hf|].
    intros label [Hne Hc]. destruct label; [done|]. cbn [is_empty negb andb]. apply forallb_Forall.
    eapply Forall_impl; [exact Hc|]. intros c [->| ->]; [done|]. by rewrite Z.eqb_refl, orb_true_r.
Qed.

Lemma validate_retention_iff r u : validate_retention_bounds r = Ok u <-> retention_sound r.
Proof.
  unfold validate_retention_bounds. rewrite ensure_Ok. split.
  - intros H. bool_to_prop. by split.
  - intros [Hb Hs Hl [-> ->] -> (-> & -> & ->)]. apply Z.leb_le in Hb as ->, Hs as ->, Hl as ->. done.
Qed.
Lemma rules_ok_iff ids l u :
  rules_ok ids l = Ok u <-> NoDup (map rule_id l) /\ Forall (fun r => rule_id r ∉ ids) l /\
    Forall (fun r => nonempty (rule_id r) = true /\ valid_host (rule_host r) = true) l.
Proof.
  destruct u. revert ids. induction l as [|r l IH]; intros ids; cbn [rules_ok map].
  { split; [|done]. intros _. split_and!; constructor. }
  rewrite ensure_bind, IH, NoDup_cons, !Forall_cons, !andb_true_iff, negb_true_iff, bool_decide_eq_false.
  assert (Forall (fun x => rule_id x ∉ rule_id r :: ids) l <->
    rule_id r ∉ map rule_id l /\ Forall (fun x => rule_id x ∉ ids) l) as ->.
  { rewrite !Forall_forall. split.
    - intros H. split; [|intros x Hx Hin; apply (H x Hx); by right].
      intros (x & E & Hx)%list_elem_of_fmap. apply (H x Hx). rewrite E. by left.
    - intros [Hn H] x Hx [E|Hin]%elem_of_cons; [|by apply (H x Hx)]. apply Hn. rewrite <- E. by apply list_elem_of_fmap_2. }
  tauto.
Qed.
Lemma code_ok_iff letter code :
  code_ok letter code = true <-> length code = 2%nat /\ Forall (fun c => letter c = true) code.
Proof. unfold code_ok. by rewrite andb_true_iff, Nat.eqb_eq, forallb_Forall. Qed.
Lemma validate_exclusions_iff e u : validate_exclusion_schema e = Ok u <-> exclusions_sound e.
Proof.
  assert (forall l : list str, Forall (fun c => ensure (code_ok is_ascii_lowercase c)
      "ingestion.exclusions ccTLD must be two lowercase DNS letters" = Ok tt) l <->
    Forall (fun c => length c = 2%nat /\ Forall (fun x => is_ascii_lowercase x = true) c) l) as Hcc.
  { intros l. apply Forall_iff. intros c. by rewrite ensure_Ok, code_ok_iff. }
  assert (forall l : list str, Forall (fun c => ensure (code_ok is_ascii_uppercase c)
      "ingestion.exclusions country code must be two uppercase letters" = Ok tt) l <->
    Forall (fun c => length c = 2%nat /\ Forall (fun x => is_ascii_uppercase x = true) c) l) as Hco.
  { intros l. apply Forall_iff. intros c. by rewrite ensure_Ok, code_ok_iff. }
  unfold validate_exclusion_schema. rewrite ensure_bind, ok_or_bind. split.
  - intros (Hv & change & Hlast & H). rewrite ensure_bind in H. destruct H as [Hhead H].
    rewrite !for_each_bind, Hcc, Hco in H. destruct H as (Hch & Hc1 & Hc2 & Hlang & H).
    apply bind_Ok in H as (x & Hreq & H). apply bind_Ok in H as (y & Hprov & H).
    apply bind_Ok in H as (z & (Hnd & _ & Hrules)%rules_ok_iff & H). rewrite for_each_bind, ensure_Ok in H.
    destruct H as [Hlist Hserv]. apply andb_true_iff in Hhead as [Hver%str_eqb_eq Hdate%Z.eqb_eq].
    apply andb_true_iff in Hserv as [[Hs1 Hs2%str_eqb_eq]%andb_true_iff Hs3]. split; try done.
    + by exists change.
    + eapply Forall_impl; [exact Hch|]. intros c Hc%ensure_Ok. bool_to_prop. done.
    + eapply Forall_impl; [exact Hlang|]. by intros t ?%ensure_Ok.
    + intros Hne. destruct (hosting_country_allow e), (hosting_country_deny e); cbn in Hreq; try done;
        by apply ensure_Ok, bool_decide_eq_true in Hreq.
    + intros q Hq. rewrite Hq in Hprov. apply ensure_Ok in Hprov. bool_to_prop. done.
    + eapply Forall_impl; [exact Hlist|]. by intros l ?%ensure_Ok.
  - intros [Hv (change & Hlast & Hver & Hdate) Hch Hc1 Hc2 Hlang Hreq Hprov [Hnd Hrules] Hlist (Hs1 & Hs2 & Hs3)].
    split; [done|]. exists change. split; [done|]. rewrite ensure_bind, !for_each_bind, Hcc, Hco.
    split_and!; [by rewrite Hver, Hdate, str_eqb_refl, Z.eqb_refl| |done|done| |].
    + eapply Forall_impl; [exact Hch|]. intros c (-> & -> & ->). done.
    + eapply Forall_impl; [exact Hlang|]. by intros t ->.
    + apply bind_Ok. exists tt. split.
      { destruct (hosting_country_allow e), (hosting_country_deny e); cbn; try done;
          apply ensure_Ok, bool_decide_eq_true, Hreq; done. }
      apply bind_Ok. exists tt. split.
      { destruct (hosting_country_provider e) as [q|]; [|done]. destruct (Hprov q eq_refl) as [-> ->]. done. }
      apply bind_Ok. exists tt. split.
      { apply rules_ok_iff. split_and!; [done| |done]. apply Forall_forall. intros r _. apply not_elem_of_nil. }
      rewrite for_each_bind, ensure_Ok, Hs1, Hs2, Hs3, str_eqb_refl. split; [|by destruct u].
      eapply Forall_impl; [exact Hlist|]. by intros l ->.
Qed.

Lemma build_user_agent_iff i : is_ok (build_user_agent pkg_version i) = true <->
  https_location (policy_url i) /\ contact_location (contact i).
Proof.
  unfold build_user_agent. rewrite <- (validate_policy_url_iff _ tt), <- (validate_contact_iff _ tt).
  destruct (validate_policy_url _) as [[]|e]; cbn; [|split; [done|by intros [? _]]].
  destruct (validate_contact _) as [[]|e]; cbn; [done|split; [done|by intros [_ ?]]].
Qed.
Lemma locations_iff l :
  Forall (fun o => match o with Some value => validate_policy_url value | None => Ok tt end = Ok tt) l <->
  Forall https_location (omap id l).
Proof.
  induction l as [|[x|] l IH]; cbn; [by split; constructor| |]; rewrite Forall_cons, IH; [|tauto].
  by rewrite Forall_cons, validate_policy_url_iff.
Qed.
(** Validation accepts exactly the sound policies, and changes nothing. *)
Lemma validate_iff now p p' : validate pkg_version now p = Ok p' <-> p' = p /\ policy_sound now p.
Proof.
  unfold validate. rewrite ensure_bind, bind_Ok. split.
  - intros (Hv & ua & Hua & H). assert (is_ok (build_user_agent pkg_version (identity p)) = true) as Hid by (by rewrite Hua).
    apply build_user_agent_iff in Hid. rewrite !ensure_bind in H.
    destruct H as (Hcache & Hgap & Hdur & Hconc & Hblock & Hretry & H).
    apply bind_Ok in H as (x & Hret%validate_retention_iff & H).
    apply bind_Ok in H as (y & Hexcl%validate_exclusions_iff & H).
    cbv zeta in H. rewrite for_each_bind, locations_iff in H. destruct H as [Hloc [= <-]].
    unfold checked_duration, validate_block_secs, MAX_ROBOTS_CACHE_SECS, HARD_MIN_HOST_GAP_MS,
      HARD_MAX_HOST_CONCURRENCY, MIN_BLOCK_SECS in *. split; [done|].
    apply andb_true_iff in Hblock as [Hmin Hblock]. destruct (block_secs (politeness p) <=? i64_max) eqn:Hmax; [|done].
    bool_to_prop. split; try done; try lia. split; [lia|].
    destruct Hblock as [until (d & Hd & Hu)%bind_Some]. by exists d, until.
  - intros [-> [Hv Hid [Hc0 Hc] Hgap Hconc [Hb (d & until & Hd & Hu)] Hretry Hret Hexcl Hloc]]. split; [done|].
    apply build_user_agent_iff in Hid. destruct (build_user_agent _ _) as [ua|] eqn:Hua; [|done]. exists ua. split; [done|].
    unfold checked_duration, validate_block_secs, MAX_ROBOTS_CACHE_SECS, HARD_MIN_HOST_GAP_MS,
      HARD_MAX_HOST_CONCURRENCY, MIN_BLOCK_SECS.
    rewrite !ensure_bind, Hd. cbn [mbind option_bind]. rewrite Hu.
    rewrite (proj2 (Z.leb_le (block_secs (politeness p)) i64_max)) by lia.
    rewrite !andb_true_iff, !negb_true_iff, orb_false_iff, !Z.leb_le, !Z.ltb_ge, Z.eqb_neq, bool_decide_eq_true.
    split_and!; try lia; [done|]. apply bind_Ok. exists tt. split; [by apply validate_retention_iff|].
    apply bind_Ok. exists tt. split; [by apply validate_exclusions_iff|]. cbv zeta.
    rewrite for_each_bind, locations_iff. done.
Qed.

(** The politeness that the host gate relies on. *)
Lemma validate_politeness_ok now p p' :
  validate pkg_version now p = Ok p' -> p' = p /\ validate_politeness now (politeness p) = true.
Proof.
  intros [-> [_ _ _ [Hg Hd] [H1 H2] [[Hb1 Hb2] (d & until & Hs & Hu)] Hr _ _ _]]%validate_iff. split; [done|].
  unfold validate_politeness, checked_duration, HARD_MIN_HOST_GAP_MS, HARD_MAX_HOST_CONCURRENCY, MIN_BLOCK_SECS.
  rewrite Hs, Hu. apply Z.ltb_ge in Hg as ->. apply Z.leb_le in Hd as ->, H1 as ->, H2 as ->, Hb2 as ->, Hr as ->.
  by rewrite (proj2 (Z.leb_le (24 * 60 * 60) _) Hb1).
Qed.

Lemma filter_one {A} (f : A -> bool) l x :
  length (List.filter f l) = 1%nat -> head (List.filter f l) = Some x ->
  exists before after, l = before ++ x :: after /\ f x = true /\
    Forall (fun y => f y = false) (before ++ after).
Proof.
  induction l as [|y l IH]; cbn; [done|]. destruct (f y) eqn:Hy.
  - cbn. intros [= Hl] [= ->]. exists [], l. split_and!; [done..|].
    apply nil_length_inv in Hl. cbn. apply Forall_forall. intros z Hz.
    destruct (f z) eqn:Hfz; [|done].
    assert (In z (List.filter f l)) as Hin by (apply filter_In; by rewrite <- list_elem_of_In).
    by rewrite Hl in Hin.
  - intros Hl Hh. destruct (IH Hl Hh) as (before & after & -> & Hf & Hall).
    exists (y :: before), after. split_and!; [done..|]. by constructor.
Qed.

Lemma one_filtered {A} (f : A -> bool) before x after :
  f x = true -> Forall (fun y => f y = false) (before ++ after) -> List.filter f (before ++ x :: after) = [x].
Proof.
  intros Hx [Hb Ha]%Forall_app. rewrite List.filter_app. cbn. rewrite Hx.
  assert (forall l, Forall (fun y => f y = false) l -> List.filter f l = []) as Hnone.
  { intros l Hl. induction Hl as [|y l Hy _ IH]; [done|]. cbn. by rewrite Hy. }
  by rewrite !Hnone.
Qed.

(** An assessment that lets this version of the policy go into production. *)
Record approves (now : Z) (p : IngestionPolicy) (r : ApprovedRecord) : Prop := {
  ar_status : record_status r = Approved;
  ar_date : approved_at_utc r <= now;
  ar_approver : nonempty (approver r) = true;
  ar_lia : nonempty (lia_id r) = true;
  ar_article14 : nonempty (article14_measures_id r) = true;
  ar_version : policy_version r = version p;
  ar_summary : https_location (lia_summary_url r);
}.

(** C38: a production permit is issued exactly for a sound policy whose selected
    identifier is named by exactly one assessment, which is approved, not dated in
    the future, signed, linked to a legitimate-interests assessment with an https
    summary and to Article 14 measures, and for this policy version; the
    environment's identifier, when there is one, is the selected one, and the
    host lease is configured. A sound policy has a version, an identity whose
    locations cannot break the user agent, cache, gap, concurrency, block and
    retry bounds, the required retention safeguards, a complete exclusion schema
    and https locations. The permit is the policy itself, unchanged. *)
Theorem production_permit_needs_one_approval utc_now now env p permit :
  require_production_approval pkg_version utc_now now env p = Ok permit <->
  permit = p /\ policy_sound utc_now p /\
  distributed_host_lease_configured (production p) = true /\
  exists id record before after,
    dpia_id (production p) = Some id /\ nonempty id = true /\
    (forall value, env = Some value -> value = id) /\
    approved_records (production p) = before ++ record :: after /\ record_id record = id /\
    Forall (fun r => record_id r <> id) (before ++ after) /\ approves now p record.
Proof.
  assert (forall id (l : list ApprovedRecord), Forall (fun r => record_id r <> id) l <->
    Forall (fun r => str_eqb (record_id r) id = false) l) as Hne.
  { intros id l. apply Forall_iff. intros r. unfold str_eqb. by rewrite bool_decide_eq_false. }
  unfold require_production_approval. rewrite bind_Ok. setoid_rewrite validate_iff. split.
  - intros (p' & [-> Hsound] & H). rewrite ok_or_bind in H. destruct H as (id & Hid & H). cbv zeta in H.
    rewrite !ensure_bind, ok_or_bind in H. destruct H as (Henv & Hone%Nat.eqb_eq & record & Hhead & H).
    rewrite ensure_bind, bind_Ok in H. destruct H as (Hrec & x & Hurl%validate_policy_url_iff & H).
    rewrite ensure_bind in H. destruct H as [Hlease [= <-]].
    destruct (filter_one _ _ _ Hone Hhead) as (before & after & Hl & Hrid%str_eqb_eq & Hothers).
    destruct (dpia_id (production p)) as [id'|]; [|done]. destruct (nonempty id') eqn:Hn; [|done]. injection Hid as ->.
    bool_to_prop. split_and!; [done..|]. exists id, record, before, after. split_and!; try done.
    + intros value ->. by apply str_eqb_eq.
    + by apply Hne.
    + split; try done. by apply str_eqb_eq.
  - intros (-> & Hsound & Hlease & id & record & before & after & Hid & Hn & Henv & Hl & Hrid & Hothers & Hap).
    exists p. split; [done|]. rewrite ok_or_bind. exists id. rewrite Hid, Hn. split; [done|]. cbv zeta.
    assert (List.filter (fun r => str_eqb (record_id r) id) (approved_records (production p)) = [record]) as ->.
    { rewrite Hl. apply one_filtered; [by apply str_eqb_eq|by apply Hne]. }
    rewrite !ensure_bind, ok_or_bind. split.
    { destruct env as [value|]; [|done]. rewrite (Henv value eq_refl). apply str_eqb_refl. }
    split; [done|]. exists record. split; [done|]. destruct Hap as [Hs Hd Ha Hlia Hart Hver Hurl].
    rewrite ensure_bind, bind_Ok, Hs, Ha, Hlia, Hart, Hver, str_eqb_refl, (proj2 (Z.leb_le _ _) Hd).
    split; [done|]. exists tt. split; [by apply validate_policy_url_iff|]. by rewrite ensure_bind.
Qed.
End ValidateClaims.

(** ** Concrete policies *)

Module PolicyExamples.
Import UrlReference ChronoReference.

Definition approved_policy : IngestionPolicy :=
  {| version := lit "585.1"; identity := IdentityConfig_default; robots := RobotsConfig_default;
     politeness := PolitenessConfig_default; retention := RetentionConfig_default;
     exclusions := ExclusionsConfig_default;
     production :=
       {| dpia_id := Some (lit "assessment-1");
          approved_records :=
            [{| record_id := lit "assessment-1"; record_status := Approved;
                approver := lit "fixture approver"; approved_at_utc := 5; lia_id := lit "lia-1";
                lia_summary_url := lit "https://example.invalid/lia";
                article14_measures_id := lit "notice-1"; policy_version := lit "585.1" |}];
          distributed_host_lease_configured := true |};
     policy_content := PolicyContent_default |}.

Example default_policy_validates :
  is_ok (validate (lit "0.1.0") 0 IngestionPolicy_default) = true.
Proof. vm_compute. reflexivity. Qed.

Lemma production_permit_needs_one_approval_witness :
  require_production_approval (lit "0.1.0") 0 5 (Some (lit "assessment-1")) approved_policy
    = Ok approved_policy /\
  policy_sound 0 approved_policy /\ distributed_host_lease_configured (production approved_policy) = true.
Proof.
  assert (require_production_approval (lit "0.1.0") 0 5 (Some (lit "assessment-1")) approved_policy
    = Ok approved_policy) as H by (vm_compute; reflexivity).
  split; [exact H|].
  destruct (proj1 (production_permit_needs_one_approval (lit "0.1.0") 0 5 (Some (lit "assessment-1"))
    approved_policy approved_policy) H) as (_ & Hsound & Hlease & _). exact (conj Hsound Hlease).
Defined.

Definition default_ua : str :=
  default [] (ok (build_user_agent (lit "0.1.0") IdentityConfig_default)).
Lemma user_agent_identifies_witness :
  build_user_agent (lit "0.1.0") IdentityConfig_default = Ok default_ua /\
  forallb (fun c => negb (is_control c)) default_ua = true.
Proof.
  assert (build_user_agent (lit "0.1.0") IdentityConfig_default = Ok default_ua) as H
    by (vm_compute; reflexivity).
  split; [exact H|].
  refine (proj1 (user_agent_identifies _ _ IdentityConfig_default _ _ H)). vm_compute. reflexivity.
Defined.
End PolicyExamples.
