(* ===== verification/HostState.v ===== *)
(** * Persisted host state ([crates/core/src/crawler/host_state.rs])

    Blocks, rate deadlines and listing budgets per host. The registry keeps
    the map in memory, writes the whole map to disk after every change before
    the caller continues, and refuses everything after a failed write. The
    outcomes of the filesystem calls are the argument [io] of the operations
    that write, so a crash-like failure at any point is an instance. *)

From S2P Require Import Prelude Text Externals CrawlerBase.

#[local] Open Scope Z_scope.

Inductive ChallengeKind := MitigatedHeader | VerificationForm | InteractiveWidget.
Inductive BlockReason :=
| HttpStatus (status : Z)
| Challenge (kind : ChallengeKind)
| IndefiniteRateDeadline.

Record HostState := {
  blocked_until_utc : option Z;
  block_reason : option BlockReason;
  consecutive_rate_responses : Z;
  retry_at_utc : option Z;
  retry_after_invalid : bool;
  last_request_start : option Z;
  listing_window_start_utc : option Z;
  listing_attempts : Z;
}.

Definition HostState_default : HostState :=
  {| blocked_until_utc := None; block_reason := None; consecutive_rate_responses := 0;
     retry_at_utc := None; retry_after_invalid := false; last_request_start := None;
     listing_window_start_utc := None; listing_attempts := 0 |}.

Abbreviation HostKey := (list Z).

Record HostRegistry := {
  states : gmap HostKey HostState;     (** in memory *)
  stored : gmap HostKey HostState;     (** host-state.json *)
  failed : bool;
}.

(** ** Atomic replacement of a store file *)

(** Which of the system calls of [atomic_write] succeed; the serialisation
    before it is the first. *)
Record FileIo := {
  io_serialize : bool; io_open : bool; io_write : bool;
  io_sync : bool; io_rename : bool; io_dir_sync : bool;
}.
Definition io_all_ok : FileIo :=
  {| io_serialize := true; io_open := true; io_write := true;
     io_sync := true; io_rename := true; io_dir_sync := true |}.

(** The file holds the new contents as soon as the rename succeeded, also when
    the directory sync after it fails. *)
Definition atomic_write {A} (io : FileIo) (old new : A) : A * res unit :=
  if negb (io_open io && io_write io && io_sync io && io_rename io) then (old, Err HostStateWrite)
  else if negb (io_dir_sync io) then (new, Err HostStateWrite)
  else (new, Ok tt).

Definition persist_state (io : FileIo) (old new : gmap HostKey HostState)
    : gmap HostKey HostState * res unit :=
  if io_serialize io then atomic_write io old new else (old, Err InternalInvariant).

(** ** Backoff and Retry-After *)

Definition backoff_seconds (consecutive : Z) : Z :=
  let backoff_secs :=
    u64_saturating_mul 900
      (default u64_max (u64_checked_shl 1 (u32_saturating_sub consecutive 1))) in
  Z.min backoff_secs 86400.

Section Chrono.
Context `{C : Chrono}.

Definition parse_retry_after (value : str) (now : Z) : option Z :=
  let value := trim value in
  if negb (is_empty value) && all_digits value then
    seconds ← parse_i64 value;
    d ← try_seconds seconds;
    date_add now d
  else (fun deadline => Z.max deadline now) <$> parse_from_rfc2822 value.

(** ** Registry operations *)

Definition state (r : HostRegistry) (host : HostKey) : res HostState :=
  if failed r then Err HostStateWrite
  else Ok (default HostState_default (states r !! host)).

(** [update]: the change runs on the entry in place (a default one is created),
    so its effects stay in memory even when it returns an error; the file is
    written only after a successful change, and a failed write poisons the
    registry. *)
Definition update (r : HostRegistry) (host : HostKey)
    (change : HostState -> HostState * res unit)
    (io : FileIo) : HostRegistry * res unit :=
  if failed r then (r, Err HostStateWrite)
  else
    let '(st, out) := change (default HostState_default (states r !! host)) in
    let states' := <[host := st]> (states r) in
    match out with
    | Err e => ({| states := states'; stored := stored r; failed := failed r |}, Err e)
    | Ok _ =>
        let '(file, written) := persist_state io (stored r) states' in
        match written with
        | Ok _ => ({| states := states'; stored := file; failed := failed r |}, Ok tt)
        | Err e => ({| states := states'; stored := file; failed := true |}, Err e)
        end
    end.

Definition set_last_request_start (now : Z) (st : HostState) : HostState :=
  {| blocked_until_utc := blocked_until_utc st; block_reason := block_reason st;
     consecutive_rate_responses := consecutive_rate_responses st;
     retry_at_utc := retry_at_utc st; retry_after_invalid := retry_after_invalid st;
     last_request_start := Some now;
     listing_window_start_utc := listing_window_start_utc st;
     listing_attempts := listing_attempts st |}.

Definition started (r : HostRegistry) (host : HostKey) (now : Z)
    (io : FileIo) : HostRegistry * res unit :=
  update r host (fun st => (set_last_request_start now st, Ok tt)) io.

Definition set_listing (start : option Z) (attempts : Z) (st : HostState) : HostState :=
  {| blocked_until_utc := blocked_until_utc st; block_reason := block_reason st;
     consecutive_rate_responses := consecutive_rate_responses st;
     retry_at_utc := retry_at_utc st; retry_after_invalid := retry_after_invalid st;
     last_request_start := last_request_start st;
     listing_window_start_utc := start; listing_attempts := attempts |}.

(** A window that started 24 hours ago, or none, is replaced by a new one. *)
Definition roll_window (now : Z) (st : HostState) : HostState :=
  if match listing_window_start_utc st with
     | None => true
     | Some start => 86400 <=? num_seconds (now - start)
     end
  then set_listing (Some now) 0 st else st.

Definition admit_listing_change (now listing_limit : Z) (st : HostState)
    : HostState * res unit :=
  let st := roll_window now st in
  if listing_limit <=? listing_attempts st then (st, Err ListingBudgetExhausted)
  else (set_listing (listing_window_start_utc st)
          (u64_saturating_add (listing_attempts st) 1) st, Ok tt).

Definition admit_listing (r : HostRegistry) (host : HostKey) (now listing_limit : Z)
    (io : FileIo) : HostRegistry * res unit :=
  update r host (admit_listing_change now listing_limit) io.

(** Fields written by the rate part and by the block part of [observe]. *)
Definition set_rate (consecutive : Z) (retry : option Z) (invalid : bool)
    (blocked : option Z) (reason : option BlockReason) (st : HostState) : HostState :=
  {| blocked_until_utc := blocked; block_reason := reason;
     consecutive_rate_responses := consecutive; retry_at_utc := retry;
     retry_after_invalid := invalid; last_request_start := last_request_start st;
     listing_window_start_utc := listing_window_start_utc st;
     listing_attempts := listing_attempts st |}.

(** The loop over the Retry-After values: the deadline so far and the three
    fields it writes. *)
Definition retry_value (now : Z) (acc : option Z * bool * option BlockReason * option Z)
    (value : str) : option Z * bool * option BlockReason * option Z :=
  let '(retry, invalid, reason, blocked) := acc in
  match parse_retry_after value now with
  | Some deadline => (opt_max retry (Some deadline), invalid, reason, blocked)
  | None =>
      if forallb is_ascii_digit (trim value)
      then (retry, true, Some IndefiniteRateDeadline, Some max_utc)
      else (retry, true, reason, blocked)
  end.

Definition observe_rate (now status : Z) (headers : ResponseHeaders) (st : HostState)
    : HostState :=
  if (status =? 429) || (status =? 503) then
    let consecutive := u32_saturating_add (consecutive_rate_responses st) 1 in
    let backoff_secs := backoff_seconds consecutive in
    let retry := date_add now (delta_secs backoff_secs) in
    let invalid := retry_after_invalid st || headers_invalid headers "retry-after" in
    let '(retry, invalid, reason, blocked) :=
      foldl (retry_value now) (retry, invalid, block_reason st, blocked_until_utc st)
        (header_all headers "retry-after") in
    set_rate consecutive (opt_max (retry_at_utc st) retry) invalid blocked reason st
  else if (200 <=? status) && (status <? 300) then
    set_rate 0 None (retry_after_invalid st) (blocked_until_utc st) (block_reason st) st
  else st.

(** [TimeDelta::seconds] panics above [i64_max / 1000] seconds; the registry holds
    a validated policy, whose block time is below ([validated_block_in_range]). *)
Definition observe_block (now block_secs status : Z) (challenge : option ChallengeKind)
    (st : HostState) : HostState :=
  if (status =? 401) || (status =? 403) || (status =? 429) || bool_decide (is_Some challenge)
  then
    let floor := default max_utc (date_add now (delta_secs (u64_as_i64 block_secs))) in
    set_rate (consecutive_rate_responses st) (retry_at_utc st) (retry_after_invalid st)
      (opt_max (opt_max (blocked_until_utc st) (Some floor)) (retry_at_utc st))
      (Some match challenge with Some k => Challenge k | None => HttpStatus status end) st
  else st.

Definition observe_change (policy : PolitenessConfig) (now status : Z)
    (headers : ResponseHeaders) (challenge : option ChallengeKind) (st : HostState) : HostState :=
  let block_secs := Z.max (block_secs policy) MIN_BLOCK_SECS in
  observe_block now block_secs status challenge (observe_rate now status headers st).

Definition observe (r : HostRegistry) (policy : PolitenessConfig) (host : HostKey)
    (now status : Z) (headers : ResponseHeaders) (challenge : option ChallengeKind)
    (io : FileIo) : HostRegistry * res unit :=
  update r host (fun st => (observe_change policy now status headers challenge st, Ok tt)) io.

Definition not_modified_change (st : HostState) : HostState * res unit :=
  (set_rate 0 None (retry_after_invalid st) (blocked_until_utc st) (block_reason st) st, Ok tt).

Definition valid_not_modified (r : HostRegistry) (host : HostKey)
    (io : FileIo) : HostRegistry * res unit :=
  update r host not_modified_change io.

(** Opening the store again after a restart reads the file back. *)
Definition reopen (r : HostRegistry) : HostRegistry :=
  {| states := stored r; stored := stored r; failed := false |}.
End Chrono.

(** ** Backoff *)

(** [backoff_seconds] is 900 s doubled for every further consecutive rate
    response and capped at a day, for every 32-bit count: neither the shift
    past the width nor the multiplication overflow can shorten it. *)
Theorem backoff_seconds_doubles n :
  0 <= n <= u32_max ->
  backoff_seconds n = Z.min 86400 (900 * 2 ^ Z.max (n - 1) 0).
Proof.
  intros Hn. unfold backoff_seconds, u64_saturating_mul, u64_checked_shl, u32_saturating_sub.
  set (k := Z.max (n - 1) 0). assert (0 <= k) by lia.
  assert (128 <= 2 ^ k \/ 2 ^ k <= 64) as Hk.
  { destruct (Z.lt_ge_cases k 7).
    - right. change 64 with (2 ^ 6). apply Z.pow_le_mono_r; lia.
    - left. change 128 with (2 ^ 7). apply Z.pow_le_mono_r; lia. }
  unfold u64_max. destruct (Z.ltb_spec k 64) as [Hlt|Hge]; cbn [default id].
  - rewrite Z.shiftl_1_l, Z.mod_small; [lia|].
    split; [apply Z.pow_nonneg; lia|]. apply Z.pow_lt_mono_r; lia.
  - destruct Hk as [Hk|Hk]; [lia|].
    assert (2 ^ 7 <= 2 ^ k) by (apply Z.pow_le_mono_r; lia). lia.
Qed.

Lemma backoff_seconds_doubles_witness :
  0 <= 4294967295 <= u32_max /\ backoff_seconds 4294967295 = 86400.
Proof.
  split; [unfold u32_max; lia|].
  rewrite (backoff_seconds_doubles 4294967295) by (unfold u32_max; lia).
  apply Z.min_l. assert (2 ^ 7 <= 2 ^ Z.max (4294967295 - 1) 0); [|lia].
  apply Z.pow_le_mono_r; lia.
Defined.

(** ** Blocks *)

Section Blocks.
Context `{C : Chrono} {CL : ChronoLaws C}.

Definition instant_ok (t : Z) : Prop := min_utc <= t <= max_utc.

Lemma date_add_ok t d r : date_add t d = Some r -> r = t + d /\ instant_ok r.
Proof.
  rewrite date_add_spec. case_match; [|done]. bool_to_prop. intros [= <-]. done.
Qed.

Lemma parse_retry_after_ok value now t :
  instant_ok now -> parse_retry_after value now = Some t -> instant_ok t.
Proof.
  intros Hnow. unfold parse_retry_after. case_match.
  - destruct (parse_i64 _); cbn; [|done]. destruct (try_seconds _); cbn; [|done].
    by intros [_ ?]%date_add_ok.
  - destruct (parse_from_rfc2822 _) eqn:Hd; cbn; [|done]. intros [= <-].
    apply rfc2822_range in Hd. unfold instant_ok in *. lia.
Qed.

(** Persisted deadlines are representable instants. *)
Definition deadlines_ok (st : HostState) : Prop :=
  opt_le (blocked_until_utc st) (Some max_utc) /\ opt_le (retry_at_utc st) (Some max_utc).

Lemma deadlines_ok_default : deadlines_ok HostState_default.
Proof. done. Qed.

(** The Retry-After loop only raises the block, and keeps instants in range. *)
Lemma retry_value_blocked now values retry invalid reason blocked retry' invalid' reason' blocked' :
  instant_ok now -> opt_le blocked (Some max_utc) -> opt_le retry (Some max_utc) ->
  foldl (retry_value now) (retry, invalid, reason, blocked) values =
    (retry', invalid', reason', blocked') ->
  opt_le blocked blocked' /\ opt_le blocked' (Some max_utc) /\
  opt_le retry retry' /\ opt_le retry' (Some max_utc).
Proof.
  intros Hnow. revert retry invalid reason blocked.
  induction values as [|v vs IH]; intros retry invalid reason blocked Hb Hr; cbn [foldl].
  - intros [= <- <- <- <-]. done.
  - destruct (retry_value now _ v) as [[[r1 i1] e1] b1] eqn:Hv.
    assert (opt_le blocked b1 /\ opt_le b1 (Some max_utc) /\ opt_le retry r1 /\
            opt_le r1 (Some max_utc)) as (? & ? & ? & ?).
    { unfold retry_value in Hv. destruct (parse_retry_after v now) as [d|] eqn:Hd.
      - apply parse_retry_after_ok in Hd as [_ Hd]; [|done]. simplify_eq.
        split_and!; auto with agentic.
      - case_match; simplify_eq; split_and!; auto with agentic. }
    intros H5. apply IH in H5 as (? & ? & ? & ?); [|done..].
    split_and!; [by etransitivity|done|by etransitivity|done].
Qed.

Lemma observe_rate_deadlines now status headers st :
  instant_ok now -> deadlines_ok st ->
  deadlines_ok (observe_rate now status headers st) /\
  opt_le (blocked_until_utc st) (blocked_until_utc (observe_rate now status headers st)).
Proof.
  intros Hnow [Hb Hr]. unfold observe_rate. case_match; [|case_match; by repeat split].
  destruct (foldl _ _ _) as [[[retry invalid] reason] blocked] eqn:Hf.
  apply retry_value_blocked in Hf as (? & ? & ? & ?); [|done..|].
  - split; [split; [done|]|done]. by apply opt_max_lub.
  - destruct (date_add now _) eqn:Hd; [|done]. apply date_add_ok in Hd as [_ []]. done.
Qed.

Lemma observe_block_deadlines now secs status challenge st :
  deadlines_ok st ->
  deadlines_ok (observe_block now secs status challenge st) /\
  opt_le (blocked_until_utc st) (blocked_until_utc (observe_block now secs status challenge st)).
Proof.
  intros [Hb Hr]. unfold observe_block. case_match; [|by repeat split].
  cbn. assert (default max_utc (date_add now (delta_secs (u64_as_i64 secs))) <= max_utc).
  { destruct (date_add now _) eqn:Hd; cbn; [|lia]. by apply date_add_ok in Hd as [_ []]. }
  split; [split; [|done]|].
  - by repeat apply opt_max_lub.
  - etransitivity; [apply opt_max_l|apply opt_max_l].
Qed.

Lemma observe_change_deadlines policy now status headers challenge st :
  instant_ok now -> deadlines_ok st ->
  deadlines_ok (observe_change policy now status headers challenge st) /\
  opt_le (blocked_until_utc st)
    (blocked_until_utc (observe_change policy now status headers challenge st)).
Proof.
  intros Hnow Hst. unfold observe_change.
  destruct (observe_rate_deadlines now status headers st Hnow Hst) as [Hst' Hle].
  destruct (observe_block_deadlines now (Z.max (block_secs policy) MIN_BLOCK_SECS) status
    challenge _ Hst') as [Hst'' Hle']. split; [done|by etransitivity].
Qed.

(** A state change of the registry: total on the entry it is given. *)
Definition blocks_only_grow (change : HostState -> HostState * res unit) : Prop :=
  forall st, deadlines_ok st ->
    deadlines_ok (change st).1 /\
    opt_le (blocked_until_utc st) (blocked_until_utc (change st).1).

Lemma observe_grows policy now status headers challenge :
  instant_ok now ->
  blocks_only_grow (fun st => (observe_change policy now status headers challenge st, Ok tt)).
Proof. intros Hnow st Hst. by apply observe_change_deadlines. Qed.
Lemma started_grows now : blocks_only_grow (fun st => (set_last_request_start now st, Ok tt)).
Proof. intros st Hst. done. Qed.
Lemma listing_grows now limit : blocks_only_grow (admit_listing_change now limit).
Proof.
  intros st Hst. unfold admit_listing_change.
  assert (blocked_until_utc (roll_window now st) = blocked_until_utc st /\
          retry_at_utc (roll_window now st) = retry_at_utc st) as [Hb Hr].
  { unfold roll_window. by destruct (match listing_window_start_utc st with
      | Some _ => _ | None => _ end). }
  unfold deadlines_ok in *. destruct (_ <=? _); cbn; rewrite Hb, Hr; by split.
Qed.
Lemma not_modified_grows :
  blocks_only_grow not_modified_change.
Proof. intros st [Hb _]. by repeat split. Qed.

(** ** The registry as a transition system *)

Inductive reg_step : HostRegistry -> HostRegistry -> Prop :=
| step_observe r policy host now status headers challenge io :
    instant_ok now -> reg_step r (observe r policy host now status headers challenge io).1
| step_started r host now io : reg_step r (started r host now io).1
| step_listing r host now limit io : reg_step r (admit_listing r host now limit io).1
| step_not_modified r host io : reg_step r (valid_not_modified r host io).1
| step_restart r : reg_step r (reopen r).

Definition block_in (m : gmap HostKey HostState) (host : HostKey) : option Z :=
  m !! host ≫= blocked_until_utc.

(** Every entry is well formed and the file never runs ahead of memory. *)
Definition registry_ok (r : HostRegistry) : Prop :=
  map_Forall (fun _ st => deadlines_ok st) (states r) /\
  map_Forall (fun _ st => deadlines_ok st) (stored r) /\
  forall host, opt_le (block_in (stored r) host) (block_in (states r) host).

Lemma entry_ok r host :
  registry_ok r -> deadlines_ok (default HostState_default (states r !! host)).
Proof.
  intros (Hs & _). destruct (states r !! host) eqn:He; [by apply (Hs host)|apply deadlines_ok_default].
Qed.

Lemma block_in_default m host :
  block_in m host = blocked_until_utc (default HostState_default (m !! host)).
Proof. unfold block_in. by destruct (m !! host). Qed.

Lemma block_in_insert m host st h :
  opt_le (blocked_until_utc (default HostState_default (m !! host))) (blocked_until_utc st) ->
  opt_le (block_in m h) (block_in (<[host := st]> m) h).
Proof.
  intros Hle. destruct (decide (host = h)) as [<-|Hne].
  - rewrite block_in_default. unfold block_in. by rewrite lookup_insert_eq.
  - unfold block_in. by rewrite lookup_insert_ne.
Qed.

Lemma persist_state_cases io old new :
  old = (persist_state io old new).1 \/ new = (persist_state io old new).1.
Proof. unfold persist_state, atomic_write. repeat case_match; cbn; auto. Qed.

Lemma update_ok r host change io :
  registry_ok r -> blocks_only_grow change ->
  registry_ok (update r host change io).1 /\
  (forall h, opt_le (block_in (stored r) h) (block_in (stored (update r host change io).1) h)) /\
  (forall h, opt_le (block_in (states r) h) (block_in (states (update r host change io).1) h)).
Proof.
  intros Hr Hgrow. unfold update. destruct (failed r); [done|].
  destruct (Hgrow _ (entry_ok r host Hr)) as [Hok Hle].
  destruct (change _) as [st out]. cbn in Hok, Hle.
  pose proof (fun h => block_in_insert (states r) host st h Hle) as Hins.
  destruct Hr as (Hs & Hd & Hsd).
  assert (map_Forall (fun _ st => deadlines_ok st) (<[host:=st]> (states r))) as Hs'
    by (by apply map_Forall_insert_2).
  assert (forall h, opt_le (block_in (stored r) h) (block_in (<[host:=st]> (states r)) h)) as Hsd'
    by (intros h; etransitivity; [apply Hsd|apply Hins]).
  assert (stored r = (persist_state io (stored r) (<[host:=st]> (states r))).1 \/
          <[host:=st]> (states r) = (persist_state io (stored r) (<[host:=st]> (states r))).1)
    as Hfile by apply persist_state_cases.
  unfold registry_ok. destruct out; [|cbn; split_and!; auto with agentic].
  destruct (persist_state _ _ _) as [file written]; cbn in Hfile.
  destruct Hfile as [<-|<-], written; cbn; split_and!; auto with agentic.
Qed.

Lemma reg_step_ok r r' :
  reg_step r r' -> registry_ok r ->
  registry_ok r' /\ forall h, opt_le (block_in (stored r) h) (block_in (stored r') h).
Proof.
  destruct 1; intros Hr.
  - destruct (update_ok r host _ io Hr (observe_grows policy now status headers challenge H))
      as (? & ? & _). done.
  - destruct (update_ok r host _ io Hr (started_grows now)) as (? & ? & _). done.
  - destruct (update_ok r host _ io Hr (listing_grows now limit)) as (? & ? & _). done.
  - destruct (update_ok r host _ io Hr not_modified_grows) as (? & ? & _). done.
  - destruct Hr as (_ & Hd & _). done.
Qed.

Lemma reg_steps_ok r r' :
  rtc reg_step r r' -> registry_ok r ->
  registry_ok r' /\ forall h, opt_le (block_in (stored r) h) (block_in (stored r') h).
Proof.
  induction 1 as [r|r r1 r' Hs _ IH]; intros Hr; [by split|].
  destruct (reg_step_ok r r1 Hs Hr) as [Hr1 Hle1]. destruct (IH Hr1) as [Hr' Hle'].
  split; [done|]. intros h. etransitivity; [apply Hle1|apply Hle'].
Qed.

(** C10: whatever sequence of responses, request starts, listing admissions,
    validated 304s, failed writes and restarts follows, a block that reached
    the file is never shortened or lost, in the file and in the state that
    requests are judged by. *)
Theorem stored_blocks_never_shorten r r' host :
  registry_ok r -> rtc reg_step r r' ->
  opt_le (block_in (stored r) host) (block_in (stored r') host) /\
  opt_le (block_in (stored r) host) (block_in (states r') host).
Proof.
  intros Hr Hs. destruct (reg_steps_ok r r' Hs Hr) as [(_ & _ & Hsd) Hle].
  split; [done|]. etransitivity; [apply Hle|apply Hsd].
Qed.

Lemma validated_block_in_range now policy :
  validate_politeness now policy = true -> Z.max (block_secs policy) MIN_BLOCK_SECS <= i64_max / 1000.
Proof.
  unfold validate_politeness. intros [[_ [_ Hb]%andb_true_iff]%andb_true_iff _]%andb_true_iff.
  destruct (block_secs policy <=? i64_max); [|done]. rewrite try_seconds_spec in Hb.
  destruct (_ && _) eqn:Hr in Hb; [|done]. bool_to_prop. unfold MIN_BLOCK_SECS.
  assert (24 * 60 * 60 <= i64_max / 1000) by done. lia.
Qed.
Lemma observe_block_floor now secs status challenge st :
  (status =? 401) || (status =? 403) || (status =? 429) || bool_decide (is_Some challenge) = true ->
  MIN_BLOCK_SECS <= secs <= i64_max / 1000 ->
  opt_le (Some (Z.min max_utc (now + delta_secs secs)))
    (blocked_until_utc (observe_block now secs status challenge st)).
Proof.
  intros Hblock Hsecs. unfold observe_block. rewrite Hblock. cbn [blocked_until_utc set_rate].
  etransitivity; [|apply opt_max_l]. etransitivity; [|apply opt_max_r]. cbn [opt_le].
  assert (i64_max / 1000 < i64_max) by done.
  unfold u64_as_i64. destruct (Z.leb_spec secs i64_max); [|lia].
  rewrite date_add_spec. case_match; cbn; lia.
Qed.

(** a 401, 403 or 429 response or a detected challenge, once observed with
    a working disk, is acknowledged, and the host state read back after a
    restart is blocked until at least a day (or the configured longer time)
    from now, whatever the earlier state was. *)
Theorem observed_refusal_blocks_after_restart r policy host now status headers challenge :
  failed r = false ->
  (status =? 401) || (status =? 403) || (status =? 429) || bool_decide (is_Some challenge) = true ->
  Z.max (block_secs policy) MIN_BLOCK_SECS <= i64_max / 1000 ->
  exists r' st,
    observe r policy host now status headers challenge io_all_ok = (r', Ok tt) /\
    state (reopen r') host = Ok st /\ is_Some (block_reason st) /\
    opt_le (Some (Z.min max_utc (now + delta_secs (Z.max (block_secs policy) MIN_BLOCK_SECS))))
      (blocked_until_utc st).
Proof.
  intros Hf Hblock Hsecs. unfold observe, update. rewrite Hf. cbn.
  eexists _, _. split; [done|]. unfold state, reopen; cbn. rewrite lookup_insert_eq.
  split; [done|]. cbn. split; [|apply observe_block_floor; [done|lia]].
  unfold observe_change, observe_block. rewrite Hblock. cbn. eauto.
Qed.
End Blocks.

(** ** Failed writes *)

Section Failure.
Context `{C : Chrono}.

Lemma update_failed r host change io :
  failed r = true -> update r host change io = (r, Err HostStateWrite).
Proof. unfold update. by intros ->. Qed.

(** a change that could not be made durable returns an error and poisons
    the registry: until it is opened again every read, request start, listing
    admission and observation is refused and changes nothing. *)
Theorem write_failure_is_fatal r host change io :
  failed r = false -> is_ok (change (default HostState_default (states r !! host))).2 = true ->
  is_ok (persist_state io (stored r)
           (<[host := (change (default HostState_default (states r !! host))).1]> (states r))).2 = false ->
  let r' := (update r host change io).1 in
  is_ok (update r host change io).2 = false /\
  forall h policy now status headers challenge limit io',
    state r' h = Err HostStateWrite /\
    started r' h now io' = (r', Err HostStateWrite) /\
    admit_listing r' h now limit io' = (r', Err HostStateWrite) /\
    observe r' policy h now status headers challenge io' = (r', Err HostStateWrite) /\
    valid_not_modified r' h io' = (r', Err HostStateWrite).
Proof.
  intros Hf Hch Hio. unfold update at 1 2. rewrite Hf.
  destruct (change _) as [st [[]|]]; [|done]. cbn in *.
  destruct (persist_state _ _ _) as [file [|e]]; [done|]. cbn.
  split; [done|]. intros. by split_and!.
Qed.
End Failure.

(** ** The listing budget *)

Section Listing.
Context (host : HostKey) (limit : Z).

Definition entry (r : HostRegistry) : HostState := default HostState_default (states r !! host).

(** Consecutive admissions of one host, each with its clock reading and disk. *)
Fixpoint admit_all (r : HostRegistry) (calls : list (Z * FileIo)) : list (res unit) :=
  match calls with
  | [] => []
  | (now, io) :: calls =>
      let '(r', out) := admit_listing r host now limit io in out :: admit_all r' calls
  end.
Definition admitted (outs : list (res unit)) : Z := Z.of_nat (length (List.filter is_ok outs)).

Lemma admitted_cons o os : admitted (o :: os) = (if is_ok o then 1 else 0) + admitted os.
Proof. unfold admitted. cbn [List.filter]. destruct (is_ok o); cbn [length]; lia. Qed.

Lemma admit_listing_cases r now io r' out :
  admit_listing r host now limit io = (r', out) ->
  (failed r = true /\ r' = r /\ is_ok out = false) \/
  (entry r' = (admit_listing_change now limit (entry r)).1 /\
   (is_ok out = true -> is_ok (admit_listing_change now limit (entry r)).2 = true)).
Proof.
  unfold admit_listing, update. destruct (failed r) eqn:Hf; [intros [= <- <-]; by left|].
  fold (entry r). destruct (admit_listing_change now limit (entry r)) as [st [[]|e]] eqn:Hc.
  - destruct (persist_state _ _ _) as [file [[]|e]]; intros [= <- <-]; right;
      unfold entry; cbn; rewrite lookup_insert_eq; done.
  - intros [= <- <-]. right. unfold entry; cbn. by rewrite lookup_insert_eq.
Qed.

Lemma admit_all_failed r calls : failed r = true -> admitted (admit_all r calls) = 0.
Proof.
  intros Hf. induction calls as [|[now io] calls IH]; [done|]. cbn [admit_all].
  unfold admit_listing. rewrite update_failed by done. rewrite admitted_cons. cbn. lia.
Qed.

Definition in_window (start now : Z) : Prop := num_seconds (now - start) < 86400.

(** One admission inside the current window. *)
Lemma admit_in_window start now st :
  listing_window_start_utc st = Some start -> in_window start now ->
  0 <= listing_attempts st -> limit <= u32_max ->
  let '(st', out) := admit_listing_change now limit st in
  listing_window_start_utc st' = Some start /\ 0 <= listing_attempts st' /\
  Z.max 0 (limit - listing_attempts st') + (if is_ok out then 1 else 0)
    <= Z.max 0 (limit - listing_attempts st).
Proof.
  intros Hw Hin Ha Hl. unfold in_window in Hin. unfold admit_listing_change, roll_window. rewrite Hw.
  destruct (Z.leb_spec 86400 (num_seconds (now - start))); [lia|].
  destruct (Z.leb_spec limit (listing_attempts st)); cbn; [rewrite Hw; split_and!; [done|lia|lia]|].
  rewrite Hw. ints. split_and!; [done|lia|lia].
Qed.

Lemma admitted_in_window start calls r :
  listing_window_start_utc (entry r) = Some start ->
  Forall (fun c => in_window start c.1) calls ->
  0 <= listing_attempts (entry r) -> limit <= u32_max ->
  admitted (admit_all r calls) <= Z.max 0 (limit - listing_attempts (entry r)).
Proof.
  intros Hw Hall. revert r Hw. induction Hall as [|[now io] calls Hin _ IH];
    intros r Hw Ha Hl; [change (admitted _) with 0; lia|].
  cbn [admit_all]. destruct (admit_listing r host now limit io) as [r' out] eqn:Hadm.
  rewrite admitted_cons. apply admit_listing_cases in Hadm as [(Hf & -> & ->)|[He Hok]].
  { rewrite admit_all_failed by done. lia. }
  pose proof (admit_in_window start now (entry r) Hw Hin Ha Hl) as Hstep.
  destruct (admit_listing_change now limit (entry r)) as [st' out']; cbn in He, Hok. subst st'.
  destruct Hstep as (Hw' & Ha' & Hle). specialize (IH r' Hw' Ha' Hl).
  destruct (is_ok out); [rewrite Hok in Hle by done|destruct (is_ok out')]; lia.
Qed.

Lemma listing_attempts_nonneg now st :
  0 <= listing_attempts st -> 0 <= listing_attempts (admit_listing_change now limit st).1.
Proof.
  intros Ha. unfold admit_listing_change, roll_window.
  destruct (match listing_window_start_utc st with Some _ => _ | None => _ end);
    destruct (_ <=? _); cbn; ints; lia.
Qed.

Lemma num_seconds_lt a b k : 0 < k -> b - a < k * nanos_per_sec -> num_seconds (b - a) < k.
Proof.
  unfold num_seconds, nanos_per_sec. intros Hk Hlt. Z.to_euclidean_division_equations. lia.
Qed.

(** An admission that opens a new window counts as one inside it. *)
Definition rolled (now : Z) (r : HostRegistry) : HostRegistry :=
  {| states := <[host := set_listing (Some now) 0 (entry r)]> (states r);
     stored := stored r; failed := failed r |}.

Lemma entry_rolled now r : entry (rolled now r) = set_listing (Some now) 0 (entry r).
Proof. unfold entry at 1, rolled. cbn. by rewrite lookup_insert_eq. Qed.

Lemma admit_rolled now io calls r :
  failed r = false ->
  (forall start, listing_window_start_utc (entry r) = Some start -> 86400 <= num_seconds (now - start)) ->
  admit_all r ((now, io) :: calls) = admit_all (rolled now r) ((now, io) :: calls).
Proof.
  intros Hf Hold. cbn [admit_all].
  enough (admit_listing r host now limit io = admit_listing (rolled now r) host now limit io)
    as -> by done.
  unfold admit_listing, update. fold (entry r) (entry (rolled now r)). rewrite entry_rolled.
  cbn [rolled failed states stored]. rewrite Hf.
  enough (admit_listing_change now limit (entry r) =
          admit_listing_change now limit (set_listing (Some now) 0 (entry r))) as ->
    by (destruct (admit_listing_change _ _ _); by rewrite insert_insert_eq).
  unfold admit_listing_change.
  assert (roll_window now (entry r) = set_listing (Some now) 0 (entry r)) as ->.
  { unfold roll_window. destruct (listing_window_start_utc (entry r)) as [start|]; [|done].
    by rewrite (proj2 (Z.leb_le _ _) (Hold start eq_refl)). }
  unfold roll_window. cbn [listing_window_start_utc set_listing]. by rewrite Z.sub_diag.
Qed.

Lemma admitted_any_window calls r t :
  0 <= limit <= u32_max -> 0 <= listing_attempts (entry r) ->
  Forall (fun c => t <= c.1 < t + delta_secs 86400) calls ->
  admitted (admit_all r calls) <= Z.max 0 (limit - listing_attempts (entry r)) + limit.
Proof.
  intros Hl Ha Hall. revert r Ha. induction Hall as [|[now io] calls Hin Hrest IH]; intros r Ha;
    [change (admitted _) with 0; lia|].
  destruct (failed r) eqn:Hf; [rewrite admit_all_failed by done; lia|].
  assert ((exists start, listing_window_start_utc (entry r) = Some start /\
             num_seconds (now - start) < 86400) \/
          (forall start, listing_window_start_utc (entry r) = Some start ->
             86400 <= num_seconds (now - start))) as [(start & Hw & Hnew)|Hold].
  { destruct (listing_window_start_utc (entry r)) as [start|]; [|by right].
    destruct (Z.lt_ge_cases (num_seconds (now - start)) 86400); [left; eauto|right].
    by intros ? [= <-]. }
  - cbn [admit_all]. destruct (admit_listing r host now limit io) as [r' out] eqn:Hadm.
    rewrite admitted_cons. apply admit_listing_cases in Hadm as [(? & _)|[He Hok]]; [congruence|].
    pose proof (admit_in_window start now (entry r) Hw Hnew Ha ltac:(lia)) as Hstep.
    destruct (admit_listing_change now limit (entry r)) as [st' out']; cbn in He, Hok. subst st'.
    destruct Hstep as (Hw' & Ha' & Hle). specialize (IH r' Ha').
    destruct (is_ok out); [rewrite Hok in Hle by done|destruct (is_ok out')]; lia.
  - rewrite admit_rolled by done.
    pose proof (admitted_in_window now ((now, io) :: calls) (rolled now r)) as Hb.
      rewrite entry_rolled in Hb. cbn [listing_window_start_utc listing_attempts set_listing] in Hb.
      specialize (Hb eq_refl).
      enough (Forall (fun c => in_window now c.1) ((now, io) :: calls)) as Hw
        by (specialize (Hb Hw ltac:(lia) ltac:(lia)); lia).
      constructor; [cbn; apply num_seconds_lt; unfold nanos_per_sec; lia|].
      apply (Forall_impl _ _ _ Hrest); intros [now' io'] Hin'; cbn in *.
      apply num_seconds_lt; [lia|unfold delta_secs in *; lia].
Qed.

(** within any 24 hours at most twice the listing limit is admitted for a
    host, and at most the limit when all admissions fall in the current
    window; failed writes cannot raise it, and the counter cannot wrap. *)
Theorem listing_budget_bounds_admissions calls r t :
  0 <= limit <= u32_max -> 0 <= listing_attempts (entry r) ->
  Forall (fun c => t <= c.1 < t + delta_secs 86400) calls ->
  admitted (admit_all r calls) <= 2 * limit /\
  (forall start, listing_window_start_utc (entry r) = Some start ->
     Forall (fun c => num_seconds (c.1 - start) < 86400) calls ->
     admitted (admit_all r calls) <= limit).
Proof.
  intros Hl Ha Hall. split.
  - pose proof (admitted_any_window calls r t Hl Ha Hall). lia.
  - intros start Hw Hin.
    pose proof (admitted_in_window start calls r Hw Hin Ha ltac:(lia)). lia.
Qed.
End Listing.

(** ** Concrete runs *)

Module HostExamples.
Import ChronoReference.

Definition host_a : HostKey := lit "a.example".
Definition empty_registry : HostRegistry := {| states := ∅; stored := ∅; failed := false |}.
Definition no_headers : ResponseHeaders := ∅.
Definition retry_after (value : string) : ResponseHeaders :=
  header_observe no_headers (lit "Retry-After") (Some (lit value)).
Definition disk_full : FileIo :=
  {| io_serialize := true; io_open := true; io_write := false;
     io_sync := true; io_rename := true; io_dir_sync := true |}.

Definition blocked_registry : HostRegistry :=
  (observe empty_registry PolitenessConfig_default host_a 0 403 no_headers None io_all_ok).1.

Lemma empty_registry_ok : registry_ok empty_registry.
Proof. split_and!; [by apply map_Forall_empty..|done]. Qed.

(** A block survives a later success response, a failed write and a restart. *)
Lemma stored_blocks_never_shorten_witness :
  opt_le (block_in (stored blocked_registry) host_a)
    (block_in (states (reopen (observe blocked_registry PolitenessConfig_default host_a
       (delta_secs 60) 200 no_headers None disk_full).1)) host_a) /\
  block_in (stored blocked_registry) host_a = Some (delta_secs 86400).
Proof.
  split; [|reflexivity].
  apply (stored_blocks_never_shorten blocked_registry).
  - apply (reg_step_ok empty_registry); [|apply empty_registry_ok].
    apply step_observe. unfold instant_ok. vm_compute. split; discriminate.
  - eapply rtc_l; [apply (step_observe _ PolitenessConfig_default host_a (delta_secs 60) 200
      no_headers None disk_full); unfold instant_ok; vm_compute; split; discriminate|].
    eapply rtc_l; [apply step_restart|apply rtc_refl].
Defined.

Lemma observed_refusal_blocks_after_restart_witness :
  exists r' st,
    observe empty_registry PolitenessConfig_default host_a 0 401 no_headers None io_all_ok
      = (r', Ok tt) /\
    state (reopen r') host_a = Ok st /\ is_Some (block_reason st) /\
    opt_le (Some (Z.min max_utc (0 + delta_secs (Z.max (block_secs PolitenessConfig_default) MIN_BLOCK_SECS))))
      (blocked_until_utc st).
Proof. apply observed_refusal_blocks_after_restart; vm_compute; (reflexivity || discriminate). Defined.

Lemma write_failure_is_fatal_witness :
  let r' := (update empty_registry host_a not_modified_change disk_full).1 in
  is_ok (update empty_registry host_a not_modified_change disk_full).2 = false /\
  state r' host_a = Err HostStateWrite.
Proof.
  destruct (write_failure_is_fatal empty_registry host_a not_modified_change disk_full)
    as [Hout Hlater]; [vm_compute; reflexivity..|].
  split; [exact Hout|].
  exact (proj1 (Hlater host_a PolitenessConfig_default 0 200 no_headers None 0 io_all_ok)).
Defined.

Lemma listing_budget_bounds_admissions_witness :
  admitted (admit_all host_a 2 empty_registry
    [(0, io_all_ok); (1, io_all_ok); (2, io_all_ok)]) <= 2 * 2.
Proof.
  apply (listing_budget_bounds_admissions host_a 2 _ empty_registry 0); [vm_compute..|].
  - split; discriminate.
  - discriminate.
  - repeat constructor; discriminate.
Defined.

(** The budget is a fixed window, not a rolling one: with a limit of 2, the
    last second of one window and the first of the next admit 3 attempts. *)
Lemma listing_window_is_fixed :
  admit_all host_a 2 empty_registry
    [(0, io_all_ok); (delta_secs 86399, io_all_ok);
     (delta_secs 86400, io_all_ok); (delta_secs 86401, io_all_ok)]
  = [Ok tt; Ok tt; Ok tt; Ok tt].
Proof. vm_compute. reflexivity. Qed.

(** An empty Retry-After value on a 503 is no number, yet blocks the host until
    the end of time as if its deadline had overflowed. *)
Lemma empty_retry_after_blocks_forever :
  (fun st => (blocked_until_utc st, block_reason st)) <$>
    state (observe empty_registry PolitenessConfig_default host_a 0 503
             (retry_after " ") None io_all_ok).1 host_a
  = Ok (Some max_utc, Some IndefiniteRateDeadline) /\
  (fun st => (blocked_until_utc st, block_reason st)) <$>
    state (observe empty_registry PolitenessConfig_default host_a 0 503
             (retry_after "soon") None io_all_ok).1 host_a
  = Ok (None, None).
Proof. split; vm_compute; reflexivity. Qed.
End HostExamples.
