(* ===== verification/Politeness.v ===== *)
(** * Host admission ([crates/core/src/crawler/politeness.rs])

    One gate per host: a semaphore of live connections, a start mutex and the
    monotonic timing. [acquire_host] and the operations of the permit it
    returns are split at the points where another task can run in between, that
    is at every lock they take and at every wait; each piece is an executable
    function of the world of one host. The clock readings of a piece and the
    outcome of its disk write are its argument. *)

From S2P Require Import Prelude Text Externals CrawlerBase HostState.

#[local] Open Scope Z_scope.

(** ** Clocks *)

Section ManualClock.
Context `{C : Chrono}.

(** [ManualClock]: wall time in nanoseconds and monotonic milliseconds. *)
Record ManualClock := { clock_utc : Z; clock_ticks : Z }.
Definition ManualClock_new (utc : Z) : ManualClock := {| clock_utc := utc; clock_ticks := 0 |}.

(** A failed [advance] has already moved the wall time when only the tick
    counter overflows. [try_milliseconds] accepts every non-negative [i64]. *)
Definition ManualClock_advance (c : ManualClock) (milliseconds : Z) : ManualClock * res unit :=
  if negb (milliseconds <=? i64_max) then (c, Err InternalInvariant)
  else
    match date_add (clock_utc c) (delta_millis milliseconds) with
    | None => (c, Err InternalInvariant)
    | Some utc =>
        match u64_checked_add (clock_ticks c) milliseconds with
        | None => ({| clock_utc := utc; clock_ticks := clock_ticks c |}, Err InternalInvariant)
        | Some ticks => ({| clock_utc := utc; clock_ticks := ticks |}, Ok tt)
        end
    end.
Definition ManualClock_set_utc (c : ManualClock) (utc : Z) : ManualClock :=
  {| clock_utc := utc; clock_ticks := clock_ticks c |}.
End ManualClock.

(** ** Gate timing *)

Record GateTiming := {
  next_start : Z;
  last_headers : option Z;
  blocked_until : Z;
  initialized : bool;
}.
Definition GateTiming_default : GateTiming :=
  {| next_start := 0; last_headers := None; blocked_until := 0; initialized := false |}.

(** Clock readings of one piece of code, in program order, and the disk. *)
Record Readings := {
  ticks1 : Z; utc1 : Z;
  ticks2 : Z; utc2 : Z;
  disk : FileIo;
}.

Section Gate.
Context `{C : Chrono}.

Definition remaining (utc deadline : Z) : Z := Z.max 0 (num_milliseconds (deadline - utc)).

Definition set_blocked_until (t : Z) (tm : GateTiming) : GateTiming :=
  {| next_start := next_start tm; last_headers := last_headers tm;
     blocked_until := t; initialized := initialized tm |}.
Definition set_next_start (t : Z) (tm : GateTiming) : GateTiming :=
  {| next_start := t; last_headers := last_headers tm;
     blocked_until := blocked_until tm; initialized := initialized tm |}.
Definition set_initialized (tm : GateTiming) : GateTiming :=
  {| next_start := next_start tm; last_headers := last_headers tm;
     blocked_until := blocked_until tm; initialized := true |}.

(** The three parts of [sync_deadlines], run in order on the locked timing. *)
Definition sync_block (st : HostState) (rd : Readings) (tm : GateTiming) : GateTiming :=
  match opt_max (blocked_until_utc st) (retry_at_utc st) with
  | Some deadline =>
      set_blocked_until
        (Z.max (blocked_until tm)
           (u64_saturating_add (ticks1 rd) (remaining (utc1 rd) deadline))) tm
  | None => tm
  end.
Definition sync_init (st : HostState) (rd : Readings) (gap : Z) (tm : GateTiming)
    : GateTiming * res unit :=
  if initialized tm then (tm, Ok tt)
  else match last_request_start st with
       | Some last =>
           match date_add last (delta_millis (u64_as_i64 gap)) with
           | Some deadline =>
               (set_initialized
                  (set_next_start
                     (u64_saturating_add (ticks2 rd) (remaining (utc2 rd) deadline)) tm), Ok tt)
           | None => (tm, Err InternalInvariant)
           end
       | None => (set_initialized tm, Ok tt)
       end.
Definition sync_headers (gap : Z) (tm : GateTiming) : GateTiming :=
  match last_headers tm with
  | Some last =>
      set_next_start
        (Z.max (next_start tm) (u64_saturating_add (u64_saturating_add last gap) 1)) tm
  | None => tm
  end.
Definition sync_deadlines (st : HostState) (rd : Readings) (gap : Z) (tm : GateTiming)
    : GateTiming * res unit :=
  match sync_init st rd gap (sync_block st rd tm) with
  | (tm, Ok _) => (sync_headers gap tm, Ok tt)
  | (tm, Err e) => (tm, Err e)
  end.

Definition headers_timing (t1 t2 gap : Z) (tm : GateTiming) : GateTiming :=
  {| next_start :=
       Z.max (next_start tm) (u64_saturating_add (u64_saturating_add t2 gap) 1);
     last_headers := Some t1;
     blocked_until := blocked_until tm; initialized := initialized tm |}.

(** ** The world of one host *)

(** Where a task that holds a connection allowance stands in [acquire_host],
    or after it: [Live gap guard], with the start guard until the headers. *)
Inductive Phase :=
| Queued (gap : Z)
| Locked (gap : Z)
| Snapshot1 (gap : Z) (st : HostState)
| Synced1 (gap : Z)
| Sleeping (gap deadline : Z)
| Woken (gap : Z)
| Snapshot2 (gap : Z) (st : HostState)
| Synced2 (gap : Z)
| Reserved (gap : Z)
| Live (gap : Z) (guard : bool).

Record World := {
  reg : HostRegistry;
  timing : GateTiming;
  available : Z;                 (** semaphore permits left *)
  lock : option nat;             (** holder of the start mutex *)
  tasks : gmap nat Phase;
  now : Z;                       (** latest tick read *)
  starts : list (Z * Z);         (** request starts with their gap, latest first *)
}.

Definition HostGate_new (r : HostRegistry) (permits : Z) : World :=
  {| reg := r; timing := GateTiming_default; available := permits; lock := None;
     tasks := ∅; now := 0; starts := [] |}.

Definition set_phase (w : World) (i : nat) (ph : Phase) (tm : GateTiming) : World :=
  {| reg := reg w; timing := tm; available := available w; lock := lock w;
     tasks := <[i := ph]> (tasks w); now := now w; starts := starts w |}.
Definition set_now (w : World) (t : Z) : World :=
  {| reg := reg w; timing := timing w; available := available w; lock := lock w;
     tasks := tasks w; now := t; starts := starts w |}.
Definition set_timing (w : World) (tm : GateTiming) : World :=
  {| reg := reg w; timing := tm; available := available w; lock := lock w;
     tasks := tasks w; now := now w; starts := starts w |}.
Definition set_reg (w : World) (r : HostRegistry) : World :=
  {| reg := r; timing := timing w; available := available w; lock := lock w;
     tasks := tasks w; now := now w; starts := starts w |}.

(** Dropping the semaphore permit and, when held, the start guard. *)
Definition release (w : World) (i : nat) : World :=
  {| reg := reg w; timing := timing w; available := available w + 1;
     lock := if bool_decide (lock w = Some i) then None else lock w;
     tasks := delete i (tasks w); now := now w; starts := starts w |}.

(** The effective gap, or the refusal of a publisher delay over the ceiling. *)
Definition acquire_gap (policy : PolitenessConfig) (robots_delay : option Z) : res Z :=
  if match robots_delay with
     | Some delay => MAX_ACCEPTED_CRAWL_DELAY_SECS * 1000 <? delay
     | None => false
     end
  then Err CrawlDelayExceedsCeiling
  else
    let gap := Z.max (gap_ms policy) HARD_MIN_HOST_GAP_MS in
    Ok (Z.max gap (default 0 robots_delay)).

(** A new caller: it takes a semaphore permit, when one is available. *)
Definition acquire_enter (w : World) (i : nat) (gap : Z) : World :=
  if (0 <? available w) && bool_decide (tasks w !! i = None) then
    {| reg := reg w; timing := timing w; available := available w - 1; lock := lock w;
       tasks := <[i := Queued gap]> (tasks w); now := now w; starts := starts w |}
  else w.

Definition take_lock (w : World) (i : nat) (gap : Z) : World :=
  match lock w with
  | None =>
      {| reg := reg w; timing := timing w; available := available w; lock := Some i;
         tasks := <[i := Locked gap]> (tasks w); now := now w; starts := starts w |}
  | Some _ => w
  end.

Context (host : HostKey).

Definition take_snapshot (w : World) (i : nat) (next : HostState -> Phase) : World :=
  match state (reg w) host with
  | Ok st => set_phase w i (next st) (timing w)
  | Err _ => release w i
  end.
Definition run_sync (w : World) (i : nat) (st : HostState) (gap : Z) (rd : Readings) (next : Phase)
    : World :=
  match sync_deadlines st rd gap (timing w) with
  | (tm, Ok _) => set_phase w i next tm
  | (tm, Err _) => release (set_timing w tm) i
  end.
Definition reserve (w : World) (i : nat) (gap : Z) (rd : Readings) : World :=
  if ticks1 rd <? blocked_until (timing w) then release w i
  else match u64_checked_add (ticks2 rd) gap with
       | Some n => set_phase w i (Reserved gap) (set_next_start n (timing w))
       | None => release w i
       end.
Definition start (w : World) (i : nat) (gap : Z) (rd : Readings) : World :=
  match started (reg w) host (utc1 rd) (disk rd) with
  | (r, Ok _) =>
      {| reg := r; timing := timing w; available := available w; lock := lock w;
         tasks := <[i := Live gap true]> (tasks w); now := now w;
         starts := (ticks2 rd, gap) :: starts w |}
  | (r, Err _) => release (set_reg w r) i
  end.

(** The next piece of [acquire_host] of task [i]; [w] stays as it is where the
    task has to wait. *)
Definition acquire_body (w : World) (i : nat) (rd : Readings) : World :=
  match tasks w !! i with
  | Some (Queued gap) => take_lock w i gap
  | Some (Locked gap) => take_snapshot w i (Snapshot1 gap)
  | Some (Snapshot1 gap st) => run_sync w i st gap rd (Synced1 gap)
  | Some (Synced1 gap) =>
      if ticks1 rd <? blocked_until (timing w) then release w i
      else set_phase w i (Sleeping gap (next_start (timing w))) (timing w)
  | Some (Sleeping gap deadline) =>
      if deadline <=? ticks1 rd then set_phase w i (Woken gap) (timing w) else w
  | Some (Woken gap) => take_snapshot w i (Snapshot2 gap)
  | Some (Snapshot2 gap st) => run_sync w i st gap rd (Synced2 gap)
  | Some (Synced2 gap) => reserve w i gap rd
  | Some (Reserved gap) => start w i gap rd
  | Some (Live _ _) | None => w
  end.
Definition acquire_step (w : World) (i : nat) (rd : Readings) : World :=
  acquire_body (set_now w (ticks2 rd)) i rd.

(** ** The permit *)

Definition headers_received (w : World) (i : nat) (rd : Readings) : World :=
  match tasks w !! i with
  | Some (Live gap true) =>
      {| reg := reg w; timing := headers_timing (ticks1 rd) (ticks2 rd) gap (timing w);
         available := available w; lock := None; tasks := <[i := Live gap false]> (tasks w);
         now := ticks2 rd; starts := starts w |}
  | _ => w
  end.
Definition permit_drop (w : World) (i : nat) (rd : Readings) : World :=
  match tasks w !! i with
  | Some (Live _ _) => release (headers_received w i rd) i
  | _ => w
  end.
(** Cancellation of a pending [acquire_host]: its future is dropped. *)
Definition acquire_cancel (w : World) (i : nat) : World :=
  match tasks w !! i with
  | Some (Live _ _) | None => w
  | Some _ => release w i
  end.

(** [HostPermit::observe]: the registry, then the timing; [utc_obs] is the
    registry's own clock reading. *)
Definition permit_sync (w : World) (gap : Z) (st : HostState) (rd : Readings) : World * res unit :=
  let '(tm, out) := sync_deadlines st rd gap (timing w) in (set_timing w tm, out).
Definition permit_observe (w : World) (i : nat) (policy : PolitenessConfig) (utc_obs status : Z)
    (headers : ResponseHeaders) (challenge : option ChallengeKind) (rd : Readings)
    : World * res unit :=
  match tasks w !! i with
  | Some (Live gap _) =>
      let w := set_now w (ticks2 rd) in
      let '(r, out) := observe (reg w) policy host utc_obs status headers challenge (disk rd) in
      let w := set_reg w r in
      match out with
      | Err e => (w, Err e)
      | Ok _ =>
          match state r host with
          | Err e => (w, Err e)
          | Ok st => permit_sync w gap st rd
          end
      end
  | _ => (w, Ok tt)
  end.
Definition observe_body_challenge (w : World) (i : nat) (policy : PolitenessConfig) (utc_obs : Z)
    (headers : ResponseHeaders) (kind : ChallengeKind) (rd : Readings) : World * res unit :=
  permit_observe w i policy utc_obs 0 headers (Some kind) rd.

(** ** Interleavings *)

(** Readings of a monotonic clock after [t]. *)
Definition later (t : Z) (rd : Readings) : Prop := t <= ticks1 rd <= ticks2 rd /\ ticks2 rd <= u64_max.

(** Any task may run its next piece at any time, be cancelled, observe or
    drop; other hosts and other operations may change the registry. Between the
    parts of [permit_observe] others may run: [step_registry] and
    [step_permit_sync], with whatever snapshot was read before, are its parts. *)
Inductive gate_step : World -> World -> Prop :=
| step_enter w i policy delay gap :
    acquire_gap policy delay = Ok gap -> gate_step w (acquire_enter w i gap)
| step_acquire w i rd : later (now w) rd -> gate_step w (acquire_step w i rd)
| step_cancel w i : gate_step w (acquire_cancel w i)
| step_headers w i rd : later (now w) rd -> gate_step w (headers_received w i rd)
| step_drop w i rd : later (now w) rd -> gate_step w (permit_drop w i rd)
| step_permit_observe w i policy utc_obs status headers challenge rd :
    later (now w) rd ->
    gate_step w (permit_observe w i policy utc_obs status headers challenge rd).1
| step_permit_sync w i gap guard st rd :
    tasks w !! i = Some (Live gap guard) -> later (now w) rd ->
    gate_step w (permit_sync (set_now w (ticks2 rd)) gap st rd).1
| step_registry w r : reg_step (reg w) r -> gate_step w (set_reg w r).

(** ** Invariant *)

Definition sat (t : Z) : Z := Z.min t u64_max.

(** Tick [t] is late enough, after the latest start, for a start with [gap];
    [cap] is [sat] where the deadline may have saturated and [id] where not. *)
Definition clear_of (cap : Z -> Z) (tm : GateTiming) (log : list (Z * Z)) (gap t : Z) : Prop :=
  match log with
  | [] => True
  | (s, g) :: _ => exists h, last_headers tm = Some h /\ s <= h /\ cap (h + Z.max g gap + 1) <= t
  end.

(** The latest start has had its headers and its gap is reserved. *)
Definition settled (tm : GateTiming) (log : list (Z * Z)) : Prop :=
  match log with
  | [] => True
  | (s, g) :: _ => exists h, last_headers tm = Some h /\ s <= h /\ sat (h + g + 1) <= next_start tm
  end.

Definition phase_gap (ph : Phase) : Z :=
  match ph with
  | Queued gap | Locked gap | Snapshot1 gap _ | Synced1 gap | Sleeping gap _ | Woken gap
  | Snapshot2 gap _ | Synced2 gap | Reserved gap | Live gap _ => gap
  end.
Definition holds_lock (ph : Phase) : bool :=
  match ph with Queued _ | Live _ false => false | _ => true end.
Definition in_flight (ph : Phase) : bool := match ph with Live _ true => true | _ => false end.

(** Phases after a successful [sync_deadlines]. *)
Definition synced (ph : Phase) : bool :=
  match ph with
  | Synced1 _ | Sleeping _ _ | Woken _ | Snapshot2 _ _ | Synced2 _ | Reserved _ => true
  | _ => false
  end.

Definition phase_ok (tm : GateTiming) (log : list (Z * Z)) (t : Z) (ph : Phase) : Prop :=
  HARD_MIN_HOST_GAP_MS <= phase_gap ph /\ (synced ph = true -> initialized tm = true) /\
  match ph with
  | Queued _ | Locked _ | Snapshot1 _ _ | Live _ false => True
  | Synced1 gap => clear_of sat tm log gap (next_start tm)
  | Sleeping gap deadline => clear_of sat tm log gap deadline
  | Woken gap | Snapshot2 gap _ | Synced2 gap => clear_of sat tm log gap t
  | Reserved gap => clear_of id tm log gap t
  | Live gap true => exists s log', log = (s, gap) :: log' /\ s <= t
  end.

(** Every start waited for the larger of its own and its predecessor's gap. *)
Fixpoint spaced (log : list (Z * Z)) : Prop :=
  match log with
  | (s, g) :: ((s', g') :: _) as rest => s' + Z.max g g' + 1 <= s /\ spaced rest
  | _ => True
  end.

Record gate_ok (permits : Z) (w : World) : Prop := {
  ok_permits : Z.of_nat (size (tasks w)) + available w = permits /\ 0 <= available w;
  ok_phases : map_Forall (fun _ ph => phase_ok (timing w) (starts w) (now w) ph) (tasks w);
  ok_lock : forall i ph, tasks w !! i = Some ph -> holds_lock ph = bool_decide (lock w = Some i);
  ok_holder : forall i, lock w = Some i -> is_Some (tasks w !! i);
  ok_settled : (forall i ph, tasks w !! i = Some ph -> in_flight ph = false) ->
    settled (timing w) (starts w);
  ok_init : starts w <> [] -> initialized (timing w) = true;
  ok_spaced : spaced (starts w);
  ok_now : now w <= u64_max;
}.

Lemma gate_ok_new r permits : 0 <= permits -> gate_ok permits (HostGate_new r permits).
Proof.
  intros Hp. by split; cbn.
Qed.

(** A task that does not hold the mutex has nothing to maintain. *)
Lemma bystander_ok tm log t tm' log' t' ph :
  holds_lock ph = false -> phase_ok tm log t ph -> phase_ok tm' log' t' ph.
Proof. unfold phase_ok. destruct ph as [| | | | | | | | |? []]; cbn; naive_solver. Qed.

Lemma ok_lock_holder permits w i ph :
  gate_ok permits w -> tasks w !! i = Some ph -> holds_lock ph = true -> lock w = Some i.
Proof. intros Hok Hi Hh. rewrite (ok_lock _ _ Hok i ph Hi) in Hh. by bool_to_prop. Qed.

Lemma ok_bystander permits w i j ph0 ph :
  gate_ok permits w -> tasks w !! i = Some ph0 -> holds_lock ph0 = true ->
  i <> j -> tasks w !! j = Some ph -> holds_lock ph = false.
Proof.
  intros Hok Hi Hh Hne Hj. rewrite (ok_lock _ _ Hok j ph Hj).
  rewrite (ok_lock_holder permits w i ph0 Hok Hi Hh). apply bool_decide_eq_false. congruence.
Qed.

(** The holder of the start mutex moves to another phase and changes whatever
    the mutex protects. *)
Lemma gate_ok_holder permits w i ph0 ph r tm lk log t :
  gate_ok permits w -> tasks w !! i = Some ph0 -> holds_lock ph0 = true ->
  lk = (if holds_lock ph then Some i else None) ->
  phase_ok tm log t ph -> (in_flight ph = false -> settled tm log) ->
  (log <> [] -> initialized tm = true) -> spaced log -> t <= u64_max ->
  gate_ok permits
    {| reg := r; timing := tm; available := available w; lock := lk;
       tasks := <[i := ph]> (tasks w); now := t; starts := log |}.
Proof.
  intros Hok Hi Hh Hlk Hph Hset Hinit Hsp Ht. split; cbn; try done.
  - rewrite map_size_insert_Some by eauto. apply (ok_permits _ _ Hok).
  - apply map_Forall_lookup_2. intros j phj. destruct (decide (i = j)) as [<-|Hne].
    + rewrite lookup_insert_eq. by intros [= <-].
    + rewrite lookup_insert_ne by done. intros Hj. eapply bystander_ok.
      * exact (ok_bystander permits w i j ph0 phj Hok Hi Hh Hne Hj).
      * exact (ok_phases _ _ Hok j phj Hj).
  - intros j phj. subst lk. destruct (decide (i = j)) as [<-|Hne].
    + rewrite lookup_insert_eq. intros [= <-]. symmetry. destruct (holds_lock ph);
        [by apply bool_decide_eq_true|by apply bool_decide_eq_false].
    + rewrite lookup_insert_ne by done. intros Hj.
      rewrite (ok_bystander permits w i j ph0 phj Hok Hi Hh Hne Hj). symmetry.
      apply bool_decide_eq_false. destruct (holds_lock ph); congruence.
  - intros j. subst lk. destruct (holds_lock ph); [|done]. intros [= <-]. rewrite lookup_insert_eq. eauto.
  - intros Hnone. apply Hset. apply (Hnone i). by rewrite lookup_insert_eq.
Qed.

Lemma gate_ok_release permits w i ph :
  gate_ok permits w -> tasks w !! i = Some ph -> in_flight ph = false ->
  gate_ok permits (release w i).
Proof.
  intros Hok Hi Hfl. split; cbn.
  - pose proof (ok_permits _ _ Hok). rewrite map_size_delete_Some by eauto.
    assert (size (tasks w) <> 0%nat); [|lia].
    intros H0%map_size_empty_inv. rewrite H0 in Hi. done.
  - apply map_Forall_delete, (ok_phases _ _ Hok).
  - intros j phj. rewrite lookup_delete_Some. intros [Hne Hj].
    rewrite (ok_lock _ _ Hok j phj Hj). apply bool_decide_ext.
    destruct (bool_decide_reflect (lock w = Some i)) as [Hl|]; [|done]. rewrite Hl. naive_solver.
  - intros j. case_bool_decide as Hl; [done|]. intros Hj. rewrite lookup_delete_ne; [|congruence].
    by apply (ok_holder _ _ Hok).
  - intros Hnone. apply (ok_settled _ _ Hok). intros j phj Hj.
    destruct (decide (i = j)) as [<-|]; [congruence|]. apply (Hnone j). by rewrite lookup_delete_ne.
  - apply (ok_init _ _ Hok).
  - apply (ok_spaced _ _ Hok).
  - apply (ok_now _ _ Hok).
Qed.

(** ** Changes of the timing that anyone may make *)

(** The reservation may only grow; before the first start it is free. *)
Definition tm_ext (log : list (Z * Z)) (tm tm' : GateTiming) : Prop :=
  (log = [] \/ last_headers tm' = last_headers tm /\ next_start tm <= next_start tm') /\
  (initialized tm = true -> initialized tm' = true).

Lemma clear_of_ext cap tm tm' log gap t t' :
  tm_ext log tm tm' -> t <= t' -> clear_of cap tm log gap t -> clear_of cap tm' log gap t'.
Proof.
  intros [[->|[Hh _]] _] Ht; [done|]. destruct log as [|[s g] log]; [done|].
  intros (h & ? & ? & ?). exists h. rewrite Hh. split_and!; [done..|lia].
Qed.

Lemma phase_ok_ext tm tm' log t t' ph :
  tm_ext log tm tm' -> t <= t' -> phase_ok tm log t ph -> phase_ok tm' log t' ph.
Proof.
  intros Hext Ht (Hgap & Hsyn & Hph). split_and!; [done|intros; by apply Hext, Hsyn|].
  destruct ph as [| | | | | | | | |? []]; try done;
    try (eapply clear_of_ext; [done| |done]; lia).
  - destruct Hext as [[->|[Hh Hn]] Hi]; [done|].
    eapply clear_of_ext; [split; [right; split; [apply Hh|apply Hn]|apply Hi]| |done]. lia.
  - destruct Hph as (s & log' & -> & ?). exists s, log'. split; [done|lia].
Qed.

Lemma gate_ok_frame permits w r tm t :
  gate_ok permits w -> tm_ext (starts w) (timing w) tm -> now w <= t <= u64_max ->
  gate_ok permits
    {| reg := r; timing := tm; available := available w; lock := lock w;
       tasks := tasks w; now := t; starts := starts w |}.
Proof.
  intros Hok Hext Ht. destruct Hok as [Hp Hph Hl Hh Hs Hi Hsp Hn]. split; cbn; try done.
  - intros j ph Hj. eapply phase_ok_ext; [done| |by eapply Hph]. lia.
  - intros Hnone. specialize (Hs Hnone). destruct Hext as [[Hlog|[Hlh Hns]] _].
    + by rewrite Hlog.
    + destruct (starts w) as [|[s g] log]; [done|]. destruct Hs as (h & ? & ? & ?).
      exists h. rewrite Hlh. split_and!; [done..|lia].
  - intros Hne. apply Hext, Hi, Hne.
  - lia.
Qed.

(** What [sync_deadlines] does to the timing. *)
Lemma sync_deadlines_spec st rd gap tm tm' out :
  sync_deadlines st rd gap tm = (tm', out) ->
  last_headers tm' = last_headers tm /\
  blocked_until tm <= blocked_until tm' /\
  (initialized tm = true -> initialized tm' = true /\ next_start tm <= next_start tm') /\
  (is_ok out = true -> initialized tm' = true /\
     forall h, last_headers tm = Some h -> sat (h + gap + 1) <= next_start tm').
Proof.
  unfold sync_deadlines, sync_init.
  assert (last_headers (sync_block st rd tm) = last_headers tm /\
          next_start (sync_block st rd tm) = next_start tm /\
          initialized (sync_block st rd tm) = initialized tm /\
          blocked_until tm <= blocked_until (sync_block st rd tm)) as (Hlh & Hns & Hin & Hb).
  { unfold sync_block. case_match; cbn; split_and!; (done || lia). }
  set (tm1 := sync_block st rd tm) in *. clearbody tm1.
  assert (forall tm2, last_headers (sync_headers gap tm2) = last_headers tm2 /\
     blocked_until (sync_headers gap tm2) = blocked_until tm2 /\
     initialized (sync_headers gap tm2) = initialized tm2 /\
     next_start tm2 <= next_start (sync_headers gap tm2) /\
     forall h, last_headers tm2 = Some h -> sat (h + gap + 1) <= next_start (sync_headers gap tm2)) as Hsh.
  { intros tm2. unfold sync_headers. destruct (last_headers tm2) eqn:Hl; cbn; [|split_and!; done || lia].
    split_and!; [done..|lia|]. intros h [= <-]. unfold sat. ints. lia. }
  rewrite Hin. destruct (initialized tm) eqn:Hinit.
  - intros [= <- <-]. specialize (Hsh tm1) as (-> & -> & -> & ? & Hh). rewrite Hlh in *.
    rewrite Hns in *. by split_and!.
  - destruct (last_request_start st) as [last|]; [destruct (date_add _ _) as [d|]|];
      intros [= <- <-]; [|by split_and!|].
    all: match goal with |- context [sync_headers _ ?t] => specialize (Hsh t) end.
    all: destruct Hsh as (-> & -> & -> & ? & Hh); cbn [last_headers blocked_until initialized
      next_start set_initialized set_next_start] in *; rewrite Hlh in *; by split_and!.
Qed.

Lemma sync_deadlines_ext permits w st rd gap tm out :
  gate_ok permits w -> sync_deadlines st rd gap (timing w) = (tm, out) ->
  tm_ext (starts w) (timing w) tm.
Proof.
  intros Hok Hs. apply sync_deadlines_spec in Hs as (Hlh & _ & Hin & _). split.
  - destruct (starts w) as [|x log] eqn:Hst; [by left|right].
    pose proof (ok_init _ _ Hok) as Hi. rewrite Hst in Hi. split; [done|]. by apply Hin, Hi.
  - intros Hi. by apply Hin.
Qed.

(** ** Every piece of code preserves the invariant *)

Lemma acquire_gap_min policy delay gap :
  acquire_gap policy delay = Ok gap ->
  HARD_MIN_HOST_GAP_MS <= gap /\ gap_ms policy <= gap /\ opt_le delay (Some gap) /\
  opt_le delay (Some (MAX_ACCEPTED_CRAWL_DELAY_SECS * 1000)).
Proof.
  unfold acquire_gap. destruct delay as [d|]; cbn [default].
  - destruct (Z.ltb_spec (MAX_ACCEPTED_CRAWL_DELAY_SECS * 1000) d); [done|].
    intros [= <-]. cbn [opt_le id]. lia.
  - intros [= <-]. cbn [opt_le id]. lia.
Qed.

Lemma acquire_enter_ok permits w i gap :
  gate_ok permits w -> HARD_MIN_HOST_GAP_MS <= gap -> gate_ok permits (acquire_enter w i gap).
Proof.
  intros Hok Hgap. unfold acquire_enter. case_match eqn:Hc; [|done]. bool_to_prop.
  destruct Hok as [Hp Hph Hl Hh Hs Hi Hsp Hn].
  split; cbn; try done.
  - rewrite map_size_insert_None by done. lia.
  - by apply map_Forall_insert_2.
  - intros j ph. rewrite lookup_insert_Some. intros [[<- <-]|[Hne Hj]]; [|by apply Hl].
    symmetry. apply bool_decide_eq_false. intros Hlk. destruct (Hh _ Hlk). congruence.
  - intros j Hj. rewrite lookup_insert_is_Some'. right. by apply Hh.
  - intros Hnone. apply Hs. intros j ph Hj. apply (Hnone j ph). rewrite lookup_insert_ne; [done|congruence].
Qed.

Lemma take_lock_ok permits w i gap :
  gate_ok permits w -> tasks w !! i = Some (Queued gap) -> gate_ok permits (take_lock w i gap).
Proof.
  intros Hok Hi. unfold take_lock. destruct (lock w) eqn:Hlk; [done|].
  destruct (ok_phases _ _ Hok i _ Hi) as (Hgap & _).
  destruct Hok as [Hp Hph Hl Hh Hs Hin Hsp Hn]. split; cbn; try done.
  - by rewrite map_size_insert_Some by eauto.
  - by apply map_Forall_insert_2.
  - intros j ph. rewrite lookup_insert_Some. intros [[<- <-]|[Hne Hj]]; [by rewrite bool_decide_true|].
    rewrite (Hl j ph Hj), Hlk. rewrite !bool_decide_eq_false_2; congruence.
  - intros j [= <-]. rewrite lookup_insert_eq. eauto.
  - intros Hnone. apply Hs. intros j ph Hj. destruct (decide (i = j)) as [<-|]; [by simplify_eq|].
    apply (Hnone j ph). by rewrite lookup_insert_ne.
Qed.

Lemma holder_settled permits w i ph :
  gate_ok permits w -> tasks w !! i = Some ph -> holds_lock ph = true -> in_flight ph = false ->
  settled (timing w) (starts w).
Proof.
  intros Hok Hi Hh Hfl. apply (ok_settled _ _ Hok). intros j phj Hj.
  destruct (decide (i = j)) as [<-|Hne]; [congruence|].
  pose proof (ok_bystander permits w i j ph phj Hok Hi Hh Hne Hj) as Hb.
  by destruct phj as [| | | | | | | | |? []].
Qed.

Lemma gate_ok_advance permits w i ph0 ph tm :
  gate_ok permits w -> tasks w !! i = Some ph0 -> holds_lock ph0 = true ->
  holds_lock ph = true -> in_flight ph = false ->
  phase_ok tm (starts w) (now w) ph -> settled tm (starts w) ->
  (initialized (timing w) = true -> initialized tm = true) ->
  gate_ok permits (set_phase w i ph tm).
Proof.
  intros Hok Hi Hh0 Hh Hfl Hph Hset Hin.
  unfold set_phase. rewrite (ok_lock_holder permits w i ph0 Hok Hi Hh0).
  apply (gate_ok_holder permits w i ph0); try done.
  - by rewrite Hh.
  - intros Hne. apply Hin, (ok_init _ _ Hok), Hne.
  - apply (ok_spaced _ _ Hok).
  - apply (ok_now _ _ Hok).
Qed.

Lemma settled_ext log tm tm' : tm_ext log tm tm' -> settled tm log -> settled tm' log.
Proof.
  intros [[->|[Hlh Hn]] _]; [done|]. destruct log as [|[s g] log]; [done|].
  intros (h & ? & ? & ?). exists h. rewrite Hlh. split_and!; [done..|lia].
Qed.

(** A settled log and a synced reservation leave room for both gaps. *)
Lemma settled_clear tm log gap :
  settled tm log -> (forall h, last_headers tm = Some h -> sat (h + gap + 1) <= next_start tm) ->
  clear_of sat tm log gap (next_start tm).
Proof.
  destruct log as [|[s g] log]; [done|]. intros (h & Hlh & Hs & Hn) Hg. exists h.
  specialize (Hg h Hlh). split_and!; [done..|]. unfold sat in *. lia.
Qed.

Lemma take_snapshot_ok permits w i ph0 (next : HostState -> Phase) :
  gate_ok permits w -> tasks w !! i = Some ph0 -> holds_lock ph0 = true -> in_flight ph0 = false ->
  (forall st, holds_lock (next st) = true /\ in_flight (next st) = false) ->
  (forall st, phase_ok (timing w) (starts w) (now w) (next st)) ->
  gate_ok permits (take_snapshot w i next).
Proof.
  intros Hok Hi Hh Hfl Hnext Hph. unfold take_snapshot. destruct (state _ _) as [st|].
  - destruct (Hnext st). apply (gate_ok_advance permits w i ph0); try done.
    by apply (holder_settled permits w i ph0).
  - by apply (gate_ok_release permits w i ph0).
Qed.

Lemma run_sync_ok permits w i ph0 st gap rd next :
  gate_ok permits w -> tasks w !! i = Some ph0 -> holds_lock ph0 = true -> in_flight ph0 = false ->
  holds_lock next = true -> in_flight next = false ->
  (forall tm, tm_ext (starts w) (timing w) tm -> initialized tm = true ->
     clear_of sat tm (starts w) gap (next_start tm) ->
     phase_ok tm (starts w) (now w) next) ->
  gate_ok permits (run_sync w i st gap rd next).
Proof.
  intros Hok Hi Hh Hfl Hhn Hfn Hph. unfold run_sync.
  destruct (sync_deadlines st rd gap (timing w)) as [tm out] eqn:Hsync.
  pose proof (sync_deadlines_ext permits w st rd gap tm out Hok Hsync) as Hext.
  assert (settled tm (starts w)) as Hset.
  { eapply settled_ext; [done|]. by apply (holder_settled permits w i ph0). }
  destruct out.
  - apply sync_deadlines_spec in Hsync as (Hlh & _ & _ & Hout). destruct Hout as [Hin Hout]; [done|].
    apply (gate_ok_advance permits w i ph0); try done. apply Hph; [done..|].
    apply settled_clear; [done|]. by rewrite Hlh.
  - apply (gate_ok_release permits _ i ph0); [|done..]. apply gate_ok_frame; [done..|].
    pose proof (ok_now _ _ Hok). lia.
Qed.

Lemma reserve_ok permits w i gap rd :
  gate_ok permits w -> tasks w !! i = Some (Synced2 gap) -> now w = ticks2 rd ->
  gate_ok permits (reserve w i gap rd).
Proof.
  intros Hok Hi Hnow. unfold reserve. destruct (_ <? _); [by eapply gate_ok_release|].
  destruct (u64_checked_add _ _) as [n|] eqn:Hn; [|by eapply gate_ok_release].
  apply u64_checked_add_Some in Hn as [-> Hmax].
  destruct (ok_phases _ _ Hok i _ Hi) as (Hgap & Hinit & Hclear). cbn in Hgap. unfold HARD_MIN_HOST_GAP_MS in Hgap.
  assert (clear_of id (timing w) (starts w) gap (now w)) as Hexact.
  { destruct (starts w) as [|[s g] log]; [done|]. destruct Hclear as (h & ? & ? & Hle). exists h.
    split_and!; [done..|]. unfold sat in Hle. unfold id. lia. }
  apply (gate_ok_advance permits w i (Synced2 gap)); try done.
  destruct (starts w) as [|[s g] log]; [done|]. destruct Hexact as (h & ? & ? & Hle). exists h.
  split_and!; [done..|]. cbn. unfold id in Hle. unfold sat. lia.
Qed.

Lemma start_ok permits w i gap rd :
  gate_ok permits w -> tasks w !! i = Some (Reserved gap) -> now w = ticks2 rd ->
  gate_ok permits (start w i gap rd).
Proof.
  intros Hok Hi Hnow. unfold start.
  destruct (started _ _ _ _) as [r [[]|e]].
  - destruct (ok_phases _ _ Hok i _ Hi) as (Hgap & Hinit & Hclear).
    apply (gate_ok_holder permits w i (Reserved gap)); try done.
    + cbn. by apply (ok_lock_holder permits w i (Reserved gap)).
    + split_and!; [done..|]. eexists _, _. split; [done|]. lia.
    + intros _. by apply Hinit.
    + pose proof (ok_spaced _ _ Hok) as Hsp. destruct (starts w) as [|[s g] log]; [done|].
      split; [|done]. destruct Hclear as (h & ? & ? & Hle). unfold id in Hle. lia.
    + apply (ok_now _ _ Hok).
  - apply (gate_ok_release permits _ i (Reserved gap)); [|done..].
    destruct w; cbn in *. apply (gate_ok_frame permits (Build_World _ _ _ _ _ _ _)); [done| |].
    + split; [right; by split|done].
    + pose proof (ok_now _ _ Hok); cbn in *. lia.
Qed.

Lemma acquire_body_ok permits w i rd :
  gate_ok permits w -> ticks1 rd <= now w -> now w = ticks2 rd ->
  gate_ok permits (acquire_body w i rd).
Proof.
  intros Hok Ht1 Hnow. unfold acquire_body. destruct (tasks w !! i) as [ph|] eqn:Hi; [|done].
  destruct (ok_phases _ _ Hok i _ Hi) as (Hgap & Hsyn & Hph).
  destruct ph as [gap|gap|gap st|gap|gap d|gap|gap st|gap|gap|gap guard].
  - by apply take_lock_ok.
  - by eapply take_snapshot_ok.
  - by eapply run_sync_ok.
  - destruct (_ <? _); [by eapply gate_ok_release|].
    eapply gate_ok_advance; [done..| |by eapply holder_settled|done]. by split_and!.
  - destruct (Z.leb_spec d (ticks1 rd)); [|done].
    eapply gate_ok_advance; [done..| |by eapply holder_settled|done].
    split_and!; [done..|]. eapply clear_of_ext; [|exact (Z.le_trans _ _ _ H Ht1)|exact Hph].
    split; [right; by split|done].
  - by eapply take_snapshot_ok.
  - eapply run_sync_ok; try done. intros tm Hext Hin Hc. split_and!; [done..|].
    eapply clear_of_ext; [done| |done]. lia.
  - by apply reserve_ok.
  - by apply start_ok.
  - done.
Qed.

Lemma set_now_ok permits w t :
  gate_ok permits w -> now w <= t <= u64_max -> gate_ok permits (set_now w t).
Proof. intros Hok Ht. apply gate_ok_frame; [done| |done]. split; [right; by split|done]. Qed.

Lemma acquire_step_ok permits w i rd :
  gate_ok permits w -> later (now w) rd -> gate_ok permits (acquire_step w i rd).
Proof.
  intros Hok [Ht Hmax]. apply acquire_body_ok; cbn; [|lia..]. apply set_now_ok; [done|lia].
Qed.

Lemma headers_received_ok permits w i rd :
  gate_ok permits w -> later (now w) rd -> gate_ok permits (headers_received w i rd).
Proof.
  intros Hok [Ht Hmax]. unfold headers_received.
  destruct (tasks w !! i) as [[| | | | | | | | |gap []]|] eqn:Hi; try done.
  destruct (ok_phases _ _ Hok i _ Hi) as (Hgap & _ & (s & log & Hlog & Hs)).
  apply (gate_ok_holder permits w i (Live gap true)); try done.
  - intros _. rewrite Hlog. exists (ticks1 rd). cbn. split_and!; [done|lia|].
    unfold sat. ints. lia.
  - apply (ok_init _ _ Hok).
  - apply (ok_spaced _ _ Hok).
Qed.

Lemma permit_drop_ok permits w i rd :
  gate_ok permits w -> later (now w) rd -> gate_ok permits (permit_drop w i rd).
Proof.
  intros Hok Ht. pose proof (headers_received_ok permits w i rd Hok Ht) as Hok'.
  unfold permit_drop. destruct (tasks w !! i) as [ph|] eqn:Hi; [|done].
  destruct ph as [| | | | | | | | |gap guard]; try done.
  eapply (gate_ok_release permits _ i (Live gap false)); [done| |done].
  unfold headers_received. rewrite Hi. destruct guard; cbn; [by rewrite lookup_insert_eq|done].
Qed.

Lemma permit_sync_ok permits w gap st rd :
  gate_ok permits w -> gate_ok permits (permit_sync w gap st rd).1.
Proof.
  intros Hok. unfold permit_sync. destruct (sync_deadlines _ _ _ _) as [tm out] eqn:Hs. cbn.
  apply gate_ok_frame; [done|by eapply sync_deadlines_ext|]. pose proof (ok_now _ _ Hok). lia.
Qed.

Lemma set_reg_ok permits w r : gate_ok permits w -> gate_ok permits (set_reg w r).
Proof.
  intros Hok. apply gate_ok_frame; [done| |].
  - split; [right; by split|done].
  - pose proof (ok_now _ _ Hok). lia.
Qed.

Lemma permit_observe_ok permits w i policy utc_obs status headers challenge rd :
  gate_ok permits w -> later (now w) rd ->
  gate_ok permits (permit_observe w i policy utc_obs status headers challenge rd).1.
Proof.
  intros Hok [Ht Hmax]. unfold permit_observe.
  destruct (tasks w !! i) as [[| | | | | | | | |gap guard]|]; try done.
  destruct (observe _ _ _ _ _ _ _ _) as [r [[]|e]].
  - destruct (state r host) as [st|]; [apply permit_sync_ok|cbn];
      apply set_reg_ok, set_now_ok; (done || lia).
  - apply set_reg_ok, set_now_ok; (done || lia).
Qed.

Lemma gate_step_ok permits w w' : gate_step w w' -> gate_ok permits w -> gate_ok permits w'.
Proof.
  destruct 1 as [w i policy delay gap Hg|w i rd Ht|w i|w i rd Ht|w i rd Ht| |w i gap guard st rd Hi Ht|];
    intros Hok.
  - apply acquire_enter_ok; [done|]. by apply acquire_gap_min in Hg as [? _].
  - by apply acquire_step_ok.
  - unfold acquire_cancel. destruct (tasks w !! i) as [[]|] eqn:Hi; try done; by eapply gate_ok_release.
  - by apply headers_received_ok.
  - by apply permit_drop_ok.
  - by apply permit_observe_ok.
  - apply permit_sync_ok, set_now_ok; [done|]. destruct Ht. lia.
  - by apply set_reg_ok.
Qed.

(** Logged gaps are effective gaps. *)
Lemma starts_gaps permits w w' :
  gate_ok permits w -> gate_step w w' ->
  Forall (fun e => HARD_MIN_HOST_GAP_MS <= e.2) (starts w) ->
  Forall (fun e => HARD_MIN_HOST_GAP_MS <= e.2) (starts w').
Proof.
  intros Hok Hstep Hall.
  destruct Hstep as [w i policy delay gap Hg|w i rd Ht|w i|w i rd Ht|w i rd Ht|
    w i policy u s h c rd Ht|w i gap guard st rd Hi Ht|].
  - unfold acquire_enter. by case_match.
  - unfold acquire_step, acquire_body. destruct (tasks _ !! i) as [ph|] eqn:Hi; [|done].
    destruct (ok_phases _ _ Hok i ph Hi) as [Hgap _].
    destruct ph; cbn -[sync_deadlines started];
      unfold take_lock, take_snapshot, run_sync, reserve, start; repeat case_match; try done.
    by constructor.
  - unfold acquire_cancel. by repeat case_match.
  - unfold headers_received. by repeat case_match.
  - unfold permit_drop, headers_received. by repeat case_match.
  - unfold permit_observe, permit_sync. by repeat case_match.
  - unfold permit_sync. by repeat case_match.
  - done.
Qed.

Lemma gate_steps_ok permits w w' : rtc gate_step w w' -> gate_ok permits w -> gate_ok permits w'.
Proof. induction 1; eauto using gate_step_ok. Qed.

(** ** Politeness *)

(** C5: in every interleaving of any number of tasks, each of which may be
    cancelled, fail or drop its permit at any point, two consecutive request
    starts to a host are more than 500 ms apart, and more than the larger of
    the two effective gaps (configured gap and publisher delay), also where the
    tick arithmetic saturates. *)
Theorem request_starts_keep_the_gap r permits w s g s' g' older newer :
  0 <= permits -> rtc gate_step (HostGate_new r permits) w ->
  starts w = newer ++ (s, g) :: (s', g') :: older ->
  s' + HARD_MIN_HOST_GAP_MS < s /\ s' + Z.max g g' < s.
Proof.
  intros Hp Hsteps Hst.
  assert (gate_ok permits w /\ Forall (fun e => HARD_MIN_HOST_GAP_MS <= e.2) (starts w)) as [Hok Hgaps].
  { pose proof (gate_ok_new r permits Hp) as H0.
    assert (Forall (fun e => HARD_MIN_HOST_GAP_MS <= e.2) (starts (HostGate_new r permits))) as H1
      by constructor.
    clear Hst. revert H0 H1. induction Hsteps as [w|w w1 w2 Hs _ IH]; [done|].
    intros H0 H1. apply IH; [by eapply gate_step_ok|]. by eapply starts_gaps. }
  pose proof (ok_spaced _ _ Hok) as Hsp. rewrite Hst in Hsp, Hgaps.
  apply Forall_app in Hgaps as [_ [Hg _]%Forall_cons]. cbn in Hg.
  assert (spaced ((s, g) :: (s', g') :: older)) as [Hsg _]; [|lia].
  clear -Hsp. induction newer as [|[a b] newer IH]; [done|].
  cbn in Hsp. apply IH. destruct newer as [|[a' b'] newer]; apply Hsp.
Qed.

(** C7: under a validated policy a host never has more than two live
    connections or bodies, whatever the interleaving, and no permit or start
    guard is lost by an error, a cancellation or a drop: once no task is left,
    the full allowance is available and the start mutex is free. *)
Theorem live_connections_bounded r utc policy w :
  validate_politeness utc policy = true ->
  rtc gate_step (HostGate_new r (max_concurrent_per_host policy)) w ->
  Z.of_nat (size (tasks w)) <= max_concurrent_per_host policy <= HARD_MAX_HOST_CONCURRENCY /\
  (tasks w = ∅ -> available w = max_concurrent_per_host policy /\ lock w = None).
Proof.
  unfold validate_politeness. intros Hv Hsteps.
  assert (1 <= max_concurrent_per_host policy <= HARD_MAX_HOST_CONCURRENCY) as Hp
    by (bool_to_prop; lia).
  eapply gate_steps_ok in Hsteps as Hok; [|apply gate_ok_new; lia].
  pose proof (ok_permits _ _ Hok) as [Hsize Hav]. split; [lia|].
  intros He. rewrite He, map_size_empty in Hsize. split; [lia|].
  destruct (lock w) as [i|] eqn:Hl; [|done]. apply (ok_holder _ _ Hok) in Hl as [ph Hph].
  by rewrite He in Hph.
Qed.

(** ** Blocks *)

Context {CL : ChronoLaws C}.

Lemma sync_headers_blocked gap tm : blocked_until (sync_headers gap tm) = blocked_until tm.
Proof. unfold sync_headers. by case_match. Qed.
Lemma sync_block_init st rd tm : initialized (sync_block st rd tm) = initialized tm.
Proof. unfold sync_block. by case_match. Qed.
Lemma sync_headers_mono gap tm : next_start tm <= next_start (sync_headers gap tm).
Proof. unfold sync_headers. case_match; cbn; lia. Qed.

Lemma sync_deadlines_blocked st rd gap tm tm' out d :
  sync_deadlines st rd gap tm = (tm', out) ->
  opt_le (Some d) (opt_max (blocked_until_utc st) (retry_at_utc st)) ->
  sat (ticks1 rd + remaining (utc1 rd) d) <= blocked_until tm'.
Proof.
  unfold sync_deadlines. intros Hs Hd.
  assert (sat (ticks1 rd + remaining (utc1 rd) d) <= blocked_until (sync_block st rd tm)) as Hb.
  { unfold sync_block. destruct (opt_max _ _) as [d'|]; [|done]. cbn in Hd |- *.
    assert (remaining (utc1 rd) d <= remaining (utc1 rd) d').
    { unfold remaining, num_milliseconds, nanos_per_milli.
      assert (Z.quot (d - utc1 rd) 1000000 <= Z.quot (d' - utc1 rd) 1000000); [|lia].
      apply Z.quot_le_mono; lia. }
    unfold sat. ints. lia. }
  unfold sync_init in Hs. repeat case_match; simplify_eq; rewrite ?sync_headers_blocked; cbn; done.
Qed.

Lemma sync_deadlines_mono st rd gap tm tm' out :
  sync_deadlines st rd gap tm = (tm', out) -> blocked_until tm <= blocked_until tm'.
Proof. by intros (_ & ? & _)%sync_deadlines_spec. Qed.

Lemma gate_step_blocked w w' :
  gate_step w w' -> blocked_until (timing w) <= blocked_until (timing w').
Proof.
  destruct 1; unfold acquire_enter, acquire_step, acquire_body, acquire_cancel, permit_drop,
    headers_received, permit_observe, permit_sync, take_lock, take_snapshot, run_sync, reserve, start;
    repeat case_match; cbn in *; simplify_eq; try lia;
    try (eapply sync_deadlines_mono; eassumption).
Qed.

Lemma gate_steps_blocked w w' :
  rtc gate_step w w' -> blocked_until (timing w) <= blocked_until (timing w').
Proof. induction 1 as [|w w1 w2 Hs%gate_step_blocked _ IH]; lia. Qed.

(** C8: once a permit's [observe] has acknowledged a refusal (401, 403, 429 or
    a challenge), no task reserves a request start to that host before the
    monotonic clock has advanced by the whole block, whatever the other tasks
    do and however the wall clock is moved in between. *)
Theorem observed_refusal_stops_starts w0 i policy utc_obs status headers challenge rd gap guard
    w w' j gap' rd' :
  failed (reg w0) = false ->
  (status =? 401) || (status =? 403) || (status =? 429) || bool_decide (is_Some challenge) = true ->
  Z.max (block_secs policy) MIN_BLOCK_SECS <= i64_max / 1000 ->
  tasks w0 !! i = Some (Live gap guard) ->
  permit_observe w0 i policy utc_obs status headers challenge rd = (w, Ok tt) ->
  rtc gate_step w w' ->
  tasks w' !! j = Some (Synced2 gap') -> tasks (acquire_step w' j rd') !! j = Some (Reserved gap') ->
  sat (ticks1 rd + remaining (utc1 rd)
         (Z.min max_utc (utc_obs + delta_secs (Z.max (block_secs policy) MIN_BLOCK_SECS))))
    <= ticks1 rd'.
Proof.
  intros Hf Hblock Hsecs Hi Hobs Hsteps Hj Hres.
  transitivity (blocked_until (timing w)).
  - unfold permit_observe in Hobs. rewrite Hi in Hobs. cbn [reg set_now] in Hobs.
    unfold observe, update in Hobs. rewrite Hf in Hobs.
    destruct (persist_state _ _ _) as [file [[]|e]]; [|done].
    unfold state in Hobs. cbn [failed states] in Hobs. rewrite ?Hf, lookup_insert_eq in Hobs.
    cbn [default id] in Hobs. unfold permit_sync in Hobs.
    destruct (sync_deadlines _ _ _ _) as [tm out] eqn:Hs. injection Hobs as <- ->.
    cbn [timing set_timing]. eapply sync_deadlines_blocked; [done|].
    etransitivity; [|apply opt_max_l]. unfold observe_change. apply observe_block_floor; [done|lia].
  - apply gate_steps_blocked in Hsteps. transitivity (blocked_until (timing w')); [done|].
    unfold acquire_step, acquire_body in Hres. cbn [tasks set_now] in Hres. rewrite Hj in Hres.
    unfold reserve in Hres. cbn [timing set_now] in Hres.
    destruct (Z.ltb_spec (ticks1 rd') (blocked_until (timing w'))); [|done].
    cbn in Hres. by rewrite lookup_delete_eq in Hres.
Qed.

(** ** Restart *)

(** After a restart the persisted time of the last request start still
    counts: when the reservation made from it has passed, and the wall clock
    went on with the monotonic one, the gap since that start has passed too, up
    to the millisecond the tick rounds off. *)
Theorem restart_recovers_the_gap st rd gap tm tm' last t utc :
  0 <= gap <= i64_max -> initialized tm = false -> last_request_start st = Some last ->
  sync_deadlines st rd gap tm = (tm', Ok tt) ->
  next_start tm' <= t -> t < u64_max -> delta_millis (t - ticks2 rd) <= utc - utc2 rd ->
  last + delta_millis gap - delta_millis 1 < utc.
Proof.
  intros Hgap Hin Hlast Hs Ht Hmax Hutc.
  assert (sat (ticks2 rd + remaining (utc2 rd) (last + delta_millis gap)) <= next_start tm') as Hn.
  { unfold sync_deadlines, sync_init in Hs.
    rewrite sync_block_init, Hin, Hlast, date_add_spec in Hs. unfold u64_as_i64 in Hs.
    rewrite (proj2 (Z.leb_le gap i64_max)) in Hs by lia.
    destruct (_ && _); [|done]. injection Hs as <-.
    etransitivity; [|apply sync_headers_mono]. cbn. unfold sat. ints. lia. }
  unfold sat, remaining, num_milliseconds, delta_millis, nanos_per_milli in *.
  pose proof (Z.quot_rem (last + gap * 1000000 - utc2 rd) 1000000 ltac:(lia)).
  pose proof (Z.rem_bound_abs (last + gap * 1000000 - utc2 rd) 1000000 ltac:(lia)).
  lia.
Qed.
(** ** Progress *)

(** Pieces of [acquire_host] a task still has to run before it has its permit. *)
Definition pieces_left (ph : Phase) : nat :=
  match ph with
  | Queued _ => 9 | Locked _ => 8 | Snapshot1 _ _ => 7 | Synced1 _ => 6 | Sleeping _ _ => 5
  | Woken _ => 4 | Snapshot2 _ _ => 3 | Synced2 _ => 2 | Reserved _ => 1 | Live _ _ => 0
  end%nat.

(** The runtime wakes task [i]: the mutex it queues for is free, the timer it
    sleeps on has fired. *)
Definition awake (w : World) (i : nat) (rd : Readings) : Prop :=
  match tasks w !! i with
  | Some (Queued _) => lock w = None
  | Some (Sleeping _ deadline) => deadline <= ticks1 rd
  | _ => True
  end.

(** Nothing stands in the way of a grant when task [i] runs: the registry and
    the disk work, no block is active and the clocks are in range. *)
Definition unobstructed (w : World) (i : nat) (rd : Readings) : Prop :=
  awake w i rd /\ failed (reg w) = false /\ blocked_until (timing w) <= ticks1 rd /\
  (started (reg w) host (utc1 rd) (disk rd)).2 = Ok tt /\
  match tasks w !! i with
  | Some (Synced2 gap) => ticks2 rd + gap <= u64_max
  | Some (Snapshot1 gap st) | Some (Snapshot2 gap st) =>
      forall last, last_request_start st = Some last ->
        is_Some (date_add last (delta_millis (u64_as_i64 gap)))
  | _ => True
  end.

(** A run in which task [i] is given [n] turns, each under [P], while other
    steps, which leave its progress alone, happen in between. *)
Definition same_progress (i : nat) (w w' : World) : Prop :=
  (fun ph => (phase_gap ph, pieces_left ph)) <$> tasks w' !! i =
  (fun ph => (phase_gap ph, pieces_left ph)) <$> tasks w !! i.
Inductive turns (P : World -> nat -> Readings -> Prop) (i : nat) : nat -> World -> World -> Prop :=
| turns_end w : turns P i 0 w w
| turns_turn n w rd w' :
    later (now w) rd -> P w i rd -> turns P i n (acquire_step w i rd) w' -> turns P i (S n) w w'
| turns_other n w w1 w' :
    gate_step w w1 -> same_progress i w w1 -> turns P i n w1 w' -> turns P i n w w'.

(** Task [i], unless refused, has gap [gap] and is within [n] pieces of its permit. *)
Definition within (i : nat) (gap : Z) (n : nat) (w : World) : Prop :=
  forall ph, tasks w !! i = Some ph -> phase_gap ph = gap /\ (pieces_left ph <= n)%nat.

Lemma turn_within i gap n w rd :
  awake w i rd -> within i gap (S n) w -> within i gap n (acquire_step w i rd).
Proof.
  unfold awake, within, acquire_step, acquire_body, take_lock, take_snapshot, run_sync, reserve, start.
  cbn [tasks set_now lock reg timing]. intros Ha Hw ph' Hph'.
  destruct (tasks w !! i) as [ph|] eqn:Hi; [|cbn in Hph'; by rewrite Hi in Hph'].
  destruct (Hw _ eq_refl) as [Hg Hn]. destruct ph; cbn in Ha, Hg, Hn; subst;
    try rewrite Ha in Hph'; try rewrite (proj2 (Z.leb_le _ _) Ha) in Hph';
    repeat case_match; cbn in Hph';
    rewrite ?lookup_delete_eq, ?lookup_insert_eq in Hph'; simplify_eq; cbn; split; lia.
Qed.

Lemma turn_kept i w rd :
  unobstructed w i rd -> is_Some (tasks w !! i) -> is_Some (tasks (acquire_step w i rd) !! i).
Proof.
  intros (_ & Hf & Hb & Hs & Hr) [ph Hi].
  assert (forall st gap, (forall last, last_request_start st = Some last ->
        is_Some (date_add last (delta_millis (u64_as_i64 gap)))) ->
      exists tm, sync_deadlines st rd gap (timing w) = (tm, Ok tt)) as Hsync.
  { intros st gap Hlast. unfold sync_deadlines, sync_init.
    destruct (initialized _); [by eexists|]. destruct (last_request_start st) as [last|]; [|by eexists].
    destruct (Hlast _ eq_refl) as [d ->]. by eexists. }
  unfold acquire_step, acquire_body. cbn [tasks set_now]. rewrite Hi in Hr |- *.
  unfold take_lock, take_snapshot, run_sync, reserve, start, state. cbn [reg timing set_now lock].
  rewrite Hf, (proj2 (Z.ltb_ge _ _) Hb). destruct (started _ _ _ _) as [r out]. cbn in Hs. subst out.
  destruct ph; try destruct (Hsync _ _ Hr) as [tm ->]; repeat case_match; cbn;
    rewrite ?lookup_insert_eq, ?Hi; try by eexists.
  unfold u64_checked_add in *. case_match; [done|]. bool_to_prop. lia.
Qed.

(** C6: [acquire_host] completes. Whatever the other tasks do in between, a
    task that is in it and is given its turns (at most nine: each when the
    mutex it queues for is free or the timer it sleeps on has fired) either
    holds its permit with its own gap or has been refused, and it holds its
    permit when at each of its turns the registry and the disk work, no block is
    active and the clocks are in range. *)
Theorem acquire_completes i gap n w w' :
  (exists ph, tasks w !! i = Some ph /\ phase_gap ph = gap /\ (pieces_left ph <= n)%nat) ->
  (turns awake i n w w' ->
    tasks w' !! i = None \/ exists guard, tasks w' !! i = Some (Live gap guard)) /\
  (turns unobstructed i n w w' -> exists guard, tasks w' !! i = Some (Live gap guard)).
Proof.
  intros (ph & Hi & Hg & Hn).
  assert (within i gap n w) as Hw by (intros ? ?; by simplify_eq).
  assert (forall P, (forall w rd, P w i rd -> awake w i rd) -> turns P i n w w' ->
      within i gap 0 w') as Hwithin.
  { intros P HP Ht. clear ph Hi Hg Hn. induction Ht as [w|n w rd w' _ Hp _ IH|n w w1 w' _ Hsame _ IH];
      [done|by apply IH, turn_within; [apply HP|]|].
    apply IH. intros ph Hph. unfold same_progress in Hsame. rewrite Hph in Hsame.
    destruct (tasks w !! i) as [ph0|] eqn:H0; [|done]. cbn in Hsame. injection Hsame as -> ->. by apply Hw. }
  assert (within i gap 0 w' -> forall ph, tasks w' !! i = Some ph ->
      exists guard, tasks w' !! i = Some (Live gap guard)) as Hlive.
  { intros H ph' Hph'. destruct (H _ Hph') as [Hg' Hn']. destruct ph' as [| | | | | | | | |g b];
      cbn in Hg', Hn'; try lia. subst g. by exists b. }
  split; intros Ht.
  - apply Hwithin in Ht; [|done]. destruct (tasks w' !! i) as [ph'|] eqn:Hph'; [right|by left].
    by eapply Hlive.
  - assert (is_Some (tasks w' !! i)) as [ph' Hph'].
    { assert (is_Some (tasks w !! i)) as Hsome by by rewrite Hi. clear -Ht Hsome.
      induction Ht as [w|n w rd w' _ Hp _ IH|n w w1 w' _ Hsame _ IH]; [done|by apply IH, turn_kept|].
      apply IH. unfold same_progress in Hsame. destruct Hsome as [ph Hph]. rewrite Hph in Hsame.
      by destruct (tasks w1 !! i). }
    apply Hwithin in Ht; [by eapply Hlive|by intros ? ? [? _]].
Qed.
End Gate.

Lemma acquire_step_now `{Chrono} host w i rd : now (acquire_step host w i rd) = ticks2 rd.
Proof.
  unfold acquire_step, acquire_body, take_lock, take_snapshot, run_sync, reserve, start.
  by repeat case_match.
Qed.

(** ** Concrete runs *)

Module GateExamples.
Import ChronoReference HostExamples.

(** The wall clock and the tick counter agree; every write succeeds. *)
Definition at_tick (t : Z) : Readings :=
  {| ticks1 := t; utc1 := delta_millis t; ticks2 := t; utc2 := delta_millis t; disk := io_all_ok |}.
Definition w0 : World := HostGate_new empty_registry 2.

(** Task [i] runs its next [n] pieces at tick [t]. *)
Fixpoint pieces (n : nat) (t : Z) (i : nat) (w : World) : World :=
  match n with 0%nat => w | S n => pieces n t i (acquire_step host_a w i (at_tick t)) end.

(** Task 0 starts at tick 0 and reads headers at 100; task 1 starts at 10101. *)
Definition w1 : World := pieces 9 0 0 (acquire_enter w0 0 10000).
Definition w2 : World :=
  pieces 9 10101 1 (acquire_enter (headers_received w1 0 (at_tick 100)) 1 10000).

Lemma pieces_steps n t i w :
  now w <= t -> t <= u64_max -> rtc (gate_step host_a) w (pieces n t i w).
Proof.
  intros Hle Ht. revert w Hle. induction n as [|n IH]; intros w Hle; [apply rtc_refl|]. cbn [pieces].
  eapply rtc_l; [apply (step_acquire _ _ i (at_tick t)); split; [cbn; lia|done]|]. apply IH.
  rewrite acquire_step_now. cbn. lia.
Qed.

Lemma w1_steps : rtc (gate_step host_a) w0 w1.
Proof.
  eapply rtc_l; [apply (step_enter _ _ 0 PolitenessConfig_default None); reflexivity|].
  apply pieces_steps; vm_compute; discriminate.
Qed.
Lemma w2_steps : rtc (gate_step host_a) w0 w2.
Proof.
  etransitivity; [apply w1_steps|].
  eapply rtc_l; [apply (step_headers _ _ 0 (at_tick 100)); split; [split|]; vm_compute; discriminate|].
  eapply rtc_l; [apply (step_enter _ _ 1 PolitenessConfig_default None); reflexivity|].
  apply pieces_steps; vm_compute; discriminate.
Qed.

Lemma request_starts_keep_the_gap_witness :
  starts w2 = [(10101, 10000); (0, 10000)] /\ 0 + Z.max 10000 10000 < 10101.
Proof.
  split; [vm_compute; reflexivity|].
  refine (proj2 (request_starts_keep_the_gap host_a empty_registry 2 w2 10101 10000 0 10000 [] []
    _ w2_steps _)); [discriminate|vm_compute; reflexivity].
Defined.

Definition two_connections : PolitenessConfig :=
  {| gap_ms := 10000; max_concurrent_per_host := 2; block_secs := 86400; retry_budget := 3 |}.
Lemma live_connections_bounded_witness :
  size (tasks w2) = 2%nat /\ Z.of_nat (size (tasks w2)) <= 2.
Proof.
  split; [vm_compute; reflexivity|].
  refine (proj1 (proj1 (live_connections_bounded host_a empty_registry 0 two_connections w2 _ w2_steps))).
  vm_compute. reflexivity.
Defined.

(** Task 0 sees a 403 at tick 200; a reservation then waits for the next day. *)
Definition w3 : World :=
  (permit_observe host_a w2 0 two_connections 0 403 no_headers None (at_tick 10200)).1.
Definition w4 : World :=
  pieces 7 86410201 2 (acquire_enter
    (permit_drop (permit_drop w3 1 (at_tick 10300)) 0 (at_tick 10300)) 2 10000).

Lemma w4_steps : rtc (gate_step host_a) w3 w4.
Proof.
  eapply rtc_l; [apply (step_drop _ _ 1 (at_tick 10300)); split; [split|]; vm_compute; discriminate|].
  eapply rtc_l; [apply (step_drop _ _ 0 (at_tick 10300)); split; [split|]; vm_compute; discriminate|].
  eapply rtc_l; [apply (step_enter _ _ 2 PolitenessConfig_default None); reflexivity|].
  apply pieces_steps; vm_compute; discriminate.
Qed.

Lemma observed_refusal_stops_starts_witness :
  sat (10200 + remaining (delta_millis 10200) (Z.min max_utc (0 + delta_secs 86400))) <= 86410201.
Proof.
  refine (observed_refusal_stops_starts host_a w2 0 two_connections 0 403 no_headers None
    (at_tick 10200) 10000 false w3 w4 2 10000 (at_tick 86410201) _ _ _ _ _ w4_steps _ _);
    vm_compute; first [reflexivity | discriminate].
Defined.

(** Task 0 enters an idle gate and runs its nine pieces at tick 0. *)
Ltac see_phase :=
  match goal with |- context [tasks ?w !! ?i] =>
    let v := eval vm_compute in (tasks w !! i) in
    replace (tasks w !! i) with v by (vm_compute; reflexivity)
  end; cbv iota.
Ltac take_turn :=
  eapply (turns_turn _ _ _ _ _ (at_tick 0));
  [split; [split|]; vm_compute; discriminate
  |unfold unobstructed, awake; split_and!;
    [see_phase; first [exact I | vm_compute; first [reflexivity | discriminate]]
    |vm_compute; reflexivity
    |vm_compute; discriminate
    |vm_compute; reflexivity
    |see_phase; first [exact I | intros ? ?; discriminate | vm_compute; discriminate]]
  |].
Lemma enter_turns : turns host_a (unobstructed host_a) 0 9 (acquire_enter w0 0 10000) w1.
Proof. unfold w1. cbn [pieces]. do 9 take_turn. apply turns_end. Qed.
Lemma acquire_completes_witness : exists guard, tasks w1 !! 0%nat = Some (Live 10000 guard).
Proof.
  refine (proj2 (acquire_completes host_a 0 10000 9 (acquire_enter w0 0 10000) w1 _) enter_turns).
  exists (Queued 10000). split_and!; [vm_compute; reflexivity|reflexivity|cbn; lia].
Defined.

Definition restarted_state : HostState := set_last_request_start 0 HostState_default.
Lemma restart_recovers_the_gap_witness :
  0 + delta_millis 10000 - delta_millis 1 < delta_millis 10000.
Proof.
  refine (restart_recovers_the_gap restarted_state (at_tick 300) 10000 GateTiming_default
    {| next_start := 10000; last_headers := None; blocked_until := 0; initialized := true |}
    0 10000 (delta_millis 10000) _ _ _ _ _ _ _); vm_compute;
    first [reflexivity | discriminate | split; discriminate].
Defined.
End GateExamples.
