(* ===== verification/Network.v ===== *)
(** * Fetch targets, addresses and scopes ([crates/core/src/crawler/network.rs])

    URL admission, the public-address policy, the pinned resolver, the sealed
    request scopes and the bounded body read. [IpAddr::from_str] is written out;
    URLs are the [url] crate's through [UrlOps]; DNS is an argument. *)

From Stdlib Require Import Btauto.
From S2P Require Import Prelude Text Externals CrawlerBase HostState.

#[local] Open Scope Z_scope.

(** ** Addresses *)

Inductive IpAddr :=
| V4 (a b c d : Z)
| V6 (segments : list Z).
#[export] Instance IpAddr_eq_dec : EqDecision IpAddr.
Proof. solve_decision. Defined.

Definition is_hexdigit (c : char) : bool :=
  is_ascii_digit c || between 65 70 c || between 97 102 c.
Definition hex_value (c : char) : Z :=
  if is_ascii_digit c then c - 48 else if between 65 70 c then c - 55 else c - 87.
Definition ch_dot : char := 46.

(** A decimal octet: one to three digits, no leading zero, at most 255. *)
Definition parse_octet (s : str) : option Z :=
  if negb (is_empty s) && all_digits s && Nat.leb (length s) 3 &&
     (Nat.eqb (length s) 1 || negb (starts_with (lit "0") s)) && (digits_value s <=? 255)
  then Some (digits_value s) else None.
Definition parse_ipv4 (s : str) : option (Z * Z * Z * Z) :=
  match split ch_dot s with
  | [a; b; c; d] =>
      a ← parse_octet a; b ← parse_octet b; c ← parse_octet c; d ← parse_octet d;
      Some (a, b, c, d)
  | _ => None
  end.

(** One to four hexadecimal digits and the input after them. *)
Definition read_hex_group (s : str) : option (Z * str) :=
  let '(ds, rest) := span is_hexdigit s in
  if negb (is_empty ds) && Nat.leb (length ds) 4
  then Some (fold_left (fun n c => 16 * n + hex_value c) ds 0, rest) else None.

(** Up to [limit] groups separated by colons; the last two may be an IPv4
    address, which the flag tells. *)
Fixpoint read_groups (limit : nat) (first : bool) (s : str) : list Z * bool * str :=
  match limit with
  | 0%nat => ([], false, s)
  | S limit' =>
      match (if first then Some s else strip_prefix [ch_colon] s) with
      | None => ([], false, s)
      | Some s1 =>
          match (if Nat.eqb limit' 0 then None else parse_ipv4 s1) with
          | Some (a, b, c, d) => ([256 * a + b; 256 * c + d], true, [])
          | None =>
              match read_hex_group s1 with
              | None => ([], false, s)
              | Some (v, s2) =>
                  let '(gs, v4, rest) := read_groups limit' false s2 in (v :: gs, v4, rest)
              end
          end
      end
  end.
Definition parse_ipv6 (s : str) : option (list Z) :=
  let '(front, v4, rest) := read_groups 8 true s in
  if Nat.eqb (length front) 8 then (if is_empty rest then Some front else None)
  else if v4 then None
  else match strip_prefix [ch_colon; ch_colon] rest with
       | None => None
       | Some rest =>
           let '(tail, _, rest) := read_groups (8 - (length front + 1)) true rest in
           if is_empty rest
           then Some (front ++ replicate (8 - length front - length tail) 0 ++ tail) else None
       end.

(** [str::parse::<IpAddr>]. *)
Definition parse_ip (s : str) : option IpAddr :=
  match parse_ipv4 s with
  | Some (a, b, c, d) => Some (V4 a b c d)
  | None => V6 <$> parse_ipv6 s
  end.

Definition is_public_address (ip : IpAddr) : bool :=
  match ip with
  | V4 a b c _ =>
      negb ((a =? 0) || (a =? 10) || (a =? 127) || (224 <=? a)
        || ((a =? 100) && between 64 127 b)
        || ((a =? 169) && (b =? 254))
        || ((a =? 172) && between 16 31 b)
        || ((a =? 192) && ((b =? 168) || ((b =? 0) && ((c =? 0) || (c =? 2))) || ((b =? 88) && (c =? 99))))
        || ((a =? 198) && ((b =? 18) || (b =? 19) || ((b =? 51) && (c =? 100))))
        || ((a =? 203) && (b =? 0) && (c =? 113)))
  | V6 s =>
      let s0 := nth 0 s 0 in
      let s1 := nth 1 s 0 in
      (Z.land s0 57344 =? 8192) && negb (s0 =? 8194)
      && negb ((s0 =? 8193) && ((s1 <? 512) || (s1 =? 3512)))
      && negb ((s0 =? 16383) && (s1 <? 4096))
  end.

Abbreviation SocketAddr := (IpAddr * Z)%type.
Abbreviation Pins := (gmap (list Z) (list SocketAddr)).

(** ** Hosts, origins and record URLs *)

Section Urls.
Context `{U : UrlOps}.

Definition HostKey_from_url (u : url) : res HostKey :=
  host ← ok_or (url_host_str u) InvalidUrl;
  Ok (to_ascii_lowercase (default host (strip_suffix [ch_dot] host))).

Definition OriginKey_from_url (u : url) : res str :=
  host ← HostKey_from_url u;
  port ← ok_or (url_port u) SchemeRefused;
  Ok (url_scheme u ++ lit "://" ++ host ++ lit ":" ++ dec port).

Definition safe_url_for_record (u : url) : str :=
  url_as_str (url_clear_fragment (url_clear_userinfo u)).

Definition MAX_URL_LEN_BYTES : Z := 8192.
Definition is_bracket (c : char) : bool := (c =? 91) || (c =? 93).
Definition http_scheme (u : url) : bool := one_of (url_scheme u) ["http"; "https"]%string.

Definition reject_userinfo_before_normalize (raw : str) (u : url) : res unit :=
  refuse_if
    (negb (is_empty (url_username u)) || bool_decide (is_Some (url_password u)) ||
     match split ch_slash raw !! 2%nat with Some s => contains_char 64 s | None => false end)
    InvalidUrl.

(** Every percent sign is followed by two hexadecimal digits. *)
Fixpoint escapes_ok (raw : str) : bool :=
  match raw with
  | [] => true
  | c :: rest =>
      (if c =? 37 then
         match rest with h :: l :: _ => is_hexdigit h && is_hexdigit l | _ => false end
       else true) && escapes_ok rest
  end.

Definition literal_address (u : url) : option IpAddr :=
  url_host_str u ≫= fun host => parse_ip (trim_matches is_bracket host).

Definition parse_fetch_url (raw : str) : res url :=
  _ ← refuse_if (MAX_URL_LEN_BYTES <? byte_len raw) UrlTooLong;
  _ ← refuse_if (existsb (fun c => is_control c || is_whitespace c) raw) InvalidUrl;
  u ← ok_or (url_parse raw) InvalidUrl;
  _ ← reject_userinfo_before_normalize raw u;
  _ ← refuse_if (negb (http_scheme u)) SchemeRefused;
  _ ← HostKey_from_url u;
  _ ← refuse_if
        match literal_address u with Some a => negb (is_public_address a) | None => false end
        RefusedPrivateAddress;
  _ ← refuse_if (negb (escapes_ok raw)) InvalidUrl;
  Ok (url_clear_fragment u).

(** ** Resolution *)

Definition resolve_public (host : str) (port : Z) (lookup : str -> res (list IpAddr))
    : res (list SocketAddr) :=
  addresses ← match parse_ip (trim_matches is_bracket host) with
              | Some ip => Ok [ip]
              | None => lookup host
              end;
  _ ← refuse_if (is_empty addresses) ConnectError;
  _ ← refuse_if (negb (forallb is_public_address addresses)) RefusedPrivateAddress;
  Ok (map (fun ip => (ip, port)) addresses).

(** [VettedResolver]: the pins of the shared client. *)
Definition pin_vetted_addresses (pins : Pins) (host : str) (addresses : list SocketAddr) : Pins :=
  <[host := addresses]> pins.
Definition admitted_addresses (pins : Pins) (host : str) : res (list SocketAddr) :=
  ok_or (pins !! default host (strip_suffix [ch_dot] host)) RefusedPrivateAddress.

(** ** Scopes *)

Record LoopbackEndpoint := {
  address : SocketAddr;
  aliases : list str;
  targets : option (list str);
}.
Inductive CrawlScope :=
| Production
| Sample (urls : list str)
| Loopback (endpoint : LoopbackEndpoint).

Definition admits_host (e : LoopbackEndpoint) (host : HostKey) : bool :=
  ends_with (lit ".fixture.invalid") host || bool_decide (host ∈ aliases e).

(** The body of the loop of [restrict_targets]. *)
Definition restrict_target (e : LoopbackEndpoint) (acc : list str) (u : url) : res (list str) :=
  host ← HostKey_from_url u;
  _ ← refuse_if (negb (admits_host e host) ||
                 negb (bool_decide (url_port u = Some (address e).2))) OffScope;
  let key := safe_url_for_record u in
  _ ← refuse_if match targets e with Some allowed => negb (bool_decide (key ∈ allowed)) | None => false end
        OffScope;
  Ok (key :: acc).
Definition restrict_targets (e : LoopbackEndpoint) (urls : list url) : res LoopbackEndpoint :=
  targets' ← try_fold (restrict_target e) [] urls;
  Ok {| address := address e; aliases := aliases e; targets := Some targets' |}.

Definition contains_exact (scope : CrawlScope) (u : url) : bool :=
  match scope with
  | Production => true
  | Sample urls => bool_decide (safe_url_for_record u ∈ urls)
  | Loopback e =>
      bool_decide (url_port u = Some (address e).2) &&
      match HostKey_from_url u with Ok h => admits_host e h | Err _ => false end &&
      match targets e with Some urls => bool_decide (safe_url_for_record u ∈ urls) | None => true end
  end.

Definition selected_targets (scope : CrawlScope) : option (list str) :=
  match scope with
  | Sample urls => Some urls
  | Loopback e => targets e
  | Production => None
  end.
Definition expected_port (scope : CrawlScope) (u : url) : Z :=
  match scope with
  | Loopback e => (address e).2
  | _ => if str_eqb (url_scheme u) (lit "https") then 443 else 80
  end.
Definition same_origin (origin : str) (value : str) : bool :=
  match url_parse value with
  | Some u => match OriginKey_from_url u with Ok key => str_eqb key origin | Err _ => false end
  | None => false
  end.

Definition validate (scope : CrawlScope) (u : url) (robots : bool) : res unit :=
  _ ← refuse_if (negb (http_scheme u)) SchemeRefused;
  _ ← refuse_if (negb (bool_decide (url_port u = Some (expected_port scope u)))) PortRefused;
  if contains_exact scope u then Ok tt
  else if robots && str_eqb (url_path u) (lit "/robots.txt") && bool_decide (url_query u = None) then
    match selected_targets scope with
    | Some urls =>
        origin ← OriginKey_from_url u;
        if existsb (same_origin origin) urls then Ok tt else Err OffScope
    | None => Err OffScope
    end
  else Err OffScope.
Definition validate_robots_redirect (scope : CrawlScope) (u : url) : res unit := validate scope u false.

Definition scope_resolve (scope : CrawlScope) (u : url) (lookup : str -> res (list IpAddr))
    : res (list SocketAddr) :=
  host ← HostKey_from_url u;
  match scope with
  | Loopback e =>
      _ ← refuse_if (negb (admits_host e host)) RefusedPrivateAddress;
      _ ← resolve_public host (address e).2 lookup;
      Ok [address e]
  | _ =>
      port ← ok_or (url_port u) PortRefused;
      resolve_public host port lookup
  end.
End Urls.

(** ** Bounded bodies *)

(** What one [chunk().await] and the trace update after it return. *)
Record Chunk := { chunk_bytes : res (list Z); wire_update : res unit }.

Fixpoint read_chunks (limit : Z) (bytes : list Z) (stream : list Chunk) : res (list Z) :=
  match stream with
  | [] => Ok bytes
  | c :: stream =>
      chunk ← chunk_bytes c;
      _ ← wire_update c;
      if u64_saturating_sub limit (Z.of_nat (length bytes)) <? Z.of_nat (length chunk)
      then Err ContentTooLarge
      else read_chunks limit (bytes ++ chunk) stream
  end.

(** [detect] is the challenge rule and [observe_challenge] the permit's
    [observe_body_challenge]. *)
Definition read_bytes (limit : Z) (headers : ResponseHeaders)
    (detect : ResponseHeaders -> list Z -> option ChallengeKind)
    (observe_challenge : ChallengeKind -> res unit) (stream : list Chunk) : res (list Z) :=
  _ ← refuse_if
        match header_get headers "content-length" ≫= parse_u64 with
        | Some n => limit <? n
        | None => false
        end ContentTooLarge;
  bytes ← read_chunks limit [] stream;
  _ ← match detect headers bytes with Some kind => observe_challenge kind | None => Ok tt end;
  Ok bytes.

(** ** The address policy as blocks *)

(** [value] is in the block of prefix length [len] around [net]. *)
Definition in_block (bits value : Z) (block : Z * Z) : bool :=
  let '(net, len) := block in value / 2 ^ (bits - len) =? net / 2 ^ (bits - len).
Definition v4_value (a b c d : Z) : Z := ((a * 256 + b) * 256 + c) * 256 + d.
Definition v6_value (s : list Z) : Z := fold_left (fun n x => n * 65536 + x) s 0.

(** Special-use IPv4 blocks: this-network, private, shared, loopback,
    link-local, protocol assignments, documentation, 6to4 relay, benchmarking,
    multicast and reserved. *)
Definition special_v4 : list (Z * Z) :=
  [ (v4_value 0 0 0 0, 8); (v4_value 10 0 0 0, 8); (v4_value 127 0 0 0, 8);
    (v4_value 224 0 0 0, 3); (v4_value 100 64 0 0, 10); (v4_value 169 254 0 0, 16);
    (v4_value 172 16 0 0, 12); (v4_value 192 168 0 0, 16); (v4_value 192 0 0 0, 24);
    (v4_value 192 0 2 0, 24); (v4_value 192 88 99 0, 24); (v4_value 198 18 0 0, 15);
    (v4_value 198 51 100 0, 24); (v4_value 203 0 113 0, 24) ].
(** 6to4, protocol assignments with Teredo, and documentation. *)
Definition special_v6 : list (Z * Z) :=
  [ (v6_value [8194; 0; 0; 0; 0; 0; 0; 0], 16); (v6_value [8193; 0; 0; 0; 0; 0; 0; 0], 23);
    (v6_value [8193; 3512; 0; 0; 0; 0; 0; 0], 32); (v6_value [16383; 0; 0; 0; 0; 0; 0; 0], 20) ].
Definition global_unicast_v6 : Z * Z := (v6_value [8192; 0; 0; 0; 0; 0; 0; 0], 3).

Definition is_octet (x : Z) : Prop := 0 <= x < 256.
Definition is_segment (x : Z) : Prop := 0 <= x < 65536.

Lemma land_e000 x : is_segment x -> Z.land x 57344 = x / 8192 * 8192.
Proof.
  intros Hx. change 57344 with (Z.shiftl (Z.ones 3) 13).
  transitivity (Z.shiftl (Z.land (Z.shiftr x 13) (Z.ones 3)) 13).
  - apply Z.bits_inj'. intros n Hn. rewrite Z.land_spec, !Z.shiftl_spec, Z.land_spec by done.
    destruct (Z.lt_ge_cases n 13); [rewrite !(Z.testbit_neg_r _ (n - 13)) by lia; by rewrite !andb_false_r|].
    rewrite Z.shiftr_spec by lia. by replace (n - 13 + 13) with n by lia.
  - rewrite Z.land_ones, Z.shiftl_mul_pow2, Z.shiftr_div_pow2 by lia.
    change (2 ^ 13) with 8192. rewrite Z.mod_small; [done|]. unfold is_segment in Hx.
    change (2 ^ 3) with 8. Z.to_euclidean_division_equations. lia.
Qed.

(** A block test as a condition on the octets. *)
Ltac block_octets :=
  intros; unfold is_octet, in_block, v4_value, between in *; apply eq_true_iff_eq;
  rewrite ?andb_true_iff, ?Z.eqb_eq, ?Z.leb_le;
  repeat match goal with |- context [2 ^ ?e] =>
    let y := eval vm_compute in (2 ^ e) in change (2 ^ e) with y end;
  Z.to_euclidean_division_equations; lia.

Section Octets.
Context (a b c d : Z) (Ha : is_octet a) (Hb : is_octet b) (Hc : is_octet c) (Hd : is_octet d).
Lemma block_8 x : is_octet x -> in_block 32 (v4_value a b c d) (v4_value x 0 0 0, 8) = (a =? x).
Proof. block_octets. Qed.
Lemma block_16 x y :
  is_octet x -> is_octet y ->
  in_block 32 (v4_value a b c d) (v4_value x y 0 0, 16) = (a =? x) && (b =? y).
Proof. block_octets. Qed.
Lemma block_24 x y z :
  is_octet x -> is_octet y -> is_octet z ->
  in_block 32 (v4_value a b c d) (v4_value x y z 0, 24) = (a =? x) && (b =? y) && (c =? z).
Proof. block_octets. Qed.
Lemma block_multicast : in_block 32 (v4_value a b c d) (v4_value 224 0 0 0, 3) = (224 <=? a).
Proof. block_octets. Qed.
Lemma block_shared :
  in_block 32 (v4_value a b c d) (v4_value 100 64 0 0, 10) = (a =? 100) && between 64 127 b.
Proof. block_octets. Qed.
Lemma block_private :
  in_block 32 (v4_value a b c d) (v4_value 172 16 0 0, 12) = (a =? 172) && between 16 31 b.
Proof. block_octets. Qed.
Lemma block_benchmark :
  in_block 32 (v4_value a b c d) (v4_value 198 18 0 0, 15) = (a =? 198) && between 18 19 b.
Proof. block_octets. Qed.
End Octets.

Lemma v4_policy a b c d :
  is_octet a -> is_octet b -> is_octet c -> is_octet d ->
  is_public_address (V4 a b c d) = negb (existsb (in_block 32 (v4_value a b c d)) special_v4).
Proof.
  intros Ha Hb Hc Hd. cbn [existsb special_v4].
  rewrite !block_8, !block_16, !block_24, block_multicast, block_shared, block_private, block_benchmark
    by (done || unfold is_octet; lia).
  unfold is_public_address. f_equal.
  assert (between 18 19 b = (b =? 18) || (b =? 19)) as -> by (unfold between; lia).
  destruct (Z.eqb_spec a 192) as [->|_]; [|destruct (Z.eqb_spec a 198) as [->|_]]; btauto.
Qed.

Lemma v6_value_prefix s0 s1 s :
  length s = 6%nat -> Forall is_segment s ->
  v6_value (s0 :: s1 :: s) / 2 ^ 96 = s0 * 65536 + s1.
Proof.
  unfold v6_value, is_segment. cbn [fold_left].
  intros Hlen Hs. destruct s as [|s2 [|s3 [|s4 [|s5 [|s6 [|s7 [|]]]]]]]; try discriminate Hlen.
  cbn [fold_left]. decompose_Forall_hyps. change (2 ^ 96) with 79228162514264337593543950336.
  Z.to_euclidean_division_equations. lia.
Qed.

(** A test of at most 32 bits looks at the first two segments only. *)
Lemma v6_block s0 s1 s net len :
  length s = 6%nat -> Forall is_segment s -> 0 <= len <= 32 ->
  in_block 128 (v6_value (s0 :: s1 :: s)) (net, len) = in_block 32 (s0 * 65536 + s1) (net / 2 ^ 96, len).
Proof.
  intros Hlen Hs Hl. unfold in_block.
  replace (128 - len) with (96 + (32 - len)) by lia.
  rewrite Z.pow_add_r by lia. rewrite <- !Z.div_div by (apply Z.pow_nonzero || apply Z.pow_pos_nonneg; lia).
  by rewrite v6_value_prefix.
Qed.

Lemma v6_policy s0 s1 s :
  is_segment s0 -> is_segment s1 -> length s = 6%nat -> Forall is_segment s ->
  is_public_address (V6 (s0 :: s1 :: s)) =
  in_block 128 (v6_value (s0 :: s1 :: s)) global_unicast_v6 &&
  negb (existsb (in_block 128 (v6_value (s0 :: s1 :: s))) special_v6).
Proof.
  intros H0 H1 Hlen Hs. unfold special_v6, global_unicast_v6. cbn [existsb].
  rewrite !v6_block by (done || lia).
  assert (forall x, is_segment x ->
    in_block 32 (s0 * 65536 + s1) (v6_value [x; 0; 0; 0; 0; 0; 0; 0] / 2 ^ 96, 16) = (s0 =? x)) as H16.
  { intros x Hx. rewrite v6_value_prefix by (done || by repeat constructor).
    unfold in_block, is_segment in *. change (2 ^ (32 - 16)) with 65536.
    apply eq_true_iff_eq. rewrite !Z.eqb_eq. Z.to_euclidean_division_equations. lia. }
  rewrite H16 by done. rewrite !v6_value_prefix by (done || by repeat constructor).
  unfold is_public_address. cbn [nth]. rewrite land_e000 by done.
  unfold in_block, is_segment in *. cbn -[Z.div Z.mul Z.add Z.eqb Z.ltb].
  change (2 ^ (32 - 3)) with 536870912. 
  apply eq_true_iff_eq. rewrite !andb_true_iff, !negb_true_iff, !orb_false_iff, !andb_false_iff, !orb_false_iff, !Z.eqb_eq, !Z.eqb_neq, !Z.ltb_ge.
  Z.to_euclidean_division_equations. lia.
Qed.

(** ** Parsed addresses are machine addresses *)

Definition ip_wf (ip : IpAddr) : Prop :=
  match ip with
  | V4 a b c d => is_octet a /\ is_octet b /\ is_octet c /\ is_octet d
  | V6 s => length s = 8%nat /\ Forall is_segment s
  end.

Lemma parse_octet_wf s x : parse_octet s = Some x -> is_octet x.
Proof.
  unfold parse_octet. case_match eqn:Hc; [|done]. intros [= <-]. bool_to_prop.
  unfold is_octet. split; [by apply digits_value_nonneg|lia].
Qed.

Lemma parse_ipv4_wf s a b c d :
  parse_ipv4 s = Some (a, b, c, d) -> is_octet a /\ is_octet b /\ is_octet c /\ is_octet d.
Proof.
  unfold parse_ipv4. do 5 (case_match; try done).
  intros H'. repeat match type of H' with
    | (parse_octet ?s ≫= _) = _ => let E := fresh in destruct (parse_octet s) eqn:E; [cbn in H'|done];
                                   apply parse_octet_wf in E
    end. simplify_eq. done.
Qed.

Lemma span_all p s : forallb p (span p s).1 = true.
Proof.
  induction s as [|c s IH]; [done|]. cbn. destruct (p c) eqn:Hc; [|done].
  destruct (span p s). cbn in *. by rewrite Hc.
Qed.

Lemma hex_value_range c : is_hexdigit c = true -> 0 <= hex_value c < 16.
Proof.
  unfold is_hexdigit, hex_value, is_ascii_digit. unfold between. intros H.
  repeat case_match; bool_to_prop; lia.
Qed.

Lemma read_hex_group_wf s v rest : read_hex_group s = Some (v, rest) -> is_segment v.
Proof.
  unfold read_hex_group. pose proof (span_all is_hexdigit s) as Hall.
  destruct (span is_hexdigit s) as [ds r]; cbn in Hall. case_match eqn:Hc; [|done].
  intros [= <- <-]. bool_to_prop. apply Nat.leb_le in H0.
  assert (forall n acc, (length ds <= n)%nat -> 0 <= acc ->
    0 <= fold_left (fun n c => 16 * n + hex_value c) ds acc < (acc + 1) * 16 ^ Z.of_nat (length ds)) as Hf.
  { clear H H0. induction ds as [|c ds IH]; intros n acc Hn Hacc; [cbn; lia|]. cbn in Hall. bool_to_prop.
    cbn [fold_left length]. apply hex_value_range in H.
    destruct (IH H0 n (16 * acc + hex_value c)) as [Hlo Hhi]; [cbn in Hn; lia|lia|]. split; [done|].
    rewrite Nat2Z.inj_succ, Z.pow_succ_r by lia. nia. }
  destruct (Hf (length ds) 0) as [Hlo Hhi]; [done|lia|]. unfold is_segment. split; [done|].
  assert (16 ^ Z.of_nat (length ds) <= 16 ^ 4) by (apply Z.pow_le_mono_r; lia). lia.
Qed.

Lemma read_groups_wf limit first s gs v4 rest :
  read_groups limit first s = (gs, v4, rest) -> (length gs <= limit)%nat /\ Forall is_segment gs.
Proof.
  revert first s gs v4 rest. induction limit as [|limit IH]; intros first s gs v4 rest;
    [intros [= <- <- <-]; by split|]. cbn [read_groups].
  destruct (if first then Some s else strip_prefix [ch_colon] s) as [s1|];
    [|intros [= <- <- <-]; split; [cbn; lia|done]].
  destruct (if Nat.eqb limit 0 then None else parse_ipv4 s1) as [[[[a b] c] d]|] eqn:H4.
  - intros [= <- <- <-]. destruct (Nat.eqb_spec limit 0); [done|].
    apply parse_ipv4_wf in H4 as (? & ? & ? & ?). unfold is_octet in *.
    split; [cbn; lia|]. repeat constructor; lia.
  - destruct (read_hex_group s1) as [[v s2]|] eqn:Hh; [|intros [= <- <- <-]; split; [cbn; lia|done]].
    apply read_hex_group_wf in Hh. destruct (read_groups limit false s2) as [[gs' v4'] rest'] eqn:Hr.
    intros [= <- <- <-]. apply IH in Hr as [Hlen Hall]. split; [cbn; lia|by constructor].
Qed.

Lemma parse_ip_wf s ip : parse_ip s = Some ip -> ip_wf ip.
Proof.
  unfold parse_ip. destruct (parse_ipv4 s) as [[[[a b] c] d]|] eqn:H4.
  { intros [= <-]. by apply parse_ipv4_wf in H4. }
  unfold parse_ipv6. destruct (read_groups 8 true s) as [[front v4] rest] eqn:Hf.
  apply read_groups_wf in Hf as [Hlen Hall].
  destruct (Nat.eqb_spec (length front) 8) as [H8|H8].
  { destruct (is_empty rest); cbn; [|done]. intros [= <-]. done. }
  destruct v4; [done|]. destruct (strip_prefix _ rest) as [rest1|]; [|done].
  destruct (read_groups (8 - (length front + 1)) true rest1) as [[tail v4'] rest2] eqn:Ht.
  apply read_groups_wf in Ht as [Hlen' Hall']. destruct (is_empty rest2); cbn; [|done].
  intros [= <-]. cbn. rewrite !length_app, length_replicate. split; [lia|].
  rewrite !Forall_app. split_and!; [done| |done]. apply Forall_replicate. unfold is_segment. lia.
Qed.

(** Special-use addresses: outside the one global unicast IPv6 block, or in one
    of the listed blocks. *)
Definition special_use (ip : IpAddr) : bool :=
  match ip with
  | V4 a b c d => existsb (in_block 32 (v4_value a b c d)) special_v4
  | V6 s => negb (in_block 128 (v6_value s) global_unicast_v6) ||
            existsb (in_block 128 (v6_value s)) special_v6
  end.

Lemma public_not_special ip : ip_wf ip -> is_public_address ip = negb (special_use ip).
Proof.
  destruct ip as [a b c d|s]; cbn [ip_wf special_use].
  - intros (? & ? & ? & ?). by apply v4_policy.
  - destruct s as [|s0 [|s1 s]]; intros [Hlen Hall]; try discriminate Hlen.
    apply Forall_cons in Hall as [H0 [H1 Hall]%Forall_cons]. injection Hlen as Hlen.
    rewrite (v6_policy s0 s1 s H0 H1 Hlen Hall). by rewrite negb_orb, negb_involutive.
Qed.

(** C37: the octet and segment tests of the address policy are exactly a table
    of CIDR blocks: every textual address that the standard parser accepts is
    admitted if and only if it lies outside all special-use blocks. *)
Theorem public_address_is_cidr_policy s ip :
  parse_ip s = Some ip -> is_public_address ip = negb (special_use ip).
Proof. intros Hip. apply public_not_special. by eapply parse_ip_wf. Qed.

Section Claims.
Context `{U : UrlOps}.

(** ** Targets *)

(** An accepted fetch URL is at most 8192 bytes, has an HTTP scheme, a host,
    no credentials and no fragment; a literal address in it is public, and it
    keeps the path and query it was parsed with. *)
Theorem parse_fetch_url_admits {UL : UrlLaws U} raw u :
  parse_fetch_url raw = Ok u ->
  byte_len raw <= MAX_URL_LEN_BYTES /\ escapes_ok raw = true /\
  http_scheme u = true /\ is_Some (url_host_str u) /\
  url_username u = [] /\ url_password u = None /\ url_fragment u = None /\
  (forall ip, literal_address u = Some ip -> special_use ip = false) /\
  exists parsed, url_parse raw = Some parsed /\ url_path u = url_path parsed /\
    url_query u = url_query parsed /\ url_port u = url_port parsed.
Proof.
  unfold parse_fetch_url, reject_userinfo_before_normalize, HostKey_from_url. intros H. res_inv.
  bool_to_prop. unfold http_scheme, literal_address in *.
  rewrite clear_fragment_scheme, clear_fragment_host, clear_fragment_username,
    clear_fragment_password, clear_fragment_path, clear_fragment_query, clear_fragment_port.
  split_and!; try done; eauto using clear_fragment_none.
  - by apply is_empty_true.
  - by apply eq_None_not_Some.
  - intros ip Hip. rewrite Hip in *. bool_to_prop.
    destruct (url_host_str _) as [host|]; [|done]. cbn in Hip. apply parse_ip_wf in Hip.
    apply negb_true_iff. by rewrite <- public_not_special.
Qed.

(** ** Pins *)

Lemma resolve_public_Ok host port lookup addrs :
  resolve_public host port lookup = Ok addrs ->
  addrs <> [] /\ Forall (fun a => is_public_address a.1 = true /\ a.2 = port) addrs.
Proof.
  unfold resolve_public. intros H. apply bind_Ok in H as (ips & _ & H).
  apply bind_Ok in H as (_ & Hne%refuse_if_Ok & H). apply bind_Ok in H as (_ & Hpub%refuse_if_Ok & H).
  injection H as <-. bool_to_prop. split.
  - by destruct ips.
  - apply Forall_map, Forall_forall. intros ip Hip. split; [|done].
    rewrite forallb_forall in Hpub. by apply Hpub, list_elem_of_In.
Qed.

(** One connection: the target is resolved in its scope, then pinned. *)
Definition pin_target (scope : CrawlScope) (pins : Pins) (req : url * (str -> res (list IpAddr))) : Pins :=
  match HostKey_from_url req.1, scope_resolve scope req.1 req.2 with
  | Ok host, Ok addrs => pin_vetted_addresses pins host addrs
  | _, _ => pins
  end.

Definition pin_ok (scope : CrawlScope) (addrs : list SocketAddr) : Prop :=
  match scope with
  | Loopback e => addrs = [address e]
  | _ => addrs <> [] /\ Forall (fun a => is_public_address a.1 = true) addrs
  end.

Lemma scope_resolve_Ok scope u lookup addrs :
  scope_resolve scope u lookup = Ok addrs -> pin_ok scope addrs.
Proof.
  unfold scope_resolve. intros H. res_inv. destruct scope; res_inv; try done.
  all: apply resolve_public_Ok in H as [Hne Hall]; split; [done|].
  all: apply (Forall_impl _ _ _ Hall); by intros ? [].
Qed.

(** C36: whatever DNS answers, lookups and order of requests, every address the
    shared client can be handed for a host is public, except that an owned
    loopback scope hands out its own socket and nothing else; a host that was
    never admitted has no address at all. *)
Theorem pinned_addresses_are_vetted scope requests host addrs :
  admitted_addresses (foldl (pin_target scope) ∅ requests) host = Ok addrs ->
  pin_ok scope addrs.
Proof.
  unfold admitted_addresses. generalize (default host (strip_suffix [ch_dot] host)) as key.
  intros key H. apply ok_or_Ok in H.
  assert (map_Forall (fun _ a => pin_ok scope a) (foldl (pin_target scope) ∅ requests)) as Hall.
  { assert (map_Forall (fun _ a => pin_ok scope a) (∅ : Pins)) as H0 by apply map_Forall_empty.
    clear H. revert H0. generalize (∅ : Pins). induction requests as [|[u lookup] requests IH];
      intros pins Hpins; [done|].
    cbn [foldl]. apply IH. unfold pin_target. cbn.
    destruct (HostKey_from_url u) as [h|]; [|done].
    destruct (scope_resolve scope u lookup) as [a|] eqn:Hr; [|done].
    apply map_Forall_insert_2; [by eapply scope_resolve_Ok|done]. }
  exact (Hall key addrs H).
Qed.

(** ** Scopes *)

Lemma restrict_fold_Ok e urls acc ts k :
  try_fold (restrict_target e) acc urls = Ok ts -> k ∈ ts ->
  k ∈ acc \/ exists v, v ∈ urls /\ k = safe_url_for_record v /\
    match targets e with Some allowed => k ∈ allowed | None => True end.
Proof.
  revert acc. induction urls as [|v urls IH]; intros acc Hf Hk.
  - cbn in Hf. injection Hf as <-. by left.
  - cbn [try_fold] in Hf. apply bind_Ok in Hf as (acc' & Hstep & Hf).
    destruct (IH _ Hf Hk) as [Hin|(v' & Hv' & -> & Hal)].
    + unfold restrict_target in Hstep. apply bind_Ok in Hstep as (host & _ & Hstep).
      apply bind_Ok in Hstep as (_ & _ & Hstep). apply bind_Ok in Hstep as (_ & Ht%refuse_if_Ok & Hstep).
      injection Hstep as <-. apply elem_of_cons in Hin as [->|Hin]; [|by left].
      right. exists v. split_and!; [by left|done|]. destruct (targets e); [|done]. by bool_to_prop.
    + right. exists v'. split; [by right|done].
Qed.

(** narrowing an owned endpoint only removes targets: whatever the narrowed
    scope contains, the original one contained, and every contained URL is one
    of the selected ones; narrowing again cannot add a target back. *)
Theorem restrict_targets_narrows e urls e' u :
  restrict_targets e urls = Ok e' -> contains_exact (Loopback e') u = true ->
  contains_exact (Loopback e) u = true /\
  exists v, v ∈ urls /\ safe_url_for_record u = safe_url_for_record v.
Proof.
  unfold restrict_targets. intros H. apply bind_Ok in H as (ts & Hf & H). injection H as <-.
  cbn [contains_exact address targets]. intros Hc. apply andb_true_iff in Hc as [Hhost Ht].
  apply bool_decide_eq_true in Ht.
  destruct (restrict_fold_Ok e urls [] ts _ Hf Ht) as [Hin|(v & Hv & Hk & Hal)].
  { by apply not_elem_of_nil in Hin. }
  split; [|by exists v]. apply andb_true_iff. split; [exact Hhost|].
  destruct (targets e); [|done]. by apply bool_decide_eq_true.
Qed.
End Claims.

(** ** Bodies *)

Lemma read_chunks_Ok limit acc stream bytes :
  0 <= limit -> Z.of_nat (length acc) <= limit ->
  read_chunks limit acc stream = Ok bytes <->
  exists chunks, Forall2 (fun c chunk => chunk_bytes c = Ok chunk /\ wire_update c = Ok tt) stream chunks /\
    bytes = acc ++ concat chunks /\ Z.of_nat (length bytes) <= limit.
Proof.
  intros Hl. revert acc. induction stream as [|c stream IH]; intros acc Hacc; cbn [read_chunks].
  - split.
    + intros [= <-]. exists []. by rewrite app_nil_r.
    + intros (chunks & Hf & -> & _). inversion Hf. by rewrite app_nil_r.
  - destruct (chunk_bytes c) as [chunk|] eqn:Hc; cbn;
      [|split; [done|]; intros (chunks & Hf & _);
        apply Forall2_cons_inv_l in Hf as (? & ? & [? ?] & _ & _); congruence].
    destruct (wire_update c) as [[]|] eqn:Hw; cbn;
      [|split; [done|]; intros (chunks & Hf & _);
        apply Forall2_cons_inv_l in Hf as (? & ? & [? ?] & _ & _); congruence].
    destruct (Z.ltb_spec (u64_saturating_sub limit (Z.of_nat (length acc))) (Z.of_nat (length chunk)));
      unfold u64_saturating_sub in *.
    + split; [done|]. intros (chunks & Hf & -> & Hb). inversion Hf as [|? chunk' ? ? [Hc' _]]; subst.
      rewrite Hc in Hc'. injection Hc' as <-. cbn in Hb. rewrite !length_app in Hb. lia.
    + rewrite IH by (rewrite length_app; lia). split.
      * intros (chunks & Hf & -> & Hb). exists (chunk :: chunks). cbn. rewrite app_assoc.
        split_and!; [by constructor|done..].
      * intros (chunks & Hf & -> & Hb). inversion Hf as [|? chunk' ? chunks' [Hc' _] Hf']; subst.
        rewrite Hc in Hc'. injection Hc' as <-. exists chunks'. cbn in *. by rewrite <- app_assoc.
Qed.

(** a body read returns exactly when every chunk and trace update
    succeeded, the declared length does not exceed the limit, the whole body
    fits it, and a challenge found in it was recorded; the result is then the
    chunks in order, never longer than the limit. *)
Theorem read_bytes_bounded limit headers detect observe_challenge stream bytes :
  0 <= limit ->
  read_bytes limit headers detect observe_challenge stream = Ok bytes <->
  opt_le (header_get headers "content-length" ≫= parse_u64) (Some limit) /\
  (exists chunks,
     Forall2 (fun c chunk => chunk_bytes c = Ok chunk /\ wire_update c = Ok tt) stream chunks /\
     bytes = concat chunks) /\
  Z.of_nat (length bytes) <= limit /\
  (forall kind, detect headers bytes = Some kind -> observe_challenge kind = Ok tt).
Proof.
  intros Hl. unfold read_bytes. destruct (header_get headers "content-length" ≫= parse_u64) as [n|].
  1: destruct (Z.ltb_spec limit n); cbn; [split; [done|intros (? & _); lia]|].
  all: cbn [refuse_if mbind result_bind].
  all: rewrite bind_Ok; split.
  all: try (intros (b & Hr & Hd); apply read_chunks_Ok in Hr as (chunks & Hf & -> & Hb); [|done..];
    cbn in *; destruct (detect headers (concat chunks)) eqn:Hdet;
    [destruct (observe_challenge c) as [[]|] eqn:Ho; [|done]|]; injection Hd as <-;
    split_and!; eauto; naive_solver).
  all: intros (_ & (chunks & Hf & ->) & Hb & Hd); exists (concat chunks); split;
    [apply read_chunks_Ok; [done..|]; by exists chunks|];
    destruct (detect headers (concat chunks)); [|done]; by rewrite (Hd _ eq_refl).
Qed.

(** ** Concrete runs *)

Module NetworkExamples.
Import UrlReference.

Example ipv6_text :
  parse_ip (lit "2001:db8::192.0.2.1") = Some (V6 [8193; 3512; 0; 0; 0; 0; 49152; 513]).
Proof. vm_compute. reflexivity. Qed.

Lemma public_address_is_cidr_policy_witness :
  parse_ip (lit "2001:4860:4860::8888") = Some (V6 [8193; 18528; 18528; 0; 0; 0; 0; 34952]) /\
  is_public_address (V6 [8193; 18528; 18528; 0; 0; 0; 0; 34952]) =
    negb (special_use (V6 [8193; 18528; 18528; 0; 0; 0; 0; 34952])).
Proof.
  assert (parse_ip (lit "2001:4860:4860::8888") = Some (V6 [8193; 18528; 18528; 0; 0; 0; 0; 34952])) as H
    by (vm_compute; reflexivity).
  split; [exact H|]. exact (public_address_is_cidr_policy _ _ H).
Defined.

Definition page : RefUrl :=
  default {| r_scheme := []; r_username := []; r_password := None; r_host := None; r_port := None;
             r_path := []; r_query := None; r_fragment := None |}
    (ok (parse_fetch_url (lit "http://a.example/p?q=%2f#top"))).

Lemma parse_fetch_url_admits_witness :
  parse_fetch_url (lit "http://a.example/p?q=%2f#top") = Ok page /\ url_fragment page = None.
Proof.
  assert (parse_fetch_url (lit "http://a.example/p?q=%2f#top") = Ok page) as H
    by (vm_compute; reflexivity).
  split; [exact H|].
  destruct (parse_fetch_url_admits _ _ H) as (_ & _ & _ & _ & _ & _ & Hfrag & _). exact Hfrag.
Defined.

Lemma pinned_addresses_are_vetted_witness :
  admitted_addresses (foldl (pin_target Production) ∅
    [(page, fun _ => Ok [V4 93 184 215 14]); (page, fun _ => Ok [V4 93 184 215 14; V4 10 0 0 1])])
    (lit "a.example.") = Ok [(V4 93 184 215 14, 80)] /\
  pin_ok Production [(V4 93 184 215 14, 80)].
Proof.
  assert (admitted_addresses (foldl (pin_target Production) ∅
    [(page, fun _ => Ok [V4 93 184 215 14]); (page, fun _ => Ok [V4 93 184 215 14; V4 10 0 0 1])])
    (lit "a.example.") = Ok [(V4 93 184 215 14, 80)]) as H by (vm_compute; reflexivity).
  split; [exact H|]. exact (pinned_addresses_are_vetted _ _ _ _ H).
Defined.

Definition endpoint : LoopbackEndpoint :=
  {| address := (V4 127 0 0 1, 80); aliases := [lit "a.example"]; targets := None |}.
Definition narrowed : LoopbackEndpoint := default endpoint (ok (restrict_targets endpoint [page])).
Lemma restrict_targets_narrows_witness :
  contains_exact (Loopback narrowed) page = true /\ contains_exact (Loopback endpoint) page = true.
Proof.
  assert (contains_exact (Loopback narrowed) page = true) as H by (vm_compute; reflexivity).
  split; [exact H|].
  refine (proj1 (restrict_targets_narrows endpoint [page] narrowed page _ H)). vm_compute. reflexivity.
Defined.

Lemma read_bytes_bounded_witness :
  read_bytes 4 ∅ (fun _ _ => None) (fun _ => Ok tt)
    [{| chunk_bytes := Ok [1; 2]; wire_update := Ok tt |};
     {| chunk_bytes := Ok [3; 4]; wire_update := Ok tt |}] = Ok [1; 2; 3; 4].
Proof.
  apply read_bytes_bounded; [discriminate|]. split_and!.
  - vm_compute. exact I.
  - exists [[1; 2]; [3; 4]]. split; [repeat constructor|reflexivity].
  - vm_compute. discriminate.
  - intros kind H. discriminate H.
Defined.
End NetworkExamples.
