(* ===== verification/Exclusions.v ===== *)
(** * Exclusions ([crates/core/src/crawler/exclusions.rs])

    Host, geographic and language policy. The hosting-country provider is an
    offline adapter the crate does not implement: a record of functions. *)

From S2P Require Import Prelude Text Externals CrawlerBase Policy HostState Network.

#[local] Open Scope Z_scope.

Record ExclusionMatch := { match_rule_id : str; match_phase : ExclusionPhase }.
Inductive CountryUnknownReason := NoProvider | NotResolved | ProviderUnavailable | ConflictingAddresses.
Inductive HostingCountry :=
| Known (code version : str)
| Unknown (reason : CountryUnknownReason).
Record HostingCountryProvider := {
  provider_name : str;
  dataset_version : str;
  provider_country : IpAddr -> option str;
}.
Record ClassMatches := {
  matches : list ExclusionMatch;
  classes : list ContentClass;
  policies : list ContentPolicy;
}.
Record Exclusions := { config : ExclusionsConfig; provider : option HostingCountryProvider }.

Definition Exclusions_new (config : ExclusionsConfig) (provider : option HostingCountryProvider)
    : res Exclusions :=
  match hosting_country_provider config, provider with
  | None, None => Ok {| config := config; provider := provider |}
  | Some expected, Some actual =>
      if str_eqb (provider_id expected) (provider_name actual) &&
         str_eqb (provider_version expected) (dataset_version actual)
      then Ok {| config := config; provider := provider |}
      else Err CountryProviderUnavailable
  | _, _ => Err CountryProviderUnavailable
  end.

(** ** Hosts *)

Definition host_matches (host rule : str) (subdomains : bool) : bool :=
  str_eqb host rule ||
  (subdomains &&
   match strip_suffix rule host with
   | Some prefix => ends_with [ch_dot] prefix
   | None => false
   end).

Definition push_new {A} `{EqDecision A} (l : list A) (x : A) : list A :=
  if bool_decide (x ∈ l) then l else l ++ [x].
Definition class_match (host : HostKey) (acc : ClassMatches) (rule : ClassRule) : ClassMatches :=
  if host_matches host (rule_host rule) (rule_subdomains rule) then
    {| matches := matches acc ++ [{| match_rule_id := rule_id rule; match_phase := Frontier |}];
       classes := push_new (classes acc) (rule_class rule);
       policies := push_new (policies acc) (rule_policy rule) |}
  else acc.
Definition class_matches (e : Exclusions) (host : HostKey) : ClassMatches :=
  foldl (class_match host) {| matches := []; classes := []; policies := [] |} (rules (config e)).
Definition never_crawl_matches (e : Exclusions) (host : HostKey) : bool :=
  bool_decide (NeverCrawlPolicy ∈ policies (class_matches e host)).

(** The label after the last dot. *)
Definition geo_scope_allows (e : Exclusions) (host : HostKey) : result ExclusionReason unit :=
  let suffix := default [] (last (split ch_dot host)) in
  _ ← refuse_if (bool_decide (suffix ∈ cctld_deny (config e))) CctldDenied;
  refuse_if (negb (is_empty (cctld_allow (config e))) &&
             negb (bool_decide (suffix ∈ cctld_allow (config e)))) CctldNotAllowed.

(** ** Languages *)

Definition language_matches (language rule : str) : bool :=
  let language := to_ascii_lowercase language in
  let rule := to_ascii_lowercase rule in
  str_eqb language rule ||
  match strip_prefix rule language with
  | Some tail => starts_with [ch_minus] tail
  | None => false
  end.

Definition declared_language_allowed (e : Exclusions) (languages : list str)
    : result ExclusionReason unit :=
  _ ← refuse_if (existsb (fun language => existsb (language_matches language) (language_deny (config e)))
                   languages) LanguageDenied;
  refuse_if (negb (is_empty (language_allow (config e))) &&
             negb (existsb (fun language => existsb (language_matches language) (language_allow (config e)))
                     languages)) LanguageNotAllowed.

Definition excluded (phase : ExclusionPhase) (r : result ExclusionReason unit) : res unit :=
  match r with Ok _ => Ok tt | Err reason => Err (ExcludedByPolicy reason phase) end.
Definition language (e : Exclusions) (languages : list str) (phase : ExclusionPhase) : res unit :=
  excluded phase (declared_language_allowed e languages).

Definition declared_language (value : str) : option str :=
  let value := trim value in
  if (63 <? byte_len value) || is_empty value ||
     negb (forallb (fun part => negb (is_empty part) && (byte_len part <=? 8) &&
                                forallb is_ascii_alphanumeric part) (split ch_minus value))
  then None
  else
    first ← head (split ch_minus value);
    if (byte_len first <? 2) || negb (forallb is_ascii_alphabetic first) then None
    else Some (to_ascii_lowercase value).

(** ** Admission *)

Definition frontier `{UrlOps} (e : Exclusions) (u : url) (known_languages : option (list str))
    : res ClassMatches :=
  host ← HostKey_from_url u;
  _ ← refuse_if (never_crawl_matches e host) (ExcludedByPolicy NeverCrawl Frontier);
  _ ← excluded Frontier (geo_scope_allows e host);
  _ ← match known_languages with
      | Some languages => language e languages Frontier
      | None => Ok tt
      end;
  Ok (class_matches e host).

(** The codes of all addresses, or none as soon as one has no valid code. *)
Fixpoint collect_codes (p : HostingCountryProvider) (codes : list str) (addresses : list SocketAddr)
    : list str :=
  match addresses with
  | [] => codes
  | a :: addresses =>
      match provider_country p a.1 with
      | Some code => if code_ok is_ascii_uppercase code
                     then collect_codes p (codes ++ [code]) addresses else []
      | None => []
      end
  end.
Definition country (e : Exclusions) (addresses : list SocketAddr) : HostingCountry :=
  match provider e with
  | None => Unknown NoProvider
  | Some p =>
      match collect_codes p [] addresses with
      | [] => Unknown ProviderUnavailable
      | code :: codes =>
          if existsb (fun c => negb (str_eqb c code)) (code :: codes)
          then Unknown ConflictingAddresses
          else Known code (dataset_version p)
      end
  end.

Definition admit_country (e : Exclusions) (c : HostingCountry) : res unit :=
  let allow := hosting_country_allow (config e) in
  let deny := hosting_country_deny (config e) in
  let reason :=
    match c with
    | Unknown _ => if negb (is_empty allow) || negb (is_empty deny) then Some CountryUnresolved else None
    | Known code _ =>
        if bool_decide (code ∈ deny) then Some HostingCountryDenied
        else if negb (is_empty allow) && negb (bool_decide (code ∈ allow))
        then Some HostingCountryNotAllowed else None
    end in
  match reason with
  | Some reason => Err (ExcludedByPolicy reason Frontier)
  | None => Ok tt
  end.
Definition addresses (e : Exclusions) (l : list SocketAddr) : res HostingCountry :=
  let c := country e l in
  _ ← admit_country e c; Ok c.

Definition listing_limit (e : Exclusions) (host : HostKey) : option Z :=
  foldr (fun rule acc =>
    if host_matches host (listing_host rule) (listing_subdomains rule)
    then Some match acc with
              | Some n => Z.min (max_page_attempts_per_24h rule) n
              | None => max_page_attempts_per_24h rule
              end
    else acc) None (listing_sites (config e)).

(** [Transport::prepare] without its trace: exclusions, resolution in scope,
    then the hosting country of the addresses that will be connected to. *)
Definition prepare `{UrlOps} (e : Exclusions) (scope : CrawlScope) (u : url)
    (lookup : str -> res (list IpAddr)) : res (list SocketAddr * HostingCountry) :=
  _ ← frontier e u None;
  addrs ← scope_resolve scope u lookup;
  let c := country e addrs in
  _ ← admit_country e c;
  Ok (addrs, c).

(** ** Label boundaries *)

(** a host matches a rule exactly when it is the rule's host, or, for a rule
    with subdomains, when its DNS labels end with the rule's labels: a rule for
    [b.example] covers [a.b.example] and never [ab.example]. *)
Theorem host_matches_labels host rule subdomains :
  host_matches host rule subdomains = true <->
  split ch_dot host = split ch_dot rule \/
  subdomains = true /\ exists labels, labels <> [] /\ split ch_dot host = labels ++ split ch_dot rule.
Proof.
  unfold host_matches. rewrite orb_true_iff, andb_true_iff, str_eqb_eq.
  assert (host = rule <-> split ch_dot host = split ch_dot rule) as <-.
  { split; [by intros ->|]. intros H. by rewrite <- (join_split ch_dot host), H, join_split. }
  enough ((match strip_suffix rule host with Some prefix => ends_with [ch_dot] prefix | None => false end
             = true) <->
          exists labels, labels <> [] /\ split ch_dot host = labels ++ split ch_dot rule) as -> by done.
  split.
  - destruct (strip_suffix rule host) as [prefix|] eqn:Hs; [|done].
    apply strip_suffix_Some in Hs as ->. intros [p ->]%ends_with_spec.
    exists (split ch_dot p). split; [apply split_by_nonempty|].
    rewrite <- app_assoc. cbn [app]. apply split_app.
  - intros (labels & Hne & Hs).
    assert (host = (join [ch_dot] labels ++ [ch_dot]) ++ rule) as Hh.
    { rewrite <- (join_split ch_dot host), Hs, join_app by (done || apply split_by_nonempty).
      by rewrite join_split, <- app_assoc. }
    apply strip_suffix_Some in Hh as ->. apply ends_with_spec. eauto.
Qed.

(** ** Rules *)

Lemma elem_of_push_new {A} `{EqDecision A} (l : list A) x y : y ∈ push_new l x <-> y ∈ l \/ y = x.
Proof.
  unfold push_new. case_bool_decide as Hin.
  - split; [by left|]. intros [?| ->]; done.
  - rewrite elem_of_app, list_elem_of_singleton. done.
Qed.

Lemma class_matches_policies e host policy :
  policy ∈ policies (class_matches e host) <->
  exists rule, rule ∈ rules (config e) /\ rule_policy rule = policy /\
    host_matches host (rule_host rule) (rule_subdomains rule) = true.
Proof.
  unfold class_matches.
  assert (forall acc, policy ∈ policies (foldl (class_match host) acc (rules (config e))) <->
    policy ∈ policies acc \/ exists rule, rule ∈ rules (config e) /\ rule_policy rule = policy /\
      host_matches host (rule_host rule) (rule_subdomains rule) = true) as Hfold.
  { induction (rules (config e)) as [|rule rs IH]; intros acc; cbn [foldl].
    - split; [by left|]. intros [?|(? & H & _)]; [done|]. by apply not_elem_of_nil in H.
    - rewrite IH. unfold class_match. setoid_rewrite elem_of_cons.
      destruct (host_matches host (rule_host rule) _) eqn:Hm; cbn [policies].
      + rewrite elem_of_push_new. split.
        * intros [[?| ->]|(r & ? & ? & ?)]; [by left|right; exists rule|right; exists r]; auto.
        * intros [?|(r & [->|?] & <- & ?)]; [by left; left|by left; right|right; exists r; auto].
      + split.
        * intros [?|(r & ? & ? & ?)]; [by left|right; exists r]; auto.
        * intros [?|(r & [->|?] & <- & ?)]; [by left|congruence|right; exists r; auto]. }
  rewrite Hfold. cbn. split; [intros [H|H]; [by apply not_elem_of_nil in H|done]|by right].
Qed.

(** One configuration restricts at least as much as another. *)
Definition allow_tighter (allow allow' : list str) : Prop :=
  allow = [] \/ (allow' <> [] /\ allow' ⊆ allow).
Definition tighter (e e' : Exclusions) : Prop :=
  rules (config e) ⊆ rules (config e') /\
  cctld_deny (config e) ⊆ cctld_deny (config e') /\
  allow_tighter (cctld_allow (config e)) (cctld_allow (config e')) /\
  language_deny (config e) ⊆ language_deny (config e') /\
  allow_tighter (language_allow (config e)) (language_allow (config e')) /\
  hosting_country_deny (config e) ⊆ hosting_country_deny (config e') /\
  allow_tighter (hosting_country_allow (config e)) (hosting_country_allow (config e')) /\
  provider e' = provider e.

Lemma allow_list_tighter (allow allow' : list str) (ok ok' : bool) :
  allow_tighter allow allow' -> (ok' = true -> allow' ⊆ allow -> ok = true) ->
  negb (is_empty allow') && negb ok' = false -> negb (is_empty allow) && negb ok = false.
Proof.
  intros [->|[Hne Hsub]] Hok H; [done|]. apply is_empty_false in Hne. rewrite Hne in H. cbn in H.
  apply negb_false_iff in H. rewrite (Hok H Hsub). apply andb_false_r.
Qed.

Lemma existsb_mono {A} (f g : A -> bool) l :
  (forall x, f x = true -> g x = true) -> existsb f l = true -> existsb g l = true.
Proof. rewrite !existsb_exists. naive_solver. Qed.

Lemma existsb_subset {A} (f : A -> bool) (l l' : list A) :
  l ⊆ l' -> existsb f l = true -> existsb f l' = true.
Proof.
  rewrite !existsb_exists. intros Hsub (x & Hx & Hf). exists x. split; [|done].
  apply list_elem_of_In, Hsub. by apply list_elem_of_In.
Qed.

Lemma geo_tighter e e' host u :
  tighter e e' -> geo_scope_allows e' host = Ok u -> geo_scope_allows e host = Ok u.
Proof.
  intros (_ & Hd & Ha & _) H. unfold geo_scope_allows in *.
  apply bind_Ok in H as (? & H1%refuse_if_Ok & H2%refuse_if_Ok). bool_to_prop.
  set (suffix := default [] _) in *. rewrite (bool_decide_eq_false_2 (suffix ∈ cctld_deny (config e))) by (intros Hin; apply H1, Hd, Hin).
  cbn [refuse_if mbind result_bind]. apply refuse_if_Ok.
  eapply allow_list_tighter; [done| |done]. intros Hin%bool_decide_eq_true Hsub.
  apply bool_decide_eq_true, Hsub, Hin.
Qed.

Lemma language_tighter e e' languages u :
  tighter e e' -> declared_language_allowed e' languages = Ok u ->
  declared_language_allowed e languages = Ok u.
Proof.
  intros (_ & _ & _ & Hd & Ha & _) H. unfold declared_language_allowed in *.
  apply bind_Ok in H as (? & H1%refuse_if_Ok & H2%refuse_if_Ok).
  assert (existsb (fun l => existsb (language_matches l) (language_deny (config e))) languages = false) as ->.
  { apply not_true_iff_false. intros Ht. apply not_true_iff_false in H1. apply H1. revert Ht.
    apply existsb_mono. intros l. by apply existsb_subset. }
  cbn [refuse_if mbind result_bind]. apply refuse_if_Ok.
  eapply allow_list_tighter; [done| |done]. intros Hin Hsub. revert Hin. apply existsb_mono.
  intros l. by apply existsb_subset.
Qed.

Section Admission.
Context `{U : UrlOps}.

(** tightening a policy only refuses more: when rules are added, deny lists
    grow and allow lists shrink (or appear), every URL, declared language and
    hosting country that the tighter policy admits was admitted before. *)
Theorem tightening_only_refuses e e' u languages phase c :
  tighter e e' ->
  (is_ok (frontier e' u (Some languages)) = true -> is_ok (frontier e u (Some languages)) = true) /\
  (language e' languages phase = Ok tt -> language e languages phase = Ok tt) /\
  (admit_country e' c = Ok tt -> admit_country e c = Ok tt).
Proof.
  intros Ht. assert (forall phase, language e' languages phase = Ok tt -> language e languages phase = Ok tt) as Hlang.
  { intros ph. unfold language, excluded. destruct (declared_language_allowed e' languages) eqn:Hl; [|done].
    by rewrite (language_tighter e e' languages a Ht Hl). }
  split_and!; [|by apply Hlang|].
  - rewrite !is_ok_true. intros (m & H). unfold frontier in *.
    destruct (HostKey_from_url u) as [host|]; [|done]. cbn [mbind result_bind] in *.
    apply bind_Ok in H as (? & H1%refuse_if_Ok & H). apply bind_Ok in H as (? & H2 & H).
    apply bind_Ok in H as ([] & H3 & H).
    assert (never_crawl_matches e host = false) as ->.
    { unfold never_crawl_matches in *. bool_to_prop. apply bool_decide_eq_false.
      rewrite class_matches_policies in *. destruct Ht as [Hr _].
      intros (r & Hin & ? & ?). apply H1. exists r. auto. }
    cbn [refuse_if mbind result_bind]. unfold excluded in *.
    destruct (geo_scope_allows e' host) eqn:Hg; [|done]. rewrite (geo_tighter e e' host a Ht Hg).
    cbn [mbind result_bind]. rewrite (Hlang Frontier H3). cbn. eauto.
  - destruct Ht as (_ & _ & _ & _ & _ & Hd & Ha & _). unfold admit_country. destruct c as [code v|r].
    + case_bool_decide as H1; [done|]. rewrite (bool_decide_eq_false_2 (code ∈ hosting_country_deny (config e)))
        by (intros Hin; apply H1, Hd, Hin).
      destruct (negb _ && negb _) eqn:H2; [done|]. intros _.
      rewrite (allow_list_tighter _ _ (bool_decide (code ∈ hosting_country_allow (config e)))
        (bool_decide (code ∈ hosting_country_allow (config e'))) Ha); [done| |exact H2].
      intros Hin%bool_decide_eq_true Hsub. apply bool_decide_eq_true, Hsub, Hin.
    + destruct (negb _ || negb _) eqn:H2; [done|]. intros _.
      apply orb_false_iff in H2 as [H2%negb_false_iff%is_empty_true H3%negb_false_iff%is_empty_true].
      rewrite H2, H3 in *. destruct Ha as [->|[? _]]; [|done].
      destruct (hosting_country_deny (config e)) as [|d l]; [done|]. exfalso.
      apply (not_elem_of_nil d), Hd. by left.
Qed.

(** ** Countries *)

Lemma collect_codes_spec p codes addrs :
  collect_codes p codes addrs <> [] ->
  exists new, collect_codes p codes addrs = codes ++ new /\
    Forall2 (fun a code => provider_country p a.1 = Some code) addrs new.
Proof.
  revert codes. induction addrs as [|a addrs IH]; intros codes; cbn.
  - exists []. by rewrite app_nil_r.
  - destruct (provider_country p a.1) as [code|] eqn:Hc; [|done].
    destruct (code_ok is_ascii_uppercase code); [|done]. intros Hne.
    destruct (IH _ Hne) as (new & -> & Hall). exists (code :: new).
    rewrite <- app_assoc. split; [done|by constructor].
Qed.

Lemma country_Known e addrs code v :
  country e addrs = Known code v ->
  exists p, provider e = Some p /\ v = dataset_version p /\ addrs <> [] /\
    Forall (fun a => provider_country p a.1 = Some code) addrs.
Proof.
  unfold country. destruct (provider e) as [p|]; [|done].
  destruct (collect_codes p [] addrs) as [|c cs] eqn:Hc; [done|].
  destruct (existsb _ _) eqn:Hx; [done|]. intros [= <- <-]. exists p. split_and!; [done..| |].
  - by intros ->.
  - destruct (collect_codes_spec p [] addrs) as (new & Hnew & Hall); [by rewrite Hc|].
    rewrite Hc in Hnew. cbn [app] in Hnew. subst new. apply (proj1 (existsb_false _ (c :: cs))) in Hx.
    rewrite Forall_forall in Hx. apply Forall_forall. intros a Ha.
    apply list_elem_of_lookup in Ha as [i Hi].
    destruct (Forall2_lookup_l _ _ _ _ _ Hall Hi) as (code & Hcode & Hp). rewrite Hp. f_equal.
    assert (code ∈ c :: cs) as Hin by (apply list_elem_of_lookup; eauto).
    specialize (Hx code Hin). cbn in Hx. by apply negb_false_iff, str_eqb_eq in Hx.
Qed.

(** when a country restriction is configured, a target is prepared only if
    the provider gives one and the same valid code to every address that will
    be connected to, the code is not denied and is on the allow list if there
    is one; a missing provider, a missing or malformed code and conflicting
    addresses are refused. *)
Theorem prepared_country_is_unanimous e scope u lookup addrs c :
  hosting_country_allow (config e) <> [] \/ hosting_country_deny (config e) <> [] ->
  prepare e scope u lookup = Ok (addrs, c) ->
  exists p code, provider e = Some p /\ addrs <> [] /\
    Forall (fun a => provider_country p a.1 = Some code) addrs /\
    code ∉ hosting_country_deny (config e) /\
    (hosting_country_allow (config e) <> [] -> code ∈ hosting_country_allow (config e)).
Proof.
  intros Hres H. unfold prepare in H. apply bind_Ok in H as (m & _ & H).
  apply bind_Ok in H as (addrs' & _ & H). apply bind_Ok in H as ([] & Hadm & H).
  injection H as <- <-. unfold admit_country in Hadm.
  destruct (country e addrs') as [code v|reason] eqn:Hc.
  - apply country_Known in Hc as (p & Hp & _ & Hne & Hall). exists p, code.
    case_bool_decide as Hd; [done|]. destruct (negb _ && negb _) eqn:Ha; [done|].
    split_and!; [done..|]. intros Hallow%is_empty_false. rewrite Hallow in Ha. cbn in Ha. by bool_to_prop.
  - assert (negb (is_empty (hosting_country_allow (config e))) ||
            negb (is_empty (hosting_country_deny (config e))) = true) as Ht; [|by rewrite Ht in Hadm].
    destruct Hres as [H%is_empty_false|H%is_empty_false]; rewrite H; [done|by rewrite orb_true_r].
Qed.
End Admission.

(** ** Concrete policies *)

Module ExclusionExamples.
Import UrlReference NetworkExamples.

Definition with_lists (cctld country : list str) (rs : list ClassRule) : ExclusionsConfig :=
  {| exclusions_version := lit "1"; changed_at_utc := 0; change_log := [];
     cctld_allow := []; cctld_deny := cctld; language_allow := []; language_deny := [];
     hosting_country_allow := []; hosting_country_deny := country; hosting_country_provider := None;
     rules := rs; listing_sites := []; serving := ServingPolicy_default |}.
Definition gb_provider : HostingCountryProvider :=
  {| provider_name := lit "p"; dataset_version := lit "1"; provider_country _ := Some (lit "GB") |}.
Definition open_policy : Exclusions := {| config := with_lists [] [] []; provider := Some gb_provider |}.
Definition strict_policy : Exclusions :=
  {| config := with_lists [lit "ru"] [lit "FR"]
       [{| rule_id := lit "r"; rule_host := lit "b.example"; rule_subdomains := true;
           rule_class := Fraud; rule_policy := NeverCrawlPolicy |}];
     provider := Some gb_provider |}.

Example subdomain_refused :
  frontier strict_policy
    {| r_scheme := lit "https"; r_username := []; r_password := None;
       r_host := Some (lit "a.b.example"); r_port := None; r_path := lit "/"; r_query := None;
       r_fragment := None |} None = Err (ExcludedByPolicy NeverCrawl Frontier).
Proof. vm_compute. reflexivity. Qed.

Lemma tightening_only_refuses_witness :
  admit_country strict_policy (Known (lit "GB") (lit "1")) = Ok tt /\
  admit_country open_policy (Known (lit "GB") (lit "1")) = Ok tt.
Proof.
  assert (admit_country strict_policy (Known (lit "GB") (lit "1")) = Ok tt) as H
    by (vm_compute; reflexivity).
  split; [exact H|]. revert H.
  apply (tightening_only_refuses (U := url_reference) open_policy strict_policy page [] Frontier).
  split_and!; try (by left); try reflexivity; intros x Hx; by apply not_elem_of_nil in Hx.
Defined.

Lemma prepared_country_is_unanimous_witness :
  prepare strict_policy Production page (fun _ => Ok [V4 93 184 215 14]) =
    Ok ([(V4 93 184 215 14, 80)], Known (lit "GB") (lit "1")) /\
  exists p code, provider strict_policy = Some p /\ [(V4 93 184 215 14, 80)] <> [] /\
    Forall (fun a : SocketAddr => provider_country p a.1 = Some code) [(V4 93 184 215 14, 80)] /\
    code ∉ hosting_country_deny (config strict_policy) /\
    (hosting_country_allow (config strict_policy) <> [] ->
     code ∈ hosting_country_allow (config strict_policy)).
Proof.
  assert (prepare strict_policy Production page (fun _ => Ok [V4 93 184 215 14]) =
    Ok ([(V4 93 184 215 14, 80)], Known (lit "GB") (lit "1"))) as H by (vm_compute; reflexivity).
  split; [exact H|].
  apply (prepared_country_is_unanimous (U := url_reference) strict_policy Production page (fun _ => Ok [V4 93 184 215 14])
    _ (Known (lit "GB") (lit "1"))); [right; discriminate|exact H].
Defined.
End ExclusionExamples.
