(* ===== verification/Directives.v ===== *)
(** * Publisher directives ([crates/core/src/crawler/directives.rs])

    Robots directives and rights signals from headers and metadata. A parsed
    document is the list of its elements in document order; the HTML parser
    that produces it is [kuchiki]'s. *)

From S2P Require Import Prelude Text Externals CrawlerBase HostState Network.

#[local] Open Scope Z_scope.

Definition MAX_DIRECTIVES : nat := 256.

Inductive DirectiveSource := Header | MetaRobots | MetaBot.
#[export] Instance DirectiveSource_eq_dec : EqDecision DirectiveSource.
Proof. solve_decision. Defined.

Inductive DirectiveName :=
| Noindex | Nofollow | Noarchive | Nosnippet | MaxSnippet | Noimageindex | UnavailableAfter
| DNone | All | Index | Follow | DInvalid | DUnknown (token : str).
Inductive DirectiveValue :=
| Flag | SnippetLimit (limit : option Z) | Date (utc : Z) | VInvalid.
Inductive DirectiveError :=
| InvalidHeaderBytes | InvalidSnippet | InvalidDate | DirectiveLimit | InvalidReservation
| InvalidSignalUrl.
#[export] Instance DirectiveError_eq_dec : EqDecision DirectiveError.
Proof. solve_decision. Defined.

Record DirectiveObservation := {
  obs_source : DirectiveSource; obs_name : DirectiveName; obs_value : DirectiveValue;
  obs_applies : bool; obs_error : option DirectiveError;
}.

(** ** Effective restrictions *)

Record EffectiveDirectives := {
  noindex : bool; nofollow : bool; noarchive : bool; nosnippet : bool; noimageindex : bool;
  max_snippet : option Z; unavailable_after_utc : option Z;
  invalid_unavailable_after : bool; limit_exceeded : bool;
}.
Definition EffectiveDirectives_default : EffectiveDirectives :=
  {| noindex := false; nofollow := false; noarchive := false; nosnippet := false;
     noimageindex := false; max_snippet := None; unavailable_after_utc := None;
     invalid_unavailable_after := false; limit_exceeded := false |}.

Definition minimum (a b : option Z) : option Z :=
  match a, b with
  | Some a, Some b => Some (Z.min a b)
  | Some a, None => Some a
  | None, b => b
  end.
Definition restrictive_merge (a b : EffectiveDirectives) : EffectiveDirectives :=
  {| noindex := noindex a || noindex b; nofollow := nofollow a || nofollow b;
     noarchive := noarchive a || noarchive b; nosnippet := nosnippet a || nosnippet b;
     noimageindex := noimageindex a || noimageindex b;
     max_snippet := minimum (max_snippet a) (max_snippet b);
     unavailable_after_utc := minimum (unavailable_after_utc a) (unavailable_after_utc b);
     invalid_unavailable_after := invalid_unavailable_after a || invalid_unavailable_after b;
     limit_exceeded := limit_exceeded a || limit_exceeded b |}.
Definition index_eligible (d : EffectiveDirectives) (now : Z) : bool :=
  negb (noindex d) && negb (invalid_unavailable_after d) && negb (limit_exceeded d) &&
  match unavailable_after_utc d with Some deadline => now <? deadline | None => true end.

(** ** Rights signals *)

Inductive TdmReservation := Absent | NotReserved | TReserved | TInvalid.
#[export] Instance TdmReservation_eq_dec : EqDecision TdmReservation.
Proof. solve_decision. Defined.

Record RightsSignals := {
  license_urls : list str; license_present : bool; tdm_reservation : TdmReservation;
  tdm_policy_urls : list str; tdm_policy_present : bool;
  header_source : bool; meta_source : bool; link_source : bool;
  parse_errors : list DirectiveError;
}.
Definition RightsSignals_default : RightsSignals :=
  {| license_urls := []; license_present := false; tdm_reservation := Absent;
     tdm_policy_urls := []; tdm_policy_present := false; header_source := false;
     meta_source := false; link_source := false; parse_errors := [] |}.

Definition index_only (r : RightsSignals) : bool :=
  license_present r || tdm_policy_present r ||
  match tdm_reservation r with TReserved | TInvalid => true | _ => false end.

Definition merge_reservation (a b : TdmReservation) : TdmReservation :=
  match a, b with
  | Absent, value | value, Absent => value
  | NotReserved, NotReserved => NotReserved
  | TReserved, TReserved => TReserved
  | _, _ => TInvalid
  end.
Definition push_if_absent {A} `{EqDecision A} (l : list A) (x : A) : list A :=
  if bool_decide (x ∈ l) then l else l ++ [x].
Definition add_error (errors : list DirectiveError) (e : DirectiveError) : list DirectiveError :=
  push_if_absent errors e.

Definition rights_merge (a b : RightsSignals) : RightsSignals :=
  let licenses := foldl push_if_absent (license_urls a) (license_urls b) in
  let policies := foldl push_if_absent (tdm_policy_urls a) (tdm_policy_urls b) in
  let errors := foldl add_error (parse_errors a) (parse_errors b) in
  let over := (MAX_DIRECTIVES <? length licenses)%nat || (MAX_DIRECTIVES <? length policies)%nat in
  {| license_present := license_present a || license_present b;
     tdm_policy_present := tdm_policy_present a || tdm_policy_present b;
     header_source := header_source a || header_source b;
     meta_source := meta_source a || meta_source b;
     link_source := link_source a || link_source b;
     tdm_reservation := merge_reservation (tdm_reservation a) (tdm_reservation b);
     license_urls := if over then take MAX_DIRECTIVES licenses else licenses;
     tdm_policy_urls := if over then take MAX_DIRECTIVES policies else policies;
     parse_errors := if over then add_error errors DirectiveLimit else errors |}.

Record ParsedDirectives := {
  effective : EffectiveDirectives;
  seen : list DirectiveObservation;
  rights : RightsSignals;
  no_store : bool;
}.
Definition ParsedDirectives_default : ParsedDirectives :=
  {| effective := EffectiveDirectives_default; seen := []; rights := RightsSignals_default;
     no_store := false |}.

(** ** Tokens *)

Definition safe_token (value : str) : bool :=
  negb (is_empty value) && (byte_len value <=? 64) &&
  forallb (fun c => is_ascii_alphanumeric c || (c =? ch_underscore) || (c =? ch_minus) || (c =? ch_star))
    value.

Definition directive_name (value : str) : DirectiveName :=
  let v := replace_char ch_underscore ch_minus (to_ascii_lowercase value) in
  if str_eqb v (lit "noindex") then Noindex
  else if str_eqb v (lit "nofollow") then Nofollow
  else if str_eqb v (lit "noarchive") then Noarchive
  else if str_eqb v (lit "nosnippet") then Nosnippet
  else if str_eqb v (lit "max-snippet") then MaxSnippet
  else if str_eqb v (lit "noimageindex") then Noimageindex
  else if str_eqb v (lit "unavailable-after") then UnavailableAfter
  else if str_eqb v (lit "none") then DNone
  else if str_eqb v (lit "all") then All
  else if str_eqb v (lit "index") then Index
  else if str_eqb v (lit "follow") then Follow
  else DUnknown (to_ascii_lowercase value).

Definition agent_applies (token : str) : bool :=
  str_eqb token (lit "*") || eq_ignore_ascii_case token (lit "AVASearchBot").

(** The loop over the characters: [seg] is [value[start..position]]. *)
Fixpoint split_directives_from (seg rest : str) : list str :=
  match rest with
  | [] => [trim seg]
  | c :: rest' =>
      if c =? ch_comma then
        let token := trim (split_first (one_char_of [ch_comma; ch_colon]) (trim_start rest')) in
        if safe_token token then trim seg :: split_directives_from [] rest'
        else split_directives_from (seg ++ [c]) rest'
      else split_directives_from (seg ++ [c]) rest'
  end.
Definition split_directives (value : str) : list str := split_directives_from [] value.

Section Parse.
Context `{C : Chrono}.

Definition explicit_zone (zone : str) : bool :=
  one_of zone ["GMT"; "UTC"]%string ||
  ((byte_len zone =? 5) &&
   match zone with
   | c :: digits => ((c =? 43) || (c =? ch_minus)) && forallb is_ascii_digit digits
   | [] => false
   end).
Definition validate_unavailable_after_timezone (value : str) : option Z :=
  match parse_from_rfc3339 value with
  | Some date => Some date
  | None =>
      zone ← last (split_ascii_whitespace value);
      if explicit_zone zone then parse_from_rfc2822 value else None
  end.

(** ** [parse_value] *)

Definition flag_effect (f : EffectiveDirectives) : EffectiveDirectives * DirectiveValue * option DirectiveError :=
  (f, Flag, None).
Definition effect_of (name : DirectiveName) (value : str)
    : EffectiveDirectives * DirectiveValue * option DirectiveError :=
  let d := EffectiveDirectives_default in
  let set_flags ni nf na ns nii :=
    {| noindex := ni; nofollow := nf; noarchive := na; nosnippet := ns; noimageindex := nii;
       max_snippet := None; unavailable_after_utc := None; invalid_unavailable_after := false;
       limit_exceeded := false |} in
  let set_snippet n :=
    {| noindex := false; nofollow := false; noarchive := false; nosnippet := false;
       noimageindex := false; max_snippet := n; unavailable_after_utc := None;
       invalid_unavailable_after := false; limit_exceeded := false |} in
  match name with
  | Noindex => flag_effect (set_flags true false false false false)
  | Nofollow => flag_effect (set_flags false true false false false)
  | Noarchive => flag_effect (set_flags false false true false false)
  | Nosnippet => flag_effect (set_flags false false false true false)
  | Noimageindex => flag_effect (set_flags false false false false true)
  | DNone => flag_effect (set_flags true true false false false)
  | MaxSnippet =>
      let value := trim value in
      if str_eqb value (lit "-1") then (d, SnippetLimit None, None)
      else if negb (is_empty value) && forallb is_ascii_digit value then
        match parse_u64 value with
        | Some limit => (set_snippet (Some limit), SnippetLimit (Some limit), None)
        | None => (set_snippet (Some 0), VInvalid, Some InvalidSnippet)
        end
      else (set_snippet (Some 0), VInvalid, Some InvalidSnippet)
  | UnavailableAfter =>
      match validate_unavailable_after_timezone (trim value) with
      | Some date =>
          ({| noindex := false; nofollow := false; noarchive := false; nosnippet := false;
              noimageindex := false; max_snippet := None; unavailable_after_utc := Some date;
              invalid_unavailable_after := false; limit_exceeded := false |}, Date date, None)
      | None =>
          ({| noindex := false; nofollow := false; noarchive := false; nosnippet := false;
              noimageindex := false; max_snippet := None; unavailable_after_utc := None;
              invalid_unavailable_after := true; limit_exceeded := false |},
           VInvalid, Some InvalidDate)
      end
  | All | Index | Follow | DInvalid | DUnknown _ => (d, Flag, None)
  end.

(** The agent scope of a header segment, and the segment without it. *)
Definition segment_scope (source : DirectiveSource) (applies : bool) (segment : str) : bool * str :=
  if bool_decide (source = Header) then
    match split_once ch_colon segment with
    | Some (prefix, rest) =>
        if safe_token (trim prefix) &&
           match directive_name (trim prefix) with DUnknown _ => true | _ => false end
        then (agent_applies (trim prefix), trim rest)
        else (applies, segment)
    | None => (applies, segment)
    end
  else (applies, segment).

Definition set_limit_exceeded (p : ParsedDirectives) : ParsedDirectives :=
  {| effective :=
       {| noindex := noindex (effective p); nofollow := nofollow (effective p);
          noarchive := noarchive (effective p); nosnippet := nosnippet (effective p);
          noimageindex := noimageindex (effective p); max_snippet := max_snippet (effective p);
          unavailable_after_utc := unavailable_after_utc (effective p);
          invalid_unavailable_after := invalid_unavailable_after (effective p);
          limit_exceeded := true |};
     seen := seen p; rights := rights p; no_store := no_store p |}.

(** One turn of the loop: the scope carried on, and the new state. *)
Definition parse_segment (source : DirectiveSource) (st : bool * ParsedDirectives) (segment : str)
    : bool * ParsedDirectives :=
  let '(applies, segment) := segment_scope source st.1 segment in
  let p := st.2 in
  let '(name, value) := default (segment, []) (split_once ch_colon segment) in
  let name := trim name in
  if negb (safe_token name) then (applies, p)
  else if (MAX_DIRECTIVES <? length (seen p) + 1)%nat then (applies, set_limit_exceeded p)
  else
    let name := directive_name name in
    let '(effect, parsed, error) := effect_of name value in
    (applies,
     {| effective := if applies then restrictive_merge (effective p) effect else effective p;
        seen := seen p ++ [{| obs_source := source; obs_name := name; obs_value := parsed;
                              obs_applies := applies; obs_error := error |}];
        rights := rights p; no_store := no_store p |}).
Definition parse_value (p : ParsedDirectives) (value : str) (source : DirectiveSource)
    : ParsedDirectives :=
  (foldl (parse_segment source) (true, p) (split_directives value)).2.

(** ** Headers and documents *)

Definition reservation (r : RightsSignals) (value : str) : RightsSignals :=
  let value := trim value in
  let value := if str_eqb value (lit "0") then NotReserved
               else if str_eqb value (lit "1") then TReserved else TInvalid in
  let merged := merge_reservation (tdm_reservation r) value in
  {| license_urls := license_urls r; license_present := license_present r;
     tdm_reservation := merged; tdm_policy_urls := tdm_policy_urls r;
     tdm_policy_present := tdm_policy_present r; header_source := header_source r;
     meta_source := meta_source r; link_source := link_source r;
     parse_errors := if bool_decide (merged = TInvalid)
                     then add_error (parse_errors r) InvalidReservation else parse_errors r |}.

Context `{U : UrlOps}.

Definition signal_url (base : url) (raw : str) : option str :=
  if is_empty raw || (8192 <? byte_len raw) || existsb (fun c => is_control c || is_whitespace c) raw
  then None
  else u ← url_join base raw;
       if negb (http_scheme u) || negb (bool_decide (is_Some (url_host_str u))) then None
       else Some (safe_url_for_record u).
Definition push_signal (urls : list str) (errors : list DirectiveError) (base : url) (value : str)
    : list str * list DirectiveError :=
  if (MAX_DIRECTIVES <=? length urls)%nat then (urls, add_error errors DirectiveLimit)
  else match signal_url base value with
       | Some u => (push_if_absent urls u, errors)
       | None => (urls, add_error errors InvalidSignalUrl)
       end.

(** Field updates of the rights. *)
Definition mark_header (r : RightsSignals) : RightsSignals :=
  {| license_urls := license_urls r; license_present := license_present r;
     tdm_reservation := tdm_reservation r; tdm_policy_urls := tdm_policy_urls r;
     tdm_policy_present := tdm_policy_present r; header_source := true;
     meta_source := meta_source r; link_source := link_source r; parse_errors := parse_errors r |}.
Definition mark_meta (r : RightsSignals) : RightsSignals :=
  {| license_urls := license_urls r; license_present := license_present r;
     tdm_reservation := tdm_reservation r; tdm_policy_urls := tdm_policy_urls r;
     tdm_policy_present := tdm_policy_present r; header_source := header_source r;
     meta_source := true; link_source := link_source r; parse_errors := parse_errors r |}.
Definition mark_link (r : RightsSignals) : RightsSignals :=
  {| license_urls := license_urls r; license_present := license_present r;
     tdm_reservation := tdm_reservation r; tdm_policy_urls := tdm_policy_urls r;
     tdm_policy_present := tdm_policy_present r; header_source := header_source r;
     meta_source := meta_source r; link_source := true; parse_errors := parse_errors r |}.
Definition with_error (e : DirectiveError) (r : RightsSignals) : RightsSignals :=
  {| license_urls := license_urls r; license_present := license_present r;
     tdm_reservation := tdm_reservation r; tdm_policy_urls := tdm_policy_urls r;
     tdm_policy_present := tdm_policy_present r; header_source := header_source r;
     meta_source := meta_source r; link_source := link_source r;
     parse_errors := add_error (parse_errors r) e |}.
Definition set_reserved (r : RightsSignals) : RightsSignals :=
  {| license_urls := license_urls r; license_present := license_present r;
     tdm_reservation := TReserved; tdm_policy_urls := tdm_policy_urls r;
     tdm_policy_present := tdm_policy_present r; header_source := header_source r;
     meta_source := meta_source r; link_source := link_source r; parse_errors := parse_errors r |}.
Definition set_policy_present (r : RightsSignals) : RightsSignals :=
  {| license_urls := license_urls r; license_present := license_present r;
     tdm_reservation := tdm_reservation r; tdm_policy_urls := tdm_policy_urls r;
     tdm_policy_present := true; header_source := header_source r;
     meta_source := meta_source r; link_source := link_source r; parse_errors := parse_errors r |}.
Definition push_policy (base : url) (value : str) (r : RightsSignals) : RightsSignals :=
  let '(urls, errors) := push_signal (tdm_policy_urls r) (parse_errors r) base value in
  {| license_urls := license_urls r; license_present := license_present r;
     tdm_reservation := tdm_reservation r; tdm_policy_urls := urls; tdm_policy_present := true;
     header_source := header_source r; meta_source := meta_source r; link_source := link_source r;
     parse_errors := errors |}.
Definition push_license (base : url) (value : str) (r : RightsSignals) : RightsSignals :=
  let '(urls, errors) := push_signal (license_urls r) (parse_errors r) base value in
  {| license_urls := urls; license_present := true;
     tdm_reservation := tdm_reservation r; tdm_policy_urls := tdm_policy_urls r;
     tdm_policy_present := tdm_policy_present r;
     header_source := header_source r; meta_source := meta_source r; link_source := link_source r;
     parse_errors := errors |}.

Definition no_store_header (headers : ResponseHeaders) : bool :=
  headers_invalid headers "cache-control" ||
  existsb (fun part => eq_ignore_ascii_case (trim (split_first (Z.eqb ch_eq) part)) (lit "no-store"))
    (concat (map (split ch_comma) (header_all headers "cache-control"))).

Definition invalid_header_observation : DirectiveObservation :=
  {| obs_source := Header; obs_name := DInvalid; obs_value := VInvalid; obs_applies := true;
     obs_error := Some InvalidHeaderBytes |}.

(** The rights part of [parse_headers]. *)
Definition header_rights (headers : ResponseHeaders) (final_url : url) : RightsSignals :=
  let r := foldl (fun r value => reservation (mark_header r) value) RightsSignals_default
             (header_all headers "tdm-reservation") in
  let r := if headers_invalid headers "tdm-reservation"
           then with_error InvalidHeaderBytes (set_reserved (mark_header r)) else r in
  let r := if headers_invalid headers "tdm-policy"
           then with_error InvalidHeaderBytes (set_policy_present (mark_header r)) else r in
  foldl (fun r value => push_policy final_url (trim value) (mark_header r)) r
    (header_all headers "tdm-policy").

Definition parse_headers (headers : ResponseHeaders) (final_url : url) : ParsedDirectives :=
  let start :=
    if headers_invalid headers "x-robots-tag" then
      {| effective :=
           {| noindex := true; nofollow := true; noarchive := false; nosnippet := false;
              noimageindex := false; max_snippet := None; unavailable_after_utc := None;
              invalid_unavailable_after := false; limit_exceeded := false |};
         seen := [invalid_header_observation]; rights := RightsSignals_default; no_store := false |}
    else ParsedDirectives_default in
  let p := foldl (fun p value => parse_value p value Header) start (header_all headers "x-robots-tag") in
  {| effective := effective p; seen := seen p; rights := header_rights headers final_url;
     no_store := no_store_header headers |}.

(** An element of the parsed document. *)
Record Element := { tag_name : str; attributes : list (str * str) }.
Definition attr (e : Element) (name : string) : option str :=
  snd <$> List.find (fun a => str_eqb (fst a) (lit name)) (attributes e).
Definition select_meta (root : list Element) : list Element :=
  List.filter (fun e => str_eqb (tag_name e) (lit "meta")) root.
Definition select_rel (root : list Element) : list Element :=
  List.filter (fun e => one_of (tag_name e) ["link"; "a"; "area"]%string &&
                        bool_decide (is_Some (attr e "rel"))) root.

Definition parse_meta_element (p : ParsedDirectives) (e : Element) : ParsedDirectives :=
  match attr e "name" with
  | None => p
  | Some name =>
      let source := if eq_ignore_ascii_case name (lit "robots") then Some MetaRobots
                    else if eq_ignore_ascii_case name (lit "AVASearchBot") then Some MetaBot else None in
      match source, attr e "content" with
      | Some source, Some value => parse_value p value source
      | _, _ => p
      end
  end.
Definition parse_meta_into (root : list Element) (p : ParsedDirectives) : ParsedDirectives :=
  foldl parse_meta_element p (select_meta root).
Definition parse_meta (root : list Element) : ParsedDirectives :=
  parse_meta_into root ParsedDirectives_default.

Definition meta_rights (final_url : url) (r : RightsSignals) (e : Element) : RightsSignals :=
  match attr e "name" with
  | None => r
  | Some name =>
      let value := default [] (attr e "content") in
      let r := if eq_ignore_ascii_case name (lit "tdm-reservation")
               then reservation (mark_meta r) value else r in
      if eq_ignore_ascii_case name (lit "tdm-policy")
      then push_policy final_url value (mark_meta r) else r
  end.
Definition rel_token (final_url : url) (value : str) (r : RightsSignals) (token : str) : RightsSignals :=
  let r := if eq_ignore_ascii_case token (lit "license")
           then push_license final_url value (mark_link r) else r in
  if eq_ignore_ascii_case token (lit "tdm-policy")
  then push_policy final_url value (mark_link r) else r.
Definition rel_rights (final_url : url) (r : RightsSignals) (e : Element) : RightsSignals :=
  foldl (rel_token final_url (default [] (attr e "href"))) r
    (split_ascii_whitespace (default [] (attr e "rel"))).
Definition parse_document (root : list Element) (headers : ResponseHeaders) (final_url : url)
    : ParsedDirectives :=
  let p := parse_meta_into root (parse_headers headers final_url) in
  let r := foldl (meta_rights final_url) (rights p) (select_meta root) in
  let r := foldl (rel_rights final_url) r (select_rel root) in
  {| effective := effective p; seen := seen p; rights := r; no_store := no_store p |}.
End Parse.
Arguments attr e name%_string.

Definition snippet_limit (d : EffectiveDirectives) (local_limit : Z) (news paywall permission : bool) : Z :=
  if nosnippet d || limit_exceeded d || ((news || paywall) && negb permission) then 0
  else Z.min (Z.min local_limit 300) (default u64_max (max_snippet d)).

(** ** Restrictiveness is an order *)

Definition cap_le (a b : option Z) : Prop :=
  match a, b with
  | None, _ => True
  | Some x, Some y => y <= x
  | Some _, None => False
  end.
Definition flag_le (a b : bool) : Prop := a = true -> b = true.

#[export] Instance cap_le_preorder : PreOrder cap_le.
Proof. split; [intros [x|]; cbn; lia|intros [x|] [y|] [z|]; cbn; lia || tauto]. Qed.
#[export] Instance flag_le_preorder : PreOrder flag_le.
Proof. split; unfold flag_le; [by intros ?|intros ???; tauto]. Qed.

(** [b] restricts at least as much as [a]. *)
Record restricts (a b : EffectiveDirectives) : Prop := {
  r_noindex : flag_le (noindex a) (noindex b);
  r_nofollow : flag_le (nofollow a) (nofollow b);
  r_noarchive : flag_le (noarchive a) (noarchive b);
  r_nosnippet : flag_le (nosnippet a) (nosnippet b);
  r_noimageindex : flag_le (noimageindex a) (noimageindex b);
  r_max_snippet : cap_le (max_snippet a) (max_snippet b);
  r_unavailable : cap_le (unavailable_after_utc a) (unavailable_after_utc b);
  r_invalid : flag_le (invalid_unavailable_after a) (invalid_unavailable_after b);
  r_limit : flag_le (limit_exceeded a) (limit_exceeded b);
}.
#[export] Instance restricts_preorder : PreOrder restricts.
Proof.
  split.
  - intros a. by split.
  - intros a b c [] []. split; by etransitivity.
Qed.

Lemma flag_le_l a b : flag_le a (a || b).
Proof. intros ->. done. Qed.
Lemma flag_le_r a b : flag_le b (a || b).
Proof. intros ->. apply orb_true_r. Qed.
Lemma flag_le_lub a b c : flag_le a c -> flag_le b c -> flag_le (a || b) c.
Proof. unfold flag_le. destruct a, b; naive_solver. Qed.
Lemma cap_le_l a b : cap_le a (minimum a b).
Proof. destruct a, b; cbn; lia || done. Qed.
Lemma cap_le_r a b : cap_le b (minimum a b).
Proof. destruct a, b; cbn; lia || done. Qed.
Lemma cap_le_lub a b c : cap_le a c -> cap_le b c -> cap_le (minimum a b) c.
Proof. destruct a, b, c; cbn; lia || done. Qed.
#[export] Hint Resolve flag_le_l flag_le_r flag_le_lub cap_le_l cap_le_r cap_le_lub : agentic.

Lemma merge_restricts_l a b : restricts a (restrictive_merge a b).
Proof. split; cbn; auto with agentic. Qed.
Lemma merge_restricts_r a b : restricts b (restrictive_merge a b).
Proof. split; cbn; auto with agentic. Qed.
Lemma merge_lub a b c : restricts a c -> restricts b c -> restricts (restrictive_merge a b) c.
Proof. intros [] []. split; cbn; auto with agentic. Qed.

#[export] Instance restrictive_merge_proper :
  Proper (restricts ==> restricts ==> restricts) restrictive_merge.
Proof.
  intros a a' Ha b b' Hb. apply merge_lub.
  - rewrite Ha. apply merge_restricts_l.
  - rewrite Hb. apply merge_restricts_r.
Qed.

Lemma index_eligible_antitone a b now :
  restricts a b -> index_eligible b now = true -> index_eligible a now = true.
Proof.
  intros [Hn _ _ _ _ _ Hu Hi Hl]. unfold index_eligible, flag_le in *. intros H. bool_to_prop.
  rewrite !andb_true_iff, !negb_true_iff. split_and!;
    try (apply not_true_iff_false; intros Ht; naive_solver congruence).
  destruct (unavailable_after_utc a) as [x|], (unavailable_after_utc b) as [y|]; cbn in Hu; try done.
  bool_to_prop. apply Z.ltb_lt. lia.
Qed.

(** Publisher caps are unsigned. *)
Definition caps_ok (d : EffectiveDirectives) : Prop :=
  match max_snippet d with Some n => 0 <= n | None => True end.

Lemma snippet_limit_antitone a b local news paywall permission :
  0 <= local -> caps_ok a -> restricts a b ->
  snippet_limit b local news paywall permission <= snippet_limit a local news paywall permission.
Proof.
  intros Hl Hc Hr. destruct Hr as [_ _ _ Hs _ Hm _ _ Hlim]. unfold snippet_limit, caps_ok, flag_le in *.
  set (paid := (news || paywall) && negb permission).
  destruct (nosnippet a); [rewrite Hs by done; done|].
  destruct (limit_exceeded a); [rewrite Hlim, orb_true_r by done; done|].
  destruct paid; [rewrite !orb_true_r; done|]. cbn [orb].
  destruct (nosnippet b || limit_exceeded b); cbn [orb].
  - destruct (max_snippet a); cbn [default id]; unfold u64_max; lia.
  - destruct (max_snippet a), (max_snippet b); cbn [default id cap_le] in *; unfold u64_max; lia || done.
Qed.

(** ** Parsing only adds restrictions *)

Section Claims.
Context `{C : Chrono} `{U : UrlOps}.

Lemma effect_of_caps name value : caps_ok (effect_of name value).1.1.
Proof.
  unfold effect_of, caps_ok, flag_effect. destruct name; cbn; try done.
  - repeat case_match; simplify_eq; cbn in *; simplify_eq; try done; try lia. by eapply parse_u64_nonneg.
  - by destruct (validate_unavailable_after_timezone _).
Qed.

Lemma merge_caps a b : caps_ok a -> caps_ok b -> caps_ok (restrictive_merge a b).
Proof. unfold caps_ok. cbn. destruct (max_snippet a), (max_snippet b); cbn; lia || done. Qed.

(** What one directive does: it restricts, and keeps the observations bounded. *)
Definition extends (p q : ParsedDirectives) : Prop :=
  restricts (effective p) (effective q) /\ (caps_ok (effective p) -> caps_ok (effective q)) /\
  ((length (seen p) <= MAX_DIRECTIVES)%nat -> (length (seen q) <= MAX_DIRECTIVES)%nat) /\
  rights q = rights p.
#[local] Instance extends_preorder : PreOrder extends.
Proof.
  split; [by intros p; repeat split|].
  intros p q r (? & ? & ? & ?) (? & ? & ? & ?). split_and!; [by etransitivity|auto|auto|congruence].
Qed.

Lemma set_limit_extends p : extends p (set_limit_exceeded p).
Proof. split_and!; try done; by split. Qed.

Lemma parse_segment_extends source st segment : extends st.2 (parse_segment source st segment).2.
Proof.
  destruct st as [applies p]. unfold parse_segment. destruct (segment_scope _ _ _) as [applies' seg].
  cbn [snd]. destruct (default _ _) as [name value]. destruct (negb _); [done|].
  destruct (Nat.ltb_spec MAX_DIRECTIVES (length (seen p) + 1)); [apply set_limit_extends|].
  pose proof (effect_of_caps (directive_name (trim name)) value) as Hcaps.
  destruct (effect_of _ _) as [[effect parsed] error]. cbn in *. split_and!; try done.
  - destruct applies'; [apply merge_restricts_l|done].
  - intros Hp. destruct applies'; [by apply merge_caps|done].
  - cbn. rewrite length_app. cbn. lia.
Qed.

Lemma parse_value_extends p value source : extends p (parse_value p value source).
Proof.
  unfold parse_value. change p with (true, p).2 at 1. generalize (true, p) as st.
  induction (split_directives value) as [|seg segs IH]; intros st; [done|]. cbn [foldl].
  etransitivity; [apply parse_segment_extends|apply IH].
Qed.

Lemma foldl_extends {A} (f : ParsedDirectives -> A -> ParsedDirectives) l p :
  (forall p x, extends p (f p x)) -> extends p (foldl f p l).
Proof.
  intros Hf. revert p. induction l as [|x l IH]; intros p; [done|]. cbn.
  etransitivity; [apply Hf|apply IH].
Qed.

Lemma parse_meta_extends root p : extends p (parse_meta_into root p).
Proof.
  apply foldl_extends. intros q e. unfold parse_meta_element. repeat case_match;
    first [apply parse_value_extends | reflexivity].
Qed.

Lemma parse_headers_caps headers u : caps_ok (effective (parse_headers headers u)).
Proof.
  unfold parse_headers. cbn. apply foldl_extends; [intros; apply parse_value_extends|]. by case_match.
Qed.

Lemma parse_document_extends root headers u :
  restricts (effective (parse_headers headers u)) (effective (parse_document root headers u)).
Proof. exact (proj1 (parse_meta_extends root (parse_headers headers u))). Qed.

(** C35: HTML metadata can only restrict what the headers left open: whatever the
    document declares, it never becomes indexable when the headers forbid it,
    never regains link following, archiving, image indexing or a longer snippet,
    and an undecodable robots header keeps it out of the index altogether. *)
Theorem metadata_only_restricts root headers u now local news paywall permission :
  0 <= local ->
  let h := effective (parse_headers headers u) in
  let d := effective (parse_document root headers u) in
  (index_eligible d now = true -> index_eligible h now = true) /\
  snippet_limit d local news paywall permission <= snippet_limit h local news paywall permission /\
  (nofollow h = true -> nofollow d = true) /\ (noarchive h = true -> noarchive d = true) /\
  (noimageindex h = true -> noimageindex d = true) /\
  (headers_invalid headers "x-robots-tag" = true -> index_eligible d now = false /\ nofollow d = true).
Proof.
  intros Hl h d. pose proof (parse_document_extends root headers u) as Hr. fold h d in Hr.
  split_and!; try apply Hr.
  - by apply index_eligible_antitone.
  - apply snippet_limit_antitone; [done|apply parse_headers_caps|done].
  - intros Hinv.
    assert (noindex h = true /\ nofollow h = true) as [Hn Hf].
    { unfold h, parse_headers. cbn. rewrite Hinv.
      match goal with |- context [foldl ?f ?s ?l] =>
        destruct (foldl_extends f l s (fun p x => parse_value_extends p x Header)) as [Hx _] end.
      split; by apply Hx. }
    split; [|by apply Hr]. unfold index_eligible. by rewrite (r_noindex _ _ Hr Hn).
Qed.

(** ** Merging *)

Lemma minimum_comm a b : minimum a b = minimum b a.
Proof. destruct a, b; cbn; f_equal; lia. Qed.
Lemma minimum_assoc a b c : minimum a (minimum b c) = minimum (minimum a b) c.
Proof. destruct a, b, c; cbn; f_equal; lia. Qed.
Lemma minimum_idem a : minimum a a = a.
Proof. destruct a; cbn; f_equal; lia. Qed.

(** combining sources is a join: their order, grouping and repetition do not
    matter, the empty source adds nothing, and a document is indexable under
    the combination exactly when it is under every source. *)
Theorem merge_is_a_join a b c now :
  restrictive_merge a b = restrictive_merge b a /\
  restrictive_merge a (restrictive_merge b c) = restrictive_merge (restrictive_merge a b) c /\
  restrictive_merge a a = a /\
  restrictive_merge EffectiveDirectives_default a = a /\
  index_eligible (restrictive_merge a b) now = index_eligible a now && index_eligible b now.
Proof.
  split_and!.
  - unfold restrictive_merge. f_equal; auto using orb_comm, minimum_comm.
  - unfold restrictive_merge. cbn. f_equal; auto using orb_assoc, minimum_assoc.
  - destruct a. unfold restrictive_merge. cbn. f_equal; auto using orb_diag, minimum_idem.
  - by destruct a.
  - unfold index_eligible. cbn.
    destruct (noindex a), (noindex b), (invalid_unavailable_after a), (invalid_unavailable_after b),
      (limit_exceeded a), (limit_exceeded b); cbn; rewrite ?andb_false_r; try done.
    destruct (unavailable_after_utc a) as [x|], (unavailable_after_utc b) as [y|]; cbn;
      rewrite ?andb_true_r; try done. lia.
Qed.

(** ** Prohibitions are found *)

(** The name a meta segment carries. *)
Definition segment_name (segment : str) : str :=
  trim (default (segment, []) (split_once ch_colon segment)).1.

Lemma parse_segment_ineligible source st segment now :
  source <> Header -> st.1 = true -> safe_token (segment_name segment) = true ->
  directive_name (segment_name segment) = Noindex \/ directive_name (segment_name segment) = DNone ->
  index_eligible (effective (parse_segment source st segment).2) now = false.
Proof.
  intros Hsrc Hap Hsafe Hname. destruct st as [applies p]; cbn in Hap; subst applies.
  unfold parse_segment, segment_scope. rewrite bool_decide_eq_false_2 by done. cbn [fst snd].
  unfold segment_name in *. destruct (default _ _) as [name value]. cbn [fst] in *. rewrite Hsafe. cbn [negb].
  destruct (Nat.ltb _ _).
  - unfold index_eligible. cbn. by rewrite andb_false_r.
  - destruct Hname as [-> | ->]; unfold index_eligible; cbn; by rewrite orb_true_r.
Qed.

Lemma parse_segment_scope source st segment :
  source <> Header -> (parse_segment source st segment).1 = st.1.
Proof.
  intros Hsrc. unfold parse_segment, segment_scope. rewrite bool_decide_eq_false_2 by done.
  destruct (default _ _). repeat case_match; simplify_eq; done.
Qed.

(** A robots meta element with a noindex or none directive anywhere in its
    value makes the document ineligible, whatever precedes or follows it, in
    this or in other elements, and also when the observation limit is reached. *)
Theorem meta_noindex_is_honoured p value source segment now :
  source <> Header -> segment ∈ split_directives value -> safe_token (segment_name segment) = true ->
  directive_name (segment_name segment) = Noindex \/ directive_name (segment_name segment) = DNone ->
  index_eligible (effective (parse_value p value source)) now = false.
Proof.
  intros Hsrc Hin Hsafe Hname. unfold parse_value.
  apply list_elem_of_split in Hin as (before & after & ->). rewrite foldl_app. cbn [foldl].
  set (st := foldl (parse_segment source) (true, p) before).
  assert (st.1 = true) as Hst.
  { unfold st. change true with (true, p).1 at 2. generalize (true, p) as s0.
    induction before as [|seg segs IH]; intros s0; [done|]. cbn [foldl]. rewrite IH.
    by apply parse_segment_scope. }
  pose proof (parse_segment_ineligible source st segment now Hsrc Hst Hsafe Hname) as Hno.
  apply not_true_iff_false in Hno. apply not_true_iff_false. intros Hel. apply Hno. clear Hno.
  revert Hel. apply index_eligible_antitone. generalize (parse_segment source st segment) as s1.
  induction after as [|seg segs IH]; intros s1; [done|]. cbn [foldl].
  etransitivity; [apply parse_segment_extends|apply IH].
Qed.

(** ** Rights signals *)

Definition rights_bounded (r : RightsSignals) : Prop :=
  (length (license_urls r) <= MAX_DIRECTIVES)%nat /\ (length (tdm_policy_urls r) <= MAX_DIRECTIVES)%nat.
Definition rights_ext (r r' : RightsSignals) : Prop :=
  flag_le (index_only r) (index_only r') /\ (rights_bounded r -> rights_bounded r').
#[local] Instance rights_ext_preorder : PreOrder rights_ext.
Proof.
  split; [by intros r|]. intros r r' r'' [H1 H2] [H3 H4]. split; [by etransitivity|auto].
Qed.

Definition reserved (t : TdmReservation) : bool := match t with TReserved | TInvalid => true | _ => false end.
Lemma merge_reservation_reserved a b :
  reserved (merge_reservation a b) = reserved a || reserved b.
Proof. by destruct a, b. Qed.
Lemma index_only_reserved r :
  index_only r = license_present r || tdm_policy_present r || reserved (tdm_reservation r).
Proof. done. Qed.

Lemma push_if_absent_length {A} `{EqDecision A} (l : list A) x :
  (length (push_if_absent l x) <= length l + 1)%nat.
Proof. unfold push_if_absent. case_bool_decide; rewrite ?length_app; cbn; lia. Qed.
Lemma push_signal_length urls errors base value :
  (length urls <= MAX_DIRECTIVES)%nat -> (length (push_signal urls errors base value).1 <= MAX_DIRECTIVES)%nat.
Proof.
  intros Hl. unfold push_signal. destruct (Nat.leb_spec MAX_DIRECTIVES (length urls)); [done|].
  destruct (signal_url base value) as [x|]; cbn; [|done].
  pose proof (push_if_absent_length urls x). lia.
Qed.

Lemma reservation_ext r value : rights_ext r (reservation r value).
Proof.
  split; [|done]. rewrite !index_only_reserved. unfold reservation. cbn.
  rewrite merge_reservation_reserved. intros H. rewrite orb_assoc, H. done.
Qed.
Lemma push_policy_ext base value r : rights_ext r (push_policy base value r).
Proof.
  unfold push_policy.
  pose proof (push_signal_length (tdm_policy_urls r) (parse_errors r) base value) as Hl.
  destruct (push_signal _ _ _ _) as [urls errors]. cbn in Hl. split.
  - intros _. unfold index_only. cbn. by rewrite orb_true_r.
  - intros [H1 H2]. split; cbn; auto.
Qed.
Lemma push_license_ext base value r : rights_ext r (push_license base value r).
Proof.
  unfold push_license.
  pose proof (push_signal_length (license_urls r) (parse_errors r) base value) as Hl.
  destruct (push_signal _ _ _ _) as [urls errors]. cbn in Hl. split; [by intros _|].
  intros [H1 H2]. split; cbn; auto.
Qed.

Lemma foldl_rights_ext {A} (f : RightsSignals -> A -> RightsSignals) l r :
  (forall r x, rights_ext r (f r x)) -> rights_ext r (foldl f r l).
Proof.
  intros Hf. revert r. induction l as [|x l IH]; intros r; [done|]. cbn.
  etransitivity; [apply Hf|apply IH].
Qed.

Lemma meta_rights_ext u r e : rights_ext r (meta_rights u r e).
Proof.
  unfold meta_rights. destruct (attr e "name") as [name|]; [|done].
  etransitivity; [|destruct (eq_ignore_ascii_case name (lit "tdm-policy"));
    [etransitivity; [|apply push_policy_ext]; done|done]].
  destruct (eq_ignore_ascii_case name _); [|done]. etransitivity; [|apply reservation_ext]. done.
Qed.
Lemma rel_rights_ext u r e : rights_ext r (rel_rights u r e).
Proof.
  apply foldl_rights_ext. intros r' token. unfold rel_token.
  etransitivity; [|destruct (eq_ignore_ascii_case token (lit "tdm-policy"));
    [etransitivity; [|apply push_policy_ext]; done|done]].
  destruct (eq_ignore_ascii_case token _); [|done]. etransitivity; [|apply push_license_ext]. done.
Qed.

Lemma header_rights_bounded headers u : rights_bounded (header_rights headers u).
Proof.
  unfold header_rights. apply foldl_rights_ext.
  { intros r x. etransitivity; [|apply push_policy_ext]. done. }
  set (r0 := foldl _ _ _).
  assert (rights_bounded r0) as H0.
  { apply foldl_rights_ext; [|split; cbn; lia].
    intros r x. etransitivity; [|apply reservation_ext]. done. }
  destruct (headers_invalid headers "tdm-policy"), (headers_invalid headers "tdm-reservation"); exact H0.
Qed.

(** no page can make the record of its directives grow past 256 observations
    or 256 URLs of a kind, and no element of a document takes back a licence,
    policy or reservation signal that the headers declared: an index-only
    response stays index-only. *)
Theorem observations_bounded root headers u :
  let p := parse_document root headers u in
  (length (seen p) <= MAX_DIRECTIVES)%nat /\
  (length (license_urls (rights p)) <= MAX_DIRECTIVES)%nat /\
  (length (tdm_policy_urls (rights p)) <= MAX_DIRECTIVES)%nat /\
  (index_only (rights (parse_headers headers u)) = true -> index_only (rights p) = true).
Proof.
  intros p.
  assert (length (seen (parse_headers headers u)) <= MAX_DIRECTIVES)%nat as Hseen.
  { unfold parse_headers. cbn [seen]. apply foldl_extends; [intros; apply parse_value_extends|].
    unfold MAX_DIRECTIVES. destruct (headers_invalid _ _); cbn; lia. }
  destruct (parse_meta_extends root (parse_headers headers u)) as (_ & _ & Hmeta & Hrights).
  assert (rights_ext (rights (parse_headers headers u)) (rights p)) as [Hio Hb].
  { unfold p, parse_document. cbn [rights]. rewrite Hrights.
    etransitivity; [apply (foldl_rights_ext (meta_rights u)), meta_rights_ext|].
    apply (foldl_rights_ext (rel_rights u)), rel_rights_ext. }
  destruct (Hb (header_rights_bounded headers u)). by split_and!; [apply Hmeta| | |].
Qed.
End Claims.

(** merging the rights of an earlier response, as a 304 requires, keeps the
    strictest handling of either side and the URL lists bounded. *)
Theorem rights_merge_keeps_restrictions a b :
  index_only (rights_merge a b) = index_only a || index_only b /\
  (length (license_urls (rights_merge a b)) <= MAX_DIRECTIVES)%nat /\
  (length (tdm_policy_urls (rights_merge a b)) <= MAX_DIRECTIVES)%nat.
Proof.
  split_and!.
  - rewrite !index_only_reserved. cbn. rewrite merge_reservation_reserved.
    by destruct (license_present a), (license_present b), (tdm_policy_present a), (tdm_policy_present b),
      (reserved (tdm_reservation a)), (reserved (tdm_reservation b)).
  - cbn [license_urls rights_merge]. destruct (_ || _) eqn:Ho; [rewrite length_take; lia|].
    apply orb_false_iff in Ho as [H _]. by apply Nat.ltb_ge in H.
  - cbn [tdm_policy_urls rights_merge]. destruct (_ || _) eqn:Ho; [rewrite length_take; lia|].
    apply orb_false_iff in Ho as [_ H]. by apply Nat.ltb_ge in H.
Qed.

(** ** Concrete headers *)

Module DirectiveExamples.
Import UrlReference ChronoReference NetworkExamples.

Definition robots_tag (value : string) : ResponseHeaders :=
  header_observe ∅ (lit "X-Robots-Tag") (Some (lit value)).

Lemma metadata_only_restricts_witness :
  let h := effective (parse_headers (robots_tag "noarchive, noindex") page) in
  let d := effective (parse_document
    [{| tag_name := lit "meta";
        attributes := [(lit "name", lit "robots"); (lit "content", lit "all, index")] |}]
    (robots_tag "noarchive, noindex") page) in
  index_eligible h 0 = false /\ index_eligible d 0 = false.
Proof.
  intros h d. assert (index_eligible h 0 = false) as Hh by (vm_compute; reflexivity).
  split; [exact Hh|]. apply not_true_iff_false. intros Hd. apply not_true_iff_false in Hh. apply Hh.
  revert Hd. refine (proj1 (metadata_only_restricts _ (robots_tag "noarchive, noindex") page 0 0
    false false false _)). discriminate.
Defined.

Lemma meta_noindex_is_honoured_witness :
  index_eligible (effective (parse_value ParsedDirectives_default (lit "follow, NoIndex") MetaRobots)) 0
    = false.
Proof.
  apply (meta_noindex_is_honoured _ _ _ (lit "NoIndex")).
  - discriminate.
  - vm_compute. right. left.
  - vm_compute. reflexivity.
  - left. vm_compute. reflexivity.
Defined.

(** A directive the crawler does not know and that carries a value is taken for
    an agent scope: every directive after it in the same header is ignored. *)
Lemma unknown_valued_directive_hides_noindex :
  index_eligible (effective (parse_headers (robots_tag "max-image-preview: large, noindex") page)) 0
    = true /\
  index_eligible (effective (parse_headers (robots_tag "noindex, max-image-preview: large") page)) 0
    = false.
Proof. split; vm_compute; reflexivity. Qed.
End DirectiveExamples.
