(* ===== verification/RobotsManager.v ===== *)
(** * The robots manager ([crawler/robots_txt.rs])

    Resolution of robots.txt per origin: the redirect chain of a refresh, the
    parse of the received body, the cache with its failure retry, and the
    decision for one URL. The network is the outcome of each of its calls. *)

From Stdlib Require Import SpecFloat.
From S2P Require Import Prelude Text Externals Floats RobotsPattern RobotsTxt CrawlerBase Policy HostState Network Exclusions.

#[local] Open Scope Z_scope.

Definition ROBOTS_BODY_LIMIT : Z := 512000.

(** ** Data *)

Inductive RobotsDecision :=
| AllowRule | DisallowRule | AllowAllUnavailable | DisallowUnreachable | Bootstrap.
#[export] Instance RobotsDecision_eq_dec : EqDecision RobotsDecision.
Proof. solve_decision. Defined.
Inductive RobotsBodyState := Received | NotReceived.

(** [record.rs] *)
Inductive AbsenceReason :=
| NotAttempted | NoResponse | IncompleteBody | NotDeclared | InvalidDeclaration | InvalidInput
| NotParsed | NotApplicable.
Inductive Observation (A : Type) := Present (a : A) | Absent (reason : AbsenceReason).
Arguments Present {A} a.
Arguments Absent {A} reason.

Record RobotsSnapshot := {
  snapshot_origin : str;
  fetched_at_utc : Z;
  expires_at_utc : Z;
  http_status : Observation Z;
  body_sha256 : Observation str;
  body_state : RobotsBodyState;
  decision : RobotsDecision;
  matched_rule_kind : str;
  matched_rule_sha256 : option str;
  crawl_delay_ms : option Z;
  failure_code : option str;
}.
Record Cached := {
  parsed : option Robots;
  selected : str;
  snapshot : RobotsSnapshot;
  cached_ticks : Z;
  ttl_ms : Z;
}.
Definition expired (c : Cached) (now : Z) : bool :=
  ttl_ms c <=? u64_saturating_sub now (cached_ticks c).

(** The cells per origin. *)
Abbreviation Manager := (gmap str (option Cached)).

(** A completed response: its body may still fail to arrive. *)
Record Response := { status : Z; headers : ResponseHeaders; body : res (list Z) }.

(** ** Text of a robots body *)

Definition agent_token : str := lit "avasearchbot".
Definition agent_name : str := lit "AVASearchBot".

Definition Group : Type := list str * list str.
Record Selection := {
  groups : list Group;
  current : Group;
  has_rule : bool;
  sitemap_lines : list str;
}.
Definition Selection_start : Selection :=
  {| groups := []; current := ([], []); has_rule := false; sitemap_lines := [] |}.

Definition select_line (st : Selection) (raw : str) : Selection :=
  let line := trim (split_first (Z.eqb ch_hash) raw) in
  match split_once ch_colon line with
  | None => st
  | Some (name, value) =>
      let name := to_ascii_lowercase (trim name) in
      if str_eqb name (lit "user-agent") then
        let st := if has_rule st
                  then {| groups := groups st ++ [current st]; current := ([], []);
                          has_rule := false; sitemap_lines := sitemap_lines st |}
                  else st in
        let agents := map to_ascii_lowercase
          (List.filter (fun s => negb (is_empty s)) (split_by (one_char_of [ch_comma; 32; 9]) value)) in
        {| groups := groups st; current := ((current st).1 ++ agents, (current st).2);
           has_rule := has_rule st; sitemap_lines := sitemap_lines st |}
      else if str_eqb name (lit "sitemap") then
        {| groups := groups st; current := current st; has_rule := has_rule st;
           sitemap_lines := sitemap_lines st ++ [line] |}
      else if one_of name ["allow"; "disallow"; "crawl-delay"]%string then
        {| groups := groups st; current := ((current st).1, (current st).2 ++ [line]);
           has_rule := true; sitemap_lines := sitemap_lines st |}
      else st
  end.
Definition all_groups (body : str) : list Group :=
  let st := foldl select_line Selection_start (lines body) in groups st ++ [current st].
Definition names_token (token : str) (g : Group) : bool := existsb (fun a => str_eqb a token) g.1.
Definition selected_token (gs : list Group) : str :=
  if existsb (names_token agent_token) gs then agent_token else lit "*".
Definition group_selected (token : str) (g : Group) : bool := is_empty g.1 || names_token token g.
Definition with_newlines (ls : list str) : str := concat (map (fun l => l ++ [ch_lf]) ls).
Definition select_exact_groups (body : str) : str :=
  let gs := all_groups body in
  let token := selected_token gs in
  lit "User-agent: AVASearchBot" ++ [ch_lf] ++
  concat (map (fun g => if group_selected token g then with_newlines g.2 else []) gs) ++
  with_newlines (sitemap_lines (foldl select_line Selection_start (lines body))).

(** [seconds * 1000.0], rounded up, refused when it is not a [u64]. *)
Definition delay_millis (seconds : float) : res Z :=
  let ms := f64_mul seconds f64_1000 in
  _ ← refuse_if (negb (is_finite seconds) || negb (ge_zero seconds) ||
                 negb (is_finite ms) || (2 ^ 64 <=? ceil_Z ms)) RobotsUnreachable;
  Ok (ceil_Z ms).
Definition declared_delay (delay : option Z) (line : str) : res (option Z) :=
  match split_once ch_colon line with
  | None => Ok delay
  | Some (name, value) =>
      if negb (eq_ignore_ascii_case (trim name) (lit "crawl-delay")) then Ok delay
      else
        seconds ← ok_or (parse_f64 (trim value)) RobotsUnreachable;
        ms ← delay_millis seconds;
        Ok (opt_max delay (Some ms))
  end.
Definition validate_declared_delays (selected : str) : res (option Z) :=
  try_fold declared_delay None (lines selected).

Definition failure_code_of (e : Error) : str :=
  match e with
  | Timeout => lit "timeout"
  | TlsError => lit "tls"
  | ConnectError => lit "connect"
  | ContentTooLarge => lit "body-too-large"
  | HostBlocked => lit "host-blocked"
  | RefusedPrivateAddress => lit "private-address"
  | _ => lit "transport-failed"
  end.

(** ** Conservative paths *)

(** The loop that drops a slash after a slash. *)
Fixpoint collapse (slash : bool) (s : str) : str :=
  match s with
  | [] => []
  | c :: s' =>
      let rest := collapse (c =? ch_slash) s' in
      if negb (c =? ch_slash) || negb slash then c :: rest else rest
  end.

Definition dot_segment (segments : list str) (segment : str) : res (list str) :=
  if one_of segment [""; "."]%string then Ok segments
  else if str_eqb segment (lit "..") then
    match rev segments with
    | [] => Err InvalidUrl
    | _ :: r => Ok (rev r)
    end
  else Ok (segments ++ [segment]).
Definition remove_dot_segments (path : str) : res str :=
  segments ← try_fold dot_segment [] (split ch_slash path);
  let resolved := lit "/" ++ join (lit "/") segments in
  if negb (str_eqb resolved (lit "/")) &&
     (ends_with (lit "/") path || ends_with (lit "/.") path || ends_with (lit "/..") path)
  then Ok (resolved ++ lit "/") else Ok resolved.

Section Manager.
Context `{N : Nom} `{P : PercentEncoding} `{U : UrlOps} `{D : Digest} `{C : Chrono}.

Definition sha256_hex (bytes : list Z) : str := concat (map encode_byte (digest_sha256 bytes)).

Definition conservative_url (u : url) : res url :=
  path ← ok_or (percent_decode_utf8 (url_path u)) InvalidUrl;
  clean ← remove_dot_segments (collapse false path);
  Ok (url_set_path u clean).

(** [matching_rule]: the candidates in order, [None] on an early return. *)
Fixpoint rule_matches (ls : list str) (u : url) : option (list (Z * str * str)) :=
  match ls with
  | [] => Some []
  | line :: ls' =>
      '(name, pattern) ← split_once ch_colon line;
      let name := to_ascii_lowercase (trim name) in
      let pattern := trim pattern in
      if negb (one_of name ["allow"; "disallow"]%string) || is_empty pattern then rule_matches ls' u
      else
        single ← ok (RobotsTxt.parse agent_name
                       (lit "User-agent: AVASearchBot" ++ [ch_lf] ++ lit "Disallow: " ++ pattern));
        rest ← rule_matches ls' u;
        if negb (is_allowed_strict single u) then Some ((byte_len pattern, name, pattern) :: rest)
        else Some rest
  end.
Definition match_cmp (a b : Z * str * str) : comparison :=
  match b.1.1 ?= a.1.1 with Eq => str_cmp a.1.2 b.1.2 | order => order end.
Definition matching_rule (selected : str) (u : url) : option (str * str) :=
  matches ← rule_matches (lines selected) u;
  match stable_sort match_cmp matches with
  | (_, kind, pattern) :: _ => Some (kind, sha256_hex (as_bytes pattern))
  | [] => None
  end.

(** ** Snapshots *)

Definition pending (origin : url) (now : Z) : RobotsSnapshot := {|
  snapshot_origin := safe_url_for_record origin; fetched_at_utc := now; expires_at_utc := now;
  http_status := Absent NoResponse; body_sha256 := Absent IncompleteBody;
  body_state := NotReceived; decision := DisallowUnreachable;
  matched_rule_kind := lit "unreachable"; matched_rule_sha256 := None; crawl_delay_ms := None;
  failure_code := None |}.

(** The assignments of the refresh loop. *)
Definition with_response (st : Observation Z) (sha : Observation str) (bs : RobotsBodyState)
    (s : RobotsSnapshot) : RobotsSnapshot := {|
  snapshot_origin := snapshot_origin s; fetched_at_utc := fetched_at_utc s;
  expires_at_utc := expires_at_utc s; http_status := st; body_sha256 := sha; body_state := bs;
  decision := decision s; matched_rule_kind := matched_rule_kind s;
  matched_rule_sha256 := matched_rule_sha256 s; crawl_delay_ms := crawl_delay_ms s;
  failure_code := failure_code s |}.
Definition with_failure (code : str) (s : RobotsSnapshot) : RobotsSnapshot := {|
  snapshot_origin := snapshot_origin s; fetched_at_utc := fetched_at_utc s;
  expires_at_utc := expires_at_utc s; http_status := http_status s; body_sha256 := body_sha256 s;
  body_state := body_state s; decision := decision s; matched_rule_kind := matched_rule_kind s;
  matched_rule_sha256 := matched_rule_sha256 s; crawl_delay_ms := crawl_delay_ms s;
  failure_code := Some code |}.
Definition with_decision (d : RobotsDecision) (s : RobotsSnapshot) : RobotsSnapshot := {|
  snapshot_origin := snapshot_origin s; fetched_at_utc := fetched_at_utc s;
  expires_at_utc := expires_at_utc s; http_status := http_status s; body_sha256 := body_sha256 s;
  body_state := body_state s; decision := d; matched_rule_kind := matched_rule_kind s;
  matched_rule_sha256 := matched_rule_sha256 s; crawl_delay_ms := crawl_delay_ms s;
  failure_code := failure_code s |}.
Definition with_match (kind : str) (hash : option str) (s : RobotsSnapshot) : RobotsSnapshot := {|
  snapshot_origin := snapshot_origin s; fetched_at_utc := fetched_at_utc s;
  expires_at_utc := expires_at_utc s; http_status := http_status s; body_sha256 := body_sha256 s;
  body_state := body_state s; decision := decision s; matched_rule_kind := kind;
  matched_rule_sha256 := hash; crawl_delay_ms := crawl_delay_ms s;
  failure_code := failure_code s |}.
Definition with_delay (d : option Z) (s : RobotsSnapshot) : RobotsSnapshot := {|
  snapshot_origin := snapshot_origin s; fetched_at_utc := fetched_at_utc s;
  expires_at_utc := expires_at_utc s; http_status := http_status s; body_sha256 := body_sha256 s;
  body_state := body_state s; decision := decision s; matched_rule_kind := matched_rule_kind s;
  matched_rule_sha256 := matched_rule_sha256 s; crawl_delay_ms := d;
  failure_code := failure_code s |}.
Definition with_times (fetched expires : Z) (s : RobotsSnapshot) : RobotsSnapshot := {|
  snapshot_origin := snapshot_origin s; fetched_at_utc := fetched; expires_at_utc := expires;
  http_status := http_status s; body_sha256 := body_sha256 s; body_state := body_state s;
  decision := decision s; matched_rule_kind := matched_rule_kind s;
  matched_rule_sha256 := matched_rule_sha256 s; crawl_delay_ms := crawl_delay_ms s;
  failure_code := failure_code s |}.

(** The closure under [catch_unwind]; the only panic is that of
    [Duration::from_secs_f32]. *)
Definition read_robots (bytes : list Z) : res (Robots * str * option Z) :=
  body ← ok_or (from_utf8 bytes) RobotsUnreachable;
  let selected := select_exact_groups body in
  declared ← validate_declared_delays selected;
  robots ← map_err RobotsUnreachable (RobotsTxt.parse agent_name selected);
  nanos ← ok_or (crawl_delay robots) RobotsUnreachable;
  delay ← match nanos with
          | None => Ok None
          | Some n =>
              let ms := - ((- n) / 1000000) in
              if ms <=? u64_max then Ok (Some ms) else Err RobotsUnreachable
          end;
  Ok (robots, selected, opt_max delay declared).
Definition parse_robots_body (bytes : list Z) (s : RobotsSnapshot)
    : option Robots * str * RobotsSnapshot :=
  match read_robots bytes with
  | Ok (robots, text, delay) =>
      (Some robots, text, with_match (lit "default") (matched_rule_sha256 s)
                            (with_decision AllowRule (with_delay delay s)))
  | Err _ => (None, [], with_failure (lit "parser-failure") s)
  end.

(** ** Refresh *)

(** The attempt trace of a journalled request; the number is the hop. *)
Record Trace := {
  trace_attempts : nat -> res Z;
  trace_country : nat -> HostingCountry -> res unit;
  trace_redirect : nat -> url -> res unit;
  trace_bootstrap : nat -> RobotsSnapshot -> Z -> res unit;
}.
(** What the network and the clock do during one refresh. *)
Record RefreshWorld := {
  lookup : nat -> str -> res (list IpAddr);
  acquire : nat -> HostKey -> res unit;
  send : nat -> url -> list SocketAddr -> Z -> res Response;
  pending_utc : Z;
  done_utc : Z;
  done_ticks : Z;
}.

Section Configured.
Context (scope : CrawlScope) (exclusions : Exclusions) (cache_secs : Z).

Definition opt_trace {A} (trace : option Trace) (none : A) (f : Trace -> res A) : res A :=
  match trace with Some t => f t | None => Ok none end.

(** [Transport::prepare], [acquire_host] and [Transport::send]. *)
Definition fetch_response (w : RefreshWorld) (trace : option Trace) (hop : nat) (target : url) : res Response :=
  _ ← frontier exclusions target None;
  addresses ← scope_resolve scope target (lookup w hop);
  let country := country exclusions addresses in
  _ ← opt_trace trace tt (fun t => trace_country t hop country);
  _ ← admit_country exclusions country;
  host ← HostKey_from_url target;
  _ ← acquire w hop host;
  send w hop target addresses ROBOTS_BODY_LIMIT.

Definition is_redirect (status : Z) : bool :=
  existsb (Z.eqb status) [301; 302; 303; 307; 308].
(** The errors a refresh passes on instead of caching a failure. *)
Definition fatal_fetch (e : Error) : bool :=
  match e with HostStateWrite | InternalInvariant | ExcludedByPolicy _ _ => true | _ => false end.
Definition fatal_body (e : Error) : bool :=
  match e with HostStateWrite | InternalInvariant => true | _ => false end.

(** Where the loop leaves off: the parse, its text, the snapshot and where
    the trace of the last response starts. *)
Definition Left : Type := option Robots * str * RobotsSnapshot * Z.

(** The single [Location] of a redirect, resolved. *)
Definition redirect_target (target : url) (h : ResponseHeaders) : option url :=
  match header_all h "location" with
  | [destination] => if headers_invalid h "location" then None else url_join target destination
  | _ => None
  end.
(** Is the redirect invalid, off scope or followed? *)
Definition judge_redirect (target next : url) : option str :=
  if negb (is_ok (parse_fetch_url (url_as_str next))) ||
     (str_eqb (url_scheme target) (lit "https") && str_eqb (url_scheme next) (lit "http"))
  then Some (lit "redirect-invalid")
  else if negb (is_ok (validate_robots_redirect scope next)) then Some (lit "redirect-off-scope")
  else None.

(** The loop [for hop in 0..=10]; the list is the requests it made. *)
Fixpoint refresh_loop (fuel : nat) (w : RefreshWorld) (trace : option Trace) (hop : nat) (target : url)
    (visited : list str) (s : RobotsSnapshot) (trace_start : Z) : list url * res Left :=
  match fuel with
  | 0%nat => ([], Ok (None, [], s, trace_start))
  | S fuel' =>
      let fail code s := ([], Ok (None, [], with_failure code s, trace_start)) in
      if (hop =? 10)%nat || bool_decide (url_as_str target ∈ visited)
      then fail (lit "redirect-loop-or-limit") s
      else
        match (if (hop =? 0)%nat then validate scope target true else Ok tt) with
        | Err e => ([], Err e)
        | Ok _ =>
        let s := with_response (Absent NoResponse) (Absent IncompleteBody) NotReceived s in
        match fetch_response w trace hop target with
        | Err e =>
            ([target], if fatal_fetch e then Err e
                       else Ok (None, [], with_failure (failure_code_of e) s, trace_start))
        | Ok response =>
        let s := with_response (Present (status response)) (Absent IncompleteBody) NotReceived s in
        match body response with
        | Err e =>
            ([target], if fatal_body e then Err e
                       else Ok (None, [], with_failure (failure_code_of e) s, trace_start))
        | Ok bytes =>
        let s := with_response (Present (status response)) (Present (sha256_hex bytes)) Received s in
        let stop s := ([target], Ok (None, [], s, trace_start)) in
        if is_redirect (status response) then
          match redirect_target target (headers response) with
          | None => stop (with_failure (lit "redirect-invalid") s)
          | Some next =>
              match judge_redirect target next with
              | Some code => stop (with_failure code s)
              | None =>
                  match opt_trace trace trace_start (fun t =>
                          _ ← trace_redirect t hop next;
                          _ ← trace_bootstrap t hop s trace_start;
                          trace_attempts t (S hop)) with
                  | Err e => ([target], Err e)
                  | Ok trace_start =>
                      let (log, left) :=
                        refresh_loop fuel' w trace (S hop) next (url_as_str target :: visited) s
                          trace_start in
                      (target :: log, left)
                  end
              end
          end
        else if (400 <=? status response) && (status response <? 500) then
          stop (with_match (lit "unavailable") (matched_rule_sha256 s)
                  (with_decision AllowAllUnavailable s))
        else if negb (status response =? 200) then stop (with_failure (lit "http-unreachable") s)
        else
          let '(parsed, selected, s) := parse_robots_body bytes s in
          ([target], Ok (parsed, selected, s, trace_start))
        end end end
  end.

Definition cache_result (w : RefreshWorld) (trace : option Trace) (left : Left) : res Cached :=
  let '(parsed, selected, s, trace_start) := left in
  let ttl_ms :=
    if bool_decide (decision s = DisallowUnreachable) then ROBOTS_FAILURE_RETRY_SECS * 1000
    else cache_secs * 1000 in
  expires ← ok_or (date_add (done_utc w) (delta_millis ttl_ms)) InternalInvariant;
  let s := with_times (done_utc w) expires s in
  _ ← opt_trace trace tt (fun t => trace_bootstrap t 11 s trace_start);
  Ok {| parsed := parsed; selected := selected; snapshot := s; cached_ticks := done_ticks w;
        ttl_ms := ttl_ms |}.

Definition origin_of (u : url) : url := url_clear_fragment (url_clear_query (url_set_path u (lit "/"))).

Definition refresh (w : RefreshWorld) (trace : option Trace) (u : url) : list url * res Cached :=
  match opt_trace trace 0 (fun t => trace_attempts t 0) with
  | Err e => ([], Err e)
  | Ok trace_start =>
      match url_join (origin_of u) (lit "robots.txt") with
      | None => ([], Err InvalidUrl)
      | Some target =>
          let (log, left) :=
            refresh_loop 11 w trace 0 target [] (pending (origin_of u) (pending_utc w)) trace_start in
          (log, left ≫= cache_result w trace)
      end
  end.

(** ** The manager *)

(** [entry]: the cell of the origin, made empty on its first use. *)
Definition entry (m : Manager) (u : url) : res (str * Manager) :=
  key ← OriginKey_from_url u;
  Ok (key, match m !! key with Some _ => m | None => <[key := None]> m end).

Definition is_loopback : bool := match scope with Loopback _ => true | _ => false end.
Definition stale (c : option Cached) (ticks : Z) : bool :=
  match c with None => true | Some c => expired c ticks end.

(** The decision for [u] from a cached parse. *)
Definition decide_url (c : Cached) (u conservative : url) : RobotsSnapshot :=
  match parsed c with
  | None => snapshot c
  | Some robots =>
      let allow_exact := is_allowed_strict robots u in
      let allow_conservative := is_allowed_strict robots conservative in
      let s := with_decision (if allow_exact && allow_conservative then AllowRule else DisallowRule)
                 (snapshot c) in
      match matching_rule (selected c) (if allow_exact then conservative else u) with
      | Some (kind, hash) => with_match kind (Some hash) s
      | None => s
      end
  end.

(** [ticks] is the clock when the cell is inspected. *)
Definition snapshot_traced (m : Manager) (w : RefreshWorld) (ticks : Z) (trace : option Trace) (u : url)
    : Manager * list url * res RobotsSnapshot :=
  match (_ ← refuse_if (match trace with None => negb is_loopback | Some _ => false end)
               InternalInvariant;
         _ ← frontier exclusions u None;
         entry m u) with
  | Err e => (m, [], Err e)
  | Ok (key, m) =>
      let cell := default None (m !! key) in
      let '(log, cached) :=
        if stale cell ticks then refresh w trace u else ([], ok_or cell InternalInvariant) in
      match cached with
      | Err e => (m, log, Err e)
      | Ok c =>
          (<[key := Some c]> m, log,
           conservative ← conservative_url u; Ok (decide_url c u conservative))
      end
  end.

Definition permits (d : RobotsDecision) : bool :=
  match d with AllowRule | AllowAllUnavailable => true | _ => false end.
Definition is_allowed (m : Manager) (w : RefreshWorld) (ticks : Z) (u : url) : Manager * list url * bool :=
  match snapshot_traced m w ticks None u with
  | (m, log, Ok s) => (m, log, permits (decision s))
  | (m, log, Err _) => (m, log, false)
  end.

Definition cached_sitemaps (m : Manager) (ticks : Z) (u : url) : Manager * res (option (list url)) :=
  match (_ ← validate scope u true; _ ← frontier exclusions u None; entry m u) with
  | Err e => (m, Err e)
  | Ok (key, m) =>
      let cell := default None (m !! key) in
      (m, Ok (if stale cell ticks then None
              else Some (default []
                           ((fun robots => omap url_parse (robots_sitemaps robots)) <$>
                            (cell ≫= parsed)))))
  end.

(** [crawl_delay] and [sitemaps] of the manager: each resolves first. *)
Definition manager_crawl_delay (m : Manager) (w : RefreshWorld) (ticks : Z) (u : url)
    : Manager * list url * option Z :=
  match snapshot_traced m w ticks None u with
  | (m, log, Ok s) => (m, log, crawl_delay_ms s)
  | (m, log, Err _) => (m, log, None)
  end.
Definition sitemaps (m : Manager) (w : RefreshWorld) (ticks ticks' : Z) (u : url)
    : Manager * list url * list url :=
  match snapshot_traced m w ticks None u with
  | (m, log, Err _) => (m, log, [])
  | (m, log, Ok _) =>
      let (m, links) := cached_sitemaps m ticks' u in (m, log, default [] (default None (ok links)))
  end.

Definition revalidate_snapshot_before_send (m : Manager) (ticks : Z) (u : url) (s : RobotsSnapshot)
    : Manager * res bool :=
  match entry m u with
  | Err e => (m, Err e)
  | Ok (key, m) =>
      (m, Ok match default None (m !! key) with
             | Some c => negb (expired c ticks) && (fetched_at_utc (snapshot c) =? fetched_at_utc s)
             | None => false
             end)
  end.
End Configured.
End Manager.

(** ** The redirect chain *)

Section Chain.
Context `{N : Nom} `{P : PercentEncoding} `{U : UrlOps} `{D : Digest} `{C : Chrono}.
Context (scope : CrawlScope) (exclusions : Exclusions) (cache_secs : Z).

(** A redirect that may be followed: a fetchable URL in scope, and never
    from https to http. *)
Definition hop_ok (a b : url) : Prop :=
  is_ok (parse_fetch_url (url_as_str b)) = true /\
  is_ok (validate_robots_redirect scope b) = true /\
  (url_scheme a = lit "https" -> url_scheme b <> lit "http").

Lemma judge_redirect_None a b : judge_redirect scope a b = None -> hop_ok a b.
Proof.
  unfold judge_redirect, hop_ok.
  destruct (is_ok (parse_fetch_url _)), (is_ok (validate_robots_redirect _ _)); cbn [negb orb];
    try (by destruct (_ && _)); try done.
  destruct (_ && _) eqn:Hd; [done|]. intros _. split_and!; [done|done|]. intros Ha Hb.
  by rewrite Ha, Hb, !str_eqb_refl in Hd.
Qed.

(** The requests of a chain that stands at [target] after [hop] others. *)
Record chain_from (hop : nat) (target : url) (visited : list str) (log : list url) : Prop := {
  chain_short : (length log <= 10 - hop)%nat;
  chain_distinct : NoDup (map url_as_str log);
  chain_new : forall u, u ∈ log -> url_as_str u ∉ visited;
  chain_hops : Sorted hop_ok log;
  chain_head : match log with
               | [] => True
               | u :: _ => u = target /\ (hop = 0%nat -> validate scope u true = Ok tt)
               end;
}.

Lemma chain_nil hop target visited : chain_from hop target visited [].
Proof. split; [cbn; lia|constructor|by intros ? ?%elem_of_nil|constructor|done]. Qed.

Lemma chain_cons hop target next visited log :
  (hop < 10)%nat -> url_as_str target ∉ visited -> (hop = 0%nat -> validate scope target true = Ok tt) ->
  (log <> [] -> hop_ok target next) -> chain_from (S hop) next (url_as_str target :: visited) log ->
  chain_from hop target visited (target :: log).
Proof.
  intros Hhop Hvis Hfirst Hok [Hl Hd Hv Hs Hh]. split.
  - cbn. lia.
  - cbn. apply NoDup_cons. split; [|done]. intros (u & Hu & Hin)%list_elem_of_fmap.
    apply (Hv u Hin). rewrite <- Hu. by left.
  - intros u [->|Hin]%elem_of_cons; [done|]. specialize (Hv u Hin). set_solver.
  - constructor; [done|]. destruct log as [|u log]; constructor. destruct Hh as [-> _]. by apply Hok.
  - done.
Qed.

Lemma refresh_loop_chain fuel w trace hop target visited s start log left :
  (fuel + hop <= 11)%nat ->
  refresh_loop scope exclusions fuel w trace hop target visited s start = (log, left) ->
  chain_from hop target visited log.
Proof.
  revert hop target visited s start log left.
  induction fuel as [|fuel IH]; intros hop target visited s start log left Hf; cbn [refresh_loop].
  { intros [= <- _]. apply chain_nil. }
  destruct ((hop =? 10)%nat || _) eqn:Hstop; [intros [= <- _]; apply chain_nil|].
  apply orb_false_iff in Hstop as [Hhop%Nat.eqb_neq Hvis%bool_decide_eq_false].
  destruct (if (hop =? 0)%nat then _ else _) as [[]|e] eqn:Hval; [|intros [= <- _]; apply chain_nil].
  assert (hop = 0%nat -> validate scope target true = Ok tt) as Hfirst by (by intros ->).
  assert (forall r, ([target], r) = (log, left) -> chain_from hop target visited log) as Hone.
  { intros r [= <- _]. apply (chain_cons hop target target); [lia|done|done|done|apply chain_nil]. }
  destruct (fetch_response _ _ _ _ _ _) as [response|e]; [|apply Hone].
  destruct (body response) as [bytes|e]; [|apply Hone].
  destruct (is_redirect _).
  - destruct (redirect_target _ _) as [next|]; [|apply Hone].
    destruct (judge_redirect _ _ _) eqn:Hj; [apply Hone|]. apply judge_redirect_None in Hj.
    destruct (opt_trace _ _ _) as [start'|e]; [|apply Hone].
    destruct (refresh_loop _ _ _ _ _ _ _ _ _ _) as [log' left'] eqn:Hloop.
    apply IH in Hloop; [|lia]. intros [= <- _].
    apply (chain_cons hop target next); [lia|done|done|done|done].
  - destruct (_ && _); [apply Hone|]. destruct (negb _); [apply Hone|].
    destruct (parse_robots_body _ _) as [[? ?] ?]. apply Hone.
Qed.

(** C31: A robots refresh is bounded and stays in bounds. Whatever the servers
    answer, it makes at most ten requests, never the same URL twice, the first
    one to the origin's own robots.txt when the scope admits it, and every
    further one a fetchable URL inside the scope that does not step down from
    https to http. *)
Theorem refresh_requests_bounded w trace u log r :
  refresh scope exclusions cache_secs w trace u = (log, r) ->
  (length log <= 10)%nat /\ NoDup (map url_as_str log) /\ Sorted hop_ok log /\
  match log with
  | [] => True
  | first :: _ => url_join (origin_of u) (lit "robots.txt") = Some first /\ validate scope first true = Ok tt
  end.
Proof.
  unfold refresh. destruct (opt_trace _ _ _) as [start|e]; [|intros [= <- _]; by repeat constructor].
  destruct (url_join _ _) as [target|]; [|intros [= <- _]; by repeat constructor].
  destruct (refresh_loop _ _ _ _ _ _ _ _ _ _) as [log' left] eqn:Hl. intros [= <- _].
  apply refresh_loop_chain in Hl as [Hlen Hd _ Hs Hh]; [|lia]. split; [lia|]. split; [done|]. split; [done|].
  destruct log'; [done|]. destruct Hh as [-> Hv]. auto.
Qed.
End Chain.

(** ** What a cached answer rests on *)

Section Evidence.
Context `{N : Nom} `{P : PercentEncoding} `{U : UrlOps} `{D : Digest} `{C : Chrono}.
Context (scope : CrawlScope) (exclusions : Exclusions) (cache_secs : Z).

(** A call of the manager: the world it met, its trace and its URL. *)
Record Call := { call_world : RefreshWorld; call_trace : option Trace; call_url : url }.

(** [answers call hop target r bytes]: the request for [target] at [hop], and the
    requests of the redirects it was answered with, end with the response [r],
    whose body arrived whole as [bytes]. *)
Inductive answers (call : Call) : nat -> url -> Response -> list Z -> Prop :=
| answers_final hop target r bytes :
    fetch_response scope exclusions (call_world call) (call_trace call) hop target = Ok r ->
    is_redirect (status r) = false -> body r = Ok bytes -> answers call hop target r bytes
| answers_redirect hop target next r read r' bytes :
    fetch_response scope exclusions (call_world call) (call_trace call) hop target = Ok r ->
    is_redirect (status r) = true -> body r = Ok read ->
    redirect_target target (headers r) = Some next -> judge_redirect scope target next = None ->
    answers call (S hop) next r' bytes -> answers call hop target r' bytes.
(** What the origin of the call answered for its robots.txt. *)
Definition robots_answer (call : Call) (r : Response) (bytes : list Z) : Prop :=
  exists target, url_join (origin_of (call_url call)) (lit "robots.txt") = Some target /\ answers call 0 target r bytes.

(** A parse comes from the whole body of a 200 response, known absence from a
    whole 4xx response; everything else denies and says why. *)
Definition evidence (answer : Response -> list Z -> Prop) (parsed : option Robots) (selected : str)
    (s : RobotsSnapshot) : Prop :=
  match parsed with
  | Some robots =>
      decision s = AllowRule /\ http_status s = Present 200 /\
      exists r bytes, answer r bytes /\ status r = 200 /\ body_sha256 s = Present (sha256_hex bytes) /\
        read_robots bytes = Ok (robots, selected, crawl_delay_ms s)
  | None =>
      (decision s = AllowAllUnavailable /\ body_state s = Received /\
       exists r bytes, answer r bytes /\ 400 <= status r < 500 /\ http_status s = Present (status r) /\
         body_sha256 s = Present (sha256_hex bytes)) \/
      (decision s = DisallowUnreachable /\ failure_code s <> None)
  end.
Lemma evidence_impl (got given : Response -> list Z -> Prop) parsed selected s :
  (forall r bytes, got r bytes -> given r bytes) -> evidence got parsed selected s -> evidence given parsed selected s.
Proof. intros H. destruct parsed; cbn; naive_solver. Qed.

Lemma refresh_loop_evidence fuel w trace u hop target visited s start log p sel s' start' :
  (fuel + hop = 11)%nat -> decision s = DisallowUnreachable ->
  refresh_loop scope exclusions fuel w trace hop target visited s start =
    (log, Ok (p, sel, s', start')) ->
  (hop <= 10)%nat ->
  evidence (answers {| call_world := w; call_trace := trace; call_url := u |} hop target) p sel s'.
Proof.
  revert hop target visited s start log.
  induction fuel as [|fuel IH]; intros hop target visited s start log Hf Hd; cbn [refresh_loop]; [lia|].
  set (call := {| call_world := w; call_trace := trace; call_url := u |}) in *.
  destruct ((hop =? 10)%nat || _) eqn:Hstop.
  { intros [= _ <- <- <- _] _. right. done. }
  apply orb_false_iff in Hstop as [Hhop%Nat.eqb_neq _].
  destruct (if (hop =? 0)%nat then _ else _) as [[]|e]; [|done].
  destruct (fetch_response _ _ _ _ _ _) as [response|e] eqn:Hfetch.
  2: { destruct (fatal_fetch e); [done|]. intros [= _ <- <- <- _] _. right. done. }
  destruct (body response) as [bytes|e] eqn:Hbody.
  2: { destruct (fatal_body e); [done|]. intros [= _ <- <- <- _] _. right. done. }
  destruct (is_redirect _) eqn:Hred.
  - destruct (redirect_target _ _) as [next|] eqn:Hnext; [|intros [= _ <- <- <- _] _; by right].
    destruct (judge_redirect _ _ _) eqn:Hj; [intros [= _ <- <- <- _] _; by right|].
    destruct (opt_trace _ _ _) as [start1|e]; [|done].
    destruct (refresh_loop _ _ _ _ _ _ _ _ _ _) as [log' left'] eqn:Hloop.
    intros [= _ ->] _. apply IH in Hloop; [|lia|done|lia].
    eapply evidence_impl; [|exact Hloop]. intros r b. by eapply (answers_redirect call).
  - assert (answers call hop target response bytes) as Hans by (by apply (answers_final call)).
    destruct (_ && _) eqn:H4.
    { intros [= _ <- <- <- _] _. left. split_and!; [done..|]. exists response, bytes.
      bool_to_prop. split_and!; [done|lia|lia|done|done]. }
    destruct (negb _) eqn:H2; [intros [= _ <- <- <- _] _; by right|]. apply negb_false_iff, Z.eqb_eq in H2.
    unfold parse_robots_body. destruct (read_robots bytes) as [[[r text] delay]|e] eqn:Hr.
    + intros [= _ <- <- <- _] _. cbn. rewrite H2. split_and!; [done|done|]. by exists response, bytes.
    + intros [= _ <- <- <- _] _. by right.
Qed.

Lemma refresh_evidence w trace u log c :
  refresh scope exclusions cache_secs w trace u = (log, Ok c) ->
  evidence (robots_answer {| call_world := w; call_trace := trace; call_url := u |})
    (parsed c) (selected c) (snapshot c) /\
  ttl_ms c = (if bool_decide (decision (snapshot c) = DisallowUnreachable)
              then ROBOTS_FAILURE_RETRY_SECS * 1000 else cache_secs * 1000) /\
  cached_ticks c = done_ticks w.
Proof.
  unfold refresh. destruct (opt_trace _ _ _) as [start|e]; [|done].
  destruct (url_join _ _) as [target|] eqn:Ht; [|done].
  destruct (refresh_loop _ _ _ _ _ _ _ _ _ _) as [log' [[[[p sel] s] start']|e]] eqn:Hl; [|done].
  apply (refresh_loop_evidence _ _ _ u) in Hl; [|lia|done|lia].
  unfold mbind, result_bind. unfold cache_result.
  intros [= _ H]. apply bind_Ok in H as (expires & _ & H). apply bind_Ok in H as ([] & _ & [= <-]).
  split; [|done]. eapply evidence_impl; [intros r b Hr; exists target; split; [exact Ht|exact Hr]|].
  by destruct p.
Qed.

(** The caches that calls of the manager produce, with the calls that could have
    refreshed a cell, the latest first. *)
Inductive reachable : list Call -> Manager -> Prop :=
| reachable_new : reachable [] ∅
| reachable_snapshot calls m w ticks trace u :
    reachable calls m ->
    reachable ({| call_world := w; call_trace := trace; call_url := u |} :: calls)
      (snapshot_traced scope exclusions cache_secs m w ticks trace u).1.1
| reachable_sitemaps calls m ticks u :
    reachable calls m -> reachable calls (cached_sitemaps scope exclusions m ticks u).1
| reachable_revalidate calls m ticks u s :
    reachable calls m -> reachable calls (revalidate_snapshot_before_send m ticks u s).1.

(** One of the calls was for the origin and got the answer. *)
Definition origin_answer (calls : list Call) (key : str) (r : Response) (bytes : list Z) : Prop :=
  exists call, call ∈ calls /\ OriginKey_from_url (call_url call) = Ok key /\ robots_answer call r bytes.
Lemma origin_answer_mono calls calls' key r bytes :
  calls ⊆ calls' -> origin_answer calls key r bytes -> origin_answer calls' key r bytes.
Proof. intros H (call & Hin & ?). exists call. auto. Qed.

Definition manager_ok (calls : list Call) (m : Manager) : Prop :=
  forall key c, m !! key = Some (Some c) ->
    evidence (origin_answer calls key) (parsed c) (selected c) (snapshot c) /\
    ttl_ms c = (if bool_decide (decision (snapshot c) = DisallowUnreachable)
                then ROBOTS_FAILURE_RETRY_SECS * 1000 else cache_secs * 1000).
Lemma manager_ok_mono calls calls' m : calls ⊆ calls' -> manager_ok calls m -> manager_ok calls' m.
Proof.
  intros H Hm key c Hc. destruct (Hm key c Hc) as [Hev Httl]. split; [|done].
  eapply evidence_impl; [|exact Hev]. intros r b. by apply origin_answer_mono.
Qed.

Lemma origin_entry_ok m u key m' :
  entry m u = Ok (key, m') ->
  (forall calls, manager_ok calls m -> manager_ok calls m') /\ OriginKey_from_url u = Ok key /\ default None (m' !! key) = default None (m !! key).
Proof.
  unfold entry. intros (k & Hk & [= -> <-])%bind_Ok. destruct (m !! key) as [cell|] eqn:Hl.
  - by rewrite Hl.
  - split_and!; [|done|by rewrite lookup_insert_eq]. intros calls Hm key' c. rewrite lookup_insert.
    case_decide; [done|apply Hm].
Qed.

Lemma snapshot_cases calls m w ticks trace u m' log r :
  manager_ok calls m -> snapshot_traced scope exclusions cache_secs m w ticks trace u = (m', log, r) ->
  manager_ok ({| call_world := w; call_trace := trace; call_url := u |} :: calls) m' /\
  forall s, r = Ok s -> exists key c conservative,
    is_ok (frontier exclusions u None) = true /\
    OriginKey_from_url u = Ok key /\ m' !! key = Some (Some c) /\
    conservative_url u = Ok conservative /\ s = decide_url c u conservative /\
    (stale (default None (m !! key)) ticks = true -> cached_ticks c = done_ticks w) /\
    (stale (default None (m !! key)) ticks = false -> m !! key = Some (Some c) /\ log = []).
Proof.
  set (call := {| call_world := w; call_trace := trace; call_url := u |}).
  intros Hm%(manager_ok_mono calls (call :: calls)); [|by apply list_subseteq_cons]. unfold snapshot_traced.
  destruct (_ ≫= _) as [[key m1]|e] eqn:Hin; [|intros [= <- _ <-]; by split].
  apply bind_Ok in Hin as ([] & _ & Hin). apply bind_Ok in Hin as (cm & Hf & Hin).
  destruct (origin_entry_ok _ _ _ _ Hin) as (Hm1 & Hkey & Hcell). specialize (Hm1 _ Hm).
  destruct (if stale _ _ then _ else _) as [log1 [c|e]] eqn:Hc; [|intros [= <- _ <-]; by split].
  assert (evidence (origin_answer (call :: calls) key) (parsed c) (selected c) (snapshot c) /\
    ttl_ms c = (if bool_decide (decision (snapshot c) = DisallowUnreachable)
                then ROBOTS_FAILURE_RETRY_SECS * 1000 else cache_secs * 1000)) as Hev.
  { destruct (stale _ _) eqn:Hs.
    - apply refresh_evidence in Hc as (Hev & Httl & _). split; [|done].
      eapply evidence_impl; [|exact Hev]. intros r1 b Hr. exists call. split; [by left|done].
    - injection Hc as _ Hc. apply ok_or_Ok in Hc. destruct (m1 !! key) as [cell|] eqn:Hl; [|done].
      cbn in Hc. subst cell. by apply (Hm1 key). }
  intros [= <- <- <-]. split.
  - intros key' c'. rewrite lookup_insert. destruct (decide (key = key')) as [<-|]; [|exact (Hm1 key' c')].
    intros E. by simplify_eq.
  - intros s (conservative & Hcons & [= <-])%bind_Ok. exists key, c, conservative.
    rewrite <- Hcell. split_and!; [by rewrite Hf|done|by rewrite lookup_insert_eq|done|done|..].
    + intros Hs. rewrite Hs in Hc. by apply refresh_evidence in Hc as (_ & _ & ?).
    + intros Hs. rewrite Hs in Hc. injection Hc as <- Hc. apply ok_or_Ok in Hc.
      split; [|done]. rewrite Hcell in Hc. destruct (m !! key); [by cbn in Hc; subst|done].
Qed.

Lemma reachable_manager_ok calls m : reachable calls m -> manager_ok calls m.
Proof.
  induction 1 as [|calls m w ticks trace u _ IH|calls m ticks u _ IH|calls m ticks u s _ IH].
  - intros key c. by rewrite lookup_empty.
  - destruct (snapshot_traced _ _ _ _ _ _ _ _) as [[m' log] r] eqn:H.
    by apply (snapshot_cases calls) in H as [? _].
  - unfold cached_sitemaps. destruct (_ ≫= _) as [[key m1]|e] eqn:Hin; [|done].
    apply bind_Ok in Hin as ([] & _ & Hin). apply bind_Ok in Hin as (cm & _ & Hin).
    apply origin_entry_ok in Hin as [Hm1 _]. by apply Hm1.
  - unfold revalidate_snapshot_before_send. destruct (entry m u) as [[key m1]|e] eqn:Hin; [|done].
    apply origin_entry_ok in Hin as [Hm1 _]. by apply Hm1.
Qed.

(** What permission for [u] rests on: a response that one of the calls got for
    the robots.txt of the origin of [u] and whose body arrived whole, either a 4xx
    (known absence of a policy), or a 200 whose rules allow both the exact URL and
    its decoded, dot-free form. The snapshot records its status and body. *)
Definition permission (calls : list Call) (u : url) (s : RobotsSnapshot) : Prop :=
  exists key r bytes, OriginKey_from_url u = Ok key /\ origin_answer calls key r bytes /\
    http_status s = Present (status r) /\ body_sha256 s = Present (sha256_hex bytes) /\
    ((decision s = AllowAllUnavailable /\ 400 <= status r < 500) \/
     (decision s = AllowRule /\ status r = 200 /\
      exists robots text conservative,
        read_robots bytes = Ok (robots, text, crawl_delay_ms s) /\
        is_allowed_strict robots u = true /\
        conservative_url u = Ok conservative /\ is_allowed_strict robots conservative = true)).
Lemma permission_mono calls calls' u s : calls ⊆ calls' -> permission calls u s -> permission calls' u s.
Proof.
  intros H (key & r & bytes & Hk & Ha & Hp). exists key, r, bytes. split_and!; [done| |apply Hp..].
  by eapply origin_answer_mono.
Qed.

Lemma decided_permission calls key c u conservative :
  OriginKey_from_url u = Ok key ->
  evidence (origin_answer calls key) (parsed c) (selected c) (snapshot c) -> conservative_url u = Ok conservative ->
  permits (decision (decide_url c u conservative)) = true ->
  permission calls u (decide_url c u conservative).
Proof.
  unfold decide_url, evidence. intros Hk Hev Hcons Hp. destruct (parsed c) as [robots|].
  - destruct Hev as (_ & Hst & r & bytes & Ha & Hr & Hb & Hread). exists key, r, bytes.
    assert (is_allowed_strict robots u && is_allowed_strict robots conservative = true) as Hal.
    { destruct (_ && _); [done|]. by destruct (matching_rule _ _) as [[? ?]|]. }
    rewrite Hal in *. apply andb_true_iff in Hal as [Hexact Hcl].
    destruct (matching_rule _ _) as [[kind hash]|]; cbn; rewrite Hr; split_and!; try done; right;
      (split_and!; [done|done|]); by exists robots, (selected c), conservative.
  - destruct Hev as [(Hd & _ & r & bytes & Ha & Hst & Hs & Hb)|[Hd _]]; [|by rewrite Hd in Hp].
    exists key, r, bytes. split_and!; try done. by left.
Qed.

Lemma snapshot_permission calls m w ticks trace u m' log s :
  manager_ok calls m ->
  snapshot_traced scope exclusions cache_secs m w ticks trace u = (m', log, Ok s) ->
  permits (decision s) = true ->
  is_ok (frontier exclusions u None) = true /\
  permission ({| call_world := w; call_trace := trace; call_url := u |} :: calls) u s.
Proof.
  intros Hm H Hp. apply (snapshot_cases calls) in H as [Hm' H]; [|done].
  destruct (H s eq_refl) as (key & c & cons & Hf & Hk & Hc & Hcons & -> & _).
  apply Hm' in Hc as [Hev _]. split; [done|by eapply decided_permission].
Qed.

(** C30: Permission always rests on evidence; every failure denies. When the
    manager permits a URL, after any history of calls, the exclusions admit it
    and its permission rests on a response that this or an earlier call really
    got, over vetted redirects, for the robots.txt of the URL's origin, and whose
    body arrived whole: a 4xx, or a 200 whose rules allow the exact and the
    conservative form of the URL. A body that failed to arrive never permits. *)
Theorem permission_needs_evidence calls m w ticks trace u m' log s :
  reachable calls m ->
  snapshot_traced scope exclusions cache_secs m w ticks trace u = (m', log, Ok s) ->
  permits (decision s) = true ->
  is_ok (frontier exclusions u None) = true /\
  permission ({| call_world := w; call_trace := trace; call_url := u |} :: calls) u s.
Proof. intros Hm%reachable_manager_ok H Hp. by apply (snapshot_permission calls) in H. Qed.

(** A refresh that succeeds has asked at least once. *)
Lemma refresh_loop_asks fuel w trace target s start log left :
  refresh_loop scope exclusions (S fuel) w trace 0 target [] s start = (log, Ok left) -> log <> [].
Proof.
  cbn [refresh_loop]. rewrite bool_decide_eq_false_2 by apply not_elem_of_nil. cbn [Nat.eqb orb].
  destruct (validate _ _ _) as [[]|e]; [|done].
  destruct (fetch_response _ _ _ _ _ _) as [response|e]; [|by intros [= <- _]].
  destruct (body response) as [bytes|e]; [|by intros [= <- _]].
  destruct (is_redirect _).
  - destruct (redirect_target _ _) as [next|]; [|by intros [= <- _]].
    destruct (judge_redirect _ _ _); [by intros [= <- _]|].
    destruct (opt_trace _ _ _) as [start1|e]; [|by intros [= <- _]].
    destruct (refresh_loop _ _ _ _ _ _ _ _ _ _) as [log' left']. by intros [= <- _].
  - destruct (_ && _); [by intros [= <- _]|]. destruct (negb _); [by intros [= <- _]|].
    destruct (parse_robots_body _ _) as [[? ?] ?]. by intros [= <- _].
Qed.

Lemma refresh_asks w trace u log c :
  refresh scope exclusions cache_secs w trace u = (log, Ok c) -> log <> [].
Proof.
  unfold refresh. destruct (opt_trace _ _ _) as [start|e]; [|done].
  destruct (url_join _ _) as [target|]; [|done].
  destruct (refresh_loop _ _ _ _ _ _ _ _ _ _) as [log' [left|e]] eqn:Hl; [|done].
  intros [= <- _]. by apply refresh_loop_asks in Hl.
Qed.

(** A call that is on another origin or makes no request. *)
Inductive quiet (key : str) : Manager -> Manager -> Prop :=
| quiet_snapshot m w ticks trace u m' log r :
    snapshot_traced scope exclusions cache_secs m w ticks trace u = (m', log, r) ->
    OriginKey_from_url u <> Ok key \/ log = [] -> quiet key m m'
| quiet_sitemaps m ticks u : quiet key m (cached_sitemaps scope exclusions m ticks u).1
| quiet_revalidate m ticks u s : quiet key m (revalidate_snapshot_before_send m ticks u s).1.

Lemma entry_cell m u k m' key c :
  entry m u = Ok (k, m') -> m !! key = Some (Some c) -> m' !! key = Some (Some c).
Proof.
  unfold entry. intros (k' & _ & [= -> <-])%bind_Ok Hc. destruct (m !! k) eqn:Hk; [done|].
  rewrite lookup_insert_ne; [done|congruence].
Qed.

Lemma quiet_cell key m m' c : quiet key m m' -> m !! key = Some (Some c) -> m' !! key = Some (Some c).
Proof.
  intros Hq Hc. destruct Hq as [m w ticks trace u m' log r H Hor|m ticks u|m ticks u s].
  - revert H. unfold snapshot_traced.
    destruct (_ ≫= _) as [[k m1]|e] eqn:Hin; [|by intros [= <- _ _]].
    apply bind_Ok in Hin as ([] & _ & Hin). apply bind_Ok in Hin as (cm & Hf & Hin).
    pose proof (entry_cell _ _ _ _ _ _ Hin Hc) as Hc1.
    assert (OriginKey_from_url u = Ok k) as Hk by (by apply bind_Ok in Hin as (k' & ? & [= -> _])).
    destruct (if stale _ _ then _ else _) as [log1 [c1|e]] eqn:Hr; intros [= <- <- <-]; [|done].
    destruct (decide (k = key)) as [->|Hne]; [|by rewrite lookup_insert_ne].
    rewrite Hc1 in Hr. cbn [default] in Hr. rewrite lookup_insert_eq. destruct (stale _ _).
    + apply refresh_asks in Hr. by destruct Hor.
    + injection Hr as _ Hr. by subst.
  - unfold cached_sitemaps. destruct (_ ≫= _) as [[k m1]|e] eqn:Hin; [|done].
    apply bind_Ok in Hin as ([] & _ & Hin). apply bind_Ok in Hin as (cm & _ & Hin).
    by apply (entry_cell _ _ _ _ _ _ Hin).
  - unfold revalidate_snapshot_before_send. destruct (entry m u) as [[k m1]|e] eqn:Hin; [|done].
    by apply (entry_cell _ _ _ _ _ _ Hin).
Qed.

(** An origin is asked again only after its answer has expired. Between
    two consecutive calls that make requests for one origin, whatever other
    calls come in between, there are at least five minutes of the monotonic
    clock after an unreachable robots.txt, and the configured cache time after
    an answer. *)
Theorem refreshes_are_spaced calls m w ticks trace u m1 log1 s1 m2 w2 ticks2 trace2 u2 m3 log2 r2 key :
  reachable calls m -> OriginKey_from_url u = Ok key -> OriginKey_from_url u2 = Ok key ->
  snapshot_traced scope exclusions cache_secs m w ticks trace u = (m1, log1, Ok s1) -> log1 <> [] ->
  rtc (quiet key) m1 m2 ->
  snapshot_traced scope exclusions cache_secs m2 w2 ticks2 trace2 u2 = (m3, log2, r2) -> log2 <> [] ->
  0 <= done_ticks w <= ticks2 ->
  (if bool_decide (decision s1 = DisallowUnreachable) then 300000 else cache_secs * 1000)
    <= ticks2 - done_ticks w.
Proof.
  intros Hm%reachable_manager_ok Hk Hk2 H1 Hne1 Hquiet H2 Hne2 Ht.
  apply (snapshot_cases calls) in H1 as [Hm1 H1]; [|done].
  destruct (H1 s1 eq_refl) as (k & c & cons & _ & Hk' & Hc & _ & Hs1 & Hstale & Hfresh).
  assert (k = key) as -> by congruence.
  assert (cached_ticks c = done_ticks w) as Hticks.
  { destruct (stale (default None (m !! key)) ticks); [by apply Hstale|].
    by destruct (Hfresh eq_refl) as [_ ->]. }
  pose proof Hc as Hev. apply Hm1 in Hev as [Hev Httl].
  assert (m2 !! key = Some (Some c)) as Hc2.
  { clear -Hquiet Hc. induction Hquiet as [|m1 m' m2 Hq _ IH]; [done|]. apply IH. by apply (quiet_cell key m1). }
  assert (expired c ticks2 = true) as Hexp.
  { apply not_false_is_true. intros Hexp. apply Hne2. revert H2. unfold snapshot_traced.
    destruct (_ ≫= _) as [[k m4]|e] eqn:Hin; [|by intros [= _ <- _]].
    apply bind_Ok in Hin as ([] & _ & Hin). apply bind_Ok in Hin as (cm & _ & Hin).
    pose proof (entry_cell _ _ _ _ _ _ Hin Hc2) as Hc4.
    assert (k = key) as -> by (apply bind_Ok in Hin as (k' & ? & [= -> _]); congruence).
    rewrite Hc4. change (stale (default None (Some (Some c))) ticks2) with (expired c ticks2).
    rewrite Hexp. by intros [= _ <- _]. }
  unfold expired in Hexp. bool_to_prop. rewrite Hticks, Httl in Hexp. unfold u64_saturating_sub in Hexp.
  assert (bool_decide (decision s1 = DisallowUnreachable) =
          bool_decide (decision (snapshot c) = DisallowUnreachable)) as ->.
  { subst s1. unfold decide_url, evidence in *. destruct (parsed c); [|done].
    destruct Hev as [-> _]. destruct (matching_rule _ _) as [[? ?]|]; cbn; by destruct (_ && _). }
  unfold ROBOTS_FAILURE_RETRY_SECS in Hexp. destruct (bool_decide _); lia.
Qed.
End Evidence.

(** ** Dot segments *)

(** A segment that names something. *)
Definition named (seg : str) : bool := negb (one_of seg [""; "."; ".."]%string).
Definition proper (seg : str) : Prop := named seg = true /\ ch_slash ∉ seg.
Definition count (f : str -> bool) (segs : list str) : nat := length (List.filter f segs).
Definition climb (seg : str) : bool := str_eqb seg (lit "..").

Lemma dot_segment_cases segs seg :
  dot_segment segs seg =
    if named seg then Ok (segs ++ [seg])
    else if climb seg then match rev segs with [] => Err InvalidUrl | _ :: r => Ok (rev r) end
    else Ok segs.
Proof.
  unfold dot_segment, named, climb, one_of. cbn [existsb].
  destruct (str_eqb seg (lit "")) eqn:E1; [apply str_eqb_eq in E1 as ->; done|].
  destruct (str_eqb seg (lit ".")) eqn:E2; [apply str_eqb_eq in E2 as ->; done|].
  by destruct (str_eqb seg (lit "..")).
Qed.

Lemma dot_fold_proper parts segs segs' :
  Forall proper segs -> Forall (fun p => ch_slash ∉ p) parts ->
  try_fold dot_segment segs parts = Ok segs' -> Forall proper segs'.
Proof.
  revert segs; induction parts as [|p parts IH]; intros segs Hs Hp; cbn [try_fold]; [by intros [= <-]|].
  apply Forall_cons in Hp as [Hp Hps]. rewrite dot_segment_cases.
  intros (s1 & H1 & H2)%bind_Ok. apply (IH s1); [|done|done].
  destruct (named p) eqn:Hn; [injection H1 as <-; apply Forall_app; split; [done|by repeat constructor]|].
  destruct (climb p); [|by injection H1 as <-].
  destruct (rev segs) as [|x r] eqn:Hr; [done|]. injection H1 as <-.
  rewrite <- (rev_involutive segs), Hr in Hs. cbn in Hs. by apply Forall_app in Hs as [? _].
Qed.

Lemma dot_fold_named parts segs :
  Forall proper parts -> try_fold dot_segment segs parts = Ok (segs ++ parts).
Proof.
  revert segs; induction parts as [|p parts IH]; intros segs Hp; cbn [try_fold]; [by rewrite app_nil_r|].
  apply Forall_cons in Hp as [[Hn _] Hps]. rewrite dot_segment_cases, Hn. cbn. rewrite IH by done.
  by rewrite <- app_assoc.
Qed.

(** The fold fails exactly when some prefix climbs above its start. *)
Lemma dot_fold_climbs parts segs :
  try_fold dot_segment segs parts = Err InvalidUrl <->
  exists k, (length segs + count named (take k parts) < count climb (take k parts))%nat.
Proof.
  revert segs; induction parts as [|p parts IH]; intros segs; cbn [try_fold].
  { split; [done|]. intros [k Hk]. rewrite take_nil in Hk. cbn in Hk. lia. }
  rewrite dot_segment_cases.
  assert (forall k (f : str -> bool), count f (take (S k) (p :: parts)) =
    ((if f p then 1 else 0) + count f (take k parts))%nat) as Hc
    by (intros k f; unfold count; cbn; by destruct (f p)).
  assert (named p = true -> climb p = false) as Hex.
  { unfold named, climb. intros H%negb_true_iff. unfold one_of in H. cbn [existsb] in H.
    bool_to_prop. by destruct (str_eqb p (lit "..")). }
  assert (forall n, (exists k, (n + count named (take k (p :: parts)) < count climb (take k (p :: parts)))%nat) <->
    exists k, (n + (if named p then 1 else 0) + count named (take k parts) <
               (if climb p then 1 else 0) + count climb (take k parts))%nat) as Hshift.
  { intros n. split.
    - intros [[|k] Hk]; [cbn in Hk; lia|]. exists k. rewrite !Hc in Hk. lia.
    - intros [k Hk]. exists (S k). rewrite !Hc. lia. }
  rewrite Hshift. destruct (named p) eqn:Hn.
  - rewrite Hex by done. cbn [mbind result_bind].
    rewrite IH, length_app. cbn [length]. split; intros [k Hk]; exists k; lia.
  - destruct (climb p) eqn:Hcl.
    + destruct (rev segs) as [|x r] eqn:Hr.
      * assert (segs = []) as -> by (by rewrite <- (rev_involutive segs), Hr). split; [|done].
        intros _. exists 0%nat. rewrite !take_0. unfold count. cbn. lia.
      * cbn [mbind result_bind]. rewrite IH. assert (length segs = S (length (rev r))) as ->.
        { rewrite <- (length_rev segs), Hr, length_rev. done. }
        split; intros [k Hk]; exists k; lia.
    + cbn [mbind result_bind]. rewrite IH. split; intros [k Hk]; exists k; lia.
Qed.

Lemma split_join segs :
  segs <> [] -> Forall (fun s => ch_slash ∉ s) segs -> split ch_slash (join (lit "/") segs) = segs.
Proof. apply (split_join_char ch_slash). Qed.

Lemma split_resolved segs :
  Forall proper segs ->
  split ch_slash (lit "/" ++ join (lit "/") segs) = [] :: (if is_empty segs then [[]] else segs).
Proof.
  intros Hs. change (lit "/" ++ ?x) with ([] ++ ch_slash :: x). rewrite split_app.
  destruct segs as [|s segs]; [done|]. rewrite split_join; [done|done|].
  apply (Forall_impl _ _ _ Hs). by intros x [_ ?].
Qed.

(** Segments of a resolved path fold back to themselves. *)
Lemma dot_fold_resolved segs trailing :
  Forall proper segs ->
  try_fold dot_segment [] (split ch_slash
    ((lit "/" ++ join (lit "/") segs) ++ if trailing : bool then lit "/" else [])) = Ok segs.
Proof.
  intros Hs.
  assert (forall l tl, Forall proper l -> tl = [] \/ tl = [[]] ->
    try_fold dot_segment [] ([] :: l ++ tl) = Ok l) as Hgo.
  { intros l tl Hl Htl.
    assert (forall acc, try_fold dot_segment acc (l ++ tl) = Ok (acc ++ l)) as Hl'; [|apply (Hl' [])].
    induction Hl as [|x l [Hn _] _ IH]; intros acc; cbn [app try_fold].
    - rewrite app_nil_r. by destruct Htl as [->| ->].
    - rewrite dot_segment_cases, Hn. cbn [mbind result_bind]. rewrite IH. by rewrite <- app_assoc. }
  destruct trailing.
  - change (lit "/") with [ch_slash] at 3. rewrite split_app, split_resolved by done.
    destruct segs as [|s segs]; [done|]. apply (Hgo (s :: segs) [[]]); [done|by right].
  - rewrite app_nil_r, split_resolved by done. destruct segs as [|s segs]; [done|].
    pose proof (Hgo (s :: segs) [] Hs (or_introl eq_refl)) as H. by rewrite app_nil_r in H.
Qed.

Lemma last_named segs seg s0 :
  Forall proper segs -> segs <> [] -> ch_slash ∉ seg -> named seg = false ->
  lit "/" ++ join (lit "/") segs <> s0 ++ ch_slash :: seg.
Proof.
  intros Hs Hne Hc Hn E. apply (f_equal (split ch_slash)) in E.
  rewrite split_resolved, split_app, (split_clean _ seg) in E by done.
  destruct segs as [|x segs _] using rev_ind; [done|].
  replace (is_empty (segs ++ [x])) with false in E by (by destruct segs).
  change ([] :: (segs ++ [x])) with (([] :: segs) ++ [x]) in E.
  apply app_inj_tail in E as [_ ->]. apply Forall_app in Hs as [_ Hs].
  apply Forall_cons in Hs as [[Hx _] _]. congruence.
Qed.

(** Dot segments are resolved completely or the path is refused. The
    result is an absolute path whose segments all name something and which
    resolves to itself; the path is refused if and only if some prefix of it
    climbs above the root. *)
Theorem dot_segments_resolved path :
  (remove_dot_segments path = Err InvalidUrl <->
   exists k, (count named (take k (split ch_slash path)) < count climb (take k (split ch_slash path)))%nat) /\
  forall r, remove_dot_segments path = Ok r ->
    (exists segs (trailing : bool), Forall proper segs /\
       r = (lit "/" ++ join (lit "/") segs) ++ if trailing then lit "/" else []) /\
    remove_dot_segments r = Ok r.
Proof.
  split.
  { etransitivity; [|exact (dot_fold_climbs (split ch_slash path) [])]. unfold remove_dot_segments.
    destruct (try_fold _ _ _) as [segs|e]; cbn [mbind result_bind]; [|split; congruence].
    destruct (_ && _); split; discriminate. }
  intros r. unfold remove_dot_segments at 1. intros (segs & Hf & Hr)%bind_Ok.
  assert (Forall proper segs) as Hs.
  { apply dot_fold_proper in Hf; [done|constructor|]. apply Forall_forall. intros p Hp%list_elem_of_In.
    apply split_parts_clean in Hp. intros Hin. rewrite forallb_forall in Hp.
    apply list_elem_of_In, Hp in Hin. by rewrite Z.eqb_refl in Hin. }
  assert (exists trailing : bool, r = (lit "/" ++ join (lit "/") segs) ++ (if trailing then lit "/" else []) /\
    (trailing = true -> segs <> [])) as (trailing & -> & Ht).
  { destruct (negb (str_eqb _ _)) eqn:Hne; cbn [andb] in Hr; [|injection Hr as <-; exists false; by rewrite app_nil_r].
    assert (segs <> []) as Hsegs by (by intros ->).
    destruct (_ || _) in Hr; injection Hr as <-; [by exists true|exists false; by rewrite app_nil_r]. }
  split; [by exists segs, trailing|]. unfold remove_dot_segments. rewrite dot_fold_resolved by done.
  cbn [mbind result_bind].
  destruct segs as [|s segs]; [by destruct trailing; [destruct (Ht eq_refl)|]|].
  assert (str_eqb (lit "/" ++ join (lit "/") (s :: segs)) (lit "/") = false) as ->.
  { apply bool_decide_eq_false. intros E. apply (f_equal (split ch_slash)) in E.
    rewrite split_resolved in E by done. cbn in E. injection E as -> ->.
    apply Forall_cons in Hs as [[Hs _] _]. done. }
  cbn [negb andb]. destruct trailing.
  - assert (ends_with (lit "/") ((lit "/" ++ join (lit "/") (s :: segs)) ++ lit "/") = true) as ->
      by (apply ends_with_spec; eauto). done.
  - rewrite app_nil_r.
    assert (forall x, ch_slash ∉ lit x -> named (lit x) = false ->
      ends_with (ch_slash :: lit x) (lit "/" ++ join (lit "/") (s :: segs)) = false) as He.
    { intros x Hx Hn. apply not_true_is_false. intros (t & E)%ends_with_spec.
      by apply last_named in E. }
    change (lit "/") with (ch_slash :: lit "") at 1. change (lit "/.") with (ch_slash :: lit ".").
    change (lit "/..") with (ch_slash :: lit "..").
    rewrite !He by (by try apply contains_char_false). done.
Qed.

(** ** Delays *)

Section Delays.
Context `{N : Nom} `{P : PercentEncoding} `{U : UrlOps} `{D : Digest}.

Lemma declared_delays_fold ls delay0 delay :
  try_fold declared_delay delay0 ls = Ok delay ->
  opt_le delay0 delay /\
  forall line name value, line ∈ ls -> split_once ch_colon line = Some (name, value) ->
    eq_ignore_ascii_case (trim name) (lit "crawl-delay") = true ->
    exists seconds ms, parse_f64 (trim value) = Some seconds /\ delay_millis seconds = Ok ms /\
      opt_le (Some ms) delay.
Proof.
  revert delay0; induction ls as [|l ls IH]; intros delay0; cbn [try_fold].
  { intros [= <-]. split; [auto with agentic|]. by intros ? ? ? ?%elem_of_nil. }
  intros (d1 & H1 & (Hle & Hrest)%IH)%bind_Ok. unfold declared_delay in H1.
  destruct (split_once ch_colon l) as [[n v]|] eqn:Hs.
  2: { injection H1 as <-. split; [done|]. intros line name value [->|Hin]%elem_of_cons; [congruence|].
       by apply Hrest. }
  destruct (negb _) eqn:Hn.
  - injection H1 as <-. split; [done|]. intros line name value [->|Hin]%elem_of_cons; [|by apply Hrest].
    intros Hs' Hname. rewrite Hs in Hs'. injection Hs' as <- <-. by rewrite Hname in Hn.
  - apply bind_Ok in H1 as (seconds & Hp%ok_or_Ok & H1). apply bind_Ok in H1 as (ms & Hms & [= <-]).
    split; [by etrans; [apply opt_max_l|]|]. intros line name value [->|Hin]%elem_of_cons; [|by apply Hrest].
    intros Hs' _. rewrite Hs in Hs'. injection Hs' as <- <-. exists seconds, ms. split_and!; [done..|].
    by etrans; [apply opt_max_r|].
Qed.

(** The publisher's delay is never understated. When a body is accepted,
    every Crawl-delay line of the selected groups was a finite number, the delay
    kept is at least each of them rounded up to milliseconds, and at least what
    the parser itself reports. *)
Theorem delays_never_understated bytes robots text delay :
  read_robots bytes = Ok (robots, text, delay) ->
  (forall line name value, line ∈ lines text -> split_once ch_colon line = Some (name, value) ->
     eq_ignore_ascii_case (trim name) (lit "crawl-delay") = true ->
     exists seconds ms, parse_f64 (trim value) = Some seconds /\ delay_millis seconds = Ok ms /\
       opt_le (Some ms) delay) /\
  (forall nanos, crawl_delay robots = Some (Some nanos) ->
     exists ms, delay = Some ms /\ nanos <= ms * 1000000).
Proof.
  unfold read_robots. intros (body & _ & H)%bind_Ok. apply bind_Ok in H as (declared & Hd & H).
  apply bind_Ok in H as (r & _ & H). apply bind_Ok in H as (nanos & Hn%ok_or_Ok & H).
  apply bind_Ok in H as (own & Hown & [= <- <- <-]). split.
  - intros line name value Hin Hs Hname. apply declared_delays_fold in Hd as [_ Hd].
    destruct (Hd line name value Hin Hs Hname) as (seconds & ms & Hp & Hms & Hle). exists seconds, ms.
    split_and!; [done..|]. by etrans; [|apply opt_max_r].
  - intros n Hcd. rewrite Hn in Hcd. injection Hcd as ->. case_match; [|done]. injection Hown as <-.
    exists (match declared with Some d => Z.max (- (- n / 1000000)) d | None => - (- n / 1000000) end).
    split; [by destruct declared|]. destruct declared; Z.to_euclidean_division_equations; lia.
Qed.
End Delays.

(** ** A manager to run *)

Module RobotsWitness.
Import NomReference PercentReference UrlReference ChronoReference DigestReference ExclusionExamples.

Definition body0 : str :=
  lit "User-agent: *" ++ [ch_lf] ++ lit "Disallow: /private" ++ [ch_lf] ++ lit "Crawl-delay: 1.5" ++ [ch_lf].
Definition parse_url (s : string) : RefUrl := default (origin_of NetworkExamples.page) (url_parse (lit s)).
Definition target0 : RefUrl := parse_url "https://a.example/public/x".
(** The first request is redirected to another host, whose answer is [st]. *)
Definition world0 (st : Z) : RefreshWorld := {|
  lookup _ _ := Ok [V4 93 184 215 14];
  acquire _ _ := Ok tt;
  send hop _ _ _ :=
    Ok (if (hop =? 0)%nat
        then {| status := 301;
                headers := header_observe ∅ (lit "location") (Some (lit "https://b.example/r.txt"));
                body := Ok [] |}
        else {| status := st; headers := ∅; body := Ok (as_bytes body0) |});
  pending_utc := 0; done_utc := 5; done_ticks := 700 |}.
Definition trace0 : Trace := {|
  trace_attempts _ := Ok 0; trace_country _ _ := Ok tt; trace_redirect _ _ := Ok tt;
  trace_bootstrap _ _ _ := Ok tt |}.
Definition call (m : Manager) (st ticks : Z) : Manager * list url * res RobotsSnapshot :=
  snapshot_traced Production open_policy 3600 m (world0 st) ticks (Some trace0) target0.
Definition blank : RobotsSnapshot := pending target0 0.
Definition answer (r : Manager * list url * res RobotsSnapshot) : RobotsSnapshot := default blank (ok r.2).

Definition refresh0 : list url * res Cached :=
  refresh Production open_policy 3600 (world0 200) (Some trace0) target0.

Lemma refresh_requests_bounded_witness :
  length refresh0.1 = 2%nat /\ Sorted (hop_ok Production) refresh0.1.
Proof.
  split; [vm_compute; reflexivity|].
  exact (proj1 (proj2 (proj2 (refresh_requests_bounded Production open_policy 3600 (world0 200)
    (Some trace0) target0 refresh0.1 refresh0.2 (surjective_pairing refresh0))))).
Defined.

Definition call0 := call ∅ 200 100.
Lemma call0_answer : call0 = (call0.1.1, call0.1.2, Ok (answer call0)).
Proof. vm_compute. reflexivity. Qed.

Lemma permission_needs_evidence_witness :
  decision (answer call0) = AllowRule /\ crawl_delay_ms (answer call0) = Some 1500 /\
  permission Production open_policy
    [{| call_world := world0 200; call_trace := Some trace0; call_url := target0 |}] target0 (answer call0).
Proof.
  split; [vm_compute; reflexivity|]. split; [vm_compute; reflexivity|].
  refine (proj2 (permission_needs_evidence Production open_policy 3600 [] ∅ (world0 200) 100 (Some trace0)
    target0 call0.1.1 call0.1.2 (answer call0) (reachable_new _ _ _) call0_answer _)).
  vm_compute. reflexivity.
Defined.
(** The same answer cut off half way does not permit. *)
Definition world_cut : RefreshWorld := {|
  lookup := lookup (world0 200); acquire := acquire (world0 200);
  send hop u a limit := r ← send (world0 200) hop u a limit;
    Ok (if (hop =? 0)%nat then r else {| status := status r; headers := headers r; body := Err Timeout |});
  pending_utc := 0; done_utc := 5; done_ticks := 700 |}.
Example cut_body_denies :
  decision (answer (snapshot_traced Production open_policy 3600 ∅ world_cut 100 (Some trace0) target0)) =
    DisallowUnreachable.
Proof. vm_compute. reflexivity. Qed.

(** Asked again after the cache time, and denied while the file is unreadable. *)
Definition call1 := call call0.1.1 503 (700 + 3600000).
Lemma refreshes_are_spaced_witness :
  decision (answer call1) = DisallowUnreachable /\ 3600 * 1000 <= (700 + 3600000) - 700.
Proof.
  split; [vm_compute; reflexivity|].
  assert (OriginKey_from_url target0 = Ok (lit "https://a.example:443")) as Hk by (vm_compute; reflexivity).
  refine (refreshes_are_spaced Production open_policy 3600 [] ∅ (world0 200) 100 (Some trace0) target0
    call0.1.1 call0.1.2 (answer call0) call0.1.1 (world0 503) (700 + 3600000) (Some trace0) target0
    call1.1.1 call1.1.2 call1.2 _ (reachable_new _ _ _) Hk Hk call0_answer _ (rtc_refl _ _) _ _ _).
  - vm_compute. discriminate.
  - vm_compute. reflexivity.
  - vm_compute. discriminate.
  - split; discriminate.
Defined.

Definition read0 : Robots * str * option Z :=
  default (empty_robots, [], None) (ok (read_robots (as_bytes body0))).
Lemma delays_never_understated_witness :
  exists ms, read0.2 = Some ms /\ 1500000000 <= ms * 1000000.
Proof.
  refine (proj2 (delays_never_understated (as_bytes body0) read0.1.1 read0.1.2 read0.2 _) 1500000000 _);
    vm_compute; reflexivity.
Defined.
End RobotsWitness.
