(* ===== verification/RobotClient.v ===== *)
(** * The crawler client ([crawler/robot_client.rs])

    The one path by which a content request leaves the program: admission of
    the URL, the robots decision, the vetted addresses, the host permit and the
    last check of the robots answer before the send. *)

From Stdlib Require Import SpecFloat.
From S2P Require Import Prelude Text Externals Floats RobotsPattern RobotsTxt CrawlerBase Policy HostState Politeness Network Exclusions RobotsManager.

#[local] Open Scope Z_scope.

Definition MAX_CONTENT_LENGTH : Z := 32 * 1024 * 1024.

(** A content request that left the program. *)
Record Sent {Url : Type} := {
  sent_url : Url;
  sent_addresses : list SocketAddr;
  sent_gap : Z;
  sent_robots : RobotsSnapshot;
  sent_round : nat;
}.
Arguments Sent : clear implicits.

Section Client.
Context `{N : Nom} `{P : PercentEncoding} `{U : UrlOps} `{D : Digest} `{C : Chrono}.
Context (scope : CrawlScope) (exclusions : Exclusions) (cache_secs : Z) (politeness : PolitenessConfig).

(** What happens around one round of [RequestBuilder::send]. *)
Record Round := {
  robots_world : RefreshWorld;
  ticks_robots : Z;
  record_robots : RobotsSnapshot -> res unit;
  content_lookup : str -> res (list IpAddr);
  record_country : HostingCountry -> res unit;
  host_permit : HostKey -> Z -> res unit;
  ticks_send : Z;
  attach_robots : RobotsSnapshot -> res unit;
}.
(** [get_traced]: [previous_languages] is the ledger's answer, [now] the wall
    clock. The returned URL is the one a request may be built for. *)
Definition get_traced (reg : HostRegistry) (previous_languages : url -> res (option (list str)))
    (now : Z) (u : url) : res url :=
  u ← parse_fetch_url (url_as_str u);
  _ ← validate scope u false;
  languages ← previous_languages u;
  _ ← frontier exclusions u languages;
  host ← HostKey_from_url u;
  st ← state reg host;
  _ ← refuse_if (match opt_max (blocked_until_utc st) (retry_at_utc st) with
                 | Some deadline => now <? deadline
                 | None => false
                 end) HostBlocked;
  Ok u.

(** [get]: only an owned loopback scope may send without a trace. *)
Definition get (reg : HostRegistry) (previous_languages : url -> res (option (list str))) (now : Z)
    (u : url) : res url :=
  _ ← refuse_if (negb (is_loopback scope)) InternalInvariant;
  get_traced reg previous_languages now u.

Definition ensure_robots (m : Manager) (r : Round) (trace : option Trace) (target : url)
    : Manager * res RobotsSnapshot :=
  match snapshot_traced scope exclusions cache_secs m (robots_world r) (ticks_robots r) trace target with
  | (m, _, answer) =>
      (m, snapshot ← answer;
          _ ← opt_trace trace tt (fun _ => record_robots r snapshot);
          match decision snapshot with
          | AllowRule | AllowAllUnavailable => Ok snapshot
          | DisallowRule => Err DisallowedPath
          | DisallowUnreachable | Bootstrap => Err RobotsUnreachable
          end)
  end.

(** [Transport::prepare] and [acquire_host] with the publisher's delay. *)
Definition admit_round (r : Round) (trace : option Trace) (target : url) (snapshot : RobotsSnapshot)
    : res (list SocketAddr * Z) :=
  _ ← frontier exclusions target None;
  addresses ← scope_resolve scope target (content_lookup r);
  let country := country exclusions addresses in
  _ ← opt_trace trace tt (fun _ => record_country r country);
  _ ← admit_country exclusions country;
  host ← HostKey_from_url target;
  gap ← acquire_gap politeness (crawl_delay_ms snapshot);
  _ ← host_permit r host gap;
  Ok (addresses, gap).

(** [for _ in 0..=retry_budget]: the list of requests sent, and what [send]
    returns for them. *)
Fixpoint send_loop (rounds : nat) (i : nat) (round : nat -> Round) (trace : option Trace)
    (transport_send : nat -> url -> list SocketAddr -> Z -> res Response)
    (target : url) (m : Manager) : Manager * list (Sent url) * res (Response * RobotsSnapshot) :=
  match rounds with
  | 0%nat => (m, [], Err RobotsUnreachable)
  | S rounds' =>
      let r := round i in
      let (m, allowed) := ensure_robots m r trace target in
      match (snapshot ← allowed; admitted ← admit_round r trace target snapshot;
             Ok (snapshot, admitted)) with
      | Err e => (m, [], Err e)
      | Ok (snapshot, (addresses, gap)) =>
          match revalidate_snapshot_before_send m (ticks_send r) target snapshot with
          | (m, Err e) => (m, [], Err e)
          | (m, Ok false) => send_loop rounds' (S i) round trace transport_send target m
          | (m, Ok true) =>
              (m, [{| sent_url := target; sent_addresses := addresses; sent_gap := gap;
                      sent_robots := snapshot; sent_round := i |}],
               response ← transport_send i target addresses MAX_CONTENT_LENGTH;
               _ ← opt_trace trace tt (fun _ => attach_robots r snapshot);
               Ok (response, snapshot))
          end
      end
  end.

Definition send_request (round : nat -> Round) (trace : option Trace)
    (transport_send : nat -> url -> list SocketAddr -> Z -> res Response)
    (target : url) (m : Manager) : Manager * list (Sent url) * res (Response * RobotsSnapshot) :=
  send_loop (S (Z.to_nat (retry_budget politeness))) 0 round trace transport_send target m.

(** A traced request from admission to response, as the executor makes it. *)
Definition fetch (reg : HostRegistry) (previous_languages : url -> res (option (list str))) (now : Z)
    (round : nat -> Round) (trace : option Trace)
    (transport_send : nat -> url -> list SocketAddr -> Z -> res Response)
    (m : Manager) (u : url) : Manager * list (Sent url) * res (Response * RobotsSnapshot) :=
  match get_traced reg previous_languages now u with
  | Err e => (m, [], Err e)
  | Ok target => send_request round trace transport_send target m
  end.

(** ** Every content request was admitted by every component *)

(** The checks of [get_traced]: a fetchable URL in scope, not excluded, on a
    host without a running block. *)
Record url_admitted (reg : HostRegistry) (previous_languages : url -> res (option (list str)))
    (now : Z) (u target : url) : Prop := {
  admitted_parse : parse_fetch_url (url_as_str u) = Ok target;
  admitted_scope : validate scope target false = Ok tt;
  admitted_languages : exists languages, previous_languages target = Ok languages /\
    is_ok (frontier exclusions target languages) = true;
  admitted_host : exists host st, HostKey_from_url target = Ok host /\ state reg host = Ok st /\
    opt_le (blocked_until_utc st) (Some now) /\ opt_le (retry_at_utc st) (Some now);
}.

(** The call of the robots manager in a round. *)
Definition robots_call (trace : option Trace) (target : url) (r : Round) : Call :=
  {| call_world := robots_world r; call_trace := trace; call_url := target |}.
(** The calls of the rounds of one request up to [i], the latest first. *)
Definition robots_calls (trace : option Trace) (target : url) (round : nat -> Round) (i : nat) : list Call :=
  map (fun k => robots_call trace target (round k)) (rev (seq 0 (S i))).

(** What holds of a request that was sent in round [r], after the calls [calls] of
    the robots manager. *)
Record request_admitted (calls : list Call) (r : Round) (m : Manager) (q : Sent url) : Prop := {
  request_robots : permits (decision (sent_robots q)) = true /\
    permission scope exclusions calls (sent_url q) (sent_robots q);
  request_fresh : exists key c, OriginKey_from_url (sent_url q) = Ok key /\ m !! key = Some (Some c) /\
    expired c (ticks_send r) = false /\ fetched_at_utc (snapshot c) = fetched_at_utc (sent_robots q);
  request_addresses : pin_ok scope (sent_addresses q) /\
    admit_country exclusions (country exclusions (sent_addresses q)) = Ok tt;
  request_gap : HARD_MIN_HOST_GAP_MS <= sent_gap q /\ gap_ms politeness <= sent_gap q /\
    opt_le (crawl_delay_ms (sent_robots q)) (Some (sent_gap q)) /\
    opt_le (crawl_delay_ms (sent_robots q)) (Some (MAX_ACCEPTED_CRAWL_DELAY_SECS * 1000));
  request_permit : exists host, HostKey_from_url (sent_url q) = Ok host /\
    host_permit r host (sent_gap q) = Ok tt;
}.

Lemma get_traced_Ok reg previous now u target :
  get_traced reg previous now u = Ok target -> url_admitted reg previous now u target.
Proof.
  unfold get_traced. intros (v & Hp & H)%bind_Ok. apply bind_Ok in H as ([] & Hv & H).
  apply bind_Ok in H as (ls & Hl & H). apply bind_Ok in H as (cm & Hf & H).
  apply bind_Ok in H as (host & Hh & H). apply bind_Ok in H as (st & Hs & H).
  apply bind_Ok in H as ([] & Hb%refuse_if_Ok & [= ->]). split; [done|done|..].
  - exists ls. by rewrite Hf.
  - exists host, st. split_and!; [done|done|..].
    all: destruct (blocked_until_utc st), (retry_at_utc st); cbn in Hb |- *; bool_to_prop; lia.
Qed.

Lemma acquire_gap_Ok delay gap :
  acquire_gap politeness delay = Ok gap ->
  HARD_MIN_HOST_GAP_MS <= gap /\ gap_ms politeness <= gap /\
  opt_le delay (Some gap) /\ opt_le delay (Some (MAX_ACCEPTED_CRAWL_DELAY_SECS * 1000)).
Proof.
  unfold acquire_gap. destruct (match delay with Some _ => _ | None => _ end) eqn:Hd; [done|].
  intros [= <-]. destruct delay; cbn in *; bool_to_prop; lia.
Qed.

Lemma ensure_robots_Ok calls m r trace target m' s :
  manager_ok scope exclusions cache_secs calls m -> ensure_robots m r trace target = (m', s) ->
  manager_ok scope exclusions cache_secs (robots_call trace target r :: calls) m' /\
  forall snapshot, s = Ok snapshot ->
    permits (decision snapshot) = true /\
    permission scope exclusions (robots_call trace target r :: calls) target snapshot.
Proof.
  intros Hm. unfold ensure_robots. destruct (snapshot_traced _ _ _ _ _ _ _ _) as [[m1 log] answer] eqn:Ha.
  intros [= <- <-]. split; [by apply (snapshot_cases _ _ _ calls) in Ha as [? _]|].
  intros snapshot (s & -> & H)%bind_Ok. apply bind_Ok in H as ([] & _ & H).
  assert (s = snapshot /\ permits (decision s) = true) as [-> Hp]
    by (destruct (decision s); simplify_eq; done).
  split; [done|]. by apply (snapshot_permission _ _ _ calls) in Ha as [_ ?].
Qed.

Lemma admit_round_Ok r trace target s addresses gap :
  admit_round r trace target s = Ok (addresses, gap) ->
  pin_ok scope addresses /\ admit_country exclusions (country exclusions addresses) = Ok tt /\
  acquire_gap politeness (crawl_delay_ms s) = Ok gap /\
  exists host, HostKey_from_url target = Ok host /\ host_permit r host gap = Ok tt.
Proof.
  unfold admit_round. intros (cm & _ & H)%bind_Ok. apply bind_Ok in H as (addrs & Ha & H).
  apply bind_Ok in H as ([] & _ & H). apply bind_Ok in H as ([] & Hc & H).
  apply bind_Ok in H as (host & Hh & H). apply bind_Ok in H as (g & Hg & H).
  apply bind_Ok in H as ([] & Hp & [= <- <-]). apply scope_resolve_Ok in Ha. eauto 6.
Qed.

Lemma revalidate_Ok m ticks target s m' answer :
  revalidate_snapshot_before_send m ticks target s = (m', answer) ->
  (forall calls, manager_ok scope exclusions cache_secs calls m -> manager_ok scope exclusions cache_secs calls m') /\
  (answer = Ok true -> exists key c, OriginKey_from_url target = Ok key /\ m' !! key = Some (Some c) /\
     expired c ticks = false /\ fetched_at_utc (snapshot c) = fetched_at_utc s).
Proof.
  unfold revalidate_snapshot_before_send.
  destruct (entry m target) as [[key m1]|e] eqn:He; [|by intros [= <- <-]].
  intros [= <- <-]. destruct (origin_entry_ok scope exclusions cache_secs _ _ _ _ He) as (Hm1 & Hk & _). split; [done|].
  destruct (m1 !! key) as [[c|]|] eqn:Hl; cbn; [|done..]. intros [= H]. bool_to_prop. eauto 7.
Qed.

Lemma robots_calls_S trace target round i :
  robots_calls trace target round (S i) =
  robots_call trace target (round (S i)) :: robots_calls trace target round i.
Proof. unfold robots_calls. by rewrite (seq_S (S i)), rev_app_distr. Qed.
Lemma send_loop_admits calls rounds i round trace send target m m' sent result :
  manager_ok scope exclusions cache_secs
    (match i with O => [] | S k => robots_calls trace target round k end ++ calls) m ->
  send_loop rounds i round trace send target m = (m', sent, result) ->
  (length sent <= 1)%nat /\
  forall q, q ∈ sent -> sent_url q = target /\
    request_admitted (robots_calls trace target round (sent_round q) ++ calls) (round (sent_round q)) m' q.
Proof.
  revert i m; induction rounds as [|rounds IH]; intros i m Hm; cbn [send_loop].
  { intros [= <- <- _]. split; [cbn; lia|]. by intros ? ?%elem_of_nil. }
  destruct (ensure_robots m (round i) trace target) as [m1 allowed] eqn:He.
  apply (ensure_robots_Ok _ _ _ _ _ _ _ Hm) in He.
  assert (forall k, robots_call trace target (round k) ::
    match k with O => [] | S j => robots_calls trace target round j end ++ calls =
    robots_calls trace target round k ++ calls) as Hcalls by (intros [|k]; [done|by rewrite robots_calls_S]).
  rewrite Hcalls in He. destruct He as [Hm1 He].
  destruct (_ ≫= _) as [[snapshot [addresses gap]]|e] eqn:Hin.
  2: { intros [= <- <- _]. split; [cbn; lia|]. by intros ? ?%elem_of_nil. }
  apply bind_Ok in Hin as (s & -> & Hin). apply bind_Ok in Hin as (ad & Had & [= -> ->]).
  destruct (He snapshot eq_refl) as [Hp Hperm]. apply admit_round_Ok in Had as (Hpin & Hc & Hg & Hh).
  destruct (revalidate_snapshot_before_send _ _ _ _) as [m2 answer] eqn:Hr.
  apply revalidate_Ok in Hr as [Hm2 Hr]. specialize (Hm2 _ Hm1).
  destruct answer as [[]|e]; [|by apply IH|intros [= <- <- _]; split; [cbn; lia|by intros ? ?%elem_of_nil]].
  intros [= <- <- _]. split; [cbn; lia|]. intros q ->%list_elem_of_singleton. split; [done|].
  split; cbn [sent_url sent_robots sent_round sent_addresses sent_gap];
    [done|by apply Hr|done|by apply acquire_gap_Ok|done].
Qed.

(** C9: No content request leaves the program unless every component admits it.
    A fetch sends at most one request, and one it sends is for a fetchable URL
    in scope that is not excluded, on a host with no running block; robots.txt
    permits it, on a response for the robots.txt of its origin that a robots call
    of this fetch or an earlier one really got and whose body arrived whole, and
    that answer is still fresh at the send; the addresses are the vetted ones, in
    an admitted country; and the host permit was granted for a gap no smaller than
    the policy's, the compiled-in minimum and the publisher's delay, which is at
    most the ceiling. *)
Theorem content_requests_are_admitted calls reg previous now round trace transport_send m u m' sent r :
  reachable scope exclusions cache_secs calls m ->
  fetch reg previous now round trace transport_send m u = (m', sent, r) ->
  (length sent <= 1)%nat /\
  forall q, q ∈ sent ->
    url_admitted reg previous now u (sent_url q) /\
    request_admitted (robots_calls trace (sent_url q) round (sent_round q) ++ calls) (round (sent_round q)) m' q.
Proof.
  intros Hm%reachable_manager_ok. unfold fetch. destruct (get_traced _ _ _ _) as [target|e] eqn:Hg.
  - intros Hs. apply (send_loop_admits calls) in Hs as [Hl Hq]; [|done]. split; [done|].
    intros q [Hu Hadm]%Hq. subst target. split; [by apply get_traced_Ok|done].
  - intros [= <- <- _]. split; [cbn; lia|]. by intros ? ?%elem_of_nil.
Qed.
End Client.

Module ClientWitness.
Import NomReference PercentReference UrlReference ChronoReference DigestReference ExclusionExamples
  HostExamples RobotsWitness.

Definition round0 : Round := {|
  robots_world := world0 200; ticks_robots := 100; record_robots _ := Ok tt;
  content_lookup _ := Ok [V4 93 184 215 14]; record_country _ := Ok tt;
  host_permit _ _ := Ok tt; ticks_send := 900; attach_robots _ := Ok tt |}.
Definition page_response : Response := {| status := 200; headers := ∅; body := Ok [104; 105] |}.
Definition fetched (u : RefUrl) :=
  fetch Production open_policy 3600 PolitenessConfig_default empty_registry (fun _ => Ok None) 0
    (fun _ => round0) (Some trace0) (fun _ _ _ _ => Ok page_response) ∅ u.

Definition fetched0 := fetched target0.
Definition nothing_sent : Sent RefUrl :=
  {| sent_url := target0; sent_addresses := []; sent_gap := 0; sent_robots := blank; sent_round := 0 |}.
Definition request0 : Sent RefUrl := default nothing_sent (head fetched0.1.2).
Lemma fetched0_sends : fetched0 = (fetched0.1.1, [request0], fetched0.2).
Proof. vm_compute. reflexivity. Qed.

Lemma content_requests_are_admitted_witness :
  sent_gap request0 = 10000 /\
  request_admitted Production open_policy PolitenessConfig_default
    [robots_call (Some trace0) (sent_url request0) round0] round0 fetched0.1.1 request0.
Proof.
  split; [vm_compute; reflexivity|].
  exact (proj2 (proj2 (content_requests_are_admitted Production open_policy 3600 PolitenessConfig_default
    [] empty_registry (fun _ => Ok None) 0 (fun _ => round0) (Some trace0) (fun _ _ _ _ => Ok page_response)
    ∅ target0 fetched0.1.1 [request0] fetched0.2 (reachable_new _ _ _) fetched0_sends)
    request0 (proj2 (list_elem_of_singleton request0 request0) eq_refl))).
Defined.

(** A disallowed path is not requested. *)
Example private_path_not_sent :
  fetched (parse_url "https://a.example/public/../private/x") =
    ((fetched target0).1.1, [], Err DisallowedPath).
Proof. vm_compute. reflexivity. Qed.
End ClientWitness.
