(* ===== verification/Disk.v ===== *)
(** * Shared file checks ([compliance/disk.rs])

    The names a store recognises as its own staging files, the comparison of
    two checkpoint captures and the predicates on captured file facts. *)

From S2P Require Import Prelude Text.

#[local] Open Scope Z_scope.

Definition dot : char := 46.

(** [str::parse::<u32>]. *)
Definition parse_u32 (s : str) : option Z :=
  n ← parse_u64 s; if n <=? u32_max then Some n else None.

Definition owned_temp_name (name : str) (families : list str) : bool :=
  match split dot name with
  | [family; pid; counter; suffix] =>
      if negb (bool_decide (family ∈ families)) || negb (str_eqb suffix (lit "tmp")) then false
      else
        match parse_u32 pid with
        | Some n => (0 <? n) && str_eqb (dec n) pid
        | None => false
        end &&
        match parse_u64 counter with Some n => str_eqb (dec n) counter | None => false end
  | _ => false
  end.

Record Checkpoint := {
  checkpoint_version : Z;
  checkpoint_sequence : Z;
  checkpoint_hash : str;
  checkpoint_bytes : Z;
}.
#[export] Instance Checkpoint_eq_dec : EqDecision Checkpoint.
Proof. solve_decision. Defined.

(** [from_slice] is [serde_json::from_slice::<Checkpoint>]. *)
Definition checkpoint_stable (from_slice : list Z -> option Checkpoint) (before after : list Z) : bool :=
  match from_slice before, from_slice after with
  | Some before, Some after =>
      (checkpoint_version before =? 1) && (checkpoint_version after =? 1) &&
      (bool_decide (before = after) ||
       ((checkpoint_sequence before <? checkpoint_sequence after) &&
        (checkpoint_bytes before <? checkpoint_bytes after)))
  | _, _ => false
  end.

(** [mode & 0o077 != 0]: some bit for the group or others is set. *)
Definition shared_mode (mode : Z) : bool := negb (Z.land mode 63 =? 0).
Definition validate_parent_facts (uid mode effective_uid : Z) : bool :=
  negb (negb (uid =? effective_uid) || shared_mode mode).
Definition validate_file_facts (is_file : bool) (links uid mode effective_uid : Z) : bool :=
  negb (negb is_file || negb (links =? 1) || negb (uid =? effective_uid) || shared_mode mode).

(** [name] of a staging file of [family]. *)
Definition staging_name (family : str) (pid counter : Z) : str :=
  family ++ dot :: dec pid ++ dot :: dec counter ++ dot :: lit "tmp".

(** ** Decimal spellings *)

Lemma digits_value_app s c : digits_value (s ++ [c]) = 10 * digits_value s + (c - 48).
Proof. unfold digits_value. by rewrite fold_left_app. Qed.

Definition digit_char (c : char) : Prop := 48 <= c <= 57.

Lemma dec_digits_spec fuel n acc :
  0 <= n < 10 ^ Z.of_nat fuel -> (0 < fuel)%nat ->
  exists ds, dec_digits fuel n acc = ds ++ acc /\ ds <> [] /\ Forall digit_char ds /\ digits_value ds = n.
Proof.
  revert n acc; induction fuel as [|fuel IH]; intros n acc Hn Hf; [lia|]. cbn [dec_digits].
  pose proof (Z.mod_pos_bound n 10 ltac:(lia)) as Hm. destruct (Z.ltb_spec n 10) as [Hlt|Hge].
  - exists [48 + n mod 10]. rewrite Z.mod_small by lia. split_and!; [done|done| |].
    + constructor; [unfold digit_char; lia|done].
    + unfold digits_value. cbn [fold_left]. lia.
  - rewrite Nat2Z.inj_succ, Z.pow_succ_r in Hn by lia.
    destruct (IH (n / 10) ((48 + n mod 10) :: acc)) as (ds & -> & Hne & Hd & Hv).
    { pose proof (Z.div_mod n 10 ltac:(lia)). lia. }
    { destruct fuel; [cbn in Hn|]; lia. }
    exists (ds ++ [48 + n mod 10]). split_and!.
    + by rewrite <- app_assoc.
    + by destruct ds.
    + apply Forall_app. split; [done|]. constructor; [unfold digit_char; lia|done].
    + rewrite digits_value_app, Hv. pose proof (Z.div_mod n 10 ltac:(lia)). lia.
Qed.

Lemma dec_spec n :
  0 <= n <= u64_max -> dec n <> [] /\ Forall digit_char (dec n) /\ digits_value (dec n) = n.
Proof.
  intros Hn. unfold dec. destruct (dec_digits_spec 20 n []) as (ds & -> & H); [|lia|by rewrite app_nil_r].
  split; [lia|]. apply Z.le_lt_trans with u64_max; [lia|by vm_compute].
Qed.

Lemma parse_u64_dec n : 0 <= n <= u64_max -> parse_u64 (dec n) = Some n.
Proof.
  intros Hn. destruct (dec_spec n Hn) as (Hne & Hd & Hv). unfold parse_u64.
  destruct (dec n) as [|c s] eqn:E; [done|].
  assert (match c :: s with 43 :: b => b | _ => c :: s end = c :: s) as ->.
  { apply Forall_cons in Hd as [Hc _]. unfold digit_char in Hc. by repeat (case_match; try lia; try done). }
  assert (all_digits (c :: s) = true) as ->.
  { apply forallb_forall. intros d Hin. apply list_elem_of_In in Hin. rewrite Forall_forall in Hd.
    specialize (Hd d Hin). unfold digit_char in Hd. unfold is_ascii_digit, between. lia. }
  rewrite Hv. cbn [is_empty negb andb]. by rewrite (proj2 (Z.leb_le _ _)) by lia.
Qed.

Lemma parse_u32_dec n : 0 <= n <= u32_max -> parse_u32 (dec n) = Some n.
Proof.
  intros Hn. unfold parse_u32. rewrite parse_u64_dec by (ints; lia). cbn.
  by rewrite (proj2 (Z.leb_le _ _)) by lia.
Qed.

Lemma dec_clean n : 0 <= n <= u64_max -> dot ∉ dec n.
Proof.
  intros Hn Hin. destruct (dec_spec n Hn) as (_ & Hd & _). rewrite Forall_forall in Hd.
  apply Hd in Hin. unfold digit_char, dot in Hin. lia.
Qed.

Lemma parse_u64_range s n : parse_u64 s = Some n -> 0 <= n <= u64_max.
Proof.
  intros H. split; [by eapply parse_u64_nonneg|]. unfold parse_u64 in H.
  repeat case_match; simplify_eq; bool_to_prop; lia.
Qed.

Lemma split_staging family pid counter :
  dot ∉ family -> 0 <= pid <= u64_max -> 0 <= counter <= u64_max ->
  split dot (staging_name family pid counter) = [family; dec pid; dec counter; lit "tmp"].
Proof.
  intros Hf Hp Hc. unfold staging_name. rewrite !split_app.
  rewrite !split_clean by (by try apply dec_clean). done.
Qed.

(** A store recognises as its own staging files exactly the names it
    makes. A directory entry is a staging file if and only if it is one of the
    families, a positive 32-bit process id, a 64-bit counter and the suffix,
    each number in its canonical decimal spelling; so sweeping never removes a
    snapshot, a lock or any other file. *)
Theorem staging_names_are_exact name families :
  Forall (fun family => dot ∉ family) families ->
  owned_temp_name name families = true <->
  exists family pid counter, family ∈ families /\ 0 < pid <= u32_max /\ 0 <= counter <= u64_max /\
    name = staging_name family pid counter.
Proof.
  intros Hf. unfold owned_temp_name. split.
  - pose proof (join_split dot name) as Hj.
    destruct (split dot name) as [|f [|p [|c [|x [|]]]]]; try done.
    case_match eqn:Hg; [done|]. bool_to_prop. intros [Hp Hc]%andb_true_iff.
    destruct (parse_u32 p) as [pid|] eqn:Ep; [|done]. destruct (parse_u64 c) as [n|] eqn:Ec; [|done].
    bool_to_prop. apply str_eqb_eq in Hc. unfold parse_u32 in Ep.
    apply bind_Some in Ep as (pid' & Ep & Hr). case_match; [|done]. bool_to_prop. simplify_eq.
    apply parse_u64_range in Ec. exists f, pid, n. split_and!; [done|lia..|].
    repeat match goal with H : str_eqb _ _ = true |- _ => apply str_eqb_eq in H end. by subst.
  - intros (f & pid & n & Hin & Hp & Hn & ->). rewrite Forall_forall in Hf.
    rewrite split_staging by (try apply Hf; ints; (done || lia)).
    rewrite (bool_decide_eq_true_2 _ Hin), str_eqb_refl. cbn [negb orb].
    rewrite parse_u32_dec, parse_u64_dec, !str_eqb_refl by lia. bool_to_prop.
    rewrite (proj2 (Z.ltb_lt _ _)) by lia. done.
Qed.

Lemma staging_names_are_exact_witness :
  owned_temp_name (lit "snapshot.77.3.tmp") [lit "snapshot"] = true /\
  (owned_temp_name (lit "snapshot.077.3.tmp") [lit "snapshot"] = true -> False).
Proof.
  assert (Forall (fun family => dot ∉ family) [lit "snapshot"]) as Hf.
  { constructor; [|done]. by apply contains_char_false. }
  split.
  - apply (staging_names_are_exact _ _ Hf). exists (lit "snapshot"), 77, 3. split_and!; [by left|done..].
  - vm_compute. discriminate.
Defined.
