(* ===== verification/Compliance.v ===== *)
(** * Compliance: bounds, statutory clock and settings

    The error values ([compliance/mod.rs]), the table of inclusive limits and
    the text classes ([compliance/bounds.rs]), the checked UTC arithmetic
    ([compliance/clock.rs]) and the settings with their defaults
    ([config/compliance.rs]). *)

From S2P Require Import Prelude Text Externals.

#[local] Open Scope Z_scope.

Inductive Error :=
| InvalidInput | InvalidTransition | NotFound | Unavailable | Capacity | RulesUnavailable
| RetentionNotDue.
#[export] Instance Error_eq_dec : EqDecision Error.
Proof. solve_decision. Defined.

Abbreviation cres := (result Error).

(** ** clock.rs: periods *)

Definition INTIMATE_PERIOD_SECONDS : Z := 172800.
Definition DATA_RIGHTS_MONTHS : Z := 1.
Definition EXTENSION_MONTHS : Z := 2.
Definition COMPLAINT_ACK_SECONDS : Z := 2592000.
Definition REVIEW_FRESHNESS_SECONDS : Z := 31536000.
Definition CHILD_RISK_MONTHS : Z := 3.
Definition MIN_RETENTION_MONTHS : Z := 36.

(** ** bounds.rs *)

Inductive BoundKey :=
| Key_Contact | Key_Narrative | Key_Reason | Key_Evidence | Key_Url | Key_Urls | Key_Name
| Key_RequiredNames | Key_OptionalNames | Key_NameTokens | Key_Actor | Key_Label | Key_Slug
| Key_DeliveryRef | Key_QueueLimit | Key_JournalRow | Key_PayloadFile | Key_ServiceNotice
| Key_TicketPayload | Key_ListFile | Key_ListEntries | Key_TokenBytes | Key_IdBytes
| Key_SaltBytes | Key_HexBytes | Key_TokenFile | Key_RecordItems | Key_OptionalRecordItems
| Key_RecordHistory | Key_OptionalHistory | Key_PriorityKinds | Key_ChildrenClasses
| Key_MeasureRows | Key_ReleaseChanges | Key_IntimateMargin | Key_RetentionMonths
| Key_MaxTickets | Key_MaxTicketEvents | Key_MaxJournalBytes | Key_MaxPayloadBytes
| Key_MaxRules | Key_MaxRulesBytes | Key_MaxRecords | Key_MaxRecordBytes | Key_MaxRecordsBytes
| Key_ReadingAge | Key_ReservedEvents | Key_ReservedJournalBytes.
#[export] Instance BoundKey_eq_dec : EqDecision BoundKey.
Proof. solve_decision. Defined.

Record BoundSpec := spec_row {
  spec_key : BoundKey;
  spec_default : option Z;
  spec_min : Z;
  spec_max : Z;
  spec_unit : string;
}.

(** The rows of the table: key, default, inclusive minimum and maximum. *)
Definition RANGE_SPECS : list BoundSpec :=
  [ spec_row Key_Contact None 1 254 "bytes";
    spec_row Key_Narrative None 1 4096 "bytes";
    spec_row Key_Reason None 1 2048 "bytes";
    spec_row Key_Evidence None 1 1024 "bytes";
    spec_row Key_Url None 1 2048 "bytes";
    spec_row Key_Urls None 1 16 "items";
    spec_row Key_Name None 1 128 "bytes";
    spec_row Key_RequiredNames None 1 8 "items";
    spec_row Key_OptionalNames None 0 8 "items";
    spec_row Key_NameTokens None 1 16 "items";
    spec_row Key_Actor None 1 64 "bytes";
    spec_row Key_Label None 1 128 "bytes";
    spec_row Key_Slug None 1 64 "bytes";
    spec_row Key_DeliveryRef None 1 128 "bytes";
    spec_row Key_QueueLimit (Some 20) 1 50 "items";
    spec_row Key_JournalRow None 1 8192 "bytes";
    spec_row Key_PayloadFile None 1 65536 "bytes";
    spec_row Key_ServiceNotice None 1 65536 "bytes";
    spec_row Key_TicketPayload None 0 1048576 "bytes";
    spec_row Key_ListFile None 1 16777216 "bytes";
    spec_row Key_ListEntries None 0 100000 "items";
    spec_row Key_TokenBytes None 32 32 "bytes";
    spec_row Key_IdBytes None 32 32 "bytes";
    spec_row Key_SaltBytes None 32 32 "bytes";
    spec_row Key_HexBytes None 64 64 "bytes";
    spec_row Key_TokenFile None 64 65 "bytes";
    spec_row Key_RecordItems None 1 64 "items";
    spec_row Key_OptionalRecordItems None 0 64 "items";
    spec_row Key_RecordHistory None 1 32 "items";
    spec_row Key_OptionalHistory None 0 32 "items";
    spec_row Key_PriorityKinds None 17 17 "items";
    spec_row Key_ChildrenClasses None 3 3 "items";
    spec_row Key_MeasureRows None 28 28 "items";
    spec_row Key_ReleaseChanges None 0 10 "items";
    spec_row Key_IntimateMargin (Some 172800) 1 172800 "seconds";
    spec_row Key_RetentionMonths (Some 36) MIN_RETENTION_MONTHS 120 "months";
    spec_row Key_MaxTickets (Some 10000) 1 100000 "items";
    spec_row Key_MaxTicketEvents (Some 256) 16 256 "events";
    spec_row Key_MaxJournalBytes (Some 268435456) 1048576 2684354560 "bytes";
    spec_row Key_MaxPayloadBytes (Some 268435456) 1048576 2684354560 "bytes";
    spec_row Key_MaxRules (Some 100000) 1 100000 "items";
    spec_row Key_MaxRulesBytes (Some 16777216) 4096 16777216 "bytes";
    spec_row Key_MaxRecords (Some 10000) 1 10000 "items";
    spec_row Key_MaxRecordBytes (Some 1048576) 4096 1048576 "bytes";
    spec_row Key_MaxRecordsBytes (Some 268435456) 1048576 2684354560 "bytes";
    spec_row Key_ReadingAge (Some 12) 8 16 "years";
    spec_row Key_ReservedEvents (Some 4) 4 4 "events";
    spec_row Key_ReservedJournalBytes (Some 65536) 65536 65536 "bytes" ].


(** [find(..).expect("complete bounds table")]; that the search never fails is
    [spec_found]. *)
Definition spec_of (key : BoundKey) : option BoundSpec :=
  List.find (fun s => bool_decide (spec_key s = key)) RANGE_SPECS.
Definition spec (key : BoundKey) : BoundSpec := default (spec_row key None 0 0 "") (spec_of key).

Definition validate_range (value min max : Z) : cres unit :=
  if (min <=? value) && (value <=? max) then Ok tt else Err InvalidInput.
Definition validate (key : BoundKey) (value : Z) : cres unit :=
  validate_range value (spec_min (spec key)) (spec_max (spec key)).

Inductive TextClass := Class_Narrative | Class_Label | Class_Slug | Class_Hex.

Definition nonblank (text : str) : cres unit :=
  if is_empty (trim text) then Err InvalidInput else Ok tt.

Definition hex_digit (c : char) : bool := is_ascii_digit c || between 97 102 c.

Definition char_valid (class : TextClass) (index : nat) (c : char) : bool :=
  match class with
  | Class_Narrative => negb (is_control c) || (c =? ch_lf) || (c =? ch_tab)
  | Class_Label => negb (is_control c)
  | Class_Slug =>
      is_ascii_lowercase c || is_ascii_digit c ||
      (negb (bool_decide (index = 0%nat)) && one_char_of [ch_underscore; 46; ch_minus] c)
  | Class_Hex => hex_digit c
  end.
Definition characters (text : str) (class : TextClass) : cres unit :=
  if forallb (fun '(index, c) => char_valid class index c) (zip (seq 0 (length text)) text)
  then Ok tt else Err InvalidInput.

Definition text (value : str) (bound : BoundKey) (class : TextClass) : cres unit :=
  _ ← validate bound (byte_len value); _ ← nonblank value; characters value class.

Definition reserve (current additional maximum reserved : Z) : cres Z :=
  total ← ok_or (u64_checked_add current additional) Capacity;
  limit ← ok_or (u64_checked_sub maximum reserved) Capacity;
  _ ← map_err Capacity (validate_range total 0 limit);
  Ok total.

(** ** clock.rs: arithmetic

    An instant is its UTC second. *)

Section Clock.
Context `{Chrono}.

Definition instant (seconds : Z) : cres Z :=
  if timestamp_ok seconds then Ok seconds else Err InvalidInput.
Definition add_seconds (at_ seconds : Z) : cres Z :=
  result ← ok_or (i64_checked_add at_ seconds) InvalidInput; _ ← instant result; Ok result.
Definition add_months (at_ months : Z) : cres Z :=
  _ ← instant at_; ok_or (add_calendar_months at_ months) InvalidInput.

Definition review_fresh (last_reviewed_at now : Z) : cres bool :=
  _ ← instant now;
  _ ← refuse_if (now <? last_reviewed_at) InvalidInput;
  until ← add_seconds last_reviewed_at REVIEW_FRESHNESS_SECONDS;
  Ok (now <=? until).
Definition child_risk_due (concluded_at : Z) : cres Z := add_months concluded_at CHILD_RISK_MONTHS.
Definition child_risk_overdue (concluded_at now : Z) : cres bool :=
  _ ← instant now;
  _ ← refuse_if (now <? concluded_at) InvalidInput;
  due ← child_risk_due concluded_at;
  Ok (due <? now).
Definition intimate_due (received_at : Z) : cres Z :=
  add_seconds received_at INTIMATE_PERIOD_SECONDS.
Definition intimate_effective (received_at margin : Z) : cres Z :=
  _ ← validate Key_IntimateMargin margin;
  due ← intimate_due received_at;
  add_seconds due (- u64_as_i64 margin).
(** [a && b?]: the deadline is computed only when the first test holds. *)
Definition intimate_on_time (received_at actioned_at : Z) : cres bool :=
  if actioned_at <? received_at then Ok false
  else due ← intimate_due received_at; Ok (actioned_at <=? due).
Definition data_rights_due (relevant_at : Z) (extended : bool) : cres Z :=
  months ← ok_or (u32_checked_add DATA_RIGHTS_MONTHS (if extended then EXTENSION_MONTHS else 0))
             InvalidInput;
  add_months relevant_at months.
Definition data_rights_overdue (relevant_at : Z) (extended : bool) (now : Z) : cres bool :=
  due ← data_rights_due relevant_at extended; Ok (due <? now).
Definition complaint_ack_due (received_at : Z) : cres Z :=
  add_seconds received_at COMPLAINT_ACK_SECONDS.
Definition complaint_ack_on_time (received_at acknowledged_at : Z) : cres bool :=
  if acknowledged_at <? received_at then Ok false
  else due ← complaint_ack_due received_at; Ok (acknowledged_at <=? due).
Definition retention_due (closed_at retention_months : Z) : cres Z :=
  _ ← validate Key_RetentionMonths retention_months; add_months closed_at retention_months.
Definition retention_elapsed (closed_at retention_months now : Z) : cres bool :=
  due ← retention_due closed_at retention_months; Ok (due <=? now).
End Clock.

(** ** config/compliance.rs: settings *)

Inductive DeploymentMode := Local | Hosted.
Record StatementChange := {
  change_version : str;
  change_at : Z;
  change_summary : str;
}.
Record ComplianceConfig := {
  deployment_mode : DeploymentMode;
  store_dir : option str;
  records_dir : option str;
  admin_token_file : option str;
  listed_hashes_file : option str;
  intimate_margin_seconds : Z;
  retention_months : Z;
  max_tickets : Z;
  max_ticket_events : Z;
  max_journal_bytes : Z;
  max_payload_bytes : Z;
  max_rules : Z;
  max_rules_bytes : Z;
  max_records : Z;
  max_record_bytes : Z;
  max_records_bytes : Z;
  statement_version : str;
  statement_changes : list StatementChange;
  reading_age : Z;
  priority_catalog_version : option str;
  priority_catalog_source : option str;
  priority_kind_labels : list (option str);
  public_contact : option str;
  ico_complaints_url : option str;
  statement_proactive : option str;
  statement_complaints : option str;
  statement_children_primary : option str;
  statement_children_priority : option str;
  statement_children_other : option str;
  unfounded_policy_version : str;
}.

(** [key.spec().default.expect("configured default")]. *)
Definition configured (key : BoundKey) : Z := default 0 (spec_default (spec key)).
Definition StatementChange_default : StatementChange := {|
  change_version := lit "619.1";
  change_at := 1789689600;
  change_summary := lit "Initial local compliance surfaces; approvals pending";
|}.
Definition ComplianceConfig_default : ComplianceConfig := {|
  deployment_mode := Local;
  store_dir := None;
  records_dir := None;
  admin_token_file := None;
  listed_hashes_file := None;
  intimate_margin_seconds := configured Key_IntimateMargin;
  retention_months := configured Key_RetentionMonths;
  max_tickets := configured Key_MaxTickets;
  max_ticket_events := configured Key_MaxTicketEvents;
  max_journal_bytes := configured Key_MaxJournalBytes;
  max_payload_bytes := configured Key_MaxPayloadBytes;
  max_rules := configured Key_MaxRules;
  max_rules_bytes := configured Key_MaxRulesBytes;
  max_records := configured Key_MaxRecords;
  max_record_bytes := configured Key_MaxRecordBytes;
  max_records_bytes := configured Key_MaxRecordsBytes;
  statement_version := lit "619.1";
  statement_changes := [StatementChange_default];
  reading_age := configured Key_ReadingAge;
  priority_catalog_version := None;
  priority_catalog_source := None;
  priority_kind_labels := replicate 17 None;
  public_contact := None;
  ico_complaints_url := None;
  statement_proactive := None;
  statement_complaints := None;
  statement_children_primary := None;
  statement_children_priority := None;
  statement_children_other := None;
  unfounded_policy_version := lit "619.1";
|}.

(** ** Facts *)

(** Evaluates the limits of concrete keys. *)
Ltac eval_bounds :=
  repeat match goal with
  | H : context [spec_min (spec ?k)] |- _ =>
      let v := eval vm_compute in (spec_min (spec k)) in change (spec_min (spec k)) with v in H
  | H : context [spec_max (spec ?k)] |- _ =>
      let v := eval vm_compute in (spec_max (spec k)) in change (spec_max (spec k)) with v in H
  | |- context [spec_min (spec ?k)] =>
      let v := eval vm_compute in (spec_min (spec k)) in change (spec_min (spec k)) with v
  | |- context [spec_max (spec ?k)] =>
      let v := eval vm_compute in (spec_max (spec k)) in change (spec_max (spec k)) with v
  end.

Lemma spec_found key : spec_of key = Some (spec key) /\ spec_key (spec key) = key.
Proof. by destruct key. Qed.

(** Every row of the table is a range of [u64], and holds its default. *)
Lemma spec_ranges : Forall (fun s =>
  0 <= spec_min s <= spec_max s /\ spec_max s <= u64_max /\
  match spec_default s with Some d => spec_min s <= d <= spec_max s | None => True end) RANGE_SPECS.
Proof. repeat constructor; vm_compute; congruence. Qed.

Lemma validate_range_Ok value min max u :
  validate_range value min max = Ok u <-> min <= value <= max.
Proof. unfold validate_range. destruct u. case_match; bool_to_prop; naive_solver lia. Qed.

Lemma validate_Ok key value u :
  validate key value = Ok u <-> spec_min (spec key) <= value <= spec_max (spec key).
Proof. apply validate_range_Ok. Qed.

Lemma reserve_Ok current additional maximum reserved total :
  0 <= current -> 0 <= additional ->
  reserve current additional maximum reserved = Ok total ->
  total = current + additional /\ total + reserved <= maximum.
Proof.
  intros Hc Ha Hr. unfold reserve in Hr.
  apply bind_Ok in Hr as (t & [-> _]%ok_or_Ok%u64_checked_add_Some & Hr).
  apply bind_Ok in Hr as (l & [-> _]%ok_or_Ok%u64_checked_sub_Some & Hr).
  apply bind_Ok in Hr as (v & ?%map_err_Ok%validate_range_Ok & [= <-]). lia.
Qed.
