(* ===== verification/Canonical.v ===== *)
(** * Canonical JSON ([compliance/payload.rs], [canonical_value])

    The commitment of a personal revision is taken over recursively sorted
    JSON. Two values have the same canonical text exactly when they are equal
    up to the order of object members. *)

From S2P Require Import Prelude Text Disk Compliance.

#[local] Open Scope Z_scope.

(** [serde_json::Value]. A number is an integer ([is_i64] or [is_u64]) or not. *)
Inductive Value :=
| V_Null
| V_Bool (b : bool)
| V_Integer (n : Z)
| V_Float (text : list Z)
| V_String (s : str)
| V_Array (l : list Value)
| V_Object (l : list (str * Value)).

(** [serde_json::to_vec] at strings and at integers. *)
Class JsonText := {
  string_to_vec : str -> option (list Z);
  integer_to_vec : Z -> option (list Z);
}.
Definition number_char (c : Z) : bool := is_ascii_digit c || (c =? ch_minus).
(** A JSON string is quoted and ends at its closing quote; an integer is
    written with digits and a sign. *)
Class JsonTextLaws (T : JsonText) : Prop := {
  string_delimited s s' b b' r r' :
    string_to_vec s = Some b -> string_to_vec s' = Some b' -> b ++ r = b' ++ r' -> s = s' /\ r = r';
  string_quoted s b : string_to_vec s = Some b -> head b = Some 34;
  integer_inj n n' b : integer_to_vec n = Some b -> integer_to_vec n' = Some b -> n = n';
  integer_chars n b : integer_to_vec n = Some b -> b <> [] /\ forallb number_char b = true;
}.

Section Value.
Context (P : Value -> Prop)
  (HNull : P V_Null) (HBool : forall b, P (V_Bool b)) (HInteger : forall n, P (V_Integer n))
  (HFloat : forall t, P (V_Float t)) (HString : forall s, P (V_String s))
  (HArray : forall l, Forall P l -> P (V_Array l))
  (HObject : forall l, Forall (fun m => P m.2) l -> P (V_Object l)).
Fixpoint Value_strong_ind (v : Value) : P v :=
  match v with
  | V_Null => HNull
  | V_Bool b => HBool b
  | V_Integer n => HInteger n
  | V_Float t => HFloat t
  | V_String s => HString s
  | V_Array l => HArray l ((fix go l : Forall P l := match l with
      | [] => List.Forall_nil P
      | x :: l' => List.Forall_cons _ x l' (Value_strong_ind x) (go l')
      end) l)
  | V_Object l => HObject l ((fix go l : Forall (fun m => P m.2) l := match l with
      | [] => List.Forall_nil _
      | m :: l' => List.Forall_cons _ m l' (Value_strong_ind m.2) (go l')
      end) l)
  end.
End Value.

Section Canonical.
Context `{T : JsonText}.

(** [values[key]] of a map that holds the key. *)
Definition member {A} (key : str) (members : list (str * cres A)) : cres A :=
  match List.find (fun m => str_eqb m.1 key) members with Some m => m.2 | None => Err Unavailable end.

Definition scalar (text : option (list Z)) : cres (list Z) := ok_or text Unavailable.
Definition delimited (before after : Z) (parts : list (list Z)) : list Z :=
  before :: join [ch_comma] parts ++ [after].

(** The buffer is dropped on failure, so the text is the result. *)
Fixpoint canonical_value (v : Value) : cres (list Z) :=
  match v with
  | V_Object values =>
      let members := map (fun m => (m.1, canonical_value m.2)) values in
      parts ← try_map (fun key =>
                name ← scalar (string_to_vec key);
                text ← member key members;
                Ok (name ++ ch_colon :: text))
              (stable_sort str_cmp (map fst members));
      Ok (delimited 123 125 parts)
  | V_Array values => parts ← try_map id (map canonical_value values); Ok (delimited 91 93 parts)
  | V_Float _ => Err InvalidInput
  | V_Null => Ok (lit "null")
  | V_Bool b => Ok (lit (if b then "true" else "false"))
  | V_Integer n => scalar (integer_to_vec n)
  | V_String s => scalar (string_to_vec s)
  end.
End Canonical.

(** ** Sorted values *)

Definition key_cmp (a b : str * Value) : comparison := str_cmp a.1 b.1.
Fixpoint normalize (v : Value) : Value :=
  match v with
  | V_Object l => V_Object (stable_sort key_cmp (map (fun m => (m.1, normalize m.2)) l))
  | V_Array l => V_Array (map normalize l)
  | v => v
  end.
(** A [serde_json::Map] has each key once. *)
Inductive unique_keys : Value -> Prop :=
| unique_object l : NoDup (map fst l) -> Forall (fun m => unique_keys m.2) l -> unique_keys (V_Object l)
| unique_array l : Forall unique_keys l -> unique_keys (V_Array l)
| unique_other v : match v with V_Object _ | V_Array _ => False | _ => True end -> unique_keys v.

Section Text.
Context `{T : JsonText} `{TL : !JsonTextLaws T}.

(** The text of a value whose members are already in order. *)
Fixpoint print (v : Value) : cres (list Z) :=
  match v with
  | V_Object l =>
      parts ← try_map id (map (fun m =>
                name ← scalar (string_to_vec m.1); text ← print m.2; Ok (name ++ ch_colon :: text)) l);
      Ok (delimited 123 125 parts)
  | V_Array l => parts ← try_map id (map print l); Ok (delimited 91 93 parts)
  | V_Float _ => Err InvalidInput
  | V_Null => Ok (lit "null")
  | V_Bool b => Ok (lit (if b then "true" else "false"))
  | V_Integer n => scalar (integer_to_vec n)
  | V_String s => scalar (string_to_vec s)
  end.
Definition print_member (m : str * Value) : cres (list Z) :=
  name ← scalar (string_to_vec m.1); text ← print m.2; Ok (name ++ ch_colon :: text).

Lemma map_fst_sorted l : map fst (stable_sort key_cmp l) = stable_sort str_cmp (map fst l).
Proof.
  assert (forall x l, map fst (insert_sorted key_cmp x l) = insert_sorted str_cmp x.1 (map fst l)) as Hi.
  { intros x l'. induction l' as [|y l' IH]; [done|]. cbn. unfold key_cmp at 1.
    destruct (str_cmp x.1 y.1); [done..|]. cbn. by rewrite IH. }
  induction l as [|x l IH]; [done|]. cbn. by rewrite Hi, IH.
Qed.

Lemma try_map_id {A B E} (f : A -> result E B) l : try_map id (map f l) = try_map f l.
Proof. induction l as [|x l IH]; [done|]. cbn. by rewrite IH. Qed.

Lemma try_map_ext {A B E} (f g : A -> result E B) l :
  Forall (fun x => f x = g x) l -> try_map f l = try_map g l.
Proof. induction 1 as [|x l Hx _ IH]; [done|]. cbn. by rewrite Hx, IH. Qed.

Lemma try_map_map {A B C E} (f : B -> result E C) (g : A -> B) l :
  try_map f (map g l) = try_map (fun x => f (g x)) l.
Proof. induction l as [|x l IH]; [done|]. cbn. by rewrite IH. Qed.

Lemma member_map {A} (f : Value -> cres A) l k v :
  NoDup (map fst l) -> (k, v) ∈ l -> member k (map (fun m : str * Value => (m.1, f m.2)) l) = f v.
Proof.
  intros Hn Hin. induction l as [|m l IH]; [by apply elem_of_nil in Hin|]. cbn in Hn.
  apply NoDup_cons in Hn as [Hm Hn]. unfold member in *. cbn.
  apply elem_of_cons in Hin as [<-|Hin]; [by rewrite str_eqb_refl|].
  destruct (str_eqb m.1 k) eqn:E; [|by apply IH]. apply str_eqb_eq in E as <-.
  destruct Hm. apply list_elem_of_In. apply in_map_iff. exists (m.1, v). split; [done|].
  by apply list_elem_of_In.
Qed.

Lemma canonical_print v : unique_keys v -> canonical_value v = print (normalize v).
Proof.
  induction v as [| | | | |l IH|l IH] using Value_strong_ind; intros Hu; cbn; try done.
  - rewrite map_map, !try_map_id. f_equal. apply try_map_ext.
    inversion Hu as [|? Hl|]; [|done]; subst. rewrite Forall_forall in *. intros x Hx. auto.
  - inversion Hu as [? Hn Hl| |]; [|done]; subst. f_equal.
    rewrite map_map. cbn [fst]. rewrite !try_map_id.
    replace (map (fun m : str * Value => m.1) l) with (map fst (map (fun m : str * Value => (m.1, normalize m.2)) l))
      by (by rewrite map_map).
    rewrite <- map_fst_sorted, try_map_map. apply try_map_ext, Forall_forall.
    intros m Hm%elem_of_stable_sort%list_elem_of_In.
    apply in_map_iff in Hm as ([k x] & <- & Hin%list_elem_of_In). cbn [fst snd].
    rewrite (member_map canonical_value l k x) by done.
    rewrite Forall_forall in IH, Hl. specialize (IH _ Hin (Hl _ Hin)). cbn in IH. by rewrite IH.
Qed.

(** ** Texts end where they say *)

Definition closes (r : list Z) : Prop :=
  match r with [] => True | c :: _ => c = ch_comma \/ c = 93 \/ c = 125 end.
Definition starts (b : list Z) : Prop :=
  exists c t, b = c :: t /\ c <> ch_comma /\ c <> 93 /\ c <> 125.

Lemma number_starts n b : integer_to_vec n = Some b -> exists c t, b = c :: t /\ number_char c = true.
Proof.
  intros [Hne Hc]%integer_chars. destruct b as [|c t]; [done|]. cbn in Hc. bool_to_prop. eauto.
Qed.
Lemma string_starts s b : string_to_vec s = Some b -> exists t, b = 34 :: t.
Proof. intros H%string_quoted. destruct b; cbn in H; simplify_eq. eauto. Qed.

(** The first character tells the kind of value. *)
Definition leads (v : Value) (c : Z) : Prop :=
  match v with
  | V_Null => c = 110
  | V_Bool true => c = 116
  | V_Bool false => c = 102
  | V_Integer _ => number_char c = true
  | V_Float _ => False
  | V_String _ => c = 34
  | V_Array _ => c = 91
  | V_Object _ => c = 123
  end.
Lemma print_leads v b : print v = Ok b -> exists c t, b = c :: t /\ leads v c.
Proof.
  destruct v as [|[]|n| |s|l|l]; cbn [print]; intros H; try done.
  1-3: injection H as <-; by do 2 eexists.
  - by apply ok_or_Ok, number_starts in H.
  - apply ok_or_Ok, string_starts in H as [t ->]. by eexists _, _.
  - apply bind_Ok in H as (ps & _ & [= <-]). by eexists _, _.
  - apply bind_Ok in H as (ps & _ & [= <-]). by eexists _, _.
Qed.
Lemma number_char_range c : number_char c = true -> c = 45 \/ 48 <= c <= 57.
Proof. unfold number_char, is_ascii_digit, between, ch_minus. intros H%orb_true_iff. lia. Qed.
Lemma leads_starts v c t : leads v c -> starts (c :: t).
Proof.
  intros H. exists c, t. split; [done|]. unfold ch_comma.
  destruct v as [|[]| | | | |]; cbn in H; try (subst; lia); try done. apply number_char_range in H. lia.
Qed.
Lemma leads_kind v w c :
  leads v c -> leads w c ->
  match v, w with
  | V_Null, V_Null | V_Integer _, V_Integer _ | V_String _, V_String _ | V_Array _, V_Array _
  | V_Object _, V_Object _ => True
  | V_Bool b, V_Bool b' => b = b'
  | _, _ => False
  end.
Proof.
  intros H1 H2.
  destruct v as [|[]| | | | |], w as [|[]| | | | |]; cbn in H1, H2; try done;
    try (apply number_char_range in H1); try (apply number_char_range in H2); lia.
Qed.

Definition delimits {A} (f : A -> cres (list Z)) (x : A) : Prop :=
  forall y b b' r r', closes r -> closes r' -> f x = Ok b -> f y = Ok b' -> b ++ r = b' ++ r' ->
  x = y /\ r = r'.

Lemma join_more p ps : exists rest, join [ch_comma] (p :: ps) = p ++ rest /\
  rest = match ps with [] => [] | _ => ch_comma :: join [ch_comma] ps end.
Proof.
  destruct ps as [|q ps]; [exists []; by rewrite app_nil_r|].
  rewrite join_cons by done. by eexists.
Qed.

Lemma parts_delimit {A} (f : A -> cres (list Z)) close l l' ps ps' r r' :
  close = 93 \/ close = 125 -> (forall x b, f x = Ok b -> starts b) -> Forall (delimits f) l ->
  try_map f l = Ok ps -> try_map f l' = Ok ps' ->
  join [ch_comma] ps ++ close :: r = join [ch_comma] ps' ++ close :: r' -> l = l' /\ r = r'.
Proof.
  intros Hclose Hst Hall. revert l' ps ps' r r'.
  induction Hall as [|x l Hx _ IH]; intros l' ps ps' r r' H H' E.
  - injection H as <-. destruct l' as [|y l']; [injection H' as <-; by injection E as ->|].
    apply bind_Ok in H' as (b & Hb & H'). apply bind_Ok in H' as (bs & _ & [= <-]).
    destruct (Hst _ _ Hb) as (c & t & -> & Hc). destruct (join_more (c :: t) bs) as (rest & Hj & _).
    rewrite Hj in E. cbn in E. injection E as E _. unfold ch_comma in Hc. lia.
  - apply bind_Ok in H as (b & Hb & H). apply bind_Ok in H as (bs & Hbs & [= <-]).
    destruct l' as [|y l'].
    { injection H' as <-. destruct (Hst _ _ Hb) as (c & t & -> & Hc).
      destruct (join_more (c :: t) bs) as (rest & Hj & _).
      rewrite Hj in E. cbn in E. injection E as E _. unfold ch_comma in Hc. lia. }
    apply bind_Ok in H' as (b' & Hb' & H'). apply bind_Ok in H' as (bs' & Hbs' & [= <-]).
    destruct (join_more b bs) as (rest & Hj & Hrest), (join_more b' bs') as (rest' & Hj' & Hrest').
    rewrite Hj, Hj', <- !app_assoc in E.
    destruct (Hx y b b' (rest ++ close :: r) (rest' ++ close :: r')) as [<- E']; try done.
    { rewrite Hrest. destruct bs; cbn; tauto. }
    { rewrite Hrest'. destruct bs'; cbn; tauto. }
    assert (forall bs bs', try_map f l = Ok bs -> try_map f l' = Ok bs' ->
      join [ch_comma] bs ++ close :: r = join [ch_comma] bs' ++ close :: r' -> x :: l = x :: l' /\ r = r') as IH'.
    { intros ? ? H1 H2 H3. by destruct (IH _ _ _ _ _ H1 H2 H3) as [-> ->]. }
    subst rest rest'. destruct bs as [|q bs], bs' as [|q' bs']; cbn [app] in E'.
    + by apply (IH' [] []).
    + injection E' as E' _. unfold ch_comma in *. lia.
    + injection E' as E' _. unfold ch_comma in *. lia.
    + injection E' as E'. by apply (IH' (q :: bs) (q' :: bs')).
Qed.

Lemma print_starts v b : print v = Ok b -> starts b.
Proof. intros (c & t & -> & H)%print_leads. by eapply leads_starts. Qed.
Lemma print_member_starts m b : print_member m = Ok b -> starts b.
Proof.
  unfold print_member. intros (n & Hn%ok_or_Ok & H)%bind_Ok. apply bind_Ok in H as (t & _ & [= <-]).
  apply string_starts in Hn as [t' ->]. exists 34, (t' ++ ch_colon :: t). split; [done|]. unfold ch_comma. lia.
Qed.

Lemma number_delimited b b' r r' :
  forallb number_char b = true -> forallb number_char b' = true -> closes r -> closes r' ->
  b ++ r = b' ++ r' -> b = b' /\ r = r'.
Proof.
  assert (forall (r : list Z) c t, closes r -> number_char c = true -> r <> c :: t) as Hno.
  { intros [|d r0] c t Hr Hc; [done|]. intros [= <- <-]. cbn in Hr. apply number_char_range in Hc.
    unfold ch_comma in *. lia. }
  revert b'. induction b as [|c b IH]; intros [|c' b'] Hb Hb' Hr Hr' E; cbn in *; bool_to_prop.
  - done.
  - by edestruct (Hno r).
  - by edestruct (Hno r').
  - injection E as -> E. by destruct (IH b') as [-> ->].
Qed.

Lemma print_delimits v : delimits print v.
Proof.
  induction v as [|b|n|t|s|l IH|l IH] using Value_strong_ind; intros w x x' r r' Hr Hr' Hv Hw E.
  all: destruct (print_leads _ _ Hv) as (c & t1 & -> & Hc), (print_leads _ _ Hw) as (c' & t2 & -> & Hc');
    assert (c' = c) as -> by (by injection E);
    pose proof (leads_kind _ _ _ Hc Hc') as Hk; destruct w; try done; cbn [print] in Hv, Hw.
  - rewrite Hv in Hw. injection Hw as <-. by apply app_inv_head in E.
  - subst. rewrite Hv in Hw. injection Hw as <-. by apply app_inv_head in E.
  - apply ok_or_Ok in Hv, Hw. pose proof (integer_chars _ _ Hv) as [_ H1].
    pose proof (integer_chars _ _ Hw) as [_ H2].
    destruct (number_delimited _ _ _ _ H1 H2 Hr Hr' E) as [E1 ->]. rewrite <- E1 in Hw.
    by rewrite (integer_inj _ _ _ Hv Hw).
  - apply ok_or_Ok in Hv, Hw. destruct (string_delimited _ _ _ _ _ _ Hv Hw E) as [-> ->]. done.
  - rewrite try_map_id in Hv, Hw.
    apply bind_Ok in Hv as (ps & Hps & [= <- <-]). apply bind_Ok in Hw as (ps' & Hps' & [= <-]).
    injection E as E. rewrite <- !app_assoc in E.
    by destruct (parts_delimit print 93 l l0 ps ps' r r' (or_introl eq_refl) print_starts IH Hps Hps' E)
      as [-> ->].
  - rewrite try_map_id in Hv, Hw.
    apply bind_Ok in Hv as (ps & Hps & [= <- <-]). apply bind_Ok in Hw as (ps' & Hps' & [= <-]).
    injection E as E. rewrite <- !app_assoc in E.
    destruct (parts_delimit print_member 125 l l0 ps ps' r r' (or_intror eq_refl) print_member_starts)
      as [-> ->]; try done.
    apply (Forall_impl _ _ _ IH). intros [k x] Hx [k' x'] b b' q q' Hq Hq' H1 H2 Eq. cbn in Hx.
    unfold print_member in H1, H2. cbn [fst snd] in H1, H2.
    apply bind_Ok in H1 as (n1 & Hn1%ok_or_Ok & H1). apply bind_Ok in H1 as (x1 & Hx1 & [= <-]).
    apply bind_Ok in H2 as (n2 & Hn2%ok_or_Ok & H2). apply bind_Ok in H2 as (x2 & Hx2 & [= <-]).
    rewrite <- !app_assoc in Eq.
    destruct (string_delimited _ _ _ _ _ _ Hn1 Hn2 Eq) as [-> Eq']. injection Eq' as Eq'.
    by destruct (Hx x' x1 x2 q q') as [-> ->].
Qed.

Lemma print_inj v w b : print v = Ok b -> print w = Ok b -> v = w.
Proof. intros Hv Hw. by destruct (print_delimits v w b b [] []). Qed.

(** C18: Canonical JSON identifies values exactly up to the order of object
    members: when a value has a canonical text, another one has the same text
    if and only if both are equal after sorting their members recursively. So a
    commitment does not depend on the order in which members are written, and
    nothing else of a value is lost in it. *)
Theorem canonical_text_is_exact v w b :
  unique_keys v -> unique_keys w -> canonical_value v = Ok b ->
  canonical_value w = Ok b <-> normalize v = normalize w.
Proof.
  intros Hv Hw. rewrite !canonical_print by done. intros Hb. split.
  - intros Hb'. by eapply print_inj.
  - by intros <-.
Qed.

Lemma canonical_injective v w b :
  unique_keys v -> unique_keys w -> canonical_value v = Ok b -> canonical_value w = Ok b ->
  normalize v = normalize w.
Proof. intros Hv Hw. rewrite !canonical_print by done. apply print_inj. Qed.
End Text.

(** ** A reference instance *)

Module JsonTextReference.
(** Quotes, backslashes and control characters are escaped. *)
Definition esc (c : Z) : list Z :=
  if (c =? 34) || (c =? 92) then [92; c] else [c].
Definition quoted (s : str) : list Z := 34 :: concat (map esc s) ++ [34].
Definition signed (n : Z) : list Z := if n <? 0 then ch_minus :: dec (- n) else dec n.

#[export] Instance text_reference : JsonText := {
  string_to_vec s := Some (quoted s);
  integer_to_vec n := if bool_decide (Z.abs n <= u64_max) then Some (signed n) else None;
}.

Lemma esc_delimited s s' r r' :
  concat (map esc s) ++ 34 :: r = concat (map esc s') ++ 34 :: r' -> s = s' /\ r = r'.
Proof.
  revert s'. induction s as [|c s IH]; intros [|c' s'] E; cbn in E.
  - by injection E as ->.
  - exfalso. unfold esc in E. destruct ((c' =? 34) || (c' =? 92)) eqn:Ec; cbn in E; [done|].
    injection E as <- _. done.
  - exfalso. unfold esc in E. destruct ((c =? 34) || (c =? 92)) eqn:Ec; cbn in E; [done|].
    injection E as -> _. done.
  - rewrite <- !app_assoc in E.
    assert (c = c' /\ concat (map esc s) ++ 34 :: r = concat (map esc s') ++ 34 :: r') as [-> E'].
    { unfold esc in E. destruct ((c =? 34) || (c =? 92)) eqn:Ec, ((c' =? 34) || (c' =? 92)) eqn:Ec';
        cbn [app] in E; injection E as E1 E2; try done; try (subst; done). }
    by destruct (IH s') as [-> ->].
Qed.

Lemma signed_chars n :
  Z.abs n <= u64_max -> signed n <> [] /\ forallb number_char (signed n) = true /\
  match signed n with c :: t => if c =? ch_minus then - digits_value t else digits_value (c :: t) | [] => 0 end = n.
Proof.
  intros Hn. assert (forall m, 0 <= m <= u64_max -> forallb number_char (dec m) = true) as Hall.
  { intros m (_ & Hd & _)%dec_spec. apply forallb_forall. intros c Hc%list_elem_of_In.
    rewrite Forall_forall in Hd. specialize (Hd c Hc). unfold digit_char in Hd.
    unfold number_char, is_ascii_digit, between. lia. }
  unfold signed. destruct (Z.ltb_spec n 0) as [H|H].
  - destruct (dec_spec (- n)) as (_ & _ & Hv); [lia|]. split_and!; [done| |].
    + cbn [forallb]. rewrite Hall by lia. done.
    + rewrite Z.eqb_refl. lia.
  - destruct (dec_spec n) as (Hne & Hd & Hv); [lia|]. split_and!; [done|apply Hall; lia|].
    destruct (dec n) as [|c t]; [done|]. apply Forall_cons in Hd as [Hc _]. unfold digit_char in Hc.
    by rewrite (proj2 (Z.eqb_neq c ch_minus)) by (unfold ch_minus; lia).
Qed.

#[export] Instance text_reference_laws : JsonTextLaws text_reference.
Proof.
  split; cbn.
  - intros s s' b b' r r' [= <-] [= <-] E. unfold quoted in E. injection E as E.
    rewrite <- !app_assoc in E. by apply esc_delimited.
  - by intros s b [= <-].
  - intros n n' b Hn Hn'. repeat case_bool_decide; simplify_eq.
    destruct (signed_chars n) as (_ & _ & Hv); [done|]. destruct (signed_chars n') as (_ & _ & Hv'); [done|].
    assert (signed n = signed n') as E by congruence. rewrite E in Hv. congruence.
  - intros n b Hn. case_bool_decide; simplify_eq. by destruct (signed_chars n) as (? & ? & _).
Qed.
End JsonTextReference.

Module CanonicalWitness.
Import JsonTextReference.
Definition one : Value := V_Object [(lit "b", V_Integer (-7)); (lit "a", V_Array [V_Null; V_Bool true])].
Definition other : Value := V_Object [(lit "a", V_Array [V_Null; V_Bool true]); (lit "b", V_Integer (-7))].

Definition text0 : list Z := default [] (ok (canonical_value one)).
Lemma one_unique : unique_keys one.
Proof.
  constructor; [by vm_compute; repeat constructor; set_solver|]. repeat constructor.
Qed.
Lemma other_unique : unique_keys other.
Proof.
  constructor; [by vm_compute; repeat constructor; set_solver|]. repeat constructor.
Qed.

Lemma canonical_text_is_exact_witness : canonical_value other = Ok text0.
Proof.
  apply (canonical_text_is_exact one other text0 one_unique other_unique); vm_compute; reflexivity.
Defined.
End CanonicalWitness.
