(* ===== verification/ComplianceModel.v ===== *)
(** * Compliance: identifiers, vocabularies, intake and decisions
    ([compliance/model.rs])

    The closed vocabularies of the [vocabulary!] macro as a class, the
    hexadecimal identifiers, and the private intake and decision values. The
    SHA-256 digest is the [ring] crate's: a parameter. *)

From S2P Require Import Prelude Text Externals Compliance.

#[local] Open Scope Z_scope.

(** ** Bytes *)

Definition hex (bytes : list Z) : str := concat (map encode_byte bytes).

Definition sha256 `{Digest} (parts : list (list Z)) : str := hex (digest_sha256 (concat parts)).

Definition nibble (ch : Z) : Z := if is_ascii_digit ch then ch - 48 else ch - 97 + 10.
(** [as_chunks::<2>().0]: the whole pairs. *)
Fixpoint as_chunks2 (l : list Z) : list (Z * Z) :=
  match l with a :: b :: l' => (a, b) :: as_chunks2 l' | _ => [] end.
Definition decode_pair (p : Z * Z) : Z :=
  let (a, b) := p in Z.lor (Z.shiftl (nibble a) 4 mod 256) (nibble b).
(** The pairs are zipped with an array of 32 zeros. *)
Definition decode_hex (raw : str) : cres (list Z) :=
  _ ← text raw Key_HexBytes Class_Hex;
  let bytes := map decode_pair (as_chunks2 (as_bytes raw)) in
  let decoded := take 32 bytes ++ replicate (32 - length bytes) 0 in
  _ ← validate Key_IdBytes (Z.of_nat (length decoded));
  Ok decoded.

(** [Hex64], [TicketId] and [DocumentKey] are validated strings. *)
Abbreviation Hex64 := str (only parsing).
Abbreviation TicketId := str (only parsing).
Abbreviation DocumentKey := str (only parsing).
Definition Hex64_parse (raw : str) : cres Hex64 := _ ← decode_hex raw; Ok raw.
Definition TicketId_parse (raw : str) : cres TicketId := Hex64_parse raw.
Definition DocumentKey_parse (raw : str) : cres DocumentKey := Hex64_parse raw.

(** [Entropy::fill] for the identifiers and salts: the drawn bytes, or a
    failure. *)
Definition Hex64_random (fill : cres (list Z)) : cres Hex64 :=
  _ ← validate Key_SaltBytes 32; bytes ← fill; Ok (hex bytes).
Definition TicketId_generate (fill : cres (list Z)) : cres TicketId :=
  _ ← validate Key_IdBytes 32; bytes ← fill; TicketId_parse (hex bytes).

(** ** Vocabularies *)

(** [as_str] and the variants in the order of the match arms of [parse]. *)
Class Vocabulary (T : Type) := { as_str : T -> str; variants : list T }.
Definition parse {T} `{Vocabulary T} (value : str) : cres T :=
  ok_or (List.find (fun v => str_eqb value (as_str v)) variants) InvalidInput.

(** The laws of a vocabulary: every value is a variant, and no two share a spelling. *)
Class VocabularyLaws (T : Type) `{Vocabulary T} : Prop := {
  variants_complete (v : T) : In v variants;
  as_str_inj (v w : T) : as_str v = as_str w -> v = w;
}.

Ltac vocabulary :=
  split;
  [ intros v; destruct v; cbn; tauto
  | intros v w; destruct v, w; intros E; try reflexivity; vm_compute in E; discriminate E ].

Inductive Route :=
| Route_IllegalContent | Route_HarmfulToChildren | Route_IntimateImages | Route_SiteComplaint
| Route_RightsRemoval | Route_DataRights | Route_DataProtectionComplaint
| Route_OnlineSafetyComplaint.
#[export] Instance Route_eq_dec : EqDecision Route.
Proof. solve_decision. Defined.
#[export] Instance Route_vocabulary : Vocabulary Route := {|
  as_str v := lit match v with
    | Route_IllegalContent => "illegal_content"
    | Route_HarmfulToChildren => "harmful_to_children"
    | Route_IntimateImages => "intimate_images"
    | Route_SiteComplaint => "site_complaint"
    | Route_RightsRemoval => "rights_removal"
    | Route_DataRights => "data_rights"
    | Route_DataProtectionComplaint => "data_protection_complaint"
    | Route_OnlineSafetyComplaint => "online_safety_complaint"
    end;
  variants := [Route_IllegalContent; Route_HarmfulToChildren; Route_IntimateImages;
               Route_SiteComplaint; Route_RightsRemoval; Route_DataRights;
               Route_DataProtectionComplaint; Route_OnlineSafetyComplaint] |}.
#[export] Instance Route_laws : VocabularyLaws Route.
Proof. vocabulary. Qed.

Inductive RequesterType :=
| RequesterType_SelfPerson | RequesterType_Representative | RequesterType_AffectedPerson
| RequesterType_SiteOperator | RequesterType_RightsOwner | RequesterType_Other.
#[export] Instance RequesterType_eq_dec : EqDecision RequesterType.
Proof. solve_decision. Defined.
#[export] Instance RequesterType_vocabulary : Vocabulary RequesterType := {|
  as_str v := lit match v with
    | RequesterType_SelfPerson => "self"
    | RequesterType_Representative => "representative"
    | RequesterType_AffectedPerson => "affected_person"
    | RequesterType_SiteOperator => "site_operator"
    | RequesterType_RightsOwner => "rights_owner"
    | RequesterType_Other => "other"
    end;
  variants := [RequesterType_SelfPerson; RequesterType_Representative;
               RequesterType_AffectedPerson; RequesterType_SiteOperator;
               RequesterType_RightsOwner; RequesterType_Other] |}.
#[export] Instance RequesterType_laws : VocabularyLaws RequesterType.
Proof. vocabulary. Qed.

Inductive TicketState :=
| TicketState_Received | TicketState_Acknowledged | TicketState_IdentityPending
| TicketState_Queued | TicketState_Decided | TicketState_Actioned | TicketState_Appealed
| TicketState_Reversed | TicketState_Upheld | TicketState_Closed.
#[export] Instance TicketState_eq_dec : EqDecision TicketState.
Proof. solve_decision. Defined.
#[export] Instance TicketState_vocabulary : Vocabulary TicketState := {|
  as_str v := lit match v with
    | TicketState_Received => "received"
    | TicketState_Acknowledged => "acknowledged"
    | TicketState_IdentityPending => "identity_pending"
    | TicketState_Queued => "queued"
    | TicketState_Decided => "decided"
    | TicketState_Actioned => "actioned"
    | TicketState_Appealed => "appealed"
    | TicketState_Reversed => "reversed"
    | TicketState_Upheld => "upheld"
    | TicketState_Closed => "closed"
    end;
  variants := [TicketState_Received; TicketState_Acknowledged; TicketState_IdentityPending;
               TicketState_Queued; TicketState_Decided; TicketState_Actioned;
               TicketState_Appealed; TicketState_Reversed; TicketState_Upheld;
               TicketState_Closed] |}.
#[export] Instance TicketState_laws : VocabularyLaws TicketState.
Proof. vocabulary. Qed.

Inductive Ground :=
| Ground_IllegalContent | Ground_HarmfulToChildren | Ground_IntimateImages
| Ground_RightsRemoval | Ground_DataDelisting | Ground_DataErasure | Ground_DataObjection.
#[export] Instance Ground_eq_dec : EqDecision Ground.
Proof. solve_decision. Defined.
#[export] Instance Ground_vocabulary : Vocabulary Ground := {|
  as_str v := lit match v with
    | Ground_IllegalContent => "illegal_content"
    | Ground_HarmfulToChildren => "harmful_to_children"
    | Ground_IntimateImages => "intimate_images"
    | Ground_RightsRemoval => "rights_removal"
    | Ground_DataDelisting => "data_delisting"
    | Ground_DataErasure => "data_erasure"
    | Ground_DataObjection => "data_objection"
    end;
  variants := [Ground_IllegalContent; Ground_HarmfulToChildren; Ground_IntimateImages;
               Ground_RightsRemoval; Ground_DataDelisting; Ground_DataErasure;
               Ground_DataObjection] |}.
#[export] Instance Ground_laws : VocabularyLaws Ground.
Proof. vocabulary. Qed.

Inductive RequestKind :=
| RequestKind_Delisting | RequestKind_Erasure | RequestKind_Objection.
#[export] Instance RequestKind_eq_dec : EqDecision RequestKind.
Proof. solve_decision. Defined.
#[export] Instance RequestKind_vocabulary : Vocabulary RequestKind := {|
  as_str v := lit match v with
    | RequestKind_Delisting => "delisting"
    | RequestKind_Erasure => "erasure"
    | RequestKind_Objection => "objection"
    end;
  variants := [RequestKind_Delisting; RequestKind_Erasure; RequestKind_Objection] |}.
#[export] Instance RequestKind_laws : VocabularyLaws RequestKind.
Proof. vocabulary. Qed.

Inductive NameKind :=
| NameKind_LegalName | NameKind_Pseudonym.
#[export] Instance NameKind_eq_dec : EqDecision NameKind.
Proof. solve_decision. Defined.
#[export] Instance NameKind_vocabulary : Vocabulary NameKind := {|
  as_str v := lit match v with
    | NameKind_LegalName => "legal_name"
    | NameKind_Pseudonym => "pseudonym"
    end;
  variants := [NameKind_LegalName; NameKind_Pseudonym] |}.
#[export] Instance NameKind_laws : VocabularyLaws NameKind.
Proof. vocabulary. Qed.

Inductive Interest :=
| Interest_ResponsibleUkPerson | Interest_UkIncorporatedBody.
#[export] Instance Interest_eq_dec : EqDecision Interest.
Proof. solve_decision. Defined.
#[export] Instance Interest_vocabulary : Vocabulary Interest := {|
  as_str v := lit match v with
    | Interest_ResponsibleUkPerson => "responsible_uk_person"
    | Interest_UkIncorporatedBody => "uk_incorporated_body"
    end;
  variants := [Interest_ResponsibleUkPerson; Interest_UkIncorporatedBody] |}.
#[export] Instance Interest_laws : VocabularyLaws Interest.
Proof. vocabulary. Qed.

Inductive IdentityEvent :=
| IdentityEvent_RequestIdentity | IdentityEvent_IdentityConfirmed
| IdentityEvent_RequestClarification | IdentityEvent_ClarificationReceived.
#[export] Instance IdentityEvent_eq_dec : EqDecision IdentityEvent.
Proof. solve_decision. Defined.
#[export] Instance IdentityEvent_vocabulary : Vocabulary IdentityEvent := {|
  as_str v := lit match v with
    | IdentityEvent_RequestIdentity => "request_identity"
    | IdentityEvent_IdentityConfirmed => "identity_confirmed"
    | IdentityEvent_RequestClarification => "request_clarification"
    | IdentityEvent_ClarificationReceived => "clarification_received"
    end;
  variants := [IdentityEvent_RequestIdentity; IdentityEvent_IdentityConfirmed;
               IdentityEvent_RequestClarification; IdentityEvent_ClarificationReceived] |}.
#[export] Instance IdentityEvent_laws : VocabularyLaws IdentityEvent.
Proof. vocabulary. Qed.

Inductive Necessity :=
| Necessity_Complexity | Necessity_Volume.
#[export] Instance Necessity_eq_dec : EqDecision Necessity.
Proof. solve_decision. Defined.
#[export] Instance Necessity_vocabulary : Vocabulary Necessity := {|
  as_str v := lit match v with
    | Necessity_Complexity => "complexity"
    | Necessity_Volume => "volume"
    end;
  variants := [Necessity_Complexity; Necessity_Volume] |}.
#[export] Instance Necessity_laws : VocabularyLaws Necessity.
Proof. vocabulary. Qed.

Inductive DeliveryChannel :=
| DeliveryChannel_ManualEmail | DeliveryChannel_ManualForm | DeliveryChannel_ManualApi.
#[export] Instance DeliveryChannel_eq_dec : EqDecision DeliveryChannel.
Proof. solve_decision. Defined.
#[export] Instance DeliveryChannel_vocabulary : Vocabulary DeliveryChannel := {|
  as_str v := lit match v with
    | DeliveryChannel_ManualEmail => "manual_email"
    | DeliveryChannel_ManualForm => "manual_form"
    | DeliveryChannel_ManualApi => "manual_api"
    end;
  variants := [DeliveryChannel_ManualEmail; DeliveryChannel_ManualForm;
               DeliveryChannel_ManualApi] |}.
#[export] Instance DeliveryChannel_laws : VocabularyLaws DeliveryChannel.
Proof. vocabulary. Qed.

Inductive DecisionKind :=
| DecisionKind_Granted | DecisionKind_Refused | DecisionKind_NotIntimateImage
| DecisionKind_NoStanding | DecisionKind_ManifestlyUnfounded.
#[export] Instance DecisionKind_eq_dec : EqDecision DecisionKind.
Proof. solve_decision. Defined.
#[export] Instance DecisionKind_vocabulary : Vocabulary DecisionKind := {|
  as_str v := lit match v with
    | DecisionKind_Granted => "granted"
    | DecisionKind_Refused => "refused"
    | DecisionKind_NotIntimateImage => "not_intimate_image"
    | DecisionKind_NoStanding => "no_standing"
    | DecisionKind_ManifestlyUnfounded => "manifestly_unfounded"
    end;
  variants := [DecisionKind_Granted; DecisionKind_Refused; DecisionKind_NotIntimateImage;
               DecisionKind_NoStanding; DecisionKind_ManifestlyUnfounded] |}.
#[export] Instance DecisionKind_laws : VocabularyLaws DecisionKind.
Proof. vocabulary. Qed.

Inductive ContactMethod :=
| ContactMethod_Email.
#[export] Instance ContactMethod_eq_dec : EqDecision ContactMethod.
Proof. solve_decision. Defined.
#[export] Instance ContactMethod_vocabulary : Vocabulary ContactMethod := {|
  as_str v := lit match v with
    | ContactMethod_Email => "email"
    end;
  variants := [ContactMethod_Email] |}.
#[export] Instance ContactMethod_laws : VocabularyLaws ContactMethod.
Proof. vocabulary. Qed.


(** ** Intake *)

Record Contact := { contact_method : ContactMethod; address : str }.
Record ReportFields := {
  contact : Contact;
  description : str;
  requester_type : RequesterType;
  nonessential_opt_out : bool;
}.
Definition ReportFields_validate (r : ReportFields) : cres unit :=
  _ ← text (address (contact r)) Key_Contact Class_Label;
  text (description r) Key_Narrative Class_Narrative.

Record EvidencedName := { name : str; name_kind : NameKind; evidence_text : str }.
Record Delivery := { channel : DeliveryChannel; reference : str }.
Definition Delivery_validate (d : Delivery) : cres unit :=
  text (reference d) Key_DeliveryRef Class_Label.

Inductive IntakeKind :=
| Intake_IllegalContent (suspected_illegality : str)
| Intake_HarmfulToChildren (harm_description : str)
| Intake_IntimateImages (intimate_image_content subject_or_authorised good_faith : bool)
| Intake_SiteComplaint (interest : Interest) (related_ticket_id : option TicketId)
| Intake_RightsRemoval (rights_basis authority : str)
| Intake_DataRights (request_kind : RequestKind) (names : list EvidencedName)
| Intake_DataProtectionComplaint
| Intake_OnlineSafetyComplaint.

Record Asset := { asset_url : str; document_id : DocumentKey }.

Section Assets.
Context `{UrlOps} `{Digest}.

Definition Asset_new (raw : str) (key : DocumentKey) : cres Asset :=
  _ ← text raw Key_Url Class_Label;
  _ ← refuse_if (existsb (fun b => is_ascii_whitespace b || (b =? 92)) (as_bytes raw)) InvalidInput;
  parsed ← ok_or (url_parse raw) InvalidInput;
  _ ← refuse_if
        (negb (one_of (url_scheme parsed) ["http"; "https"]) ||
         bool_decide (url_host_str parsed = None) ||
         negb (is_empty (url_username parsed)) ||
         bool_decide (url_password parsed <> None) ||
         bool_decide (url_fragment parsed <> None) ||
         negb (str_eqb (url_as_str parsed) raw) ||
         negb (str_eqb (sha256 [as_bytes raw]) key)) InvalidInput;
  Ok {| asset_url := raw; document_id := key |}.
End Assets.

Record Intake := { report : ReportFields; assets : list Asset; category : IntakeKind }.
Definition route_of (i : Intake) : Route :=
  match category i with
  | Intake_IllegalContent _ => Route_IllegalContent
  | Intake_HarmfulToChildren _ => Route_HarmfulToChildren
  | Intake_IntimateImages _ _ _ => Route_IntimateImages
  | Intake_SiteComplaint _ _ => Route_SiteComplaint
  | Intake_RightsRemoval _ _ => Route_RightsRemoval
  | Intake_DataRights _ _ => Route_DataRights
  | Intake_DataProtectionComplaint => Route_DataProtectionComplaint
  | Intake_OnlineSafetyComplaint => Route_OnlineSafetyComplaint
  end.
Definition ground_of (i : Intake) : option Ground :=
  match category i with
  | Intake_IllegalContent _ => Some Ground_IllegalContent
  | Intake_HarmfulToChildren _ => Some Ground_HarmfulToChildren
  | Intake_IntimateImages _ _ _ => Some Ground_IntimateImages
  | Intake_RightsRemoval _ _ => Some Ground_RightsRemoval
  | Intake_DataRights request_kind _ =>
      Some match request_kind with
           | RequestKind_Delisting => Ground_DataDelisting
           | RequestKind_Erasure => Ground_DataErasure
           | RequestKind_Objection => Ground_DataObjection
           end
  | _ => None
  end.
Definition names_of (i : Intake) : list EvidencedName :=
  match category i with Intake_DataRights _ names => names | _ => [] end.

(** ** Decisions *)

(** The nineteen reason fields, in the order of the [assessment!] macro. *)
Record DelistingAssessment := {
  natural_person : str; name_search : str; role_in_public_life : str; child : str;
  accuracy : str; working_life : str; hate_speech_or_defamation : str; sensitive_data : str;
  currency : str; prejudice : str; risk : str; original_basis_of_publication : str;
  journalistic_context : str; legal_power_or_obligation_to_publish : str;
  criminal_offence : str; offence_seriousness : str; time_elapsed : str; spent_status : str;
  reasoned_decision : str;
}.
Definition assessment_fields (a : DelistingAssessment) : list str :=
  [natural_person a; name_search a; role_in_public_life a; child a; accuracy a; working_life a;
   hate_speech_or_defamation a; sensitive_data a; currency a; prejudice a; risk a;
   original_basis_of_publication a; journalistic_context a;
   legal_power_or_obligation_to_publish a; criminal_offence a; offence_seriousness a;
   time_elapsed a; spent_status a; reasoned_decision a].
Definition DelistingAssessment_validate (a : DelistingAssessment) : cres unit :=
  try_for_each (fun value => text value Key_Reason Class_Narrative) (assessment_fields a).

Inductive Decision :=
| Granted (reasons : str) (delivery : Delivery) (assessment : option DelistingAssessment)
| Refused (reasons : str) (delivery : Delivery)
| NotIntimateImage (reasons : str) (delivery : Delivery)
| NoStanding (reasons : str) (delivery : Delivery)
| ManifestlyUnfounded (reasons : str) (delivery : Delivery) (policy_version policy_clause : str)
    (duplicate_of : TicketId).
Definition Decision_kind (d : Decision) : DecisionKind :=
  match d with
  | Granted _ _ _ => DecisionKind_Granted
  | Refused _ _ => DecisionKind_Refused
  | NotIntimateImage _ _ => DecisionKind_NotIntimateImage
  | NoStanding _ _ => DecisionKind_NoStanding
  | ManifestlyUnfounded _ _ _ _ _ => DecisionKind_ManifestlyUnfounded
  end.
Definition communication (d : Decision) : str * Delivery :=
  match d with
  | Granted reasons delivery _ | Refused reasons delivery | NotIntimateImage reasons delivery
  | NoStanding reasons delivery | ManifestlyUnfounded reasons delivery _ _ _ => (reasons, delivery)
  end.
Definition Decision_validate (d : Decision) : cres unit :=
  let (reasons, delivery) := communication d in
  _ ← text reasons Key_Reason Class_Narrative;
  _ ← Delivery_validate delivery;
  _ ← match d with
      | Granted _ _ (Some assessment) => DelistingAssessment_validate assessment
      | _ => Ok tt
      end;
  match d with
  | ManifestlyUnfounded _ _ policy_version policy_clause _ =>
      _ ← text policy_version Key_Slug Class_Slug; text policy_clause Key_Slug Class_Slug
  | _ => Ok tt
  end.

(** ** Facts *)

(** A closed vocabulary is a bijection between its values and their spellings. *)
Lemma parse_Ok {T} `{VocabularyLaws T} (value : str) (v : T) :
  parse value = Ok v <-> value = as_str v.
Proof.
  unfold parse. rewrite ok_or_Ok. split.
  - intros [_ ->%str_eqb_eq]%List.find_some. done.
  - intros ->. destruct (List.find _ variants) as [w|] eqn:Hf.
    + apply List.find_some in Hf as [_ Hw%str_eqb_eq]. by rewrite (as_str_inj v w).
    + pose proof (List.find_none _ _ Hf v (variants_complete v)) as Hv. cbn in Hv.
      by rewrite str_eqb_refl in Hv.
Qed.

Lemma parse_as_str {T} `{VocabularyLaws T} (v : T) : parse (as_str v) = Ok v.
Proof. by apply parse_Ok. Qed.

Lemma trim_start_by_elem f c s : c ∈ s -> f c = false -> c ∈ trim_start_by f s.
Proof.
  induction s as [|d s IH]; [done|]. intros [->|Hc]%elem_of_cons Hf; cbn.
  - rewrite Hf. left.
  - case_match; [by apply IH|by right].
Qed.

Lemma nonblank_elem c s : c ∈ s -> is_whitespace c = false -> nonblank s = Ok tt.
Proof.
  intros Hc Hw. unfold nonblank, trim, trim_end_by.
  assert (c ∈ rev (trim_start_by is_whitespace (rev (trim_start s)))) as Ht.
  { rewrite list_elem_of_In, <- in_rev, <- list_elem_of_In.
    apply trim_start_by_elem; [|done].
    rewrite list_elem_of_In, <- in_rev, <- list_elem_of_In. by apply trim_start_by_elem. }
  destruct (rev _); [by apply elem_of_nil in Ht|done].
Qed.

Lemma characters_Hex s u :
  characters s Class_Hex = Ok u <-> Forall (fun c => hex_digit c = true) s.
Proof.
  unfold characters. destruct u. generalize 0%nat as n. induction s as [|c s IH]; intros n; cbn; [by split|].
  rewrite Forall_cons, <- (IH (S n)). destruct (hex_digit c); cbn; [|naive_solver].
  case_match; naive_solver.
Qed.

Lemma hex_digit_ascii c : hex_digit c = true -> 48 <= c < 128.
Proof.
  unfold hex_digit, is_ascii_digit, between. intros [?|?]%orb_true_iff; bool_to_prop; lia.
Qed.

Lemma as_bytes_ascii s : Forall (fun c => hex_digit c = true) s -> as_bytes s = s.
Proof.
  induction 1 as [|c s Hc%hex_digit_ascii _ IH]; [done|]. unfold as_bytes in *; cbn. rewrite IH.
  unfold utf8_char. by rewrite (proj2 (Z.ltb_lt c 128)) by lia.
Qed.

Lemma text_Hex raw u :
  text raw Key_HexBytes Class_Hex = Ok u <->
  length raw = 64%nat /\ Forall (fun c => hex_digit c = true) raw.
Proof.
  unfold text. rewrite bind_Ok. split.
  - intros (? & Hl%validate_Ok & H). apply bind_Ok in H as (? & _ & Hc%characters_Hex). split; [|done].
    rewrite byte_len_as_bytes, as_bytes_ascii in Hl by done. eval_bounds. lia.
  - intros [Hl Hc]. exists tt. split.
    + apply validate_Ok. rewrite byte_len_as_bytes, as_bytes_ascii by done. eval_bounds. lia.
    + rewrite bind_Ok. exists tt. split; [|by apply characters_Hex].
      destruct raw as [|c raw]; [done|]. apply (nonblank_elem c); [left|].
      inversion Hc as [|?? Hh%hex_digit_ascii _]; subst. unfold is_whitespace, between.
      repeat first [apply orb_false_iff; split | apply andb_false_iff; (left; lia) || (right; lia) | lia].
Qed.

(** ** Hexadecimal identifiers *)

Definition all_bytes : list Z := seqZ 0 256.
Definition all_digits_hex : list Z := seqZ 48 10 ++ seqZ 97 6.

Lemma byte_tables :
  forallb (fun b => forallb hex_digit (encode_byte b) &&
    (decode_pair (hex_char (b / 16), hex_char (b mod 16)) =? b)) all_bytes = true /\
  forallb (fun a => forallb (fun b => bool_decide (encode_byte (decode_pair (a, b)) = [a; b]) &&
    between 0 255 (decode_pair (a, b))) all_digits_hex) all_digits_hex = true.
Proof. by vm_compute. Qed.

Lemma encode_byte_digits b : is_byte b ->
  Forall (fun c => hex_digit c = true) (encode_byte b) /\
  decode_pair (hex_char (b / 16), hex_char (b mod 16)) = b.
Proof.
  intros Hb. pose proof (proj1 byte_tables) as Ht. rewrite forallb_forall in Ht.
  assert (In b all_bytes) as Hin by (apply list_elem_of_In, elem_of_seqZ; unfold is_byte in Hb; lia).
  apply Ht, andb_true_iff in Hin as [Hd Hr%Z.eqb_eq]. split; [|done].
  by apply List.Forall_forall, forallb_forall.
Qed.

Lemma decode_pair_digits a b : hex_digit a = true -> hex_digit b = true ->
  encode_byte (decode_pair (a, b)) = [a; b] /\ is_byte (decode_pair (a, b)).
Proof.
  assert (forall c, hex_digit c = true -> In c all_digits_hex) as Hin.
  { intros c. unfold hex_digit, is_ascii_digit, between, all_digits_hex.
    rewrite <- list_elem_of_In, elem_of_app, !elem_of_seqZ.
    intros [?|?]%orb_true_iff; bool_to_prop; lia. }
  intros Ha%Hin Hb%Hin. pose proof (proj2 byte_tables) as Ht. rewrite forallb_forall in Ht.
  specialize (Ht a Ha). rewrite forallb_forall in Ht. apply Ht, andb_true_iff in Hb as [He Hr].
  unfold between in Hr. bool_to_prop. split; [done|]. unfold is_byte. lia.
Qed.

Lemma hex_length bytes : length (hex bytes) = (2 * length bytes)%nat.
Proof. unfold hex. induction bytes; cbn in *; lia. Qed.

Lemma hex_digits bytes :
  Forall is_byte bytes -> Forall (fun c => hex_digit c = true) (hex bytes).
Proof.
  induction 1 as [|b bytes Hb _ IH]; [constructor|].
  change (hex (b :: bytes)) with (encode_byte b ++ hex bytes).
  apply Forall_app. split; [by apply encode_byte_digits|done].
Qed.

Lemma decode_chunks_hex bytes :
  Forall is_byte bytes -> map decode_pair (as_chunks2 (hex bytes)) = bytes.
Proof.
  induction 1 as [|b bytes Hb _ IH]; [done|].
  change (decode_pair (hex_char (b / 16), hex_char (b mod 16)) ::
    map decode_pair (as_chunks2 (hex bytes)) = b :: bytes).
  f_equal; [by apply encode_byte_digits|done].
Qed.

Lemma hex_decode_chunks n raw :
  length raw = (2 * n)%nat -> Forall (fun c => hex_digit c = true) raw ->
  let bytes := map decode_pair (as_chunks2 raw) in
  hex bytes = raw /\ length bytes = n /\ Forall is_byte bytes.
Proof.
  revert raw; induction n as [|n IH]; intros raw Hl Hd; cbn zeta.
  - destruct raw; [|done]. by repeat constructor.
  - destruct raw as [|a [|b raw]]; [done|cbn in Hl; lia|].
    inversion Hd as [|?? Ha Hd']; subst. inversion Hd' as [|?? Hb Hd'']; subst.
    destruct (IH raw) as (Hh & Hn & Hf); [cbn in Hl; lia|done|].
    destruct (decode_pair_digits a b Ha Hb) as [He Hr].
    change (as_chunks2 (a :: b :: raw)) with ((a, b) :: as_chunks2 raw). rewrite map_cons.
    split; [|split; [cbn; lia|by constructor]].
    change (encode_byte (decode_pair (a, b)) ++ hex (map decode_pair (as_chunks2 raw)) = a :: b :: raw).
    by rewrite He, Hh.
Qed.

Lemma hex_inj b b' : Forall is_byte b -> Forall is_byte b' -> hex b = hex b' -> b = b'.
Proof.
  intros Hb Hb' E. rewrite <- (decode_chunks_hex b), <- (decode_chunks_hex b') by done. by rewrite E.
Qed.

Lemma decode_hex_Ok raw bytes :
  decode_hex raw = Ok bytes <->
  raw = hex bytes /\ length bytes = 32%nat /\ Forall is_byte bytes.
Proof.
  unfold decode_hex. rewrite bind_Ok. split.
  - intros (? & [Hl Hd]%text_Hex & H). rewrite as_bytes_ascii in H by done.
    destruct (hex_decode_chunks 32 raw) as (Hh & Hn & Hf); [lia|done|].
    apply bind_Ok in H as (? & _ & [= <-]).
    rewrite Hn, take_ge, app_nil_r by lia. done.
  - intros (-> & Hl & Hf). exists tt. split.
    + apply text_Hex. rewrite hex_length. split; [lia|by apply hex_digits].
    + rewrite as_bytes_ascii, decode_chunks_hex, Hl, take_ge, app_nil_r by (by apply hex_digits || done || lia).
      apply bind_Ok. exists tt. split; [|done]. apply validate_Ok. eval_bounds. lia.
Qed.

Lemma Hex64_parse_Ok raw h :
  Hex64_parse raw = Ok h <-> h = raw /\ length raw = 64%nat /\ Forall (fun c => hex_digit c = true) raw.
Proof.
  unfold Hex64_parse. rewrite bind_Ok. setoid_rewrite decode_hex_Ok. split.
  - intros (bytes & (-> & Hl & Hb) & [= <-]). rewrite hex_length. split_and!; [done|lia|by apply hex_digits].
  - intros (-> & Hl & Hd). destruct (hex_decode_chunks 32 raw) as (Hh & Hn & Hb); [lia|done|]. eauto.
Qed.

(** The identifiers of the compliance store are exactly the lowercase
    hexadecimal spellings of 32-byte values: decoding accepts a text if and
    only if it is the encoding of the 32 bytes it returns, and every identifier
    generated from 32 drawn bytes decodes to those bytes. *)
Theorem identifiers_roundtrip raw bytes :
  (decode_hex raw = Ok bytes <->
   raw = hex bytes /\ length bytes = 32%nat /\ Forall is_byte bytes) /\
  (length bytes = 32%nat -> Forall is_byte bytes ->
   TicketId_generate (Ok bytes) = Ok raw <-> decode_hex raw = Ok bytes).
Proof.
  split; [apply decode_hex_Ok|]. intros Hl Hb.
  assert (TicketId_generate (Ok bytes) = Ok (hex bytes)) as ->.
  { unfold TicketId_generate. rewrite (proj2 (validate_Ok Key_IdBytes 32 tt)) by (by eval_bounds).
    apply Hex64_parse_Ok. rewrite hex_length. split_and!; [done|lia|by apply hex_digits]. }
  rewrite decode_hex_Ok. naive_solver.
Qed.

Lemma identifiers_roundtrip_witness :
  decode_hex (hex (replicate 32 171)) = Ok (replicate 32 171).
Proof.
  destruct (identifiers_roundtrip (hex (replicate 32 171)) (replicate 32 171)) as [_ H].
  apply H; [reflexivity|by repeat constructor|]. vm_compute. reflexivity.
Defined.
