(* ===== verification/JournalRow.v ===== *)
(** * Compliance journal rows ([compliance/journal.rs], up to line 414)

    The closed events, the scalar row with its unsigned part, its digest, its
    canonical bytes and the checks every row passes before it is appended and
    when it is read back. The JSON text of a row is [serde_json]'s: a
    parameter. *)

From S2P Require Import Prelude Text Externals Compliance ComplianceModel.

#[local] Open Scope Z_scope.

Inductive EventName :=
| Event_Received | Event_Acknowledged | Event_Queued | Event_IdentityRequested
| Event_IdentityConfirmed | Event_ClarificationRequested | Event_ClarificationReceived
| Event_ExtensionNotified | Event_Decided | Event_ActionIntent | Event_RulesCommitted
| Event_Actioned | Event_Appealed | Event_ReversalIntent | Event_Reversed | Event_Upheld
| Event_ProgressCommunicated | Event_Closed | Event_PurgeIntent | Event_Purged
| Event_ListAccessed | Event_RecordIntent | Event_RecordAdded | Event_ReviewOpened
| Event_TailRecovered.
#[export] Instance EventName_eq_dec : EqDecision EventName.
Proof. solve_decision. Defined.

(** The fields of the [row_fields!] macro in declaration order; [JournalRow]
    adds the hash to them. *)
Record UnsignedRow := {
  format_version : Z;
  sequence : Z;
  previous_hash : str;
  row_at : Z;
  received_at : Z;
  event : EventName;
  ticket_id : str;
  row_route : str;
  row_requester : str;
  row_state : str;
  actor : str;
  decision : str;
  reason_code : str;
  policy_version : str;
  asset_ids : str;
  payload_sequence : Z;
  commitment : str;
  intent_sequence : Z;
  effective_at : Z;
  related_ticket_id : str;
  record_ref : str;
  list_version : str;
  url_count : Z;
  host_count : Z;
  quarantined_bytes : Z;
  quarantine_hash : str;
}.
Record JournalRow := { unsigned : UnsignedRow; row_hash : str }.
Coercion unsigned : JournalRow >-> UnsignedRow.
#[export] Instance UnsignedRow_eq_dec : EqDecision UnsignedRow.
Proof. solve_decision. Defined.
#[export] Instance JournalRow_eq_dec : EqDecision JournalRow.
Proof. solve_decision. Defined.

Definition empty_unsigned (ev : EventName) (at_ : Z) : UnsignedRow := {|
  format_version := 1; sequence := 0; previous_hash := []; row_at := at_; received_at := -1;
  event := ev; ticket_id := []; row_route := []; row_requester := []; row_state := [];
  actor := []; decision := []; reason_code := []; policy_version := []; asset_ids := [];
  payload_sequence := 0; commitment := []; intent_sequence := 0; effective_at := -1;
  related_ticket_id := []; record_ref := []; list_version := []; url_count := 0;
  host_count := 0; quarantined_bytes := 0; quarantine_hash := [] |}.
Definition row_empty (ev : EventName) (at_ : Z) : JournalRow :=
  {| unsigned := empty_unsigned ev at_; row_hash := [] |}.

(** The assignments of [prepare_rows]: sequence and previous hash. *)
Definition set_link (seq : Z) (previous : str) (u : UnsignedRow) : UnsignedRow := {|
  format_version := format_version u; sequence := seq; previous_hash := previous;
  row_at := row_at u; received_at := received_at u; event := event u; ticket_id := ticket_id u;
  row_route := row_route u; row_requester := row_requester u; row_state := row_state u;
  actor := actor u; decision := decision u; reason_code := reason_code u;
  policy_version := policy_version u; asset_ids := asset_ids u;
  payload_sequence := payload_sequence u; commitment := commitment u;
  intent_sequence := intent_sequence u; effective_at := effective_at u;
  related_ticket_id := related_ticket_id u; record_ref := record_ref u;
  list_version := list_version u; url_count := url_count u; host_count := host_count u;
  quarantined_bytes := quarantined_bytes u; quarantine_hash := quarantine_hash u |}.

Record Head := {
  head_version : Z;
  head_sequence : Z;
  head_hash : str;
  head_bytes : Z;
}.
#[export] Instance Head_eq_dec : EqDecision Head.
Proof. solve_decision. Defined.

(** [serde_json::to_vec] and [::from_slice] at the types of the journal. *)
Class Json := {
  unsigned_to_vec : UnsignedRow -> option (list Z);
  row_to_vec : JournalRow -> option (list Z);
  row_from_slice : list Z -> option JournalRow;
  head_to_vec : Head -> option (list Z);
  head_from_slice : list Z -> option Head;
}.
(** Compact JSON determines the value, is read back (white space after it is
    allowed) and has its control characters escaped. *)
Class JsonLaws (J : Json) : Prop := {
  unsigned_to_vec_inj u v b : unsigned_to_vec u = Some b -> unsigned_to_vec v = Some b -> u = v;
  row_from_to r b : row_to_vec r = Some b -> row_from_slice (b ++ [ch_lf]) = Some r;
  row_one_line r b : row_to_vec r = Some b -> ch_lf ∉ b;
  head_from_to h b : head_to_vec h = Some b -> head_from_slice (b ++ [ch_lf]) = Some h;
  (** four members: three decimal numbers and one identifier *)
  head_short h b :
    head_to_vec h = Some b -> is_u64 (head_version h) -> is_u64 (head_sequence h) ->
    is_u64 (head_bytes h) -> length (head_hash h) = 64%nat -> Z.of_nat (length b) < 8192;
}.

(** [event] is one of the listed. *)
Definition event_in (e : EventName) (l : list EventName) : bool := bool_decide (e ∈ l).

Definition auth_actor (value : str) : cres unit :=
  _ ← text value Key_Actor Class_Slug; refuse_if (starts_with (lit "system.") value) InvalidInput.

Definition documents (u : UnsignedRow) : cres (list DocumentKey) :=
  if is_empty (asset_ids u) then Ok []
  else
    keys ← try_map DocumentKey_parse (split ch_comma (asset_ids u));
    _ ← validate Key_Urls (Z.of_nat (length keys));
    _ ← refuse_if (negb (windows2_all str_ltb keys)) InvalidInput;
    Ok keys.

Definition duplicate_clause : str := lit "duplicate_without_new_information".

Definition personal_events : list EventName :=
  [Event_Received; Event_IdentityRequested; Event_IdentityConfirmed; Event_ClarificationRequested;
   Event_ClarificationReceived; Event_ExtensionNotified; Event_Decided; Event_ActionIntent;
   Event_Appealed; Event_ReversalIntent; Event_Upheld; Event_ProgressCommunicated; Event_Closed].
Definition rule_events : list EventName :=
  [Event_ActionIntent; Event_RulesCommitted; Event_Actioned; Event_ReversalIntent; Event_Reversed].

Definition validate_event_fields (u : UnsignedRow) : cres unit :=
  let personal := event_in (event u) personal_events in
  let rule := event_in (event u) rule_events in
  let operation := rule || event_in (event u) [Event_PurgeIntent; Event_Purged] in
  _ ← refuse_if
        (negb (Bool.eqb personal (negb (payload_sequence u =? 0))) ||
         negb (Bool.eqb operation (negb (intent_sequence u =? 0))) ||
         negb (Bool.eqb rule (negb (is_empty (asset_ids u)))) ||
         negb (Bool.eqb rule (negb (effective_at u =? -1))) ||
         (negb (event_in (event u) [Event_Decided; Event_Appealed]) &&
          negb (is_empty (related_ticket_id u)))) Unavailable;
  if rule then
    _ ← parse (T := Ground) (reason_code u);
    let permitted :=
      if event_in (event u) [Event_Actioned; Event_ReversalIntent; Event_Reversed]
      then str_eqb (decision u) (lit "granted")
      else one_of (decision u) [""; "granted"; "not_intimate_image"; "no_standing"] in
    refuse_if (negb permitted || negb (is_empty (policy_version u))) Unavailable
  else if bool_decide (event u = Event_Decided) then
    kind ← parse (decision u);
    match kind with
    | DecisionKind_ManifestlyUnfounded =>
        refuse_if (is_empty (policy_version u) ||
                   negb (str_eqb (reason_code u) duplicate_clause) ||
                   is_empty (related_ticket_id u)) Unavailable
    | kind =>
        refuse_if (negb (is_empty (policy_version u)) ||
                   negb (is_empty (related_ticket_id u)) ||
                   (bool_decide (kind = DecisionKind_Refused) && negb (is_empty (reason_code u))))
          Unavailable
    end
  else
    refuse_if (negb (is_empty (decision u)) || negb (is_empty (reason_code u)) ||
               negb (is_empty (policy_version u))) Unavailable.

(** [if !s.is_empty() { f(s)?; }]. *)
Definition unless_empty {A} (s : str) (f : str -> cres A) : cres unit :=
  if is_empty s then Ok tt else _ ← f s; Ok tt.

Section Rows.
Context `{Chrono} `{Digest} `{Json}.

Definition computed_hash (r : UnsignedRow) : cres str :=
  bytes ← ok_or (unsigned_to_vec r) Unavailable;
  Ok (sha256 [lit "AVA619-JOURNAL-v1" ++ [0]; bytes]).

Definition row_bytes (r : JournalRow) : cres (list Z) :=
  json ← ok_or (row_to_vec r) Unavailable;
  let bytes := json ++ [ch_lf] in
  _ ← map_err Capacity (validate Key_JournalRow (Z.of_nat (length bytes)));
  Ok bytes.

Definition validate_ticket_fields (u : UnsignedRow) : cres unit :=
  _ ← refuse_if
        (negb (is_empty (list_version u)) || negb (url_count u =? 0) ||
         negb (host_count u =? 0) || negb (is_empty (record_ref u)) ||
         negb (quarantined_bytes u =? 0) || negb (is_empty (quarantine_hash u)) ||
         event_in (event u)
           [Event_ListAccessed; Event_TailRecovered; Event_RecordIntent; Event_RecordAdded;
            Event_ReviewOpened]) Unavailable;
  _ ← unless_empty (decision u) (parse (T := DecisionKind));
  _ ← if negb (is_empty (reason_code u)) && negb (str_eqb (reason_code u) duplicate_clause)
      then _ ← parse (T := Ground) (reason_code u); Ok tt
      else Ok tt;
  _ ← if is_empty (policy_version u) then Ok tt
      else
        _ ← text (policy_version u) Key_Slug Class_Slug;
        refuse_if (negb (str_eqb (decision u) (lit "manifestly_unfounded")) ||
                   negb (str_eqb (reason_code u) duplicate_clause)) Unavailable;
  _ ← documents u;
  _ ← refuse_if (negb (Bool.eqb (payload_sequence u =? 0) (is_empty (commitment u)))) Unavailable;
  _ ← unless_empty (commitment u) Hex64_parse;
  _ ← unless_empty (related_ticket_id u) TicketId_parse;
  if effective_at u =? -1 then Ok tt else _ ← instant (effective_at u); Ok tt.

Definition validate_system (u : UnsignedRow) : cres unit :=
  _ ← refuse_if
        (negb (is_empty (row_route u)) || negb (is_empty (row_requester u)) ||
         negb (is_empty (row_state u)) || negb (received_at u =? -1) ||
         negb (is_empty (decision u)) || negb (is_empty (reason_code u)) ||
         negb (is_empty (policy_version u)) || negb (is_empty (asset_ids u)) ||
         negb (payload_sequence u =? 0) || negb (is_empty (commitment u)) ||
         negb (intent_sequence u =? 0) || negb (effective_at u =? -1) ||
         negb (is_empty (related_ticket_id u)) || negb (is_empty (record_ref u))) Unavailable;
  match event u with
  | Event_ListAccessed =>
      _ ← refuse_if (negb (str_eqb (actor u) (lit "system.list")) ||
                     negb (quarantined_bytes u =? 0) || negb (is_empty (quarantine_hash u)))
            Unavailable;
      _ ← text (list_version u) Key_Slug Class_Slug;
      entries ← ok_or (u64_checked_add (url_count u) (host_count u)) Unavailable;
      validate Key_ListEntries entries
  | Event_TailRecovered =>
      _ ← refuse_if (negb (str_eqb (actor u) (lit "system.recovery")) ||
                     negb (is_empty (list_version u)) || negb (url_count u =? 0) ||
                     negb (host_count u =? 0)) Unavailable;
      _ ← validate Key_JournalRow (quarantined_bytes u);
      _ ← Hex64_parse (quarantine_hash u);
      Ok tt
  | _ => Err Unavailable
  end.

Definition validate_metadata (r : JournalRow) : cres unit :=
  _ ← refuse_if (negb (format_version r =? 1)) Unavailable;
  _ ← Hex64_parse (previous_hash r);
  _ ← Hex64_parse (row_hash r);
  _ ← instant (row_at r);
  if is_empty (ticket_id r) then validate_system r
  else
    _ ← TicketId_parse (ticket_id r);
    _ ← parse (T := Route) (row_route r);
    _ ← parse (T := RequesterType) (row_requester r);
    _ ← parse (T := TicketState) (row_state r);
    _ ← instant (received_at r);
    _ ← refuse_if (row_at r <? received_at r) Unavailable;
    _ ← if one_of (actor r) ["system.intake"; "system.recovery"] then Ok tt
        else auth_actor (actor r);
    _ ← validate_ticket_fields r;
    validate_event_fields r.
End Rows.

(** ** A reference instance

    A row is the list of its members, each written with [\], [,] and line feeds
    escaped and ended by a comma. *)
Module JsonReference.
Export DigestReference.
Definition esc (c : Z) : list Z :=
  if c =? 10 then [92; 110] else if c =? 44 then [92; 44] else if c =? 92 then [92; 92] else [c].
Definition unesc (c : Z) : Z := if c =? 110 then 10 else c.
Definition encode_field (f : list Z) : list Z := concat (map esc f) ++ [44].
Definition encode (fs : list (list Z)) : list Z := concat (map encode_field fs).

Fixpoint decode (cur : list Z) (bytes : list Z) : option (list (list Z)) :=
  match bytes with
  | [] => if is_empty cur then Some [] else None
  | c :: rest =>
      if c =? 10 then if is_empty cur && is_empty rest then Some [] else None
      else if c =? 44 then cons cur <$> decode [] rest
      else if c =? 92 then
        match rest with
        | d :: rest' => decode (cur ++ [unesc d]) rest'
        | [] => None
        end
      else decode (cur ++ [c]) rest
  end.

Lemma decode_field f cur rest :
  decode cur (encode_field f ++ rest) = cons (cur ++ f) <$> decode [] rest.
Proof.
  revert cur; induction f as [|c f IH]; intros cur; [by rewrite app_nil_r|].
  unfold encode_field in *. cbn [map concat]. rewrite <- !app_assoc in *.
  specialize (IH (cur ++ [c])). rewrite <- !app_assoc in IH. cbn [app] in IH.
  unfold esc at 1. destruct (Z.eqb_spec c 10) as [->|H10]; [exact IH|].
  destruct (Z.eqb_spec c 44) as [->|H44]; [exact IH|].
  destruct (Z.eqb_spec c 92) as [->|H92]; [exact IH|].
  cbn [app decode]. by rewrite (proj2 (Z.eqb_neq c 10)), (proj2 (Z.eqb_neq c 44)), (proj2 (Z.eqb_neq c 92)).
Qed.

Lemma decode_encode fs : decode [] (encode fs ++ [10]) = Some fs /\ decode [] (encode fs) = Some fs.
Proof.
  unfold encode. induction fs as [|f fs [IH1 IH2]]; [done|]. cbn [map concat].
  rewrite <- app_assoc, !decode_field, IH1, IH2. done.
Qed.

Lemma encode_one_line fs : ch_lf ∉ encode fs.
Proof.
  intros Hin%list_elem_of_In. unfold encode in Hin. apply in_concat in Hin as (l & Hl & Hin).
  apply in_map_iff in Hl as (f & <- & _). unfold encode_field in Hin.
  apply in_app_or in Hin as [Hin|[Hin|[]]]; [|done].
  apply in_concat in Hin as (e & He & Hin). apply in_map_iff in He as (c & <- & _).
  unfold esc in Hin. repeat case_match; cbn in Hin; unfold ch_lf in *; bool_to_prop; lia.
Qed.

Definition all_events : list EventName :=
  [Event_Received; Event_Acknowledged; Event_Queued; Event_IdentityRequested;
   Event_IdentityConfirmed; Event_ClarificationRequested; Event_ClarificationReceived;
   Event_ExtensionNotified; Event_Decided; Event_ActionIntent; Event_RulesCommitted;
   Event_Actioned; Event_Appealed; Event_ReversalIntent; Event_Reversed; Event_Upheld;
   Event_ProgressCommunicated; Event_Closed; Event_PurgeIntent; Event_Purged;
   Event_ListAccessed; Event_RecordIntent; Event_RecordAdded; Event_ReviewOpened;
   Event_TailRecovered].
Definition event_number (e : EventName) : Z :=
  Z.of_nat (default 0%nat (fst <$> list_find (fun x => x = e) all_events)).
Definition event_of (n : Z) : EventName := default Event_Received (all_events !! Z.to_nat n).

Definition fields (u : UnsignedRow) : list (list Z) :=
  [[format_version u]; [sequence u]; previous_hash u; [row_at u]; [received_at u];
   [event_number (event u)]; ticket_id u; row_route u; row_requester u; row_state u; actor u;
   decision u; reason_code u; policy_version u; asset_ids u; [payload_sequence u]; commitment u;
   [intent_sequence u]; [effective_at u]; related_ticket_id u; record_ref u; list_version u;
   [url_count u]; [host_count u]; [quarantined_bytes u]; quarantine_hash u].
Definition row_of (fs : list (list Z)) : option UnsignedRow :=
  match fs with
  | [[a]; [b]; c; [d]; [e]; [f]; g; h; i; j; k; l; m; n; o; [p]; q; [r]; [s]; t; u; v; [w]; [x]; [y]; z] =>
      Some {| format_version := a; sequence := b; previous_hash := c; row_at := d;
        received_at := e; event := event_of f; ticket_id := g; row_route := h; row_requester := i;
        row_state := j; actor := k; decision := l; reason_code := m; policy_version := n;
        asset_ids := o; payload_sequence := p; commitment := q; intent_sequence := r;
        effective_at := s; related_ticket_id := t; record_ref := u; list_version := v;
        url_count := w; host_count := x; quarantined_bytes := y; quarantine_hash := z |}
  | _ => None
  end.

Lemma row_of_fields u : row_of (fields u) = Some u.
Proof. destruct u as [? ? ? ? ? [] ?]; reflexivity. Qed.

#[export] Instance json_reference : Json := {|
  unsigned_to_vec u := Some (encode (fields u));
  row_to_vec r := Some (encode (row_hash r :: fields r));
  row_from_slice b :=
    fs ← decode [] b;
    match fs with
    | hash :: fs => (fun u => {| unsigned := u; row_hash := hash |}) <$> row_of fs
    | [] => None
    end;
  head_to_vec h := Some (encode [[head_version h]; [head_sequence h]; head_hash h; [head_bytes h]]);
  head_from_slice b :=
    fs ← decode [] b;
    match fs with
    | [[v]; [s]; h; [n]] =>
        Some {| head_version := v; head_sequence := s; head_hash := h; head_bytes := n |}
    | _ => None
    end;
|}.

Lemma encode_field_length f : (length (encode_field f) <= 2 * length f + 1)%nat.
Proof.
  unfold encode_field. rewrite length_app. cbn [length].
  induction f as [|c f IH]; cbn [map concat length]; [lia|]. rewrite length_app.
  assert (length (esc c) <= 2)%nat by (unfold esc; repeat case_match; cbn; lia). lia.
Qed.

#[export] Instance json_reference_laws : JsonLaws json_reference.
Proof.
  split; cbn [unsigned_to_vec row_to_vec row_from_slice head_to_vec head_from_slice json_reference].
  - intros u v b [= <-] E%(inj Some). apply (f_equal (decode [])) in E.
    rewrite !(proj2 (decode_encode _)) in E. apply (inj Some), (f_equal row_of) in E. rewrite !row_of_fields in E. congruence.
  - intros r b [= <-]. rewrite (proj1 (decode_encode _)). cbn [mbind option_bind].
    rewrite row_of_fields. by destruct r.
  - intros r b [= <-]. apply encode_one_line.
  - intros h b [= <-]. rewrite (proj1 (decode_encode _)). by destruct h.
  - intros h b [= <-] _ _ _ Hl. unfold encode. cbn [map concat]. rewrite app_nil_r, !length_app.
    pose proof (encode_field_length (head_hash h)).
    pose proof (encode_field_length [head_version h]). pose proof (encode_field_length [head_sequence h]).
    pose proof (encode_field_length [head_bytes h]). cbn [length] in *. lia.
Qed.
End JsonReference.
