(* ===== verification/RowFields.v ===== *)
(** * Assignments to journal rows

    The case owner and recovery fill a row field by field ([row.actor = ..]);
    each function here is one such assignment. A row that is not yet prepared
    has no hash. *)

From S2P Require Import Prelude Text Externals Compliance ComplianceModel JournalRow.

#[local] Open Scope Z_scope.

Definition with_at (v : Z) (r : JournalRow) : JournalRow := {|
  unsigned := {|
    format_version := format_version r; sequence := sequence r; previous_hash :=
    previous_hash r; row_at := v; received_at := received_at r; event := event r; ticket_id
    := ticket_id r; row_route := row_route r; row_requester := row_requester r; row_state :=
    row_state r; actor := actor r; decision := decision r; reason_code := reason_code r;
    policy_version := policy_version r; asset_ids := asset_ids r; payload_sequence :=
    payload_sequence r; commitment := commitment r; intent_sequence := intent_sequence r;
    effective_at := effective_at r; related_ticket_id := related_ticket_id r; record_ref :=
    record_ref r; list_version := list_version r; url_count := url_count r; host_count :=
    host_count r; quarantined_bytes := quarantined_bytes r; quarantine_hash :=
    quarantine_hash r |};
  row_hash := row_hash r |}.
Definition with_received_at (v : Z) (r : JournalRow) : JournalRow := {|
  unsigned := {|
    format_version := format_version r; sequence := sequence r; previous_hash :=
    previous_hash r; row_at := row_at r; received_at := v; event := event r; ticket_id :=
    ticket_id r; row_route := row_route r; row_requester := row_requester r; row_state :=
    row_state r; actor := actor r; decision := decision r; reason_code := reason_code r;
    policy_version := policy_version r; asset_ids := asset_ids r; payload_sequence :=
    payload_sequence r; commitment := commitment r; intent_sequence := intent_sequence r;
    effective_at := effective_at r; related_ticket_id := related_ticket_id r; record_ref :=
    record_ref r; list_version := list_version r; url_count := url_count r; host_count :=
    host_count r; quarantined_bytes := quarantined_bytes r; quarantine_hash :=
    quarantine_hash r |};
  row_hash := row_hash r |}.
Definition with_event (v : EventName) (r : JournalRow) : JournalRow := {|
  unsigned := {|
    format_version := format_version r; sequence := sequence r; previous_hash :=
    previous_hash r; row_at := row_at r; received_at := received_at r; event := v; ticket_id
    := ticket_id r; row_route := row_route r; row_requester := row_requester r; row_state :=
    row_state r; actor := actor r; decision := decision r; reason_code := reason_code r;
    policy_version := policy_version r; asset_ids := asset_ids r; payload_sequence :=
    payload_sequence r; commitment := commitment r; intent_sequence := intent_sequence r;
    effective_at := effective_at r; related_ticket_id := related_ticket_id r; record_ref :=
    record_ref r; list_version := list_version r; url_count := url_count r; host_count :=
    host_count r; quarantined_bytes := quarantined_bytes r; quarantine_hash :=
    quarantine_hash r |};
  row_hash := row_hash r |}.
Definition with_ticket_id (v : str) (r : JournalRow) : JournalRow := {|
  unsigned := {|
    format_version := format_version r; sequence := sequence r; previous_hash :=
    previous_hash r; row_at := row_at r; received_at := received_at r; event := event r;
    ticket_id := v; row_route := row_route r; row_requester := row_requester r; row_state :=
    row_state r; actor := actor r; decision := decision r; reason_code := reason_code r;
    policy_version := policy_version r; asset_ids := asset_ids r; payload_sequence :=
    payload_sequence r; commitment := commitment r; intent_sequence := intent_sequence r;
    effective_at := effective_at r; related_ticket_id := related_ticket_id r; record_ref :=
    record_ref r; list_version := list_version r; url_count := url_count r; host_count :=
    host_count r; quarantined_bytes := quarantined_bytes r; quarantine_hash :=
    quarantine_hash r |};
  row_hash := row_hash r |}.
Definition with_route (v : str) (r : JournalRow) : JournalRow := {|
  unsigned := {|
    format_version := format_version r; sequence := sequence r; previous_hash :=
    previous_hash r; row_at := row_at r; received_at := received_at r; event := event r;
    ticket_id := ticket_id r; row_route := v; row_requester := row_requester r; row_state :=
    row_state r; actor := actor r; decision := decision r; reason_code := reason_code r;
    policy_version := policy_version r; asset_ids := asset_ids r; payload_sequence :=
    payload_sequence r; commitment := commitment r; intent_sequence := intent_sequence r;
    effective_at := effective_at r; related_ticket_id := related_ticket_id r; record_ref :=
    record_ref r; list_version := list_version r; url_count := url_count r; host_count :=
    host_count r; quarantined_bytes := quarantined_bytes r; quarantine_hash :=
    quarantine_hash r |};
  row_hash := row_hash r |}.
Definition with_requester (v : str) (r : JournalRow) : JournalRow := {|
  unsigned := {|
    format_version := format_version r; sequence := sequence r; previous_hash :=
    previous_hash r; row_at := row_at r; received_at := received_at r; event := event r;
    ticket_id := ticket_id r; row_route := row_route r; row_requester := v; row_state :=
    row_state r; actor := actor r; decision := decision r; reason_code := reason_code r;
    policy_version := policy_version r; asset_ids := asset_ids r; payload_sequence :=
    payload_sequence r; commitment := commitment r; intent_sequence := intent_sequence r;
    effective_at := effective_at r; related_ticket_id := related_ticket_id r; record_ref :=
    record_ref r; list_version := list_version r; url_count := url_count r; host_count :=
    host_count r; quarantined_bytes := quarantined_bytes r; quarantine_hash :=
    quarantine_hash r |};
  row_hash := row_hash r |}.
Definition with_state (v : str) (r : JournalRow) : JournalRow := {|
  unsigned := {|
    format_version := format_version r; sequence := sequence r; previous_hash :=
    previous_hash r; row_at := row_at r; received_at := received_at r; event := event r;
    ticket_id := ticket_id r; row_route := row_route r; row_requester := row_requester r;
    row_state := v; actor := actor r; decision := decision r; reason_code := reason_code r;
    policy_version := policy_version r; asset_ids := asset_ids r; payload_sequence :=
    payload_sequence r; commitment := commitment r; intent_sequence := intent_sequence r;
    effective_at := effective_at r; related_ticket_id := related_ticket_id r; record_ref :=
    record_ref r; list_version := list_version r; url_count := url_count r; host_count :=
    host_count r; quarantined_bytes := quarantined_bytes r; quarantine_hash :=
    quarantine_hash r |};
  row_hash := row_hash r |}.
Definition with_actor (v : str) (r : JournalRow) : JournalRow := {|
  unsigned := {|
    format_version := format_version r; sequence := sequence r; previous_hash :=
    previous_hash r; row_at := row_at r; received_at := received_at r; event := event r;
    ticket_id := ticket_id r; row_route := row_route r; row_requester := row_requester r;
    row_state := row_state r; actor := v; decision := decision r; reason_code := reason_code
    r; policy_version := policy_version r; asset_ids := asset_ids r; payload_sequence :=
    payload_sequence r; commitment := commitment r; intent_sequence := intent_sequence r;
    effective_at := effective_at r; related_ticket_id := related_ticket_id r; record_ref :=
    record_ref r; list_version := list_version r; url_count := url_count r; host_count :=
    host_count r; quarantined_bytes := quarantined_bytes r; quarantine_hash :=
    quarantine_hash r |};
  row_hash := row_hash r |}.
Definition with_decision (v : str) (r : JournalRow) : JournalRow := {|
  unsigned := {|
    format_version := format_version r; sequence := sequence r; previous_hash :=
    previous_hash r; row_at := row_at r; received_at := received_at r; event := event r;
    ticket_id := ticket_id r; row_route := row_route r; row_requester := row_requester r;
    row_state := row_state r; actor := actor r; decision := v; reason_code := reason_code r;
    policy_version := policy_version r; asset_ids := asset_ids r; payload_sequence :=
    payload_sequence r; commitment := commitment r; intent_sequence := intent_sequence r;
    effective_at := effective_at r; related_ticket_id := related_ticket_id r; record_ref :=
    record_ref r; list_version := list_version r; url_count := url_count r; host_count :=
    host_count r; quarantined_bytes := quarantined_bytes r; quarantine_hash :=
    quarantine_hash r |};
  row_hash := row_hash r |}.
Definition with_reason_code (v : str) (r : JournalRow) : JournalRow := {|
  unsigned := {|
    format_version := format_version r; sequence := sequence r; previous_hash :=
    previous_hash r; row_at := row_at r; received_at := received_at r; event := event r;
    ticket_id := ticket_id r; row_route := row_route r; row_requester := row_requester r;
    row_state := row_state r; actor := actor r; decision := decision r; reason_code := v;
    policy_version := policy_version r; asset_ids := asset_ids r; payload_sequence :=
    payload_sequence r; commitment := commitment r; intent_sequence := intent_sequence r;
    effective_at := effective_at r; related_ticket_id := related_ticket_id r; record_ref :=
    record_ref r; list_version := list_version r; url_count := url_count r; host_count :=
    host_count r; quarantined_bytes := quarantined_bytes r; quarantine_hash :=
    quarantine_hash r |};
  row_hash := row_hash r |}.
Definition with_policy_version (v : str) (r : JournalRow) : JournalRow := {|
  unsigned := {|
    format_version := format_version r; sequence := sequence r; previous_hash :=
    previous_hash r; row_at := row_at r; received_at := received_at r; event := event r;
    ticket_id := ticket_id r; row_route := row_route r; row_requester := row_requester r;
    row_state := row_state r; actor := actor r; decision := decision r; reason_code :=
    reason_code r; policy_version := v; asset_ids := asset_ids r; payload_sequence :=
    payload_sequence r; commitment := commitment r; intent_sequence := intent_sequence r;
    effective_at := effective_at r; related_ticket_id := related_ticket_id r; record_ref :=
    record_ref r; list_version := list_version r; url_count := url_count r; host_count :=
    host_count r; quarantined_bytes := quarantined_bytes r; quarantine_hash :=
    quarantine_hash r |};
  row_hash := row_hash r |}.
Definition with_asset_ids (v : str) (r : JournalRow) : JournalRow := {|
  unsigned := {|
    format_version := format_version r; sequence := sequence r; previous_hash :=
    previous_hash r; row_at := row_at r; received_at := received_at r; event := event r;
    ticket_id := ticket_id r; row_route := row_route r; row_requester := row_requester r;
    row_state := row_state r; actor := actor r; decision := decision r; reason_code :=
    reason_code r; policy_version := policy_version r; asset_ids := v; payload_sequence :=
    payload_sequence r; commitment := commitment r; intent_sequence := intent_sequence r;
    effective_at := effective_at r; related_ticket_id := related_ticket_id r; record_ref :=
    record_ref r; list_version := list_version r; url_count := url_count r; host_count :=
    host_count r; quarantined_bytes := quarantined_bytes r; quarantine_hash :=
    quarantine_hash r |};
  row_hash := row_hash r |}.
Definition with_payload_sequence (v : Z) (r : JournalRow) : JournalRow := {|
  unsigned := {|
    format_version := format_version r; sequence := sequence r; previous_hash :=
    previous_hash r; row_at := row_at r; received_at := received_at r; event := event r;
    ticket_id := ticket_id r; row_route := row_route r; row_requester := row_requester r;
    row_state := row_state r; actor := actor r; decision := decision r; reason_code :=
    reason_code r; policy_version := policy_version r; asset_ids := asset_ids r;
    payload_sequence := v; commitment := commitment r; intent_sequence := intent_sequence r;
    effective_at := effective_at r; related_ticket_id := related_ticket_id r; record_ref :=
    record_ref r; list_version := list_version r; url_count := url_count r; host_count :=
    host_count r; quarantined_bytes := quarantined_bytes r; quarantine_hash :=
    quarantine_hash r |};
  row_hash := row_hash r |}.
Definition with_commitment (v : str) (r : JournalRow) : JournalRow := {|
  unsigned := {|
    format_version := format_version r; sequence := sequence r; previous_hash :=
    previous_hash r; row_at := row_at r; received_at := received_at r; event := event r;
    ticket_id := ticket_id r; row_route := row_route r; row_requester := row_requester r;
    row_state := row_state r; actor := actor r; decision := decision r; reason_code :=
    reason_code r; policy_version := policy_version r; asset_ids := asset_ids r;
    payload_sequence := payload_sequence r; commitment := v; intent_sequence :=
    intent_sequence r; effective_at := effective_at r; related_ticket_id :=
    related_ticket_id r; record_ref := record_ref r; list_version := list_version r;
    url_count := url_count r; host_count := host_count r; quarantined_bytes :=
    quarantined_bytes r; quarantine_hash := quarantine_hash r |};
  row_hash := row_hash r |}.
Definition with_intent_sequence (v : Z) (r : JournalRow) : JournalRow := {|
  unsigned := {|
    format_version := format_version r; sequence := sequence r; previous_hash :=
    previous_hash r; row_at := row_at r; received_at := received_at r; event := event r;
    ticket_id := ticket_id r; row_route := row_route r; row_requester := row_requester r;
    row_state := row_state r; actor := actor r; decision := decision r; reason_code :=
    reason_code r; policy_version := policy_version r; asset_ids := asset_ids r;
    payload_sequence := payload_sequence r; commitment := commitment r; intent_sequence :=
    v; effective_at := effective_at r; related_ticket_id := related_ticket_id r; record_ref
    := record_ref r; list_version := list_version r; url_count := url_count r; host_count :=
    host_count r; quarantined_bytes := quarantined_bytes r; quarantine_hash :=
    quarantine_hash r |};
  row_hash := row_hash r |}.
Definition with_effective_at (v : Z) (r : JournalRow) : JournalRow := {|
  unsigned := {|
    format_version := format_version r; sequence := sequence r; previous_hash :=
    previous_hash r; row_at := row_at r; received_at := received_at r; event := event r;
    ticket_id := ticket_id r; row_route := row_route r; row_requester := row_requester r;
    row_state := row_state r; actor := actor r; decision := decision r; reason_code :=
    reason_code r; policy_version := policy_version r; asset_ids := asset_ids r;
    payload_sequence := payload_sequence r; commitment := commitment r; intent_sequence :=
    intent_sequence r; effective_at := v; related_ticket_id := related_ticket_id r;
    record_ref := record_ref r; list_version := list_version r; url_count := url_count r;
    host_count := host_count r; quarantined_bytes := quarantined_bytes r; quarantine_hash :=
    quarantine_hash r |};
  row_hash := row_hash r |}.
Definition with_related_ticket_id (v : str) (r : JournalRow) : JournalRow := {|
  unsigned := {|
    format_version := format_version r; sequence := sequence r; previous_hash :=
    previous_hash r; row_at := row_at r; received_at := received_at r; event := event r;
    ticket_id := ticket_id r; row_route := row_route r; row_requester := row_requester r;
    row_state := row_state r; actor := actor r; decision := decision r; reason_code :=
    reason_code r; policy_version := policy_version r; asset_ids := asset_ids r;
    payload_sequence := payload_sequence r; commitment := commitment r; intent_sequence :=
    intent_sequence r; effective_at := effective_at r; related_ticket_id := v; record_ref :=
    record_ref r; list_version := list_version r; url_count := url_count r; host_count :=
    host_count r; quarantined_bytes := quarantined_bytes r; quarantine_hash :=
    quarantine_hash r |};
  row_hash := row_hash r |}.

(** The assignments of [reference]. *)
Definition with_reference (number : Z) (digest : str) (r : JournalRow) : JournalRow :=
  with_commitment digest (with_payload_sequence number r).
