(* ===== verification/Journal.v ===== *)
(** * The compliance journal store ([compliance/journal.rs], from line 416)

    A hash chain of rows in [events.jsonl] with a checkpoint in [head.json].
    The files are byte strings; every operation takes the outcomes of its
    system calls and hooks, so a failure or a crash at any point is an
    instance. The clock reading of an operation is its argument [now]. *)

From S2P Require Import Prelude Text Externals Compliance ComplianceModel JournalRow.

#[local] Open Scope Z_scope.

Definition zero_hash : str := replicate 64 48.
Definition Head_empty : Head :=
  {| head_version := 1; head_sequence := 0; head_hash := zero_hash; head_bytes := 0 |}.

Record VerifiedBytes := {
  rows : list JournalRow;
  complete_length : Z;
  tail : option (list Z);
}.
Record ObservedTail := { tail_bytes : list Z; base_sequence : Z }.

(** The files of the journal directory. *)
Record JournalDisk := {
  events_file : list Z;
  head_file : list Z;
  quarantines : list (str * list Z);
}.
Record Journal := {
  disk : JournalDisk;
  journal_head : Head;
  journal_rows : list JournalRow;
  config : ComplianceConfig;
  recovered_tail : option ObservedTail;
}.

Definition set_events (bytes : list Z) (d : JournalDisk) : JournalDisk :=
  {| events_file := bytes; head_file := head_file d; quarantines := quarantines d |}.
Definition set_head_file (bytes : list Z) (d : JournalDisk) : JournalDisk :=
  {| events_file := events_file d; head_file := bytes; quarantines := quarantines d |}.
Definition set_disk (d : JournalDisk) (j : Journal) : Journal :=
  {| disk := d; journal_head := journal_head j; journal_rows := journal_rows j;
     config := config j; recovered_tail := recovered_tail j |}.

Definition last_at (j : Journal) : option Z :=
  (fun r : JournalRow => row_at r) <$> last (journal_rows j).

(** ** Checks *)

Definition verify_time (r : UnsignedRow) (last : option Z) (now : Z) : cres unit :=
  refuse_if ((now <? row_at r) ||
             match last with Some last => row_at r <? last | None => false end) Unavailable.
Definition checkpoint_agrees (seq : Z) (hash : str) (length : Z) (head : Head) : bool :=
  (seq =? head_sequence head) && str_eqb hash (head_hash head) && (length =? head_bytes head).

(** [bytes.split_inclusive(|byte| *byte == b'\n')]. *)
Fixpoint split_inclusive (bytes : list Z) : list (list Z) :=
  match bytes with
  | [] => []
  | b :: rest =>
      if b =? ch_lf then [b] :: split_inclusive rest
      else match split_inclusive rest with
           | [] => [[b]]
           | line :: lines => (b :: line) :: lines
           end
  end.
Definition ends_lf (line : list Z) : bool := bool_decide (last line = Some ch_lf).

Section Journal.
Context `{Chrono} `{Digest} `{Json}.

Definition verify_link (r : JournalRow) (seq : Z) (previous : str) : cres unit :=
  _ ← refuse_if (negb (sequence r =? seq)) Unavailable;
  _ ← refuse_if (negb (str_eqb (previous_hash r) previous)) Unavailable;
  hash ← computed_hash r;
  refuse_if (negb (str_eqb hash (row_hash r))) Unavailable.

(** The checks of one complete line in the loop of [verify_bytes]; [hook] is
    the outcome of its [BeforeDecode] stage. Returns the row and its sequence. *)
Definition verify_row (now : Z) (hook : bool) (seq : Z) (previous : str) (last_at : option Z)
    (line : list Z) : cres (JournalRow * Z) :=
  _ ← map_err Unavailable (validate Key_JournalRow (Z.of_nat (length line)));
  _ ← refuse_if (negb hook) Unavailable;
  ok_or (row_from_slice line) Unavailable ≫= fun row : JournalRow =>
  seq ← ok_or (u64_checked_add seq 1) Unavailable;
  _ ← verify_link row seq previous;
  _ ← verify_time row last_at now;
  _ ← validate_metadata row;
  bytes ← row_bytes row;
  _ ← refuse_if (negb (str_eqb bytes line)) Unavailable;
  Ok (row, seq).

(** The loop of [verify_bytes] over the lines; [hook n] is the outcome of the
    stage at the [n]-th row. *)
Fixpoint verify_lines (now : Z) (hook : Z -> bool) (head : Head) (lines : list (list Z))
    (rows : list JournalRow) (end_ : Z) (previous : str) (seq : Z) (committed : bool)
    (last_at : option Z) : cres VerifiedBytes :=
  match lines with
  | [] =>
      _ ← refuse_if (negb committed) Unavailable;
      Ok {| rows := rows; complete_length := end_; tail := None |}
  | line :: lines' =>
      if negb (ends_lf line) then
        _ ← refuse_if ((end_ <? head_bytes head) || negb committed) Unavailable;
        _ ← map_err Unavailable (validate Key_JournalRow (Z.of_nat (length line)));
        Ok {| rows := rows; complete_length := end_; tail := Some line |}
      else
        verify_row now (hook (seq + 1)) seq previous last_at line ≫= fun '((row, seq) : JournalRow * Z) =>
        end_ ← ok_or (u64_checked_add end_ (Z.of_nat (length line))) Unavailable;
        let committed :=
          if sequence row =? head_sequence head
          then checkpoint_agrees (sequence row) (row_hash row) end_ head else committed in
        verify_lines now hook head lines' (rows ++ [row]) end_ (row_hash row) seq committed
          (Some (row_at row))
  end.
Definition verify_bytes (now : Z) (hook : Z -> bool) (bytes : list Z) (head : Head)
    : cres VerifiedBytes :=
  verify_lines now hook head (split_inclusive bytes) [] 0 zero_hash 0
    (checkpoint_agrees 0 zero_hash 0 head) None.

(** ** Preparing rows *)

Fixpoint prepare_from (now seq : Z) (previous : str) (last_at : option Z) (l : list JournalRow)
    : cres (list JournalRow) :=
  match l with
  | [] => Ok []
  | row :: l' =>
      seq ← ok_or (u64_checked_add seq 1) Capacity;
      let u := set_link seq previous row in
      hash ← computed_hash u;
      let row := {| unsigned := u; row_hash := hash |} in
      _ ← verify_time row last_at now;
      _ ← validate_metadata row;
      _ ← row_bytes row;
      rest ← prepare_from now seq hash (Some (row_at row)) l';
      Ok (row :: rest)
  end.
Definition prepare_rows (j : Journal) (now : Z) (l : list JournalRow) : cres (list JournalRow) :=
  prepare_from now (head_sequence (journal_head j)) (head_hash (journal_head j)) (last_at j) l.

(** ** Writing *)

(** Outcomes of the stages of [write_head] and [replace_head]. *)
Record HeadIo := {
  head_open : bool; head_write : bool; head_sync : bool; head_rename : bool;
  after_head_rename : bool; head_dir_sync : bool; after_head_sync : bool;
}.
(** The checkpoint is the new one as soon as the rename succeeded. *)
Definition write_head (io : HeadIo) (d : JournalDisk) (head : Head) : JournalDisk * cres unit :=
  if negb (head_open io) then (d, Err Unavailable)
  else match head_to_vec head with
  | None => (d, Err Unavailable)
  | Some json =>
      if negb (head_write io && head_sync io && head_rename io) then (d, Err Unavailable)
      else
        (set_head_file (json ++ [ch_lf]) d,
         refuse_if (negb (after_head_rename io && head_dir_sync io && after_head_sync io))
           Unavailable)
  end.

(** Outcomes of the stages of [append_tracked]; a failed write leaves the
    first [n] bytes in the file. *)
Record AppendIo := {
  append_open : bool;
  append_write : option nat;
  append_sync : bool;
  after_journal_sync : bool;
  append_head : HeadIo;
}.

(** Returns the journal, the request's write progress and the result. *)
Definition append_tracked (j : Journal) (now : Z) (io : AppendIo) (row : JournalRow)
    (progress : bool) : Journal * bool * cres unit :=
  let checks :=
    next ← ok_or (u64_checked_add (head_sequence (journal_head j)) 1) Unavailable;
    _ ← verify_link row next (head_hash (journal_head j));
    _ ← verify_time row (last_at j) now;
    bytes ← row_bytes row;
    length ← reserve (head_bytes (journal_head j)) (Z.of_nat (length bytes))
               (max_journal_bytes (config j)) 0;
    Ok (bytes, length) in
  match checks with
  | Err e => (j, progress, Err e)
  | Ok (bytes, length) =>
      if negb (append_open io) then (j, progress, Err Unavailable)
      else match append_write io with
      | Some n =>
          (set_disk (set_events (events_file (disk j) ++ take n bytes) (disk j)) j, true,
           Err Unavailable)
      | None =>
          let d := set_events (events_file (disk j) ++ bytes) (disk j) in
          if negb (append_sync io && after_journal_sync io)
          then (set_disk d j, true, Err Unavailable)
          else
            let head := {| head_version := 1; head_sequence := sequence row;
                           head_hash := row_hash row; head_bytes := length |} in
            let (d', result) := write_head (append_head io) d head in
            match result with
            | Err e => (set_disk d' j, true, Err e)
            | Ok _ =>
                ({| disk := d'; journal_head := head; journal_rows := journal_rows j ++ [row];
                    config := config j; recovered_tail := recovered_tail j |}, true, Ok tt)
            end
      end
  end.
Definition append (j : Journal) (now : Z) (io : AppendIo) (row : JournalRow)
    : Journal * cres unit :=
  let '(j', _, result) := append_tracked j now io row false in (j', result).

Definition set_list (metadata_version : str) (urls hosts : Z) (u : UnsignedRow) : UnsignedRow := {|
  format_version := format_version u; sequence := sequence u; previous_hash := previous_hash u;
  row_at := row_at u; received_at := received_at u; event := event u; ticket_id := ticket_id u;
  row_route := row_route u; row_requester := row_requester u; row_state := row_state u;
  actor := lit "system.list"; decision := decision u; reason_code := reason_code u;
  policy_version := policy_version u; asset_ids := asset_ids u;
  payload_sequence := payload_sequence u; commitment := commitment u;
  intent_sequence := intent_sequence u; effective_at := effective_at u;
  related_ticket_id := related_ticket_id u; record_ref := record_ref u;
  list_version := metadata_version; url_count := urls; host_count := hosts;
  quarantined_bytes := quarantined_bytes u; quarantine_hash := quarantine_hash u |}.
Definition set_recovery (length : Z) (hash : str) (u : UnsignedRow) : UnsignedRow := {|
  format_version := format_version u; sequence := sequence u; previous_hash := previous_hash u;
  row_at := row_at u; received_at := received_at u; event := event u; ticket_id := ticket_id u;
  row_route := row_route u; row_requester := row_requester u; row_state := row_state u;
  actor := lit "system.recovery"; decision := decision u; reason_code := reason_code u;
  policy_version := policy_version u; asset_ids := asset_ids u;
  payload_sequence := payload_sequence u; commitment := commitment u;
  intent_sequence := intent_sequence u; effective_at := effective_at u;
  related_ticket_id := related_ticket_id u; record_ref := record_ref u;
  list_version := list_version u; url_count := url_count u; host_count := host_count u;
  quarantined_bytes := length; quarantine_hash := hash |}.

(** [prepare_rows(vec![row])?.remove(0)]. *)
Definition prepare_one (j : Journal) (now : Z) (row : JournalRow) : cres JournalRow :=
  prepared ← prepare_rows j now [row]; ok_or (head prepared) Unavailable.

(** [record_list_access]; the two clock readings are [at_] and [now]. *)
Definition record_list_access (j : Journal) (at_ now append_now : Z) (io : AppendIo)
    (version : str) (urls hosts : Z) : Journal * cres unit :=
  let row := {| unsigned := set_list version urls hosts (empty_unsigned Event_ListAccessed at_);
                row_hash := [] |} in
  let prepared :=
    row ← prepare_one j now row;
    bytes ← row_bytes row;
    _ ← reserve (head_bytes (journal_head j)) (Z.of_nat (length bytes))
          (max_journal_bytes (config j)) (spec_min (spec Key_ReservedJournalBytes));
    Ok row in
  match prepared with
  | Err e => (j, Err e)
  | Ok row => append j append_now io row
  end.

(** ** Loading and recovery *)

(** [disk::read_bounded]: the whole file, refused above the cap. *)
Definition read_bounded (readable : bool) (bytes : list Z) (maximum : Z) : cres (list Z) :=
  _ ← refuse_if (negb readable) Unavailable;
  _ ← map_err Unavailable (validate_range (Z.of_nat (length bytes)) 0 maximum);
  Ok bytes.

Definition read_head (readable hook : bool) (d : JournalDisk) : cres Head :=
  bytes ← read_bounded readable (head_file d) (spec_max (spec Key_JournalRow));
  _ ← refuse_if (negb hook) Unavailable;
  head ← ok_or (head_from_slice bytes) Unavailable;
  _ ← Hex64_parse (head_hash head);
  json ← ok_or (head_to_vec head) Unavailable;
  _ ← refuse_if (negb (head_version head =? 1) || negb (str_eqb (json ++ [ch_lf]) bytes))
        Unavailable;
  Ok head.

(** [{:020}]. *)
Definition pad20 (n : Z) : str := replicate (20 - length (dec n)) 48 ++ dec n.
Definition quarantine_name (base : Z) (hash : str) : str :=
  lit "quarantine-" ++ pad20 base ++ lit "-" ++ hash ++ lit ".bin".

(** Outcomes of the stages of [quarantine_tail] and [replace_quarantine]. *)
Record TailIo := {
  tail_lookup : bool; tail_read : bool;
  recovery_open : bool; recovery_write : bool; recovery_sync : bool; recovery_rename : bool;
  recovery_dir_sync : bool;
  truncate_open : bool; truncate_set_len : bool; truncate_sync : bool; after_tail_truncate : bool;
}.
Definition lookup_file (name : str) (files : list (str * list Z)) : option (list Z) :=
  snd <$> List.find (fun f => str_eqb (fst f) name) files.
Definition store_file (name : str) (bytes : list Z) (files : list (str * list Z))
    : list (str * list Z) :=
  (name, bytes) :: List.filter (fun f => negb (str_eqb (fst f) name)) files.
Definition replace_quarantine (io : TailIo) (name : str) (bytes : list Z) (d : JournalDisk)
    : JournalDisk * cres unit :=
  if negb (recovery_open io && recovery_write io && recovery_sync io && recovery_rename io)
  then (d, Err Unavailable)
  else
    ({| events_file := events_file d; head_file := head_file d;
        quarantines := store_file name bytes (quarantines d) |},
     refuse_if (negb (recovery_dir_sync io)) Unavailable).
Definition truncate_events (io : TailIo) (length : Z) (d : JournalDisk) : JournalDisk * cres unit :=
  if negb (truncate_open io && truncate_set_len io) then (d, Err Unavailable)
  else
    (set_events (take (Z.to_nat length) (events_file d)) d,
     refuse_if (negb (truncate_sync io && after_tail_truncate io)) Unavailable).
Definition quarantine_tail (io : TailIo) (t : ObservedTail) (head : Head) (d : JournalDisk)
    : JournalDisk * cres unit :=
  let name := quarantine_name (base_sequence t) (sha256 [tail_bytes t]) in
  let '(d1, preserved) :=
    if negb (tail_lookup io) then (d, Err Unavailable)
    else match lookup_file name (quarantines d) with
    | Some existing =>
        match read_bounded (tail_read io) existing (spec_max (spec Key_JournalRow)) with
        | Err e => (d, Err e)
        | Ok existing =>
            if str_eqb existing (tail_bytes t) then (d, Ok tt)
            else replace_quarantine io name (tail_bytes t) d
        end
    | None => replace_quarantine io name (tail_bytes t) d
    end in
  match preserved with
  | Err e => (d1, Err e)
  | Ok _ => truncate_events io (head_bytes head) d1
  end.

(** Outcomes of the reads of [load]. *)
Record LoadIo := {
  load_head : bool; load_head_hook : bool; load_events : bool; load_rows : Z -> bool;
  load_tail : TailIo;
}.
Definition head_of (l : list JournalRow) (length : Z) : Head := {|
  head_version := 1;
  head_sequence := match last l with Some row => sequence row | None => 0 end;
  head_hash := match last l with Some row => row_hash row | None => zero_hash end;
  head_bytes := length |}.
Definition load (c : ComplianceConfig) (now : Z) (io : LoadIo) (d : JournalDisk)
    : JournalDisk * cres Journal :=
  let verified :=
    head ← read_head (load_head io) (load_head_hook io) d;
    bytes ← read_bounded (load_events io) (events_file d) (max_journal_bytes c);
    verify_bytes now (load_rows io) bytes head in
  match verified with
  | Err e => (d, Err e)
  | Ok v =>
      let head := head_of (rows v) (complete_length v) in
      match tail v with
      | None =>
          (d, Ok {| disk := d; journal_head := head; journal_rows := rows v; config := c;
                    recovered_tail := None |})
      | Some bytes =>
          let t := {| tail_bytes := bytes; base_sequence := head_sequence head |} in
          let (d', result) := quarantine_tail (load_tail io) t head d in
          match result with
          | Err e => (d', Err e)
          | Ok _ =>
              (d', Ok {| disk := d'; journal_head := head; journal_rows := rows v; config := c;
                         recovered_tail := Some t |})
          end
      end
  end.

Definition accounted_quarantine (j : Journal) (name : str) : option JournalRow :=
  rest ← strip_prefix (lit "quarantine-") name;
  '(base, suffix) ← split_once ch_minus rest;
  seq ← parse_u64 base;
  List.find (fun row : JournalRow =>
    bool_decide (event row = Event_TailRecovered) && (seq <? sequence row) &&
    str_eqb (pad20 seq) base && str_eqb suffix (quarantine_hash row ++ lit ".bin"))
    (journal_rows j).
(** The number of unclaimed files is reported to the hooks. *)
Definition scan_quarantines (readable : str -> bool) (j : Journal) : cres Z :=
  try_fold (fun count '(name, bytes) =>
    if negb (starts_with (lit "quarantine-") name) then Ok count
    else match accounted_quarantine j name with
    | None => Ok (count + 1)
    | Some row =>
        bytes ← read_bounded (readable name) bytes (spec_max (spec Key_JournalRow));
        _ ← refuse_if (negb (Z.of_nat (length bytes) =? quarantined_bytes row) ||
                       negb (str_eqb (sha256 [bytes]) (quarantine_hash row))) Unavailable;
        Ok count
    end) 0 (quarantines (disk j)).

Record RecoveryIo := {
  recovery_append : AppendIo; recovery_scan : str -> bool; recovery_head : HeadIo;
}.
(** [at_], [now] and [append_now] are the clock readings of the recovery row. *)
Definition finish_recovery (j : Journal) (at_ now append_now : Z) (io : RecoveryIo)
    : Journal * cres unit :=
  let '(j1, recovered) :=
    match recovered_tail j with
    | None => (j, Ok tt)
    | Some t =>
        let j0 := {| disk := disk j; journal_head := journal_head j;
                     journal_rows := journal_rows j; config := config j;
                     recovered_tail := None |} in
        let u := set_recovery (Z.of_nat (length (tail_bytes t))) (sha256 [tail_bytes t])
                   (empty_unsigned Event_TailRecovered at_) in
        match prepare_one j0 now {| unsigned := u; row_hash := [] |} with
        | Err e => (j0, Err e)
        | Ok row => append j0 append_now (recovery_append io) row
        end
    end in
  match recovered with
  | Err e => (j1, Err e)
  | Ok _ =>
      match scan_quarantines (recovery_scan io) j1 with
      | Err e => (j1, Err e)
      | Ok _ =>
          let (d, result) := write_head (recovery_head io) (disk j1) (journal_head j1) in
          (set_disk d j1, result)
      end
  end.

Definition initialize (c : ComplianceConfig) (create sync dir_sync : bool) (io : HeadIo)
    : JournalDisk * cres Journal :=
  let d := {| events_file := []; head_file := []; quarantines := [] |} in
  if negb (create && sync && dir_sync) then (d, Err Unavailable)
  else
    let (d, result) := write_head io d Head_empty in
    (d, _ ← result;
        Ok {| disk := d; journal_head := Head_empty; journal_rows := []; config := c;
              recovered_tail := None |}).
End Journal.

(** ** Lines *)

Definition one_line (line : list Z) : Prop := exists body, line = body ++ [ch_lf] /\ ch_lf ∉ body.
(** A torn last line: bytes without a line end. *)
Definition torn (line : list Z) : Prop := line <> [] /\ ch_lf ∉ line.
(** What [split_inclusive] yields: complete lines, then at most one torn one. *)
Definition lines_wf (lines : list (list Z)) : Prop :=
  exists whole torn_part, lines = whole ++ torn_part /\ Forall one_line whole /\
    (torn_part = [] \/ exists t, torn_part = [t] /\ torn t).

Lemma split_inclusive_concat b : concat (split_inclusive b) = b.
Proof.
  induction b as [|c b IH]; [done|]. cbn. case_match; cbn; [by rewrite IH|].
  destruct (split_inclusive b); cbn in *; by rewrite <- IH.
Qed.

Lemma split_inclusive_line line b :
  one_line line -> split_inclusive (line ++ b) = line :: split_inclusive b.
Proof.
  intros (body & -> & Hb). rewrite <- app_assoc. cbn.
  induction body as [|c body IH]; [done|]. apply not_elem_of_cons in Hb as [Hc Hb].
  cbn. rewrite (proj2 (Z.eqb_neq c ch_lf)) by done. by rewrite IH.
Qed.

Lemma split_inclusive_torn t : torn t -> split_inclusive t = [t].
Proof.
  intros [Hne Ht]. induction t as [|c t IH]; [done|]. apply not_elem_of_cons in Ht as [Hc Ht].
  cbn. rewrite (proj2 (Z.eqb_neq c ch_lf)) by done.
  destruct t as [|d t]; [done|]. by rewrite IH.
Qed.

Lemma split_inclusive_lines whole t :
  Forall one_line whole -> (t = [] \/ torn t) ->
  split_inclusive (concat whole ++ t) = whole ++ split_inclusive t.
Proof.
  intros Hw Ht. induction Hw as [|line whole Hl _ IH]; [done|].
  cbn. rewrite <- app_assoc, split_inclusive_line by done. by rewrite IH.
Qed.

Lemma split_inclusive_wf b : lines_wf (split_inclusive b).
Proof.
  induction b as [|c b IH]; [by exists [], []; naive_solver|].
  destruct IH as (whole & rest & Hs & Hw & Hr). cbn. destruct (Z.eqb_spec c ch_lf) as [->|Hc].
  - exists ([ch_lf] :: whole), rest. rewrite Hs. split_and!; [done| |done].
    constructor; [|done]. exists []. split; [done|]. apply not_elem_of_nil.
  - rewrite Hs. destruct Hw as [|line whole (body & -> & Hb) Hw]; cbn.
    + exists [], (match rest with [] => [[c]] | l :: ls => (c :: l) :: ls end). split_and!; [done|done|].
      right. destruct Hr as [->|(t & -> & Hne & Ht)].
      * exists [c]. split; [done|]. split; [done|]. set_solver.
      * exists (c :: t). split; [done|]. split; [done|]. set_solver.
    + exists ((c :: body ++ [ch_lf]) :: whole), rest. split_and!; [done| |done].
      constructor; [|done]. exists (c :: body). split; [done|]. set_solver.
Qed.

Lemma ends_lf_line line : one_line line -> ends_lf line = true.
Proof. intros (body & -> & _). unfold ends_lf. by rewrite last_snoc. Qed.

Lemma ends_lf_torn line : torn line -> ends_lf line = false.
Proof.
  intros [Hne Ht]. unfold ends_lf. apply bool_decide_eq_false. intros Hl.
  apply last_Some in Hl as [l ->]. set_solver.
Qed.

(** ** What a verified journal is *)

Section Spec.
Context `{C : Chrono} `{D : Digest} `{J : Json}.

Definition line_of (r : JournalRow) : list Z := match row_bytes r with Ok b => b | Err _ => [] end.
Definition rows_bytes (l : list JournalRow) : list Z := concat (map line_of l).
Definition bytes_len (l : list JournalRow) : Z := Z.of_nat (length (rows_bytes l)).
Arguments line_of : simpl never.
Arguments rows_bytes : simpl never.
Arguments bytes_len : simpl never.
Definition last_hash (l : list JournalRow) : str :=
  match last l with Some r => row_hash r | None => zero_hash end.
Definition last_time (l : list JournalRow) : option Z :=
  (fun r : JournalRow => row_at r) <$> last l.

(** The row continues the rows before it: numbered next, bound to the hash of
    the previous one, hashed over its own contents, not before its predecessor
    and not in the future, valid and of bounded length. *)
Record link_ok (now : Z) (before : list JournalRow) (r : JournalRow) : Prop := {
  link_sequence : sequence r = Z.of_nat (length before) + 1;
  link_previous : previous_hash r = last_hash before;
  link_hash : computed_hash r = Ok (row_hash r);
  link_now : row_at r <= now;
  link_time : opt_le (last_time before) (Some (row_at r));
  link_valid : validate_metadata r = Ok tt;
  link_bytes : row_bytes r = Ok (line_of r);
}.
Definition Chain (now : Z) (l : list JournalRow) : Prop :=
  forall before r after, l = before ++ r :: after -> link_ok now before r.

(** The checkpoint names a prefix of the rows. *)
Definition Checkpoint (head : Head) (l : list JournalRow) : Prop :=
  exists k, (k <= length l)%nat /\ head_sequence head = Z.of_nat k /\
    head_hash head = last_hash (take k l) /\ head_bytes head = bytes_len (take k l).

Definition tail_ok (t : option (list Z)) : Prop :=
  match t with None => True | Some t => torn t /\ Z.of_nat (length t) <= 8192 end.

Record Verified (now : Z) (head : Head) (bytes : list Z) (v : VerifiedBytes) : Prop := {
  verified_chain : Chain now (rows v);
  verified_bytes : bytes = rows_bytes (rows v) ++ default [] (tail v);
  verified_length : complete_length v = bytes_len (rows v);
  verified_u64 : bytes_len (rows v) <= u64_max;
  verified_checkpoint : Checkpoint head (rows v);
  verified_tail : tail_ok (tail v);
}.

Lemma Chain_nil now : Chain now [].
Proof. intros before r after H. by destruct before. Qed.

Lemma Chain_prefix now l l' : Chain now (l ++ l') -> Chain now l.
Proof. intros H before r after ->. apply (H before r (after ++ l')). by rewrite <- app_assoc. Qed.

Lemma Chain_snoc now l r : Chain now (l ++ [r]) <-> Chain now l /\ link_ok now l r.
Proof.
  split.
  - intros H. split; [by apply Chain_prefix in H|]. by apply (H l r []).
  - intros [H Hr] before x after E. destruct after as [|y after] using rev_ind.
    + apply app_inj_tail in E as [-> ->]. done.
    + rewrite app_comm_cons, app_assoc in E. apply app_inj_tail in E as [-> _]. by apply (H _ _ after).
Qed.

Lemma last_hash_snoc l r : last_hash (l ++ [r]) = row_hash r.
Proof. unfold last_hash. by rewrite last_snoc. Qed.
Lemma last_time_snoc l r : last_time (l ++ [r]) = Some (row_at r).
Proof. unfold last_time. by rewrite last_snoc. Qed.
Lemma rows_bytes_app l l' : rows_bytes (l ++ l') = rows_bytes l ++ rows_bytes l'.
Proof. unfold rows_bytes. by rewrite map_app, concat_app. Qed.
Lemma rows_bytes_snoc l r : rows_bytes (l ++ [r]) = rows_bytes l ++ line_of r.
Proof. rewrite rows_bytes_app. unfold rows_bytes at 2. cbn. by rewrite app_nil_r. Qed.
Lemma bytes_len_app l l' : bytes_len (l ++ l') = bytes_len l + bytes_len l'.
Proof. unfold bytes_len. rewrite rows_bytes_app, length_app. lia. Qed.
Lemma bytes_len_one r : bytes_len [r] = Z.of_nat (length (line_of r)).
Proof. unfold bytes_len, rows_bytes. cbn. by rewrite app_nil_r. Qed.
Lemma bytes_len_nonneg l : 0 <= bytes_len l.
Proof. unfold bytes_len. lia. Qed.

Lemma link_ok_later now now' before r : now <= now' -> link_ok now before r -> link_ok now' before r.
Proof. intros Hn []. split; (done || lia). Qed.
Lemma Chain_later now now' l : now <= now' -> Chain now l -> Chain now' l.
Proof. intros Hn H before r after E. apply (link_ok_later now); [done|]. by apply (H _ _ after). Qed.

Lemma row_bytes_Ok r b :
  row_bytes r = Ok b <->
  exists json, row_to_vec r = Some json /\ b = json ++ [ch_lf] /\ 1 <= Z.of_nat (length b) <= 8192.
Proof.
  unfold row_bytes. rewrite bind_Ok. split.
  - intros (json & Hj%ok_or_Ok & H). apply bind_Ok in H as (? & Hl%map_err_Ok%validate_Ok & [= <-]).
    eval_bounds. eauto.
  - intros (json & Hj & -> & Hl). exists json. rewrite Hj. split; [done|].
    rewrite bind_Ok. exists tt. rewrite map_err_Ok, validate_Ok. by eval_bounds.
Qed.

Lemma verify_link_Ok r seq previous u :
  verify_link r seq previous = Ok u <->
  sequence r = seq /\ previous_hash r = previous /\ computed_hash r = Ok (row_hash r).
Proof.
  unfold verify_link. split.
  - intros H. apply bind_Ok in H as (? & Hs%refuse_if_Ok & H).
    apply bind_Ok in H as (? & Hp%refuse_if_Ok & H). apply bind_Ok in H as (hash & Hh & He%refuse_if_Ok).
    apply negb_false_iff, Z.eqb_eq in Hs. apply negb_false_iff, str_eqb_eq in Hp, He. by subst.
  - intros (<- & <- & Hh). rewrite Z.eqb_refl, str_eqb_refl. cbn. rewrite Hh. cbn.
    rewrite str_eqb_refl. by destruct u.
Qed.

Lemma verify_time_Ok (r : UnsignedRow) last now u :
  verify_time r last now = Ok u <-> row_at r <= now /\ opt_le last (Some (row_at r)).
Proof.
  unfold verify_time. rewrite refuse_if_Ok, orb_false_iff, Z.ltb_ge.
  destruct last; cbn; rewrite ?Z.ltb_ge; naive_solver.
Qed.

Section Loop.
Context `{JL : !JsonLaws J}.

Lemma line_of_one_line r b : row_bytes r = Ok b -> one_line b.
Proof. intros (json & Hj & -> & _)%row_bytes_Ok. exists json. split; [done|]. by eapply row_one_line. Qed.

Lemma verify_row_sound now hook before line r seq :
  verify_row now hook (Z.of_nat (length before)) (last_hash before) (last_time before) line = Ok (r, seq) ->
  link_ok now before r /\ line_of r = line /\ seq = Z.of_nat (length before) + 1.
Proof.
  unfold verify_row. intros H.
  apply bind_Ok in H as (? & _ & H). apply bind_Ok in H as (? & _ & H).
  apply bind_Ok in H as (row & _ & H).
  apply bind_Ok in H as (n & [-> _]%ok_or_Ok%u64_checked_add_Some & H).
  apply bind_Ok in H as (? & (Hs & Hp & Hh)%verify_link_Ok & H).
  apply bind_Ok in H as (? & (Hn & Ht)%verify_time_Ok & H).
  apply bind_Ok in H as ([] & Hv & H). apply bind_Ok in H as (b & Hb & H).
  apply bind_Ok in H as (? & He%refuse_if_Ok & [= <- <-]). apply negb_false_iff, str_eqb_eq in He as ->.
  assert (line_of row = line) as Hl by (unfold line_of; by rewrite Hb).
  split_and!; [|done|done]. split; try done. by rewrite Hl.
Qed.

Lemma verify_row_complete now before r :
  Z.of_nat (length before) + 1 <= u64_max -> link_ok now before r ->
  verify_row now true (Z.of_nat (length before)) (last_hash before) (last_time before) (line_of r) =
    Ok (r, Z.of_nat (length before) + 1).
Proof.
  intros Hu [Hs Hp Hh Hn Ht Hv Hb]. unfold verify_row.
  pose proof Hb as (json & Hj & Hl & Hlen)%row_bytes_Ok.
  assert (row_from_slice (line_of r) = Some r) as Hd by (rewrite Hl; by apply row_from_to).
  apply bind_Ok. exists tt. split; [apply map_err_Ok, validate_Ok; by eval_bounds|].
  apply bind_Ok. exists tt. split; [done|].
  apply bind_Ok. exists r. split; [by rewrite Hd|].
  apply bind_Ok. exists (Z.of_nat (length before) + 1). split; [by apply ok_or_Ok, u64_checked_add_Some|].
  apply bind_Ok. exists tt. split; [by apply verify_link_Ok|].
  apply bind_Ok. exists tt. split; [by apply verify_time_Ok|].
  rewrite Hv, Hb. cbn. by rewrite str_eqb_refl.
Qed.

Lemma checkpoint_agrees_true seq hash length head :
  checkpoint_agrees seq hash length head = true <->
  head_sequence head = seq /\ head_hash head = hash /\ head_bytes head = length.
Proof.
  unfold checkpoint_agrees. rewrite !andb_true_iff, !Z.eqb_eq, str_eqb_eq. naive_solver.
Qed.

Lemma Checkpoint_nil head :
  checkpoint_agrees 0 zero_hash 0 head = true <-> Checkpoint head [].
Proof.
  rewrite checkpoint_agrees_true. split.
  - intros (Hs & Hh & Hb). exists 0%nat. by split_and!.
  - intros (k & Hk & Hs & Hh & Hb). destruct k; [by split_and!|cbn in Hk; lia].
Qed.

Lemma Checkpoint_app head l l' : Checkpoint head l -> Checkpoint head (l ++ l').
Proof.
  intros (k & Hk & Hs & Hh & Hb). exists k. rewrite length_app, take_app_le by done. split_and!; (done || lia).
Qed.

(** The running flag of the loop is whether the checkpoint was met. *)
Lemma Checkpoint_snoc head l (r : JournalRow) c :
  sequence r = Z.of_nat (length l) + 1 -> (c = true <-> Checkpoint head l) ->
  (if sequence r =? head_sequence head
   then checkpoint_agrees (sequence r) (row_hash r) (bytes_len (l ++ [r])) head else c) = true <->
  Checkpoint head (l ++ [r]).
Proof.
  intros Hr Hc. destruct (Z.eqb_spec (sequence r) (head_sequence head)) as [He|He].
  - rewrite checkpoint_agrees_true. split.
    + intros (Hs & Hh & Hb). exists (S (length l)).
      rewrite take_ge, last_hash_snoc, length_app by (rewrite length_app; cbn; lia). cbn. split_and!; (done || lia).
    + intros (k & Hk & Hs & Hh & Hb). rewrite length_app in Hk. cbn in Hk.
      rewrite take_ge, last_hash_snoc in * by (rewrite length_app; cbn; lia). done.
  - rewrite Hc. split; [apply Checkpoint_app|].
    intros (k & Hk & Hs & Hh & Hb). rewrite length_app in Hk. cbn in Hk.
    assert (k <= length l)%nat by (assert (k <> S (length l)) by lia; lia).
    rewrite take_app_le in Hh, Hb by done. by exists k.
Qed.

Lemma verify_lines_sound now hook head lines before c v :
  lines_wf lines -> Chain now before -> (c = true <-> Checkpoint head before) ->
  bytes_len before <= u64_max ->
  verify_lines now hook head lines before (bytes_len before) (last_hash before)
    (Z.of_nat (length before)) c (last_time before) = Ok v ->
  Verified now head (rows_bytes before ++ concat lines) v.
Proof.
  intros (whole & rest & -> & Hw & Hr) Hch Hc Hu. revert before c Hch Hc Hu.
  induction Hw as [|line whole Hl _ IH]; intros before c Hch Hc Hu H; cbn [app] in *.
  - destruct Hr as [->|(t & -> & Ht)]; cbn [verify_lines] in H.
    + apply bind_Ok in H as (? & Hcm%refuse_if_Ok%negb_false_iff & [= <-]).
      split; cbn; [done|done|done|done|by apply Hc|done].
    + rewrite ends_lf_torn in H by done. cbn [negb] in H.
      apply bind_Ok in H as (? & Hcm%refuse_if_Ok & H).
      apply bind_Ok in H as (? & Hlen%map_err_Ok%validate_Ok & [= <-]).
      apply orb_false_iff in Hcm as [_ Hcm%negb_false_iff]. eval_bounds.
      split; cbn; [done|by rewrite app_nil_r|done|done|by apply Hc|]. split; [done|lia].
  - cbn [verify_lines] in H. rewrite ends_lf_line in H by done. cbn [negb] in H.
    apply bind_Ok in H as ([r seq] & (Hlk & <- & ->)%verify_row_sound & H).
    apply bind_Ok in H as (e & [-> Hle]%ok_or_Ok%u64_checked_add_Some & H).
    specialize (IH (before ++ [r])). rewrite bytes_len_app, bytes_len_one, last_hash_snoc, last_time_snoc in IH.
    rewrite length_app in IH. cbn [length] in IH. rewrite Nat2Z.inj_add in IH.
    pose proof (Checkpoint_snoc head before r c (link_sequence _ _ _ Hlk) Hc) as Hcp.
    rewrite bytes_len_app, bytes_len_one in Hcp.
    eapply IH in H; [|by apply Chain_snoc|exact Hcp|done].
    rewrite rows_bytes_app in H. unfold rows_bytes at 2 in H. cbn in H. rewrite app_nil_r in H.
    cbn. by rewrite app_assoc.
Qed.

(** A chain has at least one byte per row. *)
Lemma rows_bytes_length now l : Chain now l -> Z.of_nat (length l) <= bytes_len l.
Proof.
  induction l as [|r l IH] using rev_ind; [done|]. intros [Hch Hlk]%Chain_snoc.
  rewrite length_app, bytes_len_app, bytes_len_one. cbn.
  pose proof (link_bytes _ _ _ Hlk) as (? & _ & _ & Hb)%row_bytes_Ok. specialize (IH Hch). lia.
Qed.

Lemma verify_lines_complete now head new t before c :
  Chain now (before ++ new) -> Checkpoint head (before ++ new) -> tail_ok t ->
  (c = true <-> Checkpoint head before) -> bytes_len (before ++ new) <= u64_max ->
  verify_lines now (fun _ => true) head (map line_of new ++ option_list t) before
    (bytes_len before) (last_hash before) (Z.of_nat (length before)) c (last_time before) =
  Ok {| rows := before ++ new; complete_length := bytes_len (before ++ new); tail := t |}.
Proof.
  revert before c. induction new as [|r new IH]; intros before c Hch Hcp Ht Hc Hu; cbn [map app].
  - rewrite app_nil_r in *. apply Hc in Hcp as Hct. rewrite Hct. destruct t as [t|]; cbn; [|done].
    destruct Ht as [Ht Hlen]. rewrite ends_lf_torn by done. cbn.
    destruct Hcp as (k & Hk & _ & _ & Hb).
    rewrite (proj2 (Z.ltb_ge _ _)); cbn.
    + rewrite (proj2 (validate_Ok Key_JournalRow _ tt)); [done|]. eval_bounds.
      destruct Ht as [Hne _]. destruct t; [done|cbn in *; lia].
    + pose proof (bytes_len_app (take k before) (drop k before)) as Hsum. rewrite take_drop in Hsum.
      pose proof (bytes_len_nonneg (drop k before)). lia.
  - assert (link_ok now before r) as Hlk by (by apply (Hch before r new)).
    cbn [verify_lines]. rewrite (ends_lf_line (line_of r)) by (eapply line_of_one_line, Hlk). cbn [negb].
    assert (bytes_len (before ++ r :: new) =
      bytes_len before + Z.of_nat (length (line_of r)) + bytes_len new) as Hlen.
    { change (r :: new) with ([r] ++ new). rewrite !bytes_len_app, bytes_len_one. lia. }
    pose proof (bytes_len_nonneg new).
    assert (Z.of_nat (length before) <= bytes_len before) as Hcount.
    { apply (rows_bytes_length now). by apply Chain_prefix in Hch. }
    assert (1 <= Z.of_nat (length (line_of r))) by (pose proof (link_bytes _ _ _ Hlk) as (?&_&_&?)%row_bytes_Ok; lia).
    rewrite verify_row_complete; [|lia|done]. cbn [mbind result_bind].
    rewrite (proj2 (u64_checked_add_Some _ _ _)) by (split; [done|lia]). cbn [ok_or].
    specialize (IH (before ++ [r])). rewrite <- app_assoc in IH. cbn [app] in IH.
    rewrite length_app, last_hash_snoc, last_time_snoc in IH. cbn [length] in IH. rewrite Nat2Z.inj_add in IH.
    rewrite (bytes_len_app before [r]), bytes_len_one in IH. apply IH; [done..| |done].
    rewrite <- (bytes_len_one r), <- bytes_len_app. by apply Checkpoint_snoc; destruct Hlk.
Qed.

Lemma verify_bytes_sound now hook bytes head v :
  verify_bytes now hook bytes head = Ok v -> Verified now head bytes v.
Proof.
  intros Hv. rewrite <- (split_inclusive_concat bytes).
  apply (verify_lines_sound now hook head _ [] (checkpoint_agrees 0 zero_hash 0 head));
    [apply split_inclusive_wf|apply Chain_nil|apply Checkpoint_nil|done|done].
Qed.

Lemma split_rows_bytes now l t :
  Chain now l -> tail_ok t ->
  split_inclusive (rows_bytes l ++ default [] t) = map line_of l ++ option_list t.
Proof.
  intros Hch Ht. unfold rows_bytes. rewrite split_inclusive_lines.
  - destruct t as [t|]; [|done]. cbn. by rewrite split_inclusive_torn by apply Ht.
  - apply Forall_map, Forall_forall. intros r (before & after & ->)%list_elem_of_split.
    eapply line_of_one_line, (Hch before r after). done.
  - destruct t; [right; apply Ht|by left].
Qed.

Lemma verify_bytes_complete now bytes head v :
  Verified now head bytes v -> verify_bytes now (fun _ => true) bytes head = Ok v.
Proof.
  intros [Hch -> Hl Hu Hcp Ht]. unfold verify_bytes. rewrite (split_rows_bytes now) by done.
  rewrite (verify_lines_complete now head (rows v) (tail v) []); [|done..|apply Checkpoint_nil|done].
  cbn [app]. rewrite <- Hl. by destruct v.
Qed.

(** C12: Verification of the journal file is exactly its specification. Whatever
    the hooks do, bytes that are accepted are the canonical lines of a hash
    chain, followed by at most one torn line, whose rows include the ones the
    checkpoint commits; and every such file is accepted when no hook fails,
    with those rows and that torn line. *)
Theorem verify_bytes_refines now bytes head v :
  (forall hook, verify_bytes now hook bytes head = Ok v -> Verified now head bytes v) /\
  (Verified now head bytes v -> verify_bytes now (fun _ => true) bytes head = Ok v).
Proof.
  split.
  - intros hook. apply verify_bytes_sound.
  - apply verify_bytes_complete.
Qed.

Lemma take_rows_bytes k l t :
  take (Z.to_nat (bytes_len (take k l))) (rows_bytes l ++ t) = rows_bytes (take k l).
Proof.
  rewrite <- (take_drop k l) at 2. rewrite rows_bytes_app, <- app_assoc.
  unfold bytes_len. by rewrite Nat2Z.id, take_app_length.
Qed.

(** ** Binding *)

(** Two inputs with one digest. *)
Definition sha256_collision : Prop := exists x y, x <> y /\ digest_sha256 x = digest_sha256 y.

Lemma computed_hash_binds `{!DigestLaws D} (u v : UnsignedRow) hash :
  computed_hash u = Ok hash -> computed_hash v = Ok hash -> u = v \/ sha256_collision.
Proof.
  intros Hu Hv. apply bind_Ok in Hu as (b & Hb%ok_or_Ok & [= <-]).
  apply bind_Ok in Hv as (b' & Hb'%ok_or_Ok & [= He]).
  destruct (decide (b = b')) as [<-|Hne]; [left; by eapply unsigned_to_vec_inj|right].
  apply hex_inj in He; [|apply digest_bytes..].
  exists (concat [lit "AVA619-JOURNAL-v1" ++ [0]; b]), (concat [lit "AVA619-JOURNAL-v1" ++ [0]; b']).
  split; [|done]. cbn [concat]. rewrite !app_nil_r. intros E%app_inv_head. done.
Qed.

Lemma chain_binds `{!DigestLaws D} now now' l l' :
  Chain now l -> Chain now' l' -> length l = length l' -> last_hash l = last_hash l' ->
  l = l' \/ sha256_collision.
Proof.
  revert l'. induction l as [|r l IH] using rev_ind; intros l' Hch Hch' Hlen Hh.
  { destruct l'; [by left|done]. }
  destruct l' as [|r' l' _] using rev_ind; [rewrite length_app in Hlen; cbn in Hlen; lia|].
  rewrite !length_app in Hlen. cbn in Hlen. rewrite !last_hash_snoc in Hh.
  apply Chain_snoc in Hch as [Hch Hr]. apply Chain_snoc in Hch' as [Hch' Hr'].
  destruct (computed_hash_binds r r' (row_hash r)) as [Hu|?];
    [apply Hr|rewrite Hh; apply Hr'| |by right].
  destruct (IH l') as [->|?]; [done|done|lia| | |by right].
  - rewrite <- (link_previous _ _ _ Hr), <- (link_previous _ _ _ Hr'). by rewrite Hu.
  - left. destruct r, r'. cbn in *. by subst.
Qed.


(** ** Memory and disk *)

Definition published (d : JournalDisk) (h : Head) : Prop :=
  head_version h = 1 /\ exists json, head_to_vec h = Some json /\ head_file d = json ++ [ch_lf].

(** The rows in memory are a chain, the events file is their lines, the
    checkpoint in memory is that of the last row, the one on disk names a
    prefix, and the files are within their caps. *)
Definition quarantines_bounded (d : JournalDisk) : Prop :=
  Forall (fun f => Z.of_nat (length f.2) <= 8192) (quarantines d).
Record Consistent (now : Z) (j : Journal) : Prop := {
  cons_chain : Chain now (journal_rows j);
  cons_events : events_file (disk j) = rows_bytes (journal_rows j);
  cons_head : journal_head j = head_of (journal_rows j) (bytes_len (journal_rows j));
  cons_file : exists h, published (disk j) h /\ Checkpoint h (journal_rows j);
  cons_quarantines : quarantines_bounded (disk j);
  cons_cap : bytes_len (journal_rows j) <= max_journal_bytes (config j);
  cons_u64 : max_journal_bytes (config j) <= u64_max;
}.

Lemma last_hash_parses now l : Chain now l -> Hex64_parse (last_hash l) = Ok (last_hash l).
Proof.
  destruct l as [|r l _] using rev_ind; [intros _; by vm_compute|].
  intros [_ Hr]%Chain_snoc. rewrite last_hash_snoc.
  pose proof (link_valid _ _ _ Hr) as Hv. unfold validate_metadata in Hv.
  apply bind_Ok in Hv as (? & _ & Hv). apply bind_Ok in Hv as (? & _ & Hv).
  apply bind_Ok in Hv as (h & Hh & _). by apply Hex64_parse_Ok in Hh as Hh'; destruct Hh' as [-> _].
Qed.

Lemma Chain_take now k l : Chain now l -> Chain now (take k l).
Proof. intros H. eapply Chain_prefix. by rewrite take_drop. Qed.

Lemma head_of_chain now l :
  Chain now l ->
  head_of l (bytes_len l) =
    {| head_version := 1; head_sequence := Z.of_nat (length l); head_hash := last_hash l;
       head_bytes := bytes_len l |}.
Proof.
  unfold head_of, last_hash. destruct l as [|r l _] using rev_ind; [done|].
  intros [_ Hr]%Chain_snoc. rewrite last_snoc, (link_sequence _ _ _ Hr), length_app. cbn. f_equal. lia.
Qed.

Lemma head_of_checkpoint now l : Chain now l -> Checkpoint (head_of l (bytes_len l)) l.
Proof.
  intros H. rewrite (head_of_chain now) by done. exists (length l). by rewrite firstn_all.
Qed.

Lemma last_at_time j : last_at j = last_time (journal_rows j).
Proof. done. Qed.

Lemma read_bounded_ok bytes maximum :
  Z.of_nat (length bytes) <= maximum -> read_bounded true bytes maximum = Ok bytes.
Proof.
  intros Hl. unfold read_bounded. cbn. rewrite (proj2 (validate_range_Ok _ _ _ tt)); [done|lia].
Qed.

(** A published checkpoint of a chain is read back. *)
Lemma read_head_published now d h l :
  published d h -> Chain now l -> Checkpoint h l -> bytes_len l <= u64_max ->
  read_head true true d = Ok h.
Proof.
  intros (Hver & json & Hj & Hf) Hch (k & Hk & Hs & Hh & Hb) Hu. unfold read_head.
  pose proof (last_hash_parses now (take k l) (Chain_take now k l Hch)) as Hp. rewrite <- Hh in Hp.
  apply Hex64_parse_Ok in Hp as Hlen. destruct Hlen as (_ & Hlen & _).
  pose proof (rows_bytes_length now l Hch) as Hcount.
  pose proof (bytes_len_app (take k l) (drop k l)) as Hsum. rewrite take_drop in Hsum.
  pose proof (bytes_len_nonneg (drop k l)). pose proof (bytes_len_nonneg (take k l)).
  pose proof (head_short h json Hj) as Hshort.
  assert (Z.of_nat (length json) < 8192) by (apply Hshort; rewrite ?Hver, ?Hs, ?Hb; ints; (done || lia)).
  apply bind_Ok. exists (json ++ [ch_lf]). split.
  { rewrite Hf. apply read_bounded_ok. rewrite length_app. cbn [length]. eval_bounds. lia. }
  apply bind_Ok. exists tt. split; [done|].
  apply bind_Ok. exists h. split; [by rewrite (head_from_to h json)|].
  apply bind_Ok. exists (head_hash h). split; [done|].
  apply bind_Ok. exists json. split; [by rewrite Hj|].
  rewrite Hver, str_eqb_refl. done.
Qed.

(** Every system call and hook succeeds. *)
Definition head_io_ok : HeadIo :=
  {| head_open := true; head_write := true; head_sync := true; head_rename := true;
     after_head_rename := true; head_dir_sync := true; after_head_sync := true |}.
Definition tail_io_ok : TailIo :=
  {| tail_lookup := true; tail_read := true; recovery_open := true; recovery_write := true;
     recovery_sync := true; recovery_rename := true; recovery_dir_sync := true;
     truncate_open := true; truncate_set_len := true; truncate_sync := true;
     after_tail_truncate := true |}.
Definition load_io_ok : LoadIo :=
  {| load_head := true; load_head_hook := true; load_events := true; load_rows := fun _ => true;
     load_tail := tail_io_ok |}.

Lemma lookup_store_file name bytes files : lookup_file name (store_file name bytes files) = Some bytes.
Proof. unfold lookup_file, store_file. cbn. by rewrite str_eqb_refl. Qed.

Lemma quarantine_tail_ok t head d :
  quarantines_bounded d -> Z.of_nat (length (tail_bytes t)) <= 8192 ->
  exists d', quarantine_tail tail_io_ok t head d = (d', Ok tt) /\
    head_file d' = head_file d /\
    events_file d' = take (Z.to_nat (head_bytes head)) (events_file d) /\
    quarantines_bounded d' /\
    lookup_file (quarantine_name (base_sequence t) (sha256 [tail_bytes t])) (quarantines d') =
      Some (tail_bytes t).
Proof.
  intros Hq Hl. unfold quarantine_tail. set (name := quarantine_name _ _).
  assert (quarantines_bounded {| events_file := events_file d; head_file := head_file d;
    quarantines := store_file name (tail_bytes t) (quarantines d) |}) as Hst.
  { apply Forall_cons. split; [done|]. apply Forall_forall. intros f Hf.
    apply list_elem_of_In, filter_In in Hf as [Hf%list_elem_of_In _].
    unfold quarantines_bounded in Hq. rewrite Forall_forall in Hq. by apply Hq. }
  cbn [tail_lookup tail_read tail_io_ok negb]. destruct (lookup_file name (quarantines d)) as [ex|] eqn:Hex.
  - assert (Z.of_nat (length ex) <= 8192) as Hexl.
    { unfold lookup_file in Hex. apply fmap_Some in Hex as (f & Hf & ->).
      apply find_some in Hf as [Hf%list_elem_of_In _]. unfold quarantines_bounded in Hq.
      rewrite Forall_forall in Hq. by apply Hq. }
    assert (read_bounded true ex (spec_max (spec Key_JournalRow)) = Ok ex) as ->.
    { apply read_bounded_ok. by eval_bounds. }
    destruct (str_eqb ex (tail_bytes t)) eqn:He; cbn.
    + apply str_eqb_eq in He as ->. by eexists.
    + eexists. split_and!; [done..|apply lookup_store_file].
  - cbn. eexists. split_and!; [done..|apply lookup_store_file].
Qed.

(** Loading a disk that holds a chain, a checkpoint of it and perhaps a torn
    line gives a consistent journal of that chain; the torn bytes are kept. *)
Lemma load_disk c later d h l t :
  published d h -> Chain later l -> Checkpoint h l -> tail_ok t -> quarantines_bounded d ->
  events_file d = rows_bytes l ++ default [] t ->
  Z.of_nat (length (events_file d)) <= max_journal_bytes c -> max_journal_bytes c <= u64_max ->
  exists d' k, load c later load_io_ok d = (d', Ok k) /\ journal_rows k = l /\ disk k = d' /\
    Consistent later k /\
    match t with
    | None => recovered_tail k = None
    | Some b => lookup_file (quarantine_name (Z.of_nat (length l)) (sha256 [b])) (quarantines d') = Some b
    end.
Proof.
  intros Hp Hch Hcp Ht Hq He Hcap Hu. unfold load.
  assert (bytes_len l <= max_journal_bytes c) as Hl.
  { rewrite He, length_app in Hcap. unfold bytes_len. lia. }
  assert (read_bounded true (events_file d) (max_journal_bytes c) = Ok (events_file d)) as Hr.
  { by apply read_bounded_ok. }
  cbn [load_head load_head_hook load_events load_rows load_tail load_io_ok].
  rewrite (read_head_published later d h l) by (done || lia). cbn [mbind result_bind]. rewrite Hr.
  cbn [mbind result_bind].
  rewrite (verify_bytes_complete later _ h
    {| rows := l; complete_length := bytes_len l; tail := t |}) by (split; cbn; (done || lia)).
  cbn [rows complete_length tail]. destruct t as [b|].
  - destruct Ht as [Ht Hb8].
    destruct (quarantine_tail_ok {| tail_bytes := b; base_sequence := head_sequence (head_of l (bytes_len l)) |}
      (head_of l (bytes_len l)) d Hq Hb8) as (d' & -> & Hf & Hev & Hq' & Hlk).
    rewrite (head_of_chain later l Hch) in Hlk.
    do 2 eexists. split_and!; [done..| |exact Hlk]. split; cbn; try done.
    + rewrite Hev, He. cbn. unfold bytes_len. by rewrite Nat2Z.id, take_app_length.
    + exists h. unfold published. by rewrite Hf.
  - do 2 eexists. split_and!; [done..| |done]. split; cbn; try done.
    + by rewrite He, app_nil_r.
    + by exists h.
Qed.

(** ** Appending *)

Lemma prepare_links now j x l row rest :
  Consistent now j -> prepare_rows j now (x :: l) = Ok (row :: rest) ->
  link_ok now (journal_rows j) row /\ unsigned row = set_link (sequence row) (previous_hash row) x.
Proof.
  intros [Hch _ Hh _ _ _ _] Hp. unfold prepare_rows in Hp. rewrite Hh, (head_of_chain now) in Hp by done.
  cbn [prepare_from head_sequence head_hash] in Hp.
  apply bind_Ok in Hp as (n & [-> _]%ok_or_Ok%u64_checked_add_Some & Hp).
  apply bind_Ok in Hp as (hash & Hhash & Hp).
  apply bind_Ok in Hp as (? & (Hn & Ht)%verify_time_Ok & Hp).
  apply bind_Ok in Hp as ([] & Hv & Hp). apply bind_Ok in Hp as (b & Hb & Hp).
  apply bind_Ok in Hp as (? & _ & [= <- <-]). split; [|done]. split; try done.
  unfold line_of. by rewrite Hb.
Qed.

Lemma torn_prefix line n :
  one_line line -> take n line = line \/ take n line = [] \/ torn (take n line).
Proof.
  intros (body & -> & Hb). destruct (decide (n <= length body)%nat) as [Hn|Hn].
  - right. rewrite take_app_le by done. destruct (take n body) as [|c t] eqn:E; [by left|right].
    split; [done|]. rewrite <- E. intros Hin%list_elem_of_In. apply Hb, list_elem_of_In.
    rewrite <- (take_drop n body). apply in_or_app. by left.
  - left. apply take_ge. rewrite length_app. cbn. lia.
Qed.

(** What an append leaves on disk: the old bytes, then the first bytes of the
    new line, under the old or the new checkpoint; the new one only after the
    whole line. *)
Record append_effect (j : Journal) (row : JournalRow) (j' : Journal) : Prop := {
  eff_events : exists n, events_file (disk j') = rows_bytes (journal_rows j) ++ take n (line_of row) /\
    (n < length (line_of row) -> head_file (disk j') = head_file (disk j))%nat;
  eff_head : head_file (disk j') = head_file (disk j) \/
    published (disk j') (head_of (journal_rows j ++ [row]) (bytes_len (journal_rows j ++ [row])));
  eff_cap : bytes_len (journal_rows j ++ [row]) <= max_journal_bytes (config j) \/ j' = j;
  eff_quarantines : quarantines (disk j') = quarantines (disk j);
}.

Lemma append_effect_none now j row : Consistent now j -> append_effect j row j.
Proof.
  intros [_ He _ _ _ _ _]. split; [|by left|by right|done].
  exists 0%nat. rewrite take_0, app_nil_r. done.
Qed.

Lemma write_head_cases io d h d' r :
  head_version h = 1 -> write_head io d h = (d', r) ->
  events_file d' = events_file d /\ quarantines d' = quarantines d /\
  ((head_file d' = head_file d /\ r <> Ok tt) \/ published d' h).
Proof.
  intros Hv. unfold write_head. destruct (head_open io); cbn [negb]; [|intros [= <- <-]; naive_solver].
  destruct (head_to_vec h) as [json|] eqn:Hj; [|intros [= <- <-]; naive_solver].
  destruct (head_write io && head_sync io && head_rename io); cbn [negb]; intros [= <- <-]; [|naive_solver].
  split_and!; [done..|]. right. split; [done|]. by exists json.
Qed.

Lemma append_tracked_effect now j row append_now io progress j' p' r :
  Consistent now j -> link_ok now (journal_rows j) row ->
  append_tracked j append_now io row progress = (j', p', r) ->
  config j' = config j /\ append_effect j row j' /\
  (r = Ok tt -> Consistent now j' /\ journal_rows j' = journal_rows j ++ [row] /\ p' = true) /\
  (p' = false -> j' = j).
Proof.
  intros Hc Hlk Ha. pose proof (append_effect_none now j row Hc) as Hnone.
  assert (Chain now (journal_rows j ++ [row])) as Hch by (by apply Chain_snoc; destruct Hc).
  unfold append_tracked in Ha. destruct (_ ≫= _) as [[b n]|e] eqn:Hchecks; [|by simplify_eq].
  apply bind_Ok in Hchecks as (? & _ & Hk). apply bind_Ok in Hk as (? & _ & Hk).
  apply bind_Ok in Hk as (? & _ & Hk). apply bind_Ok in Hk as (? & Hb & Hk).
  apply bind_Ok in Hk as (total & Hres & [= -> <-]).
  rewrite (link_bytes _ _ _ Hlk) in Hb. injection Hb as <-.
  destruct Hc as [Hold He Hh Hfile Hq Hcap Hu]. rewrite Hh, (head_of_chain now) in Hres by done.
  apply reserve_Ok in Hres as [-> Hmax]; [|apply bytes_len_nonneg|cbn; lia]. cbn [head_bytes] in *.
  assert (bytes_len (journal_rows j) + Z.of_nat (length (line_of row)) = bytes_len (journal_rows j ++ [row]))
    as Hlen by (by rewrite bytes_len_app, bytes_len_one). rewrite Hlen in *. rewrite Z.add_0_r in Hmax.
  destruct (append_open io); cbn [negb] in Ha; [|by simplify_eq].
  destruct (append_write io) as [k|].
  { simplify_eq. split_and!; [done| |done|done]. split; cbn; [|by left|by left|done].
    exists k. by rewrite He. }
  destruct (append_sync io && after_journal_sync io); cbn [negb] in Ha; cycle 1.
  { simplify_eq. split_and!; [done| |done|done]. split; cbn; [|by left|by left|done].
    exists (length (line_of row)). rewrite firstn_all, He. split; [done|lia]. }
  set (h := {| head_version := 1; head_sequence := sequence row; head_hash := row_hash row;
               head_bytes := bytes_len (journal_rows j ++ [row]) |}) in Ha.
  assert (h = head_of (journal_rows j ++ [row]) (bytes_len (journal_rows j ++ [row]))) as Hhd
    by (unfold head_of; by rewrite last_snoc).
  destruct (write_head (append_head io) _ h) as [d' res] eqn:Hw.
  apply write_head_cases in Hw as (Hev & Hqs & Hhead); [|done].
  assert (append_effect j row (set_disk d' j)) as Heff.
  { split; cbn; [| |by left|done].
    - exists (length (line_of row)). rewrite firstn_all, Hev. cbn. rewrite He. split; [done|lia].
    - rewrite <- Hhd. destruct Hhead as [[? _]|?]; [by left|by right]. }
  destruct res as [[]|e]; simplify_eq; [|by split_and!].
  split_and!; [done|destruct Heff as [? ? _ ?]; split; (done || by left)| |done]. intros _. split_and!; [|done..]. split; cbn; try done.
  - rewrite Hev, rows_bytes_snoc, <- He. done.
  - eexists. split; [destruct Hhead as [[_ ?]|Hpub]; [done|exact Hpub]|]. rewrite Hhd. by apply (head_of_checkpoint now).
  - unfold quarantines_bounded. by rewrite Hqs.
Qed.

Lemma append_tracked_tail j append_now io row progress j' p' r :
  append_tracked j append_now io row progress = (j', p', r) -> recovered_tail j' = recovered_tail j.
Proof.
  unfold append_tracked. intros Ha. repeat (case_match; simplify_eq; try done).
Qed.

(** Loading what an append left: the new row is there whole, or its line is not
    complete on disk. *)
Lemma append_effect_loads now j row j' later :
  Consistent now j -> link_ok now (journal_rows j) row -> append_effect j row j' -> now <= later ->
  exists d k, load (config j) later load_io_ok (disk j') = (d, Ok k) /\ Consistent later k /\
    (journal_rows k = journal_rows j ++ [row] \/
     (journal_rows k = journal_rows j /\ events_file (disk j') <> rows_bytes (journal_rows j ++ [row]))).
Proof.
  intros [Hch He Hh (h & Hpub & Hcp) Hq Hcap0 Hu] Hlk [(n & Hev & Hold) Hhead Hcap Hqs] Hlater.
  assert (Chain later (journal_rows j ++ [row])) as Hnew
    by (apply (Chain_later now); [done|]; by apply Chain_snoc).
  assert (quarantines_bounded (disk j')) as Hq' by (unfold quarantines_bounded; by rewrite Hqs).
  assert (head_file (disk j') = head_file (disk j) -> published (disk j') h) as Hpub'
    by (intros E; unfold published; by rewrite E).
  assert (Z.of_nat (length (events_file (disk j'))) <= max_journal_bytes (config j)) as Hlen.
  { destruct Hcap as [Hcap| ->]; [|by rewrite He].
    rewrite Hev, length_app, length_take. rewrite bytes_len_app, bytes_len_one in Hcap.
    unfold bytes_len in Hcap. lia. }
  destruct (decide (length (line_of row) <= n)%nat) as [Hn|Hn].
  - rewrite take_ge in Hev by done.
    assert (exists h', published (disk j') h' /\ Checkpoint h' (journal_rows j ++ [row])) as (h' & Hp' & Hc').
    { destruct Hhead as [E|Hp']; [exists h; split; [by apply Hpub'|by apply Checkpoint_app]|].
      eexists. split; [exact Hp'|]. by apply (head_of_checkpoint later). }
    destruct (load_disk (config j) later (disk j') h' (journal_rows j ++ [row]) None)
      as (d & k & Hload & Hrows & _ & Hk & _); try done.
    { cbn. by rewrite Hev, rows_bytes_snoc, app_nil_r. }
    exists d, k. split_and!; [done..|by left].
  - specialize (Hold ltac:(lia)). apply Chain_prefix in Hnew.
    assert (length (take n (line_of row)) < length (line_of row))%nat as Hshort by (rewrite length_take; lia).
    destruct (load_disk (config j) later (disk j') h (journal_rows j)
      (if decide (take n (line_of row) = []) then None else Some (take n (line_of row))))
      as (d & k & Hload & Hrows & _ & Hk & _); try done.
    { by apply Hpub'. }
    { case_decide; [done|]. destruct (torn_prefix (line_of row) n) as [E|[?|?]];
        [eapply line_of_one_line, Hlk|by rewrite E in Hshort; lia|done|]. split; [done|].
      pose proof (link_bytes _ _ _ Hlk) as (?&_&_&?)%row_bytes_Ok. lia. }
    { rewrite Hev. case_decide as E; [by rewrite E|done]. }
    exists d, k. split_and!; [done..|right; split; [done|]].
    rewrite Hev, rows_bytes_snoc. intros E%app_inv_head. rewrite E in Hshort. lia.
Qed.

(** C11: Appending to the journal is crash safe. Let memory and disk agree and
    let a prepared row be appended with any outcome of the system calls: torn
    writes, failed syncs, failed or half done checkpoint replacement. Loading
    what is then on disk succeeds, at any later time, and gives a consistent
    journal with the rows from before, followed by the new row if the append
    reported success; on failure the new row is there whole or not at all. *)
Theorem append_survives_crash now j x l row rest append_now io progress j' p' r later :
  Consistent now j -> prepare_rows j now (x :: l) = Ok (row :: rest) -> now <= later ->
  append_tracked j append_now io row progress = (j', p', r) ->
  exists d k, load (config j) later load_io_ok (disk j') = (d, Ok k) /\ Consistent later k /\
    (journal_rows k = journal_rows j ++ [row] \/
     (r <> Ok tt /\ journal_rows k = journal_rows j)) /\
    (r = Ok tt -> Consistent now j' /\ journal_rows j' = journal_rows j ++ [row]).
Proof.
  intros Hc Hp Hlater Ha. destruct (prepare_links _ _ _ _ _ _ Hc Hp) as [Hlk _].
  apply (append_tracked_effect now) in Ha as (Hcfg & Heff & Hok & _); [|done|done].
  destruct (append_effect_loads now j row j' later Hc Hlk Heff Hlater) as (d & k & Hload & Hk & Hrows).
  exists d, k. split_and!; [done..| |by intros [? [? _]]%Hok].
  destruct Hrows as [?|[? Hne]]; [by left|right]. split; [|done]. intros Hr.
  destruct (Hok Hr) as ([_ He' _ _ _ _ _] & Hr' & _). rewrite Hr' in He'. done.
Qed.

(** ** Recovery *)

(** A recovered torn line stays accounted for. Finishing recovery after a
    load keeps every row; when a torn line was found, exactly one row is added
    that records its length and digest; and on success memory, events file and
    checkpoint agree, the checkpoint naming the last row. *)
Theorem finish_recovery_accounts now j at_ append_now io j' :
  Consistent now j -> finish_recovery j at_ now append_now io = (j', Ok tt) ->
  Consistent now j' /\ recovered_tail j' = None /\ published (disk j') (journal_head j') /\
  match recovered_tail j with
  | None => journal_rows j' = journal_rows j
  | Some t => exists row, journal_rows j' = journal_rows j ++ [row] /\
      event row = Event_TailRecovered /\ ticket_id row = [] /\ row_at row = at_ /\
      quarantined_bytes row = Z.of_nat (length (tail_bytes t)) /\
      quarantine_hash row = sha256 [tail_bytes t]
  end.
Proof.
  intros Hc Hf. unfold finish_recovery in Hf.
  destruct (match recovered_tail j with None => _ | Some _ => _ end) as [j1 recovered] eqn:H1.
  destruct recovered as [[]|]; [|done]. destruct (scan_quarantines _ j1); [|done].
  destruct (write_head _ (disk j1) (journal_head j1)) as [d res] eqn:Hw. injection Hf as <- ->.
  enough (Consistent now j1 /\ recovered_tail j1 = None /\
    match recovered_tail j with
    | None => journal_rows j1 = journal_rows j
    | Some t => exists row, journal_rows j1 = journal_rows j ++ [row] /\
        event row = Event_TailRecovered /\ ticket_id row = [] /\ row_at row = at_ /\
        quarantined_bytes row = Z.of_nat (length (tail_bytes t)) /\
        quarantine_hash row = sha256 [tail_bytes t]
    end) as (Hc1 & Hn1 & Hrows).
  { destruct Hc1 as [Hch He Hh (h & Hpub & Hcp) Hq Hcap Hu].
    apply write_head_cases in Hw as (Hev & Hqs & [[_ ?]|Hp]); [done| |by rewrite Hh].
    split_and!; [|done..]. split; cbn; try done; [by rewrite Hev|..].
    - eexists. split; [exact Hp|]. rewrite Hh. by apply (head_of_checkpoint now).
    - unfold quarantines_bounded. by rewrite Hqs. }
  destruct (recovered_tail j) as [t|] eqn:Ht; [|by injection H1 as <-].
  destruct (prepare_one _ _ _) as [row|] eqn:Hp; [|done].
  apply bind_Ok in Hp as (prepared & Hp & Hrow%ok_or_Ok). destruct prepared as [|row' rest]; [done|].
  injection Hrow as ->. set (j0 := {| disk := disk j; recovered_tail := None |}) in *.
  assert (Consistent now j0) as Hc0 by (by destruct Hc).
  destruct (prepare_links _ _ _ _ _ _ Hc0 Hp) as [Hlk Hu].
  unfold append in H1. destruct (append_tracked _ _ _ _ _) as [[j2 p2] r2] eqn:Ha.
  injection H1 as -> ->. pose proof (append_tracked_tail _ _ _ _ _ _ _ _ Ha) as Hnone.
  apply (append_tracked_effect now) in Ha as (_ & _ & Hok & _); [|done|done].
  destruct (Hok eq_refl) as (Hc1 & Hr1 & _). split_and!; [done..|].
  exists row. split; [done|]. by rewrite Hu.
Qed.
End Loop.
End Spec.

(** ** Concrete instances *)

Module JournalWitness.
Import JsonReference ChronoReference.

Definition start : Journal := {|
  disk := {| events_file := []; head_file := default [] (head_to_vec Head_empty) ++ [ch_lf];
             quarantines := [] |};
  journal_head := Head_empty; journal_rows := []; config := ComplianceConfig_default;
  recovered_tail := None |}.
Definition list_row : JournalRow :=
  {| unsigned := set_list (lit "v1") 3 2 (empty_unsigned Event_ListAccessed 900); row_hash := [] |}.
Definition prepared : list JournalRow := default [] (ok (prepare_rows start 1000 [list_row])).
Definition first : JournalRow := default list_row (head prepared).
(** The write stops after ten bytes. *)
Definition torn_io : AppendIo := {|
  append_open := true; append_write := Some 10%nat; append_sync := true;
  after_journal_sync := true; append_head := head_io_ok |}.
Definition stopped : Journal * bool * cres unit := append_tracked start 1000 torn_io first false.
Definition torn_disk : JournalDisk := disk stopped.1.1.
Definition with_tail : Journal := {|
  disk := disk start; journal_head := journal_head start; journal_rows := journal_rows start;
  config := config start;
  recovered_tail := Some {| tail_bytes := lit "torn"; base_sequence := 0 |} |}.
Definition recovery_io : RecoveryIo := {|
  recovery_append := {| append_open := true; append_write := None; append_sync := true;
                        after_journal_sync := true; append_head := head_io_ok |};
  recovery_scan := fun _ => true; recovery_head := head_io_ok |}.

Lemma start_consistent : Consistent 1000 start.
Proof.
  split; [apply Chain_nil|reflexivity|reflexivity| |constructor|vm_compute; discriminate..].
  exists Head_empty. split; [split; [reflexivity|eexists; split; reflexivity]|].
  apply Checkpoint_nil. reflexivity.
Qed.

Lemma append_survives_crash_witness :
  exists d k, load ComplianceConfig_default 2000 load_io_ok torn_disk = (d, Ok k) /\
    Consistent 2000 k.
Proof.
  destruct (append_survives_crash 1000 start list_row [] first [] 1000 torn_io false
    stopped.1.1 stopped.1.2 stopped.2 2000) as (d & k & Hload & Hk & _);
    [apply start_consistent|vm_compute; reflexivity|lia|vm_compute; reflexivity|].
  exists d, k. split; [exact Hload|exact Hk].
Defined.

Lemma finish_recovery_accounts_witness :
  exists row, journal_rows (finish_recovery with_tail 900 1000 1000 recovery_io).1 = [row] /\
    quarantined_bytes row = 4.
Proof.
  destruct (finish_recovery_accounts 1000 with_tail 900 1000 recovery_io
    (finish_recovery with_tail 900 1000 1000 recovery_io).1) as (_ & _ & _ & row & Hr & _ & _ & _ & Hq & _).
  - split; apply start_consistent.
  - vm_compute. reflexivity.
  - exists row. split; [exact Hr|exact Hq].
Defined.

Definition whole_bytes : list Z := rows_bytes prepared.
Definition whole_head : Head := head_of prepared (bytes_len prepared).
Definition verified : VerifiedBytes :=
  {| rows := prepared; complete_length := bytes_len prepared; tail := None |}.
Definition verified_torn : VerifiedBytes :=
  {| rows := prepared; complete_length := bytes_len prepared; tail := Some (lit "{") |}.

Lemma verify_bytes_refines_witness : Verified 1000 whole_head (whole_bytes ++ lit "{") verified_torn.
Proof.
  apply (proj1 (verify_bytes_refines 1000 (whole_bytes ++ lit "{") whole_head verified_torn)
    (fun _ => true)). vm_compute. reflexivity.
Defined.

End JournalWitness.
