(* ===== verification/Transitions.v ===== *)
(** * The ticket lifecycle ([compliance/transitions.rs])

    The closed transition table, the statutory guards and the reducer that
    admission and replay share. A ticket is rebuilt from its journal rows:
    [received] starts it and [apply] reduces one row. [apply] is a method on
    [&mut self]: what it assigned before a failure stays assigned. *)

From S2P Require Import Prelude Text Externals Compliance ComplianceModel JournalRow.

#[local] Open Scope Z_scope.

Record Milestones := {
  times_received : Z;
  acknowledged_at : option Z;
  identity_pending_at : option Z;
  queued_at : option Z;
  decided_at : option Z;
  actioned_at : option Z;
  appealed_at : option Z;
  reversed_at : option Z;
  upheld_at : option Z;
  closed_at : option Z;
}.
Record Ticket := {
  ticket_key : TicketId;
  route : Route;
  requester : RequesterType;
  state : TicketState;
  times : Milestones;
  relevant_at : Z;
  pending_evidence : option IdentityEvent;
  extended_epoch : option Z;
  decided : option DecisionKind;
  ground : option Ground;
  pending : option JournalRow;
  provisional_committed : bool;
  references : gmap Z str;
  purged : bool;
  events : Z;
  ticket_last_at : Z;
}.

(** Field assignments. *)
Definition set_evidence (relevant : Z) (evidence : option IdentityEvent) (t : Ticket) : Ticket := {|
  ticket_key := ticket_key t; route := route t; requester := requester t; state := state t;
  times := times t; relevant_at := relevant; pending_evidence := evidence;
  extended_epoch := extended_epoch t; decided := decided t; ground := ground t;
  pending := pending t; provisional_committed := provisional_committed t;
  references := references t; purged := purged t; events := events t;
  ticket_last_at := ticket_last_at t |}.
Definition set_pending (intent : option JournalRow) (t : Ticket) : Ticket := {|
  ticket_key := ticket_key t; route := route t; requester := requester t; state := state t;
  times := times t; relevant_at := relevant_at t; pending_evidence := pending_evidence t;
  extended_epoch := extended_epoch t; decided := decided t; ground := ground t;
  pending := intent; provisional_committed := provisional_committed t;
  references := references t; purged := purged t; events := events t;
  ticket_last_at := ticket_last_at t |}.
Definition set_completed (purge provisional : bool) (t : Ticket) : Ticket := {|
  ticket_key := ticket_key t; route := route t; requester := requester t; state := state t;
  times := times t; relevant_at := relevant_at t; pending_evidence := pending_evidence t;
  extended_epoch := extended_epoch t; decided := decided t; ground := ground t; pending := None;
  provisional_committed := provisional; references := references t; purged := purge;
  events := events t; ticket_last_at := ticket_last_at t |}.
Definition set_decision (kind : option DecisionKind) (reason : option Ground) (t : Ticket) : Ticket := {|
  ticket_key := ticket_key t; route := route t; requester := requester t; state := state t;
  times := times t; relevant_at := relevant_at t; pending_evidence := pending_evidence t;
  extended_epoch := extended_epoch t; decided := kind; ground := reason; pending := pending t;
  provisional_committed := provisional_committed t; references := references t;
  purged := purged t; events := events t; ticket_last_at := ticket_last_at t |}.
Definition set_extended (epoch : option Z) (t : Ticket) : Ticket := {|
  ticket_key := ticket_key t; route := route t; requester := requester t; state := state t;
  times := times t; relevant_at := relevant_at t; pending_evidence := pending_evidence t;
  extended_epoch := epoch; decided := decided t; ground := ground t; pending := pending t;
  provisional_committed := provisional_committed t; references := references t;
  purged := purged t; events := events t; ticket_last_at := ticket_last_at t |}.
Definition set_references (refs : gmap Z str) (t : Ticket) : Ticket := {|
  ticket_key := ticket_key t; route := route t; requester := requester t; state := state t;
  times := times t; relevant_at := relevant_at t; pending_evidence := pending_evidence t;
  extended_epoch := extended_epoch t; decided := decided t; ground := ground t;
  pending := pending t; provisional_committed := provisional_committed t; references := refs;
  purged := purged t; events := events t; ticket_last_at := ticket_last_at t |}.
Definition set_times (ts : Milestones) (t : Ticket) : Ticket := {|
  ticket_key := ticket_key t; route := route t; requester := requester t; state := state t;
  times := ts; relevant_at := relevant_at t; pending_evidence := pending_evidence t;
  extended_epoch := extended_epoch t; decided := decided t; ground := ground t;
  pending := pending t; provisional_committed := provisional_committed t;
  references := references t; purged := purged t; events := events t;
  ticket_last_at := ticket_last_at t |}.
Definition set_state (next : TicketState) (t : Ticket) : Ticket := {|
  ticket_key := ticket_key t; route := route t; requester := requester t; state := next;
  times := times t; relevant_at := relevant_at t; pending_evidence := pending_evidence t;
  extended_epoch := extended_epoch t; decided := decided t; ground := ground t;
  pending := pending t; provisional_committed := provisional_committed t;
  references := references t; purged := purged t; events := events t;
  ticket_last_at := ticket_last_at t |}.
Definition set_events (n : Z) (t : Ticket) : Ticket := {|
  ticket_key := ticket_key t; route := route t; requester := requester t; state := state t;
  times := times t; relevant_at := relevant_at t; pending_evidence := pending_evidence t;
  extended_epoch := extended_epoch t; decided := decided t; ground := ground t;
  pending := pending t; provisional_committed := provisional_committed t;
  references := references t; purged := purged t; events := n;
  ticket_last_at := ticket_last_at t |}.
Definition set_last_at (at_ : Z) (t : Ticket) : Ticket := {|
  ticket_key := ticket_key t; route := route t; requester := requester t; state := state t;
  times := times t; relevant_at := relevant_at t; pending_evidence := pending_evidence t;
  extended_epoch := extended_epoch t; decided := decided t; ground := ground t;
  pending := pending t; provisional_committed := provisional_committed t;
  references := references t; purged := purged t; events := events t; ticket_last_at := at_ |}.
Definition set_acknowledged_at (at_ : Z) (m : Milestones) : Milestones := {|
  times_received := times_received m; acknowledged_at := Some at_;
  identity_pending_at := identity_pending_at m; queued_at := queued_at m;
  decided_at := decided_at m; actioned_at := actioned_at m; appealed_at := appealed_at m;
  reversed_at := reversed_at m; upheld_at := upheld_at m; closed_at := closed_at m |}.
Definition set_identity_pending_at (at_ : Z) (m : Milestones) : Milestones := {|
  times_received := times_received m; acknowledged_at := acknowledged_at m;
  identity_pending_at := Some at_; queued_at := queued_at m; decided_at := decided_at m;
  actioned_at := actioned_at m; appealed_at := appealed_at m; reversed_at := reversed_at m;
  upheld_at := upheld_at m; closed_at := closed_at m |}.
Definition set_queued_at (at_ : Z) (m : Milestones) : Milestones := {|
  times_received := times_received m; acknowledged_at := acknowledged_at m;
  identity_pending_at := identity_pending_at m; queued_at := Some at_;
  decided_at := decided_at m; actioned_at := actioned_at m; appealed_at := appealed_at m;
  reversed_at := reversed_at m; upheld_at := upheld_at m; closed_at := closed_at m |}.
Definition set_decided_at (at_ : Z) (m : Milestones) : Milestones := {|
  times_received := times_received m; acknowledged_at := acknowledged_at m;
  identity_pending_at := identity_pending_at m; queued_at := queued_at m; decided_at := Some at_;
  actioned_at := actioned_at m; appealed_at := appealed_at m; reversed_at := reversed_at m;
  upheld_at := upheld_at m; closed_at := closed_at m |}.
Definition set_actioned_at (at_ : Z) (m : Milestones) : Milestones := {|
  times_received := times_received m; acknowledged_at := acknowledged_at m;
  identity_pending_at := identity_pending_at m; queued_at := queued_at m;
  decided_at := decided_at m; actioned_at := Some at_; appealed_at := appealed_at m;
  reversed_at := reversed_at m; upheld_at := upheld_at m; closed_at := closed_at m |}.
Definition set_appealed_at (at_ : Z) (m : Milestones) : Milestones := {|
  times_received := times_received m; acknowledged_at := acknowledged_at m;
  identity_pending_at := identity_pending_at m; queued_at := queued_at m;
  decided_at := decided_at m; actioned_at := actioned_at m; appealed_at := Some at_;
  reversed_at := reversed_at m; upheld_at := upheld_at m; closed_at := closed_at m |}.
Definition set_reversed_at (at_ : Z) (m : Milestones) : Milestones := {|
  times_received := times_received m; acknowledged_at := acknowledged_at m;
  identity_pending_at := identity_pending_at m; queued_at := queued_at m;
  decided_at := decided_at m; actioned_at := actioned_at m; appealed_at := appealed_at m;
  reversed_at := Some at_; upheld_at := upheld_at m; closed_at := closed_at m |}.
Definition set_upheld_at (at_ : Z) (m : Milestones) : Milestones := {|
  times_received := times_received m; acknowledged_at := acknowledged_at m;
  identity_pending_at := identity_pending_at m; queued_at := queued_at m;
  decided_at := decided_at m; actioned_at := actioned_at m; appealed_at := appealed_at m;
  reversed_at := reversed_at m; upheld_at := Some at_; closed_at := closed_at m |}.
Definition set_closed_at (at_ : Z) (m : Milestones) : Milestones := {|
  times_received := times_received m; acknowledged_at := acknowledged_at m;
  identity_pending_at := identity_pending_at m; queued_at := queued_at m;
  decided_at := decided_at m; actioned_at := actioned_at m; appealed_at := appealed_at m;
  reversed_at := reversed_at m; upheld_at := upheld_at m; closed_at := Some at_ |}.


(** ** The transition table *)

Definition successor (s : TicketState) (e : EventName) : cres TicketState :=
  let next :=
    match s, e with
    | TicketState_Received, Event_Acknowledged => Some TicketState_Acknowledged
    | TicketState_Acknowledged, Event_Queued => Some TicketState_Queued
    | TicketState_Queued, (Event_IdentityRequested | Event_ClarificationRequested) =>
        Some TicketState_IdentityPending
    | TicketState_IdentityPending, (Event_IdentityConfirmed | Event_ClarificationReceived) =>
        Some TicketState_Queued
    | TicketState_Queued, Event_Decided => Some TicketState_Decided
    | TicketState_Decided, Event_Actioned => Some TicketState_Actioned
    | (TicketState_Actioned | TicketState_Decided), Event_Appealed => Some TicketState_Appealed
    | TicketState_Appealed, Event_Reversed => Some TicketState_Reversed
    | TicketState_Appealed, Event_Upheld => Some TicketState_Upheld
    | (TicketState_Decided | TicketState_Actioned | TicketState_Reversed | TicketState_Upheld),
      Event_Closed => Some TicketState_Closed
    | (TicketState_Queued | TicketState_IdentityPending), Event_ExtensionNotified => Some s
    | (TicketState_Queued | TicketState_IdentityPending | TicketState_Decided
       | TicketState_Actioned | TicketState_Appealed), Event_ProgressCommunicated => Some s
    | TicketState_Closed, (Event_PurgeIntent | Event_Purged) => Some s
    | (TicketState_Received | TicketState_Decided), (Event_ActionIntent | Event_RulesCommitted) =>
        Some s
    | TicketState_Appealed, Event_ReversalIntent => Some s
    | _, _ => None
    end in
  ok_or next InvalidTransition.

Section Lifecycle.
Context `{Chrono} (config : ComplianceConfig).

(** [now >= relevant_at && now <= due?]. *)
Definition extension_window (relevant now : Z) : cres bool :=
  if now <? relevant then Ok false
  else due ← data_rights_due relevant false; Ok (now <=? due).

Definition purge_due (t : Ticket) (now : Z) : cres bool :=
  if negb (is_ok (successor (state t) Event_PurgeIntent)) || bool_decide (pending t <> None) || purged t
  then Ok false
  else
    closed ← ok_or (closed_at (times t)) Unavailable;
    retention_elapsed closed (retention_months config) now.

Definition extended (t : Ticket) : bool := bool_decide (extended_epoch t = Some (relevant_at t)).
Definition deadline (t : Ticket) : cres (option Z) :=
  match route t with
  | Route_IntimateImages => Some <$> intimate_due (times_received (times t))
  | Route_DataRights => Some <$> data_rights_due (relevant_at t) (extended t)
  | Route_DataProtectionComplaint => Some <$> complaint_ack_due (times_received (times t))
  | _ => Ok None
  end.
Definition queue_overdue (t : Ticket) (now : Z) : cres bool :=
  match route t with
  | Route_IntimateImages => negb <$> intimate_on_time (times_received (times t)) now
  | Route_DataRights => data_rights_overdue (relevant_at t) (extended t) now
  | Route_DataProtectionComplaint => negb <$> complaint_ack_on_time (times_received (times t)) now
  | _ => Ok false
  end.

Definition decision_allowed (t : Ticket) (d : Decision) (g : option Ground)
    (tickets : gmap str Ticket) : cres unit :=
  _ ← successor (state t) Event_Decided;
  _ ← Decision_validate d;
  let eligible :=
    match d with
    | NotIntimateImage _ _ | NoStanding _ _ => bool_decide (route t = Route_IntimateImages)
    | ManifestlyUnfounded _ _ _ _ _ =>
        bool_decide (route t ∈ [Route_SiteComplaint; Route_DataProtectionComplaint;
                                Route_OnlineSafetyComplaint])
    | _ => true
    end in
  _ ← refuse_if (negb eligible) InvalidInput;
  _ ← match d with
      | Granted _ _ assessment =>
          refuse_if (negb (Bool.eqb (bool_decide (is_Some assessment))
                             (bool_decide (g = Some Ground_DataDelisting)))) InvalidInput
      | _ => Ok tt
      end;
  match d with
  | ManifestlyUnfounded _ _ policy_version policy_clause duplicate_of =>
      _ ← refuse_if (negb (str_eqb policy_version (unfounded_policy_version config)) ||
                     negb (str_eqb policy_clause duplicate_clause)) InvalidInput;
      refuse_if
        (negb match tickets !! duplicate_of with
              | Some prior =>
                  bool_decide (state prior = TicketState_Closed) &&
                  bool_decide (route prior = route t)
              | None => false
              end) InvalidInput
  | _ => Ok tt
  end.

(** ** The reducer *)

Definition received (row : JournalRow) : cres Ticket :=
  _ ← refuse_if (negb (bool_decide (event row = Event_Received)) ||
                 negb (str_eqb (row_state row) (lit "received")) ||
                 negb (payload_sequence row =? 1)) Unavailable;
  id ← TicketId_parse (ticket_id row);
  r ← parse (row_route row);
  q ← parse (row_requester row);
  Ok {| ticket_key := id; route := r; requester := q; state := TicketState_Received;
        times := {| times_received := received_at row; acknowledged_at := None;
                    identity_pending_at := None; queued_at := None; decided_at := None;
                    actioned_at := None; appealed_at := None; reversed_at := None;
                    upheld_at := None; closed_at := None |};
        relevant_at := received_at row; pending_evidence := None; extended_epoch := None;
        decided := None; ground := None; pending := None; provisional_committed := false;
        references := {[1 := commitment row]}; purged := false; events := 1;
        ticket_last_at := row_at row |}.

Definition completions : list EventName :=
  [Event_RulesCommitted; Event_Actioned; Event_Reversed; Event_Purged].
Definition intents : list EventName := [Event_ActionIntent; Event_ReversalIntent; Event_PurgeIntent].

Definition action_allowed (t : Ticket) (row : JournalRow) : bool :=
  let intake :=
    bool_decide (state t = TicketState_Received) && bool_decide (route t = Route_IntimateImages) &&
    is_empty (decision row) in
  let reviewed :=
    bool_decide (state t = TicketState_Decided) &&
    match decided t with
    | Some d =>
        str_eqb (decision row) (as_str d) &&
        bool_decide (d ∈ [DecisionKind_Granted; DecisionKind_NotIntimateImage;
                          DecisionKind_NoStanding])
    | None => false
    end in
  negb ((negb intake && negb reviewed) || negb (is_ok (parse (T := Ground) (reason_code row))) ||
        is_empty (asset_ids row) || (effective_at row <? times_received (times t))).

(** [route != .. || extended_epoch == .. || !extension_window(..)?]. *)
Definition extension_refused (t : Ticket) (row : JournalRow) : cres bool :=
  if negb (bool_decide (route t = Route_DataRights)) || extended t then Ok true
  else negb <$> extension_window (relevant_at t) (row_at row).

Definition guard (row : JournalRow) (t : Ticket) : cres unit :=
  _ ← refuse_if (bool_decide (pending t <> None) && negb (event_in (event row) completions))
        InvalidTransition;
  _ ← refuse_if (bool_decide (event row = Event_Acknowledged) &&
                 bool_decide (route t = Route_IntimateImages) &&
                 negb (provisional_committed t)) InvalidTransition;
  _ ← refuse_if (bool_decide (event row = Event_ActionIntent) && negb (action_allowed t row))
        InvalidTransition;
  _ ← if bool_decide (event row = Event_ExtensionNotified)
      then refused ← extension_refused t row; refuse_if refused InvalidTransition
      else Ok tt;
  _ ← if bool_decide (event row = Event_PurgeIntent)
      then due ← purge_due t (row_at row); refuse_if (negb due) RetentionNotDue
      else Ok tt;
  _ ← refuse_if (bool_decide (event row = Event_Closed) &&
                 bool_decide (state t = TicketState_Decided) &&
                 bool_decide (decided t = Some DecisionKind_Granted) &&
                 bool_decide (ground t <> None)) InvalidTransition;
  refuse_if (event_in (event row) [Event_ReversalIntent; Event_Reversed; Event_Actioned] &&
             (negb (bool_decide (decided t = Some DecisionKind_Granted)) ||
              bool_decide (ground t = None))) InvalidTransition.

Definition evidence_request (e : EventName) : option IdentityEvent :=
  match e with
  | Event_IdentityRequested => Some IdentityEvent_RequestIdentity
  | Event_ClarificationRequested => Some IdentityEvent_RequestClarification
  | _ => None
  end.
Definition evidence_reply (e : EventName) : option IdentityEvent :=
  match e with
  | Event_IdentityConfirmed => Some IdentityEvent_RequestIdentity
  | Event_ClarificationReceived => Some IdentityEvent_RequestClarification
  | _ => None
  end.
Definition evidence (row : JournalRow) : method Ticket Error unit :=
  let request := evidence_request (event row) in
  let reply := evidence_reply (event row) in
  _ ← inspect (fun t =>
        refuse_if (bool_decide (is_Some request \/ is_Some reply) &&
                   negb (bool_decide (route t = Route_DataRights))) InvalidTransition);
  _ ← match request with
      | Some request => assign (fun t => set_evidence (relevant_at t) (Some request) t)
      | None => mret tt
      end;
  match reply with
  | Some expected =>
      _ ← inspect (fun t =>
            refuse_if (negb (bool_decide (pending_evidence t = Some expected))) InvalidTransition);
      assign (fun t => set_evidence (Z.max (relevant_at t) (row_at row)) None t)
  | None => mret tt
  end.

(** The completion an intent expects. *)
Definition expected_completion (intent : JournalRow) : cres EventName :=
  match event intent with
  | Event_ReversalIntent => Ok Event_Reversed
  | Event_PurgeIntent => Ok Event_Purged
  | Event_ActionIntent =>
      Ok (if str_eqb (decision intent) (lit "granted") then Event_Actioned else Event_RulesCommitted)
  | _ => Err InvalidTransition
  end.
Definition completes (row intent : JournalRow) : cres unit :=
  expected ← expected_completion intent;
  refuse_if (negb (bool_decide (event row = expected)) ||
             negb (intent_sequence row =? sequence intent) ||
             negb (str_eqb (reason_code row) (reason_code intent)) ||
             negb (str_eqb (asset_ids row) (asset_ids intent)) ||
             negb (effective_at row =? effective_at intent) ||
             negb (str_eqb (decision row) (decision intent))) InvalidTransition.
Definition operation (row : JournalRow) : method Ticket Error unit :=
  if event_in (event row) intents then
    _ ← inspect (fun t =>
          refuse_if (bool_decide (pending t <> None) ||
                     negb (intent_sequence row =? sequence row)) InvalidTransition);
    assign (set_pending (Some row))
  else if event_in (event row) completions then
    _ ← inspect (fun t => intent ← ok_or (pending t) InvalidTransition; completes row intent);
    assign (fun t =>
      set_completed (bool_decide (event row = Event_Purged))
        (provisional_committed t ||
         (bool_decide (event row = Event_RulesCommitted) && is_empty (decision row))) t)
  else mret tt.

Definition record_reference (row : JournalRow) : method Ticket Error unit := fun t =>
  if payload_sequence row =? 0 then (t, Ok tt)
  else match references t !! payload_sequence row with
  | Some expected =>
      (t, refuse_if (negb (str_eqb expected (commitment row)) ||
                     negb (bool_decide (event row = Event_ActionIntent))) Unavailable)
  | None =>
      if payload_sequence row =? Z.of_nat (size (references t)) + 1
      then (set_references (<[payload_sequence row := commitment row]> (references t)) t, Ok tt)
      else (t, Err Unavailable)
  end.

Definition milestone (row : JournalRow) (t : Ticket) : Ticket :=
  let set f := set_times (f (row_at row) (times t)) t in
  match event row with
  | Event_Acknowledged => set set_acknowledged_at
  | Event_IdentityRequested | Event_ClarificationRequested => set set_identity_pending_at
  | Event_Queued | Event_IdentityConfirmed | Event_ClarificationReceived => set set_queued_at
  | Event_Decided => set set_decided_at
  | Event_Actioned => set set_actioned_at
  | Event_Appealed => set set_appealed_at
  | Event_Reversed => set set_reversed_at
  | Event_Upheld => set set_upheld_at
  | Event_Closed => set set_closed_at
  | _ => t
  end.

Definition apply (row : JournalRow) : method Ticket Error unit :=
  next ← inspect (fun t => successor (state t) (event row));
  _ ← inspect (fun t =>
        refuse_if (negb (str_eqb (ticket_id row) (ticket_key t)) ||
                   negb (str_eqb (row_route row) (as_str (route t))) ||
                   negb (str_eqb (row_requester row) (as_str (requester t))) ||
                   negb (received_at row =? times_received (times t)) ||
                   negb (str_eqb (row_state row) (as_str next)) ||
                   (row_at row <? ticket_last_at t) || purged t) InvalidTransition);
  _ ← inspect (guard row);
  _ ← evidence row;
  _ ← operation row;
  _ ← if bool_decide (event row = Event_Decided) then
        kind ← inspect (fun _ => parse (decision row));
        assign (set_decision (Some kind) (ok (parse (reason_code row))))
      else mret tt;
  _ ← if bool_decide (event row = Event_ExtensionNotified)
      then assign (fun t => set_extended (Some (relevant_at t)) t)
      else mret tt;
  _ ← record_reference row;
  _ ← assign (milestone row);
  _ ← assign (set_state next);
  n ← inspect (fun t => ok_or (u64_checked_add (events t) 1) Capacity);
  _ ← assign (set_events n);
  assign (set_last_at (row_at row)).
End Lifecycle.

(** ** What one row does *)

Section Applied.
Context `{Chrono} (config : ComplianceConfig).

Definition evidence_spec (row : JournalRow) (t : Ticket) (relevant : Z)
    (outstanding : option IdentityEvent) : Prop :=
  match evidence_request (event row), evidence_reply (event row) with
  | Some request, _ =>
      route t = Route_DataRights /\ relevant = relevant_at t /\ outstanding = Some request
  | None, Some expected =>
      route t = Route_DataRights /\ pending_evidence t = Some expected /\
      relevant = Z.max (relevant_at t) (row_at row) /\ outstanding = None
  | None, None => relevant = relevant_at t /\ outstanding = pending_evidence t
  end.
Definition operation_spec (row : JournalRow) (t : Ticket) (intent : option JournalRow)
    (purge provisional : bool) : Prop :=
  if event_in (event row) intents then
    pending t = None /\ intent_sequence row = sequence row /\ intent = Some row /\
    purge = purged t /\ provisional = provisional_committed t
  else if event_in (event row) completions then
    exists i, pending t = Some i /\ completes row i = Ok tt /\ intent = None /\
      purge = bool_decide (event row = Event_Purged) /\
      provisional = provisional_committed t ||
        (bool_decide (event row = Event_RulesCommitted) && is_empty (decision row))
  else intent = pending t /\ purge = purged t /\ provisional = provisional_committed t.
Definition reference_spec (row : JournalRow) (t : Ticket) (refs : gmap Z str) : Prop :=
  if payload_sequence row =? 0 then refs = references t
  else match references t !! payload_sequence row with
  | Some expected =>
      expected = commitment row /\ event row = Event_ActionIntent /\ refs = references t
  | None =>
      payload_sequence row = Z.of_nat (size (references t)) + 1 /\
      refs = <[payload_sequence row := commitment row]> (references t)
  end.

(** The ticket after a row, field by field. *)
Record applied (row : JournalRow) (t t' : Ticket) : Prop := {
  ap_next : successor (state t) (event row) = Ok (state t');
  ap_key : ticket_key t' = ticket_key t;
  ap_route : route t' = route t;
  ap_requester : requester t' = requester t;
  ap_row : ticket_id row = ticket_key t /\ row_route row = as_str (route t) /\
    row_requester row = as_str (requester t) /\ received_at row = times_received (times t) /\
    row_state row = as_str (state t');
  ap_after : ticket_last_at t <= row_at row;
  ap_live : purged t = false;
  ap_guard : guard config row t = Ok tt;
  ap_evidence : evidence_spec row t (relevant_at t') (pending_evidence t');
  ap_operation : operation_spec row t (pending t') (purged t') (provisional_committed t');
  ap_decision :
    if bool_decide (event row = Event_Decided)
    then exists kind, parse (decision row) = Ok kind /\ decided t' = Some kind /\
      ground t' = ok (parse (reason_code row))
    else decided t' = decided t /\ ground t' = ground t;
  ap_extended :
    extended_epoch t' =
      if bool_decide (event row = Event_ExtensionNotified) then Some (relevant_at t)
      else extended_epoch t;
  ap_references : reference_spec row t (references t');
  ap_times : times t' = times (milestone row t);
  ap_events : events t' = events t + 1 /\ events t' <= u64_max;
  ap_last : ticket_last_at t' = row_at row;
}.

Lemma set_evidence_id t : set_evidence (relevant_at t) (pending_evidence t) t = t.
Proof. by destruct t. Qed.

Lemma evidence_Ok row t t1 u :
  evidence row t = (t1, Ok u) ->
  exists relevant outstanding, t1 = set_evidence relevant outstanding t /\
    evidence_spec row t relevant outstanding.
Proof.
  unfold evidence, evidence_spec. intros Hm.
  apply method_bind_Ok in Hm as (s & ? & [-> Hr%refuse_if_Ok]%inspect_Ok & Hm).
  destruct (evidence_request (event row)) as [request|] eqn:Hq.
  - assert (evidence_reply (event row) = None) as Hn by (by destruct (event row)). rewrite Hn in *.
    rewrite bool_decide_eq_true_2 in Hr by eauto. cbn in Hr. bool_to_prop.
    apply method_bind_Ok in Hm as (s & ? & ->%assign_Ok & [= <- _]). eauto 6.
  - destruct (evidence_reply (event row)) as [expected|].
    + rewrite bool_decide_eq_true_2 in Hr by eauto. cbn in Hr. bool_to_prop.
      apply method_bind_Ok in Hm as (s & ? & [= <- _] & Hm).
      apply method_bind_Ok in Hm as (s & ? & [-> Hp%refuse_if_Ok]%inspect_Ok & ->%assign_Ok).
      bool_to_prop. eauto 8.
    + apply method_bind_Ok in Hm as (s & ? & [= <- _] & [= <- _]).
      exists (relevant_at t), (pending_evidence t). by rewrite set_evidence_id.
Qed.

Definition set_operation (intent : option JournalRow) (purge provisional : bool) (t : Ticket) : Ticket :=
  set_pending intent (set_completed purge provisional t).

Lemma operation_Ok row t t1 u :
  operation row t = (t1, Ok u) ->
  exists intent purge provisional, t1 = set_operation intent purge provisional t /\
    operation_spec row t intent purge provisional.
Proof.
  unfold operation, operation_spec. intros Hm. destruct (event_in (event row) intents).
  - apply method_bind_Ok in Hm as (s & ? & [-> Hr%refuse_if_Ok]%inspect_Ok & ->%assign_Ok).
    bool_to_prop. exists (Some row), (purged t), (provisional_committed t).
    split; [by destruct t|]. split_and!; [|done..].
    destruct (pending t) eqn:E; [|done]. exfalso. naive_solver.
  - destruct (event_in (event row) completions).
    + apply method_bind_Ok in Hm as (s & ? & [-> Hr]%inspect_Ok & ->%assign_Ok).
      apply bind_Ok in Hr as (i & Hi%ok_or_Ok & Hr). do 3 eexists. split; [reflexivity|].
      exists i. by destruct x.
    + injection Hm as <- _. exists (pending t), (purged t), (provisional_committed t).
      split; [by destruct t|done].
Qed.

Lemma set_references_id t : set_references (references t) t = t.
Proof. by destruct t. Qed.

Lemma record_reference_Ok row t t1 u :
  record_reference row t = (t1, Ok u) ->
  exists refs, t1 = set_references refs t /\ reference_spec row t refs.
Proof.
  unfold record_reference, reference_spec. intros Hm. destruct (payload_sequence row =? 0).
  { injection Hm as <- _. exists (references t). by rewrite set_references_id. }
  destruct (references t !! payload_sequence row) as [expected|].
  - injection Hm as <- Hr%refuse_if_Ok.
    apply orb_false_iff in Hr as [?%negb_false_iff%str_eqb_eq ?%negb_false_iff%bool_decide_eq_true].
    exists (references t). by rewrite set_references_id.
  - case_match; [|done]. bool_to_prop. injection Hm as <- _. eauto.
Qed.

Lemma milestone_set_times row t : milestone row t = set_times (times (milestone row t)) t.
Proof. unfold milestone. by destruct (event row), t. Qed.

Lemma milestone_times row t t1 :
  times t1 = times t -> times (milestone row t1) = times (milestone row t).
Proof. intros E. unfold milestone. destruct (event row); cbn; by rewrite ?E. Qed.

(** [evidence], [operation] and [record_reference] only look at fields that the
    assignments before them leave alone. *)
Lemma apply_Ok row t t' u : apply config row t = (t', Ok u) -> applied row t t'.
Proof.
  unfold apply. intros Hm.
  apply method_bind_Ok in Hm as (s & next & [-> Hnext]%inspect_Ok & Hm).
  apply method_bind_Ok in Hm as (s & ? & [-> Hrow%refuse_if_Ok]%inspect_Ok & Hm).
  apply method_bind_Ok in Hm as (s & [] & [-> Hguard]%inspect_Ok & Hm).
  apply method_bind_Ok in Hm as (t1 & ? & (rel & out & -> & Hev)%evidence_Ok & Hm).
  apply method_bind_Ok in Hm as (t2 & ? & (int & pu & pr & -> & Hop)%operation_Ok & Hm).
  apply method_bind_Ok in Hm as (t3 & ? & Hdec & Hm).
  apply method_bind_Ok in Hm as (t4 & ? & Hext & Hm).
  apply method_bind_Ok in Hm as (t5 & ? & (refs & -> & Href)%record_reference_Ok & Hm).
  apply method_bind_Ok in Hm as (s & ? & ->%assign_Ok & Hm).
  apply method_bind_Ok in Hm as (s & ? & ->%assign_Ok & Hm).
  apply method_bind_Ok in Hm as (s & n & [-> [-> Hn]%ok_or_Ok%u64_checked_add_Some]%inspect_Ok & Hm).
  apply method_bind_Ok in Hm as (s & ? & ->%assign_Ok & ->%assign_Ok).
  bool_to_prop.
  repeat match goal with Hs : str_eqb _ _ = true |- _ => apply str_eqb_eq in Hs end.
  assert (exists kind reason, t3 = set_decision kind reason (set_operation int pu pr (set_evidence rel out t)) /\
    if bool_decide (event row = Event_Decided)
    then exists k, parse (decision row) = Ok k /\ kind = Some k /\ reason = ok (parse (reason_code row))
    else kind = decided t /\ reason = ground t) as (kind & reason & -> & Hkind).
  { destruct (decide (event row = Event_Decided)) as [He|He].
    - rewrite bool_decide_eq_true_2 in Hdec |- * by done.
      apply method_bind_Ok in Hdec as (s & k & [-> Hk]%inspect_Ok & ->%assign_Ok). eauto 8.
    - rewrite bool_decide_eq_false_2 in Hdec |- * by done. injection Hdec as <- _.
      exists (decided t), (ground t). by destruct t. }
  assert (exists epoch, t4 = set_extended epoch (set_decision kind reason
      (set_operation int pu pr (set_evidence rel out t))) /\
    epoch = if bool_decide (event row = Event_ExtensionNotified) then Some rel else extended_epoch t)
    as (epoch & -> & Hepoch).
  { destruct (decide (event row = Event_ExtensionNotified)) as [He|He].
    - rewrite bool_decide_eq_true_2 in Hext |- * by done. apply assign_Ok in Hext as ->. eauto.
    - rewrite bool_decide_eq_false_2 in Hext |- * by done. injection Hext as <- _.
      exists (extended_epoch t). by destruct t. }
  rewrite milestone_set_times in Hn |- *. split; cbn -[as_str]; try done.
  - rewrite Hepoch. case_bool_decide as He; [|done]. f_equal.
    unfold evidence_spec in Hev. rewrite He in Hev. by destruct Hev.
  - by apply milestone_times.
Qed.
End Applied.

(** ** Replayed tickets *)

(** The transitions of the table, with the state after. *)
Ltac lifecycle_cases Ha :=
  let Hn := fresh "Hnext" in
  pose proof (ap_next _ _ _ _ Ha) as Hn;
  match type of Hn with
  | successor (state ?t) (event ?row) = Ok (state ?t') =>
      destruct (state t) eqn:?Hs, (event row) eqn:?He; cbn in Hn; try discriminate Hn;
      injection Hn as Hn
  end.

Section Replay.
Context `{C : Chrono} (config : ComplianceConfig).

(** The tickets that journal rows rebuild. *)
Inductive Replay : list JournalRow -> Ticket -> Prop :=
| replay_received row t : received row = Ok t -> Replay [row] t
| replay_apply rows t row t' :
    Replay rows t -> apply config row t = (t', Ok tt) -> Replay (rows ++ [row]) t'.

Record guarded (row : JournalRow) (t : Ticket) : Prop := {
  g_pending : pending t <> None -> event row ∈ completions;
  g_acknowledged : event row = Event_Acknowledged -> route t = Route_IntimateImages ->
    provisional_committed t = true;
  g_action : event row = Event_ActionIntent -> action_allowed t row = true;
  g_extension : event row = Event_ExtensionNotified -> extension_refused t row = Ok false;
  g_purge : event row = Event_PurgeIntent -> purge_due config t (row_at row) = Ok true;
  g_closed : event row = Event_Closed -> state t = TicketState_Decided ->
    decided t = Some DecisionKind_Granted -> ground t = None;
  g_granted : event row ∈ [Event_ReversalIntent; Event_Reversed; Event_Actioned] ->
    decided t = Some DecisionKind_Granted /\ ground t <> None;
}.

Lemma implb_false (P : Prop) `{!base.Decision P} b : bool_decide P && b = false <-> (P -> b = false).
Proof. case_bool_decide; cbn; naive_solver. Qed.

Lemma guard_Ok row t u : guard config row t = Ok u -> guarded row t.
Proof.
  unfold guard. intros Hg.
  apply bind_Ok in Hg as (? & H1%refuse_if_Ok & Hg). apply bind_Ok in Hg as (? & H2%refuse_if_Ok & Hg).
  apply bind_Ok in Hg as (? & H3%refuse_if_Ok & Hg). apply bind_Ok in Hg as (? & H4 & Hg).
  apply bind_Ok in Hg as (? & H5 & Hg). apply bind_Ok in Hg as (? & H6%refuse_if_Ok & H7%refuse_if_Ok).
  split.
  - intros Hp. rewrite implb_false in H1. specialize (H1 Hp).
    by apply negb_false_iff, bool_decide_eq_true in H1.
  - intros He Hr. rewrite !bool_decide_eq_true_2 in H2 by done. cbn in H2. by bool_to_prop.
  - intros He. rewrite implb_false in H3. by apply negb_false_iff, H3.
  - intros He. rewrite bool_decide_eq_true_2 in H4 by done.
    apply bind_Ok in H4 as (b & Hb & ->%refuse_if_Ok). done.
  - intros He. rewrite bool_decide_eq_true_2 in H5 by done.
    apply bind_Ok in H5 as (b & Hb & Hn%refuse_if_Ok%negb_false_iff). by rewrite Hn in Hb.
  - intros He Hs Hd. rewrite !bool_decide_eq_true_2 in H6 by done. cbn in H6.
    destruct (ground t); [|done]. by rewrite bool_decide_eq_true_2 in H6.
  - intros He. unfold event_in in H7. rewrite bool_decide_eq_true_2 in H7 by done. cbn in H7.
    bool_to_prop. done.
Qed.

Lemma apply_guarded row t t' u : apply config row t = (t', Ok u) -> guarded row t.
Proof. intros Ha%apply_Ok. eapply guard_Ok, ap_guard, Ha. Qed.

(** What a replayed ticket looks like: its counters and times follow the rows,
    its revisions are numbered from 1 without gaps, an outstanding evidence
    request is what the state says, an unfinished operation is the last row and
    belongs to the state, and the milestones and the decision match the state. *)
Definition awaiting (i : JournalRow) (s : TicketState) : Prop :=
  match event i with
  | Event_ActionIntent => s = TicketState_Received \/ s = TicketState_Decided
  | Event_ReversalIntent => s = TicketState_Appealed
  | Event_PurgeIntent => s = TicketState_Closed
  | _ => False
  end.
Definition reviewed_states : list TicketState :=
  [TicketState_Decided; TicketState_Actioned; TicketState_Appealed; TicketState_Reversed;
   TicketState_Upheld; TicketState_Closed].

Record well_formed (l : list JournalRow) (t : Ticket) : Prop := {
  wf_events : events t = Z.of_nat (length l);
  wf_last : (fun r : JournalRow => row_at r) <$> last l = Some (ticket_last_at t);
  wf_ids : Forall (fun r : JournalRow => ticket_id r = ticket_key t) l;
  wf_relevant : times_received (times t) <= relevant_at t;
  wf_references : forall k, is_Some (references t !! k) <-> 1 <= k <= Z.of_nat (size (references t));
  wf_evidence : is_Some (pending_evidence t) <-> state t = TicketState_IdentityPending;
  wf_pending : forall i, pending t = Some i -> last l = Some i /\ awaiting i (state t);
  wf_purged : purged t = true -> state t = TicketState_Closed /\ pending t = None;
  wf_closed : is_Some (closed_at (times t)) <-> state t = TicketState_Closed;
  wf_decided : is_Some (decided t) <-> state t ∈ reviewed_states;
  wf_granted : state t = TicketState_Actioned \/ state t = TicketState_Reversed ->
    decided t = Some DecisionKind_Granted /\ ground t <> None;
  wf_intimate : route t = Route_IntimateImages -> state t <> TicketState_Received ->
    provisional_committed t = true;
}.

Lemma parse_ticket_id raw id : TicketId_parse raw = Ok id -> id = raw.
Proof. by intros [-> _]%Hex64_parse_Ok. Qed.

Lemma received_well_formed row t : received row = Ok t -> well_formed [row] t.
Proof.
  unfold received. intros Hr. apply bind_Ok in Hr as (? & Hc%refuse_if_Ok & Hr).
  apply bind_Ok in Hr as (id & Hid%parse_ticket_id & Hr). apply bind_Ok in Hr as (r & _ & Hr).
  apply bind_Ok in Hr as (q & _ & [= <-]). subst id.
  split; cbn; try done; try (split; [by intros [? ?]|done]).
  - by repeat constructor.
  - intros k. rewrite map_size_singleton, lookup_singleton_is_Some. lia.
  - split; [by intros [? ?]|]. intros Hin. by apply list_elem_of_In in Hin; cbn in Hin; intuition.
  - by intros [?|?].
Qed.
End Replay.

Section Invariant.
Context `{C : Chrono} (config : ComplianceConfig).

Lemma apply_evidence row t t' :
  applied config row t t' ->
  (is_Some (pending_evidence t) <-> state t = TicketState_IdentityPending) ->
  (is_Some (pending_evidence t') <-> state t' = TicketState_IdentityPending).
Proof.
  intros Ha Hw. pose proof (ap_evidence _ _ _ _ Ha) as Hev. unfold evidence_spec in Hev.
  lifecycle_cases Ha; cbn in Hev; rewrite <- Hnext;
    repeat match goal with Hx : _ /\ _ |- _ => destruct Hx end;
    repeat match goal with Hx : pending_evidence t' = _ |- _ => rewrite Hx end;
    try (by split; [eauto|done]); try done;
    (split; [intros Hp; by apply Hw in Hp|done]).
Qed.

Lemma apply_closed row t t' :
  applied config row t t' ->
  (is_Some (closed_at (times t)) <-> state t = TicketState_Closed) ->
  (is_Some (closed_at (times t')) <-> state t' = TicketState_Closed).
Proof.
  intros Ha Hw. rewrite (ap_times _ _ _ _ Ha). unfold milestone.
  lifecycle_cases Ha; rewrite <- Hnext; cbn; try (by split; [eauto|done]); try done;
    (split; [intros Hc; exfalso; by apply Hw in Hc|done]).
Qed.

Lemma apply_decided row t t' :
  applied config row t t' ->
  (is_Some (decided t) <-> state t ∈ reviewed_states) ->
  (is_Some (decided t') <-> state t' ∈ reviewed_states).
Proof.
  intros Ha Hw. pose proof (ap_decision _ _ _ _ Ha) as Hd.
  assert (forall s, bool_decide (s ∈ reviewed_states) = true <-> s ∈ reviewed_states) as Hb
    by (intros s; apply bool_decide_eq_true).
  rewrite <- Hb in Hw |- *.
  lifecycle_cases Ha; rewrite <- Hnext;
    first [ rewrite bool_decide_eq_false_2 in Hd by done; destruct Hd as [-> _]; exact Hw
          | destruct Hd as (k & _ & -> & _); by split; [|eauto] ].
Qed.

Lemma apply_granted row t t' :
  applied config row t t' ->
  (state t = TicketState_Actioned \/ state t = TicketState_Reversed ->
   decided t = Some DecisionKind_Granted /\ ground t <> None) ->
  (state t' = TicketState_Actioned \/ state t' = TicketState_Reversed ->
   decided t' = Some DecisionKind_Granted /\ ground t' <> None).
Proof.
  intros Ha Hw. pose proof (ap_decision _ _ _ _ Ha) as Hd.
  pose proof (g_granted _ _ _ (guard_Ok _ _ _ _ (ap_guard _ _ _ _ Ha))) as Hg.
  lifecycle_cases Ha; rewrite <- Hnext; intros [?|?]; try done;
    (rewrite bool_decide_eq_false_2 in Hd by done; destruct Hd as [-> ->]);
    first [ apply Hw; by left | apply Hg; rewrite list_elem_of_In; cbn; tauto ].
Qed.

Lemma event_in_spec e l : event_in e l = true <-> e ∈ l.
Proof. apply bool_decide_eq_true. Qed.

(** An operation is unfinished only right after its intent. *)
Lemma apply_pending row t t' i :
  applied config row t t' -> pending t' = Some i ->
  i = row /\ event row ∈ intents /\ pending t = None /\ awaiting row (state t').
Proof.
  intros Ha Hi. pose proof (ap_operation _ _ _ _ Ha) as Ho. unfold operation_spec in Ho.
  destruct (event_in (event row) intents) eqn:Hin.
  - destruct Ho as (Hnone & _ & Hp & _). rewrite Hi in Hp. injection Hp as ->.
    apply event_in_spec in Hin. split_and!; [done..|]. unfold awaiting.
    lifecycle_cases Ha; try rewrite <- Hnext; try first [by left|by right|done].
    all: rewrite list_elem_of_In in Hin; cbn in Hin; intuition discriminate.
  - destruct (event_in (event row) completions) eqn:Hc; [by destruct Ho as (? & _ & _ & Hp & _); rewrite Hi in Hp|].
    destruct Ho as [Hp _]. rewrite Hi in Hp.
    assert (event row ∈ completions) as Hin'%event_in_spec; [|congruence].
    apply (g_pending _ _ _ (guard_Ok _ _ _ _ (ap_guard _ _ _ _ Ha))). by rewrite <- Hp.
Qed.

Lemma apply_purged row t t' :
  applied config row t t' -> purged t' = true ->
  event row = Event_Purged /\ state t = TicketState_Closed /\ state t' = TicketState_Closed /\
  pending t' = None /\ exists i, pending t = Some i /\ completes row i = Ok tt.
Proof.
  intros Ha Hp. pose proof (ap_operation _ _ _ _ Ha) as Ho. unfold operation_spec in Ho.
  destruct (event_in (event row) intents).
  { destruct Ho as (_ & _ & _ & Hq & _). rewrite (ap_live _ _ _ _ Ha) in Hq. congruence. }
  destruct (event_in (event row) completions); cycle 1.
  { destruct Ho as (_ & Hq & _). rewrite (ap_live _ _ _ _ Ha) in Hq. congruence. }
  destruct Ho as (i & Hi & Hc & Hn & Hq & _). rewrite Hp in Hq. symmetry in Hq. apply bool_decide_eq_true in Hq.
  pose proof (ap_next _ _ _ _ Ha) as Hnext. rewrite Hq in Hnext.
  destruct (state t); cbn in Hnext; try done. injection Hnext as Hnext. rewrite <- Hnext. eauto 8.
Qed.

Lemma apply_provisional row t t' :
  applied config row t t' -> provisional_committed t = true -> provisional_committed t' = true.
Proof.
  intros Ha Hp. pose proof (ap_operation _ _ _ _ Ha) as Ho. unfold operation_spec in Ho.
  repeat case_match; repeat match goal with Hx : _ /\ _ |- _ => destruct Hx | Hx : exists _, _ |- _ => destruct Hx end;
    congruence || (rewrite Hp in *; done).
Qed.

Lemma apply_intimate row t t' :
  applied config row t t' ->
  (route t = Route_IntimateImages -> state t <> TicketState_Received -> provisional_committed t = true) ->
  route t' = Route_IntimateImages -> state t' <> TicketState_Received ->
  provisional_committed t' = true.
Proof.
  intros Ha Hw Hr Hne. rewrite (ap_route _ _ _ _ Ha) in Hr.
  apply (apply_provisional row t t' Ha).
  pose proof (g_acknowledged _ _ _ (guard_Ok _ _ _ _ (ap_guard _ _ _ _ Ha))) as Hg.
  lifecycle_cases Ha; first [by apply Hg | by apply Hw | by rewrite <- Hnext in Hne].
Qed.

Lemma apply_references row t t' :
  applied config row t t' ->
  (forall k, is_Some (references t !! k) <-> 1 <= k <= Z.of_nat (size (references t))) ->
  (forall k, is_Some (references t' !! k) <-> 1 <= k <= Z.of_nat (size (references t'))).
Proof.
  intros Ha Hw k. pose proof (ap_references _ _ _ _ Ha) as Hr. unfold reference_spec in Hr.
  case_match; [by rewrite Hr|]. case_match; [by destruct Hr as (_ & _ & ->)|].
  destruct Hr as [Hseq ->]. rewrite map_size_insert_None by done. rewrite lookup_insert_is_Some', Hw. lia.
Qed.

Lemma apply_received row t t' :
  applied config row t t' -> times_received (times t') = times_received (times t).
Proof. intros Ha. rewrite (ap_times _ _ _ _ Ha). unfold milestone. by destruct (event row). Qed.

Lemma apply_relevant row t t' : applied config row t t' -> relevant_at t <= relevant_at t'.
Proof.
  intros Ha. pose proof (ap_evidence _ _ _ _ Ha) as Hev. unfold evidence_spec in Hev.
  repeat case_match; lia.
Qed.

Lemma apply_well_formed l row t t' :
  applied config row t t' -> well_formed l t -> well_formed (l ++ [row]) t'.
Proof.
  intros Ha [Hev Hlast Hids Hrel Href Hevd Hpend Hpur Hcl Hdec Hgr Hint]. split.
  - rewrite length_app, (proj1 (ap_events _ _ _ _ Ha)), Hev. cbn. lia.
  - rewrite last_snoc, (ap_last _ _ _ _ Ha). done.
  - rewrite (ap_key _ _ _ _ Ha). apply Forall_app. split; [done|].
    repeat constructor. apply (ap_row _ _ _ _ Ha).
  - rewrite (apply_received _ _ _ Ha). pose proof (apply_relevant _ _ _ Ha). lia.
  - by eapply apply_references.
  - by eapply apply_evidence.
  - intros i Hi. destruct (apply_pending _ _ _ _ Ha Hi) as (-> & _ & _ & Haw). by rewrite last_snoc.
  - intros Hp. by destruct (apply_purged _ _ _ Ha Hp) as (_ & _ & ? & ? & _).
  - by eapply apply_closed.
  - by eapply apply_decided.
  - by eapply apply_granted.
  - by eapply apply_intimate.
Qed.

Lemma replay_wf l t : Replay config l t -> well_formed l t.
Proof.
  induction 1 as [row t Hr|l t row t' _ IH Ha]; [by eapply received_well_formed|].
  apply apply_Ok in Ha. by eapply apply_well_formed.
Qed.

(** C15: Every ticket rebuilt from journal rows is well formed: whatever rows the
    reducer accepts, the event count, times and identity follow the rows,
    personal revisions are numbered without gaps, an evidence request is
    outstanding exactly while the ticket waits for it, an unfinished operation
    is the last row and fits the state, closure and decision are set exactly in
    the states that have them, an actioned or reversed ticket was granted on a
    ground, and an intimate-image report has left receipt only with its
    provisional protection committed. *)
Theorem replayed_tickets_well_formed l t : Replay config l t -> well_formed l t.
Proof. apply replay_wf. Qed.
End Invariant.

(** ** Histories *)

Section History.
Context `{C : Chrono} (config : ComplianceConfig).

Lemma completes_Ok row i :
  completes row i = Ok tt ->
  expected_completion i = Ok (event row) /\ intent_sequence row = sequence i /\
  reason_code row = reason_code i /\ asset_ids row = asset_ids i /\
  effective_at row = effective_at i /\ decision row = decision i.
Proof.
  unfold completes. intros Hc. apply bind_Ok in Hc as (e & He & Hr%refuse_if_Ok). bool_to_prop.
  repeat match goal with Hs : str_eqb _ _ = true |- _ => apply str_eqb_eq in Hs end.
  subst. by split_and!.
Qed.

Lemma expected_completion_event i e :
  expected_completion i = Ok e ->
  (e = Event_Purged -> event i = Event_PurgeIntent) /\
  (e = Event_RulesCommitted \/ e = Event_Actioned -> event i = Event_ActionIntent) /\
  (e = Event_Reversed -> event i = Event_ReversalIntent).
Proof.
  unfold expected_completion. destruct (event i); try done; intros [= <-]; try case_match; naive_solver.
Qed.

Lemma received_fresh row t :
  received row = Ok t -> pending t = None /\ purged t = false /\ provisional_committed t = false /\
  acknowledged_at (times t) = None.
Proof.
  unfold received. intros Hrec. apply bind_Ok in Hrec as (? & _ & Hrec).
  apply bind_Ok in Hrec as (? & _ & Hrec). apply bind_Ok in Hrec as (? & _ & Hrec).
  by apply bind_Ok in Hrec as (? & _ & [= <-]).
Qed.

(** The last row of a replay with unfinished work passed the guard of an intent. *)
Lemma pending_guarded l t i :
  Replay config l t -> pending t = Some i ->
  exists before t0, l = before ++ [i] /\ Replay config before t0 /\ applied config i t0 t /\
    ticket_last_at t = row_at i.
Proof.
  intros Hr Hp. destruct Hr as [row t Hrec|l t0 row t Hr Ha].
  - destruct (received_fresh _ _ Hrec) as [Hn _]. congruence.
  - apply apply_Ok in Ha. destruct (apply_pending _ _ _ _ _ Ha Hp) as (-> & _).
    exists l, t0. split_and!; [done..|]. apply Ha.
Qed.

Lemma purge_due_Ok t now :
  purge_due config t now = Ok true ->
  exists c due, closed_at (times t) = Some c /\ retention_due c (retention_months config) = Ok due /\ due <= now.
Proof.
  unfold purge_due. case_match; [done|]. intros Hp.
  apply bind_Ok in Hp as (c & Hc%ok_or_Ok & Hp). apply bind_Ok in Hp as (due & Hd & [= Hle]).
  apply Z.leb_le in Hle. eauto.
Qed.

(** The closure a ticket remembers is its latest [Closed] row. *)
Lemma closing_row l t c :
  Replay config l t -> closed_at (times t) = Some c ->
  exists opening closing waiting, l = opening ++ closing :: waiting /\ event closing = Event_Closed /\
    row_at closing = c /\ Forall (fun r : JournalRow => event r <> Event_Closed) waiting.
Proof.
  intros Hr. revert c. induction Hr as [row t Hrec|l t row t' _ IH Ha]; intros c Hc.
  { unfold received in Hrec. repeat (apply bind_Ok in Hrec as (? & _ & Hrec)). by injection Hrec as <-. }
  apply apply_Ok in Ha. rewrite (ap_times _ _ _ _ Ha) in Hc. destruct (decide (event row = Event_Closed)) as [He|He].
  - exists l, row, []. split_and!; [done|done| |constructor]. unfold milestone in Hc. rewrite He in Hc. by injection Hc.
  - assert (closed_at (times t) = Some c) as Hold by (unfold milestone in Hc; by destruct (event row)).
    destruct (IH c Hold) as (opening & closing & waiting & -> & Hcl & Hat & Hw).
    exists opening, closing, (waiting ++ [row]). split_and!; [by rewrite <- app_assoc|done|done|].
    apply Forall_app. split; [done|]. by repeat constructor.
Qed.

(** C14: Personal data is purged only after closure and the whole retention
    period, and a purge is final. The rows of a replayed ticket that is purged
    end with an intent followed by its completion; before them is the latest row
    that closed the ticket, and the configured calendar months counted from the
    time of that row had passed at the intent; and after the purge no row is
    accepted and nothing changes. *)
Theorem purge_waits_for_retention l t :
  Replay config l t -> purged t = true ->
  (exists opening closing waiting intent row due, l = opening ++ closing :: waiting ++ [intent; row] /\
     event closing = Event_Closed /\ Forall (fun r : JournalRow => event r <> Event_Closed) waiting /\
     event intent = Event_PurgeIntent /\ event row = Event_Purged /\
     closed_at (times t) = Some (row_at closing) /\
     retention_due (row_at closing) (retention_months config) = Ok due /\
     due <= row_at intent <= row_at row) /\
  forall r, exists e, apply config r t = (t, Err e).
Proof.
  intros Hr Hp. split.
  - destruct Hr as [row t Hrec|l t0 row t Hr Ha].
    { destruct (received_fresh _ _ Hrec) as (_ & Hn & _). congruence. }
    apply apply_Ok in Ha.
    destruct (apply_purged _ _ _ _ Ha Hp) as (He & _ & _ & _ & i & Hi & (Hx & _)%completes_Ok).
    apply expected_completion_event in Hx as (Hpi & _). specialize (Hpi He).
    destruct (pending_guarded l t0 i Hr Hi) as (before & t1 & -> & Hr1 & Ha1 & Hlast).
    pose proof (g_purge _ _ _ (guard_Ok _ _ _ _ (ap_guard _ _ _ _ Ha1)) Hpi) as (c & due & Hc & Hd & Hle)%purge_due_Ok.
    destruct (closing_row before t1 c Hr1 Hc) as (opening & closing & waiting & -> & Hcl & <- & Hw).
    exists opening, closing, waiting, i, row, due.
    split_and!; [by rewrite <- !app_assoc|done..| |done|done|].
    + rewrite (ap_times _ _ _ _ Ha). unfold milestone. rewrite He.
      rewrite (ap_times _ _ _ _ Ha1). unfold milestone. by rewrite Hpi.
    + rewrite <- Hlast. apply Ha.
  - intros r. unfold apply, mbind, method_bind, inspect. destruct (successor (state t) (event r)); [|eauto].
    rewrite Hp, orb_true_r. cbn. eauto.
Qed.

(** A rule installation for reported assets, effective from receipt on, was
    prepared and completed by [bound]. *)
Definition protected (l : list JournalRow) (t : Ticket) (bound : Z) : Prop :=
  exists before intent row after, l = before ++ intent :: row :: after /\
    event intent = Event_ActionIntent /\ event row = Event_RulesCommitted /\
    asset_ids row = asset_ids intent /\ asset_ids row <> [] /\
    effective_at row = effective_at intent /\ times_received (times t) <= effective_at row /\
    row_at row <= bound.

Lemma protected_later l t bound row t' bound' :
  protected l t bound -> times_received (times t') = times_received (times t) -> bound <= bound' ->
  protected (l ++ [row]) t' bound'.
Proof.
  intros (before & i & r & after & -> & Hi & Hr & Ha & Hne & He & Hrec & Hb) Ht Hle.
  exists before, i, r, (after ++ [row]). rewrite <- app_assoc, Ht. split_and!; (done || lia).
Qed.

Lemma action_allowed_Ok t row :
  action_allowed t row = true -> asset_ids row <> [] /\ times_received (times t) <= effective_at row.
Proof.
  unfold action_allowed. intros Ha%negb_true_iff. apply orb_false_iff in Ha as [Ha Heff%Z.ltb_ge].
  apply orb_false_iff in Ha as [_ Hne%is_empty_false]. done.
Qed.

Lemma provisional_protected l t :
  Replay config l t -> provisional_committed t = true -> protected l t (ticket_last_at t).
Proof.
  induction 1 as [row t Hrec|l t row t' Hr IH Ha]; intros Hp.
  { destruct (received_fresh _ _ Hrec) as (_ & _ & Hn & _). congruence. }
  apply apply_Ok in Ha. destruct (provisional_committed t) eqn:Hpt.
  { apply (protected_later l t (ticket_last_at t)); [by apply IH|by eapply apply_received|].
    rewrite (ap_last _ _ _ _ Ha). apply Ha. }
  pose proof (ap_operation _ _ _ _ Ha) as Ho. unfold operation_spec in Ho. rewrite Hpt, Hp in Ho.
  destruct (event_in (event row) intents); [by destruct Ho as (_ & _ & _ & _ & ?)|].
  destruct (event_in (event row) completions); [|by destruct Ho as (_ & _ & ?)].
  destruct Ho as (i & Hi & (Hx & _ & _ & Has & Heff & _)%completes_Ok & _ & _ & Hc).
  symmetry in Hc. apply andb_true_iff in Hc as [Hc%bool_decide_eq_true _].
  apply expected_completion_event in Hx as (_ & Hact & _). specialize (Hact (or_introl Hc)).
  destruct (pending_guarded l t i Hr Hi) as (before & t0 & -> & _ & Ha0 & _).
  pose proof (g_action _ _ _ (guard_Ok _ _ _ _ (ap_guard _ _ _ _ Ha0)) Hact) as [Hne Hrec]%action_allowed_Ok.
  exists before, i, row, []. rewrite <- app_assoc, (apply_received _ _ _ _ Ha), (apply_received _ _ _ _ Ha0).
  rewrite Has, Heff, (ap_last _ _ _ _ Ha). by split_and!.
Qed.

(** An intimate-image report is acknowledged only after its protection. When
    a replayed intimate-image ticket carries an acknowledgement, an earlier
    pair of rows prepared and completed the rule for its reported assets, with
    an activation no earlier than receipt, at or before the acknowledgement. *)
Theorem intimate_acknowledged_after_protection l t acknowledged :
  Replay config l t -> route t = Route_IntimateImages ->
  acknowledged_at (times t) = Some acknowledged -> protected l t acknowledged.
Proof.
  induction 1 as [row t Hrec|l t row t' Hr IH Ha]; intros Hroute Hack.
  { destruct (received_fresh _ _ Hrec) as (_ & _ & _ & Hn). congruence. }
  apply apply_Ok in Ha. rewrite (ap_route _ _ _ _ Ha) in Hroute.
  rewrite (ap_times _ _ _ _ Ha) in Hack. unfold milestone in Hack.
  destruct (decide (event row = Event_Acknowledged)) as [He|He].
  - rewrite He in Hack. injection Hack as <-.
    pose proof (g_acknowledged _ _ _ (guard_Ok _ _ _ _ (ap_guard _ _ _ _ Ha)) He Hroute) as Hp.
    apply (protected_later l t (ticket_last_at t));
      [by apply provisional_protected|by eapply apply_received|apply Ha].
  - apply (protected_later l t acknowledged); [|by eapply apply_received|done].
    apply IH; [done|]. by destruct (event row).
Qed.

(** ** Data-rights deadlines *)

Lemma extension_refused_Ok t row :
  extension_refused t row = Ok false ->
  route t = Route_DataRights /\ extended t = false /\ relevant_at t <= row_at row /\
  exists due, data_rights_due (relevant_at t) false = Ok due /\ row_at row <= due.
Proof.
  unfold extension_refused, extension_window. case_match eqn:Hc; [done|]. bool_to_prop.
  destruct (Z.ltb_spec (row_at row) (relevant_at t)); [done|].
  destruct (data_rights_due (relevant_at t) false) as [due|]; cbn; [|done].
  intros [= Hle%negb_false_iff%Z.leb_le]. eauto 6.
Qed.

Lemma data_rights_due_mono `{!ChronoLaws C} relevant due due' :
  data_rights_due relevant false = Ok due -> data_rights_due relevant true = Ok due' -> due <= due'.
Proof.
  change (data_rights_due relevant false) with (add_months relevant 1).
  change (data_rights_due relevant true) with (add_months relevant 3). intros Hd Hd'.
  apply bind_Ok in Hd as (? & _ & Hd%ok_or_Ok). apply bind_Ok in Hd' as (? & _ & Hd'%ok_or_Ok).
  eapply add_months_mono; [|exact Hd|exact Hd']. lia.
Qed.

(** A data-rights deadline is extended at most once per relevant time and
    only by a timely notice. An accepted extension notice is dated no later
    than the deadline then in force, the ticket's deadline afterwards is the
    extended one and not earlier, and a second notice is refused until an
    evidence reply moves the relevant time. *)
Theorem extension_is_timely_and_single `{!ChronoLaws C} row t t' :
  apply config row t = (t', Ok tt) -> event row = Event_ExtensionNotified ->
  exists due, deadline t = Ok (Some due) /\ row_at row <= due /\
    deadline t' = Some <$> data_rights_due (relevant_at t) true /\
    (forall due', deadline t' = Ok (Some due') -> due <= due') /\
    forall (next : JournalRow) t'', event next = Event_ExtensionNotified -> apply config next t' <> (t'', Ok tt).
Proof.
  intros Ha He. apply apply_Ok in Ha.
  pose proof (g_extension _ _ _ (guard_Ok _ _ _ _ (ap_guard _ _ _ _ Ha)) He) as
    (Hroute & Hext & Hrel & due & Hdue & Hle)%extension_refused_Ok.
  pose proof (ap_evidence _ _ _ _ Ha) as Hev. unfold evidence_spec in Hev. rewrite He in Hev. destruct Hev as [Hrel' _].
  pose proof (ap_extended _ _ _ _ Ha) as Hx. rewrite bool_decide_eq_true_2 in Hx by done.
  assert (extended t' = true) as Hext'.
  { unfold extended. rewrite Hx, Hrel'. by apply bool_decide_eq_true_2. }
  assert (deadline t' = Some <$> data_rights_due (relevant_at t) true) as Hd'.
  { unfold deadline. by rewrite (ap_route _ _ _ _ Ha), Hroute, Hext', Hrel'. }
  exists due. split_and!; [|done|done| |].
  - unfold deadline. by rewrite Hroute, Hext, Hdue.
  - intros due' Hdd. rewrite Hd' in Hdd. destruct (data_rights_due (relevant_at t) true) as [d|] eqn:Hd; [|done].
    injection Hdd as <-. by eapply data_rights_due_mono.
  - intros next t'' Hn Hap%apply_Ok.
    pose proof (g_extension _ _ _ (guard_Ok _ _ _ _ (ap_guard _ _ _ _ Hap)) Hn) as
      (_ & Hf & _)%extension_refused_Ok. congruence.
Qed.
End History.

(** ** Concrete replays *)

Definition replay `{Chrono} (config : ComplianceConfig) (first : JournalRow) (l : list JournalRow)
    : cres Ticket :=
  t ← received first;
  try_fold (fun t row =>
    match apply config row t with (t', Ok _) => Ok t' | (_, Err e) => Err e end) t l.

Lemma replay_Replay `{Chrono} config first l t :
  replay config first l = Ok t -> Replay config (first :: l) t.
Proof.
  unfold replay. intros Hr. apply bind_Ok in Hr as (t0 & Hrec & Hf).
  assert (Replay config [first] t0) as Hr0 by (by constructor). clear Hrec.
  change (first :: l) with ([first] ++ l). revert Hr0 Hf. generalize [first] as pre. revert t0.
  induction l as [|row l IH]; intros t0 pre Hr0 Hf; cbn in Hf.
  - injection Hf as <-. by rewrite app_nil_r.
  - destruct (apply config row t0) as [t1 [[]|]] eqn:Ha; [|done].
    apply (IH t1 (pre ++ [row])) in Hf; [|by econstructor]. by rewrite <- app_assoc in Hf.
Qed.

Module TransitionsWitness.
Import ChronoReference.

Definition row (seq at_ : Z) (ev : EventName) (kind : Route) (st : TicketState)
    (payload intent : Z) (dec reason assets : str) (eff : Z) : JournalRow := {|
  unsigned := {| format_version := 1; sequence := seq; previous_hash := []; row_at := at_;
    received_at := 100; event := ev; ticket_id := replicate 64 97; row_route := as_str kind;
    row_requester := as_str RequesterType_SelfPerson; row_state := as_str st;
    actor := lit "system.intake"; decision := dec; reason_code := reason; policy_version := [];
    asset_ids := assets; payload_sequence := payload; commitment := lit "c";
    intent_sequence := intent; effective_at := eff; related_ticket_id := []; record_ref := [];
    list_version := []; url_count := 0; host_count := 0; quarantined_bytes := 0;
    quarantine_hash := [] |};
  row_hash := [] |}.

Definition intimate := Route_IntimateImages.
Definition grounds := lit "intimate_images".
Definition first : JournalRow :=
  row 1 100 Event_Received intimate TicketState_Received 1 0 [] [] [] (-1).
(** Receipt, provisional rule, acknowledgement, refusal, closure and purge. *)
Definition history : list JournalRow :=
  [row 2 100 Event_ActionIntent intimate TicketState_Received 1 2 [] grounds (lit "a") 100;
   row 3 101 Event_RulesCommitted intimate TicketState_Received 0 2 [] grounds (lit "a") 100;
   row 4 102 Event_Acknowledged intimate TicketState_Acknowledged 0 0 [] [] [] (-1);
   row 5 103 Event_Queued intimate TicketState_Queued 0 0 [] [] [] (-1);
   row 6 150 Event_Decided intimate TicketState_Decided 2 0 (lit "refused") [] [] (-1);
   row 7 200 Event_Closed intimate TicketState_Closed 3 0 [] [] [] (-1);
   row 8 100000000 Event_PurgeIntent intimate TicketState_Closed 0 8 [] [] [] (-1);
   row 9 100000001 Event_Purged intimate TicketState_Closed 0 8 [] [] [] (-1)].

(** A data-rights request, extended while it waits for identity evidence. *)
Definition rights := Route_DataRights.
Definition rights_first : JournalRow :=
  row 1 100 Event_Received rights TicketState_Received 1 0 [] [] [] (-1).
Definition rights_history : list JournalRow :=
  [row 2 101 Event_Acknowledged rights TicketState_Acknowledged 0 0 [] [] [] (-1);
   row 3 102 Event_Queued rights TicketState_Queued 0 0 [] [] [] (-1);
   row 4 103 Event_IdentityRequested rights TicketState_IdentityPending 2 0 [] [] [] (-1)].
Definition notice : JournalRow :=
  row 5 104 Event_ExtensionNotified rights TicketState_IdentityPending 3 0 [] [] [] (-1).

(** The facts of a concrete replay, by evaluation. *)
Definition purged_ticket (r : cres Ticket) : bool :=
  match r with
  | Ok t => purged t && bool_decide (route t = intimate) &&
            bool_decide (acknowledged_at (times t) = Some 102)
  | Err _ => false
  end.
Lemma history_purged : purged_ticket (replay ComplianceConfig_default first history) = true.
Proof. vm_compute. reflexivity. Qed.

Lemma replayed_tickets_well_formed_witness :
  exists t, replay ComplianceConfig_default first history = Ok t /\ well_formed (first :: history) t.
Proof.
  pose proof history_purged as Hp. destruct (replay _ first history) as [t|] eqn:E; [|discriminate Hp].
  exists t. split; [reflexivity|].
  apply (replayed_tickets_well_formed ComplianceConfig_default). by apply replay_Replay.
Defined.

Lemma purge_waits_for_retention_witness :
  exists t, replay ComplianceConfig_default first history = Ok t /\
    forall r, exists e, apply ComplianceConfig_default r t = (t, Err e).
Proof.
  pose proof history_purged as Hp. destruct (replay _ first history) as [t|] eqn:E; [|discriminate Hp].
  exists t. split; [reflexivity|]. cbn in Hp. bool_to_prop.
  apply (purge_waits_for_retention ComplianceConfig_default (first :: history) t); [|done].
  by apply replay_Replay.
Defined.

Lemma intimate_acknowledged_after_protection_witness :
  exists t, replay ComplianceConfig_default first history = Ok t /\ protected (first :: history) t 102.
Proof.
  pose proof history_purged as Hp. destruct (replay _ first history) as [t|] eqn:E; [|discriminate Hp].
  exists t. split; [reflexivity|]. cbn in Hp. bool_to_prop.
  apply (intimate_acknowledged_after_protection ComplianceConfig_default); [|done|done].
  by apply replay_Replay.
Defined.

Lemma extension_is_timely_and_single_witness :
  exists t t' due, replay ComplianceConfig_default rights_first rights_history = Ok t /\
    apply ComplianceConfig_default notice t = (t', Ok tt) /\ deadline t = Ok (Some due) /\ 104 <= due.
Proof.
  assert (match replay ComplianceConfig_default rights_first rights_history with
          | Ok t => is_ok (apply ComplianceConfig_default notice t).2 | Err _ => false end = true) as Hp
    by (vm_compute; reflexivity).
  destruct (replay _ rights_first rights_history) as [t|]; [|discriminate Hp].
  destruct (apply ComplianceConfig_default notice t) as [t' [[]|]] eqn:Ha; [|discriminate Hp].
  destruct (extension_is_timely_and_single ComplianceConfig_default notice t t' Ha eq_refl)
    as (due & Hd & Hle & _).
  exists t, t', due. split_and!; [reflexivity|exact Ha|exact Hd|exact Hle].
Defined.
End TransitionsWitness.
