(* ===== verification/Listed.v ===== *)
(** * Hash-only URL and host lists ([compliance/listed.rs])

    The matcher that denies a listed URL, its host or a parent domain of it
    without holding any of them in clear. The request-local cache of host
    hashes is threaded as state. *)

From S2P Require Import Prelude Text Externals Compliance ComplianceModel JournalRow.

#[local] Open Scope Z_scope.

Record ListedMetadata := {
  metadata_version : str;
  metadata_urls : Z;
  metadata_hosts : Z;
}.
Record ListedData := {
  listed_version : str;
  url_hashes : list Hex64;
  listed_hosts : list Hex64;
}.
Record ListedMatcher := {
  data : ListedData;
  urls : gset str;
  hosts : gset str;
}.
Abbreviation HostCache := (gmap str (list str)).

Definition ListedMatcher_empty : ListedMatcher := {|
  data := {| listed_version := []; url_hashes := []; listed_hosts := [] |};
  urls := ∅; hosts := ∅ |}.

Definition from_data (d : ListedData) (cap : Z) : cres ListedMatcher :=
  _ ← if is_empty (listed_version d)
      then refuse_if (negb (is_empty (url_hashes d)) || negb (is_empty (listed_hosts d)))
             RulesUnavailable
      else map_err RulesUnavailable (text (listed_version d) Key_Slug Class_Slug);
  count ← ok_or (u64_checked_add (Z.of_nat (length (url_hashes d)))
                   (Z.of_nat (length (listed_hosts d)))) RulesUnavailable;
  _ ← map_err RulesUnavailable
        (validate_range count 0 (Z.min cap (spec_max (spec Key_ListEntries))));
  _ ← refuse_if (negb (windows2_all str_ltb (url_hashes d)) ||
                 negb (windows2_all str_ltb (listed_hosts d))) RulesUnavailable;
  let urls : gset str := list_to_set (url_hashes d) in
  let hosts : gset str := list_to_set (listed_hosts d) in
  _ ← refuse_if (negb (bool_decide (urls ## hosts))) RulesUnavailable;
  Ok {| data := d; urls := urls; hosts := hosts |}.

Definition metadata (m : ListedMatcher) : ListedMetadata := {|
  metadata_version := listed_version (data m);
  metadata_urls := Z.of_nat (size (urls m));
  metadata_hosts := Z.of_nat (size (hosts m)) |}.

Definition ch_dot : char := 46.

Section Listed.
Context `{U : UrlOps} `{D : Digest}.

(** The private list file, decoded: [serde_json] is a parameter. *)
Record FileSet := {
  set_version : Z;
  set_name : str;
  set_urls : list Hex64;
  set_hosts : list Hex64;
}.
Definition ListedMatcher_load (c : ComplianceConfig) (readable hook : bool) (file : list Z)
    (from_slice : list Z -> option FileSet) : cres ListedMatcher :=
  match listed_hashes_file c with
  | None => Ok ListedMatcher_empty
  | Some _ =>
      _ ← refuse_if (negb readable) RulesUnavailable;
      let cap := Z.min (spec_max (spec Key_ListFile)) (max_rules_bytes c) in
      _ ← map_err RulesUnavailable (validate_range (Z.of_nat (length file)) 0 cap);
      _ ← refuse_if (negb hook) RulesUnavailable;
      loaded ← ok_or (from_slice file) RulesUnavailable;
      _ ← refuse_if (negb (set_version loaded =? 1)) RulesUnavailable;
      _ ← map_err RulesUnavailable (text (set_name loaded) Key_Slug Class_Slug);
      from_data {| listed_version := set_name loaded; url_hashes := set_urls loaded;
                   listed_hosts := set_hosts loaded |} (max_rules c)
  end.

(** The loop of [host_hashes]: the host, then its parents while it is a domain. *)
Fixpoint hashes_from (fuel : nat) (suffix : str) (domain : bool) : list Hex64 :=
  match fuel with
  | 0%nat => []
  | S fuel' =>
      sha256 [as_bytes suffix] ::
      match (if domain then split_once ch_dot suffix else None) with
      | Some (_, parent) => hashes_from fuel' parent domain
      | None => []
      end
  end.
Definition host_hashes (host : str) (domain : bool) : list Hex64 :=
  hashes_from (S (length host)) host domain.

(** [matches!(host, url::Host::Domain(_))] *)
Definition is_domain (u : url) : bool := bool_decide (url_domain u <> None).

(** [host.to_string()], without one final dot for a domain. *)
Definition host_spelling (u : url) (host : str) : str :=
  if is_domain u then default host (strip_suffix [ch_dot] host) else host.

Definition denies (m : ListedMatcher) (document : DocumentKey) (canonical_url : str)
    (cache : HostCache) : bool * HostCache :=
  if bool_decide (document ∈ urls m) then (true, cache)
  else match url_parse canonical_url with
  | None => (true, cache)
  | Some parsed =>
      match url_host_str parsed with
      | None => (true, cache)
      | Some host =>
          let domain := is_domain parsed in
          let spelling := host_spelling parsed host in
          let hashes := default (host_hashes spelling domain) (cache !! spelling) in
          let cache := <[spelling := hashes]> cache in
          let full := match hashes with h :: _ => bool_decide (h ∈ hosts m) | [] => false end in
          (full || existsb (fun parent => bool_decide (parent ∈ hosts m)) (drop 1 hashes), cache)
      end
  end.

(** ** What is denied *)

(** The host itself and, for a domain, what follows any of its dots. *)
Definition label_suffix (domain : bool) (host s : str) : Prop :=
  s = host \/ (domain = true /\ exists p, host = p ++ ch_dot :: s).

Lemma hashes_from_spec fuel host domain h :
  (length host < fuel)%nat ->
  h ∈ hashes_from fuel host domain <-> exists s, label_suffix domain host s /\ h = sha256 [as_bytes s].
Proof.
  revert host; induction fuel as [|fuel IH]; intros host Hf; [lia|]. cbn [hashes_from].
  rewrite elem_of_cons. unfold label_suffix.
  destruct domain; [|split; [intros [->|Hn]; [eauto|by apply elem_of_nil in Hn]|intros (s & [->|[? _]] & ->); by left]].
  destruct (split_once ch_dot host) as [[a parent]|] eqn:Hs.
  - apply split_once_Some in Hs as [-> Ha%contains_char_false]. rewrite length_app in Hf. cbn in Hf.
    rewrite IH by lia. unfold label_suffix. split.
    + intros [->|(s & [->|(_ & p & ->)] & ->)]; [eauto|eauto 6|].
      exists s. split; [|done]. right. split; [done|]. exists (a ++ ch_dot :: p).
      by rewrite <- app_assoc.
    + intros (s & [->|(_ & p & E)] & ->); [by left|right]. exists s. split; [|done].
      destruct (split_at_first _ _ _ _ _ Ha E) as [[_ ->]|(p' & _ & ->)]; [by left|right; eauto].
  - apply split_once_None in Hs. split.
    + intros [->|Hn]; [eauto|by apply elem_of_nil in Hn].
    + intros (s & [->|(_ & p & ->)] & ->); [by left|]. exfalso. apply Hs. set_solver.
Qed.

(** Every cached entry is what [host_hashes] computes for such a host. *)
Definition cache_ok (cache : HostCache) : Prop :=
  forall spelling hashes, cache !! spelling = Some hashes ->
    exists u host, url_host_str u = Some host /\ spelling = host_spelling u host /\
      hashes = host_hashes spelling (is_domain u).

Lemma cache_ok_empty : cache_ok ∅.
Proof. intros s hs. by rewrite lookup_empty. Qed.

Section Spellings.
(** The URL standard reads every host that ends in a number as an address and
    writes IPv6 addresses in brackets: no domain is spelled like an address. *)
Context (spelling_kind : forall u v host host',
  url_host_str u = Some host -> url_host_str v = Some host' ->
  host_spelling u host = host_spelling v host' -> is_domain u = is_domain v).

Lemma cached_hashes cache u host :
  cache_ok cache -> url_host_str u = Some host ->
  default (host_hashes (host_spelling u host) (is_domain u)) (cache !! host_spelling u host) =
    host_hashes (host_spelling u host) (is_domain u).
Proof.
  intros Hc Hu. destruct (cache !! host_spelling u host) as [hashes|] eqn:Hl; [|done]. cbn.
  destruct (Hc _ _ Hl) as (v & host' & Hv & Hs & ->). by rewrite (spelling_kind u v host host').
Qed.

Lemma hashes_split (m : ListedMatcher) hashes :
  match hashes with h :: _ => bool_decide (h ∈ hosts m) | [] => false end ||
    existsb (fun parent => bool_decide (parent ∈ hosts m)) (drop 1 hashes) = true <->
  exists h, h ∈ hashes /\ h ∈ hosts m.
Proof.
  rewrite orb_true_iff, existsb_exists. destruct hashes as [|h hashes]; cbn.
  - split; [intros [?|(? & [] & _)]; done|]. intros (h & Hh & _). by apply elem_of_nil in Hh.
  - rewrite bool_decide_eq_true. setoid_rewrite bool_decide_eq_true. setoid_rewrite elem_of_cons.
    setoid_rewrite <- list_elem_of_In. naive_solver.
Qed.

(** A list denies exactly the listed URLs, the listed hosts and everything
    below a listed domain, whatever the request cached before. The answer is
    yes if and only if the document's hash is listed, or the URL has no host to
    judge (it fails closed), or the hash of the host or, for a domain, of a
    parent at a label boundary is listed; the cache stays correct, and the loop
    over the parents always ends. *)
Theorem listed_denies_subdomains m document canonical cache :
  cache_ok cache ->
  let (denied, cache') := denies m document canonical cache in
  cache_ok cache' /\
  (denied = true <->
   document ∈ urls m \/
   (url_parse canonical ≫= url_host_str) = None \/
   exists u host s, url_parse canonical = Some u /\ url_host_str u = Some host /\
     label_suffix (is_domain u) (host_spelling u host) s /\ sha256 [as_bytes s] ∈ hosts m).
Proof.
  intros Hc. unfold denies. case_bool_decide as Hd; [split; [done|tauto]|].
  destruct (url_parse canonical) as [u|] eqn:Hp; [|split; [done|tauto]].
  change (Some u ≫= url_host_str) with (url_host_str u).
  destruct (url_host_str u) as [host|] eqn:Hh; [|split; [done|tauto]]. cbv zeta.
  rewrite (cached_hashes cache u host Hc Hh). split.
  - intros s hs. rewrite lookup_insert. case_decide as E; [|apply Hc].
    intros [= <-]. exists u, host. subst. done.
  - rewrite hashes_split. unfold host_hashes.
    setoid_rewrite hashes_from_spec; [|lia]. split.
    + intros (h & (s & Hs & ->) & Hin). right; right. eauto 8.
    + intros [?|[?|(v & host' & s & [= <-] & Hh' & Hs & Hin)]]; [done|done|].
      rewrite Hh in Hh'. injection Hh' as <-. eauto.
Qed.
End Spellings.
End Listed.

Module ListedWitness.
Import UrlReference JsonReference.

Definition address_like (h : str) : bool :=
  forallb (fun c => is_ascii_digit c || (c =? 46)) h || starts_with [91] h.

Lemma address_like_app s : address_like (s ++ [ch_dot]) = address_like s.
Proof. unfold address_like. rewrite forallb_app. cbn. rewrite !andb_true_r. by destruct s. Qed.

Lemma reference_is_domain w h : r_host w = Some h -> is_domain w = negb (address_like h).
Proof.
  intros Hw. unfold is_domain. change (@url_domain url_reference w) with (r_host w ≫= fun h => if address_like h then None else Some h).
  rewrite Hw. cbn [mbind option_bind].
  by destruct (address_like h).
Qed.

Lemma reference_spelling w h :
  r_host w = Some h -> address_like (host_spelling w h) = address_like h.
Proof.
  intros Hw. unfold host_spelling. rewrite (reference_is_domain w h Hw).
  destruct (address_like h) eqn:Hn; [done|]. unfold negb.
  destruct (strip_suffix [ch_dot] h) as [s|] eqn:Hs; [|done].
  apply strip_suffix_Some in Hs as ->. by rewrite address_like_app in Hn.
Qed.

Lemma reference_spelling_kind u v host host' :
  url_host_str u = Some host -> url_host_str v = Some host' ->
  host_spelling u host = host_spelling v host' -> is_domain u = is_domain v.
Proof.
  intros Hu Hv E.
  rewrite (reference_is_domain u host Hu), (reference_is_domain v host' Hv).
  by rewrite <- (reference_spelling u host Hu), <- (reference_spelling v host' Hv), E.
Qed.

Definition list_of (host : string) : ListedMatcher := {|
  data := {| listed_version := lit "v1"; url_hashes := [];
             listed_hosts := [sha256 [as_bytes (lit host)]] |};
  urls := ∅; hosts := {[sha256 [as_bytes (lit host)]]} |}.

Lemma listed_denies_subdomains_witness :
  (denies (list_of "example.org") (lit "d") (lit "https://a.b.example.org/x") ∅).1 = true.
Proof.
  pose proof (listed_denies_subdomains reference_spelling_kind (list_of "example.org") (lit "d")
    (lit "https://a.b.example.org/x") ∅ cache_ok_empty) as Hw.
  destruct (denies _ _ _ _) as [denied cache] eqn:E. destruct Hw as [_ Hw]. apply Hw. right; right.
  assert (url_parse (lit "https://a.b.example.org/x") <> None) as Hp by (vm_compute; discriminate).
  destruct (url_parse _) as [u|] eqn:Hu; [|done].
  exists u, (lit "a.b.example.org"), (lit "example.org").
  vm_compute in Hu. injection Hu as <-. split_and!; [reflexivity|vm_compute; reflexivity| |].
  - right. split; [vm_compute; reflexivity|]. exists (lit "a.b"). vm_compute. reflexivity.
  - change (sha256 [as_bytes (lit "example.org")] ∈ ({[sha256 [as_bytes (lit "example.org")]]} : gset str)).
    by apply elem_of_singleton_2.
Defined.
End ListedWitness.
