(* ===== verification/Rules.v ===== *)
(** * Serving rules ([compliance/rules.rs])

    The snapshot of reversible serving decisions: name sets, rules, reversal
    markers, the per-document index the request path reads, the deltas that
    change a snapshot, and the store that replaces it on disk. *)

From S2P Require Import Prelude Text Externals Disk Compliance ComplianceModel JournalRow Listed.

#[local] Open Scope Z_scope.

(** ** Data *)

Inductive RuleCountry := Country_Uk | Country_NonUk | Country_Unknown.
Record RuleContext := { country : RuleCountry; is_child : bool; uk_measures : bool }.
Inductive RuleKind := Kind_Global | Kind_Name.
#[export] Instance RuleKind_eq_dec : EqDecision RuleKind.
Proof. solve_decision. Defined.

Record NameSet := { salt : Hex64; tokens : list Hex64 }.
#[export] Instance NameSet_eq_dec : EqDecision NameSet.
Proof. solve_decision. Defined.

Record Rule := {
  rule_key : str;
  rule_ticket : TicketId;
  rule_document : DocumentKey;
  rule_ground : Ground;
  rule_kind : RuleKind;
  effective_at : Z;
  intent_sequence : Z;
  name_sets : list NameSet;
}.
#[export] Instance Rule_eq_dec : EqDecision Rule.
Proof. solve_decision. Defined.
Record Marker := {
  marker_document : DocumentKey;
  marker_ground : Ground;
  reversed_at : Z;
  marker_sequence : Z;
}.
#[export] Instance Marker_eq_dec : EqDecision Marker.
Proof. solve_decision. Defined.
Record SnapshotFile := {
  format_version : Z;
  generation : Z;
  rules : list Rule;
  do_not_reapply : list Marker;
  listed_data : ListedData;
}.
Record RulesSnapshot := {
  file : SnapshotFile;
  by_document : gmap DocumentKey (list nat);
  listed : ListedMatcher;
  unavailable : bool;
}.
Inductive RuleDelta :=
| Install (ticket : TicketId) (documents : list DocumentKey) (ground : Ground)
    (effective sequence : Z) (names : list NameSet)
| Remove (ticket : TicketId)
| Reverse (ticket : TicketId) (documents : list DocumentKey) (ground : Ground)
    (at_ sequence : Z).

(** The frozen tokenizer pipeline, as the list of token texts of its stream,
    and [char::is_alphanumeric]. *)
Class Tokenizing := {
  token_stream : str -> list str;
  is_alphanumeric : char -> bool;
}.

(** A slice access that panics is [None]; [any] and [all] stop at the first
    element that decides them. *)
Fixpoint any_opt {A} (f : A -> option bool) (l : list A) : option bool :=
  match l with
  | [] => Some false
  | x :: l' => match f x with Some false => any_opt f l' | answer => answer end
  end.
Fixpoint all_opt {A} (f : A -> option bool) (l : list A) : option bool :=
  match l with
  | [] => Some true
  | x :: l' => match f x with Some true => all_opt f l' | answer => answer end
  end.

(** The contents of a [BTreeSet<String>] in its order. *)
Definition btree_elements (s : gset str) : list str := stable_sort str_cmp (elements s).

(** [serde_json] at the types of the snapshot file. *)
Class RulesJson := {
  rules_to_vec : SnapshotFile -> option (list Z);
  rules_from_slice : list Z -> option SnapshotFile;
  listed_to_vec : ListedData -> option (list Z);
}.
(** Compact JSON is read back (white space after it is allowed) and
    determines the value; decoded identifiers went through their parser. *)
Definition ids_parsed (r : Rule) : Prop :=
  TicketId_parse (rule_ticket r) = Ok (rule_ticket r) /\
  DocumentKey_parse (rule_document r) = Ok (rule_document r).
Class RulesJsonLaws (J : RulesJson) : Prop := {
  rules_from_to f b :
    rules_to_vec f = Some b -> Forall ids_parsed (rules f) -> rules_from_slice (b ++ [ch_lf]) = Some f;
  rules_from_parsed b f : rules_from_slice b = Some f -> Forall ids_parsed (rules f);
  listed_to_vec_inj l l' b : listed_to_vec l = Some b -> listed_to_vec l' = Some b -> l = l';
}.

(** How one step of the file system or of a hook ends. *)
Inductive Outcome := Done | Failed | Panicked.
#[export] Instance Outcome_eq_dec : EqDecision Outcome.
Proof. solve_decision. Defined.

(** The steps of [RulesDisk::persist], and whether a failed creation left the
    leaf behind. *)
Record PersistRun := {
  hook_open : Outcome; create_new : Outcome; leaf_left : bool;
  hook_write : Outcome; write_all : Outcome;
  hook_sync_file : Outcome; sync_all : Outcome;
  hook_rename : Outcome; rename : Outcome;
  hook_sync_directory : Outcome; sync_parent : Outcome;
  remove_file : bool;
}.

(** The snapshot directory: [snapshot.json] and the staging leaves. *)
Record RulesDisk := {
  snapshot_json : option (list Z);
  temporaries : gset str;
}.

Section Rules.
Context `{U : UrlOps} `{D : Digest} `{C : Chrono} `{T : Tokenizing}.

(** ** Names *)

Definition name_domain : list Z := as_bytes (lit "AVA619-NAME-v1") ++ [0].
Definition salt_bytes (salt : Hex64) : list Z := default [] (ok (decode_hex salt)).
Definition token_hash (salt : Hex64) (token : str) : Hex64 :=
  sha256 [name_domain; salt_bytes salt; as_bytes token].
Definition query_tokens (text : str) : gset str := list_to_set (token_stream (lit " " ++ text)).
Definition name_tokens (name : str) : cres (gset str) :=
  _ ← text name Key_Name Class_Label;
  let tokens := query_tokens name in
  _ ← validate Key_NameTokens (Z.of_nat (size tokens));
  _ ← refuse_if (negb (existsb (existsb is_alphanumeric) (elements tokens))) InvalidInput;
  Ok tokens.
Definition NameSet_new (name : str) (salt : Hex64) : cres NameSet :=
  normalized ← name_tokens name;
  Ok {| salt := salt; tokens := btree_elements (set_map (token_hash salt) normalized) |}.
Definition NameSet_matches (n : NameSet) (query : gset str) : bool :=
  let query : gset str := set_map (token_hash (salt n)) query in
  forallb (fun token => bool_decide (token ∈ query)) (tokens n).
Definition NameSet_validate (n : NameSet) : cres unit :=
  _ ← validate Key_NameTokens (Z.of_nat (length (tokens n)));
  refuse_if (negb (windows2_all str_ltb (tokens n))) InvalidInput.

(** ** The request path *)

Definition rule_applies (query : gset str) (now : Z) (r : Rule) : bool :=
  (effective_at r <=? now) &&
  match rule_kind r with
  | Kind_Global => true
  | Kind_Name => existsb (fun n => NameSet_matches n query) (name_sets r)
  end.

Definition allows (s : RulesSnapshot) (document : DocumentKey) (canonical_url : str)
    (query : gset str) (_context : RuleContext) (now : Z) (hosts : HostCache)
    : option bool * HostCache :=
  if unavailable s then (Some false, hosts)
  else
    let (denied, hosts) := denies (listed s) document canonical_url hosts in
    if denied then (Some false, hosts)
    else match by_document s !! document with
    | None => (Some true, hosts)
    | Some indices =>
        (negb <$> any_opt (fun index => rule_applies query now <$> rules (file s) !! index) indices,
         hosts)
    end.

Definition has_intent (s : RulesSnapshot) (ticket : TicketId) (documents : list DocumentKey)
    (ground : Ground) (sequence : Z) : bool :=
  forallb (fun document =>
    existsb (fun r =>
      str_eqb (rule_ticket r) ticket && str_eqb (rule_document r) document &&
      bool_decide (rule_ground r = ground) && (intent_sequence r =? sequence))
      (rules (file s)))
    documents.

(** [Ord] of the pair [(document_id, ground.as_str())]. *)
Definition key_cmp (a b : DocumentKey * str) : comparison :=
  match str_cmp a.1 b.1 with Eq => str_cmp a.2 b.2 | order => order end.
Definition key_ltb (a b : DocumentKey * str) : bool :=
  match key_cmp a b with Lt => true | _ => false end.
Definition marker_key (m : Marker) : DocumentKey * str := (marker_document m, as_str (marker_ground m)).

Definition marked (s : RulesSnapshot) (document : DocumentKey) (ground : Ground) : bool :=
  match binary_search_by (fun m => key_cmp (marker_key m) (document, as_str ground))
          (do_not_reapply (file s)) with
  | Some _ => true
  | None => false
  end.

Definition verifies (s : RulesSnapshot) (delta : RuleDelta) : option bool :=
  match delta with
  | Install ticket documents ground effective sequence names =>
      all_opt (fun document =>
        match by_document s !! document with
        | None => Some false
        | Some indices =>
            any_opt (fun index =>
              (fun r =>
                 str_eqb (rule_ticket r) ticket && bool_decide (rule_ground r = ground) &&
                 (intent_sequence r =? sequence) && (effective_at r <=? effective) &&
                 bool_decide (name_sets r = names)) <$> rules (file s) !! index) indices
        end) documents
  | Remove ticket => Some (negb (existsb (fun r => str_eqb (rule_ticket r) ticket) (rules (file s))))
  | Reverse ticket documents ground _ _ =>
      Some (negb (existsb (fun r => str_eqb (rule_ticket r) ticket) (rules (file s))) &&
            forallb (fun document => marked s document ground) documents)
  end.

(** ** Validation and the index *)

Definition rule_id (ticket : TicketId) (document : DocumentKey) (ground : Ground) : str :=
  ticket ++ lit ":" ++ document ++ lit ":" ++ as_str ground.

Definition validate_rule (r : Rule) : cres unit :=
  let is_name := bool_decide (rule_kind r = Kind_Name) in
  _ ← refuse_if
        (negb (str_eqb (rule_key r) (rule_id (rule_ticket r) (rule_document r) (rule_ground r))) ||
         negb (Bool.eqb is_name (bool_decide (rule_ground r = Ground_DataDelisting))) ||
         (bool_decide (rule_kind r = Kind_Global) && negb (is_empty (name_sets r))))
        RulesUnavailable;
  _ ← instant (effective_at r);
  _ ← validate_range (intent_sequence r) 1 u64_max;
  _ ← (if is_name then validate Key_RequiredNames (Z.of_nat (length (name_sets r))) else Ok tt);
  try_for_each NameSet_validate (name_sets r).
Definition validate_marker (m : Marker) : cres unit :=
  _ ← instant (reversed_at m);
  validate_range (marker_sequence m) 1 u64_max.
Definition validate_snapshot (f : SnapshotFile) : cres unit :=
  _ ← refuse_if
        (negb (format_version f =? 1) ||
         negb (windows2_all (fun a b => str_ltb (rule_key a) (rule_key b)) (rules f)) ||
         negb (windows2_all (fun a b => key_ltb (marker_key a) (marker_key b)) (do_not_reapply f)))
        RulesUnavailable;
  _ ← try_for_each validate_rule (rules f);
  try_for_each validate_marker (do_not_reapply f).

(** [for (index, rule) in file.rules.iter().enumerate()]. *)
Fixpoint index_from (index : nat) (rules : list Rule) (m : gmap DocumentKey (list nat))
    : gmap DocumentKey (list nat) :=
  match rules with
  | [] => m
  | r :: rules' =>
      index_from (S index) rules'
        (<[rule_document r := default [] (m !! rule_document r) ++ [index]]> m)
  end.

Section Configured.
Context (config : ComplianceConfig).

Definition rebuild (f : SnapshotFile) : cres RulesSnapshot :=
  _ ← validate_snapshot f;
  listed ← from_data (listed_data f) (max_rules config);
  Ok {| file := f; by_document := index_from 0 (rules f) ∅; listed := listed;
        unavailable := false |}.

(** ** Deltas *)

Definition set_rules (rs : list Rule) (s : RulesSnapshot) : RulesSnapshot := {|
  file := {| format_version := format_version (file s); generation := generation (file s);
             rules := rs; do_not_reapply := do_not_reapply (file s);
             listed_data := listed_data (file s) |};
  by_document := by_document s; listed := listed s; unavailable := unavailable s |}.
Definition set_markers (ms : list Marker) (s : RulesSnapshot) : RulesSnapshot := {|
  file := {| format_version := format_version (file s); generation := generation (file s);
             rules := rules (file s); do_not_reapply := ms;
             listed_data := listed_data (file s) |};
  by_document := by_document s; listed := listed s; unavailable := unavailable s |}.
Definition set_generation (n : Z) (f : SnapshotFile) : SnapshotFile := {|
  format_version := format_version f; generation := n; rules := rules f;
  do_not_reapply := do_not_reapply f; listed_data := listed_data f |}.
Definition set_listed (l : ListedData) (f : SnapshotFile) : SnapshotFile := {|
  format_version := format_version f; generation := generation f; rules := rules f;
  do_not_reapply := do_not_reapply f; listed_data := l |}.

(** [Vec::retain]. *)
Definition retain {A} (keep : A -> bool) (l : list A) : list A := filter (fun x => keep x = true) l.

Definition install_one (ticket : TicketId) (ground : Ground) (effective sequence : Z)
    (names : list NameSet) (s : RulesSnapshot) (document : DocumentKey) : cres RulesSnapshot :=
  _ ← refuse_if (marked s document ground) InvalidTransition;
  let id := rule_id ticket document ground in
  let earlier :=
    default effective
      (effective_at <$> List.find (fun r => str_eqb (rule_key r) id) (rules (file s))) in
  Ok (set_rules
        (retain (fun r => negb (str_eqb (rule_key r) id)) (rules (file s)) ++
         [{| rule_key := id; rule_ticket := ticket; rule_document := document;
             rule_ground := ground;
             rule_kind := if is_empty names then Kind_Global else Kind_Name;
             effective_at := Z.min earlier effective; intent_sequence := sequence;
             name_sets := names |}]) s).
Definition reverse_one (ground : Ground) (at_ sequence : Z) (s : RulesSnapshot)
    (document : DocumentKey) : RulesSnapshot :=
  if marked s document ground then s
  else set_markers
         (stable_sort (fun a b => key_cmp (marker_key a) (marker_key b))
            (do_not_reapply (file s) ++
             [{| marker_document := document; marker_ground := ground; reversed_at := at_;
                 marker_sequence := sequence |}])) s.
Definition apply_delta (s : RulesSnapshot) (delta : RuleDelta) : cres RulesSnapshot :=
  s ← match delta with
      | Install ticket documents ground effective sequence names =>
          try_fold (install_one ticket ground effective sequence names) s documents
      | Remove ticket =>
          Ok (set_rules (retain (fun r => negb (str_eqb (rule_ticket r) ticket)) (rules (file s))) s)
      | Reverse ticket documents ground at_ sequence =>
          let s :=
            set_rules (retain (fun r => negb (str_eqb (rule_ticket r) ticket)) (rules (file s))) s in
          Ok (foldl (reverse_one ground at_ sequence) s documents)
      end;
  Ok (set_rules (stable_sort (fun a b => str_cmp (rule_key a) (rule_key b)) (rules (file s))) s).

(** ** The store *)

Context `{J : RulesJson}.

Record PreparedRules := { prepared : RulesSnapshot; bytes : list Z }.

Definition prepare (s : RulesSnapshot) : cres PreparedRules :=
  count ← try_fold (fun sum n => ok_or (u64_checked_add sum n) Capacity) 0
            [Z.of_nat (length (rules (file s))); Z.of_nat (length (do_not_reapply (file s)));
             Z.of_nat (length (url_hashes (listed_data (file s))));
             Z.of_nat (length (listed_hosts (listed_data (file s))))];
  _ ← reserve 0 count (max_rules config) 0;
  encoded ← ok_or (rules_to_vec (file s)) RulesUnavailable;
  let bytes := encoded ++ [ch_lf] in
  _ ← reserve 0 (Z.of_nat (length bytes)) (max_rules_bytes config) 0;
  Ok {| prepared := s; bytes := bytes |}.

(** [RulesDisk::read]: [io] is whether opening, reading and the hook succeed. *)
Definition read (d : RulesDisk) (io : bool) (cap : Z) : cres SnapshotFile :=
  bytes ← ok_or (snapshot_json d) RulesUnavailable;
  _ ← refuse_if (negb io) RulesUnavailable;
  _ ← map_err RulesUnavailable (validate_range (Z.of_nat (length bytes)) 0 cap);
  snapshot ← ok_or (rules_from_slice bytes) RulesUnavailable;
  canonical ← ok_or (rules_to_vec snapshot) RulesUnavailable;
  _ ← refuse_if (negb (bool_decide (bytes = canonical ++ [ch_lf]))) RulesUnavailable;
  Ok snapshot.

(** The first step that is not done decides. *)
Fixpoint run_steps (steps : list Outcome) : Outcome :=
  match steps with [] => Done | Done :: steps' => run_steps steps' | bad :: _ => bad end.

Definition temp_name (pid sequence : Z) : str :=
  lit "snapshot." ++ dec pid ++ lit "." ++ dec sequence ++ lit ".tmp".

Definition persist (d : RulesDisk) (pid sequence : Z) (bytes : list Z) (run : PersistRun)
    : RulesDisk * bool * Outcome :=
  let path := temp_name pid sequence in
  let with_temp := {| snapshot_json := snapshot_json d; temporaries := {[path]} ∪ temporaries d |} in
  let without := {| snapshot_json := snapshot_json d; temporaries := temporaries d ∖ {[path]} |} in
  match hook_open run with
  | Done =>
      match (if bool_decide (path ∈ temporaries d) then Failed else create_new run) with
      | Done =>
          match run_steps [hook_write run; write_all run; hook_sync_file run; sync_all run;
                           hook_rename run; rename run] with
          | Done =>
              ({| snapshot_json := Some bytes; temporaries := temporaries d ∖ {[path]} |}, true,
               run_steps [hook_sync_directory run; sync_parent run])
          | Failed => (if remove_file run then without else with_temp, false, Failed)
          | Panicked => (with_temp, false, Panicked)
          end
      | bad => (if leaf_left run then with_temp else d, false, bad)
      end
  | bad => (d, false, bad)
  end.

(** [RulesDisk::sweep_owned_temps] over the directory's entries, each with
    whether opening and unlinking it succeed; [synced] is the last step. *)
Definition recognized (name : str) : bool := owned_temp_name name [lit "snapshot"].
Fixpoint sweep_entries (entries : list (str * bool)) (d : RulesDisk) : RulesDisk * bool :=
  match entries with
  | [] => (d, true)
  | (name, unlinked) :: entries' =>
      if negb (recognized name) then sweep_entries entries' d
      else if unlinked
      then sweep_entries entries'
             {| snapshot_json := snapshot_json d; temporaries := temporaries d ∖ {[name]} |}
      else (d, false)
  end.
Definition sweep_owned_temps (entries : list (str * bool)) (synced : bool) (d : RulesDisk)
    : RulesDisk * bool :=
  let (d, swept) := sweep_entries entries d in
  (d, swept && (synced || negb (existsb (fun e => recognized e.1) entries))).

Record RulesStore := { state : RulesSnapshot; disk : RulesDisk; observed_utc : Z }.

Definition fresh_file (l : ListedData) : SnapshotFile := {|
  format_version := 1; generation := 0; rules := []; do_not_reapply := []; listed_data := l |}.

(** The part of [RulesStore::open] after the directory was opened; a panic
    unwinds and no store is returned. *)
Definition open_swept (fresh io : bool) (d : RulesDisk) (l : ListedMatcher) (pid sequence : Z)
    (run : PersistRun) (utc : Z) : RulesDisk * cres RulesStore :=
  match
    (file ← (if fresh then Ok (fresh_file (data l)) else read d io (max_rules_bytes config));
     _ ← rebuild file;
     old ← ok_or (listed_to_vec (listed_data file)) RulesUnavailable;
     new ← ok_or (listed_to_vec (data l)) RulesUnavailable;
     let list_changed := negb (bool_decide (old = new)) in
     let file := set_listed (data l) file in
     file ← (if list_changed
             then next ← ok_or (u64_checked_add (generation file) 1) RulesUnavailable;
                  Ok (set_generation next file)
             else Ok file);
     snapshot ← rebuild file;
     ready ← prepare snapshot;
     Ok (ready, list_changed))
  with
  | Err e => (d, Err e)
  | Ok (ready, list_changed) =>
      let store d := {| state := prepared ready; disk := d; observed_utc := utc |} in
      if fresh || list_changed
      then match persist d pid sequence (bytes ready) run with
           | (d, _, Done) => (d, Ok (store d))
           | (d, _, _) => (d, Err RulesUnavailable)
           end
      else (d, Ok (store d))
  end.

(** [RulesStore::open]: [locked] is whether the owner lock was taken. *)
Definition store_open (fresh locked : bool) (entries : list (str * bool)) (synced io : bool)
    (d : RulesDisk) (l : ListedMatcher) (pid sequence : Z) (run : PersistRun) (utc : Z)
    : RulesDisk * cres RulesStore :=
  if negb locked then (d, Err RulesUnavailable)
  else
    let (d, swept) := sweep_owned_temps entries synced d in
    if swept then open_swept fresh io d l pid sequence run utc else (d, Err RulesUnavailable).

(** The returned second and the new observed second. *)
Definition serving_now (s : RulesStore) (utc : Z) : RulesStore * Z :=
  ({| state := state s; disk := disk s; observed_utc := Z.max (observed_utc s) utc |},
   Z.max (observed_utc s) utc).

Definition prepare_delta (s : RulesStore) (delta : RuleDelta) : cres PreparedRules :=
  _ ← refuse_if (unavailable (state s)) RulesUnavailable;
  candidate ← apply_delta (state s) delta;
  next ← ok_or (u64_checked_add (generation (file candidate)) 1) Capacity;
  snapshot ← rebuild (set_generation next (file candidate));
  prepare snapshot.

Definition set_unavailable (s : RulesSnapshot) : RulesSnapshot := {|
  file := file s; by_document := by_document s; listed := listed s; unavailable := true |}.

Definition commit (s : RulesStore) (p : PreparedRules) (pid sequence : Z) (run : PersistRun)
    : RulesStore * cres unit :=
  if unavailable (state s) then (s, Err RulesUnavailable)
  else
    match persist (disk s) pid sequence (bytes p) run with
    | (d, renamed, outcome) =>
        let store state := {| state := state; disk := d; observed_utc := observed_utc s |} in
        match outcome with
        | Done => (store (prepared p), Ok tt)
        | Failed =>
            (store (if renamed then set_unavailable (state s) else state s), Err RulesUnavailable)
        | Panicked => (store (set_unavailable (state s)), Err RulesUnavailable)
        end
    end.

(** One rule change of the case owner: prepared and committed under its lock. *)
Definition change (s : RulesStore) (delta : RuleDelta) (pid sequence : Z) (run : PersistRun)
    : RulesStore * cres unit :=
  match prepare_delta s delta with
  | Err e => (s, Err e)
  | Ok p => commit s p pid sequence run
  end.

End Configured.

(** ** Keys and markers *)

Lemma key_cmp_Eq a b : key_cmp a b = Eq <-> a = b.
Proof.
  destruct a as [a1 a2], b as [b1 b2]. unfold key_cmp. cbn. pose proof (str_cmp_Eq a1 b1) as H1.
  pose proof (str_cmp_Eq a2 b2) as H2. destruct (str_cmp a1 b1); [|naive_solver..].
  rewrite H2. naive_solver.
Qed.

Lemma key_cmp_opp a b : key_cmp b a = CompOpp (key_cmp a b).
Proof.
  unfold key_cmp. rewrite (str_cmp_opp a.1 b.1), (str_cmp_opp a.2 b.2).
  by destruct (str_cmp a.1 b.1).
Qed.

Lemma key_cmp_Lt_trans a b c : key_cmp a b = Lt -> key_cmp b c = Lt -> key_cmp a c = Lt.
Proof.
  unfold key_cmp. destruct (str_cmp a.1 b.1) eqn:H1; [|intros _|done];
    destruct (str_cmp b.1 c.1) eqn:H2; try done.
  - apply str_cmp_Eq in H1, H2. rewrite H1, H2, (proj2 (str_cmp_Eq c.1 c.1) eq_refl).
    apply str_cmp_Lt_trans.
  - apply str_cmp_Eq in H1. by rewrite H1, H2.
  - apply str_cmp_Eq in H2. by rewrite <- H2, H1.
  - by rewrite (str_cmp_Lt_trans _ _ _ H1 H2).
Qed.

Lemma key_ltb_Lt a b : key_ltb a b = true <-> key_cmp a b = Lt.
Proof. unfold key_ltb. by destruct (key_cmp a b). Qed.

(** Markers in strictly ascending order, as [validate_snapshot] asks. *)
Definition markers_sorted (ms : list Marker) : Prop :=
  StronglySorted (fun a b => key_cmp (marker_key a) (marker_key b) = Lt) ms.

Lemma markers_sorted_windows ms :
  windows2_all (fun a b => key_ltb (marker_key a) (marker_key b)) ms = true <-> markers_sorted ms.
Proof.
  rewrite windows2_all_sorted.
  - unfold markers_sorted. split; (induction 1 as [|x l _ IH Hx]; constructor; [done|];
      apply (Forall_impl _ _ _ Hx); intros y; by rewrite key_ltb_Lt).
  - intros x y z. rewrite !key_ltb_Lt. apply key_cmp_Lt_trans.
Qed.

Lemma StronglySorted_lookup {A} (R : A -> A -> Prop) (l : list A) i j x y :
  StronglySorted R l -> (i < j)%nat -> l !! i = Some x -> l !! j = Some y -> R x y.
Proof.
  intros Hs. revert i j. induction Hs as [|z l _ IH Hz]; intros i j Hij Hi Hj; [done|].
  destruct j as [|j]; [lia|]. cbn in Hj. destruct i as [|i]; cbn in Hi.
  - injection Hi as <-. rewrite Forall_forall in Hz. by apply Hz, list_elem_of_lookup_2 with j.
  - apply (IH i j); [lia|done..].
Qed.

Lemma markers_ordered ms k :
  markers_sorted ms -> ordered_around (fun m => key_cmp (marker_key m) k) ms.
Proof.
  intros Hs i j x y Hij Hi Hj. pose proof (StronglySorted_lookup _ _ _ _ _ _ Hs Hij Hi Hj) as Hxy.
  split_and!.
  - intros Hx. destruct (key_cmp (marker_key y) k) eqn:Hy; [..|done].
    + apply key_cmp_Eq in Hy as <-. congruence.
    + rewrite (key_cmp_Lt_trans _ _ _ Hxy Hy) in Hx. done.
  - intros Hy. by apply key_cmp_Lt_trans with (marker_key y).
  - intros <-%key_cmp_Eq. by rewrite key_cmp_opp, Hxy.
Qed.

(** The binary search decides membership of the marked pair. *)
Definition has_marker (ms : list Marker) (document : DocumentKey) (ground : Ground) : Prop :=
  exists m, m ∈ ms /\ marker_document m = document /\ marker_ground m = ground.

Lemma ground_as_str_inj (g g' : Ground) : as_str g = as_str g' -> g = g'.
Proof. intros H. pose proof (parse_as_str g) as Hg. rewrite H, parse_as_str in Hg. congruence. Qed.

Lemma marked_iff s document ground :
  markers_sorted (do_not_reapply (file s)) ->
  marked s document ground = true <-> has_marker (do_not_reapply (file s)) document ground.
Proof.
  intros Hs. pose proof (binary_search_found _ _ (markers_ordered _ (document, as_str ground) Hs)) as Hb.
  unfold marked. destruct (binary_search_by _ _) as [k|]; split; try done.
  - intros _. destruct (proj1 Hb) as (m & Hm & He); [by exists k|]. apply key_cmp_Eq in He.
    injection He as Hd Hg%ground_as_str_inj. by exists m.
  - intros (m & Hm & <- & <-). destruct (proj2 Hb) as [k [=]].
    exists m. split; [done|]. by apply key_cmp_Eq.
Qed.

(** ** The index *)

Lemma index_from_spec i rs m d j :
  j ∈ default [] (index_from i rs m !! d) <->
  j ∈ default [] (m !! d) \/ exists k r, j = (i + k)%nat /\ rs !! k = Some r /\ rule_document r = d.
Proof.
  revert i m; induction rs as [|r rs IH]; intros i m; cbn [index_from].
  { split; [by left|intros [?|(k & r & _ & Hk & _)]; [done|by rewrite lookup_nil in Hk]]. }
  rewrite IH, lookup_insert. case_decide as Hd.
  - subst. cbn. rewrite elem_of_app, list_elem_of_singleton. split.
    + intros [[?| ->]|(k & r' & -> & Hk & E)]; [by left|right; exists 0%nat, r; split_and!; [lia|done..]|].
      right. exists (S k), r'. split_and!; [lia|done..].
    + intros [?|([|k] & r' & -> & Hk & E)]; [tauto|left; right; lia|].
      right. exists k, r'. split_and!; [lia|done..].
  - split.
    + intros [?|(k & r' & -> & Hk & E)]; [by left|]. right. exists (S k), r'. split_and!; [lia|done..].
    + intros [?|([|k] & r' & -> & Hk & E)]; [by left|cbn in Hk; congruence|].
      right. exists k, r'. split_and!; [lia|done..].
Qed.

(** The index holds exactly the positions of the document's rules. *)
Lemma index_spec rs d j :
  j ∈ default [] (index_from 0 rs ∅ !! d) <-> exists r, rs !! j = Some r /\ rule_document r = d.
Proof.
  rewrite index_from_spec, lookup_empty. cbn. split.
  - intros [H|(k & r & -> & Hk & E)]; [by apply elem_of_nil in H|eauto].
  - intros (r & Hr & E). right. eauto.
Qed.

Lemma any_opt_Some {A} (f : A -> option bool) l :
  (forall x, x ∈ l -> is_Some (f x)) ->
  exists b, any_opt f l = Some b /\ (b = true <-> exists x, x ∈ l /\ f x = Some true).
Proof.
  induction l as [|x l IH]; intros Hf; cbn.
  - exists false. split; [done|]. split; [done|]. intros (x & Hx & _). by apply elem_of_nil in Hx.
  - destruct (Hf x) as [[] Hx]; [by left|..]; rewrite Hx.
    + exists true. split; [done|]. split; [|done]. intros _. exists x. split; [by left|done].
    + destruct IH as (b & -> & Hb); [intros y Hy; apply Hf; by right|]. exists b. split; [done|].
      rewrite Hb. setoid_rewrite elem_of_cons. naive_solver.
Qed.

Lemma all_opt_Some {A} (f : A -> option bool) l :
  (forall x, x ∈ l -> f x = Some true) -> all_opt f l = Some true.
Proof.
  induction l as [|x l IH]; intros Hf; cbn; [done|]. rewrite Hf by (by left).
  apply IH. intros y Hy. apply Hf. by right.
Qed.

(** Reading through the index is scanning the rules for the document. *)
Lemma indexed_scan (p : Rule -> bool) rs d :
  any_opt (fun index => p <$> rs !! index) (default [] (index_from 0 rs ∅ !! d)) =
    Some (existsb (fun r => str_eqb (rule_document r) d && p r) rs).
Proof.
  destruct (any_opt_Some (fun index => p <$> rs !! index) (default [] (index_from 0 rs ∅ !! d)))
    as (b & -> & Hb).
  { intros j (r & Hr & _)%index_spec. rewrite Hr. eauto. }
  f_equal. apply eq_true_iff_eq. rewrite Hb, existsb_exists. setoid_rewrite andb_true_iff.
  setoid_rewrite str_eqb_eq. split.
  - intros (j & (r & Hr & E)%index_spec & Hp). rewrite Hr in Hp. injection Hp as Hp.
    exists r. split_and!; [|done..]. by apply list_elem_of_In, list_elem_of_lookup_2 with j.
  - intros (r & [j Hj]%list_elem_of_In%list_elem_of_lookup_1 & E & Hp).
    exists j. split; [apply index_spec; eauto|]. by rewrite Hj; cbn; rewrite Hp.
Qed.

Section Snapshots.
Context (config : ComplianceConfig).

(** A snapshot as [rebuild] makes it, whether or not it was disabled since. *)
Record well_built (s : RulesSnapshot) : Prop := {
  built_valid : validate_snapshot (file s) = Ok tt;
  built_index : by_document s = index_from 0 (rules (file s)) ∅;
  built_listed : from_data (listed_data (file s)) (max_rules config) = Ok (listed s);
}.

Lemma rebuild_Ok f s :
  rebuild config f = Ok s <-> well_built s /\ file s = f /\ unavailable s = false.
Proof.
  unfold rebuild. rewrite bind_Ok. split.
  - intros ([] & Hv & (l & Hl & [= <-])%bind_Ok). split; [|done]. by split.
  - destruct s as [f' m l u]. intros ([Hv Hi Hl] & Hf & Hu). cbn in *. subst.
    exists tt. split; [done|]. by rewrite Hl.
Qed.

Lemma well_built_set_unavailable s : well_built s -> well_built (set_unavailable s).
Proof. by intros [? ? ?]. Qed.

Lemma indexed_any s d (p : Rule -> bool) :
  well_built s ->
  match by_document s !! d with
  | None => Some false
  | Some indices => any_opt (fun index => p <$> rules (file s) !! index) indices
  end = Some (existsb (fun r => str_eqb (rule_document r) d && p r) (rules (file s))).
Proof.
  intros [_ Hi _]. rewrite <- indexed_scan, Hi. by destruct (index_from _ _ _ !! d).
Qed.

(** C21: The indexed request path decides like a scan of all the rules, and
    never indexes out of range. A candidate is allowed if and only if the store
    is available, no list denies it and no rule of the document applies: one
    whose time has come and which is global or has a name all of whose tokens
    are in the query. Country, age and measures do not matter. *)
Theorem index_decides_like_a_scan s document url query context now cache :
  well_built s ->
  allows s document url query context now cache =
    (Some (negb (unavailable s) && negb (denies (listed s) document url cache).1 &&
           negb (existsb (fun r => str_eqb (rule_document r) document && rule_applies query now r)
                   (rules (file s)))),
     if unavailable s then cache else (denies (listed s) document url cache).2).
Proof.
  intros Hw. unfold allows. destruct (unavailable s); [done|].
  destruct (denies _ _ _ _) as [[] cache']; [done|]. cbn [negb andb fst snd].
  pose proof (indexed_any s document (rule_applies query now) Hw) as Hi.
  destruct (by_document s !! document); [by rewrite Hi|]. by injection Hi as <-.
Qed.
End Snapshots.

(** ** What a delta does to the rules and the markers *)

Lemma rule_id_ticket t t' d d' g g' :
  TicketId_parse t = Ok t -> TicketId_parse t' = Ok t' ->
  rule_id t d g = rule_id t' d' g' -> t = t'.
Proof.
  unfold TicketId_parse. intros [_ [Hl _]]%Hex64_parse_Ok [_ [Hl' _]]%Hex64_parse_Ok E.
  by apply app_inj_1 in E as [-> _]; [|congruence].
Qed.

Lemma rule_id_document t d d' g : rule_id t d g = rule_id t d' g -> d = d'.
Proof. unfold rule_id. intros E%app_inv_head%app_inv_head. by apply app_inv_tail in E. Qed.

Definition keyed (r : Rule) : Prop :=
  rule_key r = rule_id (rule_ticket r) (rule_document r) (rule_ground r).
(** The rules of every other ticket. *)
Definition others (t : TicketId) (rs : list Rule) : list Rule := filter (fun r => rule_ticket r <> t) rs.

Lemma others_app t rs rs' : others t (rs ++ rs') = others t rs ++ others t rs'.
Proof. apply filter_app. Qed.

Lemma others_retain t (keep : Rule -> bool) rs :
  (forall r, r ∈ rs -> rule_ticket r <> t -> keep r = true) -> others t (retain keep rs) = others t rs.
Proof.
  unfold others, retain. induction rs as [|r rs IH]; intros Hk; [done|].
  assert (forall r', r' ∈ rs -> rule_ticket r' <> t -> keep r' = true) as Hrs
    by (intros; apply Hk; [by right|done]).
  specialize (IH Hrs). destruct (decide (rule_ticket r = t)) as [E|E].
  - rewrite (filter_cons_False (fun x => rule_ticket x <> t) r rs) by tauto.
    rewrite (filter_cons (fun x => keep x = true)). case_decide; [|done].
    by rewrite filter_cons_False by tauto.
  - rewrite (filter_cons_True (fun x => keep x = true)) by (apply Hk; [by left|done]).
    rewrite !filter_cons_True by done. by rewrite IH.
Qed.

Lemma elem_of_retain {A} (keep : A -> bool) l x : x ∈ retain keep l <-> keep x = true /\ x ∈ l.
Proof. unfold retain. by rewrite list_elem_of_filter. Qed.

(** What no delta touches. *)
Definition same_rest (s s' : RulesSnapshot) : Prop :=
  generation (file s') = generation (file s) /\ listed_data (file s') = listed_data (file s).

(** Everything of the file but its rules. *)
Definition same_frame (s s' : RulesSnapshot) : Prop :=
  exists rs, s' = set_rules rs s.

Lemma same_frame_file s s' : same_frame s s' ->
  do_not_reapply (file s') = do_not_reapply (file s) /\ same_rest s s'.
Proof. by intros [rs ->]. Qed.

Section Installing.
Context (ticket : TicketId) (ground : Ground) (effective sequence : Z) (names : list NameSet).
Context (ticket_ok : TicketId_parse ticket = Ok ticket).

Definition installed (r : Rule) : Prop :=
  rule_ticket r = ticket /\ rule_ground r = ground /\ intent_sequence r = sequence /\
  effective_at r <= effective /\ name_sets r = names /\ keyed r.

Record install_effect (docs : list DocumentKey) (s s' : RulesSnapshot) : Prop := {
  effect_frame : same_frame s s';
  effect_unmarked : forall d, d ∈ docs -> marked s d ground = false;
  effect_present : forall d, d ∈ docs -> exists r, r ∈ rules (file s') /\ rule_document r = d /\ installed r;
  effect_origin : forall r, r ∈ rules (file s') ->
    r ∈ rules (file s) \/ (installed r /\ rule_document r ∈ docs);
  effect_kept : forall d r, r ∈ rules (file s) -> rule_document r = d -> installed r ->
    exists r', r' ∈ rules (file s') /\ rule_document r' = d /\ installed r';
  effect_others : Forall (fun r => keyed r /\ ids_parsed r) (rules (file s)) ->
    others ticket (rules (file s')) = others ticket (rules (file s));
}.

Lemma install_one_effect s d s' :
  install_one ticket ground effective sequence names s d = Ok s' -> install_effect [d] s s'.
Proof.
  unfold install_one. intros ([] & Hm%refuse_if_Ok & [= <-])%bind_Ok. cbv zeta.
  set (id := rule_id ticket d ground). set (new := {| rule_key := id |}).
  assert (installed new) as Hnew by (repeat split; cbn; [apply Z.le_min_r]).
  set (kept := retain _ _).
  assert (new ∈ kept ++ [new]) as Hin by (apply elem_of_app; right; by left).
  split; cbn [file rules set_rules].
  - by eexists.
  - intros d' ->%list_elem_of_singleton. done.
  - intros d' ->%list_elem_of_singleton. by exists new.
  - intros r [[_ Hr]%elem_of_retain| ->%list_elem_of_singleton]%elem_of_app; [by left|].
    right. split; [done|]. by left.
  - intros d' r Hr Hd Hi. destruct (decide (rule_key r = id)) as [E|E].
    + exists new. split_and!; [done| |done]. cbn. destruct Hi as (Ht & Hg & _ & _ & _ & Hk).
      unfold keyed in Hk. rewrite Hk, Ht, Hg, Hd in E. by apply rule_id_document in E.
    + exists r. split_and!; [|done..]. apply elem_of_app. left. apply elem_of_retain.
      split; [|done]. apply negb_true_iff. by apply bool_decide_eq_false.
  - intros Hok. rewrite others_app. unfold others at 2. rewrite filter_cons_False, app_nil_r by (cbn; tauto).
    apply others_retain. intros r Hr Ht. apply negb_true_iff, bool_decide_eq_false. intros E.
    rewrite Forall_forall in Hok. destruct (Hok r Hr) as [Hk [Hp _]]. apply Ht.
    unfold keyed in Hk. rewrite Hk in E. by apply rule_id_ticket in E.
Qed.

Lemma install_one_well s d s' :
  DocumentKey_parse d = Ok d ->
  install_one ticket ground effective sequence names s d = Ok s' ->
  Forall (fun r => keyed r /\ ids_parsed r) (rules (file s)) ->
  Forall (fun r => keyed r /\ ids_parsed r) (rules (file s')).
Proof.
  intros Hd He Hok. apply install_one_effect in He as [_ _ _ Ho _ _].
  rewrite Forall_forall in Hok |- *. intros r Hr.
  destruct (Ho r Hr) as [?|[(Ht & _ & _ & _ & _ & Hk) E%list_elem_of_singleton]]; [by apply Hok|].
  split; [done|]. unfold ids_parsed. by rewrite Ht, E.
Qed.

Lemma install_all_effect docs s s' :
  Forall (fun d => DocumentKey_parse d = Ok d) docs ->
  try_fold (install_one ticket ground effective sequence names) s docs = Ok s' ->
  install_effect docs s s'.
Proof.
  revert s; induction docs as [|d docs IH]; intros s Hd; cbn [try_fold].
  - intros [= <-]. split; try by intros ? ?%elem_of_nil.
    + by exists (rules (file s)); destruct s as [[] ?].
    + by left.
    + eauto.
    + done.
  - intros (s1 & H1 & H2)%bind_Ok. apply Forall_cons in Hd as [Hd Hds].
    pose proof (install_one_well _ _ _ Hd H1) as Hwell.
    pose proof (install_one_effect _ _ _ H1) as [F1 U1 P1 O1 K1 T1].
    apply IH in H2 as [F2 U2 P2 O2 K2 T2]; [|done]. split.
    + destruct F1 as [rs ->], F2 as [rs' ->]. by exists rs'.
    + intros d' [->|Hd']%elem_of_cons; [apply U1; by left|]. rewrite <- (U2 d' Hd').
      destruct F1 as [rs ->]. done.
    + intros d' [->|Hd']%elem_of_cons; [|by apply P2].
      destruct (P1 d) as (r & Hr & E & Hi); [by left|]. by apply (K2 d r).
    + intros r Hr. rewrite elem_of_cons. destruct (O2 r Hr) as [Hr1|[? ?]]; [|tauto].
      destruct (O1 r Hr1) as [?|[? ?%list_elem_of_singleton]]; tauto.
    + intros d' r Hr E Hi. destruct (K1 d' r Hr E Hi) as (r' & Hr' & E' & Hi'). by apply (K2 d' r').
    + intros Hok. rewrite T2, T1; auto.
Qed.
End Installing.

(** *** Reversal *)

Lemma marked_has_marker s d g : marked s d g = true -> has_marker (do_not_reapply (file s)) d g.
Proof.
  unfold marked, binary_search_by.
  destruct (do_not_reapply (file s) !! _) as [m|] eqn:Hm; [|done]. cbn [fmap option_fmap option_map].
  destruct (key_cmp (marker_key m) (d, as_str g)) eqn:E; [|done..]. intros _.
  apply key_cmp_Eq in E. injection E as Hd Hg%ground_as_str_inj.
  exists m. split; [by apply list_elem_of_lookup_2 in Hm|done].
Qed.

Lemma has_marker_sub ms ms' d g : ms ⊆ ms' -> has_marker ms d g -> has_marker ms' d g.
Proof. intros Hs (m & Hm & ? & ?). exists m. auto. Qed.

Lemma reverse_one_effect g at_ q s d :
  rules (file (reverse_one g at_ q s d)) = rules (file s) /\
  do_not_reapply (file s) ⊆ do_not_reapply (file (reverse_one g at_ q s d)) /\
  has_marker (do_not_reapply (file (reverse_one g at_ q s d))) d g /\
  same_rest s (reverse_one g at_ q s d).
Proof.
  unfold reverse_one. destruct (marked s d g) eqn:Hm.
  - split_and!; [done|done|by apply marked_has_marker|done].
  - cbn [file set_markers rules do_not_reapply]. split_and!; [done|..].
    + intros m Hin. apply elem_of_stable_sort, elem_of_app. by left.
    + exists {| marker_document := d; marker_ground := g; reversed_at := at_; marker_sequence := q |}.
      split; [|done]. apply elem_of_stable_sort, elem_of_app. right. by left.
    + done.
Qed.

Lemma reverse_all_effect g at_ q docs s :
  let s' := foldl (reverse_one g at_ q) s docs in
  rules (file s') = rules (file s) /\ do_not_reapply (file s) ⊆ do_not_reapply (file s') /\
  (forall d, d ∈ docs -> has_marker (do_not_reapply (file s')) d g) /\ same_rest s s'.
Proof.
  revert s; induction docs as [|d docs IH]; intros s; cbn [foldl].
  - split_and!; [done|done| |done]. by intros ? ?%elem_of_nil.
  - destruct (reverse_one_effect g at_ q s d) as (Hr & Hs & Hm & Hg & Hl).
    destruct (IH (reverse_one g at_ q s d)) as (Hr' & Hs' & Hm' & Hg' & Hl'). split_and!.
    + by rewrite Hr'.
    + by etrans.
    + intros d' [->|Hd']%elem_of_cons; [by eapply has_marker_sub|by apply Hm'].
    + split; [by rewrite Hg'|by rewrite Hl'].
Qed.

(** *** A whole delta *)

Definition delta_ticket (delta : RuleDelta) : TicketId :=
  match delta with Install t _ _ _ _ _ | Remove t | Reverse t _ _ _ _ => t end.
(** The identifiers of a delta are values of the validated types. *)
Definition delta_parsed (delta : RuleDelta) : Prop :=
  match delta with
  | Install t docs _ _ _ _ =>
      TicketId_parse t = Ok t /\ Forall (fun d => DocumentKey_parse d = Ok d) docs
  | _ => True
  end.
Definition well_keyed (rs : list Rule) : Prop := Forall (fun r => keyed r /\ ids_parsed r) rs.

(** What the delta was meant to achieve. *)
Definition achieved (delta : RuleDelta) (f : SnapshotFile) : Prop :=
  match delta with
  | Install t docs g e q ns =>
      forall d, d ∈ docs -> exists r, r ∈ rules f /\ rule_document r = d /\ installed t g e q ns r
  | Remove t => forall r, r ∈ rules f -> rule_ticket r <> t
  | Reverse t docs g _ _ =>
      (forall r, r ∈ rules f -> rule_ticket r <> t) /\
      forall d, d ∈ docs -> has_marker (do_not_reapply f) d g
  end.

Record delta_effect (delta : RuleDelta) (s s' : RulesSnapshot) : Prop := {
  delta_achieved : achieved delta (file s');
  delta_markers : do_not_reapply (file s) ⊆ do_not_reapply (file s');
  delta_others : others (delta_ticket delta) (rules (file s')) ≡ₚ
                 others (delta_ticket delta) (rules (file s));
  delta_keyed : well_keyed (rules (file s'));
  delta_rest : same_rest s s';
}.

Lemma others_removed t rs :
  others t (retain (fun r => negb (str_eqb (rule_ticket r) t)) rs) = others t rs.
Proof. apply others_retain. intros r _ Hr. by apply negb_true_iff, bool_decide_eq_false. Qed.

Lemma removed_gone t rs r :
  r ∈ retain (fun r => negb (str_eqb (rule_ticket r) t)) rs -> rule_ticket r <> t /\ r ∈ rs.
Proof. intros [Hk Hr]%elem_of_retain. apply negb_true_iff, bool_decide_eq_false in Hk. done. Qed.

Lemma well_keyed_removed t rs :
  well_keyed rs -> well_keyed (retain (fun r => negb (str_eqb (rule_ticket r) t)) rs).
Proof.
  unfold well_keyed. rewrite !Forall_forall. intros Hok r [_ Hr]%removed_gone. auto.
Qed.

Lemma well_keyed_sub rs rs' : rs' ⊆ rs -> well_keyed rs -> well_keyed rs'.
Proof. unfold well_keyed. rewrite !Forall_forall. auto. Qed.

(** The final sort only reorders. *)
Lemma sort_effect delta s s1 :
  delta_effect delta s s1 ->
  delta_effect delta s
    (set_rules (stable_sort (fun a b => str_cmp (rule_key a) (rule_key b)) (rules (file s1))) s1).
Proof.
  intros [Ha Hm Ho Hk Hr]. split; cbn [file rules set_rules do_not_reapply]; [|done|..|done].
  - destruct delta; cbn in Ha |- *; setoid_rewrite elem_of_stable_sort; done.
  - unfold others. by rewrite stable_sort_perm.
  - apply (well_keyed_sub (rules (file s1))); [|done]. by intros r ?%elem_of_stable_sort.
Qed.

Lemma apply_delta_effect delta s s' :
  well_keyed (rules (file s)) -> delta_parsed delta -> apply_delta s delta = Ok s' ->
  delta_effect delta s s'.
Proof.
  intros Hok Hp. unfold apply_delta. intros (s1 & H1 & [= <-])%bind_Ok. apply sort_effect.
  destruct delta as [t docs g e q ns|t|t docs g a q]; cbn in Hp.
  - destruct Hp as [Ht Hd]. apply install_all_effect in H1 as [F _ P O _ E]; [|done..].
    destruct (same_frame_file _ _ F) as (Hm & Hrest). split; [..|done]; cbn.
    + done.
    + by rewrite Hm.
    + by rewrite E.
    + unfold well_keyed in *. rewrite Forall_forall in Hok |- *. intros r Hr.
      destruct (O r Hr) as [?|[(<- & _ & _ & _ & _ & Hk) Hdoc]]; [auto|]. split; [done|].
      split; [done|]. rewrite Forall_forall in Hd. auto.
  - injection H1 as <-. split; cbn [delta_ticket file rules set_rules do_not_reapply achieved]; [|done|by rewrite others_removed|by apply well_keyed_removed|done].
    by intros r []%removed_gone.
  - injection H1 as <-. destruct (reverse_all_effect g a q docs
      (set_rules (retain (fun r => negb (str_eqb (rule_ticket r) t)) (rules (file s))) s)) as (Hr & Hs & Hm & Hrest).
    split; [split; [|exact Hm]|exact Hs|..|exact Hrest]; rewrite Hr; cbn [file rules set_rules].
    + by intros r []%removed_gone.
    + by rewrite others_removed.
    + by apply well_keyed_removed.
Qed.

Lemma validate_snapshot_Ok f :
  validate_snapshot f = Ok tt ->
  markers_sorted (do_not_reapply f) /\ Forall keyed (rules f).
Proof.
  unfold validate_snapshot. intros ([] & Hg%refuse_if_Ok & ([] & Hr & _)%bind_Ok)%bind_Ok.
  bool_to_prop. split; [by apply markers_sorted_windows|].
  apply try_for_each_Ok in Hr. apply (Forall_impl _ _ _ Hr). intros r.
  unfold validate_rule. intros ([] & Hk%refuse_if_Ok & _)%bind_Ok. bool_to_prop.
  by apply str_eqb_eq.
Qed.

(** ** The store *)

Section Store.
Context `{J : RulesJson} `{JL : !RulesJsonLaws J} (config : ComplianceConfig).

(** [bytes] is what is written for [f], and is within the configured cap. *)
Definition encodes (f : SnapshotFile) (bytes : list Z) : Prop :=
  exists b, rules_to_vec f = Some b /\ bytes = b ++ [ch_lf] /\
    Z.of_nat (length bytes) <= max_rules_bytes config.

Lemma prepare_Ok s p : prepare config s = Ok p -> prepared p = s /\ encodes (file s) (bytes p).
Proof.
  unfold prepare. intros (count & _ & H)%bind_Ok. apply bind_Ok in H as (x & _ & H).
  apply bind_Ok in H as (b & Hb%ok_or_Ok & H). apply bind_Ok in H as (y & Hy & H).
  apply reserve_Ok in Hy; [|lia..].
  injection H as <-. split; [done|]. exists b. split_and!; [done|done|]. cbn [bytes]. lia.
Qed.

Lemma prepare_delta_Ok s delta p :
  prepare_delta config s delta = Ok p ->
  exists candidate,
    unavailable (state s) = false /\ apply_delta (state s) delta = Ok candidate /\
    rules (file (prepared p)) = rules (file candidate) /\
    do_not_reapply (file (prepared p)) = do_not_reapply (file candidate) /\
    generation (file (prepared p)) = generation (file candidate) + 1 /\
    well_built config (prepared p) /\ unavailable (prepared p) = false /\
    encodes (file (prepared p)) (bytes p).
Proof.
  unfold prepare_delta. intros ([] & Hu%refuse_if_Ok & H)%bind_Ok.
  apply bind_Ok in H as (c & Hc & H). apply bind_Ok in H as (n & [-> _]%ok_or_Ok%u64_checked_add_Some & H).
  apply bind_Ok in H as (x & (Hw & Hf & Hx)%rebuild_Ok & [-> He]%prepare_Ok).
  exists c. by rewrite Hf in He |- *.
Qed.

Lemma verifies_achieved s delta :
  well_built config s -> achieved delta (file s) -> verifies s delta = Some true.
Proof.
  intros Hw Ha. destruct (validate_snapshot_Ok _ (built_valid _ _ Hw)) as [Hms _].
  assert (forall t, (forall r, r ∈ rules (file s) -> rule_ticket r <> t) ->
    existsb (fun r => str_eqb (rule_ticket r) t) (rules (file s)) = false) as Hnone.
  { intros t Ht. apply not_true_is_false. intros (r & Hr%list_elem_of_In & E%str_eqb_eq)%existsb_exists.
    by apply (Ht r). }
  destruct delta as [t docs g e q ns|t|t docs g a q]; cbn [achieved verifies] in *.
  - apply all_opt_Some. intros d (r & Hr & Hd & Ht & Hg & Hq & He & Hn & _)%Ha.
    rewrite (indexed_any config s d) by done. f_equal. apply existsb_exists. exists r.
    rewrite <- list_elem_of_In. split; [done|]. rewrite !andb_true_iff, !bool_decide_eq_true, Z.eqb_eq, Z.leb_le.
    rewrite !str_eqb_eq. done.
  - by rewrite Hnone.
  - destruct Ha as [Hr Hm]. rewrite Hnone by done. cbn. f_equal. apply forallb_forall.
    intros d Hd%list_elem_of_In. apply marked_iff; auto.
Qed.

(** A prepared change does what the journal's intent asks and nothing else.
    The prepared snapshot passes [verifies] for its delta; the rules of every
    other ticket are unchanged; no reversal marker is lost; the generation
    advances by one. *)
Theorem prepared_change_is_exact s delta p :
  well_built config (state s) -> Forall ids_parsed (rules (file (state s))) -> delta_parsed delta ->
  prepare_delta config s delta = Ok p ->
  verifies (prepared p) delta = Some true /\
  others (delta_ticket delta) (rules (file (prepared p))) ≡ₚ
    others (delta_ticket delta) (rules (file (state s))) /\
  do_not_reapply (file (state s)) ⊆ do_not_reapply (file (prepared p)) /\
  generation (file (prepared p)) = generation (file (state s)) + 1.
Proof.
  intros Hw Hids Hp (c & _ & Hc & Hr & Hm & Hg & Hb & _)%prepare_delta_Ok.
  assert (well_keyed (rules (file (state s)))) as Hk.
  { destruct (validate_snapshot_Ok _ (built_valid _ _ Hw)) as [_ Hk]. by apply Forall_and. }
  pose proof (apply_delta_effect _ _ _ Hk Hp Hc) as [Ha Hs Ho _ [Hgen _]]. split_and!.
  - apply verifies_achieved; [done|]. by destruct delta; cbn in Ha |- *; rewrite ?Hr, ?Hm.
  - by rewrite Hr.
  - by rewrite Hm.
  - by rewrite Hg, Hgen.
Qed.

(** *** Disk and memory *)

Lemma persist_snapshot d pid sequence b run :
  let '(d', renamed, outcome) := persist d pid sequence b run in
  snapshot_json d' = (if renamed then Some b else snapshot_json d) /\
  (outcome = Done -> renamed = true).
Proof.
  unfold persist. destruct (hook_open run); [|done..].
  destruct (if bool_decide _ then Failed else _); [|destruct (leaf_left run); done..].
  destruct (run_steps [hook_write run; _; _; _; _; _]); [done|destruct (remove_file run); done|done].
Qed.

(** The bytes of [f] are in place and [f] is what [read] accepts. *)
Definition on_disk (f : SnapshotFile) (d : RulesDisk) : Prop :=
  exists bytes, snapshot_json d = Some bytes /\ encodes f bytes /\ Forall ids_parsed (rules f).

Lemma read_on_disk f d : on_disk f d -> read d true (max_rules_bytes config) = Ok f.
Proof.
  intros (bytes & Hd & (b & Hb & -> & Hl) & Hids). unfold read.
  apply bind_Ok. exists (b ++ [ch_lf]). split; [by apply ok_or_Ok|].
  apply bind_Ok. exists tt. split; [done|].
  apply bind_Ok. exists tt. split; [apply map_err_Ok, validate_range_Ok; lia|].
  apply bind_Ok. exists f. split; [by apply ok_or_Ok, rules_from_to|].
  apply bind_Ok. exists b. split; [by apply ok_or_Ok|].
  by rewrite bool_decide_eq_true_2.
Qed.

Lemma read_Ok d io f :
  read d io (max_rules_bytes config) = Ok f -> on_disk f d.
Proof.
  unfold read. intros (bytes & Hd%ok_or_Ok & H)%bind_Ok. apply bind_Ok in H as ([] & _ & H).
  apply bind_Ok in H as ([] & Hl%map_err_Ok%validate_range_Ok & H).
  apply bind_Ok in H as (f' & Hf%ok_or_Ok & H). apply bind_Ok in H as (c & Hc%ok_or_Ok & H).
  apply bind_Ok in H as ([] & He%refuse_if_Ok & [= <-]). bool_to_prop.
  exists bytes. split_and!; [done| |by eapply rules_from_parsed]. exists c. split_and!; [done..|lia].
Qed.

(** While the store serves, what it serves is on disk; once it is disabled,
    the disk may be ahead of it but has lost no marker. *)
Record coherent (s : RulesStore) : Prop := {
  coherent_built : well_built config (state s);
  coherent_disk : exists f, on_disk f (disk s) /\
    do_not_reapply (file (state s)) ⊆ do_not_reapply f /\
    (unavailable (state s) = false -> f = file (state s));
}.

Lemma coherent_parsed s : coherent s -> unavailable (state s) = false -> well_keyed (rules (file (state s))).
Proof.
  intros [Hb (f & (_ & _ & _ & Hids) & _ & Hf)] Hu. specialize (Hf Hu). subst f.
  apply Forall_and. split; [|done]. by apply validate_snapshot_Ok, (built_valid config).
Qed.

Lemma change_coherent s delta pid sequence run :
  delta_parsed delta -> coherent s -> coherent (change config s delta pid sequence run).1.
Proof.
  intros Hp Hc. unfold change. destruct (prepare_delta config s delta) as [p|] eqn:Hd; [|done].
  apply prepare_delta_Ok in Hd as (c & Hu & Ha & Hr & Hm & _ & Hw & Hpu & He).
  pose proof (apply_delta_effect _ _ _ (coherent_parsed s Hc Hu) Hp Ha) as [_ Hsub _ Hk _].
  unfold commit. rewrite Hu.
  pose proof (persist_snapshot (disk s) pid sequence (bytes p) run) as Hs.
  destruct (persist _ _ _ _ _) as [[d renamed] outcome]. destruct Hs as [Hs Hdone].
  destruct Hc as [Hb (f & (b & Hf & Hrest) & Hsub' & Hsame)].
  assert (renamed = true -> on_disk (file (prepared p)) d) as Hnew.
  { intros ->. exists (bytes p). split_and!; [done..|]. rewrite Hr. by apply Forall_and in Hk as [_ Hk]. }
  assert (renamed = false -> on_disk f d) as Hold by (intros ->; exists b; by rewrite Hs).
  assert (exists f, on_disk f d /\ do_not_reapply (file (state s)) ⊆ do_not_reapply f) as Hany.
  { destruct renamed; [|by exists f; auto]. exists (file (prepared p)). split; [by auto|]. by rewrite Hm. }
  assert (coherent {| state := set_unavailable (state s); disk := d; observed_utc := observed_utc s |}) as Hoff.
  { split; [by apply well_built_set_unavailable|]. destruct Hany as (f' & Hf' & Hs').
    by exists f'. }
  destruct outcome; cbn [fst].
  - split; [done|]. exists (file (prepared p)). split_and!; [by auto|done|done].
  - destruct renamed; [done|]. split; [done|]. exists f. auto.
  - done.
Qed.

Lemma sweep_entries_snapshot entries d :
  snapshot_json (sweep_entries entries d).1 = snapshot_json d.
Proof.
  revert d; induction entries as [|[name unlinked] entries IH]; intros d; cbn; [done|].
  destruct (recognized name); cbn; [|apply IH]. destruct unlinked; [by rewrite IH|done].
Qed.

(** What [open] starts from and what it wants to serve. *)
Lemma open_swept_cases fresh io d l pid sequence run utc d' opened :
  open_swept config fresh io d l pid sequence run utc = (d', opened) ->
  (snapshot_json d' = snapshot_json d /\ exists e, opened = Err e) \/
  exists f p list_changed,
    (if fresh then f = fresh_file (data l) else on_disk f d) /\
    rules (file (prepared p)) = rules f /\ do_not_reapply (file (prepared p)) = do_not_reapply f /\
    well_built config (prepared p) /\ unavailable (prepared p) = false /\
    encodes (file (prepared p)) (bytes p) /\
    (list_changed = false -> file (prepared p) = f) /\
    (snapshot_json d' = Some (bytes p) \/ snapshot_json d' = snapshot_json d) /\
    (forall s, opened = Ok s -> state s = prepared p /\ disk s = d' /\
       (fresh || list_changed = true -> snapshot_json d' = Some (bytes p)) /\
       (fresh || list_changed = false -> d' = d)).
Proof.
  unfold open_swept. case_match eqn:Hm; [|intros [= <- <-]; left; eauto].
  destruct a as [p list_changed]. apply bind_Ok in Hm as (f & Hf & Hm).
  apply bind_Ok in Hm as (x & _ & Hm).
  apply bind_Ok in Hm as (old & Hold%ok_or_Ok & Hm). apply bind_Ok in Hm as (new & Hnew%ok_or_Ok & Hm).
  apply bind_Ok in Hm as (f' & Hf' & Hm).
  apply bind_Ok in Hm as (s & (Hw & <- & Hu)%rebuild_Ok & Hm).
  apply bind_Ok in Hm as (p' & (Hp & He)%prepare_Ok & [= -> <-]). subst s.
  intros Hout. right. exists f, p, (negb (bool_decide (old = new))).
  assert (rules (file (prepared p)) = rules f /\ do_not_reapply (file (prepared p)) = do_not_reapply f /\
    (negb (bool_decide (old = new)) = false -> file (prepared p) = f)) as (Hr & Hms & Hsame).
  { revert Hf'. case_bool_decide as E; cbn [negb].
    - intros [= <-]. split_and!; [done..|]. intros _. subst new.
      rewrite (listed_to_vec_inj _ _ _ Hnew Hold). by destruct f.
    - intros (n & _ & [= <-])%bind_Ok. done. }
  split_and!; [|done..| |].
  - destruct fresh; [by injection Hf as <-|by apply read_Ok in Hf].
  - revert Hout. pose proof (persist_snapshot d pid sequence (bytes p) run) as Hs.
    destruct (persist _ _ _ _ _) as [[d1 renamed] outcome]. destruct Hs as [Hs _].
    destruct (fresh || _); [|intros [= <- _]; by right].
    destruct outcome; intros [= <- <-]; rewrite Hs; destruct renamed; tauto.
  - intros s Hs. revert Hout Hs. pose proof (persist_snapshot d pid sequence (bytes p) run) as Hs.
    destruct (persist _ _ _ _ _) as [[d1 renamed] outcome]. destruct Hs as [Hs Hdone].
    destruct (fresh || _).
    + destruct outcome; intros [= <- <-]; [|done..]. intros [= <-]. rewrite Hs, Hdone by done. done.
    + intros [= <- <-] [= <-]. done.
Qed.

(** *** The owner's life: changes, readings, stops at any point and restarts

    A process that dies inside [persist] is a run that panics there and is
    then stopped. *)

Inductive Owner := Running (s : RulesStore) | Stopped (d : RulesDisk).

Inductive owner_step : Owner -> Owner -> Prop :=
| step_change s delta pid sequence run :
    delta_parsed delta -> owner_step (Running s) (Running (change config s delta pid sequence run).1)
| step_now s utc : owner_step (Running s) (Running (serving_now s utc).1)
| step_stop s : owner_step (Running s) (Stopped (disk s))
| step_start d locked entries synced io l pid sequence run utc :
    owner_step (Stopped d)
      (match store_open config false locked entries synced io d l pid sequence run utc with
       | (_, Ok s) => Running s
       | (d', Err _) => Stopped d'
       end).

(** Reached from a first start in an empty directory. *)
Definition reachable (o : Owner) : Prop :=
  exists locked entries synced io l pid sequence run utc d s,
    store_open config true locked entries synced io {| snapshot_json := None; temporaries := ∅ |} l
      pid sequence run utc = (d, Ok s) /\ rtc owner_step (Running s) o.

Definition owner_ok (o : Owner) : Prop :=
  match o with Running s => coherent s | Stopped d => exists f, on_disk f d end.
Definition holds_marker (o : Owner) (document : DocumentKey) (g : Ground) : Prop :=
  match o with
  | Running s => has_marker (do_not_reapply (file (state s))) document g
  | Stopped d => exists f, on_disk f d /\ has_marker (do_not_reapply f) document g
  end.

Lemma on_disk_ext f d d' : snapshot_json d' = snapshot_json d -> on_disk f d -> on_disk f d'.
Proof. intros E (b & Hb & H). exists b. by rewrite E. Qed.

Lemma on_disk_unique f f' d : on_disk f d -> on_disk f' d -> f = f'.
Proof. intros H%read_on_disk H'%read_on_disk. congruence. Qed.

Lemma opened_coherent fresh io d l pid sequence run utc d' s :
  open_swept config fresh io d l pid sequence run utc = (d', Ok s) -> coherent s.
Proof.
  intros [[_ [e [=]]]|(f & p & ch & Hf & Hr & Hm & Hw & Hu & He & Hsame & _ & Hs)]%open_swept_cases.
  destruct (Hs s eq_refl) as (Est & Ed & Hdone & Hkeep).
  assert (Forall ids_parsed (rules (file (prepared p)))) as Hids.
  { rewrite Hr. destruct fresh; [by subst f; constructor|]. by destruct Hf as (_ & _ & _ & ?). }
  split; [by rewrite Est|]. exists (file (prepared p)). rewrite Est, Ed. split_and!; [|done..].
  destruct (fresh || ch) eqn:Hfc; [exists (bytes p); auto|].
  apply orb_false_iff in Hfc as [-> ->]. rewrite (Hkeep eq_refl), Hsame by done. done.
Qed.

Lemma restart_ok f d locked entries synced io l pid sequence run utc :
  on_disk f d ->
  match store_open config false locked entries synced io d l pid sequence run utc with
  | (_, Ok s) => coherent s /\ do_not_reapply (file (state s)) = do_not_reapply f
  | (d', Err _) => exists f', on_disk f' d' /\ do_not_reapply f' = do_not_reapply f
  end.
Proof.
  intros Hd. unfold store_open. destruct locked; cbn [negb]; [|by exists f].
  pose proof (sweep_entries_snapshot entries d) as Hsw. unfold sweep_owned_temps.
  destruct (sweep_entries entries d) as [d1 swept]. cbn [fst] in Hsw.
  apply (on_disk_ext _ _ d1 Hsw) in Hd. destruct (swept && _); [|by exists f].
  destruct (open_swept _ _ _ _ _ _ _ _ _) as [d' [s|e]] eqn:Ho.
  - split; [by eapply opened_coherent|].
    apply open_swept_cases in Ho as [[_ [e [=]]]|(f' & p & ch & Hf' & _ & Hm & _ & _ & _ & _ & _ & Hs)].
    destruct (Hs s eq_refl) as (-> & _). by rewrite Hm, (on_disk_unique f f' d1).
  - apply open_swept_cases in Ho as [[E _]|(f' & p & ch & Hf' & Hr & Hm & _ & _ & He & _ & [E|E] & _)].
    + exists f. split; [by apply (on_disk_ext f d1)|done].
    + assert (f' = f) as -> by (by apply (on_disk_unique f' f d1)). exists (file (prepared p)).
      split; [|done]. exists (bytes p). rewrite Hr. by destruct Hf' as (_ & _ & _ & ?).
    + exists f. split; [by apply (on_disk_ext f d1)|done].
Qed.

Lemma change_markers s delta pid sequence run :
  delta_parsed delta -> coherent s ->
  do_not_reapply (file (state s)) ⊆
    do_not_reapply (file (state (change config s delta pid sequence run).1)).
Proof.
  intros Hp Hc. unfold change. destruct (prepare_delta config s delta) as [p|] eqn:Hd; [|done].
  apply prepare_delta_Ok in Hd as (c & Hu & Ha & _ & Hm & _).
  pose proof (apply_delta_effect _ _ _ (coherent_parsed s Hc Hu) Hp Ha) as [_ Hsub _ _ _].
  unfold commit. rewrite Hu. destruct (persist _ _ _ _ _) as [[d renamed] [| |]]; cbn [fst state].
  - by rewrite Hm.
  - by destruct renamed.
  - done.
Qed.

Lemma owner_step_ok o o' :
  owner_step o o' -> owner_ok o ->
  owner_ok o' /\ forall document g, holds_marker o document g -> holds_marker o' document g.
Proof.
  intros Hs Ho. destruct Hs as [s delta pid sequence run Hp|s utc|s|d locked entries synced io l pid sequence run utc].
  - split; [by apply change_coherent|]. intros document g. apply has_marker_sub. by apply change_markers.
  - destruct Ho as [Hb Hd]. split; [by split|done].
  - destruct Ho as [_ (f & Hf & Hsub & _)]. split; [by exists f|]. intros document g Hm. exists f.
    split; [done|]. by eapply has_marker_sub.
  - destruct Ho as [f Hf].
    pose proof (restart_ok f d locked entries synced io l pid sequence run utc Hf) as Hst.
    assert (forall document g, holds_marker (Stopped d) document g -> has_marker (do_not_reapply f) document g)
      as Hold by (intros document g (f' & Hf' & Hm); by rewrite (on_disk_unique f f' d)).
    destruct (store_open _ _ _ _ _ _ _ _ _ _ _ _) as [d' [s|e]].
    + destruct Hst as [Hc E]. split; [done|]. intros document g Hm%Hold. cbn. by rewrite E.
    + destruct Hst as (f' & Hf' & E). split; [by exists f'|]. intros document g Hm%Hold. exists f'.
      by rewrite E.
Qed.

Lemma owner_steps_ok o o' :
  rtc owner_step o o' -> owner_ok o ->
  owner_ok o' /\ forall document g, holds_marker o document g -> holds_marker o' document g.
Proof.
  induction 1 as [o|o1 o2 o3 H1 _ IH]; intros Ho; [by split|].
  destruct (owner_step_ok _ _ H1 Ho) as [Ho2 Hm2]. destruct (IH Ho2) as [Ho3 Hm3]. auto.
Qed.

(** A directory left without a snapshot by an interrupted first start is never
    opened again. *)
Lemma interrupted_first_start_sticks locked entries synced io temps l pid sequence run utc :
  (store_open config false locked entries synced io
     {| snapshot_json := None; temporaries := temps |} l pid sequence run utc).2 = Err RulesUnavailable.
Proof.
  unfold store_open. destruct locked; [|done]. cbn [negb]. unfold sweep_owned_temps.
  pose proof (sweep_entries_snapshot entries {| snapshot_json := None; temporaries := temps |}) as Hs.
  destruct (sweep_entries _ _) as [d swept]. cbn in Hs. destruct (swept && _); [|done].
  unfold open_swept, read. by rewrite Hs.
Qed.

Lemma reachable_ok o : reachable o -> owner_ok o.
Proof.
  intros (locked & entries & synced & io & l & pid & sequence & run & utc & d & s & Hopen & Hs).
  apply (owner_steps_ok _ _ Hs). unfold store_open in Hopen.
  destruct locked; [|done]. cbn [negb] in Hopen. destruct (sweep_owned_temps _ _ _) as [d1 []]; [|done].
  by eapply opened_coherent.
Qed.

(** C19: What is served is what a restart would serve. After any sequence of
    rule changes, each cut short by a failure or a panic at any of its steps, of
    clock readings, stops and restarts, either the store has disabled itself or
    reading the snapshot file gives exactly the snapshot in memory, whose index
    and lists are those of that file. *)
Theorem served_rules_are_on_disk s :
  reachable (Running s) ->
  unavailable (state s) = true \/
  (read (disk s) true (max_rules_bytes config) = Ok (file (state s)) /\
   rebuild config (file (state s)) = Ok (state s)).
Proof.
  intros [Hb (f & Hf & _ & Hsame)]%reachable_ok. destruct (unavailable (state s)) eqn:Hu; [by left|right].
  rewrite <- Hsame by done. split; [by apply read_on_disk|]. apply rebuild_Ok. by rewrite Hsame.
Qed.

Lemma install_refused s t docs g e q ns document p :
  coherent s -> delta_parsed (Install t docs g e q ns) -> document ∈ docs ->
  has_marker (do_not_reapply (file (state s))) document g ->
  prepare_delta config s (Install t docs g e q ns) <> Ok p.
Proof.
  intros [Hb _] [Ht Hd] Hin Hm (c & _ & Ha & _)%prepare_delta_Ok.
  unfold apply_delta in Ha. apply bind_Ok in Ha as (s1 & Ha & _).
  apply install_all_effect in Ha as [_ Hun _ _ _ _]; [|done..].
  apply marked_iff in Hm; [|by apply validate_snapshot_Ok, (built_valid config)].
  by rewrite Hun in Hm.
Qed.

(** C20: A reversed decision is never reapplied. Once a document is marked for
    a ground, it stays marked after any further changes, failures, stops and
    restarts, and no rule for that ground can be installed on it again. *)
Theorem reversals_are_permanent s s' document g :
  reachable (Running s) -> marked (state s) document g = true ->
  rtc owner_step (Running s) (Running s') ->
  marked (state s') document g = true /\
  forall t docs e q ns p, delta_parsed (Install t docs g e q ns) -> document ∈ docs ->
    prepare_delta config s' (Install t docs g e q ns) <> Ok p.
Proof.
  intros Hr Hm%marked_has_marker Hs. destruct (owner_steps_ok _ _ Hs (reachable_ok _ Hr)) as [Hc Hk].
  specialize (Hk document g Hm). split.
  - apply marked_iff; [|done]. by apply validate_snapshot_Ok, (built_valid config), coherent_built.
  - intros. by apply install_refused with document.
Qed.

(** *** Time *)

Fixpoint readings (s : RulesStore) (utcs : list Z) : list Z :=
  match utcs with
  | [] => []
  | utc :: utcs' => let (s, now) := serving_now s utc in now :: readings s utcs'
  end.

Lemma readings_ge s utcs now : now ∈ readings s utcs -> observed_utc s <= now.
Proof.
  revert s; induction utcs as [|utc utcs IH]; intros s; cbn; [by intros ?%elem_of_nil|].
  intros [->|H]%elem_of_cons; [lia|]. apply IH in H. cbn in H. lia.
Qed.

Lemma readings_sorted s utcs : StronglySorted Z.le (readings s utcs).
Proof.
  revert s; induction utcs as [|utc utcs IH]; intros s; cbn; [constructor|].
  constructor; [apply IH|]. apply Forall_forall. intros now H%readings_ge. done.
Qed.

(** Moving the wall clock back never lifts a denial. The seconds the store
    serves with never decrease, whatever the clock reads, so a document denied
    at one reading is denied at every later one with the same rules. *)
Theorem denials_survive_clock_rollback s utcs i j now later document url query context cache :
  well_built config (state s) ->
  readings s utcs !! i = Some now -> readings s utcs !! j = Some later -> (i <= j)%nat ->
  now <= later /\
  ((allows (state s) document url query context now cache).1 = Some false ->
   (allows (state s) document url query context later cache).1 = Some false).
Proof.
  intros Hw Hi Hj Hij. assert (now <= later) as Hle.
  { destruct (decide (i = j)) as [->|Hne]; [simplify_eq; lia|].
    by apply (StronglySorted_lookup _ _ i j now later (readings_sorted s utcs)); [lia|..]. }
  split; [done|]. pose proof (indexed_any config (state s) document) as Hx.
  unfold allows. destruct (unavailable (state s)); [done|].
  destruct (denies _ _ _ _) as [[] cache']; [done|].
  pose proof (Hx (rule_applies query now) Hw) as H1. pose proof (Hx (rule_applies query later) Hw) as H2.
  destruct (by_document (state s) !! document); [|done]. rewrite H1, H2. cbn. intros [= E]. do 2 f_equal.
  apply negb_false_iff in E. apply negb_false_iff. apply existsb_exists in E as (r & Hr & Hd).
  apply existsb_exists. exists r. split; [done|]. unfold rule_applies in *. bool_to_prop.
  rewrite !andb_true_iff. split_and!; [done|apply Z.leb_le; lia|done].
Qed.
End Store.

(** ** Names *)

Lemma strictly_sorted (l : list str) :
  StronglySorted (cmp_le str_cmp) l -> NoDup l -> windows2_all str_ltb l = true.
Proof.
  intros Hs Hn. apply windows2_all_sorted; [apply str_ltb_trans|].
  induction Hs as [|x l Hs IH Hx]; [constructor|]. apply NoDup_cons in Hn as [Hx' Hn].
  constructor; [by apply IH|]. rewrite Forall_forall in Hx |- *. intros y Hy. specialize (Hx y Hy).
  unfold cmp_le, str_ltb in *. destruct (str_cmp x y) eqn:E; [|done..].
  apply str_cmp_Eq in E as ->. done.
Qed.

Lemma btree_elements_sorted s : windows2_all str_ltb (btree_elements s) = true.
Proof.
  apply strictly_sorted.
  - apply stable_sort_sorted; [intros; apply str_cmp_opp|apply str_le_trans].
  - unfold btree_elements. rewrite stable_sort_perm. apply NoDup_elements.
Qed.

Lemma elem_of_btree_elements s x : x ∈ btree_elements s <-> x ∈ s.
Proof. unfold btree_elements. by rewrite elem_of_stable_sort, elem_of_elements. Qed.

Lemma length_btree_elements s : length (btree_elements s) = size s.
Proof. unfold btree_elements. by rewrite stable_sort_perm. Qed.

Lemma size_set_map (f : str -> str) (X : gset str) : (size (set_map (D := gset str) f X) <= size X)%nat.
Proof.
  induction X as [|x X Hx IH] using set_ind_L; [by rewrite set_map_empty, size_empty|].
  rewrite set_map_union_L, set_map_singleton_L, (size_union {[x]} X), size_singleton by set_solver.
  pose proof (size_union_alt ({[f x]} : gset str) (set_map f X)) as E. rewrite E, size_singleton.
  pose proof (subseteq_size (set_map (D := gset str) f X ∖ {[f x]}) (set_map f X) ltac:(set_solver)). lia.
Qed.

(** C22: A stored name set is valid and matches by whole tokens. Hashing an
    accepted name gives a set that passes the snapshot's own validation, and it
    matches a query if and only if every token of the name has the salted
    digest of some token of the query; in particular every query that contains
    all the name's tokens. *)
Theorem name_sets_match_whole_tokens name sl n query :
  NameSet_new name sl = Ok n ->
  NameSet_validate n = Ok tt /\
  (NameSet_matches n query = true <->
   forall token, token ∈ query_tokens name ->
     exists token', token' ∈ query /\ token_hash sl token = token_hash sl token') /\
  (query_tokens name ⊆ query -> NameSet_matches n query = true).
Proof.
  unfold NameSet_new, name_tokens. intros (ts & H & [= <-])%bind_Ok.
  apply bind_Ok in H as ([] & _ & H). apply bind_Ok in H as ([] & Hv%validate_Ok & H).
  apply bind_Ok in H as ([] & _ & [= <-]).
  assert (NameSet_matches {| salt := sl; tokens := btree_elements
      (set_map (token_hash sl) (query_tokens name)) |} query = true <->
    forall token, token ∈ query_tokens name ->
      exists token', token' ∈ query /\ token_hash sl token = token_hash sl token') as Hm.
  { unfold NameSet_matches. rewrite forallb_forall. cbn [salt tokens].
    setoid_rewrite <- list_elem_of_In. setoid_rewrite elem_of_btree_elements.
    setoid_rewrite bool_decide_eq_true. set_solver. }
  split_and!; [|done|].
  - unfold NameSet_validate. cbn [tokens]. rewrite btree_elements_sorted, length_btree_elements.
    rewrite (proj2 (validate_Ok _ _ tt)); [done|]. revert Hv. eval_bounds. intros Hv.
    pose proof (size_set_map (token_hash sl) (query_tokens name)) as Hle. split; [|lia].
    destruct (size_pos_elem_of (query_tokens name)) as [t Ht]; [lia|].
    assert (size (set_map (D := gset str) (token_hash sl) (query_tokens name)) <> 0%nat);
      [apply size_non_empty_iff; set_solver|lia].
  - intros Hsub. apply Hm. intros t Ht. exists t. split; [set_solver|done].
Qed.
End Rules.

(** ** A reference encoding, tokenizer and a store to run *)

Module RulesReference.
Import UrlReference ChronoReference JsonReference Codec.

#[export] Instance Ground_codec : Codec Ground.
Proof. refine (codec_of (fun g => as_str g) (fun s => ok (parse s)) _). intros g. by rewrite parse_as_str. Defined.
#[export] Instance NameSet_codec : Codec NameSet.
Proof.
  refine (codec_of (fun n => (salt n, tokens n)) (fun '(s, ts) => Some (Build_NameSet s ts)) _).
  by intros [].
Defined.
#[export] Instance RuleKind_codec : Codec RuleKind.
Proof.
  refine (codec_of (fun k => match k with Kind_Global => 0 | Kind_Name => 1 end)
    (fun n => Some (if n =? 0 then Kind_Global else Kind_Name)) _).
  by intros [].
Defined.
#[export] Instance Rule_codec : Codec Rule.
Proof.
  refine (codec_of
    (fun r => (rule_key r, rule_ticket r, rule_document r, rule_ground r,
               (rule_kind r, effective_at r, intent_sequence r, name_sets r)))
    (fun '(k, t, d, g, (kd, e, q, ns)) => Some (Build_Rule k t d g kd e q ns)) _).
  by intros [].
Defined.
#[export] Instance Marker_codec : Codec Marker.
Proof.
  refine (codec_of (fun m => (marker_document m, marker_ground m, reversed_at m, marker_sequence m))
    (fun '(d, g, a, q) => Some (Build_Marker d g a q)) _).
  by intros [].
Defined.
#[export] Instance ListedData_codec : Codec ListedData.
Proof.
  refine (codec_of (fun l => (listed_version l, url_hashes l, listed_hosts l))
    (fun '(v, u, h) => Some (Build_ListedData v u h)) _).
  by intros [].
Defined.
#[export] Instance SnapshotFile_codec : Codec SnapshotFile.
Proof.
  refine (codec_of
    (fun f => (format_version f, generation f, rules f, do_not_reapply f, listed_data f))
    (fun '(v, g, r, m, l) => Some (Build_SnapshotFile v g r m l)) _).
  by intros [].
Defined.

#[export] Instance ids_parsed_dec r : base.Decision (ids_parsed r).
Proof. unfold ids_parsed. apply _. Defined.

#[export] Instance rules_json_reference : RulesJson := {
  rules_to_vec f := Some (put f);
  rules_from_slice b :=
    '(f, _) ← get b; if bool_decide (Forall ids_parsed (rules f)) then Some f else None;
  listed_to_vec l := Some (put l);
}.
#[export] Instance rules_json_reference_laws : RulesJsonLaws rules_json_reference.
Proof.
  split; cbn [rules_to_vec rules_from_slice listed_to_vec rules_json_reference].
  - intros f b Hb Hf. apply (inj Some) in Hb as <-. rewrite get_put. cbn [mbind option_bind]. by rewrite bool_decide_eq_true_2.
  - intros b f ([f' rest] & _ & H)%bind_Some. case_bool_decide; [|done]. by injection H as <-.
  - intros l l' b Hl Hl'. apply (inj Some) in Hl as <-. apply (inj Some) in Hl'. by apply put_inj.
Qed.

(** Words between spaces. *)
#[export] Instance tokenizing_reference : Tokenizing := {
  token_stream s := List.filter (fun w => negb (is_empty w)) (split 32 s);
  is_alphanumeric c := is_ascii_alphanumeric c;
}.

Definition id_of (c : char) : str := repeat c 64.
Definition all_done : PersistRun := {|
  hook_open := Done; create_new := Done; leaf_left := false; hook_write := Done; write_all := Done;
  hook_sync_file := Done; sync_all := Done; hook_rename := Done; rename := Done;
  hook_sync_directory := Done; sync_parent := Done; remove_file := true |}.
(** The directory is not synced after the rename. *)
Definition late_failure : PersistRun := {|
  hook_open := Done; create_new := Done; leaf_left := false; hook_write := Done; write_all := Done;
  hook_sync_file := Done; sync_all := Done; hook_rename := Done; rename := Done;
  hook_sync_directory := Done; sync_parent := Failed; remove_file := true |}.
Definition config0 : ComplianceConfig := ComplianceConfig_default.
Definition opened := store_open config0 true true [] true true
  {| snapshot_json := None; temporaries := ∅ |} ListedMatcher_empty 7 0 all_done 1000.
Definition no_store : RulesStore := {|
  state := {| file := fresh_file (data ListedMatcher_empty); by_document := ∅;
              listed := ListedMatcher_empty; unavailable := true |};
  disk := {| snapshot_json := None; temporaries := ∅ |}; observed_utc := 0 |}.
Definition store0 : RulesStore := default no_store (ok opened.2).
Definition install0 : RuleDelta :=
  Install (id_of 97) [id_of 48; id_of 49] Ground_IllegalContent 1100 5 [].
Definition reverse0 : RuleDelta := Reverse (id_of 97) [id_of 48] Ground_IllegalContent 1200 6.
Definition store1 : RulesStore := (change config0 store0 install0 7 1 all_done).1.
Definition store2 : RulesStore := (change config0 store1 reverse0 7 2 all_done).1.

Lemma opened_store0 : opened = (disk store0, Ok store0).
Proof. vm_compute. reflexivity. Qed.

Lemma install0_parsed : delta_parsed install0.
Proof. by split; [vm_compute|repeat constructor; vm_compute]. Qed.

Lemma reachable_steps s : rtc (owner_step config0) (Running store0) (Running s) ->
  reachable config0 (Running s).
Proof.
  intros Hs. exists true, [], true, true, ListedMatcher_empty, 7, 0, all_done, 1000, (disk store0), store0.
  split; [apply opened_store0|done].
Qed.

Lemma store1_step : owner_step config0 (Running store0) (Running store1).
Proof. apply step_change, install0_parsed. Qed.
Lemma store2_step : owner_step config0 (Running store1) (Running store2).
Proof. by apply step_change. Qed.
Lemma store2_reachable : reachable config0 (Running store2).
Proof. apply reachable_steps. by eapply rtc_l, rtc_l, rtc_refl; [apply store1_step|apply store2_step]. Qed.

Lemma store1_built : well_built config0 (state store1).
Proof. split; vm_compute; reflexivity. Qed.
End RulesReference.

Module RulesWitness.
Import UrlReference ChronoReference JsonReference RulesReference.

Definition context0 : RuleContext := {| country := Country_Unknown; is_child := true; uk_measures := true |}.
Definition page : str := lit "https://a.example.org/x".

Lemma index_decides_like_a_scan_witness :
  (allows (state store1) (id_of 48) page ∅ context0 1100 ∅).1 = Some false /\
  (allows (state store1) (id_of 48) page ∅ context0 1099 ∅).1 = Some true.
Proof.
  split; (etransitivity; [exact (f_equal fst (index_decides_like_a_scan config0 (state store1)
    (id_of 48) page ∅ context0 _ ∅ store1_built))|vm_compute; reflexivity]).
Defined.

Definition prepared1 : PreparedRules :=
  default {| prepared := state no_store; bytes := [] |} (ok (prepare_delta config0 store1 reverse0)).
Lemma prepared1_ok : prepare_delta config0 store1 reverse0 = Ok prepared1.
Proof. vm_compute. reflexivity. Qed.

Lemma prepared_change_is_exact_witness : verifies (prepared prepared1) reverse0 = Some true.
Proof.
  refine (proj1 (prepared_change_is_exact config0 store1 reverse0 prepared1 store1_built _ I prepared1_ok)).
  apply (bool_decide_eq_true_1 _). vm_compute. reflexivity.
Defined.

Lemma served_rules_are_on_disk_witness :
  read (disk store2) true (max_rules_bytes config0) = Ok (file (state store2)).
Proof.
  destruct (served_rules_are_on_disk config0 store2 store2_reachable) as [Hu|[Hr _]];
    [vm_compute in Hu; discriminate|exact Hr].
Defined.

Lemma reversals_are_permanent_witness :
  marked (state (change config0 store2 install0 7 3 all_done).1) (id_of 48) Ground_IllegalContent = true /\
  (change config0 store2 install0 7 3 all_done).2 = Err InvalidTransition.
Proof.
  split; [|vm_compute; reflexivity].
  apply (reversals_are_permanent config0 store2 _ (id_of 48) Ground_IllegalContent store2_reachable).
  - vm_compute. reflexivity.
  - apply rtc_once, step_change, install0_parsed.
Defined.

Lemma denials_survive_clock_rollback_witness :
  (allows (state store1) (id_of 48) page ∅ context0 1150 ∅).1 = Some false.
Proof.
  refine (proj2 (denials_survive_clock_rollback config0 store1 [1120; 1150; 900] 0 2 1120 1150
    (id_of 48) page ∅ context0 ∅ store1_built eq_refl eq_refl _) _); [lia|vm_compute; reflexivity].
Defined.

Lemma name_sets_match_whole_tokens_witness :
  exists n, NameSet_new (lit "Ada Byron") (id_of 97) = Ok n /\
    NameSet_matches n (query_tokens (lit "who was Byron or Ada")) = true.
Proof.
  destruct (NameSet_new (lit "Ada Byron") (id_of 97)) as [n|e] eqn:Hn; [|vm_compute in Hn; discriminate].
  exists n. split; [reflexivity|].
  apply (name_sets_match_whole_tokens (lit "Ada Byron") (id_of 97) n _ Hn).
  apply (bool_decide_eq_true_1 _). vm_compute. reflexivity.
Defined.
End RulesWitness.
