(* ===== verification/Payload.v ===== *)
(** * Personal revisions ([compliance/payload.rs])

    Personal report content is kept outside the journal, one immutable file
    per revision, and the journal row that refers to a revision carries its
    salted commitment. The directory is a map from ticket names to maps from
    file names to bytes; every operation takes the outcomes of its system
    calls and hooks. The check of an intake ([compliance/tickets.rs]) is here
    because reading a revision repeats it. *)

From S2P Require Import Prelude Text Externals Disk Compliance Canonical ComplianceModel JournalRow.
From S2P Require Import Listed Rules Journal.

#[local] Open Scope Z_scope.

Record Notice := { notice_text : str; remedies : list str }.
Inductive PersonalEvent :=
| Personal_Intake (intake : Intake)
| Personal_Identity (event : IdentityEvent) (reasons : str)
| Personal_Extension (necessity : Necessity) (reasons notice : str) (delivery : Delivery)
| Personal_Decision (decision : ComplianceModel.Decision) (name_rule_salts : list Hex64) (notice : Notice)
| Personal_Appeal (reasons : str) (related_ticket_id : option TicketId)
| Personal_Reversal (reasons : str) (delivery : Delivery) (notice : Notice)
| Personal_Uphold (reasons : str) (delivery : Delivery) (notice : Notice)
| Personal_Progress (enquiries update : str) (delivery : Delivery)
| Personal_Closure (reasons : str).

Record StoredPayload := {
  stored_version : Z;
  stored_ticket : TicketId;
  stored_sequence : Z;
  stored_salt : Hex64;
  stored_content : PersonalEvent;
}.

(** [serde_json] at the types of a revision: the file's text, and the value of
    the [Binding] (version 1, ticket, sequence and content) that is committed to. *)
Class PayloadJson := {
  stored_to_vec : StoredPayload -> option (list Z);
  stored_from_slice : list Z -> option StoredPayload;
  binding_to_value : TicketId -> Z -> PersonalEvent -> option Value;
}.

(** ** Checks *)

Definition reason (s : str) : cres unit := text s Key_Reason Class_Narrative.
Definition narrative (s : str) : cres unit := text s Key_Narrative Class_Narrative.
Definition evidence_of (s : str) : cres unit := text s Key_Evidence Class_Narrative.
Definition validate_notice (n : Notice) : cres unit :=
  _ ← text (notice_text n) Key_ServiceNotice Class_Narrative; try_for_each narrative (remedies n).

(** A [u64] as eight bytes, most significant first. *)
Definition to_be_bytes (n : Z) : list Z := map (fun i => Z.shiftr n (8 * (7 - i)) mod 256) (seqZ 0 8).

(** Ticket directories, and the files in each. *)
Abbreviation PayloadDisk := (gmap str (gmap str (list Z))) (only parsing).

Section Payload.
Context `{T : Tokenizing} `{D : Digest} `{JT : JsonText} `{J : PayloadJson}.

Definition validate_intake (i : Intake) : cres unit :=
  _ ← ReportFields_validate (report i);
  _ ← (if bool_decide (route_of i ∈ [Route_DataProtectionComplaint; Route_OnlineSafetyComplaint])
       then refuse_if (negb (is_empty (assets i))) InvalidInput
       else validate Key_Urls (Z.of_nat (length (assets i))));
  let ids : gset str := list_to_set (map document_id (assets i)) in
  _ ← refuse_if (negb (Z.of_nat (size ids) =? Z.of_nat (length (assets i)))) InvalidInput;
  match category i with
  | Intake_IllegalContent suspected_illegality => evidence_of suspected_illegality
  | Intake_HarmfulToChildren harm_description => evidence_of harm_description
  | Intake_RightsRemoval rights_basis authority => _ ← evidence_of rights_basis; evidence_of authority
  | Intake_IntimateImages intimate_image_content subject_or_authorised good_faith =>
      refuse_if (negb intimate_image_content || negb subject_or_authorised || negb good_faith)
        InvalidInput
  | Intake_DataRights request_kind names =>
      _ ← validate (if bool_decide (request_kind = RequestKind_Delisting)
                    then Key_RequiredNames else Key_OptionalNames) (Z.of_nat (length names));
      try_for_each (fun n => _ ← name_tokens (name n); evidence_of (evidence_text n)) names
  | _ => Ok tt
  end.

Definition PersonalEvent_validate (e : PersonalEvent) : cres unit :=
  match e with
  | Personal_Intake intake => validate_intake intake
  | Personal_Identity _ reasons | Personal_Appeal reasons _ | Personal_Closure reasons =>
      reason reasons
  | Personal_Extension _ reasons notice delivery =>
      _ ← reason reasons; _ ← narrative notice; Delivery_validate delivery
  | Personal_Decision decision name_rule_salts notice =>
      _ ← Decision_validate decision;
      _ ← validate Key_OptionalNames (Z.of_nat (length name_rule_salts));
      validate_notice notice
  | Personal_Reversal reasons delivery notice | Personal_Uphold reasons delivery notice =>
      _ ← reason reasons; _ ← Delivery_validate delivery; validate_notice notice
  | Personal_Progress enquiries update delivery =>
      _ ← narrative enquiries; _ ← narrative update; Delivery_validate delivery
  end.

(** ** Commitments *)

Definition payload_domain : list Z := as_bytes (lit "AVA619-PAYLOAD-v1") ++ [0].
Definition commitment_of (ticket : TicketId) (sequence : Z) (salt : Hex64) (content : PersonalEvent)
    : cres str :=
  value ← ok_or (binding_to_value ticket sequence content) Unavailable;
  bytes ← canonical_value value;
  Ok (sha256 [payload_domain; salt_bytes salt; to_be_bytes (Z.of_nat (length bytes)); bytes]).

Record PreparedPayload := {
  payload_ticket : TicketId;
  payload_number : Z;
  payload_content : PersonalEvent;
  payload_bytes : list Z;
  payload_commitment : str;
}.
Definition byte_length (p : PreparedPayload) : Z := Z.of_nat (length (payload_bytes p)).

Definition prepare_with_salt (ticket : TicketId) (sequence : Z) (content : PersonalEvent) (salt : Hex64)
    : cres PreparedPayload :=
  _ ← validate_range sequence 1 u64_max;
  _ ← PersonalEvent_validate content;
  commitment ← commitment_of ticket sequence salt content;
  json ← ok_or (stored_to_vec {| stored_version := 1; stored_ticket := ticket;
                                 stored_sequence := sequence; stored_salt := salt;
                                 stored_content := content |}) Unavailable;
  let bytes := json ++ [ch_lf] in
  _ ← map_err Capacity (validate Key_PayloadFile (Z.of_nat (length bytes)));
  Ok {| payload_ticket := ticket; payload_number := sequence; payload_content := content;
        payload_bytes := bytes; payload_commitment := commitment |}.
Definition payload_prepare (ticket : TicketId) (sequence : Z) (content : PersonalEvent)
    (fill : cres (list Z)) : cres PreparedPayload :=
  salt ← Hex64_random fill; prepare_with_salt ticket sequence content salt.

(** ** The directory *)

Definition file_name (sequence : Z) : str := pad20 sequence ++ lit ".json".
Definition payload_file (d : PayloadDisk) (ticket : TicketId) (sequence : Z) : option (list Z) :=
  files ← d !! ticket; files !! file_name sequence.
Definition directory (d : PayloadDisk) (ticket : str) : gmap str (list Z) := default ∅ (d !! ticket).
Definition put_file (ticket name : str) (bytes : list Z) (d : PayloadDisk) : PayloadDisk :=
  <[ticket := <[name := bytes]> (directory d ticket)]> d.
Definition remove_payload (ticket name : str) (d : PayloadDisk) : PayloadDisk :=
  <[ticket := delete name (directory d ticket)]> d.

(** Outcomes of opening, reading and the decode hook; a missing file is not a
    failed open. *)
Record ReadIo := { read_open : bool; read_all : bool; before_decode : bool }.

Definition read_authorized_measured (d : PayloadDisk) (io : ReadIo) (ticket : TicketId) (sequence : Z)
    (expected : str) (purge_authorized : bool) : cres (option (PersonalEvent * Z)) :=
  _ ← refuse_if (negb (read_open io)) Unavailable;
  match payload_file d ticket sequence with
  | None => if purge_authorized then Ok None else Err Unavailable
  | Some file =>
      bytes ← read_bounded (read_all io) file (spec_max (spec Key_PayloadFile));
      _ ← refuse_if (negb (before_decode io)) Unavailable;
      stored ← ok_or (stored_from_slice bytes) Unavailable;
      _ ← refuse_if (negb (stored_version stored =? 1) ||
                     negb (str_eqb (stored_ticket stored) ticket) ||
                     negb (stored_sequence stored =? sequence)) Unavailable;
      _ ← PersonalEvent_validate (stored_content stored);
      found ← commitment_of ticket sequence (stored_salt stored) (stored_content stored);
      _ ← refuse_if (negb (str_eqb found expected)) Unavailable;
      canonical ← ok_or (stored_to_vec stored) Unavailable;
      _ ← refuse_if (negb (str_eqb bytes (canonical ++ [ch_lf]))) Unavailable;
      Ok (Some (stored_content stored, Z.of_nat (length bytes)))
  end.
Definition read_authorized (d : PayloadDisk) (io : ReadIo) (ticket : TicketId) (sequence : Z)
    (expected : str) (purge_authorized : bool) : cres (option PersonalEvent) :=
  loaded ← read_authorized_measured d io ticket sequence expected purge_authorized;
  Ok (option_map fst loaded).
Definition payload_read (d : PayloadDisk) (io : ReadIo) (ticket : TicketId) (sequence : Z)
    (expected : str) : cres PersonalEvent :=
  loaded ← read_authorized d io ticket sequence expected false; ok_or loaded Unavailable.

(** The walk over the parent directories; a failed one may have created the
    root, or the ticket's directory, before it failed. *)
Inductive Walk := Walk_done | Walk_failed (root_made directory_made : bool).
Record WriteIo := {
  before_payload_write : bool;
  parent_walk : Walk;
  leaf_open : bool;
  leaf_facts : bool;
  payload_write : option nat;
  payload_sync : bool;
  payload_readback : ReadIo;
  payload_dir_sync : bool;
  after_payload_sync : bool;
}.
Definition make_directory (ticket : str) (d : PayloadDisk) : PayloadDisk :=
  <[ticket := directory d ticket]> d.

(** Returns the directory, the request's write progress and the result. *)
Definition write_tracked (d : PayloadDisk) (io : WriteIo) (p : PreparedPayload) (progress : bool)
    : PayloadDisk * bool * cres unit :=
  let ticket := payload_ticket p in
  let name := file_name (payload_number p) in
  if negb (before_payload_write io) then (d, progress, Err Unavailable)
  else match parent_walk io with
  | Walk_failed root made =>
      if made && bool_decide (d !! ticket = None) then (make_directory ticket d, true, Err Unavailable)
      else (d, progress || root, Err Unavailable)
  | Walk_done =>
      let progress := progress || bool_decide (d !! ticket = None) in
      let d := make_directory ticket d in
      if negb (leaf_open io) || bool_decide (is_Some (directory d ticket !! name))
      then (d, progress, Err Unavailable)
      else if negb (leaf_facts io) then (put_file ticket name [] d, true, Err Unavailable)
      else match payload_write io with
      | Some n => (put_file ticket name (take n (payload_bytes p)) d, true, Err Unavailable)
      | None =>
          let d := put_file ticket name (payload_bytes p) d in
          (d, true,
           _ ← refuse_if (negb (payload_sync io)) Unavailable;
           _ ← payload_read d (payload_readback io) ticket (payload_number p) (payload_commitment p);
           refuse_if (negb (payload_dir_sync io && after_payload_sync io)) Unavailable)
      end
  end.

(** ** Purging *)

(** The entries of a [BTreeMap<u64, _>] in its order. *)
Definition btree_entries {A} (m : gmap Z A) : list (Z * A) :=
  stable_sort (fun a b => Z.compare a.1 b.1) (map_to_list m).

Record PurgeIo := {
  purge_read : ReadIo;
  before_purge_delete : bool;
  purge_remove : bool;
  purge_dir_sync : bool;
  after_purge_delete : bool;
}.
Fixpoint purge_entries (io : Z -> PurgeIo) (ticket : TicketId) (refs : list (Z * str)) (d : PayloadDisk)
    : PayloadDisk * cres unit :=
  match refs with
  | [] => (d, Ok tt)
  | (sequence, expected) :: refs' =>
      match read_authorized d (purge_read (io sequence)) ticket sequence expected true with
      | Err e => (d, Err e)
      | Ok None => purge_entries io ticket refs' d
      | Ok (Some _) =>
          if negb (before_purge_delete (io sequence) && purge_remove (io sequence))
          then (d, Err Unavailable)
          else
            let d := remove_payload ticket (file_name sequence) d in
            if negb (purge_dir_sync (io sequence) && after_purge_delete (io sequence))
            then (d, Err Unavailable)
            else purge_entries io ticket refs' d
      end
  end.
Definition payload_purge (io : Z -> PurgeIo) (ticket : TicketId) (references : gmap Z str)
    (d : PayloadDisk) : PayloadDisk * cres unit :=
  purge_entries io ticket (btree_entries references) d.

(** ** Inventory at startup *)

(** A file of the store by its name: twenty digits and [.json]. *)
Definition managed_name (n : str) : cres (option Z) :=
  match strip_suffix (lit ".json") n with
  | None => Ok None
  | Some stem =>
      if negb (byte_len stem =? 20) || negb (all_digits stem) then Ok None
      else
        sequence ← ok_or (parse_u64 stem) Unavailable;
        _ ← validate_range sequence 1 u64_max;
        Ok (Some sequence)
  end.
(** [names] is the listing of the ticket's directory. *)
Definition managed_files (names : list str) : cres (list (Z * str)) :=
  found ← try_map (fun n => s ← managed_name n; Ok (s, n)) names;
  Ok (stable_sort (fun a b => Z.compare a.1 b.1)
        (omap (fun '(s, n) => (fun s => (s, n)) <$> s) found)).

(** Listings and outcomes: the names of the root in the order of the listing,
    [None] for an entry that cannot be read, the names of each directory, and
    per file whether it can be read and removed. *)
Record InventoryIo := {
  root_private : bool;
  root_read : bool;
  root_names : list (option str);
  dir_private : str -> bool;
  dir_read : str -> bool;
  dir_names : str -> list str;
  orphan_read : str -> str -> bool;
  orphan_remove : str -> str -> bool;
  orphan_dir_sync : str -> str -> bool;
}.

Fixpoint count_files (io : InventoryIo) (referenced : gset (str * Z)) (lengths : gmap (str * Z) Z)
    (remove_orphans : bool) (ticket : str) (files : list (Z * str)) (total : Z) (d : PayloadDisk)
    : PayloadDisk * cres Z :=
  match files with
  | [] => (d, Ok total)
  | (sequence, n) :: files' =>
      if bool_decide ((ticket, sequence) ∈ referenced) then
        match (length ← ok_or (lengths !! (ticket, sequence)) Unavailable;
               ok_or (u64_checked_add total length) Unavailable) with
        | Err e => (d, Err e)
        | Ok total => count_files io referenced lengths remove_orphans ticket files' total d
        end
      else
        match read_bounded (orphan_read io ticket n) (default [] (directory d ticket !! n))
                (spec_max (spec Key_PayloadFile)) with
        | Err e => (d, Err e)
        | Ok bytes =>
            if remove_orphans then
              if negb (orphan_remove io ticket n) then (d, Err Unavailable)
              else
                let d := remove_payload ticket n d in
                if negb (orphan_dir_sync io ticket n) then (d, Err Unavailable)
                else count_files io referenced lengths remove_orphans ticket files' total d
            else
              match u64_checked_add total (Z.of_nat (length bytes)) with
              | None => (d, Err Unavailable)
              | Some total => count_files io referenced lengths remove_orphans ticket files' total d
              end
        end
  end.

Fixpoint count_tickets (io : InventoryIo) (referenced : gset (str * Z)) (lengths : gmap (str * Z) Z)
    (remove_orphans : bool) (names : list (option str)) (totals : gmap str Z) (d : PayloadDisk)
    : PayloadDisk * cres (gmap str Z) :=
  match names with
  | [] => (d, Ok totals)
  | None :: _ => (d, Err Unavailable)
  | Some n :: names' =>
      if negb (is_ok (TicketId_parse n))
      then count_tickets io referenced lengths remove_orphans names' totals d
      else
        match (_ ← refuse_if (negb (dir_private io n)) Unavailable;
               _ ← refuse_if (negb (dir_read io n)) Unavailable;
               managed_files (dir_names io n)) with
        | Err e => (d, Err e)
        | Ok files =>
            match count_files io referenced lengths remove_orphans n files 0 d with
            | (d, Err e) => (d, Err e)
            | (d, Ok total) =>
                count_tickets io referenced lengths remove_orphans names' (<[n := total]> totals) d
            end
        end
  end.
Definition inventory (io : InventoryIo) (referenced : gset (str * Z)) (lengths : gmap (str * Z) Z)
    (remove_orphans : bool) (d : PayloadDisk) : PayloadDisk * cres (gmap str Z) :=
  if negb (root_private io && root_read io) then (d, Err Unavailable)
  else count_tickets io referenced lengths remove_orphans (root_names io) ∅ d.
End Payload.

(** ** Laws of the serialization *)

Section Laws.
Context `{U : UrlOps} `{D : Digest}.

(** The identifiers and assets inside a value went through their parsers, as
    they do again when it is decoded. *)
Definition parsed_id (id : str) : Prop := Hex64_parse id = Ok id.
Definition decodable_event (e : PersonalEvent) : Prop :=
  match e with
  | Personal_Intake i =>
      Forall (fun a => Asset_new (asset_url a) (document_id a) = Ok a) (assets i) /\
      match category i with Intake_SiteComplaint _ (Some id) => parsed_id id | _ => True end
  | Personal_Decision d salts _ =>
      Forall parsed_id salts /\
      match d with ManifestlyUnfounded _ _ _ _ id => parsed_id id | _ => True end
  | Personal_Appeal _ (Some id) => parsed_id id
  | _ => True
  end.
Record decodable (s : StoredPayload) : Prop := {
  decodable_ticket : parsed_id (stored_ticket s);
  decodable_salt : parsed_id (stored_salt s);
  decodable_content : decodable_event (stored_content s);
}.

(** Compact JSON is read back (white space after it is allowed), what is
    decoded was parsed, and the value of a binding determines the binding
    whatever the order of its members. *)
Class PayloadJsonLaws (J : PayloadJson) : Prop := {
  stored_from_to s b :
    stored_to_vec s = Some b -> decodable s -> stored_from_slice (b ++ [ch_lf]) = Some s;
  stored_from_parsed b s : stored_from_slice b = Some s -> decodable s;
  binding_unique t q c v : binding_to_value t q c = Some v -> unique_keys v;
  binding_inj t q c v t' q' c' v' :
    binding_to_value t q c = Some v -> binding_to_value t' q' c' = Some v' ->
    normalize v = normalize v' -> t = t' /\ q = q' /\ c = c';
}.
End Laws.

Section Theorems.
Context `{U : UrlOps} `{T : Tokenizing} `{D : Digest} `{JT : JsonText} `{J : PayloadJson}.

(** ** Directory *)

Lemma payload_file_put d t n q bytes :
  payload_file (put_file t (file_name n) bytes d) t q =
    if decide (file_name n = file_name q) then Some bytes else payload_file d t q.
Proof.
  unfold payload_file, put_file, directory. rewrite lookup_insert_eq. cbn.
  case_decide as E; [by rewrite E, lookup_insert_eq|]. rewrite lookup_insert_ne by done.
  by destruct (d !! t).
Qed.
Lemma payload_file_put_ne d t t' n q bytes :
  t <> t' -> payload_file (put_file t n bytes d) t' q = payload_file d t' q.
Proof. intros Hne. unfold payload_file, put_file. by rewrite lookup_insert_ne. Qed.
Lemma payload_file_remove d t n q :
  payload_file (remove_payload t (file_name n) d) t q =
    if decide (file_name n = file_name q) then None else payload_file d t q.
Proof.
  unfold payload_file, remove_payload, directory. rewrite lookup_insert_eq. cbn.
  case_decide as E; [by rewrite E, lookup_delete_eq|]. rewrite lookup_delete_ne by done.
  by destruct (d !! t).
Qed.
Lemma payload_file_remove_ne d t t' n q :
  t <> t' -> payload_file (remove_payload t n d) t' q = payload_file d t' q.
Proof. intros Hne. unfold payload_file, remove_payload. by rewrite lookup_insert_ne. Qed.
Lemma payload_file_make d t t' q : payload_file (make_directory t d) t' q = payload_file d t' q.
Proof.
  unfold payload_file, make_directory, directory.
  destruct (decide (t = t')) as [->|]; [|by rewrite lookup_insert_ne].
  rewrite lookup_insert_eq. by destruct (d !! t').
Qed.

Lemma pad20_digits n : 0 <= n <= u64_max -> Forall digit_char (pad20 n) /\ digits_value (pad20 n) = n.
Proof.
  intros (_ & Hd & Hv)%dec_spec. unfold pad20. split.
  - apply Forall_app. split; [|done]. apply Forall_replicate. unfold digit_char. lia.
  - transitivity (digits_value (dec n)); [|done]. unfold digits_value. rewrite fold_left_app. f_equal.
    generalize (20 - length (dec n))%nat. intros k. induction k as [|k IH]; [done|]. exact IH.
Qed.
Lemma file_name_inj n m : 0 <= n <= u64_max -> 0 <= m <= u64_max -> file_name n = file_name m -> n = m.
Proof.
  intros [_ Hn]%pad20_digits [_ Hm]%pad20_digits E. unfold file_name in E.
  apply app_inv_tail in E. congruence.
Qed.

(** ** Commitments *)

Context `{DL : !DigestLaws D} `{JTL : !JsonTextLaws JT} `{JL : !PayloadJsonLaws J}.

Lemma salt_bytes_spec s : parsed_id s -> length (salt_bytes s) = 32%nat /\ hex (salt_bytes s) = s.
Proof.
  unfold parsed_id, Hex64_parse. intros (b & Hb & _)%bind_Ok. unfold salt_bytes. rewrite Hb. cbn.
  apply decode_hex_Ok in Hb as (-> & ? & _). done.
Qed.

Lemma commitment_binds t q s c t' q' s' c' h :
  parsed_id s -> parsed_id s' ->
  commitment_of t q s c = Ok h -> commitment_of t' q' s' c' = Ok h ->
  (t = t' /\ q = q' /\ s = s' /\ c = c') \/ sha256_collision.
Proof.
  intros Hs Hs' H H'. unfold commitment_of in H, H'.
  apply bind_Ok in H as (v & Hv%ok_or_Ok & H). apply bind_Ok in H as (b & Hb & [= <-]).
  apply bind_Ok in H' as (v' & Hv'%ok_or_Ok & H'). apply bind_Ok in H' as (b' & Hb' & [= E]).
  apply salt_bytes_spec in Hs as [Hl Hx], Hs' as [Hl' Hx'].
  apply hex_inj in E; [|apply digest_bytes..]. cbn [concat] in E. rewrite !app_nil_r in E.
  match type of E with digest_sha256 ?x = digest_sha256 ?y => destruct (decide (x = y)) as [Eb|Hne] end;
    [left|by right; do 2 eexists].
  apply app_inv_head, app_inj_1 in Eb as [Es Eb]; [|by rewrite Hl, Hl'].
  apply app_inj_1 in Eb as [_ Eb]; [|done]. subst b'.
  destruct (binding_inj _ _ _ _ _ _ _ _ Hv Hv') as (-> & -> & ->).
  { eapply canonical_injective; [by eapply binding_unique..|exact Hb|exact Hb']. }
  split_and!; [done..| |done]. by rewrite <- Hx, <- Hx', Es.
Qed.

(** A prepared revision, and the file it is written to. *)
Lemma prepare_with_salt_Ok t q c s p :
  prepare_with_salt t q c s = Ok p ->
  payload_ticket p = t /\ payload_number p = q /\ payload_content p = c /\
  1 <= q <= u64_max /\ PersonalEvent_validate c = Ok tt /\
  commitment_of t q s c = Ok (payload_commitment p) /\ 1 <= byte_length p <= 65536 /\
  exists json, stored_to_vec {| stored_version := 1; stored_ticket := t; stored_sequence := q;
                                stored_salt := s; stored_content := c |} = Some json /\
    payload_bytes p = json ++ [ch_lf].
Proof.
  unfold prepare_with_salt. intros (? & Hq%validate_range_Ok & H)%bind_Ok.
  apply bind_Ok in H as ([] & Hv & H). apply bind_Ok in H as (h & Hh & H).
  apply bind_Ok in H as (json & Hj%ok_or_Ok & H).
  apply bind_Ok in H as (? & Hl%map_err_Ok%validate_Ok & [= <-]). eval_bounds.
  unfold byte_length. cbn. split_and!; eauto; lia.
Qed.

(** What a read accepts. *)
Lemma read_Some d io t q expected authorized c len :
  read_authorized_measured d io t q expected authorized = Ok (Some (c, len)) ->
  exists file s,
    payload_file d t q = Some file /\ len = Z.of_nat (length file) /\ len <= 65536 /\
    PersonalEvent_validate c = Ok tt /\ commitment_of t q s c = Ok expected /\ parsed_id s.
Proof.
  unfold read_authorized_measured. intros ([] & _ & H)%bind_Ok.
  destruct (payload_file d t q) as [file|] eqn:Hf; [|by destruct authorized].
  apply bind_Ok in H as (b & Hb & H). unfold read_bounded in Hb.
  apply bind_Ok in Hb as (? & _ & Hb). apply bind_Ok in Hb as (? & Hl%map_err_Ok%validate_range_Ok & [= <-]).
  eval_bounds.
  apply bind_Ok in H as (? & _ & H). apply bind_Ok in H as (st & Hst%ok_or_Ok & H).
  apply bind_Ok in H as (? & _ & H). apply bind_Ok in H as ([] & Hv & H).
  apply bind_Ok in H as (h & Hh & H). apply bind_Ok in H as (? & He%refuse_if_Ok%negb_false_iff%str_eqb_eq & H).
  apply bind_Ok in H as (? & _ & H). apply bind_Ok in H as (? & _ & [= <- <-]). subst.
  apply stored_from_parsed in Hst as [_ Hs _]. eexists _, _. split_and!; try done; lia.
Qed.

Lemma payload_read_Ok d io t q expected c :
  payload_read d io t q expected = Ok c ->
  exists len, read_authorized_measured d io t q expected false = Ok (Some (c, len)).
Proof.
  unfold payload_read, read_authorized. intros (o & (x & Hx & [= <-])%bind_Ok & Ho%ok_or_Ok)%bind_Ok.
  destruct x as [[c' len]|]; [|done]. injection Ho as <-. eauto.
Qed.


(** ** Writing *)

Definition read_io_ok : ReadIo := {| read_open := true; read_all := true; before_decode := true |}.

Lemma make_directory_id d t : d !! t <> None -> make_directory t d = d.
Proof.
  intros H. unfold make_directory, directory. destruct (d !! t) eqn:E; [|done]. by apply insert_id.
Qed.
Lemma directory_make d t : directory (make_directory t d) t = directory d t.
Proof. unfold directory, make_directory, directory. by rewrite lookup_insert_eq. Qed.
Lemma directory_file d t q : directory d t !! file_name q = payload_file d t q.
Proof. unfold directory, payload_file. by destruct (d !! t). Qed.

(** What a write leaves: an earlier progress mark stays, nothing changes
    without one, only the revision's own file can change, and after success it
    holds the prepared bytes where there was no file. *)
Record write_effect (d : PayloadDisk) (p : PreparedPayload) (progress : bool) (d' : PayloadDisk)
    (progress' : bool) (r : cres unit) : Prop := {
  we_mark : progress = true -> progress' = true;
  we_none : progress' = false -> d' = d;
  we_frame : forall t q, t <> payload_ticket p \/ file_name q <> file_name (payload_number p) ->
    payload_file d' t q = payload_file d t q;
  we_done : r = Ok tt ->
    progress' = true /\ payload_file d (payload_ticket p) (payload_number p) = None /\
    payload_file d' (payload_ticket p) (payload_number p) = Some (payload_bytes p);
  we_directories : r = Ok tt -> forall t, t <> payload_ticket p -> directory d' t = directory d t;
}.

Lemma put_frame d t n bytes t' q :
  t' <> t \/ file_name q <> file_name n ->
  payload_file (put_file t (file_name n) bytes (make_directory t d)) t' q = payload_file d t' q.
Proof.
  intros H. destruct (decide (t' = t)) as [->|Hne].
  - rewrite payload_file_put, decide_False by naive_solver. apply payload_file_make.
  - rewrite payload_file_put_ne by done. apply payload_file_make.
Qed.

Lemma write_tracked_effect d io p progress d' progress' r :
  write_tracked d io p progress = (d', progress', r) -> write_effect d p progress d' progress' r.
Proof.
  unfold write_tracked. intros H.
  destruct (before_payload_write io); cbn [negb] in H; [|by injection H as <- <- <-].
  destruct (parent_walk io) as [|root made]; cycle 1.
  { destruct (made && _); injection H as <- <- <-; split; try done.
    - intros t q _. apply payload_file_make.
    - by intros ->. }
  set (d1 := make_directory (payload_ticket p) d) in H.
  destruct (negb (leaf_open io) || _) eqn:Hopen.
  { injection H as <- <- <-. split; try done.
    - by intros ->.
    - intros [_ Hd%bool_decide_eq_false]%orb_false_iff. by apply make_directory_id.
    - intros t q _. apply payload_file_make. }
  destruct (leaf_facts io); cbn [negb] in H; [|injection H as <- <- <-; split; try done; intros; by apply put_frame].
  destruct (payload_write io) as [k|]; injection H as <- <- <-; split; try done;
    try (intros; by apply put_frame).
  - intros _. apply orb_false_iff in Hopen as [_ Hn]. bool_to_prop.
    unfold d1 in Hn. rewrite directory_make, directory_file in Hn. split_and!; [done| |].
    + by apply eq_None_not_Some.
    + by rewrite payload_file_put, decide_True.
  - intros _ t Ht. unfold put_file, d1, make_directory, directory.
    by rewrite !lookup_insert_ne by done.
Qed.

(** Reading back the bytes of a prepared revision. *)
Lemma read_prepared d io t q c s p authorized :
  decodable {| stored_version := 1; stored_ticket := t; stored_sequence := q; stored_salt := s;
               stored_content := c |} ->
  prepare_with_salt t q c s = Ok p -> payload_file d t q = Some (payload_bytes p) ->
  read_open io = true -> read_all io = true -> before_decode io = true ->
  read_authorized_measured d io t q (payload_commitment p) authorized = Ok (Some (c, byte_length p)).
Proof.
  intros Hd (_ & _ & _ & Hq & Hv & Hc & Hl & json & Hj & Hb)%prepare_with_salt_Ok Hf H1 H2 H3.
  unfold read_authorized_measured. rewrite H1, Hf, H2, H3. cbn [negb refuse_if mbind result_bind].
  rewrite read_bounded_ok by (eval_bounds; unfold byte_length in Hl; lia). cbn [mbind result_bind].
  rewrite Hb, (stored_from_to _ _ Hj Hd). cbn [ok_or mbind result_bind stored_version stored_ticket stored_sequence
    stored_salt stored_content]. rewrite !Z.eqb_refl, !str_eqb_refl. cbn [negb orb refuse_if mbind result_bind].
  rewrite Hv. cbn [mbind result_bind]. rewrite Hc. cbn [mbind result_bind].
  rewrite str_eqb_refl, Hj. cbn [negb ok_or refuse_if mbind result_bind]. rewrite str_eqb_refl.
  unfold byte_length. by rewrite Hb.
Qed.

(** ** Purging *)

Record purge_effect (refs : list (Z * str)) (t : str) (d d' : PayloadDisk) : Prop := {
  pe_frame : forall t' q, t' <> t -> payload_file d' t' q = payload_file d t' q;
  pe_same : forall q, 0 <= q <= u64_max ->
    payload_file d' t q = payload_file d t q \/
    (payload_file d' t q = None /\
     exists expected io c, (q, expected) ∈ refs /\ read_authorized d io t q expected true = Ok (Some c));
}.

Definition refs_ok (refs : list (Z * str)) : Prop :=
  NoDup (map fst refs) /\ Forall (fun r => 1 <= r.1 <= u64_max) refs.

Lemma read_authorized_ext d d' io t q expected authorized :
  payload_file d' t q = payload_file d t q ->
  read_authorized d' io t q expected authorized = read_authorized d io t q expected authorized.
Proof. intros E. unfold read_authorized, read_authorized_measured. by rewrite E. Qed.

Lemma read_authorized_None d io t q expected :
  read_authorized d io t q expected true = Ok None -> payload_file d t q = None.
Proof.
  unfold read_authorized. intros (x & Hx & [= Hn])%bind_Ok. destruct x as [[]|]; [done|].
  unfold read_authorized_measured in Hx. apply bind_Ok in Hx as (? & _ & Hx).
  destruct (payload_file d t q) as [f|]; [|done]. res_inv. done.
Qed.

Lemma purge_effect_cons (t : str) (q : Z) (expected : str) (refs : list (Z * str)) (d d1 d2 : PayloadDisk) :
  (forall t' k, t' <> t -> payload_file d1 t' k = payload_file d t' k) ->
  (forall k, 0 <= k <= u64_max -> k <> q -> payload_file d1 t k = payload_file d t k) ->
  (payload_file d1 t q = payload_file d t q \/ payload_file d1 t q = None /\
    exists io c, read_authorized d io t q expected true = Ok (Some c)) ->
  purge_effect refs t d1 d2 -> payload_file d2 t q = payload_file d1 t q ->
  purge_effect ((q, expected) :: refs) t d d2.
Proof.
  intros Ht Ho Hthis [Hf Hs] Hq2. split; [intros t' k Hne; by rewrite Hf, Ht|].
  intros k Hk. destruct (decide (k = q)) as [->|Hkq].
  - rewrite Hq2. destruct Hthis as [?|(? & i & c & ?)]; [by left|right]. split; [done|].
    exists expected, i, c. split; [left|done].
  - rewrite <- Ho by done. destruct (Hs k Hk) as [?|(? & e & i & c & He & Hread)]; [by left|right].
    split; [done|]. exists e, i, c. split; [by right|].
    rewrite <- Hread. symmetry. by apply read_authorized_ext, Ho.
Qed.

(** A file that no later reference names is left alone. *)
Lemma purge_effect_keeps t q refs d1 d2 :
  purge_effect refs t d1 d2 -> 0 <= q <= u64_max -> q ∉ map fst refs ->
  payload_file d2 t q = payload_file d1 t q.
Proof.
  intros [_ Hs] Hr Hq. destruct (Hs q Hr) as [?|(_ & e & _ & _ & He & _)]; [done|].
  destruct Hq. apply list_elem_of_In, in_map_iff. exists (q, e). split; [done|]. by apply list_elem_of_In.
Qed.

Lemma payload_file_removed d t q k :
  0 <= q <= u64_max -> 0 <= k <= u64_max ->
  payload_file (remove_payload t (file_name q) d) t k =
    if decide (q = k) then None else payload_file d t k.
Proof.
  intros Hq Hk. rewrite payload_file_remove. repeat case_decide; subst; try done.
  exfalso. auto using file_name_inj.
Qed.

Lemma purge_entries_effect io t refs d d' r :
  refs_ok refs -> purge_entries io t refs d = (d', r) ->
  purge_effect refs t d d' /\
  (r = Ok tt -> forall q, q ∈ map fst refs -> payload_file d' t q = None).
Proof.
  intros [Hnd Hr]. revert d. induction refs as [|[q expected] refs IH]; intros d H.
  { injection H as <- <-. split; [split; [done|by left]|]. intros _ q Hq. by apply elem_of_nil in Hq. }
  cbn in Hnd. apply NoDup_cons in Hnd as [Hq Hnd]. apply Forall_cons in Hr as [Hrange Hr]. cbn in Hrange.
  specialize (IH Hnd Hr). cbn [purge_entries] in H.
  assert (0 <= q <= u64_max) as Hq64 by lia.
  assert (purge_effect ((q, expected) :: refs) t d d) as Hid by (split; [done|by left]).
  destruct (read_authorized d _ t q expected true) as [[c|]|e] eqn:Hread.
  - destruct (negb _); [injection H as <- <-; by split|].
    set (d1 := remove_payload t (file_name q) d) in H.
    assert (payload_file d1 t q = None) as Hgone by (unfold d1; by rewrite payload_file_removed, decide_True).
    assert (forall d2, purge_effect refs t d1 d2 -> purge_effect ((q, expected) :: refs) t d d2) as Hone.
    { intros d2 He2. eapply purge_effect_cons; [by intros; apply payload_file_remove_ne| | |exact He2|].
      - intros k Hk Hkq. by rewrite payload_file_removed, decide_False.
      - right. split; [done|]. by eexists _, _.
      - by apply (purge_effect_keeps t q refs). }
    destruct (negb _) eqn:Hsync.
    + injection H as <- <-. split; [|done]. apply Hone. split; [done|by left].
    + destruct (IH _ H) as [He2 Hd2]. split; [by apply Hone|].
      cbn [map fst]. intros Hr' k [->|Hk]%elem_of_cons; [|auto].
      by rewrite (purge_effect_keeps t q refs d1).
  - destruct (IH _ H) as [He2 Hd2]. pose proof (purge_effect_keeps t q refs d d' He2 Hq64 Hq) as Hk2. split.
    + eapply purge_effect_cons; [..|exact He2|exact Hk2]; auto.
    + cbn [map fst]. intros Hr' k [->|Hk]%elem_of_cons; [|auto]. rewrite Hk2. by eapply read_authorized_None.
  - injection H as <- <-. by split.
Qed.

Definition purge_io_ok : PurgeIo := {|
  purge_read := read_io_ok; before_purge_delete := true; purge_remove := true;
  purge_dir_sync := true; after_purge_delete := true |}.
(** Each referenced revision is absent or reads back. *)
Definition purgeable (t : TicketId) (refs : list (Z * str)) (d : PayloadDisk) : Prop :=
  Forall (fun '(q, expected) => exists o, read_authorized d read_io_ok t q expected true = Ok o) refs.

Lemma purge_entries_complete t refs d :
  refs_ok refs -> purgeable t refs d ->
  exists d', purge_entries (fun _ => purge_io_ok) t refs d = (d', Ok tt).
Proof.
  intros [Hnd Hr]. revert d. induction refs as [|[q expected] refs IH]; intros d Hp; [by eexists|].
  cbn in Hnd. apply NoDup_cons in Hnd as [Hq Hnd]. apply Forall_cons in Hr as [Hrange Hr].
  apply Forall_cons in Hp as [[o Ho] Hp]. cbn [purge_entries purge_io_ok purge_read]. rewrite Ho.
  destruct o as [c|]; cbn [negb andb before_purge_delete purge_remove purge_dir_sync after_purge_delete];
    apply IH; try done.
  unfold purgeable in *. rewrite Forall_forall in Hp, Hr |- *. intros [k e] Hin.
  destruct (Hp _ Hin) as [o' Ho']. exists o'. rewrite <- Ho'. apply read_authorized_ext.
  cbn in Hrange. specialize (Hr _ Hin). cbn in Hr.
  rewrite payload_file_removed by lia. apply decide_False. intros ->. apply Hq, list_elem_of_In, in_map_iff.
  exists (k, e). split; [done|by apply list_elem_of_In].
Qed.

Lemma elem_of_btree_entries {A} (m : gmap Z A) k v : (k, v) ∈ btree_entries m <-> m !! k = Some v.
Proof. unfold btree_entries. rewrite elem_of_stable_sort. apply elem_of_map_to_list. Qed.
Lemma btree_entries_keys {A} (m : gmap Z A) : NoDup (map fst (btree_entries m)).
Proof.
  assert (map fst (btree_entries m) ≡ₚ map fst (map_to_list m)) as ->; [|apply NoDup_fst_map_to_list].
  apply Permutation_map, stable_sort_perm.
Qed.
Lemma btree_refs_ok (refs : gmap Z str) :
  map_Forall (fun q _ => 1 <= q <= u64_max) refs -> refs_ok (btree_entries refs).
Proof.
  intros Hr. split; [apply btree_entries_keys|]. apply Forall_forall.
  intros [q h] Hq%elem_of_btree_entries. by apply (Hr q h).
Qed.

Lemma payload_purge_effect io t refs d d' r :
  map_Forall (fun q _ => 1 <= q <= u64_max) refs -> payload_purge io t refs d = (d', r) ->
  purge_effect (btree_entries refs) t d d' /\
  (r = Ok tt -> forall q, is_Some (refs !! q) -> payload_file d' t q = None).
Proof.
  intros Hr%btree_refs_ok H. apply purge_entries_effect in H as [He Hd]; [|done]. split; [done|].
  intros Hok q [h Hq%elem_of_btree_entries]. apply (Hd Hok). apply list_elem_of_In, in_map_iff.
  exists (q, h). split; [done|]. by apply list_elem_of_In.
Qed.

(** Purging a ticket deletes all of its revisions and nothing else, and can
    always be finished. Whatever fails on the way, no file of another ticket and
    no unreferenced file is touched, and a file is deleted only after it was read
    and matched the commitment of its journal row; after success none of the
    referenced revisions is left. When every revision was readable to begin with,
    repeating an interrupted purge once the disk works succeeds. *)
Theorem purge_is_exact_and_resumable io t refs d d' r :
  map_Forall (fun q _ => 1 <= q <= u64_max) refs ->
  payload_purge io t refs d = (d', r) ->
  purge_effect (btree_entries refs) t d d' /\
  (r = Ok tt -> forall q, is_Some (refs !! q) -> payload_file d' t q = None) /\
  (purgeable t (btree_entries refs) d ->
   exists d'', payload_purge (fun _ => purge_io_ok) t refs d' = (d'', Ok tt)).
Proof.
  intros Hr H. destruct (payload_purge_effect _ _ _ _ _ _ Hr H) as [He Hd]. split_and!; [done..|].
  intros Hp. apply purge_entries_complete; [by apply btree_refs_ok|].
  unfold purgeable in *. rewrite Forall_forall in Hp |- *. intros [q h] Hin.
  destruct (Hp _ Hin) as [o Ho]. apply elem_of_btree_entries in Hin. specialize (Hr q h Hin). cbn in Hr.
  destruct (pe_same _ _ _ _ He q ltac:(lia)) as [E|[E _]].
  - exists o. rewrite <- Ho. by apply read_authorized_ext.
  - exists None. unfold read_authorized, read_authorized_measured. cbn. by rewrite E.
Qed.
End Theorems.
