(* ===== verification/Inventory.v ===== *)
(** * The inventory of the revisions

    What [inventory] of [compliance/payload.rs] counts, when its listing is that
    of the directory: for each ticket the bytes of the files its rows refer to. *)

From S2P Require Import Prelude Text Externals Disk Compliance Canonical ComplianceModel.
From S2P Require Import Listed Rules Journal Payload.

#[local] Open Scope Z_scope.

(** ** Names *)

Section Names.
Context `{U : UrlOps} `{T : Tokenizing} `{D : Digest} `{JT : JsonText} `{J : PayloadJson}.

Lemma digit_chars s : all_digits s = true <-> Forall digit_char s.
Proof.
  unfold all_digits. rewrite forallb_forall, Forall_forall. unfold is_ascii_digit, between, digit_char.
  split; intros H x Hx; specialize (H x); rewrite <- list_elem_of_In in *; specialize (H Hx); bool_to_prop; lia.
Qed.
Lemma digits_len s : Forall digit_char s -> byte_len s = Z.of_nat (length s).
Proof.
  induction 1 as [|c s Hc _ IH]; [done|]. change (byte_len (c :: s)) with (char_len c + byte_len s).
  rewrite IH. unfold digit_char in Hc. unfold char_len. cbn [length]. repeat case_match; lia.
Qed.
(** Digits of one length are determined by their value. *)
Lemma digits_value_inj a b :
  Forall digit_char a -> Forall digit_char b -> length a = length b -> digits_value a = digits_value b -> a = b.
Proof.
  revert b. induction a as [|x a IH] using rev_ind; intros b Ha Hb Hl E.
  { by destruct b. }
  destruct b as [|y b _] using rev_ind; [rewrite length_app in Hl; cbn in Hl; lia|].
  rewrite !digits_value_app in E. rewrite !length_app in Hl. cbn in Hl.
  apply Forall_app in Ha as [Ha Hx], Hb as [Hb Hy]. apply Forall_cons in Hx as [Hx _], Hy as [Hy _].
  unfold digit_char in Hx, Hy. assert (digits_value a = digits_value b) as Ev by lia.
  f_equal; [apply IH; [done|done|lia|done]|]. f_equal. lia.
Qed.
Lemma parse_u64_digits s v :
  Forall digit_char s -> parse_u64 s = Some v <-> s <> [] /\ v = digits_value s /\ v <= u64_max.
Proof.
  intros Hd. unfold parse_u64.
  assert (match s with 43 :: b => b | _ => s end = s) as ->.
  { destruct s as [|x l]; [done|]. apply Forall_cons in Hd as [Hx _]. unfold digit_char in Hx.
    destruct x as [|p|p]; try done. do 6 (destruct p as [p|p|]; try done). lia. }
  rewrite (proj2 (digit_chars s) Hd), andb_true_r. destruct s as [|x s]; [naive_solver|]. cbn [is_empty negb andb].
  destruct (Z.leb_spec (digits_value (x :: s)) u64_max); naive_solver lia.
Qed.
Lemma dec_digits_length fuel n acc : (length (dec_digits fuel n acc) <= fuel + length acc)%nat.
Proof.
  revert n acc. induction fuel as [|fuel IH]; intros n acc; cbn; [lia|].
  destruct (n <? 10); cbn; [lia|]. specialize (IH (n / 10) ((48 + n mod 10) :: acc)). cbn in IH. lia.
Qed.
Lemma pad20_length n : length (pad20 n) = 20%nat.
Proof.
  pose proof (dec_digits_length 20 n []) as H. unfold pad20. rewrite length_app, length_replicate.
  unfold dec. cbn [length] in H. lia.
Qed.

(** The names the inventory manages are those of the revisions. *)
Lemma managed_name_spec n s :
  managed_name n = Ok (Some s) <-> 1 <= s <= u64_max /\ n = file_name s.
Proof.
  unfold managed_name. split.
  - destruct (strip_suffix _ n) as [stem|] eqn:Es; [|done]. apply strip_suffix_Some in Es as ->.
    destruct (_ || _) eqn:Hd; [done|]. apply orb_false_iff in Hd as [Hl Hd]. apply negb_false_iff in Hl, Hd.
    apply Z.eqb_eq in Hl. apply digit_chars in Hd as Hc. rewrite digits_len in Hl by done.
    intros (v & Hv%ok_or_Ok & H)%bind_Ok. apply bind_Ok in H as (? & Hr%validate_range_Ok & [= <-]).
    split; [done|]. unfold file_name. f_equal. destruct (pad20_digits v) as [Hp Hpv]; [lia|].
    apply parse_u64_digits in Hv as (_ & -> & _); [|done]. apply digits_value_inj; [done|done|rewrite pad20_length; lia|congruence].
  - intros [Hs ->]. destruct (pad20_digits s) as [Hp Hpv]; [lia|].
    assert (strip_suffix (lit ".json") (file_name s) = Some (pad20 s)) as ->.
    { by apply strip_suffix_Some. }
    rewrite digits_len, pad20_length, (proj2 (digit_chars _) Hp) by done. cbn [negb orb Z.eqb].
    change (Z.of_nat 20 =? 20) with true. cbn [negb orb].
    rewrite (proj2 (parse_u64_digits (pad20 s) s Hp)).
    2:{ split_and!; [|done|lia]. intros E. pose proof (pad20_length s) as Hl. by rewrite E in Hl. }
    cbn [ok_or mbind result_bind]. by rewrite (proj2 (validate_range_Ok _ _ _ tt)).
Qed.

Lemma managed_files_spec names files s n :
  managed_files names = Ok files -> (s, n) ∈ files <-> n ∈ names /\ 1 <= s <= u64_max /\ n = file_name s.
Proof.
  unfold managed_files. intros (found & Hf & [= <-])%bind_Ok. apply try_map_Ok in Hf.
  rewrite elem_of_stable_sort, list_elem_of_omap, <- managed_name_spec. split.
  - intros ([o m] & Hin & Ho). apply list_elem_of_lookup_1 in Hin as [k Hk].
    destruct (Forall2_lookup_r _ _ _ _ _ Hf Hk) as (m' & Hm' & Hn). apply bind_Ok in Hn as (o' & Hm & [= <- <-]).
    destruct o' as [s'|]; [|done]. injection Ho as -> ->. split; [by eapply list_elem_of_lookup_2|done].
  - intros [Hin Hm]. apply list_elem_of_lookup_1 in Hin as [k Hk].
    destruct (Forall2_lookup_l _ _ _ _ _ Hf Hk) as ([o m] & Hl & Hn). rewrite Hm in Hn. injection Hn as <- <-.
    exists (Some s, n). split; [by eapply list_elem_of_lookup_2|done].
Qed.
Lemma managed_revision names files s q :
  managed_files names = Ok files -> (s, file_name q) ∈ files -> 0 <= q <= u64_max -> s = q.
Proof. intros Hf (_ & ? & E)%(managed_files_spec names files s _ Hf) Hq. symmetry. apply file_name_inj; [lia..|done]. Qed.
(** Distinct names are distinct revisions. *)
Lemma managed_files_nodup names files :
  NoDup names -> managed_files names = Ok files -> NoDup (map fst files).
Proof.
  intros Hnd H. pose proof (fun s n => managed_files_spec names files s n H) as Hspec.
  assert (NoDup files) as Hf.
  { unfold managed_files in H. apply bind_Ok in H as (found & Hf & [= <-]). rewrite stable_sort_perm.
    apply try_map_Ok in Hf. assert (NoDup (map snd found)) as Hn.
    { clear Hspec. assert (map snd found = names) as ->; [|done]. induction Hf as [|n [o m] names found Hn _ IH]; [done|].
      apply bind_Ok in Hn as (o' & _ & [= <- <-]). cbn. f_equal. apply IH. by apply NoDup_cons in Hnd as [_ ?]. }
    clear -Hn. induction found as [|[[s|] n] found IH]; cbn in *; [constructor| |by apply NoDup_cons in Hn as [_ ?]; auto].
    apply NoDup_cons in Hn as [Hnot Hn]. constructor; [|auto].
    intros ([o m] & Hin & Ho)%list_elem_of_omap. apply Hnot. destruct o; [|done]. injection Ho as <- ->.
    by apply (list_elem_of_fmap_2 snd) in Hin. }
  apply NoDup_fmap_2_strong; [|done]. intros [s n] [s' n'] Hx Hy E. cbn in E. subst s'.
  apply Hspec in Hx as (_ & _ & ->), Hy as (_ & _ & ->). done.
Qed.
End Names.

(** ** Files that stay *)

Section Inventory.
Context `{U : UrlOps} `{T : Tokenizing} `{D : Digest} `{JT : JsonText} `{J : PayloadJson}.

Lemma payload_file_kept d t n id q :
  id <> t \/ n <> file_name q -> payload_file (remove_payload t n d) id q = payload_file d id q.
Proof.
  intros H. destruct (decide (id = t)) as [->|Hne]; [|by apply payload_file_remove_ne].
  destruct H as [?|H]; [done|]. unfold payload_file, remove_payload, directory. rewrite lookup_insert_eq. cbn.
  rewrite lookup_delete_ne by done. by destruct (d !! t).
Qed.

Lemma count_files_keeps io refs ls b ticket files total d d' r id q :
  (forall s n, (s, n) ∈ files -> n = file_name q -> s = q) -> (id, q) ∈ refs ->
  count_files io refs ls b ticket files total d = (d', r) -> payload_file d' id q = payload_file d id q.
Proof.
  intros Hf Hin. revert total d. induction files as [|[s n] files IH]; intros total d H; cbn in H; [by injection H as <- _|].
  assert (forall s n, (s, n) ∈ files -> n = file_name q -> s = q) as Hf' by (intros; eapply Hf; [by right|done]).
  case_bool_decide as Href.
  { destruct (_ : cres Z) in H; [by eapply IH|by injection H as <- _]. }
  destruct (read_bounded _ _ _) as [bytes|e]; [|by injection H as <- _].
  destruct b; [|destruct (u64_checked_add _ _); [by eapply IH|by injection H as <- _]].
  destruct (negb (orphan_remove io ticket n)); [by injection H as <- _|].
  assert (payload_file (remove_payload ticket n d) id q = payload_file d id q) as Hk.
  { apply payload_file_kept. destruct (decide (id = ticket)) as [->|]; [right|by left].
    intros En. apply Href. by rewrite (Hf s n) by (done || left). }
  destruct (negb _); [by injection H as <- _|]. rewrite (IH Hf' _ _ H). done.
Qed.
Lemma count_tickets_keeps io refs ls b names totals d d' r id q :
  0 <= q <= u64_max -> (id, q) ∈ refs ->
  count_tickets io refs ls b names totals d = (d', r) -> payload_file d' id q = payload_file d id q.
Proof.
  intros Hq Hin. revert totals d. induction names as [|[n|] names IH]; intros totals d H; cbn in H;
    [by injection H as <- _| |by injection H as <- _].
  destruct (negb (is_ok _)); [by eapply IH|]. destruct (_ ← _; _) as [files|e] eqn:Hf; [|by injection H as <- _].
  apply bind_Ok in Hf as (? & _ & Hf). apply bind_Ok in Hf as (? & _ & Hf).
  destruct (count_files _ _ _ _ _ _ _ _) as [d1 [total|e]] eqn:Hc.
  - rewrite (IH _ _ H). eapply count_files_keeps; [|exact Hin|exact Hc]. intros s n' Hs. intros ->. eapply managed_revision; [exact Hf|done|lia].
  - injection H as <- _. eapply count_files_keeps; [|exact Hin|exact Hc]. intros s n' Hs. intros ->. eapply managed_revision; [exact Hf|done|lia].
Qed.


(** ** Totals *)

Definition counted (refs : gset (str * Z)) (ls : gmap (str * Z) Z) (ticket : str) (files : list (Z * str)) : Z :=
  foldr (fun e n => (if bool_decide ((ticket, e.1) ∈ refs) then default 0 (ls !! (ticket, e.1)) else 0) + n) 0 files.

Lemma count_files_total io refs ls b ticket files total d d' total' :
  b = true -> count_files io refs ls b ticket files total d = (d', Ok total') ->
  total' = total + counted refs ls ticket files /\
  Forall (fun e => (ticket, e.1) ∈ refs -> is_Some (ls !! (ticket, e.1))) files.
Proof.
  intros ->. revert total d. induction files as [|[s n] files IH]; intros total d H; cbn in H.
  { injection H as <- <-. split; [cbn; lia|constructor]. }
  change (counted refs ls ticket ((s, n) :: files)) with
    ((if bool_decide ((ticket, s) ∈ refs) then default 0 (ls !! (ticket, s)) else 0) + counted refs ls ticket files).
  case_bool_decide as Href.
  - destruct (ls !! (ticket, s)) as [len|] eqn:El; [|done]. cbn in H.
    destruct (u64_checked_add total len) as [t1|] eqn:Ea; [|done]. cbn in H. apply u64_checked_add_Some in Ea as [-> _].
    apply IH in H as [-> Hf]. split; [unfold default, id; cbn beta iota; lia|]. constructor; [by intros _; exists len|done].
  - destruct (read_bounded _ _ _); [|done]. destruct (negb _); [done|]. destruct (negb _); [done|].
    apply IH in H as [-> Hf]. split; [lia|]. by constructor.
Qed.

Definition counted_dir (io : InventoryIo) (refs : gset (str * Z)) (ls : gmap (str * Z) Z) (id : str) (total : Z)
    : Prop :=
  exists files, managed_files (dir_names io id) = Ok files /\ total = counted refs ls id files /\
    Forall (fun e => (id, e.1) ∈ refs -> is_Some (ls !! (id, e.1))) files.

Lemma count_tickets_total io refs ls names totals d d' totals' id :
  NoDup names -> count_tickets io refs ls true names totals d = (d', Ok totals') ->
  (Some id ∈ names -> is_ok (TicketId_parse id) = true ->
     exists total, totals' !! id = Some total /\ counted_dir io refs ls id total) /\
  (Some id ∉ names \/ is_ok (TicketId_parse id) = false -> totals' !! id = totals !! id).
Proof.
  revert totals d. induction names as [|[n|] names IH]; intros totals d Hnd H; cbn in H; [|apply NoDup_cons in Hnd as [Hnot Hnd]|done].
  { injection H as <- <-. split; [by intros ?%elem_of_nil|done]. }
  destruct (is_ok (TicketId_parse n)) eqn:Hok; cbn [negb] in H.
  2:{ destruct (IH totals d Hnd H) as [H1 H2]. split.
      - intros [[= ->]|Hin]%elem_of_cons; [congruence|auto].
      - intros [Hout|Hout]; apply H2; [left|by right]. by apply not_elem_of_cons in Hout as [_ ?]. }
  destruct (_ ← _; _) as [files|e] eqn:Hf; [|done].
  apply bind_Ok in Hf as (? & _ & Hf). apply bind_Ok in Hf as (? & _ & Hf).
  destruct (count_files _ _ _ _ _ _ _ _) as [d1 [total|e]] eqn:Hc; [|done].
  apply count_files_total in Hc as [Htot Hls]; [|done]. destruct (IH _ d1 Hnd H) as [H1 H2]. split.
  - intros [[= ->]|Hin]%elem_of_cons Hid; [|auto]. exists total. rewrite H2 by (by left). rewrite lookup_insert_eq.
    split; [done|]. exists files. by split_and!; [|rewrite Htot; lia|].
  - intros [Hout|Hout].
    + apply not_elem_of_cons in Hout as [Hne Hout]. rewrite H2 by (by left). by rewrite lookup_insert_ne by congruence.
    + rewrite H2 by (by right). rewrite lookup_insert_ne; [done|]. intros ->. congruence.
Qed.

(** The names read are those of the directory. *)
Definition listing_of (io : InventoryIo) (d : PayloadDisk) : Prop :=
  NoDup (root_names io) /\ (forall id, Some id ∈ root_names io <-> is_Some (d !! id)) /\
  forall id, NoDup (dir_names io id) /\ forall n, n ∈ dir_names io id <-> is_Some (directory d id !! n).
(** The lengths are those of the files. *)
Definition measured (d : PayloadDisk) (ls : gmap (str * Z) Z) : Prop :=
  forall id q n, ls !! (id, q) = Some n -> n = Z.of_nat (length (default [] (payload_file d id q))).

Definition file_bytes (d : PayloadDisk) (id : str) (keys : list Z) : Z :=
  foldr (fun q n => Z.of_nat (length (default [] (payload_file d id q))) + n) 0 keys.
Lemma file_bytes_app d id a b : file_bytes d id (a ++ b) = file_bytes d id a + file_bytes d id b.
Proof. unfold file_bytes. induction a as [|q a IH]; cbn; lia. Qed.
Lemma file_bytes_perm d id a b : a ≡ₚ b -> file_bytes d id a = file_bytes d id b.
Proof.
  induction 1 as [|q a b _ IH|q r a|a b c _ IH1 _ IH2]; [done| |unfold file_bytes; cbn; lia|congruence].
  change (file_bytes d id (q :: a)) with (Z.of_nat (length (default [] (payload_file d id q))) + file_bytes d id a).
  by rewrite IH.
Qed.
Lemma file_bytes_none d id a : (forall q, q ∈ a -> payload_file d id q = None) -> file_bytes d id a = 0.
Proof.
  unfold file_bytes. induction a as [|q a IH]; intros H; [done|]. cbn. rewrite (H q) by left.
  rewrite IH; [done|]. intros; apply H; by right.
Qed.

Definition referenced_in (refs : gset (str * Z)) (id : str) (files : list (Z * str)) : list Z :=
  map fst (filter (fun e : Z * str => (id, e.1) ∈ refs) files).
Lemma counted_bytes refs ls d id files :
  measured d ls -> Forall (fun e => (id, e.1) ∈ refs -> is_Some (ls !! (id, e.1))) files ->
  counted refs ls id files = file_bytes d id (referenced_in refs id files).
Proof.
  intros Hm. induction 1 as [|[q n] files Hq _ IH]; [done|].
  change (counted refs ls id ((q, n) :: files)) with
    ((if bool_decide ((id, q) ∈ refs) then default 0 (ls !! (id, q)) else 0) + counted refs ls id files).
  rewrite IH. unfold referenced_in. case_bool_decide as Href.
  - rewrite filter_cons_True by done. destruct (Hq Href) as [len Hl]. cbn in Hl. rewrite Hl. cbn. by rewrite (Hm _ _ _ Hl).
  - rewrite filter_cons_False by done. done.
Qed.

Lemma inventory_counts io refs ls d d' totals id keys :
  listing_of io d -> measured d ls -> inventory io refs ls true d = (d', Ok totals) ->
  is_ok (TicketId_parse id) = true -> NoDup keys -> Forall (fun q => 1 <= q <= u64_max) keys ->
  (forall q, (id, q) ∈ refs <-> q ∈ keys) -> default 0 (totals !! id) = file_bytes d id keys.
Proof.
  intros (Hnd & Hroot & Hdir) Hm Hi Hid Hk Hrange Hrefs. unfold inventory in Hi. destruct (negb _); [done|].
  destruct (count_tickets_total _ _ _ _ _ _ _ _ id Hnd Hi) as [Hin Hout].
  destruct (decide (is_Some (d !! id))) as [Hs|Hs].
  2:{ rewrite Hout by (left; by rewrite Hroot). rewrite lookup_empty, file_bytes_none; [done|]. intros q _.
      unfold payload_file. apply eq_None_not_Some in Hs. by rewrite Hs. }
  destruct Hin as (total & -> & files & Hf & -> & Hls); [by apply Hroot|done|]. cbn [default].
  rewrite (counted_bytes _ _ d) by done. cbn [from_option]. set (listed := referenced_in refs id files).
  assert (forall q, q ∈ listed <-> q ∈ keys /\ is_Some (payload_file d id q)) as Hl.
  { intros q. unfold listed, referenced_in. rewrite list_elem_of_fmap. split.
    - intros ([s n] & -> & [Hr Hin]%list_elem_of_filter). cbn in *. split; [by apply Hrefs|].
      apply (managed_files_spec _ _ _ _ Hf) in Hin as (Hin & _ & ->). rewrite <- directory_file. by apply Hdir.
    - intros [Hq Hp]. rewrite <- directory_file in Hp. apply Hdir in Hp. exists (q, file_name q). split; [done|].
      apply list_elem_of_filter. split; [by apply Hrefs|]. apply (managed_files_spec _ _ _ _ Hf).
      split_and!; [done|rewrite Forall_forall in Hrange; by apply Hrange..|done]. }
  assert (NoDup listed) as Hln.
  { unfold listed, referenced_in. pose proof (managed_files_nodup _ _ (proj1 (Hdir id)) Hf) as Hn.
    eapply sublist_NoDup; [exact Hn|]. apply (fmap_sublist fst), sublist_filter. }
  assert (listed ⊆+ keys) as [rest Hrest]%submseteq_Permutation by (apply NoDup_submseteq; [done|]; intros q; by intros [? _]%Hl).
  rewrite (file_bytes_perm d id keys _ Hrest), file_bytes_app, (file_bytes_none d id rest); [by rewrite Z.add_0_r|].
  intros q Hq. destruct (payload_file d id q) eqn:E; [exfalso|done]. rewrite Hrest in Hk.
  apply NoDup_app in Hk as (_ & Hdisj & _). apply (Hdisj q); [|done]. apply Hl. rewrite Hrest, elem_of_app. eauto.
Qed.
Lemma inventory_unknown io refs ls d d' totals id :
  listing_of io d -> inventory io refs ls true d = (d', Ok totals) -> is_ok (TicketId_parse id) = false ->
  totals !! id = None.
Proof.
  intros (Hnd & _) Hi Hid. unfold inventory in Hi. destruct (negb _); [done|].
  destruct (count_tickets_total _ _ _ _ _ _ _ _ id Hnd Hi) as [_ Hout]. rewrite Hout by (by right). apply lookup_empty.
Qed.
End Inventory.
