(* ===== verification/PayloadReference.v ===== *)
(** * A concrete serialization of personal revisions

    Instances of the interfaces of [Payload.v] and [Canonical.v] with their
    laws, with which the theorems about revisions are applied to concrete
    files. *)

From S2P Require Import Prelude Text Externals Disk Compliance Canonical ComplianceModel JournalRow.
From S2P Require Import Listed Rules Journal Payload.

#[local] Open Scope Z_scope.

Module PayloadReference.
Export UrlReference ChronoReference JsonReference JsonTextReference RulesReference.
Import Codec.

#[export] Instance codec_bool : Codec bool.
Proof.
  refine (codec_of (fun b : bool => if b then 1 else 0) (fun n => Some (n =? 1)) _). by intros [].
Defined.
#[export] Instance codec_option {A} `{Codec A} : Codec (option A).
Proof.
  refine {| put := fun o => match o with None => [0] | Some x => 1 :: put x end;
            get := fun l => match l with
              | 0 :: rest => Some (None, rest)
              | 1 :: rest => '(x, rest) ← get rest; Some (Some x, rest)
              | _ => None
              end |}.
  intros [x|] rest; [|done]. cbn. by rewrite get_put.
Defined.
#[export] Instance codec_sum {A B} `{Codec A, Codec B} : Codec (A + B).
Proof.
  refine {| put := fun s => match s with inl a => 0 :: put a | inr b => 1 :: put b end;
            get := fun l => match l with
              | 0 :: rest => '(x, rest) ← get rest; Some (inl x, rest)
              | 1 :: rest => '(x, rest) ← get rest; Some (inr x, rest)
              | _ => None
              end |}.
  intros [x|x] rest; cbn; by rewrite get_put.
Defined.
#[export] Instance codec_vocabulary {V} `{VocabularyLaws V} : Codec V.
Proof. refine (codec_of as_str (fun s => ok (parse s)) _). intros v. by rewrite parse_as_str. Defined.

#[export] Instance Delivery_codec : Codec Delivery.
Proof. refine (codec_of (fun d => (channel d, reference d)) (fun '(c, r) => Some (Build_Delivery c r)) _). by intros []. Defined.
#[export] Instance Notice_codec : Codec Notice.
Proof. refine (codec_of (fun n => (notice_text n, remedies n)) (fun '(t, r) => Some (Build_Notice t r)) _). by intros []. Defined.
#[export] Instance ReportFields_codec : Codec ReportFields.
Proof.
  refine (codec_of (fun r => (contact_method (contact r), address (contact r), description r,
      (requester_type r, nonessential_opt_out r)))
    (fun '(m, a, d, (q, o)) => Some (Build_ReportFields (Build_Contact m a) d q o)) _).
  by intros [[]].
Defined.
#[export] Instance EvidencedName_codec : Codec EvidencedName.
Proof.
  refine (codec_of (fun n => (name n, name_kind n, evidence_text n))
    (fun '(n, k, e) => Some (Build_EvidencedName n k e)) _).
  by intros [].
Defined.
#[export] Instance Asset_codec : Codec Asset.
Proof. refine (codec_of (fun a => (asset_url a, document_id a)) (fun '(u, d) => Some (Build_Asset u d)) _). by intros []. Defined.

Definition kind_code : Type := (str + str + (bool * bool * bool)) + (Interest * option str + str * str) +
  (RequestKind * list EvidencedName + bool).
Definition kind_to (k : IntakeKind) : kind_code :=
  match k with
  | Intake_IllegalContent s => inl (inl (inl (inl s)))
  | Intake_HarmfulToChildren s => inl (inl (inl (inr s)))
  | Intake_IntimateImages a b c => inl (inl (inr (a, b, c)))
  | Intake_SiteComplaint i r => inl (inr (inl (i, r)))
  | Intake_RightsRemoval a b => inl (inr (inr (a, b)))
  | Intake_DataRights k ns => inr (inl (k, ns))
  | Intake_DataProtectionComplaint => inr (inr true)
  | Intake_OnlineSafetyComplaint => inr (inr false)
  end.
Definition kind_from (k : kind_code) : IntakeKind :=
  match k with
  | inl (inl (inl (inl s))) => Intake_IllegalContent s
  | inl (inl (inl (inr s))) => Intake_HarmfulToChildren s
  | inl (inl (inr (a, b, c))) => Intake_IntimateImages a b c
  | inl (inr (inl (i, r))) => Intake_SiteComplaint i r
  | inl (inr (inr (a, b))) => Intake_RightsRemoval a b
  | inr (inl (k, ns)) => Intake_DataRights k ns
  | inr (inr true) => Intake_DataProtectionComplaint
  | inr (inr false) => Intake_OnlineSafetyComplaint
  end.
#[export] Instance IntakeKind_codec : Codec IntakeKind.
Proof.
  refine (codec_of (B := kind_code) kind_to (fun k => Some (kind_from k)) _).
  by intros [].
Defined.
#[export] Instance Intake_codec : Codec Intake.
Proof.
  refine (codec_of (fun i => (report i, assets i, category i)) (fun '(r, a, c) => Some (Build_Intake r a c)) _).
  by intros [].
Defined.

Definition assessment_from (l : list str) : option DelistingAssessment :=
  match l with
  | [a; b; c; d; e; f; g; h; i; j; k; l; m; n; o; p; q; r; s] =>
      Some (Build_DelistingAssessment a b c d e f g h i j k l m n o p q r s)
  | _ => None
  end.
#[export] Instance Assessment_codec : Codec DelistingAssessment.
Proof. refine (codec_of assessment_fields assessment_from _). by intros []. Defined.

Definition decision_code : Type := DecisionKind * str * Delivery * option DelistingAssessment * (str * str * str).
Definition decision_to (d : ComplianceModel.Decision) : decision_code :=
  let (reasons, delivery) := communication d in
  (Decision_kind d, reasons, delivery,
   match d with Granted _ _ a => a | _ => None end,
   match d with ManifestlyUnfounded _ _ v c i => (v, c, i) | _ => ([], [], []) end).
Definition decision_from (c : decision_code) : ComplianceModel.Decision :=
  let '(kind, reasons, delivery, a, (v, c, i)) := c in
  match kind with
  | DecisionKind_Granted => Granted reasons delivery a
  | DecisionKind_Refused => Refused reasons delivery
  | DecisionKind_NotIntimateImage => NotIntimateImage reasons delivery
  | DecisionKind_NoStanding => NoStanding reasons delivery
  | DecisionKind_ManifestlyUnfounded => ManifestlyUnfounded reasons delivery v c i
  end.
#[export] Instance Decision_codec : Codec ComplianceModel.Decision.
Proof.
  refine (codec_of (B := decision_code) decision_to (fun c => Some (decision_from c)) _).
  by intros [].
Defined.

Definition event_code : Type :=
  Intake + IdentityEvent * str + (Necessity * str * str * Delivery + ComplianceModel.Decision * list str * Notice) +
  (str * option str + str * Delivery * Notice + (str * Delivery * Notice + (str * str * Delivery + str))).
Definition event_to (e : PersonalEvent) : event_code :=
  match e with
  | Personal_Intake i => inl (inl (inl i))
  | Personal_Identity e r => inl (inl (inr (e, r)))
  | Personal_Extension n r t d => inl (inr (inl (n, r, t, d)))
  | Personal_Decision d s n => inl (inr (inr (d, s, n)))
  | Personal_Appeal r i => inr (inl (inl (r, i)))
  | Personal_Reversal r d n => inr (inl (inr (r, d, n)))
  | Personal_Uphold r d n => inr (inr (inl (r, d, n)))
  | Personal_Progress e u d => inr (inr (inr (inl (e, u, d))))
  | Personal_Closure r => inr (inr (inr (inr r)))
  end.
Definition event_from (c : event_code) : PersonalEvent :=
  match c with
  | inl (inl (inl i)) => Personal_Intake i
  | inl (inl (inr (e, r))) => Personal_Identity e r
  | inl (inr (inl (n, r, t, d))) => Personal_Extension n r t d
  | inl (inr (inr (d, s, n))) => Personal_Decision d s n
  | inr (inl (inl (r, i))) => Personal_Appeal r i
  | inr (inl (inr (r, d, n))) => Personal_Reversal r d n
  | inr (inr (inl (r, d, n))) => Personal_Uphold r d n
  | inr (inr (inr (inl (e, u, d)))) => Personal_Progress e u d
  | inr (inr (inr (inr r))) => Personal_Closure r
  end.
#[export] Instance PersonalEvent_codec : Codec PersonalEvent.
Proof.
  refine (codec_of (B := event_code) event_to (fun c => Some (event_from c)) _).
  by intros [].
Defined.
#[export] Instance StoredPayload_codec : Codec StoredPayload.
Proof.
  refine (codec_of (fun s => (stored_version s, stored_ticket s, stored_sequence s,
                              (stored_salt s, stored_content s)))
    (fun '(v, t, q, (s, c)) => Some (Build_StoredPayload v t q s c)) _).
  by intros [].
Defined.

#[export] Instance Asset_eq_dec : EqDecision Asset.
Proof. solve_decision. Defined.
#[export] Instance decodable_event_dec e : base.Decision (decodable_event e).
Proof.
  unfold decodable_event, parsed_id.
  destruct e as [[? ? [| | |? []| | | |]]| | |[] ? ?|? []| | | |]; cbn; apply _.
Defined.
#[export] Instance decodable_dec s : base.Decision (decodable s).
Proof.
  refine (cast_if (decide (parsed_id (stored_ticket s) /\ parsed_id (stored_salt s) /\
    decodable_event (stored_content s)))); [by destruct_and!; split|intros [? ? ?]; tauto].
Defined.

#[export] Instance payload_json_reference : PayloadJson := {
  stored_to_vec s := Some (put s);
  stored_from_slice b := '(s, _) ← get b; if bool_decide (decodable s) then Some s else None;
  binding_to_value t q c := Some (V_Array (map V_Integer (put (t, q, c))));
}.
#[export] Instance payload_json_reference_laws : PayloadJsonLaws payload_json_reference.
Proof.
  split; cbn [stored_to_vec stored_from_slice binding_to_value payload_json_reference].
  - intros s b Hb Hs. apply (inj Some) in Hb as <-. rewrite get_put. cbn [mbind option_bind].
    by rewrite bool_decide_eq_true_2.
  - intros b s ([s' rest] & _ & H)%bind_Some. case_bool_decide; [|done]. by injection H as <-.
  - intros t q c v Hv. apply (inj Some) in Hv as <-. constructor. apply Forall_map, Forall_forall.
    intros n _. by constructor.
  - intros t q c v t' q' c' v' Hv Hv'. apply (inj Some) in Hv as <-. apply (inj Some) in Hv' as <-.
    cbn [normalize]. rewrite !map_map.
    intros E%(f_equal (fun v => match v with V_Array l => l | _ => [] end)). cbn [normalize] in E.
    assert (forall l l' : list Z, map V_Integer l = map V_Integer l' -> l = l') as Hmap.
    { induction l as [|x l IH]; intros [|y l'] El; cbn in El; try done.
      injection El as -> El. f_equal. by apply IH. }
    apply Hmap in E. by apply (put_inj (t, q, c) (t', q', c')) in E as [= -> -> ->].
Qed.
End PayloadReference.

Module PayloadWitness.
Import PayloadReference.
Definition ticket0 : TicketId := id_of 98.
Definition salt0 : Hex64 := id_of 97.
Definition event0 : PersonalEvent := Personal_Closure (lit "resolved").
Definition no_payload : PreparedPayload := {|
  payload_ticket := []; payload_number := 0; payload_content := event0; payload_bytes := [];
  payload_commitment := [] |}.
Definition prepared0 : PreparedPayload :=
  default no_payload (ok (prepare_with_salt ticket0 1 event0 salt0)).
Definition write_ok : WriteIo := {|
  before_payload_write := true; parent_walk := Walk_done; leaf_open := true; leaf_facts := true;
  payload_write := None; payload_sync := true; payload_readback := read_io_ok;
  payload_dir_sync := true; after_payload_sync := true |}.
Definition disk0 : PayloadDisk := (write_tracked ∅ write_ok prepared0 false).1.1.
Lemma prepared0_ok : prepare_with_salt ticket0 1 event0 salt0 = Ok prepared0.
Proof. vm_compute. reflexivity. Qed.
Lemma written0 : (write_tracked ∅ write_ok prepared0 false).2 = Ok tt.
Proof. vm_compute. reflexivity. Qed.
Lemma read0 : payload_read disk0 read_io_ok ticket0 1 (payload_commitment prepared0) = Ok event0.
Proof. vm_compute. reflexivity. Qed.
Lemma salt0_parsed : parsed_id salt0.
Proof. vm_compute. reflexivity. Qed.


(** The directory is not synced after the only revision is deleted. *)
Definition references0 : gmap Z str := {[1 := payload_commitment prepared0]}.
Definition interrupted : PurgeIo := {|
  purge_read := read_io_ok; before_purge_delete := true; purge_remove := true;
  purge_dir_sync := false; after_purge_delete := true |}.
Definition purged0 := payload_purge (fun _ => interrupted) ticket0 references0 disk0.
Lemma references0_range : map_Forall (fun q _ => 1 <= q <= u64_max) references0.
Proof. apply map_Forall_singleton. by vm_compute. Qed.
Lemma references0_purgeable : purgeable ticket0 (btree_entries references0) disk0.
Proof.
  constructor; [|constructor]. exists (Some event0). vm_compute. reflexivity.
Qed.

Lemma purge_is_exact_and_resumable_witness :
  exists d, payload_purge (fun _ => purge_io_ok) ticket0 references0 purged0.1 = (d, Ok tt).
Proof.
  exact (proj2 (proj2 (purge_is_exact_and_resumable (fun _ => interrupted) ticket0 references0 disk0
    purged0.1 purged0.2 references0_range (surjective_pairing purged0))) references0_purgeable).
Defined.
End PayloadWitness.
