(* ===== verification/Tickets.v ===== *)
(** * The ticket owner ([compliance/tickets.rs])

    Admission, administration and purging of tickets over the journal, the
    personal revisions and the serving rules. A transaction is planned and
    sized first, then executed row by row; an operation takes the clock
    readings, the entropy it draws and the outcome of every system call and
    hook, so a failure or a crash at any point is an instance. *)

From S2P Require Import Prelude Text Externals Disk Compliance Canonical ComplianceModel.
From S2P Require Import Listed Rules Journal Payload JournalRow RowFields Transitions.

#[local] Open Scope Z_scope.

(** ** Commands *)

Inductive AdministrationEvent :=
| Admin_Identity (event : IdentityEvent) (reasons : str)
| Admin_Extension (necessity : Necessity) (reasons notice : str) (delivery : Delivery)
| Admin_Decision (decision : ComplianceModel.Decision)
| Admin_Appeal (reasons : str) (related_ticket_id : option TicketId)
| Admin_Reversal (reasons : str) (delivery : Delivery)
| Admin_Uphold (reasons : str) (delivery : Delivery)
| Admin_Progress (enquiries update : str) (delivery : Delivery)
| Admin_Closure (reasons : str).

Definition AdministrationEvent_validate (e : AdministrationEvent) : cres unit :=
  match e with
  | Admin_Identity _ reasons | Admin_Appeal reasons _ | Admin_Closure reasons => reason reasons
  | Admin_Extension _ reasons notice delivery =>
      _ ← reason reasons; _ ← narrative notice; Delivery_validate delivery
  | Admin_Decision decision => Decision_validate decision
  | Admin_Reversal reasons delivery | Admin_Uphold reasons delivery =>
      _ ← reason reasons; Delivery_validate delivery
  | Admin_Progress enquiries update delivery =>
      _ ← narrative enquiries; _ ← narrative update; Delivery_validate delivery
  end.

(** ** Notices *)

Definition is_refused (d : ComplianceModel.Decision) : bool :=
  match d with Refused _ _ => true | _ => false end.
Definition decision_remedies (d : ComplianceModel.Decision) : list str :=
  if is_refused d
  then [lit "You may complain to AVA through Reports and requests";
        lit "You may complain to the Information Commissioner's Office";
        lit "You may seek a judicial remedy"]
  else [].
Definition contact_label : str := ch_lf :: lit "AVA contact: ".
Definition ico_label : str := ch_lf :: lit "ICO complaints: ".
Definition decision_notice (d : ComplianceModel.Decision) (config : ComplianceConfig) : Notice := {|
  notice_text := (communication d).1 ++
    (if is_refused d
     then contact_label ++ default (lit "[AVA contact pending deployment]") (public_contact config) ++
          ico_label ++
          default (lit "[ICO complaints link pending configuration]") (ico_complaints_url config)
     else []);
  remedies := decision_remedies d |}.

(** [str::split_once] with a string pattern. *)
Definition split_once_str (p s : str) : option (str * str) :=
  i ← find p s; Some (take i s, drop (i + length p) s).
Definition verify_decision_notice (d : ComplianceModel.Decision) (n : Notice) : cres unit :=
  _ ← refuse_if (negb (bool_decide (remedies n = decision_remedies d))) Unavailable;
  suffix ← ok_or (strip_prefix (communication d).1 (notice_text n)) Unavailable;
  if negb (is_refused d) then refuse_if (negb (is_empty suffix)) Unavailable
  else
    contacts ← ok_or (strip_prefix contact_label suffix) Unavailable;
    '(contact, ico) ← ok_or (split_once_str ico_label contacts) Unavailable;
    _ ← text contact Key_Contact Class_Label;
    text ico Key_Url Class_Label.

Definition personal (e : AdministrationEvent) (config : ComplianceConfig) : PersonalEvent :=
  match e with
  | Admin_Identity event reasons => Personal_Identity event reasons
  | Admin_Extension necessity reasons notice delivery =>
      Personal_Extension necessity reasons notice delivery
  | Admin_Decision decision => Personal_Decision decision [] (decision_notice decision config)
  | Admin_Appeal reasons related => Personal_Appeal reasons related
  | Admin_Reversal reasons delivery =>
      Personal_Reversal reasons delivery
        {| notice_text :=
             lit "The original action is reversed. Independent protection may still apply.";
           remedies := [] |}
  | Admin_Uphold reasons delivery =>
      Personal_Uphold reasons delivery
        {| notice_text := lit "The reviewed outcome is upheld."; remedies := [] |}
  | Admin_Progress enquiries update delivery => Personal_Progress enquiries update delivery
  | Admin_Closure reasons => Personal_Closure reasons
  end.
Definition personal_event_name (e : AdministrationEvent) : EventName :=
  match e with
  | Admin_Identity IdentityEvent_RequestIdentity _ => Event_IdentityRequested
  | Admin_Identity IdentityEvent_IdentityConfirmed _ => Event_IdentityConfirmed
  | Admin_Identity IdentityEvent_RequestClarification _ => Event_ClarificationRequested
  | Admin_Identity IdentityEvent_ClarificationReceived _ => Event_ClarificationReceived
  | Admin_Extension _ _ _ _ => Event_ExtensionNotified
  | Admin_Decision _ => Event_Decided
  | Admin_Appeal _ _ => Event_Appealed
  | Admin_Reversal _ _ => Event_ReversalIntent
  | Admin_Uphold _ _ => Event_Upheld
  | Admin_Progress _ _ _ => Event_ProgressCommunicated
  | Admin_Closure _ => Event_Closed
  end.

(** ** Rows *)

Definition documents_of (i : Intake) : str :=
  join [ch_comma] (btree_elements (list_to_set (map document_id (assets i)))).

Definition event_row (t : Ticket) (ev : EventName) (at_ : Z) (who : str) : cres JournalRow :=
  next ← successor (state t) ev;
  Ok (with_state (as_str next) (with_received_at (times_received (times t))
     (with_requester (as_str (requester t)) (with_route (as_str (route t))
     (with_ticket_id (ticket_key t) (with_actor who (row_empty ev at_))))))).

Definition completion_event (intent : JournalRow) : cres EventName :=
  match event intent with
  | Event_ReversalIntent => Ok Event_Reversed
  | Event_PurgeIntent => Ok Event_Purged
  | Event_ActionIntent =>
      Ok (if str_eqb (decision intent) (lit "granted") then Event_Actioned else Event_RulesCommitted)
  | _ => Err Unavailable
  end.
Definition completion (t : Ticket) (intent : JournalRow) (at_ : Z) (who : str) : cres JournalRow :=
  ev ← completion_event intent;
  row ← event_row t ev at_ who;
  Ok (with_effective_at (effective_at intent) (with_decision (decision intent)
     (with_reason_code (reason_code intent) (with_asset_ids (asset_ids intent)
     (with_intent_sequence (intent_sequence intent) row))))).

Definition reference_row (p : PreparedPayload) (r : JournalRow) : JournalRow :=
  with_reference (payload_number p) (payload_commitment p) r.

Definition reversal_fields (t : Ticket) (r : JournalRow) : cres JournalRow :=
  kind ← ok_or (decided t) InvalidTransition;
  g ← ok_or (ground t) InvalidTransition;
  Ok (with_reason_code (as_str g) (with_decision (as_str kind) r)).

Section Delta.
Context `{T : Tokenizing} `{D : Digest}.

Definition delta (intent : JournalRow) (i : Intake) (salts : list Hex64) : cres RuleDelta :=
  ticket ← TicketId_parse (ticket_id intent);
  g ← parse (reason_code intent);
  if bool_decide (event intent = Event_ReversalIntent) then
    docs ← documents intent;
    Ok (Reverse ticket docs g (row_at intent) (intent_sequence intent))
  else if one_of (decision intent) ["not_intimate_image"; "no_standing"] then Ok (Remove ticket)
  else
    names ← (if bool_decide (g = Ground_DataDelisting) then
               _ ← refuse_if (negb (length salts =? length (names_of i))%nat) Unavailable;
               try_map (fun '(n, salt) => NameSet_new (name n) salt) (zip (names_of i) salts)
             else Ok []);
    docs ← documents intent;
    Ok (Install ticket docs g (effective_at intent) (intent_sequence intent) names).
End Delta.

(** ** State *)

Record Case := {
  journal : Journal;
  payloads : PayloadDisk;
  tickets : gmap str Ticket;
  usage : gmap str Z;
  rules_store : RulesStore;
  writes_disabled : bool;
  write_progress : bool;
}.
Definition set_journal (j : Journal) (progress : bool) (c : Case) : Case := {|
  journal := j; payloads := payloads c; tickets := tickets c; usage := usage c;
  rules_store := rules_store c; writes_disabled := writes_disabled c; write_progress := progress |}.
Definition set_payloads (d : PayloadDisk) (progress : bool) (c : Case) : Case := {|
  journal := journal c; payloads := d; tickets := tickets c; usage := usage c;
  rules_store := rules_store c; writes_disabled := writes_disabled c; write_progress := progress |}.
Definition set_rules_store (s : RulesStore) (c : Case) : Case := {|
  journal := journal c; payloads := payloads c; tickets := tickets c; usage := usage c;
  rules_store := s; writes_disabled := writes_disabled c; write_progress := write_progress c |}.
Definition set_tickets (ts : gmap str Ticket) (u : gmap str Z) (c : Case) : Case := {|
  journal := journal c; payloads := payloads c; tickets := ts; usage := u;
  rules_store := rules_store c; writes_disabled := writes_disabled c;
  write_progress := write_progress c |}.

Record Plan := {
  plan_rows : list JournalRow;
  plan_payload : option PreparedPayload;
  plan_rules : option PreparedRules;
  plan_purge : bool;
  plan_reserved : bool;
}.
Record DraftPlan := {
  draft_rows : list JournalRow;
  draft_content : PersonalEvent;
  draft_intake : Intake;
  draft_number : Z;
  draft_bytes : Z;
  draft_new : bool;
}.
Record PlanMaterial := { material_id : TicketId; material_salt : Hex64; material_names : list Hex64 }.
Record Footprint := {
  new_tickets : Z;
  footprint_events : Z;
  journal_bytes : Z;
  existing_payload : Z;
  added_payload : Z;
  total_payload : Z;
  reserved : bool;
}.

(** What the entropy source yields: an identifier, a payload salt and the
    salts of the name rules. *)
Record Draws := {
  draw_id : cres (list Z);
  draw_salt : cres (list Z);
  draw_name : nat -> cres (list Z);
}.
(** Outcomes and clock readings of executing a plan; rows are numbered. *)
Record PlanIo := {
  plan_now : Z;
  payload_io : WriteIo;
  before_completion : nat -> bool;
  append_now : nat -> Z;
  append_io : nat -> AppendIo;
  after_intent : nat -> bool;
  rules_pid : Z;
  rules_counter : Z;
  rules_run : PersistRun;
  purge_io : Z -> PurgeIo;
  after_rules : nat -> bool;
}.
Record Env := { env_at : Z; draft_now : Z; draws : Draws; intake_io : ReadIo; plan_io : PlanIo }.

Record Admission := { admitted : Ticket; admission_opt_out : bool }.
Record Outcome := { outcome_ticket : Ticket; outcome_notice : option Notice }.

Definition zero_id : str := replicate 64 48.
(** [{index:064x}] *)
Definition hex_index (n : Z) : str := map (fun i => hex_char (Z.shiftr n (4 * (63 - i)) mod 16)) (seqZ 0 64).

Section Owner.
Context `{U : UrlOps} `{T : Tokenizing} `{D : Digest} `{C : Chrono}.
Context `{J : Json} `{RJ : RulesJson} `{JT : JsonText} `{PJ : PayloadJson}.
Context (settings : ComplianceConfig).

(** ** Reservation *)

Definition apply_row (t : Ticket) (row : JournalRow) : cres Ticket :=
  let (t', r) := apply settings row t in _ ← r; Ok t'.

Definition find_ticket (c : Case) (id : TicketId) : cres Ticket := ok_or (tickets c !! id) NotFound.

Definition project_and_measure (c : Case) (rows : list JournalRow) (payload : Z) (is_reserved : bool)
    : cres (Ticket * Footprint) :=
  ok_or (head rows) Unavailable ≫= fun first : JournalRow =>
  id ← TicketId_parse (ticket_id first);
  let is_new := bool_decide (event first = Event_Received) in
  candidate ← (if is_new then received first else find_ticket c id);
  candidate ← try_fold apply_row candidate (drop (if is_new then 1 else 0) rows);
  bytes ← try_fold (fun sum row => b ← row_bytes row;
                      ok_or (u64_checked_add sum (Z.of_nat (length b))) Capacity) 0 rows;
  total ← try_fold (fun sum size => ok_or (u64_checked_add sum size) Capacity) 0
            (map snd (map_to_list (usage c)));
  Ok (candidate,
      {| new_tickets := if is_new then 1 else 0; footprint_events := events candidate;
         journal_bytes := bytes;
         existing_payload := if is_new then 0 else default 0 (usage c !! id);
         added_payload := payload; total_payload := total; reserved := is_reserved |}).

Definition reserve_footprint (c : Case) (f : Footprint) : cres unit :=
  _ ← reserve (Z.of_nat (size (tickets c))) (new_tickets f) (max_tickets settings) 0;
  _ ← reserve 0 (footprint_events f) (max_ticket_events settings)
        (if reserved f then 0 else spec_min (spec Key_ReservedEvents));
  _ ← reserve (head_bytes (journal_head (journal c))) (journal_bytes f) (max_journal_bytes settings)
        (if reserved f then 0 else spec_min (spec Key_ReservedJournalBytes));
  _ ← reserve (existing_payload f) (added_payload f) (spec_max (spec Key_TicketPayload)) 0;
  _ ← reserve (total_payload f) (added_payload f) (max_payload_bytes settings) 0;
  Ok tt.
Definition reserve_rows (c : Case) (rows : list JournalRow) (payload : Z) (is_reserved : bool)
    : cres Ticket :=
  '(candidate, footprint) ← project_and_measure c rows payload is_reserved;
  _ ← reserve_footprint c footprint;
  Ok candidate.

(** ** Planning *)

Definition name_salts_of (e : PersonalEvent) : list Hex64 :=
  match e with Personal_Decision _ salts _ => salts | _ => [] end.
Definition is_rule_intent (r : JournalRow) : bool :=
  event_in (event r) [Event_ActionIntent; Event_ReversalIntent].
Definition plan_rule_change (c : Case) (rows : list JournalRow) (i : Intake) (content : PersonalEvent)
    : cres (option PreparedRules) :=
  match List.find is_rule_intent rows with
  | None => Ok None
  | Some intent =>
      change ← delta intent i (name_salts_of content);
      prepared ← prepare_delta settings (rules_store c) change;
      Ok (Some prepared)
  end.

(** The first identifier of [0..=n] that is not taken. *)
Definition sizing_id (c : Case) : cres TicketId :=
  ok_or (List.find (fun id => bool_decide (tickets c !! id = None))
           (map (fun n => hex_index (Z.of_nat n)) (seq 0 (S (size (tickets c)))))) Capacity.
Definition reserve_draft (c : Case) (now : Z) (draft : DraftPlan) : cres unit :=
  rows ← prepare_rows (journal c) now (draft_rows draft);
  _ ← reserve_rows c rows (draft_bytes draft) false;
  rule_rows ← (if draft_new draft
               then id ← sizing_id c; Ok (map (with_ticket_id id) (draft_rows draft))
               else Ok (draft_rows draft));
  _ ← plan_rule_change c rule_rows (draft_intake draft) (draft_content draft);
  Ok tt.

Definition draw_material (c : Case) (e : Draws) (draft : DraftPlan) : cres PlanMaterial :=
  id ← (if draft_new draft
        then id ← TicketId_generate (draw_id e);
             _ ← refuse_if (bool_decide (is_Some (tickets c !! id))) Unavailable; Ok id
        else ok_or (head (draft_rows draft)) Unavailable ≫= fun first : JournalRow =>
             TicketId_parse (ticket_id first));
  salt ← Hex64_random (draw_salt e);
  names ← try_map (fun n => Hex64_random (draw_name e n))
            (seq 0 (length (name_salts_of (draft_content draft))));
  Ok {| material_id := id; material_salt := salt; material_names := names |}.

Definition set_name_salts (salts : list Hex64) (e : PersonalEvent) : PersonalEvent :=
  match e with Personal_Decision d _ notice => Personal_Decision d salts notice | e => e end.
Definition finish_plan (c : Case) (draft : DraftPlan) (m : PlanMaterial) : cres Plan :=
  let content := set_name_salts (material_names m) (draft_content draft) in
  payload ← prepare_with_salt (material_id m) (draft_number draft) content (material_salt m);
  let rows := map (fun r : JournalRow =>
                let r := with_ticket_id (material_id m) r in
                if payload_sequence r =? 0 then r else reference_row payload r) (draft_rows draft) in
  rules ← plan_rule_change c rows (draft_intake draft) (payload_content payload);
  Ok {| plan_rows := rows; plan_payload := Some payload; plan_rules := rules; plan_purge := false;
        plan_reserved := false |}.
Definition materialize_plan (c : Case) (now : Z) (e : Draws) (draft : DraftPlan) : cres Plan :=
  _ ← reserve_draft c now draft; material ← draw_material c e draft; finish_plan c draft material.

(** ** Execution *)

Definition is_completion (r : JournalRow) : bool :=
  event_in (event r) [Event_Actioned; Event_RulesCommitted; Event_Reversed; Event_Purged].
Definition is_intent (r : JournalRow) : bool :=
  event_in (event r) [Event_ActionIntent; Event_ReversalIntent; Event_PurgeIntent].

Definition append_row (now : Z) (io : AppendIo) (row : JournalRow) : method Case Error unit := fun c =>
  let '(j, progress, r) := append_tracked (journal c) now io row (write_progress c) in
  (set_journal j progress c, r).
Definition write_payload (io : WriteIo) (p : PreparedPayload) : method Case Error unit := fun c =>
  let '(d, progress, r) := write_tracked (payloads c) io p (write_progress c) in
  (set_payloads d progress c, r).
Definition commit_rules (io : PlanIo) (p : PreparedRules) : method Case Error unit := fun c =>
  let (s, r) := commit (rules_store c) p (rules_pid io) (rules_counter io) (rules_run io) in
  (set_rules_store s c, r).
Definition purge_payloads (io : Z -> PurgeIo) (t : Ticket) : method Case Error unit := fun c =>
  let (d, r) := payload_purge io (ticket_key t) (references t) (payloads c) in
  (set_payloads d (write_progress c) c, r).
Definition stage (reached : bool) : method Case Error unit :=
  inspect (fun _ => refuse_if (negb reached) Unavailable).
Definition when (b : bool) (m : method Case Error unit) : method Case Error unit :=
  if b then m else mret tt.

(** The rules are committed at the first intent. *)
Fixpoint run_rows (io : PlanIo) (projected : Ticket) (purge : bool) (n : nat) (rows : list JournalRow)
    (rules : option PreparedRules) : method Case Error unit :=
  match rows with
  | [] => mret tt
  | row :: rows' =>
      _ ← when (is_completion row) (stage (before_completion io n));
      _ ← append_row (append_now io n) (append_io io n) row;
      if is_intent row then
        _ ← stage (after_intent io n);
        _ ← match rules with Some p => commit_rules io p | None => mret tt end;
        _ ← when purge (purge_payloads (purge_io io) projected);
        _ ← stage (after_rules io n);
        run_rows io projected purge (S n) rows' None
      else run_rows io projected purge (S n) rows' rules
  end.

Definition publish (plan : Plan) (t : Ticket) (c : Case) : Case :=
  let id := ticket_key t in
  set_tickets (<[id := t]> (tickets c))
    (if plan_purge plan then <[id := 0]> (usage c)
     else match plan_payload plan with
          | Some p => <[id := default 0 (usage c !! id) + byte_length p]> (usage c)
          | None => usage c
          end) c.

Definition execute_plan (io : PlanIo) (plan : Plan) : method Case Error unit :=
  rows ← inspect (fun c => prepare_rows (journal c) (plan_now io) (plan_rows plan));
  projected ← inspect (fun c =>
    reserve_rows c rows (default 0 (byte_length <$> plan_payload plan)) (plan_reserved plan));
  _ ← match plan_payload plan with Some p => write_payload (payload_io io) p | None => mret tt end;
  _ ← run_rows io projected (plan_purge plan) 0 rows (plan_rules plan);
  assign (publish plan projected).

(** ** Operations *)

Definition system_intake : str := lit "system.intake".

(** The rows of an admission, before the identifier is drawn. *)
Definition admission_rows (c : Case) (now : Z) (i : Intake) (received_at_ : Z) (p : PreparedPayload)
    : cres (list JournalRow) :=
  let first :=
    reference_row p (with_received_at received_at_ (with_state (lit "received")
      (with_requester (as_str (requester_type (report i))) (with_route (as_str (route_of i))
      (with_ticket_id zero_id (with_actor system_intake (row_empty Event_Received now))))))) in
  ticket ← received first;
  protection ←
    (if bool_decide (route_of i = Route_IntimateImages) then
       number ← ok_or (u64_checked_add (head_sequence (journal_head (journal c))) 2) Capacity;
       row ← event_row ticket Event_ActionIntent now system_intake;
       effective ← intimate_effective received_at_ (intimate_margin_seconds settings);
       let intent :=
         reference_row p (with_effective_at effective (with_asset_ids (documents_of i)
           (with_reason_code (lit "intimate_images") (with_intent_sequence number row)))) in
       finished ← completion ticket intent now system_intake;
       Ok [intent; finished]
     else Ok []);
  acknowledged ← event_row ticket Event_Acknowledged now system_intake;
  let queued := with_state (lit "queued") (with_event Event_Queued acknowledged) in
  Ok ([first] ++ protection ++ [acknowledged; queued]).

Definition admission_plan (c : Case) (env : Env) (i : Intake) (received_at_ : Z) : cres Plan :=
  zero ← Hex64_parse zero_id;
  payload ← prepare_with_salt zero_id 1 (Personal_Intake i) zero;
  rows ← admission_rows c (env_at env) i received_at_ payload;
  materialize_plan c (draft_now env) (draws env)
    {| draft_rows := rows; draft_content := payload_content payload; draft_intake := i;
       draft_number := 1; draft_bytes := byte_length payload; draft_new := true |}.
Definition case_admit (env : Env) (i : Intake) (received_at_ : Z) : method Case Error Admission :=
  _ ← inspect (fun c => refuse_if (writes_disabled c) Unavailable);
  plan ← inspect (fun c => admission_plan c env i received_at_);
  id ← inspect (fun _ => ok_or (head (plan_rows plan)) Unavailable ≫= fun first : JournalRow =>
                         TicketId_parse (ticket_id first));
  _ ← execute_plan (plan_io env) plan;
  t ← inspect (fun c => find_ticket c id);
  mret {| admitted := t; admission_opt_out := nonessential_opt_out (report i) |}.

(** [Case::intake]. *)
Definition stored_intake (c : Case) (io : ReadIo) (t : Ticket) : cres Intake :=
  expected ← ok_or (references t !! 1) Unavailable;
  content ← payload_read (payloads c) io (ticket_key t) 1 expected;
  match content with Personal_Intake i => Ok i | _ => Err Unavailable end.

(** Fills the personal content and the row of a command; returns both with the
    notice for the requester. *)
Definition prepare_personal (c : Case) (t : Ticket) (i : Intake) (content : PersonalEvent)
    (row : JournalRow) : cres (PersonalEvent * JournalRow * option Notice) :=
  match content with
  | Personal_Decision d salts notice =>
      salts ← match d with
              | Granted _ _ _ =>
                  if bool_decide (ground_of i = Some Ground_DataDelisting)
                  then try_map (fun _ => Hex64_parse zero_id) (names_of i) else Ok salts
              | _ => Ok salts
              end;
      let row := with_decision (as_str (Decision_kind d)) row in
      let row :=
        match d with
        | Granted _ _ _ | NotIntimateImage _ _ | NoStanding _ _ =>
            with_reason_code (match ground_of i with Some g => as_str g | None => [] end) row
        | ManifestlyUnfounded _ _ policy clause duplicate_of =>
            with_related_ticket_id duplicate_of
              (with_reason_code clause (with_policy_version policy row))
        | Refused _ _ => row
        end in
      Ok (Personal_Decision d salts notice, row, Some notice)
  | Personal_Reversal _ _ notice =>
      reversal_fields t row ≫= fun row : JournalRow =>
      number ← ok_or (u64_checked_add (head_sequence (journal_head (journal c))) 1) Capacity;
      Ok (content,
          with_intent_sequence number (with_effective_at (row_at row)
            (with_asset_ids (documents_of i) row)),
          Some notice)
  | Personal_Uphold _ _ notice => Ok (content, row, Some notice)
  | Personal_Extension _ _ notice _ =>
      Ok (content, row, Some {| notice_text := notice; remedies := [] |})
  | Personal_Progress _ update _ =>
      Ok (content, row, Some {| notice_text := update; remedies := [] |})
  | Personal_Appeal _ (Some id) =>
      _ ← find_ticket c id; Ok (content, with_related_ticket_id id row, None)
  | _ => Ok (content, row, None)
  end.

(** The intent and the completion that follow the first row. *)
Definition prepare_action (c : Case) (t : Ticket) (i : Intake) (content : PersonalEvent)
    (row : JournalRow) : cres (list JournalRow) :=
  let action :=
    match content with
    | Personal_Decision (Granted _ _ _) _ _ => bool_decide (is_Some (ground_of i))
    | _ => false
    end in
  let determination :=
    match content with
    | Personal_Decision (NotIntimateImage _ _ | NoStanding _ _) _ _ => true
    | _ => false
    end in
  let reversal := bool_decide (event row = Event_ReversalIntent) in
  if negb action && negb determination && negb reversal then Ok [row]
  else if reversal then
    finished ← completion t row (row_at row) (actor row); Ok [row; finished]
  else
    projected ← apply_row t row;
    number ← ok_or (u64_checked_add (head_sequence (journal_head (journal c))) 2) Capacity;
    let intent :=
      with_effective_at (row_at row) (with_asset_ids (documents_of i)
        (with_intent_sequence number (with_event Event_ActionIntent row))) in
    finished ← completion projected intent (row_at row) (actor row);
    Ok [row; intent; finished].

Definition administration_plan (c : Case) (env : Env) (id : TicketId) (who : str)
    (command : AdministrationEvent) : cres (Plan * option Notice) :=
  t ← find_ticket c id;
  _ ← refuse_if (purged t) InvalidTransition;
  i ← stored_intake c (intake_io env) t;
  row ← event_row t (personal_event_name command) (env_at env) who;
  _ ← match command with
      | Admin_Decision d => decision_allowed settings t d (ground_of i) (tickets c)
      | _ => Ok tt
      end;
  prepare_personal c t i (personal command settings) row ≫=
  fun '((content, row, notice) : PersonalEvent * JournalRow * option Notice) =>
  let number := Z.of_nat (size (references t)) + 1 in
  zero ← Hex64_parse zero_id;
  payload ← prepare_with_salt id number content zero;
  rows ← prepare_action c t i (payload_content payload) (reference_row payload row);
  plan ← materialize_plan c (draft_now env) (draws env)
           {| draft_rows := rows; draft_content := payload_content payload; draft_intake := i;
              draft_number := number; draft_bytes := byte_length payload; draft_new := false |};
  Ok (plan, notice).
Definition administer (env : Env) (id : TicketId) (who : str) (command : AdministrationEvent)
    : method Case Error Outcome :=
  _ ← inspect (fun c => refuse_if (writes_disabled c) Unavailable);
  inspect (fun c => administration_plan c env id who command) ≫=
  fun '((plan, notice) : Plan * option Notice) =>
  _ ← execute_plan (plan_io env) plan;
  t ← inspect (fun c => find_ticket c id);
  mret {| outcome_ticket := t; outcome_notice := notice |}.

Definition purge_plan (c : Case) (env : Env) (t : Ticket) (who : str) : cres Plan :=
  _ ← successor (state t) Event_PurgeIntent;
  due ← purge_due settings t (env_at env);
  _ ← refuse_if (negb due) RetentionNotDue;
  row ← event_row t Event_PurgeIntent (env_at env) who;
  number ← ok_or (u64_checked_add (head_sequence (journal_head (journal c))) 1) Capacity;
  let intent := with_intent_sequence number row in
  finished ← completion t intent (env_at env) who;
  Ok {| plan_rows := [intent; finished]; plan_payload := None; plan_rules := None;
        plan_purge := true; plan_reserved := true |}.
Definition purge (env : Env) (id : TicketId) (who : str) : method Case Error Outcome :=
  _ ← inspect (fun c => refuse_if (writes_disabled c) Unavailable);
  t ← inspect (fun c => find_ticket c id);
  if purged t then mret {| outcome_ticket := t; outcome_notice := None |}
  else
    plan ← inspect (fun c => purge_plan c env t who);
    _ ← execute_plan (plan_io env) plan;
    t ← inspect (fun c => find_ticket c id);
    mret {| outcome_ticket := t; outcome_notice := None |}.

(** ** The store *)

Record CaseState := { case : option Case; case_unavailable : bool }.
Definition reset_progress (c : Case) : Case := set_journal (journal c) false c.

(** One transaction under the owner's lock; a panic inside it is a failure at
    that point. *)
Definition execute {A} (operation : method Case Error A) : method CaseState Error A := fun s =>
  if case_unavailable s then (s, Err Unavailable)
  else match case s with
  | None => (s, Err Unavailable)
  | Some c =>
      let (c', r) := operation (reset_progress c) in
      ({| case := Some c'; case_unavailable := negb (is_ok r) && write_progress c' |}, r)
  end.

Definition store_admit (now : Z) (env : Env) (i : Intake) : method CaseState Error Admission := fun s =>
  match (_ ← validate_intake i; instant now) with
  | Err e => (s, Err e)
  | Ok _ => execute (case_admit env i now) s
  end.
Definition store_administer (env : Env) (id : TicketId) (who : str) (command : AdministrationEvent)
    : method CaseState Error Outcome := fun s =>
  match (_ ← auth_actor who; AdministrationEvent_validate command) with
  | Err e => (s, Err e)
  | Ok _ => execute (administer env id who command) s
  end.
Definition store_purge (env : Env) (id : TicketId) (who : str) : method CaseState Error Outcome := fun s =>
  match auth_actor who with
  | Err e => (s, Err e)
  | Ok _ => execute (purge env id who) s
  end.

Definition available (s : CaseState) : cres unit := refuse_if (case_unavailable s) Unavailable.
Definition status (s : CaseState) (id : TicketId) : cres Ticket :=
  _ ← refuse_if (case_unavailable s) Unavailable;
  c ← ok_or (case s) Unavailable;
  ok_or (tickets c !! id) NotFound.

Record PrivateTicket := { private_ticket : Ticket; private_events : list PersonalEvent }.
Definition private_read (io : Z -> ReadIo) (id : TicketId) : method Case Error PrivateTicket :=
  inspect (fun c =>
    t ← find_ticket c id;
    events ← (if purged t then Ok []
              else try_map (fun '(n, expected) => payload_read (payloads c) (io n) id n expected)
                     (btree_entries (references t)));
    Ok {| private_ticket := t; private_events := events |}).
Definition store_read (io : Z -> ReadIo) (id : TicketId) (who : str)
    : method CaseState Error PrivateTicket := fun s =>
  match auth_actor who with
  | Err e => (s, Err e)
  | Ok _ => execute (private_read io id) s
  end.

(** ** The queue *)

Inductive QueueView := View_Open | View_PurgeDue.
Record QueuePage := {
  observed_at : Z;
  items : list Ticket;
  next_ticket_id : option TicketId;
}.
(** Receipt, then identifier. *)
Definition queue_key (t : Ticket) : Z * TicketId := (times_received (times t), ticket_key t).
Definition queue_cmp (a b : Z * TicketId) : comparison :=
  match Z.compare a.1 b.1 with Eq => str_cmp a.2 b.2 | o => o end.
Definition open_states : list TicketState :=
  [TicketState_Received; TicketState_Acknowledged; TicketState_IdentityPending; TicketState_Queued;
   TicketState_Decided; TicketState_Appealed].
Definition selected (view : QueueView) (now : Z) (t : Ticket) : cres bool :=
  match view with
  | View_Open => Ok (bool_decide (pending t <> None) || bool_decide (state t ∈ open_states))
  | View_PurgeDue => purge_due settings t now
  end.
Definition after_cursor (cursor : option (Z * TicketId)) (t : Ticket) : bool :=
  match cursor with
  | None => true
  | Some k => match queue_cmp (queue_key t) k with Gt => true | _ => false end
  end.
(** The tickets in the order of the map. *)
Definition ticket_list (c : Case) : list Ticket :=
  map snd (stable_sort (fun a b => str_cmp a.1 b.1) (map_to_list (tickets c))).
Definition queue_items (c : Case) (view : QueueView) (now : Z) (cursor : option (Z * TicketId))
    : cres (list Ticket) :=
  try_fold (fun found t =>
    keep ← selected view now t;
    Ok (if keep && after_cursor cursor t then found ++ [t] else found)) [] (ticket_list c).
Definition queue (s : CaseState) (now : Z) (who : str) (after : option TicketId) (limit : Z)
    (view : QueueView) : cres QueuePage :=
  _ ← auth_actor who;
  _ ← validate Key_QueueLimit limit;
  _ ← refuse_if (case_unavailable s) Unavailable;
  c ← ok_or (case s) Unavailable;
  cursor ← match after with
           | None => Ok None
           | Some id => t ← ok_or (tickets c !! id) InvalidInput;
                        Ok (Some (times_received (times t), ticket_key t))
           end;
  found ← queue_items c view now cursor;
  let found := stable_sort (fun a b => queue_cmp (queue_key a) (queue_key b)) found in
  let more := limit <? Z.of_nat (length found) in
  let page := take (Z.to_nat limit) found in
  Ok {| observed_at := now; items := page;
        next_ticket_id := if more then ticket_key <$> last page else None |}.
End Owner.
