(* ===== verification/Transactions.v ===== *)
(** * Transactions of the ticket owner

    What executing a plan leaves in memory and on disk, whatever fails: the
    journal holds a prefix of the planned rows, a completion row is written
    only after the rule change or the deletion it reports, and a transaction
    that changed something and failed disables the store. *)

From S2P Require Import Prelude Text Externals Disk Compliance Canonical ComplianceModel.
From S2P Require Import Listed Rules Journal Payload JournalRow RowFields Transitions Tickets.

#[local] Open Scope Z_scope.

(** ** Chains of prepared rows *)

Section Prepared.
Context `{C : Chrono} `{D : Digest} `{J : Json} `{JL : !JsonLaws J}.

Lemma prepare_from_later now now' seq previous at_ l rows :
  now <= now' -> prepare_from now seq previous at_ l = Ok rows ->
  prepare_from now' seq previous at_ l = Ok rows.
Proof.
  intros Hle. revert seq previous at_ rows. induction l as [|x l IH]; intros seq previous at_ rows; [done|].
  cbn [prepare_from]. intros (q & Hq & H)%bind_Ok. apply bind_Ok in H as (h & Hh & H).
  apply bind_Ok in H as ([] & Ht & H). apply bind_Ok in H as ([] & Hv & H).
  apply bind_Ok in H as (b & Hb & H). apply bind_Ok in H as (rest & Hrest & [= <-]).
  rewrite Hq. cbn [mbind result_bind]. rewrite Hh. cbn [mbind result_bind].
  assert (verify_time {| unsigned := set_link q previous x; row_hash := h |} at_ now' = Ok tt) as ->.
  { apply verify_time_Ok. apply verify_time_Ok in Ht as [? ?]. split; [lia|done]. }
  cbn [mbind result_bind]. rewrite Hv. cbn [mbind result_bind]. rewrite Hb. cbn [mbind result_bind].
  by rewrite (IH _ _ _ _ Hrest).
Qed.

(** A prepared row is the given one with its link. *)
Definition linked (x r : JournalRow) : Prop := unsigned r = set_link (sequence r) (previous_hash r) x.

Lemma prepare_from_chain now before l rows :
  Chain now before ->
  prepare_from now (Z.of_nat (length before)) (last_hash before) (last_time before) l = Ok rows ->
  Chain now (before ++ rows) /\ Forall2 linked l rows.
Proof.
  revert before rows. induction l as [|x l IH]; intros before rows Hch H.
  { injection H as <-. by rewrite app_nil_r. }
  cbn [prepare_from] in H.
  apply bind_Ok in H as (q & [-> _]%ok_or_Ok%u64_checked_add_Some & H). apply bind_Ok in H as (h & Hh & H).
  apply bind_Ok in H as ([] & Ht & H). apply bind_Ok in H as ([] & Hv & H).
  apply bind_Ok in H as (b & Hb & H). apply bind_Ok in H as (rest & Hrest & [= <-]).
  set (r := {| unsigned := _; row_hash := h |}) in *.
  assert (link_ok now before r) as Hlk.
  { apply verify_time_Ok in Ht as [Hn Hlast]. split; try done. unfold line_of. by rewrite Hb. }
  assert (Chain now (before ++ [r])) as Hch' by (by apply Chain_snoc).
  replace (before ++ r :: rest) with ((before ++ [r]) ++ rest) by (by rewrite <- app_assoc).
  destruct (IH (before ++ [r]) rest) as [Hc Hl]; [done| |].
  { rewrite length_app, Nat2Z.inj_add. cbn [length]. by rewrite last_hash_snoc, last_time_snoc. }
  split; [done|]. by constructor.
Qed.

Lemma prepare_rows_chain now now' j l rows :
  Consistent now j -> now <= now' -> prepare_rows j now' l = Ok rows ->
  Chain now' (journal_rows j ++ rows) /\ Forall2 linked l rows.
Proof.
  intros Hc Hle Hp. pose proof (Chain_later now now' _ Hle (cons_chain _ _ Hc)) as Hch.
  unfold prepare_rows in Hp. rewrite (cons_head _ _ Hc), (head_of_chain now') in Hp by done.
  by apply prepare_from_chain.
Qed.

Lemma Consistent_later now now' j : now <= now' -> Consistent now j -> Consistent now' j.
Proof. intros Hle [? ? ? ? ? ? ?]. split; try done. by apply (Chain_later now). Qed.

(** ** A prefix of the rows on disk *)

(** [k] rows of the plan were appended whole; when [started] is one more, the
    next one was being appended. *)
Record appended (now : Z) (j : Journal) (rows : list JournalRow) (k started : nat) (j' : Journal)
    : Prop := {
  ap_started : (k <= started <= length rows)%nat;
  ap_state : exists j1,
    Consistent now j1 /\ journal_rows j1 = journal_rows j ++ take k rows /\
    Journal.config j1 = Journal.config j /\
    ((started = k /\ j' = j1) \/
     (started = S k /\ Journal.config j' = Journal.config j /\
      exists row, rows !! k = Some row /\ link_ok now (journal_rows j1) row /\ append_effect j1 row j'));
}.

Lemma appended_none now j rows : Consistent now j -> appended now j rows 0 0 j.
Proof.
  intros Hc. split; [lia|]. exists j. cbn. rewrite app_nil_r. naive_solver.
Qed.
Lemma appended_cons now j row j1 rows k started j' :
  journal_rows j1 = journal_rows j ++ [row] -> Journal.config j1 = Journal.config j ->
  appended now j1 rows k started j' -> appended now j (row :: rows) (S k) (S started) j'.
Proof.
  intros Hr Hcfg [Hs (j2 & Hc & Hr2 & Hcfg2 & Hcase)]. split; [cbn; lia|]. exists j2. split_and!; [done| |congruence|].
  - cbn [take]. rewrite Hr2, Hr, <- app_assoc. done.
  - destruct Hcase as [[-> ->]|(-> & ? & row' & ? & ? & ?)]; [by left|right].
    split_and!; [done|congruence|]. by exists row'.
Qed.

Lemma consistent_loads now j later :
  Consistent now j -> now <= later ->
  exists d k, load (Journal.config j) later load_io_ok (Journal.disk j) = (d, Ok k) /\ Consistent later k /\
    journal_rows k = journal_rows j.
Proof.
  intros [Hch He Hh (h & Hpub & Hcp) Hq Hcap Hu] Hle.
  destruct (load_disk (Journal.config j) later (Journal.disk j) h (journal_rows j) None)
    as (d & k & Hload & Hrows & _ & Hk & _); try done.
  { by apply (Chain_later now). }
  { cbn. by rewrite app_nil_r. }
  { rewrite He. exact Hcap. }
  by exists d, k.
Qed.

(** A restart finds a prefix of the planned rows. *)
Lemma appended_loads now j rows k started j' later :
  appended now j rows k started j' -> now <= later ->
  exists d kept m, load (Journal.config j) later load_io_ok (Journal.disk j') = (d, Ok kept) /\
    Consistent later kept /\ journal_rows kept = journal_rows j ++ take m rows /\
    (k <= m <= started)%nat.
Proof.
  intros [Hs (j1 & Hc & Hr & Hcfg & Hcase)] Hle.
  destruct Hcase as [[-> ->]|(-> & _ & row & Hrow & Hlk & Heff)].
  - destruct (consistent_loads now j1 later Hc Hle) as (d & kept & Hl & Hk & Hrows).
    exists d, kept, k. rewrite <- Hcfg. split_and!; try done; try lia. congruence.
  - destruct (append_effect_loads now j1 row j' later Hc Hlk Heff Hle) as (d & kept & Hl & Hk & Hrows).
    rewrite Hcfg in Hl. destruct Hrows as [Hrows|[Hrows _]].
    + exists d, kept, (S k). split_and!; try done; try lia.
      rewrite Hrows, Hr, (take_S_r rows k row Hrow), <- app_assoc. done.
    + exists d, kept, k. split_and!; try done; try lia. congruence.
Qed.
End Prepared.

(** ** Executing the rows *)

Section Execution.
Context `{U : UrlOps} `{T : Tokenizing} `{D : Digest} `{C : Chrono}.
Context `{J : Json} `{JL : !JsonLaws J} `{RJ : RulesJson} `{JT : JsonText} `{PJ : PayloadJson}.
Context (settings : ComplianceConfig).

(** The work of an intent was done: the prepared rules were committed and, in a
    purge, the revisions were deleted. *)
Definition rules_done (io : PlanIo) (rules : option PreparedRules) (c c' : Case) : Prop :=
  match rules with
  | Some p => commit (rules_store c) p (rules_pid io) (rules_counter io) (rules_run io) =
                (rules_store c', Ok tt)
  | None => rules_store c' = rules_store c
  end.
Definition purge_done (io : PlanIo) (t : Ticket) (purge : bool) (c c' : Case) : Prop :=
  if purge
  then payload_purge (purge_io io) (ticket_key t) (references t) (payloads c) = (payloads c', Ok tt)
  else payloads c' = payloads c.
Definition rules_tried (io : PlanIo) (rules : option PreparedRules) (c c' : Case) : Prop :=
  rules_store c' = rules_store c \/
  exists p, rules = Some p /\
    rules_store c' = (commit (rules_store c) p (rules_pid io) (rules_counter io) (rules_run io)).1.
Definition purge_tried (io : PlanIo) (t : Ticket) (purge : bool) (c c' : Case) : Prop :=
  payloads c' = payloads c \/
  (purge = true /\
   payloads c' = (payload_purge (purge_io io) (ticket_key t) (references t) (payloads c)).1).

Definition no_intent (rows : list JournalRow) : Prop := Forall (fun r => is_intent r = false) rows.
(** At most one row of a plan is an intent. *)
Fixpoint one_intent (rows : list JournalRow) : Prop :=
  match rows with [] => True | r :: rows' => if is_intent r then no_intent rows' else one_intent rows' end.

Record ran (now : Z) (io : PlanIo) (t : Ticket) (purge : bool) (rows : list JournalRow)
    (rules : option PreparedRules) (c c' : Case) (r : cres unit) : Prop := {
  ran_same : tickets c' = tickets c /\ usage c' = usage c /\ writes_disabled c' = writes_disabled c;
  ran_mark : write_progress c = true -> write_progress c' = true;
  ran_none : write_progress c' = false -> c' = c;
  ran_rules : rules_tried io rules c c';
  ran_payloads : purge_tried io t purge c c';
  ran_journal : exists k started,
    appended now (journal c) rows k started (journal c') /\
    (r = Ok tt -> k = length rows) /\
    (forall m row, rows !! m = Some row -> is_intent row = true -> (S m < started)%nat \/ r = Ok tt ->
      rules_done io rules c c' /\ purge_done io t purge c c') /\
    ((rules_store c' = rules_store c /\ payloads c' = payloads c) \/
     exists m row, rows !! m = Some row /\ is_intent row = true /\ (m < k)%nat);
}.

Lemma append_row_cases now c append_now io row c' r :
  Consistent now (journal c) -> link_ok now (journal_rows (journal c)) row ->
  append_row append_now io row c = (c', r) ->
  payloads c' = payloads c /\ tickets c' = tickets c /\ usage c' = usage c /\
  rules_store c' = rules_store c /\ writes_disabled c' = writes_disabled c /\
  (write_progress c = true -> write_progress c' = true) /\ (write_progress c' = false -> c' = c) /\
  Journal.config (journal c') = Journal.config (journal c) /\
  append_effect (journal c) row (journal c') /\
  (r = Ok tt -> Consistent now (journal c') /\
    journal_rows (journal c') = journal_rows (journal c) ++ [row] /\ write_progress c' = true).
Proof.
  intros Hc Hlk H. unfold append_row in H.
  destruct (append_tracked _ _ _ _ _) as [[j p] r'] eqn:Ha. injection H as <- <-.
  pose proof Ha as Hmark.
  apply (append_tracked_effect now) in Ha as (Hcfg & Heff & Hok & Hnone); [|done..].
  cbn. split_and!; try done.
  - intros Hp. unfold append_tracked in Hmark. rewrite Hp in Hmark. clear Hok Hnone.
    repeat (case_match; simplify_eq; try done).
  - intros ->. rewrite Hnone by done. unfold append_tracked in Hmark.
    assert (write_progress c = false) as Hp.
    { repeat (case_match; simplify_eq; try done). }
    unfold set_journal. rewrite <- Hp. by destruct c.
Qed.

Lemma stage_cases b c c' r : stage b c = (c', r) -> c' = c /\ (r = Ok tt \/ r <> Ok tt).
Proof. unfold stage, inspect. intros [= <- <-]. destruct b; cbn; naive_solver. Qed.
Lemma when_stage_cases b s c c' r : when b (stage s) c = (c', r) -> c' = c.
Proof. destruct b; [by intros [-> _]%stage_cases|]. by intros [= <- _]. Qed.

Lemma ran_stuck now io t purge rows rules c e :
  Consistent now (journal c) -> ran now io t purge rows rules c c (Err e).
Proof.
  intros Hc. split; try done; [by left|by left|]. exists 0%nat, 0%nat.
  split_and!; [by apply appended_none|done| |by left]. intros m row _ _ [?|?]; [lia|done].
Qed.

(** The append of the next row failed. *)
Lemma ran_append_failed now io t purge row rows rules c append_now aio c' e :
  Consistent now (journal c) -> link_ok now (journal_rows (journal c)) row ->
  append_row append_now aio row c = (c', Err e) ->
  ran now io t purge (row :: rows) rules c c' (Err e) /\ rules_store c' = rules_store c /\
  payloads c' = payloads c.
Proof.
  intros Hc Hlk Ha.
  apply (append_row_cases now) in Ha as (Hp & Ht & Hu & Hr & Hw & Hmark & Hnone & Hcfg & Heff & _); [|done..].
  split_and!; [|done..]. split; try done; [by left|by left|].
  exists 0%nat, 1%nat. split_and!; [|done|intros m r0 _ _ [?|?]; [lia|done]|by left].
  split; [cbn; lia|]. exists (journal c). cbn. rewrite app_nil_r. split_and!; try done.
  right. split_and!; [done..|]. by exists row.
Qed.

(** A row was appended whole and the rest ran. *)
Lemma ran_step now io t purge row rows rules c c1 c' r :
  is_intent row = false ->
  journal_rows (journal c1) = journal_rows (journal c) ++ [row] ->
  Journal.config (journal c1) = Journal.config (journal c) ->
  payloads c1 = payloads c -> rules_store c1 = rules_store c -> tickets c1 = tickets c ->
  usage c1 = usage c -> writes_disabled c1 = writes_disabled c -> write_progress c1 = true ->
  ran now io t purge rows rules c1 c' r -> ran now io t purge (row :: rows) rules c c' r.
Proof.
  intros Hni Hrows Hcfg Hp Hr Ht Hu Hw Hprog [Hsame Hmark Hnone Hrules Hpay (k & started & Happ & Hall & Hdone & Hahead)].
  specialize (Hmark Hprog). unfold rules_tried, purge_tried in *. rewrite Hr in Hrules. rewrite Hp in Hpay.
  split; try done.
  - by rewrite <- Ht, <- Hu, <- Hw.
  - by rewrite Hmark.
  - exists (S k), (S started). split_and!; [by eapply appended_cons|cbn; naive_solver lia| |].
    2:{ destruct Hahead as [[? ?]|(m & r0 & ? & ? & ?)]; [left; split; congruence|right].
        exists (S m), r0. split_and!; [done..|lia]. }
    intros [|m] r0 Hm Hi Hs; [cbn in Hm; simplify_eq; congruence|].
    destruct (Hdone m r0 Hm Hi) as [Hrd Hpd]; [destruct Hs; [left; lia|by right]|].
    unfold rules_done, purge_done in *. by rewrite Hr in Hrd; rewrite Hp in Hpd.
Qed.

Lemma run_rows_no_intent now io t purge n rows rules c c' r :
  no_intent rows -> Chain now (journal_rows (journal c) ++ rows) -> Consistent now (journal c) ->
  run_rows io t purge n rows rules c = (c', r) ->
  ran now io t purge rows rules c c' r /\ rules_store c' = rules_store c /\ payloads c' = payloads c.
Proof.
  revert n c. induction rows as [|row rows IH]; intros n c Hni Hch Hc H; cbn [run_rows] in H.
  { injection H as <- <-. split_and!; try done. split; try done; [by left|by left|].
    exists 0%nat, 0%nat. split_and!; [by apply appended_none|done| |by left]. intros m r0 Hm. by rewrite lookup_nil in Hm. }
  apply Forall_cons in Hni as [Hrow Hni]. rewrite Hrow in H.
  assert (link_ok now (journal_rows (journal c)) row) as Hlk by (by eapply Hch).
  apply method_bind_cases in H as [(c0 & ? & ->%when_stage_cases & H)|(e & ->%when_stage_cases & ->)];
    [|by split_and!; [apply ran_stuck|..]].
  apply method_bind_cases in H as [(c1 & [] & Ha & H)|(e & Ha & ->)].
  - apply (append_row_cases now) in Ha as (Hp & Ht & Hu & Hr & Hw & _ & _ & Hcfg & _ & Hok); [|done..].
    destruct (Hok eq_refl) as (Hc1 & Hr1 & Hprog).
    destruct (IH (S n) c1) as (Hran & Hrules & Hpay); [done| |done|done|].
    { by rewrite Hr1, <- app_assoc. }
    split_and!; [by eapply ran_step|congruence|congruence].
  - by eapply ran_append_failed.
Qed.

(** After the intent was appended and before the next row. *)
Lemma ran_intent_stop now io t purge row rows rules c c1 c' e :
  is_intent row = true -> Consistent now (journal c1) -> journal_rows (journal c1) = journal_rows (journal c) ++ [row] ->
  Journal.config (journal c1) = Journal.config (journal c) ->
  journal c' = journal c1 -> tickets c' = tickets c -> usage c' = usage c ->
  writes_disabled c' = writes_disabled c -> write_progress c' = true ->
  rules_tried io rules c c' -> purge_tried io t purge c c' ->
  ran now io t purge (row :: rows) rules c c' (Err e).
Proof.
  intros Hi Hc Hr Hcfg Hj Ht Hu Hw Hp Hrules Hpay. split; try done; [congruence|].
  exists 1%nat, 1%nat. split_and!; [|done|intros m r0 _ _ [?|?]; [lia|done]|right; exists 0%nat, row; auto].
  apply (appended_cons now _ row (journal c1)); [done..|]. rewrite Hj. by apply appended_none.
Qed.

Lemma commit_rules_cases io p c c' r :
  commit_rules io p c = (c', r) ->
  commit (rules_store c) p (rules_pid io) (rules_counter io) (rules_run io) = (rules_store c', r) /\
  journal c' = journal c /\ payloads c' = payloads c /\ tickets c' = tickets c /\ usage c' = usage c /\
  writes_disabled c' = writes_disabled c /\ write_progress c' = write_progress c.
Proof.
  unfold commit_rules. destruct (commit _ _ _ _ _) as [s r'] eqn:E. by intros [= <- <-].
Qed.
Lemma purge_payloads_cases io t c c' r :
  purge_payloads io t c = (c', r) ->
  payload_purge io (ticket_key t) (references t) (payloads c) = (payloads c', r) /\
  journal c' = journal c /\ rules_store c' = rules_store c /\ tickets c' = tickets c /\
  usage c' = usage c /\ writes_disabled c' = writes_disabled c /\
  write_progress c' = write_progress c.
Proof.
  unfold purge_payloads. destruct (payload_purge _ _ _ _) as [d r'] eqn:E. by intros [= <- <-].
Qed.

(** Rest of the work of an intent, as one step. *)
Definition intent_work (io : PlanIo) (t : Ticket) (purge : bool) (rules : option PreparedRules) (n : nat)
    : method Case Error unit :=
  _ ← stage (after_intent io n);
  _ ← match rules with Some p => commit_rules io p | None => mret tt end;
  _ ← when purge (purge_payloads (purge_io io) t);
  stage (after_rules io n).

Lemma method_bind_assoc {A B} (m : method Case Error A) (f : A -> method Case Error B)
    (g : B -> method Case Error unit) c :
  ((m ≫= f) ≫= g) c = (m ≫= fun a => f a ≫= g) c.
Proof. unfold mbind, method_bind. by destruct (m c) as [? []]. Qed.

Lemma intent_work_cases io t purge rules n c c' r :
  intent_work io t purge rules n c = (c', r) ->
  journal c' = journal c /\ tickets c' = tickets c /\ usage c' = usage c /\
  writes_disabled c' = writes_disabled c /\ write_progress c' = write_progress c /\
  rules_tried io rules c c' /\ purge_tried io t purge c c' /\
  (r = Ok tt -> rules_done io rules c c' /\ purge_done io t purge c c').
Proof.
  unfold intent_work. intros H.
  apply method_bind_cases in H as [(c0 & ? & [-> _]%stage_cases & H)|(e & [-> _]%stage_cases & ->)];
    [|by split_and!; try done; left].
  assert (exists c2 r2,
    match rules with Some p => commit_rules io p | None => mret tt end c = (c2, r2) /\
    journal c2 = journal c /\ payloads c2 = payloads c /\ tickets c2 = tickets c /\ usage c2 = usage c /\
    writes_disabled c2 = writes_disabled c /\ write_progress c2 = write_progress c /\
    rules_tried io rules c c2 /\ (r2 = Ok tt -> rules_done io rules c c2))
    as (c2 & r2 & E2 & Hj2 & Hp2 & Ht2 & Hu2 & Hw2 & Hg2 & Htry2 & Hdone2).
  { destruct rules as [p|].
    - destruct (commit_rules io p c) as [c2 r2] eqn:E. exists c2, r2.
      apply commit_rules_cases in E as (Hc & ? & ? & ? & ? & ? & ?). split_and!; try done.
      + right. exists p. by rewrite Hc.
      + intros ->. exact Hc.
    - exists c, (Ok tt). split_and!; try done. by left. }
  apply method_bind_cases in H as [(c0 & ? & H2 & H)|(e & H2 & ->)]; rewrite E2 in H2; simplify_eq;
    [|split_and!; try done; by left].
  destruct x0. specialize (Hdone2 eq_refl).
  assert (exists c3 r3, when purge (purge_payloads (purge_io io) t) c0 = (c3, r3) /\
    journal c3 = journal c /\ rules_store c3 = rules_store c0 /\ tickets c3 = tickets c /\
    usage c3 = usage c /\ writes_disabled c3 = writes_disabled c /\
    write_progress c3 = write_progress c /\ purge_tried io t purge c c3 /\
    (r3 = Ok tt -> purge_done io t purge c c3))
    as (c3 & r3 & E3 & Hj3 & Hr3 & Ht3 & Hu3 & Hw3 & Hg3 & Htry3 & Hdone3).
  { destruct purge; cbn [when].
    - destruct (purge_payloads (purge_io io) t c0) as [c3 r3] eqn:E. exists c3, r3.
      apply purge_payloads_cases in E as (Hc & ? & ? & ? & ? & ? & ?). rewrite Hp2 in Hc.
      split_and!; try done; try congruence. right. split; [done|]. by rewrite Hc.
    - exists c0, (Ok tt). split_and!; try done; try congruence. by left. }
  assert (rules_tried io rules c c3) as Htr3 by (unfold rules_tried in *; by rewrite Hr3).
  apply method_bind_cases in H as [(c4 & ? & H3 & H)|(e & H3 & ->)]; rewrite E3 in H3; simplify_eq;
    [|by split_and!].
  destruct x0. apply stage_cases in H as [-> _]. split_and!; try done. intros _.
  split; [|by apply Hdone3]. unfold rules_done in *. by rewrite Hr3.
Qed.

Lemma run_rows_intent io t purge n row rows rules c :
  is_intent row = true ->
  run_rows io t purge n (row :: rows) rules c =
    (when (is_completion row) (stage (before_completion io n)) ≫= fun _ =>
     append_row (append_now io n) (append_io io n) row ≫= fun _ =>
     intent_work io t purge rules n ≫= fun _ => run_rows io t purge (S n) rows None) c.
Proof.
  intros Hi. cbn [run_rows]. rewrite Hi. unfold intent_work, mbind, method_bind.
  destruct (when _ _ c) as [? [[]|]]; [|done]. destruct (append_row _ _ _ _) as [? [[]|]]; [|done].
  destruct (stage _ _) as [? [[]|]]; [|done].
  destruct rules; [destruct (commit_rules _ _ _) as [? [[]|]]; [|done]|];
    cbn; (destruct (when _ _ _) as [? [[]|]]; [|done]); by destruct (after_rules io n).
Qed.

Lemma run_rows_cases now io t purge n rows rules c c' r :
  one_intent rows -> Chain now (journal_rows (journal c) ++ rows) -> Consistent now (journal c) ->
  run_rows io t purge n rows rules c = (c', r) -> ran now io t purge rows rules c c' r.
Proof.
  revert n c. induction rows as [|row rows IH]; intros n c Hone Hch Hc H.
  { by apply (run_rows_no_intent now) in H as [? _]; [|constructor|..]. }
  cbn [one_intent] in Hone.
  assert (link_ok now (journal_rows (journal c)) row) as Hlk by (by eapply Hch).
  destruct (is_intent row) eqn:Hi.
  - rewrite run_rows_intent in H by done.
    apply method_bind_cases in H as [(c0 & ? & ->%when_stage_cases & H)|(e & ->%when_stage_cases & ->)];
      [|by apply ran_stuck].
    apply method_bind_cases in H as [(c1 & [] & Ha & H)|(e & Ha & ->)]; [|by eapply (ran_append_failed now) in Ha as [? _]].
    apply (append_row_cases now) in Ha as (Hp & Ht & Hu & Hr & Hw & _ & _ & Hcfg & _ & Hok); [|done..].
    destruct (Hok eq_refl) as (Hc1 & Hr1 & Hprog).
    apply method_bind_cases in H as [(c2 & [] & Hwork & H)|(e & Hwork & ->)];
      apply intent_work_cases in Hwork as (Hj & Ht' & Hu' & Hw' & Hg' & Htry & Hptry & Hdone);
      unfold rules_tried, purge_tried in Htry, Hptry; rewrite ?Hr in Htry; rewrite ?Hp in Hptry; cycle 1.
    { eapply (ran_intent_stop now); try done; congruence. }
    destruct (Hdone eq_refl) as [Hrd Hpd]. clear Hdone.
    apply (run_rows_no_intent now) in H as (Hran & Hrs & Hps); [|done|by rewrite Hj, Hr1, <- app_assoc|by rewrite Hj].
    destruct Hran as [(Ht2 & Hu2 & Hw2) Hmark Hnone _ _ (k & started & Happ & Hall & _ & _)].
    assert (write_progress c' = true) as Hp' by (apply Hmark; congruence).
    split; try done; [split_and!; congruence|congruence|..].
    + unfold rules_tried. by rewrite Hrs.
    + unfold purge_tried. by rewrite Hps.
    + exists (S k), (S started). split_and!.
      * apply (appended_cons now _ row (journal c1)); [done..|]. by rewrite <- Hj.
      * cbn. naive_solver lia.
      * intros m r0 _ _ _. unfold rules_done, purge_done in *. rewrite Hrs, Hps, <- Hr, <- Hp. done.
      * right. exists 0%nat, row. split_and!; [done..|lia].
  - cbn [run_rows] in H. rewrite Hi in H.
    apply method_bind_cases in H as [(c0 & ? & ->%when_stage_cases & H)|(e & ->%when_stage_cases & ->)];
      [|by apply ran_stuck].
    apply method_bind_cases in H as [(c1 & [] & Ha & H)|(e & Ha & ->)]; [|by eapply (ran_append_failed now) in Ha as [? _]].
    apply (append_row_cases now) in Ha as (Hp & Ht & Hu & Hr & Hw & _ & _ & Hcfg & _ & Hok); [|done..].
    destruct (Hok eq_refl) as (Hc1 & Hr1 & Hprog).
    eapply ran_step; [..|eapply IH]; try done. by rewrite Hr1, <- app_assoc.
Qed.

(** ** Memory and disk agree *)

Definition rows_of (id : str) (l : list JournalRow) : list JournalRow :=
  filter (fun r : JournalRow => ticket_id r = id) l.

(** The bytes of a ticket's revision files. *)
Definition revision_bytes (d : PayloadDisk) (id : str) (refs : gmap Z str) : Z :=
  foldr (fun e n => Z.of_nat (length (default [] (payload_file d id e.1))) + n) 0 (map_to_list refs).
(** The tickets in memory are the replay of the journal's rows, each row
    belongs to a known ticket, and the serving rules are those on disk. *)
Record Grounded (c : Case) : Prop := {
  co_config : Journal.config (journal c) = settings;
  co_journal : exists now, Consistent now (journal c);
  co_tickets : forall id t, tickets c !! id = Some t ->
    id <> [] /\ ticket_key t = id /\ Replay settings (rows_of id (journal_rows (journal c))) t;
  co_rows : Forall (fun r : JournalRow => ticket_id r = [] \/ is_Some (tickets c !! ticket_id r))
    (journal_rows (journal c));
  co_rules : coherent settings (rules_store c);
}.
(** Moreover every revision of a ticket that was not purged can be read, none of
    a purged one is left, and the accounted bytes are those of the files. *)
Record Coherent (c : Case) : Prop := {
  co_grounded :> Grounded c;
  co_revisions : forall id t q h,
    tickets c !! id = Some t -> purged t = false -> references t !! q = Some h ->
    exists content len,
      read_authorized_measured (payloads c) read_io_ok id q h false = Ok (Some (content, len));
  co_purged : forall id t q,
    tickets c !! id = Some t -> purged t = true -> is_Some (references t !! q) ->
    payload_file (payloads c) id q = None;
  co_usage : forall id t, tickets c !! id = Some t ->
    default 0 (usage c !! id) = revision_bytes (payloads c) id (references t);
  co_unknown : forall id, tickets c !! id = None -> default 0 (usage c !! id) = 0;
}.

Lemma rows_of_app id l l' : rows_of id (l ++ l') = rows_of id l ++ rows_of id l'.
Proof. apply filter_app. Qed.
Lemma rows_of_all id l : Forall (fun r : JournalRow => ticket_id r = id) l -> rows_of id l = l.
Proof. induction 1 as [|r l Hr _ IH]; [done|]. unfold rows_of in *. rewrite filter_cons_True by done. by rewrite IH. Qed.
Lemma rows_of_none id l : Forall (fun r : JournalRow => ticket_id r <> id) l -> rows_of id l = [].
Proof. induction 1 as [|r l Hr _ IH]; [done|]. unfold rows_of in *. by rewrite filter_cons_False. Qed.
Lemma rows_of_unknown c id :
  Grounded c -> id <> [] -> tickets c !! id = None -> rows_of id (journal_rows (journal c)) = [].
Proof.
  intros Hc Hid Hn. apply rows_of_none, (Forall_impl _ _ _ (co_rows _ Hc)).
  intros r [E|[t Ht]] <-; [done|congruence].
Qed.

(** What the owner's plans look like. *)
Record plan_ok (c : Case) (plan : Plan) (id : str) : Prop := {
  po_id : id <> [];
  po_ticket : Forall (fun r : JournalRow => ticket_id r = id) (plan_rows plan);
  po_intent : one_intent (plan_rows plan);
  po_received : forall r : JournalRow, r ∈ plan_rows plan -> event r = Event_Received ->
    tickets c !! id = None;
  po_rules : forall p, plan_rules plan = Some p ->
    exists change, delta_parsed change /\ prepare_delta settings (rules_store c) change = Ok p;
  po_payload : forall p, plan_payload plan = Some p ->
    payload_ticket p = id /\ plan_purge plan = false /\
    1 <= payload_number p <= u64_max /\
    (forall t, tickets c !! id = Some t -> references t !! payload_number p = None) /\
    exists r : JournalRow, r ∈ plan_rows plan /\ payload_sequence r = payload_number p;
  po_references : forall r : JournalRow, r ∈ plan_rows plan -> payload_sequence r <> 0 ->
    (exists p, plan_payload plan = Some p /\ payload_sequence r = payload_number p /\
       commitment r = payload_commitment p) \/
    (exists t, tickets c !! id = Some t /\ is_Some (references t !! payload_sequence r));
  po_purge : plan_purge plan = true ->
    Exists (fun r => is_intent r = true) (plan_rows plan) /\
    exists r : JournalRow, last (plan_rows plan) = Some r /\ event r = Event_Purged;
}.
(** Only a purge records one. *)
Definition plan_live (plan : Plan) : Prop :=
  plan_purge plan = false -> Forall (fun r : JournalRow => event r <> Event_Purged) (plan_rows plan).

(** ** The projected ticket *)

Lemma try_fold_replay rows l t t' :
  Replay settings l t -> try_fold (apply_row settings) t rows = Ok t' -> Replay settings (l ++ rows) t'.
Proof.
  revert l t. induction rows as [|r rows IH]; intros l t Hr H; cbn in H.
  { injection H as <-. by rewrite app_nil_r. }
  apply bind_Ok in H as (t1 & H1 & H). unfold apply_row in H1.
  destruct (apply settings r t) as [t2 res] eqn:Ha. apply bind_Ok in H1 as ([] & -> & [= <-]).
  replace (l ++ r :: rows) with ((l ++ [r]) ++ rows) by (by rewrite <- app_assoc).
  eapply IH; [|done]. by eapply replay_apply.
Qed.

Lemma linked_fields x r :
  linked x r -> event r = event x /\ ticket_id r = ticket_id x /\
    payload_sequence r = payload_sequence x /\ commitment r = commitment x.
Proof. unfold linked. intros ->. done. Qed.

Lemma reserve_rows_replay c rows payload is_reserved t id :
  Grounded c -> id <> [] -> rows <> [] -> Forall (fun r : JournalRow => ticket_id r = id) rows ->
  (forall r : JournalRow, r ∈ rows -> event r = Event_Received -> tickets c !! id = None) ->
  reserve_rows settings c rows payload is_reserved = Ok t ->
  ticket_key t = id /\ Replay settings (rows_of id (journal_rows (journal c)) ++ rows) t /\
  ((tickets c !! id = None /\ exists first rest t0, rows = first :: rest /\ received first = Ok t0 /\
      try_fold (apply_row settings) t0 rest = Ok t) \/
   exists t0, tickets c !! id = Some t0 /\ try_fold (apply_row settings) t0 rows = Ok t).
Proof.
  intros Hc Hid Hne Hids Hnew H. unfold reserve_rows in H.
  apply bind_Ok in H as ([cand f] & Hp & H). apply bind_Ok in H as (? & _ & [= <-]).
  unfold project_and_measure in Hp. destruct rows as [|first rows]; [done|]. clear Hne.
  cbn [head ok_or mbind result_bind] in Hp. apply Forall_cons in Hids as [Hfirst Hids].
  apply bind_Ok in Hp as (id' & Hid' & Hp). apply Transitions.parse_ticket_id in Hid' as ->.
  rewrite Hfirst in Hp. apply bind_Ok in Hp as (t0 & Ht0 & Hp). apply bind_Ok in Hp as (t1 & Ht1 & Hp).
  apply bind_Ok in Hp as (? & _ & Hp). apply bind_Ok in Hp as (? & _ & [= <- <-]).
  assert (forall l, Replay settings l t1 -> l = rows_of id (journal_rows (journal c)) ++ first :: rows ->
    ticket_key t1 = id) as Hkey.
  { intros l Hl El. apply replay_wf in Hl. pose proof (wf_ids _ _ Hl) as Hall. rewrite El in Hall.
    apply Forall_app in Hall as [_ Hall]. apply Forall_cons in Hall as [E _]. congruence. }
  destruct (decide (event first = Event_Received)) as [Hev|Hev].
  - rewrite bool_decide_eq_true_2 in Ht0, Ht1 by done. cbn [drop] in Ht1.
    assert (tickets c !! id = None) as Hn by (eapply Hnew; [left|done]).
    pose proof (try_fold_replay rows [first] t0 t1 ltac:(by constructor) Ht1) as Hr.
    rewrite rows_of_unknown by done. cbn [app] in Hr |- *.
    split_and!; [eapply Hkey; [exact Hr|by rewrite rows_of_unknown]|done|]. left. split; [done|]. by exists first, rows, t0.
  - rewrite bool_decide_eq_false_2 in Ht0, Ht1 by done. cbn [drop] in Ht1.
    apply ok_or_Ok in Ht0. destruct (co_tickets _ Hc _ _ Ht0) as (_ & _ & Hr0).
    pose proof (try_fold_replay _ _ _ _ Hr0 Ht1) as Hr. split_and!; [by eapply Hkey|done|]. right. by exists t0.
Qed.

(** ** Revisions *)

Definition with_added (added : option (Z * str)) (refs : gmap Z str) : gmap Z str :=
  match added with Some (n, h) => <[n := h]> refs | None => refs end.

(** The row refers to the added revision. *)
Definition mentions (added : option (Z * str)) (row : JournalRow) : bool :=
  match added with Some (n, _) => payload_sequence row =? n | None => false end.
Definition refers_ok (added : option (Z * str)) (refs0 : gmap Z str) (row : JournalRow) : Prop :=
  payload_sequence row = 0 \/ added = Some (payload_sequence row, commitment row) \/
  is_Some (refs0 !! payload_sequence row).
Definition added_fresh (added : option (Z * str)) (refs0 : gmap Z str) : Prop :=
  match added with Some (n, _) => n <> 0 /\ refs0 !! n = None | None => True end.

Lemma apply_reference refs0 added (seen : bool) (row : JournalRow) t t' :
  added_fresh added refs0 -> refers_ok added refs0 row ->
  references t = (if seen then with_added added refs0 else refs0) ->
  apply_row settings t row = Ok t' ->
  references t' = (if seen || mentions added row then with_added added refs0 else refs0).
Proof.
  intros Hf Hrow Ht Ha. unfold apply_row in Ha. destruct (apply settings row t) as [t1 r] eqn:E.
  apply bind_Ok in Ha as ([] & -> & [= <-]). apply apply_Ok in E.
  pose proof (ap_references _ _ _ _ E) as Hr. unfold reference_spec in Hr.
  destruct (Z.eqb_spec (payload_sequence row) 0) as [Hz|Hz].
  { rewrite Hr, Ht. destruct added as [[n h]|]; cbn; [|by rewrite orb_false_r].
    rewrite Hz, (proj2 (Z.eqb_neq 0 n)) by (destruct Hf; congruence). by rewrite orb_false_r. }
  destruct Hrow as [?|[->|[h Hh]]]; [done|..].
  - cbn in *. rewrite Z.eqb_refl, orb_true_r. destruct Hf as [_ Hf]. destruct seen.
    + rewrite Ht, lookup_insert_eq in Hr. by destruct Hr as (_ & _ & ->).
    + rewrite Ht, Hf in Hr. by destruct Hr as (_ & ->).
  - assert (mentions added row = false) as ->.
    { destruct added as [[n h']|]; cbn; [|done]. apply Z.eqb_neq. intros E'. destruct Hf as [_ Hf]. congruence. }
    rewrite orb_false_r. assert (references t !! payload_sequence row = Some h) as El.
    { rewrite Ht. destruct seen, added as [[n h']|]; cbn; try done.
      rewrite lookup_insert_ne by (intros ->; destruct Hf; congruence). done. }
    rewrite El in Hr. by destruct Hr as (_ & _ & ->).
Qed.

Lemma fold_references refs0 added (seen : bool) rows t t' :
  added_fresh added refs0 -> Forall (refers_ok added refs0) rows ->
  references t = (if seen then with_added added refs0 else refs0) ->
  try_fold (apply_row settings) t rows = Ok t' ->
  references t' = (if seen || existsb (mentions added) rows then with_added added refs0 else refs0).
Proof.
  intros Hf Hrows. revert seen t. induction Hrows as [|r rows Hr _ IH]; intros seen t Ht H; cbn in H |- *.
  { injection H as <-. by rewrite orb_false_r. }
  apply bind_Ok in H as (t1 & H1 & H). rewrite orb_assoc.
  eapply IH; [|done]. by eapply apply_reference.
Qed.

Lemma read_measured_ext (d d' : PayloadDisk) io t q h a :
  payload_file d' t q = payload_file d t q ->
  read_authorized_measured d' io t q h a = read_authorized_measured d io t q h a.
Proof. intros E. unfold read_authorized_measured. by rewrite E. Qed.
Lemma read_measured_works (d : PayloadDisk) io t q h a x :
  read_authorized_measured d io t q h a = Ok x -> read_authorized_measured d read_io_ok t q h a = Ok x.
Proof.
  unfold read_authorized_measured. destruct (read_open io); [|done]. cbn [negb refuse_if mbind result_bind read_io_ok].
  destruct (payload_file d t q) as [f|]; [|done]. cbn [read_all before_decode].
  unfold read_bounded. destruct (read_all io); [|done]. cbn [negb refuse_if mbind result_bind].
  destruct (map_err _ _) as [[]|]; [|done]. cbn [mbind result_bind]. by destruct (before_decode io).
Qed.

Lemma revision_bytes_ext (d d' : PayloadDisk) id refs :
  (forall q, is_Some (refs !! q) -> payload_file d' id q = payload_file d id q) ->
  revision_bytes d' id refs = revision_bytes d id refs.
Proof.
  intros H. unfold revision_bytes.
  assert (Forall (fun e => payload_file d' id e.1 = payload_file d id e.1) (map_to_list refs)) as Hall.
  { apply Forall_forall. intros [q h] Hq%elem_of_map_to_list. apply H. by eexists. }
  induction Hall as [|e l He _ IH]; cbn; [done|]. by rewrite He, IH.
Qed.
Lemma revision_bytes_insert (d : PayloadDisk) id refs n h :
  refs !! n = None ->
  revision_bytes d id (<[n := h]> refs) =
    Z.of_nat (length (default [] (payload_file d id n))) + revision_bytes d id refs.
Proof.
  intros Hn. unfold revision_bytes.
  transitivity (foldr (fun e z => Z.of_nat (length (default [] (payload_file d id e.1))) + z) 0
    ((n, h) :: map_to_list refs)); [|done].
  apply (foldr_permutation_proper (=)); [by intros x ? ? ->|intros; lia|by apply map_to_list_insert].
Qed.
Lemma revision_bytes_gone (d : PayloadDisk) id refs :
  (forall q, is_Some (refs !! q) -> payload_file d id q = None) -> revision_bytes d id refs = 0.
Proof.
  intros H. unfold revision_bytes.
  assert (Forall (fun e => payload_file d id e.1 = None) (map_to_list refs)) as Hall.
  { apply Forall_forall. intros [q h] Hq%elem_of_map_to_list. apply H. by eexists. }
  induction Hall as [|e l He _ IH]; cbn; [done|]. by rewrite He, IH.
Qed.

(** Numbers of revisions are [u64]. *)
Lemma replay_references l t :
  Replay settings l t -> map_Forall (fun q _ => 1 <= q <= u64_max) (references t).
Proof.
  intros H. pose proof (replay_wf _ _ _ H) as Hwf.
  assert (Z.of_nat (size (references t)) <= events t /\ events t <= u64_max) as [Hs He].
  { clear Hwf. induction H as [row t Hr|rows t row t' _ IH Ha].
    - unfold received in Hr. res_inv. cbn. rewrite map_size_singleton. ints. lia.
    - apply apply_Ok in Ha. destruct (ap_events _ _ _ _ Ha) as [He1 He2].
      pose proof (ap_references _ _ _ _ Ha) as Href. unfold reference_spec in Href.
      destruct (payload_sequence row =? 0); [rewrite Href; lia|].
      destruct (references t !! payload_sequence row) eqn:El.
      + destruct Href as (_ & _ & ->). lia.
      + destruct Href as (_ & ->). rewrite map_size_insert_None by done. lia. }
  intros q h Hq. destruct (wf_references _ _ Hwf q) as [Hk _].
  specialize (Hk ltac:(by eexists)). lia.
Qed.

Lemma write_tracked_read d io p progress d' progress' :
  write_tracked d io p progress = (d', progress', Ok tt) ->
  exists content len,
    read_authorized_measured d' read_io_ok (payload_ticket p) (payload_number p) (payload_commitment p) false =
      Ok (Some (content, len)).
Proof.
  unfold write_tracked. intros H.
  destruct (before_payload_write io); cbn [negb] in H; [|done].
  destruct (parent_walk io) as [|root made]; [|destruct (made && _); done].
  destruct (negb (leaf_open io) || _); [done|]. destruct (leaf_facts io); cbn [negb] in H; [|done].
  destruct (payload_write io) as [k|]; [done|]. injection H as <- <- H.
  apply bind_Ok in H as (? & _ & H). apply bind_Ok in H as (content & [len Hr]%payload_read_Ok & _).
  exists content, len. by apply read_measured_works in Hr.
Qed.

(** ** Executing a plan *)

(** The plan's revision is in place. *)
Definition payload_written (plan : Plan) (c c1 : Case) : Prop :=
  match plan_payload plan with
  | None => c1 = c
  | Some p =>
      c1 = set_payloads (payloads c1) true c /\
      write_effect (payloads c) p (write_progress c) (payloads c1) true (Ok tt) /\
      exists content len,
        read_authorized_measured (payloads c1) read_io_ok (payload_ticket p) (payload_number p)
          (payload_commitment p) false = Ok (Some (content, len))
  end.

(** How executing a plan can end: refused before anything is written, stopped
    while the revision is written, or after some of the rows. *)
Inductive executed (io : PlanIo) (plan : Plan) (c : Case) : Case -> cres unit -> Prop :=
| exec_refused e : executed io plan c c (Err e)
| exec_unwritten p c' e :
    plan_payload plan = Some p ->
    write_effect (payloads c) p (write_progress c) (payloads c') (write_progress c') (Err e) ->
    c' = set_payloads (payloads c') (write_progress c') c ->
    executed io plan c c' (Err e)
| exec_rows now rows t c1 c2 r :
    Chain now (journal_rows (journal c) ++ rows) -> Consistent now (journal c) ->
    Forall2 linked (plan_rows plan) rows -> rows <> [] ->
    reserve_rows settings c rows (default 0 (byte_length <$> plan_payload plan)) (plan_reserved plan) = Ok t ->
    payload_written plan c c1 ->
    ran now io t (plan_purge plan) rows (plan_rules plan) c1 c2 r ->
    executed io plan c (match r with Ok _ => publish plan t c2 | Err _ => c2 end) r.

Lemma one_intent_linked l rows : Forall2 linked l rows -> one_intent l -> one_intent rows.
Proof.
  assert (forall l rows, Forall2 linked l rows -> no_intent l -> no_intent rows) as Hno.
  { induction 1 as [|x r l0 rows0 Hx _ IH]; [done|]. intros [? ?]%Forall_cons. constructor; [|by apply IH].
    unfold is_intent in *. by destruct (linked_fields _ _ Hx) as (-> & _). }
  induction 1 as [|x r l0 rows0 Hx Hl IH]; [done|]. cbn.
  replace (is_intent r) with (is_intent x)
    by (unfold is_intent; by destruct (linked_fields _ _ Hx) as (-> & _)).
  destruct (is_intent x); eauto.
Qed.

Lemma execute_plan_cases io plan c id c' r :
  Grounded c -> plan_ok c plan id -> execute_plan settings io plan c = (c', r) -> executed io plan c c' r.
Proof.
  intros Hc Hp H. destruct (co_journal _ Hc) as [now0 Hj]. unfold execute_plan in H.
  set (now := Z.max now0 (plan_now io)).
  apply (Consistent_later now0 now) in Hj; [|lia].
  apply method_bind_cases in H as [(c0 & rows & [-> Hrows]%inspect_Ok & H)|(e & [= <- _] & ->)]; [|constructor].
  apply method_bind_cases in H as [(c0 & t & [-> Ht]%inspect_Ok & H)|(e & [= <- _] & ->)]; [|constructor].
  assert (rows <> []) as Hne.
  { intros ->. unfold reserve_rows in Ht. apply bind_Ok in Ht as (? & Hm & _). done. }
  assert (prepare_rows (journal c) now (plan_rows plan) = Ok rows) as Hprep.
  { unfold prepare_rows in *. eapply prepare_from_later; [|done]. lia. }
  destruct (prepare_rows_chain now now _ _ _ Hj ltac:(lia) Hprep) as [Hch Hlink].
  assert (forall c1 c2, payload_written plan c c1 -> forall res,
    run_rows io t (plan_purge plan) 0 rows (plan_rules plan) c1 = (c2, res) ->
    ran now io t (plan_purge plan) rows (plan_rules plan) c1 c2 res) as Hrun.
  { intros c1 c2 Hw res Hr. apply (run_rows_cases now) in Hr; [done|..].
    - eapply one_intent_linked; [done|]. apply Hp.
    - unfold payload_written in Hw. destruct (plan_payload plan); [destruct Hw as [-> _]; done|by subst].
    - unfold payload_written in Hw. destruct (plan_payload plan); [destruct Hw as [-> _]; done|by subst]. }
  assert (forall c1, payload_written plan c c1 ->
    (run_rows io t (plan_purge plan) 0 rows (plan_rules plan) ≫= fun _ => assign (publish plan t)) c1 = (c', r) ->
    executed io plan c c' r) as Hrest.
  { intros c1 Hw Hr. apply method_bind_cases in Hr as [(c2 & [] & Hr & [= <- <-])|(e & Hr & ->)].
    - exact (exec_rows io plan c now rows t c1 c2 (Ok tt) Hch Hj Hlink Hne Ht Hw (Hrun _ _ Hw _ Hr)).
    - exact (exec_rows io plan c now rows t c1 c' (Err e) Hch Hj Hlink Hne Ht Hw (Hrun _ _ Hw _ Hr)). }
  unfold payload_written in Hrest. destruct (plan_payload plan) as [p|] eqn:Epay.
  - apply method_bind_cases in H as [(c1 & [] & H1 & H)|(e & H1 & ->)]; unfold write_payload in H1;
      destruct (write_tracked _ _ _ _) as [[d pr] res] eqn:Hw; pose proof (write_tracked_effect _ _ _ _ _ _ _ Hw) as Heff.
    + injection H1 as <- ->. destruct (we_done _ _ _ _ _ _ Heff eq_refl) as [-> _].
      apply (Hrest (set_payloads d true c)); [|done]. split_and!; [done..|]. by eapply write_tracked_read.
    + injection H1 as <- ->. by eapply exec_unwritten.
  - apply method_bind_cases in H as [(c1 & [] & [= <-] & H)|(e & H1 & ->)]; [|done]. by apply (Hrest c).
Qed.

(** ** The references of the projected ticket *)

Definition plan_added (plan : Plan) : option (Z * str) :=
  (fun p => (payload_number p, payload_commitment p)) <$> plan_payload plan.
Definition old_references (c : Case) (id : str) : gmap Z str :=
  match tickets c !! id with Some t => references t | None => ∅ end.

Lemma plan_added_fresh c plan id : plan_ok c plan id -> added_fresh (plan_added plan) (old_references c id).
Proof.
  intros Hp. unfold plan_added, added_fresh, old_references. destruct (plan_payload plan) as [p|] eqn:E; [|done].
  destruct (po_payload _ _ _ Hp p E) as (_ & _ & ? & Hn & _). cbn. split; [lia|].
  destruct (tickets c !! id); [by apply Hn|done].
Qed.
Lemma plan_refers_ok c plan id rows :
  plan_ok c plan id -> Forall2 linked (plan_rows plan) rows ->
  Forall (refers_ok (plan_added plan) (old_references c id)) rows.
Proof.
  intros Hp Hl. apply Forall_forall. intros r Hr.
  apply list_elem_of_lookup_1 in Hr as [i Hi]. destruct (Forall2_lookup_r _ _ _ _ _ Hl Hi) as (x & Hx & Hlx).
  apply list_elem_of_lookup_2 in Hx. destruct (linked_fields _ _ Hlx) as (_ & _ & Eq & Ec).
  unfold refers_ok. rewrite Eq, Ec. destruct (decide (payload_sequence x = 0)) as [|Hz]; [by left|right].
  destruct (po_references _ _ _ Hp x Hx Hz) as [(p & Ep & -> & ->)|(t & Ht & Hs)].
  - left. unfold plan_added. by rewrite Ep.
  - right. unfold old_references. by rewrite Ht.
Qed.
Lemma plan_mentions c plan id rows p :
  plan_ok c plan id -> Forall2 linked (plan_rows plan) rows -> plan_payload plan = Some p ->
  existsb (mentions (plan_added plan)) rows = true.
Proof.
  intros Hp Hl Ep. destruct (po_payload _ _ _ Hp p Ep) as (_ & _ & _ & _ & x & Hx & Eq).
  apply list_elem_of_lookup_1 in Hx as [i Hi]. destruct (Forall2_lookup_l _ _ _ _ _ Hl Hi) as (r & Hr & Hlx).
  apply existsb_exists. exists r. split; [by eapply list_elem_of_In, list_elem_of_lookup_2|].
  unfold plan_added. rewrite Ep. cbn. apply Z.eqb_eq.
  destruct (linked_fields _ _ Hlx) as (_ & _ & -> & _). done.
Qed.

Lemma plan_rows_linked c plan id rows :
  plan_ok c plan id -> Forall2 linked (plan_rows plan) rows ->
  Forall (fun r : JournalRow => ticket_id r = id) rows /\
  (forall r : JournalRow, r ∈ rows -> event r = Event_Received -> tickets c !! id = None).
Proof.
  intros Hp Hl.
  assert (forall r : JournalRow, r ∈ rows -> exists x : JournalRow, x ∈ plan_rows plan /\
    event r = event x /\ ticket_id r = ticket_id x) as Hx.
  { intros r [n Hn]%list_elem_of_lookup_1. destruct (Forall2_lookup_r _ _ _ _ _ Hl Hn) as (x & Hx & Hlx).
    apply linked_fields in Hlx as (? & ? & _). exists x. split; [by eapply list_elem_of_lookup_2|done]. }
  split.
  - apply Forall_forall. intros r (x & Hin & _ & ->)%Hx. pose proof (po_ticket _ _ _ Hp) as Ht.
    rewrite Forall_forall in Ht. auto.
  - intros r (x & Hin & -> & _)%Hx. by apply (po_received _ _ _ Hp x).
Qed.

Lemma projected_references c plan id rows t payload is_reserved :
  Grounded c -> plan_ok c plan id -> Forall2 linked (plan_rows plan) rows -> rows <> [] ->
  reserve_rows settings c rows payload is_reserved = Ok t ->
  ticket_key t = id /\ Replay settings (rows_of id (journal_rows (journal c)) ++ rows) t /\
  references t = with_added (plan_added plan) (old_references c id) /\
  (tickets c !! id = None -> is_Some (plan_payload plan)) /\
  (forall t0, tickets c !! id = Some t0 -> purged t0 = false).
Proof.
  intros Hc Hp Hl Hne Hr. pose proof (plan_refers_ok _ _ _ _ Hp Hl) as Hok.
  pose proof (plan_added_fresh _ _ _ Hp) as Hf.
  destruct (plan_rows_linked _ _ _ _ Hp Hl) as [Hids Hnew].
  destruct (reserve_rows_replay _ _ _ _ _ _ Hc (po_id _ _ _ Hp) Hne Hids Hnew Hr)
    as (Hkey & Hrep & Hcase). split_and!; [done..| | |].
  - destruct Hcase as [(Hn & first & rest & t0 & -> & Hrec & Hfold)|(t0 & Ht0 & Hfold)].
    + apply Forall_cons in Hok as [Hfirst Hok]. unfold old_references in *. rewrite Hn in *.
      assert (references t0 = with_added (plan_added plan) ∅) as Hr0.
      { unfold received in Hrec. res_inv. bool_to_prop. cbn. destruct Hfirst as [?|[->|[? Hx]]]; [lia| |].
        - cbn. by replace (payload_sequence first) with 1 by lia.
        - by rewrite lookup_empty in Hx. }
      by apply (fold_references ∅ (plan_added plan) true) in Hfold.
    + unfold old_references in *. rewrite Ht0 in *.
      apply (fold_references (references t0) (plan_added plan) false) in Hfold; [|done..]. rewrite Hfold. cbn.
      destruct (plan_payload plan) as [p|] eqn:Ep.
      * by rewrite (plan_mentions _ _ _ _ p Hp Hl Ep).
      * assert (plan_added plan = None) as -> by (unfold plan_added; by rewrite Ep). destruct (existsb (mentions None) rows); reflexivity.
  - intros Hn. destruct Hcase as [(_ & first & rest & t0 & -> & Hrec & _)|(t0 & Ht0 & _)]; [|congruence].
    apply Forall_cons in Hok as [Hfirst _]. unfold received in Hrec. res_inv. bool_to_prop.
    unfold old_references in Hfirst. rewrite Hn in Hfirst. destruct Hfirst as [?|[Ha|[? Hx]]]; [lia| |by rewrite lookup_empty in Hx].
    unfold plan_added in Ha. destruct (plan_payload plan); [by eexists|done].
  - intros t0 Ht0. destruct Hcase as [(Hn & _)|(t1 & Ht1 & Hfold)]; [congruence|].
    assert (t1 = t0) as -> by congruence. destruct rows as [|r rows]; [done|]. cbn in Hfold.
    apply bind_Ok in Hfold as (t2 & Ha & _). unfold apply_row in Ha.
    destruct (apply settings r t0) as [t3 res] eqn:E. apply bind_Ok in Ha as ([] & -> & _).
    by apply apply_Ok, ap_live in E.
Qed.

Lemma replay_last_purged l t r :
  Replay settings l t -> last l = Some r -> event r = Event_Purged -> purged t = true.
Proof.
  intros H. destruct H as [row t Hr|rows t row t' _ Ha]; intros Hl He.
  - cbn in Hl. injection Hl as ->. unfold received in Hr. res_inv. bool_to_prop. congruence.
  - rewrite last_snoc in Hl. injection Hl as ->. apply apply_Ok in Ha.
    pose proof (ap_operation _ _ _ _ Ha) as Ho. unfold operation_spec in Ho. rewrite He in Ho.
    cbn in Ho. destruct Ho as (_ & _ & _ & _ & -> & _). done.
Qed.

Lemma replay_purged_last l t :
  Replay settings l t -> purged t = true -> exists r, last l = Some r /\ event r = Event_Purged.
Proof.
  intros H. destruct H as [row t Hr|rows t row t' _ Ha]; intros Hp.
  - unfold received in Hr. res_inv. done.
  - exists row. rewrite last_snoc. split; [done|]. apply apply_Ok in Ha.
    by destruct (apply_purged _ _ _ _ Ha Hp) as (? & _).
Qed.
Lemma projected_live plan l rows t :
  plan_live plan -> plan_purge plan = false -> Forall2 linked (plan_rows plan) rows -> rows <> [] ->
  Replay settings (l ++ rows) t -> purged t = false.
Proof.
  intros Hp Epu Hl Hne Hr. destruct (purged t) eqn:E; [|done].
  destruct (replay_purged_last _ _ Hr E) as (r & Hlast & Her). rewrite last_app in Hlast.
  destruct (last rows) as [y|] eqn:Ey; [|by apply last_None in Ey]. injection Hlast as ->.
  rewrite last_lookup in Ey. destruct (Forall2_lookup_r _ _ _ _ _ Hl Ey) as (x & Hx & Hlx).
  pose proof (Hp Epu) as Hu. rewrite Forall_forall in Hu.
  destruct (Hu x); [by eapply list_elem_of_lookup_2|]. by destruct (linked_fields _ _ Hlx) as (<- & _).
Qed.

(** ** Success keeps memory and disk together *)

Lemma ran_all now io t purge rows rules c1 c2 :
  ran now io t purge rows rules c1 c2 (Ok tt) ->
  Consistent now (journal c2) /\ journal_rows (journal c2) = journal_rows (journal c1) ++ rows /\
  Journal.config (journal c2) = Journal.config (journal c1) /\
  (Exists (fun r => is_intent r = true) rows -> rules_done io rules c1 c2 /\ purge_done io t purge c1 c2).
Proof.
  intros [_ _ _ _ _ (k & started & [Hs (j1 & Hc & Hr & Hcfg & Hcase)] & Hall & Hdone & _)].
  specialize (Hall eq_refl). subst k. destruct Hcase as [[-> ->]|(-> & _)]; [|lia].
  rewrite firstn_all in Hr. split_and!; [done..|].
  intros (r & [i Hi]%list_elem_of_lookup_1 & Hr1)%Exists_exists. eapply Hdone; eauto.
Qed.

Lemma rules_tried_coherent `{RJL : !RulesJsonLaws RJ} c plan id io c1 c2 :
  plan_ok c plan id -> coherent settings (rules_store c) -> rules_store c1 = rules_store c ->
  rules_tried io (plan_rules plan) c1 c2 -> coherent settings (rules_store c2).
Proof.
  intros Hp Hc E [->|(p & Ep & ->)]; rewrite E; [done|].
  destruct (po_rules _ _ _ Hp p Ep) as (change & Hd & Hpd).
  pose proof (change_coherent settings (rules_store c) change (rules_pid io) (rules_counter io)
    (rules_run io) Hd Hc) as H. unfold Rules.change in H. by rewrite Hpd in H.
Qed.

Lemma payload_written_frame plan c c1 :
  payload_written plan c c1 ->
  journal c1 = journal c /\ tickets c1 = tickets c /\ usage c1 = usage c /\
  rules_store c1 = rules_store c /\ writes_disabled c1 = writes_disabled c.
Proof. unfold payload_written. destruct (plan_payload plan); [intros [-> _]; done|by intros ->]. Qed.

(** The files of the older revisions stay. *)
Lemma old_reference_kept c c1 plan id p q :
  Grounded c -> plan_ok c plan id -> plan_payload plan = Some p ->
  write_effect (payloads c) p (write_progress c) (payloads c1) true (Ok tt) ->
  is_Some (old_references c id !! q) ->
  payload_file (payloads c1) id q = payload_file (payloads c) id q.
Proof.
  intros Hc Hp Ep Heff Hq. destruct (po_payload _ _ _ Hp p Ep) as (Hpt & _ & Hpn & _).
  pose proof (plan_added_fresh _ _ _ Hp) as Hf. unfold added_fresh, plan_added in Hf. rewrite Ep in Hf.
  cbn in Hf. destruct Hf as [_ Hf].
  apply (we_frame _ _ _ _ _ _ Heff). right. intros E. apply file_name_inj in E; [| |lia].
  - subst q. rewrite Hf in Hq. by destruct Hq.
  - unfold old_references in Hq. destruct (tickets c !! id) as [t0|] eqn:Et; [|by destruct Hq].
    destruct (co_tickets _ Hc _ _ Et) as (_ & _ & Hr0). apply replay_references in Hr0.
    destruct Hq as [h Hq]. specialize (Hr0 q h Hq). cbn in Hr0. lia.
Qed.

(** A purge that ran to its end left no revision. *)
Lemma purge_revisions now io plan c c2 rows t id l :
  plan_ok c plan id -> plan_purge plan = true -> Forall2 linked (plan_rows plan) rows ->
  ticket_key t = id -> Replay settings (l ++ rows) t ->
  ran now io t true rows (plan_rules plan) c c2 (Ok tt) ->
  (forall id' q, id' <> id -> payload_file (payloads c2) id' q = payload_file (payloads c) id' q) /\
  purged t = true /\ forall q, is_Some (references t !! q) -> payload_file (payloads c2) id q = None.
Proof.
  intros Hp Epu Hl Hkey Hrep Hran. destruct (po_purge _ _ _ Hp Epu) as (Hex & r & Hlast & Her).
  destruct (ran_all _ _ _ _ _ _ _ _ Hran) as (_ & _ & _ & Hdone). destruct Hdone as [_ Hpd].
  { apply Exists_exists in Hex as (x & [i Hi]%list_elem_of_lookup_1 & Hx).
    destruct (Forall2_lookup_l _ _ _ _ _ Hl Hi) as (y & Hy & Hxy). apply Exists_exists. exists y.
    split; [by eapply list_elem_of_lookup_2|]. unfold is_intent in *. by destruct (linked_fields _ _ Hxy) as (-> & _). }
  unfold purge_done in Hpd. rewrite Hkey in Hpd.
  apply payload_purge_effect in Hpd as [Heff Hgone]; [|by eapply replay_references].
  specialize (Hgone eq_refl). split_and!.
  - intros id' q Hid. by apply (pe_frame _ _ _ _ Heff).
  - rewrite last_lookup in Hlast. destruct (Forall2_lookup_l _ _ _ _ _ Hl Hlast) as (y & Hy & Hxy).
    eapply (replay_last_purged _ _ y Hrep); [|by destruct (linked_fields _ _ Hxy) as (-> & _)].
    rewrite (Forall2_length _ _ _ Hl), <- last_lookup in Hy. by rewrite last_app, Hy.
  - done.
Qed.

(** The revisions and their accounted bytes after a plan succeeded. *)
Lemma publish_revisions now io plan c c1 c2 rows t id :
  Coherent c -> plan_ok c plan id -> plan_live plan -> Forall2 linked (plan_rows plan) rows -> rows <> [] ->
  reserve_rows settings c rows (default 0 (byte_length <$> plan_payload plan)) (plan_reserved plan) = Ok t ->
  payload_written plan c c1 ->
  ran now io t (plan_purge plan) rows (plan_rules plan) c1 c2 (Ok tt) ->
  (forall id' q, id' <> id -> payload_file (payloads c2) id' q = payload_file (payloads c) id' q) /\
  (purged t = false -> forall q h, references t !! q = Some h -> exists content len,
    read_authorized_measured (payloads c2) read_io_ok id q h false = Ok (Some (content, len))) /\
  (purged t = true -> forall q, is_Some (references t !! q) -> payload_file (payloads c2) id q = None) /\
  default 0 (usage (publish plan t c2) !! id) = revision_bytes (payloads c2) id (references t).
Proof.
  intros Hc Hp Hpl Hl Hne Hr Hw Hran.
  destruct (projected_references _ _ _ _ _ _ _ Hc Hp Hl Hne Hr) as (Hkey & Hrep & Href & Hfirst & Hlive).
  destruct (ran_same _ _ _ _ _ _ _ _ _ Hran) as (_ & Hu & _).
  destruct (payload_written_frame _ _ _ Hw) as (_ & _ & Hu1 & _).
  pose proof (plan_added_fresh _ _ _ Hp) as Hf.
  assert (default 0 (usage c !! id) = revision_bytes (payloads c) id (old_references c id)) as Hbytes.
  { unfold old_references. destruct (tickets c !! id) as [t0|] eqn:Et; [by apply (co_usage _ Hc)|].
    rewrite (co_unknown _ Hc) by done. done. }
  unfold publish. cbn [usage set_tickets]. rewrite Hu, Hu1, Hkey.
  pose proof (fun E => projected_live _ _ _ _ Hpl E Hl Hne Hrep) as Hlive'.
  destruct (plan_payload plan) as [p|] eqn:Ep.
  - destruct (po_payload _ _ _ Hp p Ep) as (Hpt & Hpp & _). rewrite Hpp in *.
    assert (payloads c2 = payloads c1) as ->.
    { destruct (ran_payloads _ _ _ _ _ _ _ _ _ Hran) as [?|[? _]]; done. }
    unfold payload_written in Hw. rewrite Ep in Hw.
    destruct Hw as (_ & Heff & content & len & Hread). rewrite Hpt in Hread.
    destruct (we_done _ _ _ _ _ _ Heff eq_refl) as (_ & _ & Hfile). rewrite Hpt in Hfile.
    pose proof (fun q => old_reference_kept _ _ _ _ _ q Hc Hp Ep Heff) as Hsame.
    unfold plan_added in Href, Hf. rewrite Ep in Href, Hf. cbn in Href, Hf. destruct Hf as [_ Hf]. split_and!.
    + intros id' q Hid. apply (we_frame _ _ _ _ _ _ Heff). left. congruence.
    + intros Hpu q h Hq. rewrite Href in Hq. destruct (decide (q = payload_number p)) as [->|Hqn].
      { rewrite lookup_insert_eq in Hq. injection Hq as <-. eauto. }
      rewrite lookup_insert_ne in Hq by done. erewrite read_measured_ext by (apply Hsame; by eexists).
      unfold old_references in Hq. destruct (tickets c !! id) as [t0|] eqn:Et; [|done].
      eapply (co_revisions _ Hc); eauto.
    + by rewrite Hlive'.
    + rewrite lookup_insert_eq. cbn [default]. rewrite Href, revision_bytes_insert, Hfile by done.
      rewrite (revision_bytes_ext (payloads c) (payloads c1)) by done. cbn [default]. rewrite <- Hbytes. unfold byte_length. cbn. lia.
  - unfold plan_added in Href. rewrite Ep in Href. cbn in Href.
    unfold payload_written in Hw. rewrite Ep in Hw. subst c1.
    destruct (tickets c !! id) as [t0|] eqn:Et; [|by destruct (Hfirst eq_refl)].
    destruct (plan_purge plan) eqn:Epu.
    + destruct (purge_revisions _ _ _ _ _ _ _ _ _ Hp Epu Hl Hkey Hrep Hran) as (Hother & Hpu & Hgone).
      rewrite Hpu, lookup_insert_eq, revision_bytes_gone by done. done.
    + assert (payloads c2 = payloads c) as ->.
      { destruct (ran_payloads _ _ _ _ _ _ _ _ _ Hran) as [?|[? _]]; done. }
      rewrite Hlive' by done.
      unfold old_references in Href, Hbytes. rewrite Et in Href, Hbytes. rewrite Href. split_and!; [done| |done..].
      intros _ q h Hq. eapply (co_revisions _ Hc); eauto.
Qed.

Lemma executed_grounded `{RJL : !RulesJsonLaws RJ} io plan c id c' :
  Grounded c -> plan_ok c plan id -> executed io plan c c' (Ok tt) ->
  Grounded c' /\ exists t, tickets c' = <[id := t]> (tickets c).
Proof.
  intros Hc Hp H. inversion H as [| |now rows t c1 c2 r Hch Hj Hl Hne Hr Hw Hran Ec Er]. subst. clear H.
  destruct (projected_references _ _ _ _ _ _ _ Hc Hp Hl Hne Hr) as (Hkey & Hrep & _).
  destruct (payload_written_frame _ _ _ Hw) as (Ej & Et & _ & Ers & _).
  destruct (ran_same _ _ _ _ _ _ _ _ _ Hran) as (Et2 & _).
  destruct (ran_all _ _ _ _ _ _ _ _ Hran) as (Hcons & Hrows & Hcfg & _).
  rewrite Ej in Hrows, Hcfg. rewrite Et in Et2.
  destruct (plan_rows_linked _ _ _ _ Hp Hl) as [Hids _].
  split; [|exists t; cbn; by rewrite Et2, Hkey].
  split; cbn [journal tickets payloads rules_store publish set_tickets]; rewrite ?Et2, ?Hkey.
  - rewrite Hcfg. apply Hc.
  - by exists now.
  - intros id' t'. rewrite Hrows, rows_of_app. destruct (decide (id' = id)) as [->|Hid].
    + rewrite lookup_insert_eq. intros [= <-]. rewrite (rows_of_all id rows) by done.
      split_and!; [apply Hp|done|done].
    + rewrite lookup_insert_ne by done. intros Ht'. destruct (co_tickets _ Hc _ _ Ht') as (? & ? & ?).
      rewrite (rows_of_none id' rows), app_nil_r; [done|].
      apply (Forall_impl _ _ _ Hids). congruence.
  - rewrite Hrows. apply Forall_app. split.
    + apply (Forall_impl _ _ _ (co_rows _ Hc)). intros r [?|Hk]; [by left|right].
      destruct (decide (ticket_id r = id)) as [->|]; [by rewrite lookup_insert_eq|by rewrite lookup_insert_ne].
    + apply (Forall_impl _ _ _ Hids). intros r ->. right. by rewrite lookup_insert_eq.
  - eapply (rules_tried_coherent c plan id io c1); [done|apply Hc|done|]. by eapply ran_rules.
Qed.

Lemma executed_coherent `{RJL : !RulesJsonLaws RJ} io plan c id c' :
  Coherent c -> plan_ok c plan id -> plan_live plan -> executed io plan c c' (Ok tt) -> Coherent c'.
Proof.
  intros Hc Hp Hpl H. destruct (executed_grounded _ _ _ _ _ Hc Hp H) as [Hg _].
  inversion H as [| |now rows t c1 c2 r Hch Hj Hl Hne Hr Hw Hran Ec Er]. subst. clear H.
  destruct (projected_references _ _ _ _ _ _ _ Hc Hp Hl Hne Hr) as (Hkey & _).
  destruct (publish_revisions _ _ _ _ _ _ _ _ _ Hc Hp Hpl Hl Hne Hr Hw Hran) as (Hother & Hrev & Hgone & Hbytes).
  destruct (payload_written_frame _ _ _ Hw) as (_ & Et & Eu & _).
  destruct (ran_same _ _ _ _ _ _ _ _ _ Hran) as (Et2 & Eu2 & _).
  rewrite Et in Et2. rewrite Eu in Eu2.
  assert (forall id', id' <> id -> usage (publish plan t c2) !! id' = usage c !! id') as Hu.
  { intros id' Hid. unfold publish. cbn. rewrite Hkey, Eu2. destruct (plan_purge plan); [by rewrite lookup_insert_ne|].
    destruct (plan_payload plan); [by rewrite lookup_insert_ne|done]. }
  split; [done|..]; cbn [journal tickets payloads rules_store publish set_tickets]; rewrite ?Et2, ?Hkey.
  - intros id' t' q h. destruct (decide (id' = id)) as [->|Hid].
    + rewrite lookup_insert_eq. intros [= <-]. eauto.
    + rewrite lookup_insert_ne by done. intros Ht' Hpu Hq. erewrite read_measured_ext by (by apply Hother).
      by eapply (co_revisions _ Hc).
  - intros id' t' q. destruct (decide (id' = id)) as [->|Hid].
    + rewrite lookup_insert_eq. intros [= <-]. auto.
    + rewrite lookup_insert_ne, Hother by done. apply (co_purged _ Hc).
  - intros id' t'. destruct (decide (id' = id)) as [->|Hid].
    + rewrite lookup_insert_eq. by intros [= <-].
    + rewrite lookup_insert_ne by done. intros Ht'. rewrite Hu by done.
      rewrite (revision_bytes_ext (payloads c)) by (intros; by apply Hother). by apply (co_usage _ Hc).
  - intros id'. destruct (decide (id' = id)) as [->|Hid]; [by rewrite lookup_insert_eq|].
    rewrite lookup_insert_ne by done. rewrite Hu by done. apply (co_unknown _ Hc).
Qed.

End Execution.

#[export] Hint Extern 0 (Grounded _ _) => (apply co_grounded; assumption) : core.
