(* ===== verification/Owner.v ===== *)
(** * The ticket owner over its life

    Every plan of [Case::admit], [Case::administer] and [Case::purge] fits what
    the transactions need, so memory and disk stay together over any history of
    requests, an acknowledged report of intimate images is already withheld,
    and a recorded purge has deleted the personal revisions. *)

From S2P Require Import Prelude Text Externals Disk Compliance Canonical ComplianceModel.
From S2P Require Import Listed Rules Journal Payload JournalRow RowFields Transitions Tickets Transactions.

#[local] Open Scope Z_scope.

Section Owner.
Context `{U : UrlOps} `{T : Tokenizing} `{D : Digest} `{C : Chrono}.
Context `{J : Json} `{JL : !JsonLaws J} `{RJ : RulesJson} `{JT : JsonText} `{PJ : PayloadJson}.
Context (settings : ComplianceConfig).

(** ** Rows and rule changes *)

Lemma event_row_Ok t ev at_ who row :
  event_row t ev at_ who = Ok row ->
  exists next, successor (state t) ev = Ok next /\
    row = with_state (as_str next) (with_received_at (times_received (times t))
      (with_requester (as_str (requester t)) (with_route (as_str (route t))
      (with_ticket_id (ticket_key t) (with_actor who (row_empty ev at_)))))).
Proof. unfold event_row. intros (next & Hn & [= <-])%bind_Ok. by exists next. Qed.

Lemma event_row_fields t ev at_ who row :
  event_row t ev at_ who = Ok row ->
  event row = ev /\ ticket_id row = ticket_key t /\ payload_sequence row = 0 /\ row_at row = at_.
Proof. by intros (next & _ & ->)%event_row_Ok. Qed.

Lemma completion_fields t intent at_ who row :
  completion t intent at_ who = Ok row ->
  completion_event intent = Ok (event row) /\ ticket_id row = ticket_key t /\ payload_sequence row = 0.
Proof.
  unfold completion. intros (ev & Hev & H)%bind_Ok. apply bind_Ok in H as (r & Hr & [= <-]).
  apply event_row_fields in Hr as (Er & Et & Es & _). cbn. by rewrite Er.
Qed.

Lemma completion_event_plain intent ev :
  completion_event intent = Ok ev ->
  ev ∈ [Event_Reversed; Event_Purged; Event_Actioned; Event_RulesCommitted].
Proof.
  unfold completion_event. destruct (event intent); intros H; try done; try case_match; injection H as <-;
    set_solver.
Qed.
Lemma completion_purged t intent at_ who row :
  completion t intent at_ who = Ok row -> event row = Event_Purged -> event intent = Event_PurgeIntent.
Proof.
  intros (Hev & _ & _)%completion_fields Hp. unfold completion_event in Hev. rewrite Hp in Hev.
  destruct (event intent); try done. by destruct (str_eqb _ _).
Qed.
Lemma completion_plain t intent at_ who row :
  completion t intent at_ who = Ok row -> is_intent row = false /\ event row <> Event_Received.
Proof.
  intros (Hev%completion_event_plain & _ & _)%completion_fields.
  unfold is_intent, event_in. repeat (apply elem_of_cons in Hev as [->|Hev]; [done|]).
  by apply elem_of_nil in Hev.
Qed.

Lemma documents_parsed (u : UnsignedRow) docs :
  documents u = Ok docs -> Forall (fun d => DocumentKey_parse d = Ok d) docs.
Proof.
  unfold documents. destruct (is_empty _); [intros [= <-]; constructor|]. intros (keys & Hk & H)%bind_Ok.
  apply bind_Ok in H as (? & _ & H). apply bind_Ok in H as (? & _ & [= <-]).
  apply try_map_Ok in Hk. apply Forall_forall. intros k [i Hi]%list_elem_of_lookup_1.
  destruct (Forall2_lookup_r _ _ _ _ _ Hk Hi) as (raw & _ & Hx). unfold DocumentKey_parse in *.
  by apply Hex64_parse_Ok in Hx as Hx'; destruct Hx' as [-> _].
Qed.

Lemma delta_is_parsed intent i salts change : delta intent i salts = Ok change -> delta_parsed change.
Proof.
  unfold delta. intros (ticket & Ht & H)%bind_Ok. apply bind_Ok in H as (g & _ & H).
  case_bool_decide; [by apply bind_Ok in H as (docs & _ & [= <-])|].
  destruct (one_of _ _); [by injection H as <-|].
  apply bind_Ok in H as (names & _ & H). apply bind_Ok in H as (docs & Hd & [= <-]). cbn.
  split; [|by eapply documents_parsed]. unfold TicketId_parse in *.
  by apply Hex64_parse_Ok in Ht as Ht'; destruct Ht' as [-> _].
Qed.

Lemma plan_rule_change_Ok c rows i content rules p :
  plan_rule_change settings c rows i content = Ok rules -> rules = Some p ->
  exists change intent, List.find is_rule_intent rows = Some intent /\
    delta intent i (name_salts_of content) = Ok change /\ delta_parsed change /\
    prepare_delta settings (rules_store c) change = Ok p.
Proof.
  unfold plan_rule_change. destruct (List.find _ rows) as [intent|] eqn:Ef; [|intros [= <-]; done].
  intros (change & Hc & H)%bind_Ok. apply bind_Ok in H as (q & Hq & [= <-]). intros [= <-].
  exists change, intent. split_and!; [done..|by eapply delta_is_parsed|done].
Qed.

(** The rows of a finished plan. *)
Definition finish_row (id : TicketId) (p : PreparedPayload) (r : JournalRow) : JournalRow :=
  let r := with_ticket_id id r in if payload_sequence r =? 0 then r else reference_row p r.

Lemma finish_row_fields id p r :
  event (finish_row id p r) = event r /\ ticket_id (finish_row id p r) = id /\
  (payload_sequence r = 0 -> payload_sequence (finish_row id p r) = 0) /\
  (payload_sequence r <> 0 -> payload_sequence (finish_row id p r) = payload_number p /\
     commitment (finish_row id p r) = payload_commitment p).
Proof.
  unfold finish_row. cbn [payload_sequence with_ticket_id unsigned].
  destruct (Z.eqb_spec (payload_sequence r) 0); cbn; split_and!; done.
Qed.

Lemma one_intent_finished id p rows : one_intent rows -> one_intent (map (finish_row id p) rows).
Proof.
  assert (forall r, is_intent (finish_row id p r) = is_intent r) as Hi.
  { intros r. unfold is_intent. by destruct (finish_row_fields id p r) as (-> & _). }
  assert (forall l, no_intent l -> no_intent (map (finish_row id p) l)) as Hno.
  { induction 1; [constructor|]. constructor; [by rewrite Hi|done]. }
  induction rows as [|r rows IH]; [done|]. cbn. rewrite Hi. case_match; auto.
Qed.

Lemma parsed_nonempty raw id : Hex64_parse raw = Ok id -> id <> [].
Proof. intros (-> & Hl & _)%Hex64_parse_Ok ->. done. Qed.

Lemma materialize_ok c now e draft plan first rest :
  materialize_plan settings c now e draft = Ok plan ->
  draft_rows draft = first :: rest -> payload_sequence first <> 0 -> one_intent (draft_rows draft) ->
  Forall (fun r : JournalRow => event r <> Event_Purged) (draft_rows draft) ->
  (draft_new draft = false ->
   Forall (fun r : JournalRow => event r <> Event_Received) (draft_rows draft) /\
   forall t, tickets c !! ticket_id first = Some t -> references t !! draft_number draft = None) ->
  exists id p, plan_ok settings c plan id /\ plan_live plan /\ plan_payload plan = Some p /\ plan_purge plan = false /\
    plan_rows plan = map (finish_row id p) (draft_rows draft) /\
    (draft_new draft = true -> tickets c !! id = None) /\
    (draft_new draft = false -> id = ticket_id first) /\
    plan_rule_change settings c (plan_rows plan) (draft_intake draft) (payload_content p) = Ok (plan_rules plan) /\
    payload_content p = set_name_salts (name_salts_of (payload_content p)) (draft_content draft).
Proof.
  intros H Hd Hfirst Hone Hlive Hold. unfold materialize_plan in H.
  apply bind_Ok in H as (u0 & _ & H). apply bind_Ok in H as (m & Hm & H).
  unfold draw_material in Hm. apply bind_Ok in Hm as (id & Hid & Hm).
  apply bind_Ok in Hm as (salt & _ & Hm). apply bind_Ok in Hm as (names & _ & [= <-]).
  assert (id <> [] /\ (draft_new draft = true -> tickets c !! id = None) /\
    (draft_new draft = false -> id = ticket_id first)) as (Hne & Hnew & Hsame).
  { destruct (draft_new draft).
    - apply bind_Ok in Hid as (y & Hx & Hid). apply bind_Ok in Hid as (u & Hf%refuse_if_Ok & [= ->]).
      bool_to_prop. unfold TicketId_generate in Hx. apply bind_Ok in Hx as (? & _ & Hx).
      apply bind_Ok in Hx as (b & _ & Hx). split_and!; [by eapply parsed_nonempty| |done].
      intros _. by apply eq_None_not_Some.
    - rewrite Hd in Hid. cbn in Hid. pose proof (parsed_nonempty _ _ Hid) as Hp.
      apply Transitions.parse_ticket_id in Hid as ->. done. }
  unfold finish_plan in H. cbn [material_id material_names material_salt] in H.
  apply bind_Ok in H as (p & Hp & H). apply bind_Ok in H as (rules & Hrules & [= <-]).
  apply prepare_with_salt_Ok in Hp as (Hpt & Hpn & Hpc & Hrange & _).
  exists id, p. cbn [plan_rows plan_payload plan_rules plan_purge].
  assert (forall r, r ∈ map (finish_row id p) (draft_rows draft) ->
    exists x, x ∈ draft_rows draft /\ r = finish_row id p x) as Hmap.
  { intros r (x & <- & Hx)%list_elem_of_In%in_map_iff. exists x. by rewrite list_elem_of_In. }
  split_and!; try done; [| |by rewrite Hpc; destruct (draft_content draft)].
  2:{ intros _. apply Forall_forall. intros r (x & Hx & ->)%Hmap. destruct (finish_row_fields id p x) as (-> & _).
      rewrite Forall_forall in Hlive. auto. }
  split; cbn [plan_rows plan_payload plan_rules plan_purge]; try done.
  - apply Forall_forall. intros r (x & _ & ->)%Hmap. by destruct (finish_row_fields id p x) as (_ & -> & _).
  - by apply one_intent_finished.
  - intros r (x & Hx & ->)%Hmap. destruct (finish_row_fields id p x) as (-> & _). intros Hev.
    destruct (draft_new draft); [by apply Hnew|]. destruct (Hold eq_refl) as [Hall _].
    rewrite Forall_forall in Hall. by destruct (Hall x Hx).
  - intros q ->. destruct (plan_rule_change_Ok _ _ _ _ _ q Hrules eq_refl) as (change & _ & _ & _ & ? & ?). eauto.
  - intros q [= <-]. split_and!; [done|done|lia|lia| |].
    + intros t Ht. rewrite Hpn. destruct (draft_new draft); [by rewrite Hnew in Ht|].
      destruct (Hold eq_refl) as [_ Hn]. apply Hn. by rewrite <- Hsame.
    + exists (finish_row id p first). rewrite Hd. split; [left|].
      by destruct (finish_row_fields id p first) as (_ & _ & _ & Hs); apply Hs.
  - intros r (x & Hx & ->)%Hmap Hz. left. exists p. split; [done|].
    destruct (finish_row_fields id p x) as (_ & _ & H0 & H1). apply H1. intros E. apply Hz. auto.
Qed.

(** ** Admission *)

Lemma admission_rows_Ok c now i at_ p rows :
  admission_rows settings c now i at_ p = Ok rows ->
  exists first acknowledged queued protection,
    rows = first :: protection ++ [acknowledged; queued] /\
    event first = Event_Received /\ payload_sequence first = payload_number p /\
    event acknowledged = Event_Acknowledged /\ event queued = Event_Queued /\
    ((route_of i <> Route_IntimateImages /\ protection = []) \/
     (route_of i = Route_IntimateImages /\ exists intent finished effective,
       protection = [intent; finished] /\ event intent = Event_ActionIntent /\
       event finished = Event_RulesCommitted /\ decision intent = [] /\
       reason_code intent = lit "intimate_images" /\ asset_ids intent = documents_of i /\
       intimate_effective at_ (intimate_margin_seconds settings) = Ok effective /\
       effective_at intent = effective)).
Proof.
  unfold admission_rows. set (first := reference_row p _). intros (t & _ & H)%bind_Ok.
  apply bind_Ok in H as (protection & Hp & H). apply bind_Ok in H as (ack & Hack & [= <-]).
  apply event_row_fields in Hack as (Hack & _).
  exists first, ack, (with_state (lit "queued") (with_event Event_Queued ack)), protection.
  split_and!; try done. case_bool_decide as Hr; [right; split; [done|]|left; split; [done|by injection Hp as <-]].
  apply bind_Ok in Hp as (number & _ & Hp). apply bind_Ok in Hp as (row & Hrow & Hp).
  apply bind_Ok in Hp as (eff & Heff & Hp). apply bind_Ok in Hp as (finished & Hf & [= <-]).
  apply event_row_Ok in Hrow as (next & _ & ->).
  apply completion_fields in Hf as ([= Hf] & _).
  eexists _, finished, eff. split_and!; [reflexivity|done..].
Qed.

Lemma admission_plan_Ok c env i at_ plan :
  admission_plan settings c env i at_ = Ok plan ->
  exists id p first acknowledged queued protection,
    plan_ok settings c plan id /\ plan_live plan /\ tickets c !! id = None /\ plan_payload plan = Some p /\
    plan_purge plan = false /\
    plan_rows plan = map (finish_row id p) (first :: protection ++ [acknowledged; queued]) /\
    event acknowledged = Event_Acknowledged /\ event queued = Event_Queued /\ event first = Event_Received /\
    plan_rule_change settings c (plan_rows plan) i (payload_content p) = Ok (plan_rules plan) /\
    ((route_of i <> Route_IntimateImages /\ protection = []) \/
     (route_of i = Route_IntimateImages /\ exists intent finished effective,
       protection = [intent; finished] /\ event intent = Event_ActionIntent /\
       event finished = Event_RulesCommitted /\ decision intent = [] /\
       reason_code intent = lit "intimate_images" /\ asset_ids intent = documents_of i /\
       intimate_effective at_ (intimate_margin_seconds settings) = Ok effective /\
       effective_at intent = effective)).
Proof.
  unfold admission_plan. intros (zero & _ & H)%bind_Ok. apply bind_Ok in H as (p0 & Hp0 & H).
  apply prepare_with_salt_Ok in Hp0 as (_ & Hn0 & _).
  apply bind_Ok in H as (rows & Hrows & H).
  apply admission_rows_Ok in Hrows as (first & ack & queued & protection & -> & Hf & Hs & Ha & Hq & Hcase).
  eapply materialize_ok in H as (id & p & Hok & Hpl & Hp & Hpu & Hr & Hnew & _ & Hch & _); [|done| | | |done].
  - exists id, p, first, ack, queued, protection. split_and!; try done. by apply Hnew.
  - rewrite Hs, Hn0. done.
  - cbn. unfold is_intent, event_in. rewrite Hf. cbn.
    destruct Hcase as [[_ ->]|(_ & intent & finished & eff & -> & Hin & Hfin & _)]; cbn; unfold is_intent, no_intent.
    + by rewrite Ha, Hq.
    + rewrite Hin. cbn. repeat constructor; unfold is_intent; by rewrite ?Hfin, ?Ha, ?Hq.
  - destruct Hcase as [[_ ->]|(_ & intent & finished & eff & -> & Hin & Hfin & _)]; repeat constructor; congruence.
Qed.

(** ** Administration *)

Lemma reversal_fields_Ok t row row' :
  reversal_fields t row = Ok row' -> event row' = event row /\ ticket_id row' = ticket_id row.
Proof. unfold reversal_fields. intros (k & _ & H)%bind_Ok. by apply bind_Ok in H as (g & _ & [= <-]). Qed.

Lemma prepare_personal_fields c t i content row content' row' notice :
  prepare_personal c t i content row = Ok (content', row', notice) ->
  event row' = event row /\ ticket_id row' = ticket_id row.
Proof.
  unfold prepare_personal. destruct content as [| | |d salts ?|reasons [id|]| | | |]; intros H; try by injection H as <- <- <-.
  - apply bind_Ok in H as (s & _ & [= <- <- <-]). by destruct d.
  - by apply bind_Ok in H as (t' & _ & [= <- <- <-]).
  - apply bind_Ok in H as (row1 & Hr%reversal_fields_Ok & H). by apply bind_Ok in H as (n & _ & [= <- <- <-]).
Qed.

Lemma personal_events_plain command :
  personal_event_name command <> Event_Received /\
  personal_event_name command <> Event_ActionIntent /\ personal_event_name command <> Event_PurgeIntent /\
  personal_event_name command <> Event_Purged.
Proof. by destruct command as [[]| | | | | | |]. Qed.

(** The first row carries the command's event; at most the second is an intent. *)
Lemma prepare_action_rows c t i content row rows :
  prepare_action settings c t i content row = Ok rows ->
  event row <> Event_Received -> event row <> Event_ActionIntent -> event row <> Event_PurgeIntent ->
  event row <> Event_Purged ->
  one_intent rows /\ Forall (fun r : JournalRow => event r <> Event_Received /\ event r <> Event_Purged) rows /\
  exists rest, rows = row :: rest.
Proof.
  unfold prepare_action. intros H Hr Ha Hp Hpu. set (reversal := bool_decide (event row = Event_ReversalIntent)) in H.
  assert (is_intent row = reversal) as Hi.
  { unfold is_intent, event_in, reversal. by destruct (event row). }
  destruct (negb _ && negb _ && negb reversal) eqn:Hplain.
  { injection H as <-. split_and!; [cbn; by destruct (is_intent row); [constructor|]|by repeat constructor|by eexists]. }
  destruct reversal eqn:Hrev.
  - apply bind_Ok in H as (finished & Hf0 & [= <-]). pose proof (completion_purged _ _ _ _ _ Hf0) as Hnp.
    apply completion_plain in Hf0 as [Hf Hf']. cbn. rewrite Hi.
    assert (event finished <> Event_Purged) by naive_solver.
    split_and!; [by repeat constructor|by repeat constructor|by eexists].
  - apply bind_Ok in H as (projected & _ & H). apply bind_Ok in H as (n & _ & H).
    apply bind_Ok in H as (finished & Hf0 & [= <-]). pose proof (completion_purged _ _ _ _ _ Hf0) as Hnp.
    apply completion_plain in Hf0 as [Hf Hf']. cbn [one_intent]. rewrite Hi.
    assert (event finished <> Event_Purged) by naive_solver.
    split_and!; [|by repeat constructor|by eexists].
    unfold is_intent. cbn. by repeat constructor.
Qed.

Lemma administration_plan_Ok c env id who command plan notice :
  Coherent settings c -> administration_plan settings c env id who command = Ok (plan, notice) ->
  plan_ok settings c plan id /\ plan_live plan /\ plan_purge plan = false /\ exists p, plan_payload plan = Some p.
Proof.
  intros Hc. unfold administration_plan. intros (t & Ht%ok_or_Ok & H)%bind_Ok.
  destruct (co_tickets _ _ Hc _ _ Ht) as (_ & Hkey & Hrep).
  apply bind_Ok in H as (? & _ & H). apply bind_Ok in H as (i & _ & H).
  apply bind_Ok in H as (row & (Hev & Hid & _)%event_row_fields & H). apply bind_Ok in H as (? & _ & H).
  apply bind_Ok in H as ([[content row'] notice'] & [Hev' Hid']%prepare_personal_fields & H).
  apply bind_Ok in H as (zero & _ & H). apply bind_Ok in H as (p0 & Hp0 & H).
  apply bind_Ok in H as (rows & Hrows & H). apply bind_Ok in H as (plan' & Hm & [= -> _]).
  apply prepare_with_salt_Ok in Hp0 as (_ & Hn0 & _ & Hpos & _).
  destruct (personal_events_plain command) as (H1 & H2 & H3 & H4).
  apply prepare_action_rows in Hrows as (Hone & Hnone & rest & ->); cbn; [|congruence..].
  eapply materialize_ok in Hm as (id' & p & Hok & Hpl & Hp & Hpu & _ & _ & Hsame & _); cbn; [|done| |done| |].
  - rewrite (Hsame eq_refl) in Hok. cbn in Hok. rewrite Hid', Hid, Hkey in Hok. by split_and!; [| | |exists p].
  - cbn. rewrite Hn0. lia.
  - by eapply Forall_impl; [exact Hnone|intros ? []].
  - intros _. split; [by eapply Forall_impl; [exact Hnone|intros ? []]|]. intros t'. cbn. rewrite Hid', Hid, Hkey, Ht. intros [= <-].
    apply replay_wf in Hrep. apply eq_None_not_Some. rewrite (wf_references _ _ Hrep). lia.
Qed.

Lemma purge_plan_Ok c env id t who plan :
  Coherent settings c -> tickets c !! id = Some t -> purge_plan settings c env t who = Ok plan ->
  plan_ok settings c plan id /\ plan_purge plan = true /\ plan_payload plan = None /\ plan_rules plan = None /\
  exists intent finished, plan_rows plan = [intent; finished] /\ event intent = Event_PurgeIntent /\
    event finished = Event_Purged.
Proof.
  intros Hc Ht. unfold purge_plan. intros (? & _ & H)%bind_Ok.
  destruct (co_tickets _ _ Hc _ _ Ht) as (Hne & Hkey & _).
  apply bind_Ok in H as (due & _ & H). apply bind_Ok in H as (? & _ & H).
  apply bind_Ok in H as (row & (Hev & Hid & Hs & _)%event_row_fields & H).
  apply bind_Ok in H as (n & _ & H). apply bind_Ok in H as (finished & Hf & [= <-]).
  apply completion_fields in Hf as (Hfe & Hfi & Hfs). unfold completion_event in Hfe. cbn in Hfe. rewrite Hev in Hfe.
  injection Hfe as Hfe.
  split_and!; [|done..|by eexists _, finished]. split; cbn; try done.
  - repeat constructor; cbn; congruence.
  - unfold is_intent. cbn. rewrite Hev. repeat constructor. unfold is_intent. by rewrite <- Hfe.
  - intros r [->|[->|[]%elem_of_nil]%elem_of_cons]%elem_of_cons; cbn; congruence.
  - intros r [->|[->|[]%elem_of_nil]%elem_of_cons]%elem_of_cons; cbn; congruence.
  - intros _. split; [left; unfold is_intent; cbn; by rewrite Hev|]. by exists finished.
Qed.

(** ** Requests *)

Section Requests.
Context `{RJL : !RulesJsonLaws RJ}.

(** An operation that succeeds keeps memory and disk together; one that fails
    without having marked progress changed nothing. *)
Definition atomic {A} (operation : method Case Error A) : Prop := forall c c' r,
  Coherent settings c -> write_progress c = false -> operation c = (c', r) ->
  match r with Ok _ => Coherent settings c' | Err _ => write_progress c' = false -> c' = c end.

Lemma set_payloads_same c : set_payloads (payloads c) (write_progress c) c = c.
Proof. by destruct c. Qed.

Lemma execute_plan_atomic io plan c id c' r :
  Coherent settings c -> write_progress c = false -> plan_ok settings c plan id -> plan_live plan ->
  execute_plan settings io plan c = (c', r) ->
  match r with Ok _ => Coherent settings c' | Err _ => write_progress c' = false -> c' = c end.
Proof.
  intros Hc Hw Hp Hpl H. apply (execute_plan_cases settings io plan c id) in H; [|done..].
  destruct r as [[]|e]; [by eapply executed_coherent|]. intros Hw'.
  inversion H as [|p c1 e' Ep Heff Ec|now rows t c1 c2 r Hch Hj Hl Hne Hr Hpw Hran Ec Er]; subst; [done|..].
  - rewrite Ec, (we_none _ _ _ _ _ _ Heff Hw'), Hw', <- Hw. apply set_payloads_same.
  - pose proof (ran_none _ _ _ _ _ _ _ _ _ Hran Hw') as ->. unfold payload_written in Hpw.
    destruct (plan_payload plan); [|done]. destruct Hpw as [E _]. rewrite E in Hw'. done.
Qed.

Lemma inspect_atomic {A} (f : Case -> cres A) c c' r :
  Coherent settings c -> inspect f c = (c', r) ->
  match r with Ok _ => Coherent settings c' | Err _ => write_progress c' = false -> c' = c end.
Proof. intros Hc [= <- <-]. by destruct (f c). Qed.

Lemma execute_plan_marks io plan c id c' :
  Coherent settings c -> plan_ok settings c plan id -> execute_plan settings io plan c = (c', Ok tt) ->
  write_progress c' = true.
Proof.
  intros Hc Hp H. apply (execute_plan_cases settings io plan c id) in H; [|done..].
  inversion H as [| |now rows t c1 c2 r Hch Hj Hl Hne Hr Hpw Hran Ec Er]; subst. cbn.
  destruct (write_progress c2) eqn:Hw; [done|]. pose proof (ran_none _ _ _ _ _ _ _ _ _ Hran Hw) as ->.
  destruct (ran_all _ _ _ _ _ _ _ _ Hran) as (_ & E & _).
  apply (f_equal length) in E. rewrite length_app in E. by destruct rows; [|cbn in E; lia].
Qed.

(** After a plan was executed, the rest of an operation only looks. *)
Lemma bind_atomic {A} io plan (f : unit -> method Case Error A) c id c' r :
  Coherent settings c -> write_progress c = false -> plan_ok settings c plan id -> plan_live plan ->
  (forall c1, (f tt c1).1 = c1) -> (execute_plan settings io plan ≫= f) c = (c', r) ->
  match r with Ok _ => Coherent settings c' | Err _ => write_progress c' = false -> c' = c end.
Proof.
  intros Hc Hw Hp Hpl Hf H. apply method_bind_cases in H as [(c1 & [] & H1 & H)|(e & H1 & ->)].
  - pose proof (execute_plan_marks _ _ _ _ _ Hc Hp H1) as Hm.
    pose proof (execute_plan_atomic _ _ _ _ _ _ Hc Hw Hp Hpl H1) as Hc1. cbn in Hc1.
    specialize (Hf c1). rewrite H in Hf. cbn in Hf. subst c'. destruct r; [done|]. by rewrite Hm.
  - exact (execute_plan_atomic _ _ _ _ _ _ Hc Hw Hp Hpl H1).
Qed.

Lemma look_keeps {A B} (f : Case -> cres A) (g : A -> B) c1 :
  ((inspect f ≫= fun a => mret (g a)) c1 : Case * cres B).1 = c1.
Proof. unfold inspect, mbind, method_bind. by destruct (f c1). Qed.

Lemma inspect_bind {A B} (f : Case -> cres A) (k : A -> method Case Error B) c c' r :
  (inspect f ≫= k) c = (c', r) ->
  (exists a, f c = Ok a /\ k a c = (c', r)) \/ (c' = c /\ exists e, r = Err e).
Proof.
  intros [(c1 & a & [-> Ha]%inspect_Ok & H)|(e & [= <- _] & ->)]%method_bind_cases; [by left; exists a|right]. eauto.
Qed.

Lemma admit_atomic env i at_ : atomic (case_admit settings env i at_).
Proof.
  intros c c' r Hc Hw H. unfold case_admit in H.
  apply inspect_bind in H as [(? & _ & H)|[-> [e ->]]]; [|done].
  apply inspect_bind in H as [(plan & Hplan & H)|[-> [e ->]]]; [|done].
  apply inspect_bind in H as [(id' & _ & H)|[-> [e ->]]]; [|done].
  apply admission_plan_Ok in Hplan as (id & p & _ & _ & _ & _ & Hok & Hpl & _).
  eapply bind_atomic; [done..| |exact H]. intros c1. apply look_keeps.
Qed.

Lemma administer_atomic env id who command : atomic (administer settings env id who command).
Proof.
  intros c c' r Hc Hw H. unfold administer in H.
  apply inspect_bind in H as [(? & _ & H)|[-> [e ->]]]; [|done].
  apply inspect_bind in H as [([plan notice] & Hplan & H)|[-> [e ->]]]; [|done].
  apply administration_plan_Ok in Hplan as (Hok & Hpl & _); [|done].
  eapply bind_atomic; [done..| |exact H]. intros c1. apply look_keeps.
Qed.

Lemma purge_atomic env id who : atomic (purge settings env id who).
Proof.
  intros c c' r Hc Hw H. unfold purge in H.
  apply inspect_bind in H as [(? & _ & H)|[-> [e ->]]]; [|done].
  apply inspect_bind in H as [(t & Ht%ok_or_Ok & H)|[-> [e ->]]]; [|done].
  destruct (purged t); [by injection H as <- <-|].
  apply inspect_bind in H as [(plan & Hplan & H)|[-> [e ->]]]; [|done].
  apply (purge_plan_Ok _ _ id) in Hplan as (Hok & Epu & _); [|done..].
  assert (plan_live plan) as Hpl by (unfold plan_live; congruence).
  eapply bind_atomic; [done..| |exact H]. intros c1. apply look_keeps.
Qed.

Lemma private_read_atomic io id : atomic (private_read io id).
Proof. intros c c' r Hc _ H. by eapply inspect_atomic. Qed.

Lemma reset_coherent c : Coherent settings c -> Coherent settings (reset_progress c).
Proof. intros [[? ? ? ? ?] ? ? ? ?]. by split; [split|..]. Qed.

Lemma execute_atomic {A} (operation : method Case Error A) c s s' r :
  atomic operation -> Coherent settings c -> case s = Some c -> case_unavailable s = false ->
  execute operation s = (s', r) ->
  exists c', case s' = Some c' /\
    match r with
    | Ok _ => Coherent settings c' /\ case_unavailable s' = false
    | Err _ => case_unavailable s' = true \/ (case_unavailable s' = false /\ c' = reset_progress c)
    end.
Proof.
  intros Ha Hc Hs Hu. unfold execute. rewrite Hu, Hs.
  destruct (operation (reset_progress c)) as [c' r'] eqn:E. intros [= <- <-]. exists c'. split; [done|].
  apply Ha in E; [|by apply reset_coherent|done]. destruct r' as [a|e]; [done|]. cbn.
  destruct (write_progress c'); [by left|right]. auto.
Qed.

(** One request to the store, with whatever the disk, the clock and the entropy
    source do, and whether it succeeded. *)
Inductive store_step : CaseState -> bool -> CaseState -> Prop :=
| step_admit now env i s s' r :
    store_admit settings now env i s = (s', r) -> store_step s (is_ok r) s'
| step_administer env id who command s s' r :
    store_administer settings env id who command s = (s', r) -> store_step s (is_ok r) s'
| step_purge env id who s s' r :
    store_purge settings env id who s = (s', r) -> store_step s (is_ok r) s'
| step_read io id who s s' r :
    store_read io id who s = (s', r) -> store_step s (is_ok r) s'.

(** A request is refused before the owner's lock is taken, or it is one
    transaction. *)
Lemma store_step_cases s b s' :
  store_step s b s' ->
  (s' = s /\ b = false) \/
  exists A (operation : method Case Error A) r,
    atomic operation /\ execute operation s = (s', r) /\ b = is_ok r.
Proof.
  destruct 1 as [now env i s s' r H|env id who command s s' r H|env id who s s' r H|io id who s s' r H];
    unfold store_admit, store_administer, store_purge, store_read in H;
    (destruct (_ : cres _) in H; [right|left; by injection H as <- <-]); eexists _, _, r;
    (split_and!; [|exact H|done]).
  - apply admit_atomic.
  - apply administer_atomic.
  - apply purge_atomic.
  - apply private_read_atomic.
Qed.

Inductive history : CaseState -> CaseState -> Prop :=
| history_start s : history s s
| history_step s1 s2 b s3 : history s1 s2 -> store_step s2 b s3 -> history s1 s3.

Definition store_ok (s : CaseState) : Prop :=
  exists c, case s = Some c /\ (case_unavailable s = true \/ Coherent settings c).

Lemma store_step_ok s b s' : store_step s b s' -> store_ok s -> store_ok s'.
Proof.
  intros Hs (c & Hcase & Hc). destruct (store_step_cases _ _ _ Hs) as [[-> _]|(A & op & r & Ha & H & _)].
  { by exists c. }
  destruct (case_unavailable s) eqn:Hu.
  { unfold execute in H. rewrite Hu in H. injection H as <- _. exists c. auto. }
  destruct Hc as [?|Hc]; [done|].
  destruct (execute_atomic _ _ _ _ _ Ha Hc Hcase Hu H) as (c' & Hc' & Hr). exists c'. split; [done|].
  destruct r; [right; apply Hr|]. destruct Hr as [?|[_ ->]]; [by left|right]. by apply reset_coherent.
Qed.

Lemma history_ok s s' : history s s' -> store_ok s -> store_ok s'.
Proof. induction 1; [done|]. intros. eapply store_step_ok; eauto. Qed.

Lemma restart_finds_rows c :
  Coherent settings c -> exists start, forall later, start <= later -> exists d k,
    load settings later load_io_ok (Journal.disk (journal c)) = (d, Ok k) /\
    journal_rows k = journal_rows (journal c).
Proof.
  intros Hc. destruct (co_journal _ _ Hc) as [now Hj]. exists now. intros later Hle.
  destruct (consistent_loads now _ later Hj Hle) as (d & k & Hl & _ & Hr).
  rewrite (co_config _ _ Hc) in Hl. by exists d, k.
Qed.

(** C2: Memory and disk stay together. After any history of admissions,
    administration, purges and reads, whatever failed in them, either the store
    is disabled, and then every further request is refused without effect; or
    the tickets in memory are exactly the replay of the journal's rows, a
    restart reads those rows from the journal's files, every revision of a
    ticket that was not purged is readable under its recorded commitment, the
    accounted bytes are the bytes of the files, and the serving rules are those
    of the rules file. *)
Theorem requests_keep_memory_on_disk s s' :
  store_ok s -> history s s' ->
  exists c, case s' = Some c /\
    if case_unavailable s'
    then forall b s'', store_step s' b s'' -> s'' = s' /\ b = false
    else Coherent settings c /\
      exists now, forall later, now <= later -> exists d k,
        load settings later load_io_ok (Journal.disk (journal c)) = (d, Ok k) /\
        journal_rows k = journal_rows (journal c).
Proof.
  intros Hok Hh. destruct (history_ok _ _ Hh Hok) as (c & Hcase & Hc). exists c. split; [done|].
  destruct (case_unavailable s') eqn:Hu.
  - intros b s'' Hs. destruct (store_step_cases _ _ _ Hs) as [?|(A & op & r & _ & H & ->)]; [done|].
    unfold execute in H. rewrite Hu in H. by injection H as <- <-.
  - destruct Hc as [?|Hc]; [done|]. split; [done|]. by apply restart_finds_rows.
Qed.

(** C16: A failed request leaves no trace. A request that the store answers with
    an error either disabled the store or left everything as it was: journal,
    revisions, rules and memory. *)
Theorem failed_requests_change_nothing s c s' :
  case s = Some c -> Coherent settings c -> case_unavailable s = false -> store_step s false s' ->
  case_unavailable s' = true \/
  exists c', case s' = Some c' /\ journal c' = journal c /\ payloads c' = payloads c /\
    rules_store c' = rules_store c /\ tickets c' = tickets c /\ usage c' = usage c.
Proof.
  intros Hs Hc Hu Hst. destruct (store_step_cases _ _ _ Hst) as [[-> _]|(A & op & r & Ha & H & Hr)].
  { right. by exists c. }
  destruct (execute_atomic _ _ _ _ _ Ha Hc Hs Hu H) as (c' & Hc' & Hres).
  destruct r; [done|]. destruct Hres as [?|[_ ->]]; [by left|right]. by exists (reset_progress c).
Qed.

(** ** What a restart finds *)

(** A restart reads the old rows and a prefix of the planned ones; a row after
    an intent is there only when the intent's work was done. *)
Definition reloads (io : PlanIo) (plan : Plan) (c : Case) (id : str) (c' : Case) (r : cres unit) : Prop :=
  exists now rows m, (rows = [] \/ Forall2 linked (plan_rows plan) rows) /\
    (forall later, now <= later -> exists d k m',
      load settings later load_io_ok (Journal.disk (journal c')) = (d, Ok k) /\
      journal_rows k = journal_rows (journal c) ++ take m' rows /\ (m' <= m)%nat /\
      (r = Ok tt -> m' = length rows /\ rows <> []) /\
      (rules_store c' = rules_store c /\ (plan_purge plan = true -> payloads c' = payloads c) \/
       exists n row, take m' rows !! n = Some row /\ is_intent row = true)) /\
    forall n row, rows !! n = Some row -> is_intent row = true -> (S n < m)%nat ->
      (forall p, plan_rules plan = Some p ->
         commit (rules_store c) p (rules_pid io) (rules_counter io) (rules_run io) = (rules_store c', Ok tt)) /\
      (plan_purge plan = true ->
         payload_purge (purge_io io) id (old_references c id) (payloads c) = (payloads c', Ok tt)).

Lemma reloads_unchanged io plan c id c' e :
  Coherent settings c -> journal c' = journal c -> rules_store c' = rules_store c ->
  (plan_purge plan = true -> payloads c' = payloads c) -> reloads io plan c id c' (Err e).
Proof.
  intros Hc Ej Er Epu. destruct (co_journal _ _ Hc) as [now Hj]. exists now, [], 0%nat. split_and!; [by left| |].
  - intros later Hle. destruct (consistent_loads now _ later Hj Hle) as (d & k & Hl & _ & Hk).
    rewrite (co_config _ _ Hc), <- Ej in Hl. exists d, k, 0%nat. rewrite app_nil_r.
    split_and!; try done. by left.
  - intros n row Hn. by rewrite lookup_nil in Hn.
Qed.

Lemma executed_reloads io plan c id c' r :
  Coherent settings c -> plan_ok settings c plan id -> executed settings io plan c c' r ->
  reloads io plan c id c' r.
Proof.
  intros Hc Hp [e|p c1 e Ep Heff Ec|now rows t c1 c2 r1 Hch Hj Hl Hne Hr Hpw Hran].
  { by apply reloads_unchanged. }
  { destruct (po_payload _ _ _ _ Hp p Ep) as (_ & Hpp & _). apply reloads_unchanged; [done|by rewrite Ec..|congruence]. }
  destruct (projected_references _ _ _ _ _ _ _ _ Hc Hp Hl Hne Hr) as (Hkey & _ & Href & _).
  destruct (payload_written_frame _ _ _ Hpw) as (Ej & _ & _ & Ers & _).
  destruct (ran_journal _ _ _ _ _ _ _ _ _ Hran) as (k0 & started & Happ & Hall & Hdone & Hahead). rewrite Ej in Happ.
  set (c3 := match r1 with Ok _ => _ | Err _ => _ end).
  assert (journal c3 = journal c2 /\ rules_store c3 = rules_store c2 /\ payloads c3 = payloads c2)
    as (Ej' & Er' & Ep') by (by destruct r1).
  assert (plan_purge plan = true -> c1 = c) as Hsame.
  { intros Epu. unfold payload_written in Hpw. destruct (plan_payload plan) as [p|] eqn:E; [|done].
    destruct (po_payload _ _ _ _ Hp p E) as (_ & Hpp & _). congruence. }
  exists now, rows, started. split_and!; [by right| |].
  - intros later Hle. destruct (appended_loads _ _ _ _ _ _ later Happ Hle) as (d & k & m & Hload & _ & Hk & Hm).
    rewrite (co_config _ _ Hc), <- Ej' in Hload. exists d, k, m. split_and!; [done..|lia| |].
    + intros Hok. specialize (Hall Hok). destruct (ap_started _ _ _ _ _ _ Happ). split; [lia|done].
    + destruct Hahead as [[Hr2 Hp2]|(n & row & Hn & Hi & Hlt)].
      * left. split; [congruence|]. intros Epu. rewrite Ep', Hp2, Hsame by done. done.
      * right. exists n, row. split; [|done]. apply lookup_take_Some. split; [done|lia].
  - intros n row Hn Hi Hm. destruct (Hdone n row Hn Hi (or_introl Hm)) as [Hrd Hpd].
    unfold rules_done, purge_done in *. split.
    + intros p Ep. rewrite Ep, Ers in Hrd. by rewrite Er'.
    + intros Epu. rewrite Epu, Hkey in Hpd. rewrite Ep'.
      rewrite (Hsame Epu) in Hpd. assert (plan_added plan = None) as Enone.
      { unfold plan_added. destruct (plan_payload plan) as [p|] eqn:E; [|done].
        destruct (po_payload _ _ _ _ Hp p E) as (_ & Hpp & _). congruence. }
      rewrite Enone in Href. cbn in Href. by rewrite Href in Hpd.
Qed.

(** A committed change is in the rules file. *)
Lemma committed_achieved s change p pid counter run s' :
  coherent settings s -> delta_parsed change -> prepare_delta settings s change = Ok p ->
  commit s p pid counter run = (s', Ok tt) ->
  read (Rules.disk s') true (max_rules_bytes settings) = Ok (file (Rules.state s')) /\
  achieved change (file (Rules.state s')).
Proof.
  intros Hc Hd Hp Hcm.
  assert (coherent settings s') as Hc'.
  { pose proof (change_coherent settings s change pid counter run Hd Hc) as H. unfold Rules.change in H.
    by rewrite Hp, Hcm in H. }
  apply prepare_delta_Ok in Hp as (cand & Hu & Ha & Hr & Hm & _ & _ & Hpu & _).
  pose proof (apply_delta_effect _ _ _ (coherent_parsed settings s Hc Hu) Hd Ha) as [Hach _ _ _ _].
  unfold commit in Hcm. rewrite Hu in Hcm. destruct (persist _ _ _ _ _) as [[d renamed] outcome].
  destruct outcome; [|done..]. injection Hcm as <-. cbn in Hc' |- *. split.
  - destruct Hc' as [_ (f & Hf & _ & Hsame)]. cbn in Hf, Hsame. rewrite <- (Hsame Hpu). by apply read_on_disk.
  - by destruct change; cbn in Hach |- *; rewrite ?Hr, ?Hm.
Qed.

(** The documents of an intent are those of the report. *)
Lemma documents_of_report (row : JournalRow) (i : Intake) docs a :
  Forall (fun x => DocumentKey_parse (document_id x) = Ok (document_id x)) (assets i) ->
  asset_ids row = documents_of i -> documents row = Ok docs -> a ∈ assets i -> document_id a ∈ docs.
Proof.
  intros Hk Ea Hd Ha. unfold documents in Hd. rewrite Ea in Hd. unfold documents_of in Hd.
  set (keys := btree_elements _) in Hd.
  assert (document_id a ∈ keys) as Hin.
  { unfold keys. rewrite elem_of_btree_elements, elem_of_list_to_set, list_elem_of_fmap. by exists a. }
  assert (Forall (fun s : str => length s = 64%nat /\ ch_comma ∉ s) keys) as Hclean.
  { apply Forall_forall. intros s. unfold keys. rewrite elem_of_btree_elements, elem_of_list_to_set, list_elem_of_fmap.
    intros (x & -> & Hx). rewrite Forall_forall in Hk. specialize (Hk x Hx). unfold DocumentKey_parse in Hk.
    apply Hex64_parse_Ok in Hk as (_ & Hl & Hh). split; [done|]. intros Hc. rewrite Forall_forall in Hh. by specialize (Hh _ Hc). }
  destruct keys as [|s0 keys]; [by apply elem_of_nil in Hin|].
  assert (is_empty (join [ch_comma] (s0 :: keys)) = false) as Hne.
  { apply Forall_cons in Hclean as [[Hl _] _]. destruct s0; [done|]. by destruct keys. }
  rewrite Hne, split_join_char in Hd; [|done|by eapply Forall_impl; [exact Hclean|intros ? []]].
  apply bind_Ok in Hd as (parsed & Hp%try_map_Ok & Hd). apply bind_Ok in Hd as (? & _ & Hd).
  apply bind_Ok in Hd as (? & _ & [= <-]).
  apply list_elem_of_lookup_1 in Hin as [n Hn]. destruct (Forall2_lookup_l _ _ _ _ _ Hp Hn) as (k & Hkn & Hpk).
  unfold DocumentKey_parse in Hpk. apply Hex64_parse_Ok in Hpk as [-> _]. by eapply list_elem_of_lookup_2.
Qed.

(** The rule change of an admission that protects at once. *)
Lemma protection_change (intent : JournalRow) (i : Intake) salts change :
  event intent = Event_ActionIntent -> decision intent = [] -> reason_code intent = lit "intimate_images" ->
  delta intent i salts = Ok change ->
  exists docs, documents intent = Ok docs /\
    change = Install (ticket_id intent) docs Ground_IntimateImages (effective_at intent)
      (intent_sequence intent) [].
Proof.
  intros He Hd Hr. unfold delta. intros (id & Hid%Transitions.parse_ticket_id & H)%bind_Ok. rewrite He, Hd, Hr in H.
  assert ((parse (lit "intimate_images") : cres Ground) = Ok Ground_IntimateImages) as Eg by reflexivity.
  rewrite Eg in H. cbn in H. apply bind_Ok in H as (names & Hn & H). rewrite bool_decide_eq_false_2 in Hn by done.
  injection Hn as <-. apply bind_Ok in H as (docs & Hdocs & [= <-]). exists docs. by subst id.
Qed.

Lemma bind_executed {A} io plan (f : unit -> method Case Error A) c id c' r :
  Coherent settings c -> plan_ok settings c plan id -> (forall c1, (f tt c1).1 = c1) ->
  (execute_plan settings io plan ≫= f) c = (c', r) ->
  exists r0, executed settings io plan c c' r0 /\ (is_ok r = true -> r0 = Ok tt).
Proof.
  intros Hc Hp Hf H. apply method_bind_cases in H as [(c1 & [] & H1 & H)|(e & H1 & ->)];
    apply (execute_plan_cases _ _ _ _ id) in H1; try done.
  - specialize (Hf c1). rewrite H in Hf. cbn in Hf. subst c'. by exists (Ok tt).
  - by exists (Err e).
Qed.

Lemma admit_executed env i at_ c c' r :
  Coherent settings c -> case_admit settings env i at_ c = (c', r) ->
  (c' = c /\ is_ok r = false) \/
  exists plan r0, admission_plan settings c env i at_ = Ok plan /\
    executed settings (plan_io env) plan c c' r0 /\ (is_ok r = true -> r0 = Ok tt).
Proof.
  intros Hc H. unfold case_admit in H.
  apply inspect_bind in H as [(? & _ & H)|[-> [e ->]]]; [|by left].
  apply inspect_bind in H as [(plan & Hplan & H)|[-> [e ->]]]; [|by left].
  apply inspect_bind in H as [(id' & _ & H)|[-> [e ->]]]; [|by left].
  right. destruct (admission_plan_Ok _ _ _ _ _ Hplan) as (id & p & _ & _ & _ & _ & Hok & _).
  eapply bind_executed in H as (r0 & He & Hr); [by exists plan, r0|done..|]. intros c1. apply look_keeps.
Qed.

(** The rules file holds a rule of the ticket for the document. *)
Definition withheld (c : Case) (received : Z) (ticket document : str) : Prop :=
  exists f rule effective,
    read (Rules.disk (rules_store c)) true (max_rules_bytes settings) = Ok f /\ rule ∈ rules f /\
    rule_document rule = document /\ rule_ticket rule = ticket /\
    rule_ground rule = Ground_IntimateImages /\
    intimate_effective received (intimate_margin_seconds settings) = Ok effective /\
    Rules.effective_at rule <= effective.

Lemma committed_protection c c' env i at_ id p rows plan (intent : JournalRow) effective a :
  Coherent settings c -> plan_ok settings c plan id ->
  Forall (fun a => DocumentKey_parse (document_id a) = Ok (document_id a)) (assets i) ->
  plan_rows plan = map (finish_row id p) rows ->
  plan_rule_change settings c (plan_rows plan) i (payload_content p) = Ok (plan_rules plan) ->
  List.find is_rule_intent (plan_rows plan) = Some (finish_row id p intent) ->
  event intent = Event_ActionIntent -> decision intent = [] -> reason_code intent = lit "intimate_images" ->
  asset_ids intent = documents_of i -> effective_at intent = effective ->
  intimate_effective at_ (intimate_margin_seconds settings) = Ok effective ->
  (forall q, plan_rules plan = Some q ->
     commit (rules_store c) q (rules_pid (plan_io env)) (rules_counter (plan_io env))
       (rules_run (plan_io env)) = (rules_store c', Ok tt)) ->
  a ∈ assets i -> withheld c' at_ id (document_id a).
Proof.
  intros Hc Hok Hdocs Hrows Hch Hfind He Hd Hr Ha Heff Hie Hcm Hin.
  assert (forall r : JournalRow, event (finish_row id p r) = event r /\ decision (finish_row id p r) = decision r /\
    reason_code (finish_row id p r) = reason_code r /\ asset_ids (finish_row id p r) = asset_ids r /\
    effective_at (finish_row id p r) = effective_at r /\ ticket_id (finish_row id p r) = id) as Hfin.
  { intros r. unfold finish_row. by destruct (_ =? 0). }
  destruct (Hfin intent) as (F1 & F2 & F3 & F4 & F5 & F6).
  destruct (plan_rules plan) as [q|] eqn:Eq.
  2:{ unfold plan_rule_change in Hch. rewrite Hfind in Hch. apply bind_Ok in Hch as (? & _ & Hch).
      by apply bind_Ok in Hch as (? & _ & [=]). }
  destruct (plan_rule_change_Ok _ _ _ _ _ q Hch eq_refl) as (change & intent' & Hf' & Hdelta & Hdp & Hprep).
  rewrite Hfind in Hf'. injection Hf' as <-.
  destruct (protection_change (finish_row id p intent) _ _ _ ltac:(congruence) ltac:(congruence) ltac:(congruence) Hdelta) as (docs & Hdd & ->).
  destruct (committed_achieved _ _ _ _ _ _ _ (co_rules _ _ Hc) Hdp Hprep (Hcm q eq_refl)) as [Hread Hach].
  destruct (Hach (document_id a)) as (rule & Hrule & Hrd & Hrt & Hrg & _ & Hre & _).
  { eapply documents_of_report; [exact Hdocs| |exact Hdd|done]. congruence. }
  exists (file (Rules.state (rules_store c'))), rule, effective. split_and!; try done; congruence.
Qed.

(** What a restart finds after the report [i], received at [now], was submitted
    in [c] and [c'] was left. *)
Definition restart_withholds (c c' : Case) (now : Z) (i : Intake) (succeeded : bool) : Prop :=
  exists start, forall later, start <= later -> exists d k rows,
    load settings later load_io_ok (Journal.disk (journal c')) = (d, Ok k) /\
    journal_rows k = journal_rows (journal c) ++ rows /\
    (succeeded = true -> exists row : JournalRow, row ∈ rows /\ event row = Event_Acknowledged) /\
    forall (row : JournalRow) a, row ∈ rows ->
      event row ∈ [Event_RulesCommitted; Event_Acknowledged; Event_Queued] -> a ∈ assets i ->
      withheld c' now (ticket_id row) (document_id a).

Lemma unchanged_withholds c c' now i :
  Coherent settings c -> journal c' = journal c -> restart_withholds c c' now i false.
Proof.
  intros Hc Ej. destruct (restart_finds_rows c Hc) as (start & Hstart). exists start. intros later Hle.
  destruct (Hstart later Hle) as (d & k & Hl & Hk). exists d, k, []. rewrite Ej, app_nil_r.
  split_and!; try done. by intros row a ?%elem_of_nil.
Qed.

Lemma linked_shape id p (shape rows : list JournalRow) n (row : JournalRow) :
  Forall2 linked (map (finish_row id p) shape) rows -> rows !! n = Some row ->
  ticket_id row = id /\ map (fun x : JournalRow => event x) shape !! n = Some (event row).
Proof.
  intros Hl Hn. destruct (Forall2_lookup_r _ _ _ _ _ Hl Hn) as (y & Hy & (Ee & Et & _)%linked_fields).
  rewrite list_lookup_fmap in Hy. apply fmap_Some in Hy as (x & Hx & ->).
  destruct (finish_row_fields id p x) as (Fe & Ft & _). split; [congruence|].
  rewrite list_lookup_fmap, Hx. cbn. congruence.
Qed.

Lemma admission_withholds c c' env i now plan r :
  Coherent settings c -> route_of i = Route_IntimateImages ->
  Forall (fun a => DocumentKey_parse (document_id a) = Ok (document_id a)) (assets i) ->
  admission_plan settings c env i now = Ok plan -> executed settings (plan_io env) plan c c' r ->
  restart_withholds c c' now i (is_ok r).
Proof.
  intros Hc Hroute Hdocs Hplan Hex.
  apply admission_plan_Ok in Hplan as (id & p & first & ack & queued & protection & Hok & _ & _ & Hp & _ & Hrows &
    Hack & Hq & Hfirst & Hch & [[? _]|(_ & intent & finished & eff & -> & Hint & Hfin & Hd & Hrc & Hai & Hie & Hea)]); [done|].
  apply (executed_reloads _ _ _ id) in Hex as (start & rows & m & Hl & Hload & Hdone); [|done..].
  set (shape := [first; intent; finished; ack; queued]) in *.
  assert (rows = [] \/ length rows = 5%nat /\ forall n (row : JournalRow), rows !! n = Some row ->
    ticket_id row = id /\ map (fun x : JournalRow => event x) shape !! n = Some (event row)) as Hshape.
  { destruct Hl as [->|Hl]; [by left|right]. rewrite Hrows in Hl. split; [|intros n row; by apply (linked_shape id p shape)].
    by rewrite <- (Forall2_length _ _ _ Hl), length_map. }
  exists start. intros later Hle. destruct (Hload later Hle) as (d & k & m' & Hlk & Hk & Hm & Hall & _).
  exists d, k, (take m' rows). split_and!; [done..| |].
  - intros Hr. destruct r; [|done]. destruct a, (Hall eq_refl) as [-> Hne].
    destruct Hshape as [?|[Hlen Hshape]]; [done|]. rewrite firstn_all.
    destruct (lookup_lt_is_Some_2 rows 3) as [row Hrow]; [lia|]. exists row. split; [by eapply list_elem_of_lookup_2|].
    destruct (Hshape 3%nat row Hrow) as [_ E]. cbn in E. congruence.
  - intros row a [n Hn]%list_elem_of_lookup_1 Hev Ha. apply lookup_take_Some in Hn as [Hn Hlt].
    destruct Hshape as [->|[Hlen Hshape]]; [by rewrite lookup_nil in Hn|].
    destruct (Hshape n row Hn) as [-> E].
    assert (2 <= n)%nat as H2.
    { destruct n as [|[|n]]; [..|lia]; cbn in E; injection E as E; rewrite <- E, ?Hfirst, ?Hint in Hev; set_solver. }
    destruct (lookup_lt_is_Some_2 rows 1) as [x Hx]; [lia|]. destruct (Hshape 1%nat x Hx) as [_ Ex].
    cbn in Ex. injection Ex as Ex. destruct (Hdone 1%nat x Hx) as [Hcm _]; [unfold is_intent; by rewrite <- Ex, Hint|lia|].
    eapply (committed_protection c c' env i now id p shape plan intent eff); try done.
    rewrite Hrows. cbn. unfold is_rule_intent.
    destruct (finish_row_fields id p first) as (-> & _). destruct (finish_row_fields id p intent) as (-> & _).
    by rewrite Hfirst, Hint.
Qed.

(** C1: An acknowledged report of intimate images is already withheld. Admit
    such a report and stop anywhere, at a failed write, a crash between two
    steps or after success: when the journal a restart reads shows the ticket's
    rules as committed, acknowledged or queued, the rules file on disk holds for
    each reported document a rule of that ticket that takes effect no later than
    the safety margin before the deadline. After success the acknowledgement is
    in the journal. *)
Theorem acknowledged_images_are_withheld now env i s c s' r :
  case s = Some c -> Coherent settings c -> case_unavailable s = false ->
  route_of i = Route_IntimateImages ->
  Forall (fun a => DocumentKey_parse (document_id a) = Ok (document_id a)) (assets i) ->
  store_admit settings now env i s = (s', r) ->
  exists c', case s' = Some c' /\ restart_withholds c c' now i (is_ok r).
Proof.
  intros Hs Hc Hu Hroute Hdocs H. unfold store_admit in H.
  destruct (_ : cres _) in H; [|injection H as <- <-; exists c; split; [done|]; by apply unchanged_withholds].
  unfold execute in H. rewrite Hu, Hs in H. destruct (case_admit _ _ _ _ _) as [c1 r1] eqn:Hadmit. injection H as <- <-.
  exists c1. split; [done|]. change (restart_withholds (reset_progress c) c1 now i (is_ok r1)).
  apply reset_coherent in Hc. apply admit_executed in Hadmit as [[-> ->]|(plan & r0 & Hplan & Hex & Hr)]; [|..|done].
  - by apply unchanged_withholds.
  - apply (admission_withholds _ _ _ i now) in Hex; [|done..]. destruct (is_ok r1) eqn:E.
    + by rewrite Hr in Hex.
    + destruct Hex as (start & Hstart). exists start. intros later Hle.
      destruct (Hstart later Hle) as (d & k & rows & ? & ? & _ & ?). by exists d, k, rows.
Qed.

(** ** Purges *)

Lemma purge_executed env id who c c' r t :
  Coherent settings c -> tickets c !! id = Some t -> purge settings env id who c = (c', r) ->
  (c' = c /\ (is_ok r = true -> purged t = true)) \/
  exists plan r0, purge_plan settings c env t who = Ok plan /\
    executed settings (plan_io env) plan c c' r0 /\ (is_ok r = true -> r0 = Ok tt).
Proof.
  intros Hc Ht H. unfold purge in H.
  apply inspect_bind in H as [(? & _ & H)|[-> [e ->]]]; [|by left].
  apply inspect_bind in H as [(t' & Ht'%ok_or_Ok & H)|[-> [e ->]]]; [|by left].
  rewrite Ht in Ht'. injection Ht' as <-. destruct (purged t) eqn:Hpu; [injection H as <- <-; by left|].
  apply inspect_bind in H as [(plan & Hplan & H)|[-> [e ->]]]; [|by left].
  right. destruct (purge_plan_Ok _ _ id _ _ _ Hc Ht Hplan) as (Hok & _).
  eapply bind_executed in H as (r0 & He & Hr); [by exists plan, r0|done..|]. intros c1. apply look_keeps.
Qed.

(** What a restart finds after a purge of the ticket [t] was asked for in [c]
    and [c'] was left. *)
Definition restart_purges (c c' : Case) (t : Ticket) (succeeded : bool) : Prop :=
  exists start, forall later, start <= later -> exists d k rows,
    load settings later load_io_ok (Journal.disk (journal c')) = (d, Ok k) /\
    journal_rows k = journal_rows (journal c) ++ rows /\
    (payloads c' = payloads c \/ exists row : JournalRow, row ∈ rows /\ event row = Event_PurgeIntent) /\
    (succeeded = true \/ (exists row : JournalRow, row ∈ rows /\ event row = Event_Purged) ->
     forall q, is_Some (references t !! q) -> payload_file (payloads c') (ticket_key t) q = None).

Lemma executed_purge_frame io plan c c' r id id' q :
  Coherent settings c -> plan_ok settings c plan id -> plan_purge plan = true ->
  executed settings io plan c c' r -> id' <> id ->
  payload_file (payloads c') id' q = payload_file (payloads c) id' q.
Proof.
  intros Hc Hp Epu H Hid.
  assert (plan_payload plan = None) as Enone.
  { destruct (plan_payload plan) as [p|] eqn:E; [|done]. destruct (po_payload _ _ _ _ Hp p E) as (_ & ? & _). congruence. }
  destruct H as [e|p c1 e Ep|now rows t c1 c2 r Hch Hj Hl Hne Hr Hpw Hran]; [done|congruence|].
  destruct (projected_references _ _ _ _ _ _ _ _ Hc Hp Hl Hne Hr) as (Hkey & Hrep & _).
  unfold payload_written in Hpw. rewrite Enone in Hpw. subst c1.
  assert (payload_file (payloads c2) id' q = payload_file (payloads c) id' q) as E; [|by destruct r].
  destruct (ran_payloads _ _ _ _ _ _ _ _ _ Hran) as [->|[_ E]]; [done|]. rewrite Hkey in E.
  destruct (payload_purge _ _ _ _) as [d' r'] eqn:Epurge.
  apply payload_purge_effect in Epurge as [He _]; [|by eapply replay_references].
  rewrite E. by apply (pe_frame _ _ _ _ He).
Qed.

Lemma purge_restarts c c' env id t who plan r :
  Coherent settings c -> tickets c !! id = Some t -> purge_plan settings c env t who = Ok plan ->
  executed settings (plan_io env) plan c c' r -> restart_purges c c' t (is_ok r).
Proof.
  intros Hc Ht Hplan Hex. destruct (co_tickets _ _ Hc _ _ Ht) as (_ & Hkey & Hrep).
  destruct (purge_plan_Ok _ _ id _ _ _ Hc Ht Hplan) as (Hok & Epu & _ & _ & intent & finished & Hrows & Hi & Hf).
  apply (executed_reloads _ _ _ id) in Hex as (start & rows & m & Hl & Hload & Hdone); [|done..].
  assert (rows = [] \/ exists x y : JournalRow, rows = [x; y] /\ event x = Event_PurgeIntent /\ event y = Event_Purged)
    as Hshape.
  { destruct Hl as [->|Hl]; [by left|right]. rewrite Hrows in Hl.
    apply Forall2_cons_inv_l in Hl as (x & l1 & (Ex & _)%linked_fields & Hl & ->).
    apply Forall2_cons_inv_l in Hl as (y & l2 & (Ey & _)%linked_fields & Hl & ->).
    apply Forall2_nil_inv_l in Hl as ->. exists x, y. split_and!; congruence. }
  exists start. intros later Hle. destruct (Hload later Hle) as (d & k & m' & Hlk & Hk & Hm & Hall & Hahead).
  exists d, k, (take m' rows). split_and!; [done..| |].
  - destruct Hahead as [[_ Hsame]|(n & row & Hn & Hin)]; [left; auto|right]. exists row.
    split; [by eapply list_elem_of_lookup_2|]. apply lookup_take_Some in Hn as [Hn _].
    destruct Hshape as [->|(x & y & -> & Ex & Ey)]; [by rewrite lookup_nil in Hn|].
    unfold is_intent in Hin. destruct n as [|[|n]]; cbn in Hn; simplify_eq; try done.
    by rewrite Ey in Hin.
  - intros Hdn q Hq. destruct Hshape as [->|(x & y & -> & Ex & Ey)].
    { destruct Hdn as [Hr|(row & Hrow & _)]; [|rewrite take_nil in Hrow; by apply elem_of_nil in Hrow].
      destruct r as [[]|]; [|done]. by destruct (Hall eq_refl). }
    assert (2 <= m')%nat as Hm'.
    { destruct Hdn as [Hr|(row & Hrow & Her)].
      - destruct r as [[]|]; [|done]. destruct (Hall eq_refl) as [-> _]. cbn. lia.
      - destruct m' as [|[|m']]; [by apply elem_of_nil in Hrow| |lia]. cbn in Hrow.
        apply list_elem_of_singleton in Hrow as ->. congruence. }
    destruct (Hdone 0%nat x) as [_ Hpg]; [done|unfold is_intent; by rewrite Ex|lia|].
    specialize (Hpg Epu). unfold old_references in Hpg. rewrite Ht in Hpg.
    apply payload_purge_effect in Hpg as [_ Hgone]; [|by eapply replay_references]. rewrite Hkey. by apply Hgone.
Qed.

(** C3: A recorded purge has deleted the personal data, and nothing is deleted
    before the journal says so. Ask for a purge and stop anywhere: the revisions
    of other tickets are untouched; a restart finds the revisions as they were
    unless it also finds the purge's intent; and when it finds the completion,
    or the request succeeded, no revision of the ticket is left. *)
Theorem recorded_purges_deleted_the_revisions env id who s c s' r t :
  case s = Some c -> Coherent settings c -> case_unavailable s = false -> tickets c !! id = Some t ->
  store_purge settings env id who s = (s', r) ->
  exists c', case s' = Some c' /\
    (forall id' q, id' <> id -> payload_file (payloads c') id' q = payload_file (payloads c) id' q) /\
    restart_purges c c' t (is_ok r).
Proof.
  intros Hs Hc Hu Ht H. destruct (co_tickets _ _ Hc _ _ Ht) as (_ & Hkey & _).
  assert (forall c' b, journal c' = journal c -> payloads c' = payloads c -> (b = true -> purged t = true) ->
    restart_purges c c' t b) as Hsame.
  { intros c' b Ej Ep Hb. destruct (restart_finds_rows c Hc) as (start & Hstart). exists start. intros later Hle.
    destruct (Hstart later Hle) as (d & k & Hl & Hk). exists d, k, []. rewrite Ej, Ep, app_nil_r.
    split_and!; [done..|by left|]. intros [->|(row & ?%elem_of_nil & _)]; [|done]. intros q Hq.
    rewrite Hkey. eapply (co_purged _ _ Hc); eauto. }
  unfold store_purge in H. destruct (auth_actor who); [|injection H as <- <-; exists c; split_and!; try done; by apply Hsame].
  unfold execute in H. rewrite Hu, Hs in H. destruct (purge _ _ _ _ _) as [c1 r1] eqn:Hpurge. injection H as <- <-.
  exists c1. split; [done|]. pose proof (reset_coherent _ Hc) as Hc0.
  apply (purge_executed _ _ _ _ _ _ t) in Hpurge as [[-> Hr]|(plan & r0 & Hplan & Hex & Hr)]; [..|done|done].
  { split; [done|]. by apply Hsame. }
  destruct (purge_plan_Ok _ _ id _ _ _ Hc0 Ht Hplan) as (Hok & Epu & _). split.
  - intros id' q Hid. by eapply (executed_purge_frame _ _ (reset_progress c)).
  - eapply (purge_restarts (reset_progress c)) in Hex as (start & Hstart); [|done..].
    exists start. intros later Hle. destruct (Hstart later Hle) as (d & k & rows & ? & ? & ? & Hg). exists d, k, rows.
    split_and!; [done..|]. intros [Hok1|?]; [|auto]. rewrite (Hr Hok1) in Hg. auto.
Qed.

(** ** Capacity *)

Definition total_bytes (u : gmap str Z) : Z := foldr (fun e n => e.2 + n) 0 (map_to_list u).

Lemma total_bytes_values u : total_bytes u = foldr Z.add 0 (map snd (map_to_list u)).
Proof. unfold total_bytes. induction (map_to_list u) as [|e l IH]; cbn; [done|]. by rewrite IH. Qed.

Lemma checked_sum l acc total :
  try_fold (fun sum size => ok_or (u64_checked_add sum size) Capacity) acc l = Ok total ->
  total = acc + foldr Z.add 0 l.
Proof.
  revert acc. induction l as [|x l IH]; intros acc H; cbn in H |- *; [injection H as <-; lia|].
  apply bind_Ok in H as (y & [-> _]%ok_or_Ok%u64_checked_add_Some & H%IH). lia.
Qed.
Lemma checked_row_bytes rows acc total :
  try_fold (fun sum row => b ← row_bytes row; ok_or (u64_checked_add sum (Z.of_nat (length b))) Capacity) acc rows =
    Ok total -> total = acc + bytes_len rows.
Proof.
  revert acc. induction rows as [|x l IH]; intros acc H; cbn in H; [injection H as <-; change (bytes_len []) with 0; lia|].
  apply bind_Ok in H as (y & Hy & H%IH). apply bind_Ok in Hy as (b & Hb & [-> _]%ok_or_Ok%u64_checked_add_Some).
  change (x :: l) with ([x] ++ l). rewrite bytes_len_app, bytes_len_one. unfold line_of. rewrite Hb. lia.
Qed.

Lemma total_bytes_insert u id n :
  total_bytes (<[id := n]> u) = total_bytes u - default 0 (u !! id) + n.
Proof.
  assert (forall (v : gmap str Z) m, v !! id = None -> total_bytes (<[id := m]> v) = m + total_bytes v) as Hany.
  { intros v m Hv. unfold total_bytes.
    transitivity (foldr (fun e z => e.2 + z) 0 ((id, m) :: map_to_list v)); [|done].
    apply (foldr_permutation_proper (=)); [by intros x ? ? ->|intros; lia|by apply map_to_list_insert]. }
  destruct (u !! id) as [m|] eqn:E; cbn; [|rewrite Hany by done; lia].
  rewrite <- (insert_delete_id u id m E) at 2. rewrite <- insert_delete_eq.
  rewrite !Hany by apply lookup_delete_eq. lia.
Qed.

Lemma reserve_room current additional maximum reserved total :
  reserve current additional maximum reserved = Ok total -> current + additional + reserved <= maximum.
Proof.
  intros Hr. unfold reserve in Hr.
  apply bind_Ok in Hr as (t & [-> _]%ok_or_Ok%u64_checked_add_Some & Hr).
  apply bind_Ok in Hr as (l & [-> _]%ok_or_Ok%u64_checked_sub_Some & Hr).
  apply bind_Ok in Hr as (v & ?%map_err_Ok%validate_range_Ok & _). lia.
Qed.

(** The bounds a transaction was measured against. *)
Lemma reserve_rows_bounds c rows payload is_reserved t id :
  Coherent settings c -> Forall (fun r : JournalRow => ticket_id r = id) rows ->
  (forall r : JournalRow, r ∈ rows -> event r = Event_Received -> tickets c !! id = None) ->
  reserve_rows settings c rows payload is_reserved = Ok t ->
  Z.of_nat (size (<[id := t]> (tickets c))) <= max_tickets settings /\
  events t + (if is_reserved then 0 else 4) <= max_ticket_events settings /\
  bytes_len (journal_rows (journal c)) + bytes_len rows + (if is_reserved then 0 else 65536) <=
    max_journal_bytes settings /\
  default 0 (usage c !! id) + payload <= 1048576 /\
  total_bytes (usage c) + payload <= max_payload_bytes settings.
Proof.
  intros Hc Hids Hnew H. destruct (co_journal _ _ Hc) as [now Hj]. unfold reserve_rows in H.
  apply bind_Ok in H as ([t1 f] & Hm & H). apply bind_Ok in H as ([] & Hres & [= ->]).
  unfold project_and_measure in Hm. destruct rows as [|first rows]; [done|].
  cbn [head ok_or mbind result_bind] in Hm. pose proof Hids as [Hfirst _]%Forall_cons.
  apply bind_Ok in Hm as (id' & ->%Transitions.parse_ticket_id & Hm). rewrite Hfirst in Hm.
  apply bind_Ok in Hm as (t0 & Ht0 & Hm). apply bind_Ok in Hm as (t2 & _ & Hm).
  apply bind_Ok in Hm as (bytes & ->%checked_row_bytes & Hm).
  apply bind_Ok in Hm as (total & ->%checked_sum & [= -> <-]).
  unfold reserve_footprint in Hres. cbn [new_tickets footprint_events journal_bytes existing_payload added_payload total_payload reserved] in Hres.
  apply bind_Ok in Hres as (? & H1%reserve_room & Hres). apply bind_Ok in Hres as (? & H2%reserve_room & Hres).
  apply bind_Ok in Hres as (? & H3%reserve_room & Hres). apply bind_Ok in Hres as (? & H4%reserve_room & Hres).
  apply bind_Ok in Hres as (? & H5%reserve_room & _). rewrite (cons_head _ _ Hj) in H3. cbn [head_of head_bytes] in H3.
  rewrite <- total_bytes_values in H5. rewrite Z.add_0_l in H2, H3, H5.
  change (spec_min (spec Key_ReservedEvents)) with 4 in H2.
  change (spec_min (spec Key_ReservedJournalBytes)) with 65536 in H3.
  change (spec_max (spec Key_TicketPayload)) with 1048576 in H4.
  destruct (decide (event first = Event_Received)) as [Hev|Hev].
  - rewrite bool_decide_eq_true_2 in H1, H4 by done.
    assert (tickets c !! id = None) as Hn by (eapply Hnew; [left|done]).
    rewrite map_size_insert_None, (co_unknown _ _ Hc) by done. destruct is_reserved; lia.
  - rewrite bool_decide_eq_false_2 in H1, H4, Ht0 by done. apply ok_or_Ok in Ht0.
    rewrite map_size_insert_Some by done. destruct is_reserved; lia.
Qed.

(** An executed plan that does not draw on the reserve. *)
Lemma executed_room io plan c id c' p :
  Coherent settings c -> plan_ok settings c plan id -> plan_purge plan = false -> plan_reserved plan = false ->
  plan_payload plan = Some p -> executed settings io plan c c' (Ok tt) ->
  exists t, tickets c' = <[id := t]> (tickets c) /\
    Z.of_nat (size (tickets c')) <= max_tickets settings /\
    events t + 4 <= max_ticket_events settings /\
    Z.of_nat (length (events_file (Journal.disk (journal c')))) + 65536 <= max_journal_bytes settings /\
    default 0 (usage c' !! id) <= 1048576 /\ total_bytes (usage c') <= max_payload_bytes settings.
Proof.
  intros Hc Hp Epu Eres Ep H. inversion H as [| |now rows t c1 c2 r Hch Hj Hl Hne Hr Hw Hran Ec Er]. subst. clear H.
  destruct (projected_references _ _ _ _ _ _ _ _ Hc Hp Hl Hne Hr) as (Hkey & _).
  destruct (plan_rows_linked _ _ _ _ _ Hp Hl) as [Hids Hnew].
  apply (reserve_rows_bounds _ _ _ _ _ id) in Hr as (H1 & H2 & H3 & H4 & H5); [|done..].
  rewrite Eres in H2, H3. rewrite Ep in H4, H5. cbn in H4, H5.
  destruct (ran_same _ _ _ _ _ _ _ _ _ Hran) as (Et & Eu & _).
  destruct (payload_written_frame _ _ _ Hw) as (Ej & Et1 & Eu1 & _).
  destruct (ran_all _ _ _ _ _ _ _ _ Hran) as (Hcons & Hrows & _). rewrite Ej in Hrows.
  exists t. unfold publish. cbn. rewrite Hkey, Et, Et1, Eu, Eu1, Epu, Ep.
  split_and!; [done|done|done| | |].
  - rewrite (cons_events _ _ Hcons), Hrows. fold (bytes_len (journal_rows (journal c) ++ rows)). rewrite bytes_len_app. lia.
  - rewrite lookup_insert_eq. cbn. lia.
  - rewrite total_bytes_insert. lia.
Qed.

(** [c'] extends [c] by one ticket's change, within the bounds and above the
    reserve. *)
Definition within_bounds (c c' : Case) : Prop :=
  exists id t, tickets c' = <[id := t]> (tickets c) /\
    Z.of_nat (size (tickets c')) <= max_tickets settings /\
    events t + 4 <= max_ticket_events settings /\
    Z.of_nat (length (events_file (Journal.disk (journal c')))) + 65536 <= max_journal_bytes settings /\
    default 0 (usage c' !! id) <= 1048576 /\ total_bytes (usage c') <= max_payload_bytes settings.

Lemma materialize_unreserved c now e draft plan :
  materialize_plan settings c now e draft = Ok plan -> plan_reserved plan = false.
Proof.
  unfold materialize_plan. intros (? & _ & H)%bind_Ok. apply bind_Ok in H as (m & _ & H).
  unfold finish_plan in H. apply bind_Ok in H as (p & _ & H). by apply bind_Ok in H as (q & _ & [= <-]).
Qed.

Lemma admit_room env i at_ c c' a :
  Coherent settings c -> case_admit settings env i at_ c = (c', Ok a) -> within_bounds c c'.
Proof.
  intros Hc H. apply admit_executed in H as [[_ [=]]|(plan & r0 & Hplan & Hex & Hr)]; [|done].
  rewrite (Hr eq_refl) in Hex.
  assert (plan_reserved plan = false) as Eres.
  { unfold admission_plan in Hplan. do 3 apply bind_Ok in Hplan as (? & _ & Hplan). by apply materialize_unreserved in Hplan. }
  destruct (admission_plan_Ok _ _ _ _ _ Hplan) as (id & p & _ & _ & _ & _ & Hok & _ & _ & Ep & Epu & _).
  exists id. by eapply executed_room.
Qed.
Lemma administer_room env id who command c c' o :
  Coherent settings c -> administer settings env id who command c = (c', Ok o) -> within_bounds c c'.
Proof.
  intros Hc H. unfold administer in H. apply inspect_bind in H as [(? & _ & H)|[_ [? [=]]]].
  apply inspect_bind in H as [([plan notice] & Hplan & H)|[_ [? [=]]]].
  assert (plan_reserved plan = false) as Eres.
  { pose proof Hplan as Hq. unfold administration_plan in Hq. do 5 apply bind_Ok in Hq as (? & _ & Hq).
    apply bind_Ok in Hq as ([[? ?] ?] & _ & Hq). do 3 apply bind_Ok in Hq as (? & _ & Hq).
    by apply bind_Ok in Hq as (? & Hm%materialize_unreserved & [= <- _]). }
  apply administration_plan_Ok in Hplan as (Hok & _ & Epu & p & Ep); [|done].
  eapply bind_executed in H as (r0 & Hex & Hr); [|done..|intros c1; apply look_keeps].
  rewrite (Hr eq_refl) in Hex. exists id. by eapply executed_room.
Qed.

(** Accepted requests keep within the configured bounds and leave room. After
    an admission or an administrative command succeeded, the tickets, the bytes
    of the ticket's revisions and those of all revisions are within their
    bounds, and the ticket still has four events and the journal 65536 bytes
    left, which only a purge may use. *)
Theorem accepted_requests_leave_room s c s' :
  case s = Some c -> Coherent settings c -> case_unavailable s = false ->
  (exists now env i a, store_admit settings now env i s = (s', Ok a)) \/
  (exists env id who command o, store_administer settings env id who command s = (s', Ok o)) ->
  exists c', case s' = Some c' /\ within_bounds c c'.
Proof.
  intros Hs Hc Hu [(now & env & i & a & H)|(env & id & who & command & o & H)];
    unfold store_admit, store_administer in H; (destruct (_ : cres _) in H; [|done]);
    unfold execute in H; rewrite Hu, Hs in H; apply reset_coherent in Hc.
  - destruct (case_admit _ _ _ _ _) as [c' r] eqn:E. injection H as <- ->. exists c'. split; [done|].
    by apply (admit_room env i now (reset_progress c)) in E.
  - destruct (administer _ _ _ _ _ _) as [c' r] eqn:E. injection H as <- ->. exists c'. split; [done|].
    by apply (administer_room env id who command (reset_progress c)) in E.
Qed.
End Requests.
End Owner.
