(* ===== verification/OwnerReference.v ===== *)
(** * The ticket owner on concrete requests

    A store over the reference encodings, on which reports are admitted, decided,
    closed and purged, and the theorems of [Owner.v] applied to it. *)

From S2P Require Import Prelude Text Externals Disk Compliance Canonical ComplianceModel.
From S2P Require Import Listed Rules Journal Payload PayloadReference JournalRow RowFields Transitions Tickets.
From S2P Require Import Transactions Owner.

#[local] Open Scope Z_scope.

Module OwnerWitness.
Import PayloadReference.

Definition append_ok : AppendIo := {|
  append_open := true; append_write := None; append_sync := true; after_journal_sync := true;
  append_head := head_io_ok |}.
Definition env_at_time (now : Z) (byte : Z) : Env := {|
  env_at := now; draft_now := now;
  draws := {| draw_id := Ok (repeat byte 32); draw_salt := Ok (repeat (byte + 1) 32);
              draw_name := fun n => Ok (repeat (byte + 2 + Z.of_nat n) 32) |};
  intake_io := read_io_ok;
  plan_io := {| plan_now := now; payload_io := PayloadWitness.write_ok; before_completion := fun _ => true;
                append_now := fun _ => now; append_io := fun _ => append_ok; after_intent := fun _ => true;
                rules_pid := 7; rules_counter := byte; rules_run := all_done;
                purge_io := fun _ => purge_io_ok; after_rules := fun _ => true |} |}.

Definition case0 : Case := {|
  journal := JournalWitness.start; payloads := ∅; tickets := ∅; usage := ∅; rules_store := store0;
  writes_disabled := false; write_progress := false |}.
Definition state0 : CaseState := {| case := Some case0; case_unavailable := false |}.

Definition report0 : ReportFields := {|
  contact := {| contact_method := ContactMethod_Email; address := lit "a@example.org" |};
  description := lit "private photographs"; requester_type := RequesterType_SelfPerson;
  nonessential_opt_out := false |}.
Definition page0 : str := lit "https://a.example.org/x".
Definition intake0 : Intake := {|
  report := report0;
  assets := [{| asset_url := page0; document_id := sha256 [as_bytes page0] |}];
  category := Intake_IntimateImages true true true |}.
Definition admitted0 := store_admit config0 1000 (env_at_time 1000 170) intake0 state0.
Definition ticket0 : TicketId := hex (repeat 170 32).
Definition delivery0 : Delivery := {| channel := DeliveryChannel_ManualEmail; reference := lit "m1" |}.
Definition alice : str := lit "alice".

(** Decided, closed and, after the retention period, purged. *)
Definition decided0 :=
  store_administer config0 (env_at_time 1100 10) ticket0 alice
    (Admin_Decision (NotIntimateImage (lit "not an image") delivery0)) admitted0.1.
Definition closed0 :=
  store_administer config0 (env_at_time 1200 20) ticket0 alice (Admin_Closure (lit "done")) decided0.1.
Definition purge_env : Env := env_at_time 100000000 30.
Definition purged0 := store_purge config0 purge_env ticket0 alice closed0.1.

Lemma case0_coherent : Coherent config0 case0.
Proof.
  split; [split|..]; try done; [by exists 1000; apply JournalWitness.start_consistent|].
  - pose proof opened_store0 as H. unfold opened, store_open in H. cbn [negb] in H.
    destruct (sweep_owned_temps _ _ _) as [d1 []]; [|done]. by eapply opened_coherent.
Qed.
Lemma state0_ok : store_ok config0 state0.
Proof. exact (ex_intro _ case0 (conj eq_refl (or_intror case0_coherent))). Qed.

Lemma admit_step now env i s :
  store_step config0 s (is_ok (store_admit config0 now env i s).2) (store_admit config0 now env i s).1.
Proof. destruct (store_admit config0 now env i s) as [s' r] eqn:E. by eapply step_admit. Qed.
Lemma administer_step env id who command s :
  store_step config0 s (is_ok (store_administer config0 env id who command s).2)
    (store_administer config0 env id who command s).1.
Proof. destruct (store_administer config0 env id who command s) as [s' r] eqn:E. by eapply step_administer. Qed.

Lemma admitted0_ok : is_ok admitted0.2 = true.
Proof. vm_compute. reflexivity. Qed.
Lemma closed0_available : case_unavailable closed0.1 = false.
Proof. vm_compute. reflexivity. Qed.
Lemma purged0_ok : is_ok purged0.2 = true.
Proof. vm_compute. reflexivity. Qed.

Lemma admitted0_step : store_step config0 state0 (is_ok admitted0.2) admitted0.1.
Proof. unfold admitted0. apply admit_step. Qed.
Lemma decided0_step : store_step config0 admitted0.1 (is_ok decided0.2) decided0.1.
Proof. unfold decided0. apply administer_step. Qed.
Lemma closed0_step : store_step config0 decided0.1 (is_ok closed0.2) closed0.1.
Proof. unfold closed0. apply administer_step. Qed.
Lemma closed0_history : history config0 state0 closed0.1.
Proof.
  exact (history_step _ _ _ _ _ (history_step _ _ _ _ _ (history_step _ _ _ _ _ (history_start _ state0)
    admitted0_step) decided0_step) closed0_step).
Qed.

Lemma requests_keep_memory_on_disk_witness : exists c, case closed0.1 = Some c /\ Coherent config0 c.
Proof.
  destruct (requests_keep_memory_on_disk config0 state0 closed0.1 state0_ok closed0_history) as (c & Hc & Hrest).
  exists c. split; [exact Hc|]. rewrite closed0_available in Hrest.
  exact (proj1 Hrest).
Defined.

(** The payload directory refuses the write. *)
Definition refusing : Env := {|
  env_at := 1000; draft_now := 1000; draws := draws (env_at_time 1000 170); intake_io := read_io_ok;
  plan_io := {| plan_now := 1000;
                payload_io := {| before_payload_write := false; parent_walk := Walk_done; leaf_open := true;
                                 leaf_facts := true; payload_write := None; payload_sync := true;
                                 payload_readback := read_io_ok; payload_dir_sync := true;
                                 after_payload_sync := true |};
                before_completion := fun _ => true; append_now := fun _ => 1000;
                append_io := fun _ => append_ok; after_intent := fun _ => true; rules_pid := 7;
                rules_counter := 170; rules_run := all_done; purge_io := fun _ => purge_io_ok;
                after_rules := fun _ => true |} |}.
Definition refused0 := store_admit config0 1000 refusing intake0 state0.
Lemma refused0_outcome : is_ok refused0.2 = false /\ case_unavailable refused0.1 = false.
Proof. split; vm_compute; reflexivity. Qed.
Lemma refused0_step : store_step config0 state0 false refused0.1.
Proof.
  rewrite <- (proj1 refused0_outcome). unfold refused0. apply admit_step.
Qed.
Lemma failed_requests_change_nothing_witness :
  exists c, case refused0.1 = Some c /\ journal c = JournalWitness.start /\ payloads c = ∅.
Proof.
  destruct (failed_requests_change_nothing config0 state0 case0 refused0.1 eq_refl case0_coherent eq_refl
    refused0_step) as [Hu|(c & Hc & Hj & Hp & _)].
  { rewrite (proj2 refused0_outcome) in Hu. discriminate Hu. }
  exists c. split; [exact Hc|]. split; [exact Hj|exact Hp].
Defined.

Lemma intake0_parsed : Forall (fun a => DocumentKey_parse (document_id a) = Ok (document_id a)) (assets intake0).
Proof. constructor; [vm_compute; reflexivity|constructor]. Qed.

#[local] Strategy expand [admitted0 decided0 closed0 purged0 refused0].

Lemma acknowledged_images_are_withheld_witness :
  is_ok admitted0.2 = true /\
  exists c, case admitted0.1 = Some c /\ restart_withholds config0 case0 c 1000 intake0 true.
Proof.
  split; [exact admitted0_ok|].
  destruct (acknowledged_images_are_withheld config0 1000 (env_at_time 1000 170) intake0 state0 case0 admitted0.1
    admitted0.2 eq_refl case0_coherent eq_refl eq_refl intake0_parsed (surjective_pairing admitted0)) as (c & Hc & Hw).
  exists c. split; [exact Hc|]. rewrite admitted0_ok in Hw. exact Hw.
Defined.

(** The owner before the purge. *)
Definition case3 : Case := default case0 (case closed0.1).
Definition purged_ticket0 : option Ticket := tickets case3 !! ticket0.
Lemma closed0_case : case closed0.1 = Some case3 /\ case_unavailable closed0.1 = false.
Proof.
  split; [|exact closed0_available]. unfold case3.
  assert (match case closed0.1 with Some _ => true | None => false end = true) as H by (vm_compute; reflexivity).
  destruct (case closed0.1); [reflexivity|discriminate H].
Qed.
Lemma case3_coherent : Coherent config0 case3.
Proof.
  destruct (history_ok _ _ _ closed0_history state0_ok) as (c & Hc & Hcase). destruct closed0_case as [E Hu].
  rewrite E in Hc. apply (inj Some) in Hc as <-. destruct Hcase as [H|H]; [|exact H].
  rewrite Hu in H. discriminate H.
Qed.

Lemma revision0 : (t ← tickets case3 !! ticket0; references t !! 2) <> None.
Proof.
  assert (match t ← tickets case3 !! ticket0; references t !! 2 with Some _ => true | None => false end = true) as H
    by (vm_compute; reflexivity).
  intros E. rewrite E in H. discriminate H.
Qed.

Lemma recorded_purges_deleted_the_revisions_witness :
  exists c t, case purged0.1 = Some c /\ tickets case3 !! ticket0 = Some t /\ references t !! 2 <> None /\
    restart_purges config0 case3 c t true.
Proof.
  pose proof revision0 as Hrev.
  destruct (tickets case3 !! ticket0) as [t|] eqn:Ht; [|destruct (Hrev eq_refl)].
  destruct (recorded_purges_deleted_the_revisions config0 purge_env ticket0 alice closed0.1 case3 purged0.1 purged0.2 t
    (proj1 closed0_case) case3_coherent (proj2 closed0_case) Ht (surjective_pairing purged0)) as (c & Hc & _ & Hp).
  rewrite purged0_ok in Hp. exists c, t. exact (conj Hc (conj eq_refl (conj Hrev Hp))).
Defined.

Lemma accepted_requests_leave_room_witness :
  exists c, case admitted0.1 = Some c /\ within_bounds config0 case0 c.
Proof.
  pose proof admitted0_ok as Hok. destruct admitted0.2 as [a|e] eqn:Ha; [|discriminate Hok].
  apply (accepted_requests_leave_room config0 state0 case0 admitted0.1 eq_refl case0_coherent eq_refl). left.
  exists 1000, (env_at_time 1000 170), intake0, a. rewrite <- Ha. exact (surjective_pairing admitted0).
Defined.
End OwnerWitness.
