(* ===== verification/Recovery.v ===== *)
(** * Startup recovery

    [reconcile] of [compliance/recovery.rs]: the tickets are rebuilt from the
    verified journal, the personal revisions are checked against it, and the
    operations a stopped process left unfinished are finished. *)

From S2P Require Import Prelude Text Externals Disk Compliance Canonical ComplianceModel.
From S2P Require Import Listed Rules Journal Payload Inventory JournalRow RowFields Transitions Tickets Transactions.
From S2P Require Import Owner.

#[local] Open Scope Z_scope.

Record VerifiedPayloads := { intakes : gmap str Intake; lengths : gmap (str * Z) Z }.
Definition put_length (key : str * Z) (n : Z) (v : VerifiedPayloads) : VerifiedPayloads :=
  {| intakes := intakes v; lengths := <[key := n]> (lengths v) |}.
Definition put_intake (id : str) (i : Intake) (v : VerifiedPayloads) : VerifiedPayloads :=
  {| intakes := <[id := i]> (intakes v); lengths := lengths v |}.

(** Clock readings and outcomes of finishing one operation of a ticket. *)
Record StepIo := {
  step_now : Z;
  step_read : ReadIo;
  step_after_rules : bool;
  step_plan : PlanIo;
}.
Record RecoverIo := {
  revision_io : str -> Z -> ReadIo;
  row_io : Z -> ReadIo;
  snapshot_read : bool;
  inventory_io : InventoryIo;
  pending_step : str -> StepIo;
  completed_io : str -> ReadIo;
  intake_step : str -> StepIo;
  decision_step : str -> StepIo;
  tail_at : Z;
  tail_now : Z;
  tail_append_now : Z;
  tail_io : RecoveryIo;
}.

Definition system_recovery : str := lit "system.recovery".

(** Rows without personal content are never of these events. *)
Definition content_events : list EventName :=
  [Event_Received; Event_Decided; Event_IdentityRequested; Event_IdentityConfirmed;
   Event_ClarificationRequested; Event_ClarificationReceived; Event_ExtensionNotified; Event_Appealed;
   Event_ReversalIntent; Event_Upheld; Event_ProgressCommunicated; Event_Closed].

(** Purged, or on the way: the revisions may be gone. *)
Definition authorized (t : Ticket) : bool :=
  purged t || match pending t with Some r => bool_decide (event r = Event_PurgeIntent) | None => false end.

Definition verified_intake (v : VerifiedPayloads) (id : str) : cres Intake := ok_or (intakes v !! id) Unavailable.

Section Recovery.
Context `{U : UrlOps} `{T : Tokenizing} `{D : Digest} `{C : Chrono}.
Context `{J : Json} `{RJ : RulesJson} `{JT : JsonText} `{PJ : PayloadJson}.
Context (settings : ComplianceConfig).

(** ** Rebuilding *)

Definition rebuild_row (ts : gmap str Ticket) (row : JournalRow) : cres (gmap str Ticket) :=
  if is_empty (ticket_id row) then Ok ts
  else
    id ← TicketId_parse (ticket_id row);
    if bool_decide (event row = Event_Received) then
      t ← received row;
      _ ← refuse_if (bool_decide (is_Some (ts !! id))) Unavailable;
      Ok (<[id := t]> ts)
    else
      t ← ok_or (ts !! id) Unavailable;
      t' ← apply_row settings t row;
      Ok (<[id := t']> ts).
Definition sorted_tickets (ts : gmap str Ticket) : list Ticket :=
  map snd (stable_sort (fun a b => str_cmp a.1 b.1) (map_to_list ts)).
Definition rebuild (c : Case) : cres (gmap str Ticket) :=
  ts ← try_fold rebuild_row (tickets c) (journal_rows (journal c));
  _ ← reserve 0 (Z.of_nat (size ts)) (max_tickets settings) 0;
  _ ← try_for_each (fun t => _ ← reserve 0 (events t) (max_ticket_events settings) 0; Ok tt)
        (sorted_tickets ts);
  Ok ts.

(** ** Verification of the revisions *)

Definition verified_personal (v : VerifiedPayloads) (c : Case) (io : ReadIo) (id : str) (sequence : Z)
    (expected : str) : cres PersonalEvent :=
  if negb (sequence =? 1) then payload_read (payloads c) io id sequence expected
  else
    t ← ok_or (tickets c !! id) Unavailable;
    _ ← refuse_if (negb (bool_decide (references t !! 1 = Some expected))) Unavailable;
    i ← verified_intake v id;
    Ok (Personal_Intake i).

Definition verify_revision (c : Case) (io : RecoverIo) (t : Ticket) (v : VerifiedPayloads) (e : Z * str)
    : cres VerifiedPayloads :=
  let '(sequence, expected) := e in
  found ← read_authorized_measured (payloads c) (revision_io io (ticket_key t) sequence) (ticket_key t)
            sequence expected (authorized t);
  match found with
  | None => Ok v
  | Some (content, length) =>
      let v := put_length (ticket_key t, sequence) length v in
      if sequence =? 1 then
        match content with
        | Personal_Intake i => Ok (put_intake (ticket_key t) i v)
        | _ => Err Unavailable
        end
      else Ok v
  end.
Definition verify_ticket (c : Case) (io : RecoverIo) (v : VerifiedPayloads) (t : Ticket)
    : cres VerifiedPayloads :=
  v ← try_fold (verify_revision c io t) v (btree_entries (references t));
  if authorized t then Ok v
  else
    i ← verified_intake v (ticket_key t);
    _ ← refuse_if (negb (bool_decide (route_of i = route t)) ||
                   negb (bool_decide (requester_type (report i) = requester t))) Unavailable;
    Ok v.

Definition identity_event (e : IdentityEvent) : EventName :=
  match e with
  | IdentityEvent_RequestIdentity => Event_IdentityRequested
  | IdentityEvent_IdentityConfirmed => Event_IdentityConfirmed
  | IdentityEvent_RequestClarification => Event_ClarificationRequested
  | IdentityEvent_ClarificationReceived => Event_ClarificationReceived
  end.
Definition expected_event (i : Intake) (history : gmap str Ticket) (row : JournalRow)
    (content : PersonalEvent) : cres EventName :=
  match content with
  | Personal_Intake _ => Ok Event_Received
  | Personal_Identity e _ => Ok (identity_event e)
  | Personal_Extension _ _ _ _ => Ok Event_ExtensionNotified
  | Personal_Decision d salts notice =>
      _ ← refuse_if (negb (str_eqb (decision row) (as_str (Decision_kind d)))) Unavailable;
      _ ← (if bool_decide (event row = Event_Decided) then
             id ← TicketId_parse (ticket_id row);
             before ← ok_or (history !! id) Unavailable;
             decision_allowed settings before d (ground_of i) history
           else Ok tt);
      _ ← verify_decision_notice d notice;
      let required := bool_decide (Decision_kind d = DecisionKind_Granted) &&
                      bool_decide (ground_of i = Some Ground_DataDelisting) in
      _ ← refuse_if (negb (length salts =? (if required then length (names_of i) else 0))%nat) Unavailable;
      Ok Event_Decided
  | Personal_Appeal _ _ => Ok Event_Appealed
  | Personal_Reversal _ _ _ => Ok Event_ReversalIntent
  | Personal_Uphold _ _ _ => Ok Event_Upheld
  | Personal_Progress _ _ _ => Ok Event_ProgressCommunicated
  | Personal_Closure _ => Ok Event_Closed
  end.
Definition verify_personal_row (c : Case) (io : ReadIo) (row : JournalRow) (i : Intake)
    (history : gmap str Ticket) (v : VerifiedPayloads) : cres unit :=
  if payload_sequence row =? 0 then refuse_if (event_in (event row) content_events) Unavailable
  else
    id ← TicketId_parse (ticket_id row);
    content ← verified_personal v c io id (payload_sequence row) (commitment row);
    expected ← expected_event i history row content;
    refuse_if (negb (bool_decide (event row = expected)) &&
               negb (bool_decide (event row = Event_ActionIntent) &&
                     event_in expected [Event_Received; Event_Decided])) Unavailable.

Definition verify_row (c : Case) (io : RecoverIo) (v : VerifiedPayloads) (history : gmap str Ticket)
    (row : JournalRow) : cres (gmap str Ticket) :=
  id ← TicketId_parse (ticket_id row);
  final ← ok_or (tickets c !! id) Unavailable;
  _ ← (if authorized final then Ok tt
       else i ← verified_intake v (ticket_key final);
            verify_personal_row c (row_io io (sequence row)) row i history v);
  if bool_decide (event row = Event_Received) then t ← received row; Ok (<[id := t]> history)
  else
    t ← ok_or (history !! id) Unavailable;
    t' ← apply_row settings t row;
    Ok (<[id := t']> history).
Definition verify_payloads (io : RecoverIo) (c : Case) : cres VerifiedPayloads :=
  v ← try_fold (verify_ticket c io) {| intakes := ∅; lengths := ∅ |} (ticket_list c);
  _ ← try_fold (verify_row c io v) ∅
        (List.filter (fun row : JournalRow => negb (is_empty (ticket_id row))) (journal_rows (journal c)));
  Ok v.

(** ** Finishing *)

(** The rule change an intent stands for. *)
Definition recovered_delta (c : Case) (io : ReadIo) (t : Ticket) (intent : JournalRow)
    (v : VerifiedPayloads) : cres RuleDelta :=
  i ← verified_intake v (ticket_key t);
  content ← verified_personal v c io (ticket_key t) (payload_sequence intent) (commitment intent);
  salts ← match content with
          | Personal_Decision _ salts _ => Ok salts
          | Personal_Intake _ | Personal_Reversal _ _ _ => Ok []
          | _ => Err Unavailable
          end;
  delta intent i salts.

Definition recovery_plan (rows : list JournalRow) (rules : option PreparedRules) : Plan :=
  {| plan_rows := rows; plan_payload := None; plan_rules := rules; plan_purge := false;
     plan_reserved := true |}.

(** An index out of range in the snapshot panics and fails the start. *)
Definition verifies_or_fail (s : RulesSnapshot) (change : RuleDelta) : cres bool :=
  ok_or (verifies s change) Unavailable.

Definition forget_usage (id : str) (c : Case) : Case := set_tickets (tickets c) (<[id := 0]> (usage c)) c.
Definition reapply (io : StepIo) (t : Ticket) (intent : JournalRow) (v : VerifiedPayloads)
    (rules_at_open : RulesSnapshot) : method Case Error unit :=
  change ← inspect (fun c => recovered_delta c (step_read io) t intent v);
  done ← inspect (fun _ => verifies_or_fail rules_at_open change);
  _ ← (if done : bool then mret tt
       else prepared ← inspect (fun c => prepare_delta settings (rules_store c) change);
            commit_rules (step_plan io) prepared);
  stage (step_after_rules io).
Definition finish_pending (io : StepIo) (t : Ticket) (v : VerifiedPayloads) (rules_at_open : RulesSnapshot)
    : method Case Error unit :=
  inspect (fun _ => ok_or (pending t) Unavailable) ≫= fun intent : JournalRow =>
  _ ← (if bool_decide (event intent = Event_PurgeIntent) then
         _ ← purge_payloads (purge_io (step_plan io)) t;
         assign (forget_usage (ticket_key t))
       else reapply io t intent v rules_at_open);
  inspect (fun _ => completion t intent (step_now io) system_recovery) ≫= fun finished : JournalRow =>
  execute_plan settings (step_plan io) (recovery_plan [finished] None).

Definition of_ticket (t : Ticket) (r : JournalRow) : bool := str_eqb (ticket_id r) (ticket_key t).
Definition event_is (e : EventName) (r : JournalRow) : bool := bool_decide (event r = e).

Definition decision_plan (c : Case) (io : StepIo) (t : Ticket) (v : VerifiedPayloads) : cres (option Plan) :=
  let rows := journal_rows (journal c) in
  ok_or (List.find (fun r => of_ticket t r && event_is Event_Decided r) (rev rows)) Unavailable ≫=
  fun decided_row : JournalRow =>
  if is_empty (reason_code decided_row) ||
     negb (one_of (decision decided_row) ["granted"; "not_intimate_image"; "no_standing"]) ||
     existsb (fun r => of_ticket t r && event_is Event_ActionIntent r &&
                       (sequence decided_row <? sequence r)) rows
  then Ok None
  else
    i ← verified_intake v (ticket_key t);
    number ← ok_or (u64_checked_add (head_sequence (journal_head (journal c))) 1) Capacity;
    let intent :=
      with_effective_at (row_at decided_row) (with_asset_ids (documents_of i)
        (with_intent_sequence number (with_at (step_now io)
          (with_actor system_recovery (with_event Event_ActionIntent decided_row))))) in
    change ← recovered_delta c (step_read io) t intent v;
    prepared ← prepare_delta settings (rules_store c) change;
    completion t intent (step_now io) system_recovery ≫= fun finished : JournalRow =>
    Ok (Some (recovery_plan [intent; finished] (Some prepared))).
Definition finish_decision (io : StepIo) (t : Ticket) (v : VerifiedPayloads) : method Case Error unit :=
  plan ← inspect (fun c => decision_plan c io t v);
  match plan with None => mret tt | Some plan => execute_plan settings (step_plan io) plan end.

Definition verify_completed (c : Case) (io : ReadIo) (t : Ticket) (v : VerifiedPayloads)
    (rules_at_open : RulesSnapshot) : cres unit :=
  match List.find (fun r => of_ticket t r && is_rule_intent r) (rev (journal_rows (journal c))) with
  | None => Ok tt
  | Some intent =>
      valid ← (if purged t then
                 if event_is Event_ReversalIntent intent then
                   docs ← documents intent; g ← parse (reason_code intent);
                   verifies_or_fail rules_at_open
                     (Reverse (ticket_key t) docs g (row_at intent) (intent_sequence intent))
                 else if one_of (decision intent) ["not_intimate_image"; "no_standing"] then
                   verifies_or_fail rules_at_open (Remove (ticket_key t))
                 else
                   docs ← documents intent; g ← parse (reason_code intent);
                   Ok (has_intent rules_at_open (ticket_key t) docs g (intent_sequence intent))
               else
                 change ← recovered_delta c io t intent v; verifies_or_fail rules_at_open change);
      refuse_if (negb valid) RulesUnavailable
  end.

(** Protection, acknowledgement and queueing that are still missing. *)
Definition intake_plan (c : Case) (io : StepIo) (t : Ticket) (v : VerifiedPayloads) : cres Plan :=
  let now := step_now io in
  '(rows, rules) ←
    (if bool_decide (state t = TicketState_Received) then
       '(protection, rules) ←
         (if bool_decide (route t = Route_IntimateImages) &&
             negb (existsb (fun r => of_ticket t r && event_is Event_RulesCommitted r)
                     (journal_rows (journal c)))
          then
            i ← verified_intake v (ticket_key t);
            event_row t Event_ActionIntent now system_recovery ≫= fun row : JournalRow =>
            commitment_ ← ok_or (references t !! 1) Unavailable;
            number ← ok_or (u64_checked_add (head_sequence (journal_head (journal c))) 1) Capacity;
            effective ← intimate_effective (times_received (times t)) (intimate_margin_seconds settings);
            let intent :=
              with_effective_at effective (with_intent_sequence number
                (with_reference 1 commitment_ (with_asset_ids (documents_of i)
                  (with_reason_code (lit "intimate_images") row)))) in
            change ← delta intent i [];
            prepared ← prepare_delta settings (rules_store c) change;
            completion t intent now system_recovery ≫= fun finished : JournalRow =>
            Ok ([intent; finished], Some prepared)
          else Ok ([], None));
       event_row t Event_Acknowledged now system_recovery ≫= fun acknowledged : JournalRow =>
       Ok (protection ++ [acknowledged], rules)
     else Ok ([], None));
  event_row (set_state TicketState_Acknowledged t) Event_Queued now system_recovery ≫= fun queued : JournalRow =>
  Ok (recovery_plan (rows ++ [queued]) rules).
Definition finish_intake (io : StepIo) (t : Ticket) (v : VerifiedPayloads) : method Case Error unit :=
  plan ← inspect (fun c => intake_plan c io t v);
  execute_plan settings (step_plan io) plan.

(** ** The whole recovery *)

Definition reconcile_ticket (io : RecoverIo) (v : VerifiedPayloads) (rules_at_open : RulesSnapshot) (t : Ticket)
    : method Case Error unit :=
  _ ← match pending t with
      | Some _ => finish_pending (pending_step io (ticket_key t)) t v rules_at_open
      | None => inspect (fun c => verify_completed c (completed_io io (ticket_key t)) t v rules_at_open)
      end;
  inspect (fun c => ok_or (tickets c !! ticket_key t) Unavailable) ≫= fun current : Ticket =>
  match state current with
  | TicketState_Received | TicketState_Acknowledged =>
      finish_intake (intake_step io (ticket_key t)) current v
  | TicketState_Decided => finish_decision (decision_step io (ticket_key t)) current v
  | _ => mret tt
  end.
Fixpoint reconcile_tickets (io : RecoverIo) (v : VerifiedPayloads) (rules_at_open : RulesSnapshot)
    (ts : list Ticket) : method Case Error unit :=
  match ts with
  | [] => mret tt
  | t :: ts' => _ ← reconcile_ticket io v rules_at_open t; reconcile_tickets io v rules_at_open ts'
  end.

Definition referenced_revisions (c : Case) : gset (str * Z) :=
  list_to_set (concat (map (fun t => map (fun e => (ticket_key t, e.1)) (map_to_list (references t)))
    (ticket_list c))).
Definition count_usage (io : RecoverIo) (v : VerifiedPayloads) : method Case Error unit := fun c =>
  match inventory (inventory_io io) (referenced_revisions c) (lengths v) true (payloads c) with
  | (d, Err e) => (set_payloads d (write_progress c) c, Err e)
  | (d, Ok totals) => (set_tickets (tickets c) totals (set_payloads d (write_progress c) c), Ok tt)
  end.
Definition check_usage (c : Case) : cres unit :=
  total ← try_fold (fun total bytes =>
            _ ← validate Key_TicketPayload bytes; ok_or (u64_checked_add total bytes) Unavailable) 0
            (map snd (stable_sort (fun a b => str_cmp a.1 b.1) (map_to_list (usage c))));
  _ ← reserve 0 total (max_payload_bytes settings) 0;
  Ok tt.

Definition finish_tail (io : RecoverIo) : method Case Error unit := fun c =>
  let (j, r) := finish_recovery (journal c) (tail_at io) (tail_now io) (tail_append_now io) (tail_io io) in
  (set_journal j (write_progress c) c, r).

Definition reconcile (io : RecoverIo) : method Case Error unit :=
  ts ← inspect rebuild;
  _ ← assign (fun c => set_tickets ts (usage c) c);
  v ← inspect (verify_payloads io);
  rules_at_open ← inspect (fun c => _ ← refuse_if (negb (snapshot_read io)) RulesUnavailable;
                                   Ok (Rules.state (rules_store c)));
  _ ← count_usage io v;
  _ ← inspect check_usage;
  all ← inspect (fun c => Ok (ticket_list c));
  _ ← reconcile_tickets io v rules_at_open all;
  finish_tail io.
End Recovery.

(** ** Theorems *)

Section Theorems.
Context `{U : UrlOps} `{T : Tokenizing} `{D : Digest} `{C : Chrono}.
Context `{J : Json} `{JL : !JsonLaws J} `{RJ : RulesJson} `{RJL : !RulesJsonLaws RJ}.
Context `{JT : JsonText} `{PJ : PayloadJson}.
Context (settings : ComplianceConfig).

Lemma try_fold_elem {E A S} (f : S -> A -> result E S) s l s' x :
  try_fold f s l = Ok s' -> x ∈ l -> exists s1 s2, f s1 x = Ok s2.
Proof.
  revert s. induction l as [|y l IH]; intros s H Hx; [by apply elem_of_nil in Hx|].
  cbn in H. apply bind_Ok in H as (s1 & H1 & H). apply elem_of_cons in Hx as [->|Hx]; eauto.
Qed.

(** *** Rebuilding *)

Definition rebuilt (rows : list JournalRow) (ts : gmap str Ticket) : Prop :=
  (forall id t, ts !! id = Some t -> id <> [] /\ ticket_key t = id /\ Replay settings (rows_of id rows) t) /\
  Forall (fun r : JournalRow => ticket_id r = [] \/ is_Some (ts !! ticket_id r)) rows.

Lemma rebuilt_unknown rows ts id : rebuilt rows ts -> id <> [] -> ts !! id = None -> rows_of id rows = [].
Proof.
  intros [_ Hr] Hid Hn. apply rows_of_none, (Forall_impl _ _ _ Hr). intros r [E|[t Ht]] <-; [done|congruence].
Qed.
Lemma rebuilt_put rows ts (row : JournalRow) t :
  rebuilt rows ts -> ticket_id row <> [] -> Replay settings (rows_of (ticket_id row) rows ++ [row]) t ->
  rebuilt (rows ++ [row]) (<[ticket_id row := t]> ts).
Proof.
  intros [Ht Hr] Hid Hrep. split.
  - intros id' t'. rewrite rows_of_app. destruct (decide (id' = ticket_id row)) as [->|Hne].
    + rewrite lookup_insert_eq. intros [= <-].
      rewrite (rows_of_all (ticket_id row) [row]) by (by repeat constructor). split_and!; [done| |done].
      apply replay_wf in Hrep. pose proof (wf_ids _ _ Hrep) as Hids. apply Forall_app in Hids as [_ Hids].
      by apply Forall_cons in Hids as [? _].
    + rewrite lookup_insert_ne by done. rewrite (rows_of_none id' [row]), app_nil_r by (by repeat constructor; congruence).
      apply Ht.
  - apply Forall_app. split.
    + apply (Forall_impl _ _ _ Hr). intros r [?|Hk]; [by left|right].
      destruct (decide (ticket_id r = ticket_id row)) as [->|]; [by rewrite lookup_insert_eq|by rewrite lookup_insert_ne].
    + constructor; [right; by rewrite lookup_insert_eq|constructor].
Qed.
Lemma rebuilt_skip rows ts (row : JournalRow) : rebuilt rows ts -> ticket_id row = [] -> rebuilt (rows ++ [row]) ts.
Proof.
  intros [Ht Hr] Hid. split.
  - intros id t Hl. destruct (Ht id t Hl) as (Hne & ?). rewrite rows_of_app, (rows_of_none id [row]), app_nil_r; [done|].
    repeat constructor. congruence.
  - apply Forall_app. split; [done|]. constructor; [by left|constructor].
Qed.

Lemma rebuild_rows before rows ts ts' :
  rebuilt before ts -> try_fold (rebuild_row settings) ts rows = Ok ts' -> rebuilt (before ++ rows) ts'.
Proof.
  revert before ts. induction rows as [|row rows IH]; intros before ts Hb H; cbn in H.
  { injection H as <-. by rewrite app_nil_r. }
  apply bind_Ok in H as (ts1 & H1 & H). replace (before ++ row :: rows) with ((before ++ [row]) ++ rows) by (by rewrite <- app_assoc).
  eapply IH; [|exact H]. clear IH H. unfold rebuild_row in H1. destruct (is_empty (ticket_id row)) eqn:He.
  { injection H1 as <-. apply is_empty_true in He. by apply rebuilt_skip. }
  apply is_empty_false in He. apply bind_Ok in H1 as (id & ->%Transitions.parse_ticket_id & H1).
  case_bool_decide.
  - apply bind_Ok in H1 as (t & Ht & H1). apply bind_Ok in H1 as (u & Hn%refuse_if_Ok & [= <-]).
    bool_to_prop. apply rebuilt_put; [done..|]. rewrite (rebuilt_unknown before ts); [by constructor|done..|].
    by apply eq_None_not_Some.
  - apply bind_Ok in H1 as (t & Ht%ok_or_Ok & H1). apply bind_Ok in H1 as (t' & Ha & [= <-]).
    apply rebuilt_put; [done..|]. destruct Hb as [Hb _]. destruct (Hb _ _ Ht) as (_ & _ & Hr).
    unfold apply_row in Ha. destruct (apply settings row t) as [t1 r] eqn:E. apply bind_Ok in Ha as ([] & -> & [= <-]).
    by eapply replay_apply.
Qed.

Definition opened_case (c : Case) : Prop :=
  tickets c = ∅ /\ Journal.config (journal c) = settings /\ (exists now, Consistent now (journal c)) /\
  coherent settings (rules_store c).

Lemma rebuild_grounded c ts :
  opened_case c -> rebuild settings c = Ok ts -> Grounded settings (set_tickets ts (usage c) c).
Proof.
  intros (He & Hcfg & Hj & Hr) H. unfold rebuild in H. apply bind_Ok in H as (ts' & Hf & H).
  apply bind_Ok in H as (? & _ & H). apply bind_Ok in H as (? & _ & [= ->]). rewrite He in Hf.
  apply (rebuild_rows []) in Hf as [Ht Hrows]; [by split|]. split; [|constructor].
  intros id t. by rewrite lookup_empty.
Qed.

(** *** Revisions *)

Definition readable (d : PayloadDisk) (id : str) (q : Z) (h : str) : Prop :=
  exists content len, read_authorized_measured d read_io_ok id q h false = Ok (Some (content, len)).
Lemma readable_ext d d' id q h :
  payload_file d' id q = payload_file d id q -> readable d id q h -> readable d' id q h.
Proof. intros E (content & len & H). exists content, len. by rewrite (read_measured_ext d d'). Qed.

Lemma read_length d io id q h b content len :
  read_authorized_measured d io id q h b = Ok (Some (content, len)) ->
  len = Z.of_nat (length (default [] (payload_file d id q))).
Proof.
  unfold read_authorized_measured. intros (u & _ & H)%bind_Ok.
  destruct (payload_file d id q) as [file|]; [|by destruct b]. apply bind_Ok in H as (bytes & Hb & H).
  unfold read_bounded in Hb. apply bind_Ok in Hb as (? & _ & Hb). apply bind_Ok in Hb as (? & _ & [= <-]).
  repeat (apply bind_Ok in H as (? & _ & H)). by injection H as _ <-.
Qed.

Lemma elem_of_ticket_list c t : t ∈ ticket_list c <-> exists id, tickets c !! id = Some t.
Proof.
  unfold ticket_list. rewrite list_elem_of_fmap. split.
  - intros ([id t'] & -> & H%elem_of_stable_sort%elem_of_map_to_list). by exists id.
  - intros [id H]. exists (id, t). split; [done|]. by apply elem_of_stable_sort, elem_of_map_to_list.
Qed.

Lemma verify_payloads_reads io c v id t q h :
  verify_payloads settings io c = Ok v -> tickets c !! id = Some t -> ticket_key t = id ->
  authorized t = false -> references t !! q = Some h -> readable (payloads c) id q h.
Proof.
  intros Hv Ht Hkey Ha Hq. unfold verify_payloads in Hv. apply bind_Ok in Hv as (v1 & Hv & _).
  destruct (try_fold_elem _ _ _ _ t Hv) as (v2 & v3 & H2); [apply elem_of_ticket_list; eauto|].
  unfold verify_ticket in H2. apply bind_Ok in H2 as (v4 & H2 & _).
  destruct (try_fold_elem _ _ _ _ (q, h) H2) as (v5 & v6 & H5); [by apply elem_of_btree_entries|].
  unfold verify_revision in H5. rewrite Ha, Hkey in H5. apply bind_Ok in H5 as (found & Hr & _).
  apply read_measured_works in Hr. destruct found as [[content len]|]; [by exists content, len|exfalso].
  unfold read_authorized_measured in Hr. cbn in Hr. destruct (payload_file (payloads c) id q); [|done].
  by repeat (apply bind_Ok in Hr as (? & _ & Hr)).
Qed.

(** *** Rows applied to a ticket *)

Lemma apply_row_applied t row t' : apply_row settings t row = Ok t' -> applied settings row t t'.
Proof.
  unfold apply_row. destruct (apply settings row t) as [t1 r] eqn:E. intros ([] & -> & [= <-])%bind_Ok.
  by eapply apply_Ok.
Qed.

Definition pending_after (p : option JournalRow) (row : JournalRow) : option JournalRow :=
  if event_in (event row) intents then Some row else if event_in (event row) completions then None else p.

Lemma apply_row_pending t row t' : apply_row settings t row = Ok t' -> pending t' = pending_after (pending t) row.
Proof.
  intros Ha%apply_row_applied%ap_operation. unfold operation_spec in Ha. unfold pending_after.
  destruct (event_in _ intents); [by destruct Ha as (_ & _ & -> & _)|].
  destruct (event_in _ completions); [by destruct Ha as (i & _ & _ & -> & _)|by destruct Ha as [-> _]].
Qed.
Lemma fold_pending rows t t' :
  try_fold (apply_row settings) t rows = Ok t' -> pending t' = foldl pending_after (pending t) rows.
Proof.
  revert t. induction rows as [|r rows IH]; intros t H; cbn in H; [by injection H as <-|].
  apply bind_Ok in H as (t1 & H1%apply_row_pending & H%IH). cbn. by rewrite H, H1.
Qed.
Lemma fold_state rows t t' :
  try_fold (apply_row settings) t rows = Ok t' ->
  try_fold successor (state t) (map (fun r : JournalRow => event r) rows) = Ok (state t').
Proof.
  revert t. induction rows as [|r rows IH]; intros t H; cbn in H |- *; [by injection H as <-|].
  apply bind_Ok in H as (t1 & H1%apply_row_applied%ap_next & H%IH). by rewrite H1.
Qed.

(** A started purge can only be completed. *)
Lemma fold_authorized rows t t' :
  try_fold (apply_row settings) t rows = Ok t' -> authorized t = true -> authorized t' = true.
Proof.
  revert t. induction rows as [|r rows IH]; intros t H Ha; cbn in H; [by injection H as <-|].
  apply bind_Ok in H as (t1 & H1 & H). eapply IH; [exact H|]. apply apply_row_applied in H1.
  pose proof (ap_live _ _ _ _ H1) as Hlive. unfold authorized in Ha. rewrite Hlive in Ha. cbn in Ha.
  destruct (pending t) as [i|] eqn:Hp; [|done]. apply bool_decide_eq_true in Ha.
  pose proof (ap_operation _ _ _ _ H1) as Ho. unfold operation_spec in Ho. rewrite Hp in Ho.
  assert (event r ∈ completions) as Hc.
  { apply (g_pending settings _ _ (guard_Ok settings _ _ tt (ap_guard _ _ _ _ H1))). by rewrite Hp. }
  assert (event_in (event r) intents = false /\ event_in (event r) completions = true) as [E1 E2].
  { unfold event_in. unfold completions in Hc.
    repeat (apply elem_of_cons in Hc as [->|Hc]; [done|]). by apply elem_of_nil in Hc. }
  rewrite E1, E2 in Ho. destruct Ho as (i' & [= <-] & (Hx & _)%completes_Ok & _ & Hpu & _).
  unfold expected_completion in Hx. rewrite Ha in Hx. injection Hx as Hx.
  unfold authorized. rewrite Hpu, <- Hx. done.
Qed.

(** Only a purge intent authorizes a purge. *)
Lemma fold_unauthorized rows t t' :
  try_fold (apply_row settings) t rows = Ok t' -> Forall (fun r : JournalRow => event r <> Event_PurgeIntent) rows ->
  authorized t' = true -> authorized t = true.
Proof.
  revert t. induction rows as [|r rows IH]; intros t H Hf Ha; cbn in H; [by injection H as <-|].
  apply Forall_cons in Hf as [Hr Hf]. apply bind_Ok in H as (t1 & H1 & H). apply (IH t1 H Hf) in Ha. clear IH H.
  apply apply_row_applied, ap_operation in H1. unfold operation_spec in H1. unfold authorized in *.
  destruct (event_in _ intents).
  { destruct H1 as (_ & _ & E & Ep & _). rewrite E, Ep, bool_decide_eq_false_2, orb_false_r in Ha by done. by rewrite Ha. }
  destruct (event_in _ completions); [|by destruct H1 as (E & Ep & _); rewrite E, Ep in Ha].
  destruct H1 as (i & Hi & (Hx & _)%completes_Ok & E & Ep & _). rewrite Hi. rewrite E, Ep, orb_false_r in Ha.
  apply bool_decide_eq_true in Ha. rewrite Ha in Hx. apply orb_true_iff. right. apply bool_decide_eq_true.
  unfold expected_completion in Hx. by destruct (event i); try done; repeat case_match.
Qed.

Lemma replay_mentions l t (r : JournalRow) :
  Replay settings l t -> r ∈ l -> payload_sequence r <> 0 -> is_Some (references t !! payload_sequence r).
Proof.
  intros H. induction H as [row t Hr|rows t row t' _ IH Ha]; intros Hin Hz.
  - apply list_elem_of_singleton in Hin as ->. unfold received in Hr. res_inv. bool_to_prop. cbn.
    replace (payload_sequence row) with 1 by lia. by rewrite lookup_singleton_eq.
  - apply apply_Ok in Ha. pose proof (ap_references _ _ _ _ Ha) as Href. unfold reference_spec in Href.
    assert (forall k, is_Some (references t !! k) -> is_Some (references t' !! k)) as Hkeep.
    { intros k Hk. destruct (payload_sequence row =? 0); [by rewrite Href|].
      destruct (references t !! payload_sequence row); [by destruct Href as (_ & _ & ->)|].
      destruct Href as [_ ->]. destruct (decide (k = payload_sequence row)) as [->|];
        [by rewrite lookup_insert_eq|by rewrite lookup_insert_ne]. }
    apply elem_of_app in Hin as [Hin|Hin]; [auto|]. apply list_elem_of_singleton in Hin as ->.
    destruct (Z.eqb_spec (payload_sequence row) 0); [done|].
    destruct (references t !! payload_sequence row) eqn:El.
    + destruct Href as (_ & _ & ->). by rewrite El.
    + destruct Href as [_ ->]. by rewrite lookup_insert_eq.
Qed.

(** *** What recovery adds *)

Definition recovery_events : list EventName :=
  [Event_Reversed; Event_Purged; Event_Actioned; Event_RulesCommitted; Event_ActionIntent; Event_Acknowledged;
   Event_Queued].
Definition recovery_row (r : JournalRow) : Prop := actor r = system_recovery /\ event r ∈ recovery_events.

(** None of the ticket's revisions is left. *)
Definition gone (c : Case) (id : str) (t : Ticket) : Prop :=
  forall q, is_Some (references t !! q) -> payload_file (payloads c) id q = None.
Record advanced (c : Case) (id : str) (t : Ticket) (c' : Case) (t' : Ticket) : Prop := {
  ad_grounded : Grounded settings c';
  ad_tickets : tickets c' = <[id := t']> (tickets c);
  ad_rows : exists added, journal_rows (journal c') = journal_rows (journal c) ++ added /\
    Forall recovery_row added;
  ad_references : references t' = references t;
  ad_other : forall id', id' <> id -> usage c' !! id' = usage c !! id' /\
    forall q, payload_file (payloads c') id' q = payload_file (payloads c) id' q;
  ad_account : (usage c' !! id = usage c !! id /\ payloads c' = payloads c) \/
    (usage c' !! id = Some 0 /\ gone c' id t /\ authorized t' = true);
  ad_authorized : authorized t = true -> authorized t' = true;
  ad_purged : purged t' = true -> purged t = true \/ gone c' id t;
}.
Lemma advanced_refl c id t : Grounded settings c -> tickets c !! id = Some t -> advanced c id t c t.
Proof.
  intros Hg Ht. split; try done; [by rewrite insert_id| |by left|by left]. exists []. by rewrite app_nil_r.
Qed.
Lemma gone_advanced c id t c' t' : gone c id t -> advanced c id t c' t' -> gone c' id t.
Proof.
  intros H [_ _ _ _ _ [[_ E]|(_ & Hg & _)] _ _]; [|done]. intros q Hq. rewrite E. by apply H.
Qed.
Lemma gone_ext c id t t' : references t' = references t -> gone c id t -> gone c id t'.
Proof. unfold gone. by intros ->. Qed.
Lemma advanced_key c id t c' t' : advanced c id t c' t' -> ticket_key t' = id.
Proof.
  intros [Hg Ht _ _ _ _ _ _]. destruct (co_tickets _ _ Hg id t') as (_ & Hk & _); [|done].
  by rewrite Ht, lookup_insert_eq.
Qed.
Lemma advanced_trans c id t c1 t1 c2 t2 :
  advanced c id t c1 t1 -> advanced c1 id t1 c2 t2 -> advanced c id t c2 t2.
Proof.
  intros H1 H2. pose proof (gone_advanced c1 id t1 c2 t2) as Hgone.
  destruct H1 as [G1 T1 (a1 & R1 & F1) E1 O1 A1 L1 P1].
  assert (gone c1 id t -> gone c2 id t) as Hkeep.
  { intros H. apply (gone_ext _ _ t1); [done|]. apply Hgone; [|done]. by apply (gone_ext _ _ t). }
  destruct H2 as [G2 T2 (a2 & R2 & F2) E2 O2 A2 L2 P2]. split; [done|..].
  - by rewrite T2, T1, insert_insert_eq.
  - exists (a1 ++ a2). rewrite R2, R1, <- app_assoc. split; [done|]. by apply Forall_app.
  - congruence.
  - intros id' Hid. destruct (O2 id' Hid) as [-> O2'], (O1 id' Hid) as [-> O1']. split; [done|]. intros q. by rewrite O2'.
  - destruct A2 as [[-> ->]|(-> & H & ?)].
    + destruct A1 as [[-> ->]|(-> & H & Ha)]; [by left|right]. split_and!; [done|by apply Hkeep|auto].
    + right. split_and!; [done|by apply (gone_ext _ _ t1)|done].
  - auto.
  - intros [H|H]%P2; [|right; by apply (gone_ext _ _ t1)]. destruct (P1 H) as [?|?]; [by left|right; auto].
Qed.

Lemma recovery_plan_ok c id t rows rules :
  Grounded settings c -> tickets c !! id = Some t ->
  Forall (fun r : JournalRow => ticket_id r = id /\ event r <> Event_Received /\
    (payload_sequence r <> 0 -> is_Some (references t !! payload_sequence r))) rows ->
  one_intent rows ->
  (forall p, rules = Some p -> exists change, delta_parsed change /\ prepare_delta settings (rules_store c) change = Ok p) ->
  plan_ok settings c (recovery_plan rows rules) id.
Proof.
  intros Hg Ht Hrows Hone Hrules. rewrite Forall_forall in Hrows.
  split; cbn [plan_rows plan_payload plan_rules plan_purge recovery_plan]; try done.
  - by destruct (co_tickets _ _ Hg _ _ Ht).
  - apply Forall_forall. intros r Hr. by apply Hrows.
  - intros r Hr He. by destruct (Hrows r Hr) as (_ & ? & _).
  - intros r Hr Hz. right. exists t. split; [done|]. by apply Hrows.
Qed.

Lemma linked_recovery l rows : Forall2 linked l rows -> Forall recovery_row l -> Forall recovery_row rows.
Proof.
  induction 1 as [|x r l rows Hx _ IH]; intros H; [constructor|]. apply Forall_cons in H as [[Ha He] H].
  constructor; [|auto]. unfold linked in Hx. unfold recovery_row. rewrite Hx. done.
Qed.
Lemma linked_events l rows :
  Forall2 linked l rows -> map (fun r : JournalRow => event r) rows = map (fun r : JournalRow => event r) l.
Proof. induction 1 as [|x r l rows (Hx & _)%linked_fields _ IH]; [done|]. cbn. by rewrite Hx, IH. Qed.

Lemma execute_advances io c id t rows rules c' :
  Grounded settings c -> tickets c !! id = Some t -> plan_ok settings c (recovery_plan rows rules) id ->
  Forall recovery_row rows -> (authorized t = true -> purged t = true \/ gone c id t) -> execute_plan settings io (recovery_plan rows rules) c = (c', Ok tt) ->
  exists t' linked_rows, advanced c id t c' t' /\
    map (fun r : JournalRow => event r) linked_rows = map (fun r : JournalRow => event r) rows /\
    try_fold (apply_row settings) t linked_rows = Ok t' /\
    journal_rows (journal c') = journal_rows (journal c) ++ linked_rows /\
    Forall (fun r : JournalRow => ticket_id r = id) linked_rows.
Proof.
  intros Hg Ht Hp Hrec Hauth H. apply (execute_plan_cases settings io _ c id) in H; [|done..].
  destruct (executed_grounded _ _ _ _ _ _ Hg Hp H) as [Hg' _].
  inversion H as [| |now l t' c1 c2 r Hch Hj Hl Hne Hr Hw Hran Ec Er]. subst. clear H.
  destruct (plan_rows_linked _ _ _ _ _ Hp Hl) as [Hids Hnew].
  destruct (projected_references _ _ _ _ _ _ _ _ Hg Hp Hl Hne Hr) as (Hkey & _ & Href & _).
  destruct (reserve_rows_replay _ _ _ _ _ _ _ Hg (po_id _ _ _ _ Hp) Hne Hids Hnew Hr)
    as (_ & _ & [(Hn & _)|(t0 & Ht0 & Hfold)]); [congruence|].
  assert (t0 = t) as -> by congruence. unfold payload_written in Hw. cbn in Hw. subst c1.
  destruct (ran_same _ _ _ _ _ _ _ _ _ Hran) as (Et & Eu & _).
  destruct (ran_all _ _ _ _ _ _ _ _ Hran) as (_ & Hrows & _).
  pose proof (linked_recovery _ _ Hl Hrec) as Hlrec.
  assert (payloads c2 = payloads c) as Epay.
  { destruct (ran_payloads _ _ _ _ _ _ _ _ _ Hran) as [?|[? _]]; done. }
  exists t', l. split_and!; [|by apply linked_events|done|done|done]. split; [done|..]; cbn.
  - by rewrite Hkey, Et.
  - by exists l.
  - unfold old_references in Href. by rewrite Ht in Href.
  - intros id' _. by rewrite Eu, Epay.
  - left. by rewrite Eu.
  - intros Ha. by rewrite (fold_authorized _ _ _ Hfold Ha).
  - intros Hpu. destruct Hauth as [?|Hgone]; [|by left|right; intros q Hq; cbn; rewrite Epay; auto].
    apply (fold_unauthorized _ _ _ Hfold); [|unfold authorized; by rewrite Hpu].
    apply (Forall_impl _ _ _ Hlrec). intros r [_ He] E. rewrite E in He. clear -He. set_solver.
Qed.

(** *** Finishing an intent *)

Lemma completion_recovery t intent now row :
  completion t intent now system_recovery = Ok row ->
  recovery_row row /\ ticket_id row = ticket_key t /\ payload_sequence row = 0 /\ is_intent row = false /\
  event row <> Event_Received /\ event row ∈ completions.
Proof.
  intros H. pose proof (completion_plain _ _ _ _ _ H) as [Hi Hr].
  pose proof (completion_fields _ _ _ _ _ H) as (Hev%completion_event_plain & Hid & Hs).
  split_and!; try done.
  - split; [|set_solver]. unfold completion in H. apply bind_Ok in H as (ev & _ & H).
    by apply bind_Ok in H as (r & (next & _ & ->)%event_row_Ok & [= <-]).
  - unfold completions. set_solver.
Qed.

Lemma recovered_delta_parsed c io t intent v change :
  recovered_delta c io t intent v = Ok change -> delta_parsed change.
Proof.
  unfold recovered_delta. intros (i & _ & H)%bind_Ok. apply bind_Ok in H as (content & _ & H).
  apply bind_Ok in H as (salts & _ & H). by eapply delta_is_parsed.
Qed.

Lemma reapply_grounded io t intent v snap c c' :
  Grounded settings c -> reapply settings io t intent v snap c = (c', Ok tt) ->
  Grounded settings c' /\ journal c' = journal c /\ tickets c' = tickets c /\ payloads c' = payloads c /\
  usage c' = usage c.
Proof.
  intros Hg H. unfold reapply in H.
  apply inspect_bind in H as [(change & Hch & H)|[_ [? [=]]]].
  apply inspect_bind in H as [(applied & _ & H)|[_ [? [=]]]].
  apply method_bind_Ok in H as (c1 & [] & H1 & H). apply stage_cases in H as [-> _].
  destruct applied; [by injection H1 as <-|].
  apply inspect_bind in H1 as [(p & Hp & H1)|[_ [? [=]]]].
  apply commit_rules_cases in H1 as (Hcm & Hj & Hpay & Ht & Hus & _).
  split_and!; [|done..]. destruct Hg as [G1 G2 G3 G4 G5]. split; rewrite ?Hj, ?Ht; [done..|].
  pose proof (change_coherent settings (rules_store c) change (rules_pid (step_plan io)) (rules_counter (step_plan io))
    (rules_run (step_plan io)) (recovered_delta_parsed _ _ _ _ _ _ Hch) G5) as Hcc.
  unfold Rules.change in Hcc. by rewrite Hp, Hcm in Hcc.
Qed.

Lemma completion_pending p (r : JournalRow) : event r ∈ completions -> pending_after p r = None.
Proof.
  unfold pending_after, completions. intros Hc.
  repeat (apply elem_of_cons in Hc as [->|Hc]; [done|]). by apply elem_of_nil in Hc.
Qed.

(** The effect of the intent, before its completion is recorded. *)
Definition intent_done (c : Case) (t : Ticket) (c1 : Case) : Prop :=
  advanced c (ticket_key t) t c1 t /\ tickets c1 = tickets c /\
  (authorized t = true -> purged t = true \/ gone c1 (ticket_key t) t).
Lemma purge_finished io t intent c c1 :
  Grounded settings c -> tickets c !! ticket_key t = Some t -> pending t = Some intent ->
  event intent = Event_PurgeIntent ->
  (_ ← purge_payloads io t; assign (forget_usage (ticket_key t))) c = (c1, Ok tt) -> intent_done c t c1.
Proof.
  intros Hg Ht Hp He H. apply method_bind_Ok in H as (c2 & [] & H2 & [= <-]).
  apply purge_payloads_cases in H2 as (Hpg & Hj & Hr & Htk & Hu & _).
  destruct (co_tickets _ _ Hg _ _ Ht) as (_ & _ & Hrep). pose proof (replay_references _ _ _ Hrep) as Hrange.
  apply payload_purge_effect in Hpg as [Heff Hall]; [|done]. specialize (Hall eq_refl).
  assert (authorized t = true) as Ha.
  { unfold authorized. rewrite Hp, bool_decide_eq_true_2 by done. apply orb_true_r. }
  split_and!; [|done|by right]. split; cbn.
  - destruct Hg as [G1 G2 G3 G4 G5]. split; cbn; rewrite ?Hj, ?Htk, ?Hr; done.
  - by rewrite Htk, insert_id.
  - exists []. by rewrite Hj, app_nil_r.
  - done.
  - intros id' Hid. rewrite lookup_insert_ne, Hu by done. split; [done|]. intros q. by apply (pe_frame _ _ _ _ Heff).
  - right. by rewrite lookup_insert_eq.
  - done.
  - by left.
Qed.
Lemma reapply_finished io t intent v snap c c1 :
  Grounded settings c -> tickets c !! ticket_key t = Some t -> pending t = Some intent ->
  event intent <> Event_PurgeIntent -> reapply settings io t intent v snap c = (c1, Ok tt) -> intent_done c t c1.
Proof.
  intros Hg Ht Hp He H. apply reapply_grounded in H as (G & Hj & Htk & Hpay & Hu); [|done].
  split_and!; [|done|].
  - split; rewrite ?Hj, ?Htk, ?Hpay, ?Hu; try done; [by rewrite insert_id| |by left|by left].
    exists []. by rewrite app_nil_r.
  - unfold authorized. rewrite Hp, bool_decide_eq_false_2, orb_false_r by done. by left.
Qed.

Lemma finish_pending_advances io t v snap c c' :
  Grounded settings c -> tickets c !! ticket_key t = Some t ->
  finish_pending settings io t v snap c = (c', Ok tt) ->
  exists t', advanced c (ticket_key t) t c' t' /\ pending t' = None.
Proof.
  intros Hg Ht H. unfold finish_pending in H.
  apply inspect_bind in H as [(intent & Hp%ok_or_Ok & H)|[_ [? [=]]]].
  apply method_bind_Ok in H as (c1 & [] & H1 & H).
  apply inspect_bind in H as [(finished & Hf & H)|[_ [? [=]]]].
  assert (intent_done c t c1) as (Had & Ht1 & Hauth).
  { case_bool_decide; [by eapply purge_finished|by eapply reapply_finished]. }
  apply completion_recovery in Hf as (Hrec & Hid & Hs & Hi & Hnr & Hc).
  pose proof (ad_grounded _ _ _ _ _ Had) as Hg1. rewrite <- Ht1 in Ht.
  eapply (execute_advances _ c1 (ticket_key t) t [finished]) in H as (t' & rows & Had' & Hev & Hfold & _); [|done|done| |by constructor|done].
  - exists t'. split; [by eapply advanced_trans|]. rewrite (fold_pending _ _ _ Hfold).
    destruct rows as [|r [|]]; try done. cbn in Hev |- *. injection Hev as Hev. apply completion_pending. by rewrite Hev.
  - apply (recovery_plan_ok c1 _ t); [done|done| |by cbn; rewrite Hi|done].
    constructor; [|constructor]. split_and!; [done|done|congruence].
Qed.

(** *** Finishing an admission and a decision *)

Ltac each_row := repeat (apply Forall_cons; split); try apply Forall_nil; try done.

(** A decision that asks for a change of the rules. *)
Definition actionable (d : JournalRow) : Prop :=
  reason_code d <> [] /\ one_of (decision d) ["granted"; "not_intimate_image"; "no_standing"] = true.
(** The latest decision of the ticket asks for a change that was never begun. *)
Definition unactioned (id : str) (rows : list JournalRow) : Prop :=
  exists before d after, rows_of id rows = before ++ d :: after /\ event d = Event_Decided /\ actionable d /\
    Forall (fun r : JournalRow => event r <> Event_Decided /\ event r <> Event_ActionIntent) after.
(** Nothing of the ticket is half done: no operation is pending, the admission
    went on to the queue, and what was decided was acted upon. *)
Record settled (rows : list JournalRow) (t : Ticket) : Prop := {
  st_pending : pending t = None;
  st_admitted : state t <> TicketState_Received /\ state t <> TicketState_Acknowledged;
  st_actioned : state t = TicketState_Decided -> ~ unactioned (ticket_key t) rows;
}.

Lemma decided_before id rows added before (d : JournalRow) after :
  Forall (fun r : JournalRow => event r <> Event_Decided) added ->
  rows_of id (rows ++ added) = before ++ d :: after -> event d = Event_Decided ->
  exists k, rows_of id rows = before ++ d :: k /\ after = k ++ rows_of id added.
Proof.
  intros Hf E Hd. rewrite rows_of_app in E.
  assert (Forall (fun r : JournalRow => event r <> Event_Decided) (rows_of id added)) as Hf'.
  { rewrite Forall_forall in Hf |- *. intros r [_ Hr]%list_elem_of_filter. by apply Hf. }
  symmetry in E. apply app_eq_inv in E as [(k & -> & E)|(k & E & E')].
  - rewrite E in Hf'. apply Forall_app in Hf' as [_ Hf']. by apply Forall_cons in Hf' as [? _].
  - destruct k as [|x k]; cbn in E'.
    + rewrite <- E' in Hf'. by apply Forall_cons in Hf' as [? _].
    + injection E' as <- E'. by exists k.
Qed.
Lemma unactioned_added id rows added :
  Forall (fun r : JournalRow => event r <> Event_Decided) added ->
  unactioned id (rows ++ added) -> unactioned id rows.
Proof.
  intros Hf (before & d & after & E & Hd & Ha & Haf). apply decided_before in E as (k & E & ->); [|done..].
  apply Forall_app in Haf as [Haf _]. by exists before, d, k.
Qed.
Lemma begun_actioned id rows added (r : JournalRow) :
  Forall (fun r : JournalRow => event r <> Event_Decided) added ->
  Forall (fun r : JournalRow => ticket_id r = id) added -> r ∈ added -> event r = Event_ActionIntent ->
  ~ unactioned id (rows ++ added).
Proof.
  intros Hf Hid Hr He (before & d & after & E & Hd & _ & Haf). apply decided_before in E as (k & _ & ->); [|done..].
  apply Forall_app in Haf as [_ Haf]. rewrite (rows_of_all id added) in Haf by done.
  rewrite Forall_forall in Haf. by destruct (Haf r Hr).
Qed.
Lemma settled_added rows added t :
  Forall (fun r : JournalRow => event r <> Event_Decided) added -> settled rows t -> settled (rows ++ added) t.
Proof. intros Hf [Hp Ha Hd]. split; [done|done|]. intros Hs Hu. apply (Hd Hs). by eapply unactioned_added. Qed.
Lemma recovery_row_undecided rows :
  Forall recovery_row rows -> Forall (fun r : JournalRow => event r <> Event_Decided) rows.
Proof. intros H. apply (Forall_impl _ _ _ H). intros r [_ He] E. rewrite E in He. clear -He. set_solver. Qed.

(** The latest element with a property is unique. *)
Lemma latest_unique {A} (P : A -> Prop) l1 x l2 k1 y k2 :
  l1 ++ x :: l2 = k1 ++ y :: k2 -> P x -> P y -> Forall (fun z => ~ P z) l2 -> Forall (fun z => ~ P z) k2 ->
  x = y /\ l2 = k2.
Proof.
  intros E Hx Hy Hl Hk. apply app_eq_inv in E as [(k & -> & E)|(k & -> & E)]; destruct k as [|z k]; cbn in E;
    injection E as -> E; try done; exfalso; subst.
  - apply Forall_app in Hk as [_ Hk]. by apply Forall_cons in Hk as [? _].
  - apply Forall_app in Hl as [_ Hl]. by apply Forall_cons in Hl as [? _].
Qed.
Lemma find_latest {A} (f : A -> bool) l x :
  List.find f (rev l) = Some x ->
  exists l1 l2, l = l1 ++ x :: l2 /\ f x = true /\ Forall (fun y => f y = false) l2.
Proof.
  induction l as [|y l IH] using rev_ind; [done|]. rewrite rev_app_distr. cbn. destruct (f y) eqn:Hy.
  - intros [= <-]. by exists l, [].
  - intros (l1 & l2 & -> & Hx & Hf)%IH. exists l1, (l2 ++ [y]). rewrite <- app_assoc. split_and!; [done|done|].
    apply Forall_app. split; [done|]. by repeat constructor.
Qed.
(** A later row has a greater number. *)
Lemma chain_after now l1 (x r : JournalRow) l2 :
  Chain now (l1 ++ x :: l2) -> r ∈ l1 ++ x :: l2 -> sequence x < sequence r -> r ∈ l2.
Proof.
  intros Hc Hin Hlt. pose proof (link_sequence _ _ _ (Hc l1 x l2 eq_refl)) as Hx.
  apply elem_of_app in Hin as [(a & b & ->)%list_elem_of_split|[->|?]%elem_of_cons]; [|lia|done].
  rewrite <- app_assoc in Hc. cbn in Hc. pose proof (link_sequence _ _ _ (Hc a r _ eq_refl)) as Hr.
  rewrite length_app in Hx. cbn in Hx. lia.
Qed.

Lemma event_row_recovery t ev now row :
  event_row t ev now system_recovery = Ok row -> ev ∈ recovery_events ->
  recovery_row row /\ event row = ev /\ ticket_id row = ticket_key t /\ payload_sequence row = 0.
Proof.
  intros (next & _ & ->)%event_row_Ok Hev. done.
Qed.

Definition events_list (rows : list JournalRow) : list EventName := map (fun r : JournalRow => event r) rows.


(** The rows missing from an admission. *)
Lemma intake_plan_shape c io t v plan :
  Grounded settings c -> tickets c !! ticket_key t = Some t -> intake_plan settings c io t v = Ok plan ->
  exists rows rules protection finishing, plan = recovery_plan rows rules /\
    plan_ok settings c plan (ticket_key t) /\ Forall recovery_row rows /\
    events_list rows = protection ++ finishing ++ [Event_Queued] /\
    (finishing = [] \/ finishing = [Event_Acknowledged]) /\
    (protection = [] \/ exists e, protection = [Event_ActionIntent; e] /\ e ∈ completions).
Proof.
  intros Hg Ht H. unfold intake_plan in H.
  set (fits := fun r : JournalRow => ticket_id r = ticket_key t /\ event r <> Event_Received /\
    (payload_sequence r <> 0 -> is_Some (references t !! payload_sequence r))).
  apply bind_Ok in H as ([rows rules] & Hr & H). apply bind_Ok in H as (queued & Hq & [= <-]).
  apply event_row_recovery in Hq as (Hq1 & Hq2 & Hq3 & Hq4); [|set_solver]. cbn in Hq3.
  assert (fits queued) as Hqf by (split_and!; [done|congruence|congruence]).
  case_bool_decide.
  2:{ injection Hr as <- <-. exists [queued], None, [], []. split_and!; [done| |each_row|by cbn; rewrite Hq2|by left|by left].
      apply (recovery_plan_ok c _ t); [done|done|each_row| |done]. cbn. unfold is_intent. by rewrite Hq2. }
  apply bind_Ok in Hr as ([protection rules'] & Hp & Hr). apply bind_Ok in Hr as (ack & Ha & [= <- <-]).
  apply event_row_recovery in Ha as (Ha1 & Ha2 & Ha3 & Ha4); [|set_solver].
  assert (fits ack) as Haf by (split_and!; [done|congruence|congruence]).
  destruct (_ && _).
  - apply bind_Ok in Hp as (i & _ & Hp). apply bind_Ok in Hp as (row & Hrow & Hp).
    apply event_row_recovery in Hrow as ([Hact _] & Hev & Hid & _); [|set_solver].
    apply bind_Ok in Hp as (commitment_ & Hc1%ok_or_Ok & Hp). apply bind_Ok in Hp as (number & _ & Hp).
    apply bind_Ok in Hp as (effective & _ & Hp). apply bind_Ok in Hp as (change & Hch & Hp).
    apply bind_Ok in Hp as (prepared & Hprep & Hp). apply bind_Ok in Hp as (finished & Hf & [= <- <-]).
    apply completion_recovery in Hf as (Hf1 & Hf2 & Hf3 & Hf4 & Hf5 & Hf6).
    set (intent := with_effective_at _ _) in *.
    assert (fits intent) as Hif by (split_and!; [done|cbn; congruence|intros _; cbn; by eexists]).
    assert (fits finished) as Hff by (split_and!; [done|done|congruence]).
    assert (recovery_row intent) as Hir by (split; [done|cbn; rewrite Hev; set_solver]).
    exists ([intent; finished; ack; queued]), (Some prepared), [Event_ActionIntent; event finished], [Event_Acknowledged].
    split_and!; [done| |each_row| |by right|right; by exists (event finished)].
    + apply (recovery_plan_ok c _ t); [done|done|each_row| |].
      * cbn. unfold is_intent in *. cbn. rewrite Hev. cbn.
        unfold no_intent, is_intent. each_row; by rewrite ?Ha2, ?Hq2.
      * intros p [= <-]. exists change. split; [by eapply delta_is_parsed|done].
    + unfold events_list. cbn. by rewrite Hev, Ha2, Hq2.
  - injection Hp as <- <-. exists [ack; queued], None, [], [Event_Acknowledged].
    split_and!; [done| |each_row|by unfold events_list; cbn; rewrite Ha2, Hq2|by right|by left].
    apply (recovery_plan_ok c _ t); [done|done|each_row| |done].
    cbn. unfold is_intent. by rewrite Ha2, Hq2.
Qed.

Lemma idle_authorized c t :
  pending t = None -> authorized t = true -> purged t = true \/ gone c (ticket_key t) t.
Proof. unfold authorized. intros ->. rewrite orb_false_r. by left. Qed.

Lemma finish_intake_advances io t v c c' :
  Grounded settings c -> tickets c !! ticket_key t = Some t -> pending t = None ->
  finish_intake settings io t v c = (c', Ok tt) ->
  exists t', advanced c (ticket_key t) t c' t' /\ settled (journal_rows (journal c')) t'.
Proof.
  intros Hg Ht Hpend H. unfold finish_intake in H.
  apply inspect_bind in H as [(plan & Hplan & H)|[_ [? [=]]]].
  apply intake_plan_shape in Hplan as (rows & rules & protection & finishing & -> & Hok & Hrec & Hev & Hfin & Hprot); [|done..].
  eapply (execute_advances _ c (ticket_key t) t) in H as (t' & l & Had & Hl & Hfold & _); [|done..|by apply idle_authorized].
  exists t'. split; [done|]. fold (events_list rows) in Hl. fold (events_list l) in Hl. rewrite Hev in Hl.
  assert (state t' = TicketState_Queued) as Hst.
  { pose proof (fold_state _ _ _ Hfold) as Hs. fold (events_list l) in Hs. rewrite Hl, app_assoc in Hs.
    clear -Hs. revert Hs. generalize (state t). induction (protection ++ finishing) as [|e es IH]; intros s H; cbn in H.
    - apply bind_Ok in H as (n & Hn & [= <-]). by destruct s; cbn in Hn; try done; injection Hn as <-.
    - apply bind_Ok in H as (n & _ & H). eauto. }
  split; [|by rewrite Hst|by rewrite Hst]. rewrite (fold_pending _ _ _ Hfold), Hpend.
  assert (forall k, events_list k = finishing ++ [Event_Queued] -> foldl pending_after None k = None) as Htail.
  { intros k Hk. destruct Hfin as [->| ->]; destruct k as [|x [|y [|]]]; cbn in Hk; try done; injection Hk; intros;
      cbn; unfold pending_after; repeat match goal with Hx : event _ = _ |- _ => rewrite Hx end; done. }
  destruct Hprot as [->|(e & -> & He)]; [by apply Htail|].
  destruct l as [|x [|y l]]; try done. cbn in Hl. injection Hl as Hx Hy Hl. cbn [foldl].
  rewrite (completion_pending _ y) by (by rewrite Hy). by apply Htail.
Qed.

(** A decision that recovery leaves alone needs nothing more. *)
Lemma no_plan_actioned c io t v :
  Grounded settings c -> decision_plan settings c io t v = Ok None -> ~ unactioned (ticket_key t) (journal_rows (journal c)).
Proof.
  intros Hg H (before & d & after & E & Hd & [Hreason Hkind] & Haf).
  destruct (co_journal _ _ Hg) as [now Hj]. pose proof (cons_chain _ _ Hj) as Hch.
  unfold decision_plan in H. apply bind_Ok in H as (x & Hx%ok_or_Ok & H).
  apply find_latest in Hx as (l1 & l2 & Hl & [Hmine%str_eqb_eq Hev%bool_decide_eq_true]%andb_true_iff & Hf).
  assert (x = d /\ rows_of (ticket_key t) l2 = after) as [-> Eafter].
  { apply (latest_unique (fun r : JournalRow => event r = Event_Decided) (rows_of (ticket_key t) l1) _ _ before).
    - rewrite <- E, Hl, rows_of_app. f_equal. unfold rows_of. by rewrite filter_cons_True.
    - done.
    - done.
    - rewrite Forall_forall in Hf |- *. intros r [Hr Hin]%list_elem_of_filter Her. specialize (Hf r Hin).
      unfold of_ticket, event_is in Hf. rewrite Hr, str_eqb_refl, bool_decide_eq_true_2 in Hf; done.
    - apply (Forall_impl _ _ _ Haf). by intros r [? _]. }
  assert (is_empty (reason_code d) = false) as Hne by (by apply is_empty_false).
  rewrite Hne, Hkind in H. cbn [negb orb] in H. destruct (existsb _ _) eqn:Hex.
  2:{ by repeat (apply bind_Ok in H as (? & _ & H)). }
  apply existsb_exists in Hex as (r & Hin%list_elem_of_In & Hr). bool_to_prop. unfold of_ticket, event_is in *.
  apply str_eqb_eq in H0. apply bool_decide_eq_true in H2. rewrite Hl in Hin, Hch.
  apply (chain_after _ _ _ _ _ Hch) in Hin; [|done]. rewrite Forall_forall in Haf.
  destruct (Haf r) as [_ Hno]; [|done]. rewrite <- Eafter. unfold rows_of. by apply list_elem_of_filter.
Qed.

Lemma finish_decision_advances io t v c c' :
  Grounded settings c -> tickets c !! ticket_key t = Some t -> pending t = None -> state t = TicketState_Decided ->
  finish_decision settings io t v c = (c', Ok tt) ->
  exists t', advanced c (ticket_key t) t c' t' /\ settled (journal_rows (journal c')) t'.
Proof.
  intros Hg Ht Hpend Hst H. unfold finish_decision in H.
  apply inspect_bind in H as [(plan & Hplan & H)|[_ [? [=]]]].
  destruct plan as [plan|].
  2:{ injection H as <-. exists t. split; [by apply advanced_refl|]. split; [done|by rewrite Hst|].
      intros _. by eapply no_plan_actioned. }
  unfold decision_plan in Hplan. apply bind_Ok in Hplan as (row & Hfind%ok_or_Ok & Hplan).
  apply find_some in Hfind as [Hin Hmine]. apply andb_true_iff in Hmine as [Hmine _].
  unfold of_ticket in Hmine. apply str_eqb_eq in Hmine.
  destruct (_ || _); [done|]. apply bind_Ok in Hplan as (i & _ & Hplan). apply bind_Ok in Hplan as (number & _ & Hplan).
  apply bind_Ok in Hplan as (change & Hch & Hplan). apply bind_Ok in Hplan as (prepared & Hprep & Hplan).
  apply bind_Ok in Hplan as (finished & Hf & [= <-]). set (intent := with_effective_at _ _) in *.
  apply completion_recovery in Hf as (Hf1 & Hf2 & Hf3 & Hf4 & Hf5 & Hf6).
  assert (payload_sequence row <> 0 -> is_Some (references t !! payload_sequence row)) as Href.
  { destruct (co_tickets _ _ Hg _ _ Ht) as (_ & _ & Hrep). apply (replay_mentions _ _ row Hrep).
    unfold rows_of. apply list_elem_of_filter. split; [done|]. by apply list_elem_of_In, in_rev. }
  eapply (execute_advances _ c (ticket_key t) t) in H as (t' & l & Had & Hl & Hfold & Hrows & Hids); [|done|done| | |by apply idle_authorized].
  - exists t'. split; [done|]. destruct l as [|x [|y [|]]]; try done. cbn in Hl. injection Hl as Hx Hy.
    split; [rewrite (fold_pending _ _ _ Hfold); cbn; apply completion_pending; by rewrite Hy| |].
    + apply fold_state in Hfold. cbn in Hfold. rewrite Hx, Hy, Hst in Hfold. cbn in Hfold.
      apply bind_Ok in Hfold as (n & Hn & [= <-]). destruct (event finished); cbn in Hn; try done; injection Hn as <-; done.
    + intros _. rewrite Hrows. rewrite (advanced_key _ _ _ _ _ Had). apply (begun_actioned _ _ _ x); [|done|by left|done].
      constructor; [by rewrite Hx|]. constructor; [|constructor]. rewrite Hy. intros E. clear -E Hf6. rewrite E in Hf6.
      unfold completions in Hf6. set_solver.
  - apply (recovery_plan_ok c _ t); [done|done| |by cbn; unfold no_intent; each_row|].
    + each_row.
    + intros p [= <-]. exists change. split; [by eapply recovered_delta_parsed|done].
  - constructor; [|by constructor]. split; [done|]. cbn. set_solver.
Qed.

(** *** All tickets *)

Lemma reconcile_ticket_advances io v snap t c c' :
  Grounded settings c -> tickets c !! ticket_key t = Some t ->
  reconcile_ticket settings io v snap t c = (c', Ok tt) ->
  exists t', advanced c (ticket_key t) t c' t' /\ settled (journal_rows (journal c')) t'.
Proof.
  intros Hg Ht H. unfold reconcile_ticket in H. apply method_bind_Ok in H as (c1 & [] & H1 & H).
  assert (exists t1, advanced c (ticket_key t) t c1 t1 /\ pending t1 = None) as (t1 & Had & Hp1).
  { destruct (pending t) eqn:Hp; [by eapply finish_pending_advances|].
    apply inspect_Ok in H1 as [-> _]. exists t. split; [by apply advanced_refl|done]. }
  apply inspect_bind in H as [(current & Hcur%ok_or_Ok & H)|[_ [? [=]]]].
  pose proof (ad_grounded _ _ _ _ _ Had) as Hg1.
  assert (tickets c1 !! ticket_key t = Some t1) as Ht1.
  { rewrite (ad_tickets _ _ _ _ _ Had). by rewrite lookup_insert_eq. }
  assert (current = t1) as -> by congruence.
  destruct (co_tickets _ _ Hg1 _ _ Ht1) as (_ & Hk & _). rewrite <- Hk in Ht1.
  assert (forall c2, (exists t2, advanced c1 (ticket_key t1) t1 c2 t2 /\ settled (journal_rows (journal c2)) t2) ->
    exists t', advanced c (ticket_key t) t c2 t' /\ settled (journal_rows (journal c2)) t') as Hthen.
  { intros c2 (t2 & Ha2 & Hs2). exists t2. split; [|done]. rewrite Hk in Ha2. by eapply advanced_trans. }
  destruct (state t1) eqn:Hs; try (apply Hthen; by eapply finish_intake_advances);
    try (apply Hthen; by eapply finish_decision_advances); injection H as <-; exists t1;
    (split; [done|]); by split; rewrite ?Hs.
Qed.

(** What holds of the owner while recovery runs: as [Coherent], but the
    revisions of a ticket whose purge was started may be missing. *)
Record Recovering (c : Case) : Prop := {
  rc_grounded :> Grounded settings c;
  rc_revisions : forall id t q h, tickets c !! id = Some t -> authorized t = false ->
    references t !! q = Some h -> readable (payloads c) id q h;
  rc_purged : forall id t, tickets c !! id = Some t -> purged t = true -> gone c id t;
  rc_usage : forall id t, tickets c !! id = Some t ->
    default 0 (usage c !! id) = revision_bytes (payloads c) id (references t);
  rc_unknown : forall id, tickets c !! id = None -> default 0 (usage c !! id) = 0;
}.
Lemma advanced_recovering c id t c' t' :
  Recovering c -> tickets c !! id = Some t -> advanced c id t c' t' -> Recovering c'.
Proof.
  intros [Hg R1 R2 R3 R4] Ht Had. pose proof (fun H => gone_advanced _ _ _ _ _ H Had) as Hgone.
  destruct Had as [G Tk _ E O A L P]. split; [done|..].
  - intros id' x q h. rewrite Tk. destruct (decide (id' = id)) as [->|Hne].
    + rewrite lookup_insert_eq. intros [= <-] Ha. rewrite E. destruct A as [[_ ->]|(_ & _ & ?)]; [|congruence].
      apply R1; [done|]. destruct (authorized t); [by rewrite L in Ha|done].
    + rewrite lookup_insert_ne by done. intros Hx Ha Hq. apply (readable_ext (payloads c)); [by apply O|by eapply R1].
  - intros id' x. rewrite Tk. destruct (decide (id' = id)) as [->|Hne].
    + rewrite lookup_insert_eq. intros [= <-] Hp. apply (gone_ext _ _ t); [done|].
      destruct (P Hp) as [Hold|?]; [|done]. by apply Hgone, R2.
    + rewrite lookup_insert_ne by done. intros Hx Hp q Hq. destruct (O id' Hne) as [_ ->]. by apply (R2 id' x).
  - intros id' x. rewrite Tk. destruct (decide (id' = id)) as [->|Hne].
    + rewrite lookup_insert_eq. intros [= <-]. rewrite E. destruct A as [[-> ->]|(-> & Hz & _)]; [by apply R3|].
      cbn. by rewrite revision_bytes_gone.
    + rewrite lookup_insert_ne by done. destruct (O id' Hne) as [-> Hf]. intros Hx.
      rewrite (revision_bytes_ext (payloads c)) by (intros; by apply Hf). by apply R3.
  - intros id'. rewrite Tk. destruct (decide (id' = id)) as [->|Hne]; [by rewrite lookup_insert_eq|].
    rewrite lookup_insert_ne by done. destruct (O id' Hne) as [-> _]. apply R4.
Qed.
Lemma recovering_coherent c :
  Recovering c -> (forall id t, tickets c !! id = Some t -> pending t = None) -> Coherent settings c.
Proof.
  intros [Hg R1 R2 R3 R4] Hs. split; [done| |intros id t q Ht Hp; by apply (R2 id t)|done..].
  intros id t q h Ht Hp. apply R1; [done|]. unfold authorized. by rewrite (Hs id t Ht), Hp.
Qed.

Lemma reconcile_tickets_settles io v snap ts c c' :
  Recovering c -> NoDup (map ticket_key ts) ->
  Forall (fun t => tickets c !! ticket_key t = Some t) ts ->
  reconcile_tickets settings io v snap ts c = (c', Ok tt) ->
  Recovering c' /\
  (exists added, journal_rows (journal c') = journal_rows (journal c) ++ added /\ Forall recovery_row added) /\
  (forall id, id ∉ map ticket_key ts -> tickets c' !! id = tickets c !! id) /\
  (forall t, t ∈ ts -> exists t', tickets c' !! ticket_key t = Some t' /\ settled (journal_rows (journal c')) t').
Proof.
  revert c. induction ts as [|t ts IH]; intros c Hg Hnd Hall H; cbn in H.
  { injection H as <-. split_and!; [done|by exists []; rewrite app_nil_r|done|by intros t ?%elem_of_nil]. }
  apply method_bind_Ok in H as (c1 & [] & H1 & H). cbn in Hnd. apply NoDup_cons in Hnd as [Hnot Hnd].
  apply Forall_cons in Hall as [Ht Hall].
  apply reconcile_ticket_advances in H1 as (t' & Had & Hset); [|by destruct Hg|done].
  pose proof (advanced_recovering _ _ _ _ _ Hg Ht Had) as Hg1. destruct Had as [_ Gt (a1 & Gr & Gf) _ _ _ _ _].
  destruct (IH c1) as (Hg' & (a2 & Hr2 & Hf2) & Hout & Hin); [done|done| |done|].
  { rewrite Forall_forall in Hall |- *. intros x Hx. rewrite Gt, lookup_insert_ne; [auto|].
    intros E. apply Hnot. rewrite E. by apply list_elem_of_fmap_2. }
  split_and!; [done| | |].
  - exists (a1 ++ a2). rewrite Hr2, Gr, <- app_assoc. split; [done|]. by apply Forall_app.
  - intros id Hid. cbn in Hid. apply not_elem_of_cons in Hid as [Hne Hid]. rewrite (Hout id Hid).
    by rewrite Gt, lookup_insert_ne.
  - intros x [->|Hx]%elem_of_cons; [|auto]. rewrite (Hout _ Hnot), Gt, lookup_insert_eq. exists t'. split; [done|].
    rewrite Hr2. apply settled_added; [by apply recovery_row_undecided|done].
Qed.

Lemma prepare_one_later j now now' row row' :
  now <= now' -> prepare_one j now row = Ok row' -> prepare_one j now' row = Ok row'.
Proof.
  intros Hle E. unfold prepare_one in *. apply bind_Ok in E as (l & Hl & Hrow). apply bind_Ok. exists l. split; [|done].
  unfold prepare_rows in *. by eapply prepare_from_later.
Qed.
Lemma finish_recovery_later j at_ now now' append_now io j' :
  now <= now' -> finish_recovery j at_ now append_now io = (j', Ok tt) ->
  finish_recovery j at_ now' append_now io = (j', Ok tt).
Proof.
  intros Hle. unfold finish_recovery. destruct (recovered_tail j) as [t|]; [|done].
  set (u := {| unsigned := set_recovery _ _ _; row_hash := [] |}). set (j0 := {| disk := disk j; recovered_tail := None |}).
  destruct (prepare_one j0 now u) as [row|e] eqn:E; [|done]. by rewrite (prepare_one_later j0 now now' u row).
Qed.

Lemma ticket_list_keys c : Grounded settings c -> NoDup (map ticket_key (ticket_list c)).
Proof.
  intros Hg. unfold ticket_list. rewrite map_map.
  set (l := stable_sort _ (map_to_list (tickets c))).
  assert (l ≡ₚ map_to_list (tickets c)) as Hl by apply stable_sort_perm.
  assert (map (fun e : str * Ticket => ticket_key e.2) l = map fst l) as ->.
  { apply map_ext_in. intros [id t] Hin%list_elem_of_In. rewrite Hl in Hin. apply elem_of_map_to_list in Hin.
    by destruct (co_tickets _ _ Hg _ _ Hin) as (_ & Hk & _). }
  change (map fst l) with (l.*1). rewrite Hl. apply NoDup_fst_map_to_list.
Qed.

Lemma append_tracked_config j now io row progress j' progress' r :
  append_tracked j now io row progress = (j', progress', r) -> Journal.config j' = Journal.config j.
Proof. unfold append_tracked. intros H. repeat (case_match; simplify_eq; try done). Qed.
Lemma finish_recovery_config j at_ now append_now io j' r :
  finish_recovery j at_ now append_now io = (j', r) -> Journal.config j' = Journal.config j.
Proof.
  unfold finish_recovery. destruct (match recovered_tail j with None => _ | Some _ => _ end) as [j1 rec] eqn:E. intros H.
  assert (Journal.config j1 = Journal.config j) as <-.
  { destruct (recovered_tail j); [|by injection E as <- _]. destruct (prepare_one _ _ _); [|by injection E as <- _].
    unfold append in E. destruct (append_tracked _ _ _ _ _) as [[j2 p2] r2] eqn:Ha. injection E as <- _.
    by apply append_tracked_config in Ha. }
  destruct rec; [|by injection H as <- _]. destruct (scan_quarantines _ _); [|by injection H as <- _].
  destruct (write_head _ _ _). by injection H as <- _.
Qed.

(** Rows of no ticket leave the cases as they are. *)
Lemma grounded_added c j' p now added :
  Grounded settings c -> Consistent now j' -> Journal.config j' = Journal.config (journal c) ->
  journal_rows j' = journal_rows (journal c) ++ added -> Forall (fun r : JournalRow => ticket_id r = []) added ->
  Grounded settings (set_journal j' p c).
Proof.
  intros [G1 _ G3 G4 G5] Hc Hcfg Hr Hf. split; cbn; [congruence|by eexists| | |done].
  - intros id t Ht. destruct (G3 id t Ht) as (Hne & Hk & Hrep). rewrite Hr, rows_of_app, (rows_of_none id added), app_nil_r; [done|].
    apply (Forall_impl _ _ _ Hf). intros r ->. congruence.
  - rewrite Hr. apply Forall_app. split; [done|]. apply (Forall_impl _ _ _ Hf). intros r ?. by left.
Qed.
Lemma finish_tail_grounded io c c' :
  Grounded settings c -> finish_tail io c = (c', Ok tt) ->
  Grounded settings c' /\ tickets c' = tickets c /\ payloads c' = payloads c /\ usage c' = usage c /\
  exists added, journal_rows (journal c') = journal_rows (journal c) ++ added /\
    Forall (fun r : JournalRow => event r = Event_TailRecovered) added.
Proof.
  intros Hg H. destruct (co_journal _ _ Hg) as [now G2]. unfold finish_tail in H.
  destruct (finish_recovery _ _ _ _ _) as [j r] eqn:E. injection H as <- ->.
  pose proof (finish_recovery_config _ _ _ _ _ _ _ E) as Hcfg.
  apply (finish_recovery_later _ _ _ (Z.max now (tail_now io))) in E; [|lia].
  apply (finish_recovery_accounts (Z.max now (tail_now io))) in E as (Hc & _ & _ & Hrows);
    [|apply (Consistent_later now); [lia|done]].
  assert (exists added, journal_rows j = journal_rows (journal c) ++ added /\
    Forall (fun r : JournalRow => event r = Event_TailRecovered /\ ticket_id r = []) added) as (added & Hr & Hf).
  { destruct (recovered_tail (journal c)); [|exists []; by rewrite app_nil_r].
    destruct Hrows as (row & Hr & He & Hid & _). exists [row]. split; [done|]. by constructor. }
  split_and!; [|done|done|done|].
  - eapply grounded_added; [done|exact Hc|done|exact Hr|]. apply (Forall_impl _ _ _ Hf). by intros r [_ ?].
  - exists added. split; [done|]. apply (Forall_impl _ _ _ Hf). by intros r [? _].
Qed.

(** *** Recovery as a whole *)

(** The listing is that of the directory, and of a ticket the journal says was
    purged no revision is left. *)
Definition files_listed (io : RecoverIo) (c : Case) : Prop :=
  listing_of (inventory_io io) (payloads c) /\
  forall id t, Replay settings (rows_of id (journal_rows (journal c))) t -> purged t = true -> gone c id t.

Lemma verify_lengths io c v : verify_payloads settings io c = Ok v -> measured (payloads c) (lengths v).
Proof.
  unfold verify_payloads. intros (v' & Hv & H)%bind_Ok. apply bind_Ok in H as (h & _ & [= <-]). clear h.
  assert (forall t ts v v', Inventory.measured (payloads c) (lengths v) ->
    try_fold (verify_revision c io t) v ts = Ok v' -> Inventory.measured (payloads c) (lengths v')) as Hone.
  { intros t ts. induction ts as [|[q h] ts IH]; intros v1 v2 Hm H; cbn in H; [by injection H as <-|].
    apply bind_Ok in H as (v3 & H1 & H). eapply IH; [|exact H]. unfold verify_revision in H1.
    apply bind_Ok in H1 as (found & Hr & H1). destruct found as [[content len]|]; [|by injection H1 as <-].
    assert (lengths v3 = <[(ticket_key t, q) := len]> (lengths v1)) as ->.
    { destruct (q =? 1); [destruct content|]; try done; by injection H1 as <-. }
    apply read_length in Hr as Hlen. intros id k n. destruct (decide ((ticket_key t, q) = (id, k))) as [[= <- <-]|Hne].
    - rewrite lookup_insert_eq. by intros [= <-].
    - rewrite lookup_insert_ne by done. apply Hm. }
  revert Hv. assert (measured (payloads c) (lengths {| intakes := ∅; lengths := ∅ |})) as Hm.
  { intros id q n. cbn. by rewrite lookup_empty. }
  revert Hm. generalize {| intakes := ∅; lengths := ∅ |}. induction (ticket_list c) as [|t ts IH]; intros v Hm H; cbn in H.
  { by injection H as <-. }
  apply bind_Ok in H as (v1 & H1 & H). apply (IH v1); [|done]. unfold verify_ticket in H1.
  apply bind_Ok in H1 as (v2 & H2 & H1). eapply (Hone t) in H2; [|done]. destruct (authorized t); [by injection H1 as <-|].
  apply bind_Ok in H1 as (i & _ & H1). by apply bind_Ok in H1 as (u & _ & [= <-]).
Qed.

Lemma replay_parsed l t : Replay settings l t -> is_ok (TicketId_parse (ticket_key t)) = true.
Proof.
  induction 1 as [row t Hr|rows t row t' _ IH Ha]; [|apply apply_Ok, ap_key in Ha; by rewrite Ha].
  unfold received in Hr. apply bind_Ok in Hr as (? & _ & Hr). apply bind_Ok in Hr as (id & Hid & Hr).
  apply bind_Ok in Hr as (? & _ & Hr). apply bind_Ok in Hr as (? & _ & [= <-]). cbn.
  apply Transitions.parse_ticket_id in Hid as E. subst id. by rewrite Hid.
Qed.

Lemma referenced_keys c id t :
  Grounded settings c -> tickets c !! id = Some t ->
  forall q, (id, q) ∈ referenced_revisions c <-> q ∈ map fst (map_to_list (references t)).
Proof.
  intros Hg Ht q. unfold referenced_revisions. rewrite elem_of_list_to_set, list_elem_of_In, in_concat. split.
  - intros (l & (x & <- & Hx)%in_map_iff & Hin). apply list_elem_of_In, elem_of_ticket_list in Hx as [id' Hx].
    destruct (co_tickets _ _ Hg _ _ Hx) as (_ & Hk & _). apply in_map_iff in Hin as (e & [= E <-] & Hin).
    assert (x = t) as -> by congruence. apply list_elem_of_In, in_map_iff. eauto.
  - intros (e & -> & Hin)%list_elem_of_fmap. exists (map (fun e => (ticket_key t, e.1)) (map_to_list (references t))).
    destruct (co_tickets _ _ Hg _ _ Ht) as (_ & Hk & _). split.
    + apply in_map_iff. exists t. split; [done|]. apply list_elem_of_In, elem_of_ticket_list. eauto.
    + apply in_map_iff. exists e. split; [by rewrite Hk|]. by apply list_elem_of_In.
Qed.
Lemma unreferenced c id : Grounded settings c -> tickets c !! id = None -> forall q, (id, q) ∉ referenced_revisions c.
Proof.
  intros Hg Hn q. unfold referenced_revisions. rewrite elem_of_list_to_set, list_elem_of_In, in_concat.
  intros (l & (x & <- & Hx)%in_map_iff & Hin). apply list_elem_of_In, elem_of_ticket_list in Hx as [id' Hx].
  destruct (co_tickets _ _ Hg _ _ Hx) as (_ & Hk & _). apply in_map_iff in Hin as (e & [= E <-] & Hin). congruence.
Qed.

Lemma count_usage_recovering io c v c' :
  Grounded settings c -> verify_payloads settings io c = Ok v -> files_listed io c ->
  count_usage io v c = (c', Ok tt) -> Recovering c' /\ journal c' = journal c /\ tickets c' = tickets c.
Proof.
  intros Hg Hv [Hl Hgone] H. unfold count_usage in H.
  destruct (inventory _ _ _ _ _) as [d [totals|e]] eqn:Hi; [|done]. injection H as <-.
  assert (forall id t q, tickets c !! id = Some t -> is_Some (references t !! q) ->
    payload_file d id q = payload_file (payloads c) id q) as Hkept.
  { intros id t q Ht [h Hq]. unfold inventory in Hi. destruct (negb _); [done|].
    destruct (co_tickets _ _ Hg _ _ Ht) as (_ & Hk & Hrep).
    pose proof (replay_references _ _ _ Hrep q h Hq) as Hrange. cbn in Hrange.
    eapply count_tickets_keeps; [| |exact Hi]; [lia|]. apply (referenced_keys c id t Hg Ht).
    apply list_elem_of_fmap. exists (q, h). split; [done|]. by apply elem_of_map_to_list. }
  split_and!; [|done|done]. split; cbn.
  - by destruct Hg; split.
  - intros id t q h Ht Ha Hq. apply (readable_ext (payloads c)); [by eapply Hkept|].
    destruct (co_tickets _ _ Hg _ _ Ht) as (_ & Hk & _). by eapply verify_payloads_reads.
  - intros id t Ht Hp q Hq. cbn. rewrite (Hkept id t q) by done.
    destruct (co_tickets _ _ Hg _ _ Ht) as (_ & Hk & Hrep). by apply (Hgone id t).
  - intros id t Ht. destruct (co_tickets _ _ Hg _ _ Ht) as (_ & Hk & Hrep).
    rewrite (revision_bytes_ext (payloads c)) by (intros; by eapply Hkept).
    rewrite (inventory_counts _ _ _ _ _ _ id (map fst (map_to_list (references t))) Hl (verify_lengths _ _ _ Hv) Hi).
    + unfold file_bytes, revision_bytes. by rewrite (foldr_fmap _ _ _ fst).
    + rewrite <- Hk. by eapply replay_parsed.
    + apply NoDup_fst_map_to_list.
    + apply Forall_forall. intros q ([q' h] & -> & Hin%elem_of_map_to_list)%list_elem_of_fmap.
      by apply (replay_references _ _ _ Hrep q' h).
    + by apply referenced_keys.
  - intros id Hn. destruct (is_ok (TicketId_parse id)) eqn:Hok.
    + rewrite (inventory_counts _ _ _ _ _ _ id [] Hl (verify_lengths _ _ _ Hv) Hi Hok); [done|constructor|constructor|].
      intros q. split; [intros Hin; by apply unreferenced in Hin|by intros ?%elem_of_nil].
    + by rewrite (inventory_unknown _ _ _ _ _ _ id Hl Hi Hok).
Qed.

Lemma reconcile_settles io c c' :
  opened_case c -> files_listed io c -> reconcile settings io c = (c', Ok tt) ->
  Coherent settings c' /\
  (exists added, journal_rows (journal c') = journal_rows (journal c) ++ added /\
     Forall (fun r : JournalRow => recovery_row r \/ event r = Event_TailRecovered) added) /\
  (forall id t, tickets c' !! id = Some t -> settled (journal_rows (journal c')) t).
Proof.
  intros Ho Hfiles H. unfold reconcile in H.
  apply inspect_bind in H as [(ts & Hts & H)|[_ [? [=]]]]. apply (rebuild_grounded c ts Ho) in Hts as Hg1.
  apply method_bind_Ok in H as (c1 & [] & [= <-] & H). set (c1 := set_tickets ts (usage c) c) in *.
  apply inspect_bind in H as [(v & Hv & H)|[_ [? [=]]]].
  apply inspect_bind in H as [(snap & _ & H)|[_ [? [=]]]].
  apply method_bind_Ok in H as (c2 & [] & H2 & H).
  apply inspect_bind in H as [(u & _ & H)|[_ [? [=]]]].
  apply inspect_bind in H as [(all & [= <-] & H)|[_ [? [=]]]].
  apply method_bind_Ok in H as (c3 & [] & H3 & H).
  apply count_usage_recovering in H2 as (Hg2 & Hj2 & Ht2); [|exact Hg1|exact Hv|exact Hfiles].
  apply reconcile_tickets_settles in H3 as (Hg3 & (added & Hr3 & Hf3) & Hout & Hin);
    [|done|apply ticket_list_keys; by destruct Hg2|].
  2:{ apply Forall_forall. intros t [id Hid]%elem_of_ticket_list. by destruct (co_tickets _ _ Hg2 _ _ Hid) as (_ & -> & _). }
  apply finish_tail_grounded in H as (Hg & Htk & Hpay & Hus & added' & Hr & Hf); [|by destruct Hg3].
  assert (forall id t, tickets c' !! id = Some t -> settled (journal_rows (journal c')) t) as Hset.
  { rewrite Hr. intros id t Ht. apply settled_added; [apply (Forall_impl _ _ _ Hf); by intros r ->|].
    revert id t Ht. intros id t' Ht'. rewrite Htk in Ht'. destruct (tickets c2 !! id) as [t|] eqn:Hid.
    - destruct (Hin t) as (t'' & Hl & Hs); [apply elem_of_ticket_list; eauto|].
      destruct (co_tickets _ _ Hg2 id t Hid) as (_ & Hkey & _). rewrite Hkey in Hl. by assert (t'' = t') as <- by congruence.
    - rewrite Hout in Ht'; [congruence|]. intros (t & -> & [id' Hid']%elem_of_ticket_list)%list_elem_of_fmap.
      destruct (co_tickets _ _ Hg2 _ _ Hid') as (_ & Hk & _). congruence. }
  split_and!; [|exists (added ++ added'); rewrite Hr, Hr3, Hj2, <- app_assoc; split; [done|]|done].
  - apply recovering_coherent; [|intros id t Ht; apply (st_pending _ _ (Hset id t Ht))]. destruct Hg3 as [_ R1 R2 R3 R4].
    split; [done|..]; unfold gone in *; rewrite ?Htk, ?Hpay, ?Hus; done.
  - apply Forall_app. split; [apply (Forall_impl _ _ _ Hf3); by left|apply (Forall_impl _ _ _ Hf); by right].
Qed.
End Theorems.
