(* ===== verification/Startup.v ===== *)
(** * Opening the store

    [ComplianceStore::open] of [compliance/tickets.rs] with
    [Journal::open_unpublished]: the private list, the serving rules, the journal
    and the recovery of the cases, in that order. *)

From S2P Require Import Prelude Text Externals Disk Compliance Canonical ComplianceModel.
From S2P Require Import Listed Rules Journal Payload JournalRow RowFields Transitions Tickets Transactions Owner.
From S2P Require Import Inventory Recovery.

#[local] Open Scope Z_scope.

(** The entries of the journal's directory, each with whether opening and
    unlinking it succeed. The staging files are not part of [JournalDisk]: nothing
    reads them. *)
Record SweepIo := { sweep_listed : bool; sweep_names : list (str * bool); sweep_synced : bool }.
Definition journal_temp (name : str) : bool := owned_temp_name name [lit "head"; lit "recovery"].
Fixpoint sweep_temps (entries : list (str * bool)) (removed : bool) : cres bool :=
  match entries with
  | [] => Ok removed
  | (name, unlinked) :: entries' =>
      if negb (journal_temp name) then sweep_temps entries' removed
      else if unlinked : bool then sweep_temps entries' true else Err Unavailable
  end.
Definition sweep_journal (io : SweepIo) : cres unit :=
  _ ← refuse_if (negb (sweep_listed io)) Unavailable;
  removed ← sweep_temps (sweep_names io) false;
  refuse_if (removed && negb (sweep_synced io)) Unavailable.

(** [journal_fresh] is whether the directory did not exist. *)
Record JournalOpenIo := {
  journal_fresh : bool;
  owner_locked : bool;
  sweep_io : SweepIo;
  init_create : bool; init_sync : bool; init_dir_sync : bool; init_head : HeadIo;
  journal_now : Z;
  journal_load : LoadIo;
}.

Record StoreDisk := {
  listed_file : list Z;
  rules_disk : RulesDisk;
  journal_disk : JournalDisk;
  payload_disk : PayloadDisk;
}.
Record StoreOpenIo := {
  list_readable : bool; list_hook : bool;
  rules_fresh : bool; rules_locked : bool; rules_entries : list (str * bool); rules_synced : bool;
  rules_readable : bool; open_pid : Z; open_counter : Z; open_run : PersistRun; open_utc : Z;
  journal_open_io : JournalOpenIo;
  recover_io : RecoverIo;
  access_at : Z; access_now : Z; access_append_now : Z; access_io : AppendIo;
}.

Section Startup.
Context `{U : UrlOps} `{T : Tokenizing} `{D : Digest} `{C : Chrono}.
Context `{J : Json} `{RJ : RulesJson} `{JT : JsonText} `{PJ : PayloadJson}.
Context (settings : ComplianceConfig) (set_from_slice : list Z -> option FileSet).

Definition open_unpublished (io : JournalOpenIo) (d : JournalDisk) : JournalDisk * cres Journal :=
  if negb (owner_locked io) then (d, Err Unavailable)
  else match sweep_journal (sweep_io io) with
  | Err e => (d, Err e)
  | Ok _ =>
      if journal_fresh io
      then initialize settings (init_create io) (init_sync io) (init_dir_sync io) (init_head io)
      else load settings (journal_now io) (journal_load io) d
  end.
(** [Journal::open], of the readers of the journal alone. *)
Definition journal_open (io : JournalOpenIo) (at_ now append_now : Z) (recovery : RecoveryIo) (d : JournalDisk)
    : JournalDisk * cres Journal :=
  match open_unpublished io d with
  | (d, Err e) => (d, Err e)
  | (_, Ok j) =>
      let (j, r) := finish_recovery j at_ now append_now recovery in
      (Journal.disk j, _ ← r; Ok j)
  end.

Definition new_case (j : Journal) (d : PayloadDisk) (rules : RulesStore) (disabled : bool) : Case := {|
  journal := j; payloads := d; tickets := ∅; usage := ∅; rules_store := rules;
  writes_disabled := disabled; write_progress := false |}.
Definition record_list (io : StoreOpenIo) (m : ListedMetadata) : method Case Error unit := fun c =>
  match listed_hashes_file settings with
  | None => (c, Ok tt)
  | Some _ =>
      let (j, r) := record_list_access (journal c) (access_at io) (access_now io) (access_append_now io)
                      (access_io io) (metadata_version m) (metadata_urls m) (metadata_hosts m) in
      (set_journal j (write_progress c) c, r)
  end.
(** The recovery of the cases; the rules may have changed when it fails. *)
Definition open_cases (io : StoreOpenIo) (m : ListedMetadata) (disabled : bool) (d : StoreDisk)
    (rules : RulesStore) : StoreDisk * RulesStore * cres Case :=
  let on_disk jd pd rules := {| listed_file := listed_file d; rules_disk := Rules.disk rules;
                                journal_disk := jd; payload_disk := pd |} in
  match open_unpublished (journal_open_io io) (journal_disk d) with
  | (jd, Err e) => (on_disk jd (payload_disk d) rules, rules, Err e)
  | (_, Ok j) =>
      let (c, r) := (_ ← reconcile settings (recover_io io); record_list io m)
                      (new_case j (payload_disk d) rules disabled) in
      (on_disk (Journal.disk (journal c)) (payloads c) (rules_store c), rules_store c, _ ← r; Ok c)
  end.

Record ComplianceStore := { store_state : CaseState; store_rules : RulesStore }.
Definition ComplianceStore_open (io : StoreOpenIo) (disabled : bool) (d : StoreDisk)
    : StoreDisk * cres ComplianceStore :=
  match ListedMatcher_load settings (list_readable io) (list_hook io) (listed_file d) set_from_slice with
  | Err e => (d, Err e)
  | Ok listed =>
      let (rd, opened) := store_open settings (rules_fresh io) (rules_locked io) (rules_entries io)
        (rules_synced io) (rules_readable io) (rules_disk d) listed (open_pid io) (open_counter io)
        (open_run io) (open_utc io) in
      let d := {| listed_file := listed_file d; rules_disk := rd; journal_disk := journal_disk d;
                  payload_disk := payload_disk d |} in
      match opened with
      | Err e => (d, Err e)
      | Ok rules =>
          match open_cases io (metadata listed) disabled d rules with
          | (d, rules, Ok c) =>
              (d, Ok {| store_state := {| case := Some c; case_unavailable := false |}; store_rules := rules |})
          | (d, _, Err RulesUnavailable) => (d, Err RulesUnavailable)
          | (d, rules, Err _) =>
              (d, Ok {| store_state := {| case := None; case_unavailable := true |}; store_rules := rules |})
          end
      end
  end.
End Startup.

(** ** Theorems *)

Section Theorems.
Context `{U : UrlOps} `{T : Tokenizing} `{D : Digest} `{C : Chrono}.
Context `{J : Json} `{JL : !JsonLaws J} `{RJ : RulesJson} `{RJL : !RulesJsonLaws RJ}.
Context `{JT : JsonText} `{PJ : PayloadJson}.
Context (settings : ComplianceConfig) (set_from_slice : list Z -> option FileSet).

(** *** The journal *)

Lemma replace_quarantine_frame io name bytes d d' r :
  replace_quarantine io name bytes d = (d', r) -> quarantines_bounded d -> Z.of_nat (length bytes) <= 8192 ->
  head_file d' = head_file d /\ events_file d' = events_file d /\ quarantines_bounded d'.
Proof.
  unfold replace_quarantine. destruct (negb _); intros [= <- <-] Hq Hl; [done|]. split_and!; [done|done|].
  apply Forall_cons. split; [done|]. apply Forall_forall. intros f [Hf%list_elem_of_In _]%list_elem_of_In%filter_In.
  unfold quarantines_bounded in Hq. rewrite Forall_forall in Hq. by apply Hq.
Qed.
Lemma quarantine_tail_frame io t head d d' :
  quarantine_tail io t head d = (d', Ok tt) -> quarantines_bounded d -> Z.of_nat (length (tail_bytes t)) <= 8192 ->
  head_file d' = head_file d /\ events_file d' = take (Z.to_nat (head_bytes head)) (events_file d) /\
  quarantines_bounded d'.
Proof.
  unfold quarantine_tail. set (name := quarantine_name _ _). intros H Hq Hl.
  assert (forall d1 r, replace_quarantine io name (tail_bytes t) d = (d1, r) ->
    head_file d1 = head_file d /\ events_file d1 = events_file d /\ quarantines_bounded d1) as Hr.
  { intros d1 r Hd. by eapply replace_quarantine_frame. }
  destruct (if negb _ then _ else _) as [d1 [u|e]] eqn:E; [|done].
  assert (head_file d1 = head_file d /\ events_file d1 = events_file d /\ quarantines_bounded d1) as (<- & <- & Hq1).
  { destruct (negb _); [done|]. destruct (lookup_file _ _); [|by eapply Hr].
    destruct (read_bounded _ _ _); [|done]. destruct (str_eqb _ _); [by injection E as <-|by eapply Hr]. }
  unfold truncate_events in H. destruct (negb (truncate_open io && truncate_set_len io)); [done|].
  injection H as <- _. done.
Qed.

(** Whatever was verified is a consistent journal of a prefix of the file. *)
Lemma load_sound now io d d' k :
  quarantines_bounded d -> max_journal_bytes settings <= u64_max -> load settings now io d = (d', Ok k) ->
  Consistent now k /\ Journal.config k = settings /\
  exists torn, events_file d = rows_bytes (journal_rows k) ++ torn.
Proof.
  intros Hq Hu H. unfold load in H. destruct (_ ← _; _) as [v|e] eqn:E; [|done].
  apply bind_Ok in E as (h & Hh & E). apply bind_Ok in E as (bytes & Hb & Hv%verify_bytes_sound).
  unfold read_bounded in Hb. apply bind_Ok in Hb as (? & _ & Hb).
  apply bind_Ok in Hb as (? & Hcap%map_err_Ok%validate_range_Ok & [= <-]).
  destruct Hv as [Hch He Hl Hcheck Hcp Ht].
  assert (published d h) as Hpub.
  { unfold read_head in Hh. apply bind_Ok in Hh as (file & Hr & Hh). apply bind_Ok in Hh as (? & _ & Hh).
    apply bind_Ok in Hh as (h' & _ & Hh). apply bind_Ok in Hh as (? & _ & Hh).
    apply bind_Ok in Hh as (json & Hj%ok_or_Ok & Hh). apply bind_Ok in Hh as (? & Hok%refuse_if_Ok & [= ->]).
    apply orb_false_iff in Hok as [Hver%negb_false_iff%Z.eqb_eq Hjs%negb_false_iff%str_eqb_eq].
    unfold read_bounded in Hr. apply bind_Ok in Hr as (? & _ & Hr). apply bind_Ok in Hr as (? & _ & [= <-]).
    split; [done|]. by exists json. }
  rewrite Hl in H. assert (bytes_len (rows v) <= max_journal_bytes settings) as Hle.
  { rewrite He, length_app in Hcap. unfold bytes_len. lia. }
  destruct (tail v) as [b|] eqn:Etail.
  - destruct (quarantine_tail _ _ _ _) as [d1 [[]|e]] eqn:Eq; [|done]. injection H as <- <-.
    apply quarantine_tail_frame in Eq as (Ehf & Eev & Hq'); [|done|by destruct Ht].
    cbn. split_and!; [|done|by exists (default [] (Some b))]. split; cbn; try done.
    + rewrite Eev, He. cbn. unfold bytes_len. by rewrite Nat2Z.id, take_app_length.
    + exists h. unfold published. by rewrite Ehf.
  - injection H as <- <-. cbn. split_and!; [|done|by exists []]. split; cbn; try done.
    + by rewrite He, app_nil_r.
    + by exists h.
Qed.
(** *** A first start *)

Lemma initialize_sound create sync dir_sync io d k now :
  0 <= max_journal_bytes settings <= u64_max ->
  initialize settings create sync dir_sync io = (d, Ok k) ->
  Consistent now k /\ Journal.config k = settings /\ journal_rows k = [].
Proof.
  intros Hu H. unfold initialize in H. destruct (negb _); [done|].
  destruct (write_head _ _ _) as [d1 r] eqn:Hw. injection H as -> Hk. apply bind_Ok in Hk as ([] & -> & [= <-]).
  apply write_head_cases in Hw as (Hev & Hqs & [[_ ?]|Hp]); [done| |done].
  cbn. split_and!; [|done|done]. split; cbn; [apply Chain_nil|done|done| | |unfold bytes_len; cbn; lia|lia].
  - exists Head_empty. split; [done|]. by apply Checkpoint_nil.
  - unfold quarantines_bounded. rewrite Hqs. constructor.
Qed.

(** The rows the journal was opened with: a chain, the lines of the file up to
    a torn end. *)
Definition rows_on_disk (io : StoreOpenIo) (d : StoreDisk) (l : list JournalRow) : Prop :=
  if journal_fresh (journal_open_io io) then l = []
  else exists now torn, Chain now l /\ events_file (journal_disk d) = rows_bytes l ++ torn.
Lemma open_unpublished_sound io d d' k :
  quarantines_bounded (journal_disk d) -> 0 <= max_journal_bytes settings <= u64_max ->
  open_unpublished settings (journal_open_io io) (journal_disk d) = (d', Ok k) ->
  (exists now, Consistent now k) /\ Journal.config k = settings /\ rows_on_disk io d (journal_rows k).
Proof.
  intros Hq Hu H. unfold open_unpublished in H. unfold rows_on_disk. destruct (negb _); [done|].
  destruct (sweep_journal _); [|done]. destruct (journal_fresh _).
  - apply (initialize_sound _ _ _ _ _ _ 0) in H as (Hc & ? & ?); [|done]. eauto.
  - apply load_sound in H as (Hc & ? & torn & ?); [|done|lia]. split_and!; [eauto|done|].
    exists (journal_now (journal_open_io io)), torn. split; [apply Hc|done].
Qed.

(** *** The list *)

Lemma record_list_access_added now j at_ now' append_now io version urls hosts j' :
  Consistent now j -> record_list_access j at_ now' append_now io version urls hosts = (j', Ok tt) ->
  Consistent (Z.max now now') j' /\ Journal.config j' = Journal.config j /\
  exists row : JournalRow, journal_rows j' = journal_rows j ++ [row] /\ event row = Event_ListAccessed /\ ticket_id row = [].
Proof.
  intros Hc H. unfold record_list_access in H. destruct (_ ← _; _) as [row|e] eqn:E; [|done].
  apply bind_Ok in E as (row' & Hp & E). apply bind_Ok in E as (bytes & _ & E). apply bind_Ok in E as (u & _ & [= ->]).
  apply (prepare_one_later j now' (Z.max now now')) in Hp; [|lia].
  apply (Consistent_later now (Z.max now now')) in Hc; [|lia].
  unfold prepare_one in Hp. apply bind_Ok in Hp as (l & Hp & Hh%ok_or_Ok). destruct l as [|row' rest]; [done|].
  injection Hh as ->. destruct (prepare_links _ _ _ _ _ _ Hc Hp) as [Hlk Hun].
  unfold append in H. destruct (append_tracked _ _ _ _ _) as [[j1 p1] r1] eqn:Ha. injection H as -> ->.
  apply (append_tracked_effect (Z.max now now')) in Ha as (Hcfg & _ & Hok & _); [|done|done].
  destruct (Hok eq_refl) as (Hc1 & Hr1 & _). split_and!; [done|done|]. exists row. split; [done|]. by rewrite Hun.
Qed.

Lemma record_list_coherent io m c c' :
  Coherent settings c -> record_list settings io m c = (c', Ok tt) ->
  Coherent settings c' /\ tickets c' = tickets c /\ rules_store c' = rules_store c /\
  exists added, journal_rows (journal c') = journal_rows (journal c) ++ added /\
    Forall (fun r : JournalRow => event r = Event_ListAccessed) added.
Proof.
  intros Hc H. unfold record_list in H. destruct (listed_hashes_file settings).
  2:{ injection H as <-. split_and!; [done..|]. exists []. by rewrite app_nil_r. }
  destruct (record_list_access _ _ _ _ _ _ _ _) as [j r] eqn:E. injection H as <- ->.
  destruct (co_journal _ _ Hc) as [now Hj].
  destruct (record_list_access_added now _ _ _ _ _ _ _ _ _ Hj E) as (Hj' & Hcfg & row & Hr & He & Hid).
  split_and!; [|done|done|exists [row]; split; [done|by constructor]].
  destruct Hc as [Hg R1 R2 R3 R4]. split; [|done..].
  exact (grounded_added settings c j _ _ [row] Hg Hj' Hcfg Hr (proj2 (Forall_singleton _ _) Hid)).
Qed.

(** *** The store *)

Lemma store_open_coherent fresh locked entries synced io d l pid sequence run utc d' s :
  store_open settings fresh locked entries synced io d l pid sequence run utc = (d', Ok s) -> coherent settings s.
Proof.
  unfold store_open. destruct (negb locked); [done|]. destruct (sweep_owned_temps _ _ _) as [d1 []]; [|done].
  apply opened_coherent.
Qed.

Lemma replay_purged l t :
  Replay settings l t -> purged t = true -> Exists (fun r : JournalRow => event r = Event_Purged) l.
Proof.
  induction 1 as [row t Hr|rows t row t' _ IH Ha]; intros Hp.
  { unfold received in Hr. repeat (apply bind_Ok in Hr as (? & _ & Hr)). by injection Hr as <-. }
  apply Exists_app. apply apply_Ok, ap_operation in Ha. unfold operation_spec in Ha. destruct (event_in _ intents).
  { left. apply IH. by destruct Ha as (_ & _ & _ & <- & _). }
  destruct (event_in _ completions); [|left; apply IH; by destruct Ha as (_ & <- & _)].
  right. destruct Ha as (i & _ & _ & _ & E & _). rewrite E in Hp. apply bool_decide_eq_true in Hp. by constructor.
Qed.

Definition startup_row (r : JournalRow) : Prop :=
  recovery_row r \/ event r = Event_TailRecovered \/ event r = Event_ListAccessed.

(** The disk a store is opened on: the quarantined lines are within their cap,
    the inventory reads the directory, and of a ticket whose purge is recorded no
    revision is left. *)
Record openable (io : StoreOpenIo) (d : StoreDisk) : Prop := {
  op_quarantines : quarantines_bounded (journal_disk d);
  op_listing : listing_of (inventory_io (recover_io io)) (payload_disk d);
  op_purged : forall jd j id t q,
    open_unpublished settings (journal_open_io io) (journal_disk d) = (jd, Ok j) ->
    Replay settings (rows_of id (journal_rows j)) t -> purged t = true -> is_Some (references t !! q) ->
    payload_file (payload_disk d) id q = None;
}.

Lemma open_cases_coherent io m disabled d rules d' rules' c :
  0 <= max_journal_bytes settings <= u64_max -> openable io d -> coherent settings rules ->
  open_cases settings io m disabled d rules = (d', rules', Ok c) ->
  Coherent settings c /\ rules' = rules_store c /\
  (forall id t, tickets c !! id = Some t -> settled (journal_rows (journal c)) t) /\
  exists l added, rows_on_disk io d l /\ journal_rows (journal c) = l ++ added /\ Forall startup_row added.
Proof.
  intros Hu [Hq Hl Hp] Hr H. unfold open_cases in H.
  destruct (open_unpublished _ _ _) as [jd [j|e]] eqn:Hj; [|done].
  apply open_unpublished_sound in Hj as Hopened; [|done..]. destruct Hopened as (Hcons & Hcfg & Hrows).
  destruct ((_ ← reconcile settings (recover_io io); record_list settings io m) (new_case j (payload_disk d) rules disabled))
    as [c1 r] eqn:Hrun. injection H as <- <- Hc.
  apply bind_Ok in Hc as ([] & -> & [= ->]). apply method_bind_Ok in Hrun as (c2 & [] & H1 & H2).
  apply reconcile_settles in H1 as (Hc2 & (a1 & Hr1 & Hf1) & Hs); [|done|].
  2:{ split; [exact Hl|]. intros id t Hrep Hpu q. by apply (Hp jd j). }
  apply record_list_coherent in H2 as (Hc & Ht & Hrs & a2 & Hr2 & Hf2); [|done].
  split_and!; [done|done| |].
  { intros id t. rewrite Ht, Hr2. intros Htk. apply settled_added; [|by eapply Hs].
    apply (Forall_impl _ _ _ Hf2). by intros r ->. }
  exists (journal_rows j), (a1 ++ a2). split_and!; [done| |].
  - by rewrite Hr2, Hr1, <- app_assoc.
  - apply Forall_app. unfold startup_row. split; [apply (Forall_impl _ _ _ Hf1); naive_solver|].
    apply (Forall_impl _ _ _ Hf2); naive_solver.
Qed.

End Theorems.
