(* ===== verification/StartupReference.v ===== *)
(** * Opening the store on a concrete disk

    A report of intimate images is admitted and the process stops after its
    protection was committed to the rules and before that was recorded; the store
    is opened on what is left. *)

From S2P Require Import Prelude Text Externals Disk Compliance Canonical ComplianceModel.
From S2P Require Import Listed Rules Journal Payload PayloadReference Inventory JournalRow RowFields Transitions Tickets.
From S2P Require Import Transactions Owner OwnerReference Recovery Startup.

#[local] Open Scope Z_scope.

Module StartupWitness.
Import PayloadReference OwnerWitness.

Definition plan_at_time (now byte : Z) (completes : bool) : PlanIo :=
  let io := plan_io (env_at_time now byte) in
  {| plan_now := now; payload_io := payload_io io; before_completion := fun _ => completes;
     append_now := append_now io; append_io := append_io io; after_intent := after_intent io;
     rules_pid := 7; rules_counter := byte; rules_run := all_done; purge_io := purge_io io;
     after_rules := after_rules io |}.
Definition stopping : Env :=
  let env := env_at_time 1000 170 in
  {| env_at := 1000; draft_now := 1000; draws := draws env; intake_io := intake_io env;
     plan_io := plan_at_time 1000 170 false |}.
Definition stopped0 := store_admit config0 1000 stopping intake0 state0.
Definition left0 : Case := default case0 (case stopped0.1).
Definition disk0 : StoreDisk := {|
  listed_file := []; rules_disk := Rules.disk (rules_store left0); journal_disk := Journal.disk (journal left0);
  payload_disk := payloads left0 |}.

Definition step0 : StepIo := {|
  step_now := 2000; step_read := read_io_ok; step_after_rules := true; step_plan := plan_at_time 2000 90 true |}.
Definition listing0 : InventoryIo := {|
  root_private := true; root_read := true; root_names := [Some ticket0];
  dir_private := fun _ => true; dir_read := fun _ => true;
  dir_names := fun id => if str_eqb id ticket0 then [file_name 1] else [];
  orphan_read := fun _ _ => true; orphan_remove := fun _ _ => true; orphan_dir_sync := fun _ _ => true |}.
Definition recover0 : RecoverIo := {|
  revision_io := fun _ _ => read_io_ok; row_io := fun _ => read_io_ok; snapshot_read := true;
  inventory_io := listing0; pending_step := fun _ => step0; completed_io := fun _ => read_io_ok;
  intake_step := fun _ => step0; decision_step := fun _ => step0; tail_at := 2000; tail_now := 2000;
  tail_append_now := 2000; tail_io := JournalWitness.recovery_io |}.
Definition journal_open0 : JournalOpenIo := {|
  journal_fresh := false; owner_locked := true;
  sweep_io := {| sweep_listed := true; sweep_names := [(lit "head.7.1.tmp", true)]; sweep_synced := true |};
  init_create := true; init_sync := true; init_dir_sync := true; init_head := head_io_ok;
  journal_now := 2000; journal_load := load_io_ok |}.
Definition open0 : StoreOpenIo := {|
  list_readable := true; list_hook := true; rules_fresh := false; rules_locked := true; rules_entries := [];
  rules_synced := true; rules_readable := true; open_pid := 8; open_counter := 1; open_run := all_done;
  open_utc := 2000; journal_open_io := journal_open0; recover_io := recover0; access_at := 2000;
  access_now := 2000; access_append_now := 2000; access_io := append_ok |}.
Definition no_list (_ : list Z) : option FileSet := None.
Definition reopened0 := ComplianceStore_open config0 no_list open0 false disk0.

(** ** The disk that is left *)

Definition revision0_bytes : list Z := default [] (payload_file (payload_disk disk0) ticket0 1).
Lemma revision0_alone :
  bool_decide (payload_disk disk0 = {[ticket0 := {[file_name 1 := revision0_bytes]}]}) = true.
Proof. vm_compute. reflexivity. Qed.
Lemma quarantines0 : is_empty (quarantines (journal_disk disk0)) = true.
Proof. vm_compute. reflexivity. Qed.
(** No purge is recorded. *)
Definition loaded0 : list JournalRow :=
  match (open_unpublished config0 journal_open0 (journal_disk disk0)).2 with Ok j => journal_rows j | Err _ => [] end.
Lemma unpurged0 : forallb (fun r : JournalRow => negb (bool_decide (event r = Event_Purged))) loaded0 = true.
Proof. vm_compute. reflexivity. Qed.
Lemma reopened0_available :
  match reopened0.2 with Ok s => negb (case_unavailable (store_state s)) | Err _ => false end = true.
Proof. vm_compute. reflexivity. Qed.

Lemma listing0_of : listing_of listing0 (payload_disk disk0).
Proof.
  pose proof revision0_alone as E%bool_decide_eq_true. rewrite E. clear E. split_and!.
  - repeat constructor. by intros ?%elem_of_nil.
  - intros id. cbn [root_names listing0]. rewrite list_elem_of_singleton. split.
    + intros [= ->]. by rewrite lookup_singleton_eq.
    + intros [x [<- _]%lookup_singleton_Some]. done.
  - intros id. cbn [dir_names listing0]. unfold directory. destruct (str_eqb id ticket0) eqn:Hid.
    + apply str_eqb_eq in Hid as ->. rewrite lookup_singleton_eq. cbn [default]. split; [repeat constructor; by intros ?%elem_of_nil|].
      intros n. rewrite list_elem_of_singleton. unfold default, from_option. unfold id. split; [intros ->; by rewrite lookup_singleton_eq|].
      by intros [x [<- _]%lookup_singleton_Some].
    + assert (id <> ticket0) as Hne by (intros ->; rewrite str_eqb_refl in Hid; discriminate Hid).
      rewrite lookup_singleton_ne by congruence. cbn. split; [constructor|]. intros n. rewrite lookup_empty.
      split; [by intros ?%elem_of_nil|by intros [? ?]].
Qed.
Lemma disk0_openable : openable config0 open0 disk0.
Proof.
  split.
  - unfold quarantines_bounded. rewrite (proj1 (is_empty_true _) quarantines0). constructor.
  - exact listing0_of.
  - intros jd j id t q Hj Hrep Hp _. exfalso. apply replay_purged in Hrep as (r & Hr & He)%Exists_exists; [|exact Hp].
    unfold rows_of in Hr. apply list_elem_of_filter in Hr as [_ Hr]. pose proof unpurged0 as H. unfold loaded0 in H.
    change journal_open0 with (journal_open_io open0) in H. rewrite Hj in H. cbn [snd] in H.
    rewrite forallb_forall in H. apply list_elem_of_In, H in Hr. rewrite He in Hr. discriminate Hr.
Qed.

End StartupWitness.
