(* ===== verification/FileStore.v ===== *)
(** * Sequences of items in files ([crates/file-store], [crates/simple-wal])

    Fixed-size encodings, the length-prefixed iterable store with the buffered
    writer under it, the fixed-size iterable store, the random-access store and
    the write-ahead log. A panic of the reading thread is a value: [None] where
    only that can go wrong, [Panicked] in an iteration. *)

From S2P Require Import Prelude Text.

#[local] Open Scope Z_scope.

(** ** Little-endian integers *)

(** [to_le_bytes] of an [n]-byte unsigned integer and [from_le_bytes]. *)
Fixpoint to_le_bytes (n : nat) (v : Z) : list Z :=
  match n with 0%nat => [] | S n => v mod 256 :: to_le_bytes n (v / 256) end.
Fixpoint from_le_bytes (bytes : list Z) : Z :=
  match bytes with [] => 0 | b :: bytes => b + 256 * from_le_bytes bytes end.

Lemma to_le_bytes_length n v : length (to_le_bytes n v) = n.
Proof. revert v; induction n; intros; cbn; auto. Qed.
Lemma from_to_le_bytes n v : 0 <= v < 256 ^ Z.of_nat n -> from_le_bytes (to_le_bytes n v) = v.
Proof.
  revert v; induction n as [|n IH]; intros v Hv; cbn [to_le_bytes from_le_bytes]; [cbn in Hv; lia|].
  rewrite Nat2Z.inj_succ, Z.pow_succ_r in Hv by lia.
  pose proof (Z.div_mod v 256 ltac:(lia)). pose proof (Z.mod_pos_bound v 256 ltac:(lia)).
  rewrite IH; lia.
Qed.

(** [&bytes[start..end]]: [None] is the panic. *)
Definition slice (bytes : list Z) (start len : nat) : option (list Z) :=
  if (start + len <=? length bytes)%nat then Some (take len (drop start bytes)) else None.

Lemma slice_app (l1 l2 l3 : list Z) : slice (l1 ++ l2 ++ l3) (length l1) (length l2) = Some l2.
Proof.
  unfold slice. rewrite !length_app, (proj2 (Nat.leb_le _ _)) by lia.
  by rewrite drop_app_length, take_app_length.
Qed.

(** ** [ConstSerializable] *)

(** The trait: a size, a write into a buffer and a read. [None] is the panic of
    a slice operation on a buffer of another size. *)
Record ConstSerializable (V : Type) := {
  BYTES : nat;
  serialize : V -> list Z -> option (list Z);
  deserialize : list Z -> option V;
}.
Arguments BYTES {V} _.
Arguments serialize {V} _ _ _.
Arguments deserialize {V} _ _.

(** [buf[..src.len()].copy_from_slice(src)]. *)
Definition copy_prefix (src buf : list Z) : option (list Z) :=
  if (length src <=? length buf)%nat then Some (src ++ drop (length src) buf) else None.

(** [impl_const_serializable_num!] for the unsigned types. *)
Definition const_unsigned (n : nat) : ConstSerializable Z := {|
  BYTES := n;
  serialize v buf := copy_prefix (to_le_bytes n v) buf;
  deserialize buf := from_le_bytes <$> slice buf 0 n;
|}.
(** The signed types, in two's complement. *)
Definition const_signed (n : nat) : ConstSerializable Z := {|
  BYTES := n;
  serialize v buf := copy_prefix (to_le_bytes n (v mod 256 ^ Z.of_nat n)) buf;
  deserialize buf :=
    (fun u => if u <? 256 ^ Z.of_nat n / 2 then u else u - 256 ^ Z.of_nat n) ∘ from_le_bytes
      <$> slice buf 0 n;
|}.
(** [Range<u64>], as its start and end. *)
Definition const_range : ConstSerializable (Z * Z) := {|
  BYTES := 16;
  serialize r buf :=
    if (8 <=? length buf)%nat then
      a ← serialize (const_unsigned 8) r.1 (take 8 buf);
      b ← serialize (const_unsigned 8) r.2 (drop 8 buf);
      Some (a ++ b)
    else None;
  deserialize buf :=
    if (8 <=? length buf)%nat then
      a ← deserialize (const_unsigned 8) (take 8 buf);
      b ← deserialize (const_unsigned 8) (drop 8 buf);
      Some (a, b)
    else None;
|}.

Definition serialize_to_vec {V} (S : ConstSerializable V) (v : V) : option (list Z) :=
  serialize S v (replicate (BYTES S) 0).

(** What the stores need of an encoding, for the values in [valid]. *)
Class ConstLaws {V} (S : ConstSerializable V) (valid : V -> Prop) := {
  const_pos : (0 < BYTES S)%nat;
  const_roundtrip v buf :
    valid v -> length buf = BYTES S ->
    exists out, serialize S v buf = Some out /\ length out = BYTES S /\ deserialize S out = Some v;
}.

Lemma slice_whole (l : list Z) n : length l = n -> slice l 0 n = Some l.
Proof. intros <-. unfold slice. cbn. by rewrite Nat.leb_refl, take_ge. Qed.
Lemma copy_whole (src buf : list Z) : length src = length buf -> copy_prefix src buf = Some src.
Proof. intros H. unfold copy_prefix. by rewrite H, Nat.leb_refl, drop_all, app_nil_r. Qed.

#[export] Instance const_unsigned_laws n :
  TCEq (0 <? n)%nat true -> ConstLaws (const_unsigned n) (fun v => 0 <= v < 256 ^ Z.of_nat n).
Proof.
  intros Hn%TCEq_eq%Nat.ltb_lt. split; [done|]. cbn. intros v buf Hv Hl. eexists. split_and!.
  - apply copy_whole. by rewrite to_le_bytes_length.
  - apply to_le_bytes_length.
  - rewrite slice_whole by apply to_le_bytes_length. cbn. by rewrite from_to_le_bytes.
Qed.
#[export] Instance const_signed_laws n :
  TCEq (0 <? n)%nat true ->
  ConstLaws (const_signed n) (fun v => - (256 ^ Z.of_nat n / 2) <= v < 256 ^ Z.of_nat n / 2).
Proof.
  intros Hn%TCEq_eq%Nat.ltb_lt. split; [done|]. cbn. intros v buf Hv Hl.
  set (m := 256 ^ Z.of_nat n) in *.
  assert (0 < m /\ m = 2 * (m / 2)) as [Hm Hhalf].
  { assert (m = 2 * (128 * 256 ^ (Z.of_nat n - 1))) as E.
    { unfold m. replace (Z.of_nat n) with (Z.succ (Z.of_nat n - 1)) at 1 by lia.
      rewrite Z.pow_succ_r by lia. lia. }
    assert (m / 2 = 128 * 256 ^ (Z.of_nat n - 1)) as -> by (rewrite E, Z.mul_comm; by apply Z.div_mul).
    split; [unfold m; lia|done]. }
  pose proof (Z.mod_pos_bound v m Hm) as Hb. eexists. split_and!.
  - apply copy_whole. by rewrite to_le_bytes_length.
  - apply to_le_bytes_length.
  - rewrite slice_whole by apply to_le_bytes_length. cbn. rewrite from_to_le_bytes by done. f_equal.
    destruct (decide (0 <= v)).
    + rewrite Z.mod_small by lia. by rewrite (proj2 (Z.ltb_lt _ _)) by lia.
    + rewrite <- (Z.mod_add v 1 m), Z.mod_small by lia. rewrite (proj2 (Z.ltb_ge _ _)) by lia. lia.
Qed.
#[export] Instance const_range_laws : ConstLaws const_range (fun r => is_u64 r.1 /\ is_u64 r.2).
Proof.
  split; [cbn; lia|]. intros [a b] buf [Ha Hb] Hl. cbn [fst snd] in Ha, Hb. cbn [BYTES const_range] in Hl.
  assert (forall v, is_u64 v -> 0 <= v < 256 ^ Z.of_nat 8) as Hu.
  { intros v Hv. change (256 ^ Z.of_nat 8) with (u64_max + 1). unfold is_u64 in Hv. lia. }
  destruct (const_roundtrip (S := const_unsigned 8) a (take 8 buf)) as (out & E1 & L1 & D1);
    [by apply Hu|rewrite length_take; cbn [BYTES const_unsigned]; lia|].
  destruct (const_roundtrip (S := const_unsigned 8) b (drop 8 buf)) as (out' & E2 & L2 & D2);
    [by apply Hu|rewrite length_drop; cbn [BYTES const_unsigned]; lia|].
  exists (out ++ out'). cbn [BYTES const_unsigned] in L1, L2. cbn [serialize deserialize const_range BYTES fst snd].
  rewrite length_app, Hl. cbn [Nat.leb]. rewrite E1, E2, L1, L2. cbn [Nat.leb Nat.add]. split_and!; [done|done|].
  rewrite take_app_length', drop_app_length' by done. by rewrite D1, D2.
Qed.

(** ** Files and buffered writes *)

Inductive StoreError := IoError | EncodeError | NotFound.

(** An open file: its bytes, where the next write goes, whether it was opened
    for writing, and what the coming system calls do: [Some n] writes [n] bytes
    and fails; past the end of the list they succeed. *)
Record Handle := {
  content : list Z;
  cursor : nat;
  writable : bool;
  faults : list (option nat);
}.
Definition put_bytes (h : Handle) (data : list Z) (rest : list (option nat)) : Handle := {|
  content := take (cursor h) (content h) ++ data ++ drop (cursor h + length data) (content h);
  cursor := cursor h + length data;
  writable := writable h;
  faults := rest;
|}.
(** [File::write_all]: the file, the bytes written, and whether that was all. *)
Definition file_write (h : Handle) (data : list Z) : Handle * nat * bool :=
  if writable h then
    match faults h with
    | Some n :: rest => (put_bytes h (take n data) rest, length (take n data), false)
    | None :: rest => (put_bytes h data rest, length data, true)
    | [] => (put_bytes h data [], length data, true)
    end
  else (h, 0%nat, false).

(** [std::io::BufWriter] with its default capacity. *)
Record BufWriter := { inner : Handle; buffer : list Z }.
Definition CAPACITY : Z := 8192.
Definition zlen {A} (l : list A) : Z := Z.of_nat (length l).
Definition spare_capacity (w : BufWriter) : Z := CAPACITY - zlen (buffer w).

Definition flush_buf : method BufWriter StoreError unit := fun w =>
  if bool_decide (buffer w = []) then (w, Ok tt)
  else let '(h, n, all) := file_write (inner w) (buffer w) in
       ({| inner := h; buffer := drop n (buffer w) |}, if all then Ok tt else Err IoError).
Definition write_to_buffer (data : list Z) : method BufWriter StoreError unit :=
  assign (fun w => {| inner := inner w; buffer := buffer w ++ data |}).
Definition write_inner (data : list Z) : method BufWriter StoreError unit := fun w =>
  let '(h, _, all) := file_write (inner w) data in
  ({| inner := h; buffer := buffer w |}, if all then Ok tt else Err IoError).
Definition write_all (data : list Z) : method BufWriter StoreError unit := fun w =>
  if zlen data <? spare_capacity w then write_to_buffer data w
  else ((if spare_capacity w <? zlen data then flush_buf else mret tt) ≫= fun _ =>
        if CAPACITY <=? zlen data then write_inner data else write_to_buffer data) w.

(** ** The iterable store *)

(** [bincode] with its standard configuration: the encoding of a value, and the
    value at the start of a slice with the bytes it took. *)
Class Bincode (T : Type) := {
  encode_to_vec : T -> option (list Z);
  decode_from_slice : list Z -> option (T * nat);
}.
Class BincodeLaws (T : Type) `{Bincode T} := {
  decode_encode x bytes rest :
    encode_to_vec x = Some bytes -> decode_from_slice (bytes ++ rest) = Some (x, length bytes);
}.

Definition HEADER : nat := 8.

Record WrittenOffset := { written_start : Z; num_bytes : Z }.
Definition written_range (o : WrittenOffset) : Z * Z :=
  (written_start o, written_start o + num_bytes o).

Record IterableStoreWriter := { store_writer : BufWriter; next_start : Z }.
Definition IterableStoreWriter_new (h : Handle) : IterableStoreWriter :=
  {| store_writer := {| inner := h; buffer := [] |}; next_start := 0 |}.

Definition on_writer {A} (m : method BufWriter StoreError A) : method IterableStoreWriter StoreError A :=
  fun s => let '(w, r) := m (store_writer s) in ({| store_writer := w; next_start := next_start s |}, r).

(** Adds to [next_start] as [u64] and reports where the bytes went. *)
Definition advance_start (bytes_written : Z) : method IterableStoreWriter StoreError WrittenOffset :=
  fun s => ({| store_writer := store_writer s;
               next_start := (next_start s + bytes_written) mod 2 ^ 64 |},
            Ok {| written_start := next_start s; num_bytes := bytes_written |}).

Inductive ending := Finished | Panic | OutOfFuel.
Inductive next_item (A : Type) :=
| Stop
| Yield (item : A) (offset : nat)
| Panicked.
Arguments Stop {A}.
Arguments Yield {A} _ _.
Arguments Panicked {A}.

(** [&bytes[start..stop]] with [u64] bounds; [None] is the panic. *)
Definition slice_range (bytes : list Z) (start stop : Z) : option (list Z) :=
  if (start <=? stop) && (stop <=? zlen bytes)
  then Some (take (Z.to_nat (stop - start)) (drop (Z.to_nat start) bytes)) else None.

Section Iterable.
Context `{Bincode T}.

Definition store_write (item : T) : method IterableStoreWriter StoreError WrittenOffset :=
  match encode_to_vec item with
  | None => fun s => (s, Err EncodeError)
  | Some serialized =>
      on_writer (write_all (to_le_bytes HEADER (zlen serialized))) ≫= fun _ =>
      on_writer (write_all serialized) ≫= fun _ =>
      advance_start (Z.of_nat HEADER + zlen serialized)
  end.
Definition store_flush : method IterableStoreWriter StoreError unit := on_writer flush_buf.

(** [IterableStoreReader::next]: the header, the bytes it announces, the item. *)
Definition reader_next (data : list Z) (offset : nat) : next_item T :=
  if (length data <? offset + HEADER)%nat then Stop
  else match slice data offset HEADER with
       | None => Panicked
       | Some header =>
           let start := Z.of_nat (offset + HEADER) in
           let stop := start + from_le_bytes header in
           match slice_range data start stop with
           | None => Panicked
           | Some serialized =>
               match decode_from_slice serialized with
               | Some (item, _) => Yield item (Z.to_nat stop)
               | None => Panicked
               end
           end
       end.
End Iterable.

(** Running an iterator to its end, with what it yielded and how it ended. *)
Fixpoint collect {A} (next : nat -> next_item A) (fuel offset : nat) : list A * ending :=
  match fuel with
  | 0%nat => ([], OutOfFuel)
  | S fuel =>
      match next offset with
      | Stop => ([], Finished)
      | Panicked => ([], Panic)
      | Yield item offset => let '(items, e) := collect next fuel offset in (item :: items, e)
      end
  end.
Definition read_all `{Bincode T} (data : list Z) : list T * ending :=
  collect (reader_next data) (S (length data)) 0.

(** ** The fixed-size stores *)

Section Const.
Context {V : Type} (S : ConstSerializable V).

(** [ConstIterableStoreWriter::write] and [RandomLookupWriter::write] put the
    same bytes; [None] is the panic of [serialize] or of the assertion. *)
Definition const_bytes (item : V) : option (list Z) :=
  buf ← serialize S item (replicate (BYTES S) 0);
  if bool_decide (length buf = BYTES S) then Some buf else None.
Definition const_write (item : V) : option (method IterableStoreWriter StoreError WrittenOffset) :=
  buf ← const_bytes item;
  Some (on_writer (write_all buf) ≫= fun _ => advance_start (Z.of_nat (BYTES S))).

Definition const_reader_next (data : list Z) (offset : nat) : next_item V :=
  if (length data <? offset + BYTES S)%nat then Stop
  else match slice data offset (BYTES S) ≫= deserialize S with
       | Some item => Yield item (offset + BYTES S)
       | None => Panicked
       end.
Definition const_len (data : list Z) : nat := length data / BYTES S.

(** [RandomLookup::get]. *)
Definition lookup_get (data : list Z) (id : Z) : option V :=
  let start := id * Z.of_nat (BYTES S) in
  slice_range data start (start + Z.of_nat (BYTES S)) ≫= deserialize S.
(** [RandomLookupIter::next], over the next identifier. *)
Definition lookup_next (data : list Z) (next_id : nat) : next_item (Z * V) :=
  let start := (next_id * BYTES S)%nat in
  if (length data <=? start)%nat then Stop
  else match slice data start (BYTES S) ≫= deserialize S with
       | Some val => Yield (Z.of_nat next_id, val) (next_id + 1)
       | None => Panicked
       end.
Definition lookup_iter_with_offset (data : list Z) (offset : nat) : list (Z * V) * ending :=
  collect (lookup_next data) (length data + 1) offset.
End Const.

(** ** The write-ahead log *)

(** The log's writer and whether the file it writes to is still the one at the
    log's path. *)
Record Wal := { wal_writer : IterableStoreWriter; wal_linked : bool }.

Definition created (fs : list (option nat)) : Handle :=
  {| content := []; cursor := 0; writable := true; faults := fs |}.
(** [File::open] opens for reading. *)
Definition opened (bytes : list Z) : Handle :=
  {| content := bytes; cursor := 0; writable := false; faults := [] |}.

Definition Wal_open (file : option (list Z)) (fs : list (option nat)) : Wal := {|
  wal_writer := IterableStoreWriter_new (match file with Some bytes => opened bytes | None => created fs end);
  wal_linked := true;
|}.

(** What is at the log's path. *)
Definition wal_file (w : Wal) : option (list Z) :=
  if wal_linked w then Some (content (inner (store_writer (wal_writer w)))) else None.

Definition on_store {A} (m : method IterableStoreWriter StoreError A) : method Wal StoreError A :=
  fun w => let '(s, r) := m (wal_writer w) in ({| wal_writer := s; wal_linked := wal_linked w |}, r).

(** [create]: the outcome of [File::create] and the new file's system calls. *)
Definition Wal_clear (remove_ok : bool) (create : option (list (option nat))) : method Wal StoreError unit :=
  fun w =>
    if negb (wal_linked w) then (w, Err NotFound)
    else if negb remove_ok then (w, Err IoError)
    else match create with
         | None => ({| wal_writer := wal_writer w; wal_linked := false |}, Err IoError)
         | Some fs => ({| wal_writer := IterableStoreWriter_new (created fs); wal_linked := true |}, Ok tt)
         end.

Section Log.
Context `{Bincode T}.

Fixpoint store_write_items (items : list T) : method IterableStoreWriter StoreError unit :=
  match items with
  | [] => mret tt
  | item :: items => store_write item ≫= fun _ => store_write_items items
  end.
Definition Wal_write (item : T) : method Wal StoreError unit :=
  on_store (store_write item ≫= fun _ => store_flush).
Definition Wal_batch_write (items : list T) : method Wal StoreError unit :=
  on_store (store_write_items items ≫= fun _ => store_flush).
Definition Wal_iter (w : Wal) : result StoreError (list T * ending) :=
  match wal_file w with Some data => Ok (read_all data) | None => Err NotFound end.
End Log.

(** ** What reaches the file *)

(** A file being appended to. *)
Definition appending (h : Handle) : Prop := writable h = true /\ cursor h = length (content h).
Definition pending (w : BufWriter) : list Z := content (inner w) ++ buffer w.

Lemma put_bytes_append h data rest :
  appending h -> appending (put_bytes h data rest) /\
  content (put_bytes h data rest) = content h ++ data.
Proof.
  intros [Hw Hc]. unfold appending, put_bytes. cbn. rewrite Hc, firstn_all, drop_ge by lia.
  rewrite app_nil_r, length_app. auto.
Qed.
Lemma file_write_append h data h' n all :
  file_write h data = (h', n, all) -> appending h ->
  appending h' /\ content h' = content h ++ take n data /\ (all = true -> n = length data).
Proof.
  unfold file_write. intros E Ha. rewrite (proj1 Ha) in E. repeat case_match; simplify_eq;
    split_and?; try (by apply put_bytes_append); try done.
  all: rewrite ?firstn_all, ?(proj2 (put_bytes_append _ _ _ Ha)); try done.
  rewrite length_take. f_equal. destruct (decide (n0 <= length data)%nat).
  - by rewrite Nat.min_l by lia.
  - rewrite Nat.min_r by lia. by rewrite !take_ge by lia.
Qed.

(** The state a successful call of the writer leaves, having been given [data],
    and what a failed one may have left in the file. *)
Definition wrote (data : list Z) (w w' : BufWriter) (r : result StoreError unit) : Prop :=
  appending (inner w') /\ content (inner w) `prefix_of` content (inner w') /\
  match r with
  | Ok _ => pending w' = pending w ++ data
  | Err _ => content (inner w') `prefix_of` pending w ++ data
  end.

Lemma flush_buf_wrote w w' r :
  flush_buf w = (w', r) -> appending (inner w) ->
  wrote [] w w' r /\ pending w' = pending w /\ (r = Ok tt -> buffer w' = []).
Proof.
  unfold flush_buf, wrote, pending. intros E Ha. case_bool_decide as Hb.
  { simplify_eq. rewrite app_nil_r. done. }
  destruct (file_write _ _) as [[h n] all] eqn:Ew. simplify_eq. cbn.
  destruct (file_write_append _ _ _ _ _ Ew Ha) as (Ha' & Hc & Hn). rewrite Hc, app_nil_r.
  rewrite <- app_assoc, take_drop. split_and!; try done.
  - by apply prefix_app_r.
  - destruct all; [done|]. exists (drop n (buffer w)). by rewrite <- app_assoc, take_drop.
  - destruct all; [|done]. intros _. rewrite (Hn eq_refl). by apply drop_all.
Qed.
Lemma write_inner_wrote w data w' r :
  write_inner data w = (w', r) -> appending (inner w) -> buffer w = [] -> wrote data w w' r.
Proof.
  unfold write_inner, wrote, pending. intros E Ha Hb. destruct (file_write _ _) as [[h n] all] eqn:Ew.
  simplify_eq. cbn. destruct (file_write_append _ _ _ _ _ Ew Ha) as (Ha' & Hc & Hn).
  rewrite Hb, Hc, !app_nil_r. split_and!; [done|by apply prefix_app_r|].
  destruct all; [by rewrite (Hn eq_refl), firstn_all|]. exists (drop n data).
  by rewrite <- app_assoc, take_drop.
Qed.
Lemma write_to_buffer_wrote w data w' r :
  write_to_buffer data w = (w', r) -> appending (inner w) -> wrote data w w' r.
Proof.
  unfold write_to_buffer, assign, wrote, pending. intros E Ha. simplify_eq. cbn.
  by rewrite app_assoc.
Qed.

Lemma wrote_then d1 d2 w1 w2 w3 u r :
  wrote d1 w1 w2 (Ok u) -> wrote d2 w2 w3 r -> wrote (d1 ++ d2) w1 w3 r.
Proof.
  unfold wrote. intros (_ & H1 & E1) (Ha & H2 & E2). split_and!; [done|by etransitivity|].
  rewrite app_assoc, <- E1. done.
Qed.
Lemma wrote_more d1 d2 w w' e : wrote d1 w w' (Err e) -> wrote (d1 ++ d2) w w' (Err e).
Proof.
  unfold wrote. intros (Ha & H1 & H2). split_and!; [done|done|].
  rewrite app_assoc. by apply prefix_app_r.
Qed.

Lemma write_all_wrote w data w' r :
  write_all data w = (w', r) -> appending (inner w) -> zlen (buffer w) <= CAPACITY ->
  wrote data w w' r /\ (zlen (buffer w') <= CAPACITY).
Proof.
  unfold write_all, spare_capacity. intros E Ha Hcap.
  assert (forall data w w' r, write_to_buffer data w = (w', r) -> appending (inner w) ->
    zlen (buffer w) + zlen data <= CAPACITY -> wrote data w w' r /\ zlen (buffer w') <= CAPACITY) as Hbuf.
  { clear. intros data w w' r E Ha Hc. split; [by eapply write_to_buffer_wrote|].
    unfold write_to_buffer, assign in E. simplify_eq. cbn. unfold zlen in *. rewrite length_app. lia. }
  destruct (Z.ltb_spec (zlen data) (CAPACITY - zlen (buffer w))); [apply (Hbuf _ _ _ _ E Ha); lia|].
  unfold mbind, method_bind in E.
  destruct (Z.ltb_spec (CAPACITY - zlen (buffer w)) (zlen data)) as [Hlt|Hge].
  - destruct (flush_buf w) as [w1 r1] eqn:Ef. destruct (flush_buf_wrote _ _ _ Ef Ha) as (Hw1 & Hp & Hb1).
    destruct r1 as [[]|e]; simplify_eq.
    2: { split; [by apply (wrote_more [])|]. unfold flush_buf in Ef.
         repeat case_match; simplify_eq; cbn; unfold zlen in *; rewrite ?length_drop; lia. }
    specialize (Hb1 eq_refl). destruct (Z.leb_spec CAPACITY (zlen data)) as [Hbig|Hsmall].
    + split; [eapply (wrote_then []); [done|by eapply write_inner_wrote; [|apply Hw1|]]|].
      unfold write_inner in E. repeat case_match; simplify_eq; cbn; by rewrite Hb1.
    + destruct (Hbuf _ _ _ _ E) as [Hw2 Hc2]; [apply Hw1|rewrite Hb1; change (zlen []) with 0; lia|].
      split; [by eapply (wrote_then [])|done].
  - cbn in E. destruct (Z.leb_spec CAPACITY (zlen data)) as [Hbig|Hsmall].
    + assert (buffer w = []) as Hb by (unfold zlen in *; destruct (buffer w); [done|cbn in *; lia]).
      split; [by eapply write_inner_wrote|]. unfold write_inner in E.
      repeat case_match; simplify_eq; cbn; by rewrite Hb.
    + apply (Hbuf _ _ _ _ E Ha). lia.
Qed.

(** ** Records *)

Section Records.
Context `{BincodeLaws T}.

(** The bytes of one item in the file, when it can be encoded. *)
Definition record (item : T) : list Z :=
  let bytes := default [] (encode_to_vec item) in to_le_bytes HEADER (zlen bytes) ++ bytes.
Definition records (items : list T) : list Z := concat (record <$> items).
(** Items whose encodings exist and have lengths that fit the header. *)
Definition encodable (item : T) : Prop :=
  exists bytes, encode_to_vec item = Some bytes /\ zlen bytes <= u64_max.

Lemma records_app l1 l2 : records (l1 ++ l2) = records l1 ++ records l2.
Proof. unfold records. by rewrite fmap_app, concat_app. Qed.

(** The writer between calls. *)
Definition writing (w : BufWriter) : Prop := appending (inner w) /\ zlen (buffer w) <= CAPACITY.
(** [m] hands [data] to the buffered writer, or fails having written part of it. *)
Definition store_writes {A} (m : method IterableStoreWriter StoreError A) (data : list Z) : Prop :=
  forall s s' r, m s = (s', r) -> writing (store_writer s) ->
    writing (store_writer s') /\ wrote data (store_writer s) (store_writer s') (fmap (fun _ => tt) r).

Lemma on_writer_writes data : store_writes (on_writer (write_all data)) data.
Proof.
  intros s s' r E [Ha Hc]. unfold on_writer in E. destruct (write_all _ _) as [w r'] eqn:Ew. simplify_eq.
  destruct (write_all_wrote _ _ _ _ Ew Ha Hc) as [Hw Hc']. split; [by split; [apply Hw|]|].
  by destruct r as [[]|].
Qed.
Lemma bind_writes {A B} (m : method IterableStoreWriter StoreError A) (k : A -> method IterableStoreWriter StoreError B) d1 d2 :
  store_writes m d1 -> (forall a, store_writes (k a) d2) -> store_writes (m ≫= k) (d1 ++ d2).
Proof.
  intros Hm Hk s s' r E Hs. unfold mbind, method_bind in E.
  destruct (m s) as [s1 [a|e]] eqn:E1; destruct (Hm _ _ _ E1 Hs) as [Hs1 Hw1].
  - destruct (Hk _ _ _ _ E Hs1) as [Hs2 Hw2]. split; [done|by eapply wrote_then].
  - simplify_eq. split; [done|by apply wrote_more].
Qed.
Lemma advance_writes n : store_writes (advance_start n) [].
Proof.
  intros s s' r E Hs. unfold advance_start in E. simplify_eq. cbn. split; [done|].
  unfold wrote. rewrite app_nil_r. by split; [apply Hs|].
Qed.
Lemma ret_writes : store_writes (mret tt) [].
Proof.
  intros s s' r E Hs. unfold mret, method_ret in E. simplify_eq. cbn. split; [done|].
  unfold wrote. rewrite app_nil_r. by split; [apply Hs|].
Qed.

Lemma store_write_writes item : store_writes (store_write item) (record item).
Proof.
  unfold store_write, record. destruct (encode_to_vec item) as [bytes|]; cbn [default id].
  - apply bind_writes; [apply on_writer_writes|]. intros _.
    enough (store_writes (on_writer (write_all bytes) ≫= fun _ =>
      advance_start (Z.of_nat HEADER + zlen bytes)) (bytes ++ [])) as Hw by (by rewrite app_nil_r in Hw).
    apply bind_writes; [apply on_writer_writes|]. intros _. apply advance_writes.
  - intros s s' r E Hs. simplify_eq. cbn. split; [done|]. unfold wrote.
    split_and!; [apply Hs|done|]. unfold pending. rewrite <- app_assoc. by apply prefix_app_r.
Qed.
Lemma store_write_items_writes items : store_writes (store_write_items items) (records items).
Proof.
  induction items as [|item items IH]; [apply ret_writes|].
  apply bind_writes; [apply store_write_writes|done].
Qed.
Lemma store_flush_writes s s' r :
  store_flush s = (s', r) -> writing (store_writer s) ->
  writing (store_writer s') /\ wrote [] (store_writer s) (store_writer s') r /\
  (r = Ok tt -> buffer (store_writer s') = []).
Proof.
  intros E [Ha Hc]. unfold store_flush, on_writer in E. destruct (flush_buf _) as [w r'] eqn:Ef. simplify_eq.
  destruct (flush_buf_wrote _ _ _ Ef Ha) as (Hw & _ & Hb). cbn. split_and!; try done.
  split; [apply Hw|]. unfold flush_buf in Ef.
  repeat case_match; simplify_eq; cbn; unfold zlen in *; rewrite ?length_drop; lia.
Qed.

(** Writing and flushing from a flushed writer: all of it, or part of it. *)
Lemma write_flush {A} (m : method IterableStoreWriter StoreError A) data s s' r :
  store_writes m data -> (m ≫= fun _ => store_flush) s = (s', r) ->
  appending (inner (store_writer s)) -> buffer (store_writer s) = [] ->
  let file := content (inner (store_writer s)) in let file' := content (inner (store_writer s')) in
  exists part, file' = file ++ part /\ part `prefix_of` data /\
    (r = Ok tt -> part = data /\ appending (inner (store_writer s')) /\ buffer (store_writer s') = []).
Proof.
  intros Hm E Ha Hb file file'. unfold mbind, method_bind in E.
  assert (writing (store_writer s)) as Hs by (split; [done|by rewrite Hb]).
  assert (wrote data (store_writer s) (store_writer s') r /\
    (r = Ok tt -> buffer (store_writer s') = [])) as [(Ha' & [part Hpart] & Hr) Hbuf].
  { destruct (m s) as [s1 [a|e]] eqn:E1; destruct (Hm _ _ _ E1 Hs) as [Hs1 Hw1]; [|by simplify_eq].
    destruct (store_flush_writes _ _ _ E Hs1) as (_ & Hw2 & Hb2). split; [|done].
    rewrite <- (app_nil_r data). by eapply wrote_then. }
  fold file file' in Hpart. exists part. split; [done|].
  unfold pending in Hr. rewrite Hb, app_nil_r in Hr. fold file file' in Hr. split.
  - destruct r as [[]|e].
    + rewrite (Hbuf eq_refl), app_nil_r, Hpart in Hr. by apply app_inv_head in Hr as ->.
    + rewrite Hpart in Hr. by apply prefix_app_inv in Hr.
  - intros ->. rewrite (Hbuf eq_refl), app_nil_r, Hpart in Hr. apply app_inv_head in Hr as ->. auto.
Qed.

(** ** Reading back *)

(** A proper beginning of the record of some item that can be written. *)
Definition torn (p : list Z) : Prop :=
  exists x, encodable x /\ p `prefix_of` record x /\ (length p < length (record x))%nat.

Lemma record_length x : (HEADER <= length (record x))%nat.
Proof. unfold record. rewrite length_app, to_le_bytes_length. lia. Qed.
Lemma records_length items : (length items <= length (records items))%nat.
Proof.
  induction items as [|x items IH]; [done|]. change (records (x :: items)) with (record x ++ records items).
  rewrite length_app. pose proof (record_length x). unfold HEADER in *. cbn. lia.
Qed.

Lemma header_value n : 0 <= n <= u64_max -> from_le_bytes (to_le_bytes HEADER n) = n.
Proof. intros Hn. apply from_to_le_bytes. change (256 ^ Z.of_nat HEADER) with (u64_max + 1). lia. Qed.

Lemma slice_app_range (l1 l2 l3 : list Z) start stop :
  start = zlen l1 -> stop = zlen l1 + zlen l2 -> slice_range (l1 ++ l2 ++ l3) start stop = Some l2.
Proof.
  intros -> ->. unfold slice_range, zlen. rewrite !length_app.
  rewrite !(proj2 (Z.leb_le _ _)) by lia. cbn [andb].
  replace (Z.to_nat (Z.of_nat (length l1) + Z.of_nat (length l2) - Z.of_nat (length l1)))
    with (length l2) by lia.
  by rewrite Nat2Z.id, drop_app_length, take_app_length.
Qed.

Lemma reader_next_record pre x rest :
  encodable x ->
  reader_next (pre ++ record x ++ rest) (length pre) = Yield x (length (pre ++ record x)).
Proof.
  intros (bytes & Hx & Hlen). unfold reader_next, record. rewrite Hx. cbn [default id].
  set (hd := to_le_bytes HEADER (zlen bytes)).
  assert (length hd = HEADER) as Hhd by apply to_le_bytes_length.
  rewrite <- (app_assoc hd bytes rest). rewrite !length_app, Hhd.
  rewrite (proj2 (Nat.ltb_ge _ _)) by lia. rewrite <- Hhd, slice_app.
  assert (from_le_bytes hd = zlen bytes) as -> by (apply header_value; unfold zlen in *; lia).
  rewrite (app_assoc pre hd). rewrite (slice_app_range (pre ++ hd) bytes rest);
    [|unfold zlen; rewrite length_app; lia|unfold zlen; rewrite length_app; lia].
  pose proof (decode_encode x bytes [] Hx) as Hd. rewrite app_nil_r in Hd. rewrite Hd.
  f_equal. unfold zlen. lia.
Qed.

Lemma reader_next_torn pre p :
  torn p -> reader_next (T := T) (pre ++ p) (length pre) =
    if (length p <? HEADER)%nat then Stop else Panicked.
Proof.
  intros (x & (bytes & Hx & Hlen) & Hpre & Hlt). unfold reader_next, record in *. rewrite Hx in *.
  cbn [default id] in *. set (hd := to_le_bytes HEADER (zlen bytes)) in *.
  assert (length hd = HEADER) as Hhd by apply to_le_bytes_length.
  rewrite !length_app in *. destruct (Nat.ltb_spec (length p) HEADER).
  { by rewrite (proj2 (Nat.ltb_lt _ _)) by lia. }
  rewrite (proj2 (Nat.ltb_ge _ _)) by lia.
  assert (exists q, p = hd ++ q) as [q ->].
  { destruct Hpre as [k Hk]. exists (drop HEADER p).
    rewrite <- (take_drop HEADER p) at 1. f_equal.
    apply (f_equal (take HEADER)) in Hk. rewrite <- Hhd in Hk at 1. rewrite take_app_length in Hk.
    rewrite take_app_le in Hk by lia. done. }
  rewrite <- Hhd, slice_app.
  assert (from_le_bytes hd = zlen bytes) as -> by (apply header_value; unfold zlen in *; lia).
  rewrite length_app in Hlt. unfold slice_range.
  destruct (_ <=? zlen (pre ++ hd ++ q)) eqn:E; [|by rewrite andb_false_r].
  apply Z.leb_le in E. unfold zlen in E. rewrite !length_app in E. lia.
Qed.

Lemma torn_nil : (exists x, encodable x) -> torn [].
Proof.
  intros [x Hx]. exists x. split_and!; [done|by apply prefix_nil|]. pose proof (record_length x).
  unfold HEADER in *. cbn. lia.
Qed.

Lemma collect_records pre items p fuel :
  Forall encodable items -> torn p \/ p = [] -> (length items < fuel)%nat ->
  collect (reader_next (pre ++ records items ++ p)) fuel (length pre) =
    (items, if (length p <? HEADER)%nat then Finished else Panic).
Proof.
  revert pre fuel; induction items as [|x items IH]; intros pre [|fuel] Henc Hp Hfuel; try lia; cbn [collect].
  - change (records []) with (@nil Z). rewrite app_nil_l. destruct Hp as [Hp| ->].
    + rewrite reader_next_torn by done. by destruct (_ <? _)%nat.
    + unfold reader_next. rewrite app_nil_r. by rewrite (proj2 (Nat.ltb_lt _ _)) by (unfold HEADER; lia).
  - apply Forall_cons in Henc as [Hx Hitems].
    change (records (x :: items)) with (record x ++ records items). rewrite <- app_assoc.
    rewrite reader_next_record by done. rewrite app_assoc, IH; [done|done|done|cbn in Hfuel; lia].
Qed.

(** Reading a file of whole records followed by a torn one gives the whole ones
    and ends, unless the torn one has its header, which makes the reader panic. *)
Lemma read_all_torn items p :
  Forall encodable items -> torn p \/ p = [] ->
  read_all (records items ++ p) = (items, if (length p <? HEADER)%nat then Finished else Panic).
Proof.
  intros Henc Hp. unfold read_all. apply (collect_records []); [done|done|].
  rewrite length_app. pose proof (records_length items). lia.
Qed.

(** What is left of the record of the item at [k]: nothing, or a beginning. *)
Definition cut_at (items : list T) (k : nat) (p : list Z) : Prop :=
  p = [] \/ exists x, items !! k = Some x /\ p `prefix_of` record x /\ (length p < length (record x))%nat.
Lemma cut_torn items k p : Forall encodable items -> cut_at items k p -> torn p \/ p = [].
Proof.
  intros Henc [->|(x & Hx & Hp)]; [by right|left]. exists x. split; [|done].
  eapply (Forall_lookup_1 _ _ _ _ Henc Hx).
Qed.
Lemma prefix_records part items :
  part `prefix_of` records items -> exists k p, part = records (take k items) ++ p /\ cut_at items k p.
Proof.
  revert part; induction items as [|x items IH]; intros part Hpre.
  { apply prefix_nil_inv in Hpre as ->. exists 0%nat, []. split; [done|by left]. }
  change (records (x :: items)) with (record x ++ records items) in Hpre.
  destruct (decide (length part < length (record x))%nat) as [Hlt|Hge].
  - exists 0%nat, part. split; [done|right]. exists x. split_and!; [done| |done].
    destruct Hpre as [k Hk]. exists (drop (length part) (record x)).
    apply (f_equal (take (length (record x)))) in Hk. rewrite take_app_length in Hk.
    rewrite Hk, take_app_ge, drop_app_length by lia. done.
  - destruct Hpre as [k Hk]. assert (part = record x ++ drop (length (record x)) part) as Hpart.
    { rewrite <- (take_drop (length (record x)) part) at 1. f_equal.
      apply (f_equal (take (length (record x)))) in Hk. rewrite take_app_length, take_app_le in Hk by lia. done. }
    destruct (IH (drop (length (record x)) part)) as (n & p & Hd & Hp).
    { exists k. rewrite Hpart in Hk. rewrite <- app_assoc in Hk. by apply app_inv_head in Hk. }
    exists (S n), p. split; [|done]. rewrite Hpart, Hd. cbn [take].
    change (records (x :: take n items)) with (record x ++ records (take n items)). by rewrite app_assoc.
Qed.

(** ** The log *)

Inductive wal_op :=
| OpWrite (item : T)
| OpBatch (items : list T)
| OpClear (new_file : list (option nat)).
Definition wal_step (op : wal_op) : method Wal StoreError unit :=
  match op with
  | OpWrite item => Wal_write item
  | OpBatch items => Wal_batch_write items
  | OpClear fs => Wal_clear true (Some fs)
  end.
Fixpoint wal_run (ops : list wal_op) : method Wal StoreError unit :=
  match ops with [] => mret tt | op :: ops => wal_step op ≫= fun _ => wal_run ops end.
Definition op_items (op : wal_op) : list T :=
  match op with OpWrite x => [x] | OpBatch xs => xs | OpClear _ => [] end.
(** The items since the latest clear. *)
Definition log_items (items : list T) (ops : list wal_op) : list T :=
  fold_left (fun items op => match op with OpClear _ => [] | _ => items ++ op_items op end) ops items.

Definition log_ok (w : Wal) (items : list T) : Prop :=
  wal_linked w = true /\ appending (inner (store_writer (wal_writer w))) /\
  buffer (store_writer (wal_writer w)) = [] /\
  content (inner (store_writer (wal_writer w))) = records items /\ Forall encodable items.

Lemma Wal_batch_write_spec w items more w' r :
  log_ok w items -> Forall encodable more -> Wal_batch_write more w = (w', r) ->
  exists k p, wal_file w' = Some (records (items ++ take k more) ++ p) /\ cut_at more k p /\
    (r = Ok tt -> log_ok w' (items ++ more) /\ take k more = more /\ p = []).
Proof.
  intros (Hl & Ha & Hb & Hc & Henc) Hmore E. unfold Wal_batch_write, on_store in E.
  match type of E with context [?m (wal_writer w)] => destruct (m (wal_writer w)) as [s r'] eqn:Es end.
  simplify_eq.
  destruct (write_flush _ _ _ _ _ (store_write_items_writes more) Es Ha Hb) as (part & Hpart & Hpre & Hok).
  unfold wal_file, log_ok. cbn [wal_linked wal_writer]. rewrite Hl, Hpart, Hc.
  destruct r as [[]|e].
  - destruct (Hok eq_refl) as (-> & Ha' & Hb'). exists (length more), [].
    rewrite firstn_all, app_nil_r, records_app. split_and!; [done|by left|].
    intros _. split_and!; try done. by apply Forall_app.
  - destruct (prefix_records _ _ Hpre) as (k & p & -> & Hp). exists k, p.
    rewrite records_app, app_assoc. done.
Qed.
Lemma Wal_write_batch item w : Wal_write item w = Wal_batch_write [item] w.
Proof.
  unfold Wal_write, Wal_batch_write, on_store, store_write_items, mbind, method_bind, mret, method_ret.
  by destruct (store_write item (wal_writer w)) as [s [a|e]].
Qed.

Lemma wal_step_ok op w items w' :
  log_ok w items -> Forall encodable (op_items op) -> wal_step op w = (w', Ok tt) ->
  log_ok w' (log_items items [op]).
Proof.
  intros Hw Henc E. destruct op as [x|xs|fs]; cbn [wal_step op_items log_items fold_left] in *.
  - rewrite Wal_write_batch in E. by edestruct Wal_batch_write_spec as (? & ? & _ & _ & []).
  - by edestruct Wal_batch_write_spec as (? & ? & _ & _ & []).
  - unfold Wal_clear in E. rewrite (proj1 Hw) in E. cbn in E. simplify_eq. by repeat split.
Qed.
Lemma wal_run_ok ops w items w' :
  log_ok w items -> Forall (fun op => Forall encodable (op_items op)) ops -> wal_run ops w = (w', Ok tt) ->
  log_ok w' (log_items items ops).
Proof.
  revert w items; induction ops as [|op ops IH]; intros w items Hw Henc E.
  { unfold wal_run, mret, method_ret in E. by simplify_eq. }
  apply Forall_cons in Henc as [Hop Hops]. cbn [wal_run] in E.
  apply method_bind_Ok in E as (w1 & [] & E1 & E2).
  eapply wal_step_ok in E1; [|done|done]. by eapply (IH w1).
Qed.

(** ** Progress without faults *)

Definition sound (w : BufWriter) : Prop := writable (inner w) = true /\ faults (inner w) = [].

Lemma file_write_sound h data :
  writable h = true -> faults h = [] ->
  exists h', file_write h data = (h', length data, true) /\ writable h' = true /\ faults h' = [].
Proof. intros Hw Hf. unfold file_write. rewrite Hw, Hf. by eexists. Qed.
Lemma flush_buf_sound w : sound w -> exists w', flush_buf w = (w', Ok tt) /\ sound w'.
Proof.
  intros [Hw Hf]. unfold flush_buf. case_bool_decide; [by eexists|].
  destruct (file_write_sound _ (buffer w) Hw Hf) as (h & -> & Hh). by eexists.
Qed.
Lemma write_all_sound w data : sound w -> exists w', write_all data w = (w', Ok tt) /\ sound w'.
Proof.
  intros Hs. unfold write_all. case_match; [by eexists|]. unfold mbind, method_bind.
  assert (exists w1, (if spare_capacity w <? zlen data then flush_buf else mret tt) w = (w1, Ok tt) /\ sound w1)
    as (w1 & -> & Hs1) by (case_match; [by apply flush_buf_sound|by eexists]).
  case_match; [|by eexists]. unfold write_inner.
  destruct (file_write_sound _ data (proj1 Hs1) (proj2 Hs1)) as (h & -> & Hh). by eexists.
Qed.
Lemma store_write_sound item s :
  encodable item -> sound (store_writer s) ->
  exists s' o, store_write item s = (s', Ok o) /\ sound (store_writer s').
Proof.
  intros (bytes & Hx & _) Hs. unfold store_write. rewrite Hx. unfold mbind, method_bind, on_writer.
  edestruct write_all_sound as (w1 & -> & Hs1); [done|]. cbn.
  edestruct write_all_sound as (w2 & -> & Hs2); [done|]. cbn. by do 2 eexists.
Qed.
Lemma Wal_batch_write_sound items w :
  Forall encodable items -> sound (store_writer (wal_writer w)) ->
  exists w', Wal_batch_write items w = (w', Ok tt) /\ sound (store_writer (wal_writer w')) /\
    wal_linked w' = wal_linked w.
Proof.
  intros Henc Hs. unfold Wal_batch_write, on_store, mbind, method_bind.
  assert (exists s, store_write_items items (wal_writer w) = (s, Ok tt) /\ sound (store_writer s))
    as (s & -> & Hs').
  { revert Henc Hs. generalize (wal_writer w). induction items as [|x items IH]; intros s Henc Hs; [by eexists|].
    apply Forall_cons in Henc as [Hx Hitems]. cbn. unfold mbind, method_bind.
    destruct (store_write_sound _ _ Hx Hs) as (s1 & o & -> & Hs1). by apply IH. }
  unfold store_flush, on_writer. destruct (flush_buf_sound _ Hs') as (w' & -> & Hw'). by eexists.
Qed.
(** No system call on the files of the log fails. *)
Definition clean_op (op : wal_op) : Prop := match op with OpClear fs => fs = [] | _ => True end.
Lemma wal_run_sound ops w :
  Forall (fun op => Forall encodable (op_items op)) ops -> Forall clean_op ops ->
  sound (store_writer (wal_writer w)) -> wal_linked w = true -> exists w', wal_run ops w = (w', Ok tt).
Proof.
  revert w; induction ops as [|op ops IH]; intros w Henc Hclean Hs Hl; [by eexists|].
  apply Forall_cons in Henc as [He Henc], Hclean as [Hc Hclean].
  cbn [wal_run]. unfold mbind, method_bind.
  assert (exists w1, wal_step op w = (w1, Ok tt) /\ sound (store_writer (wal_writer w1)) /\ wal_linked w1 = true)
    as (w1 & -> & Hs1 & Hl1); [|by apply IH].
  destruct op as [x|xs|fs]; cbn [wal_step].
  - rewrite Wal_write_batch, <- Hl. by apply Wal_batch_write_sound.
  - rewrite <- Hl. by apply Wal_batch_write_sound.
  - unfold Wal_clear. rewrite Hl. cbn in Hc |- *. subst fs. by eexists.
Qed.

(** C40: a log created on a new path and used through any sequence of writes,
    batches and clears never fails unless a system call does, and reads back
    exactly the items since the latest clear. Wherever the system calls of a
    further batch fail, the file holds the whole records of those items and of a
    beginning of the batch, followed by nothing or by a cut record of the next item;
    reading it gives the items of the whole records and then ends, when the cut
    record is shorter than its length header, or panics, when it is not. When the
    batch was acknowledged, nothing is missing or cut. *)
Theorem log_reads_back ops fs :
  Forall (fun op => Forall encodable (op_items op)) ops ->
  (fs = [] -> Forall clean_op ops -> exists w, wal_run ops (Wal_open None fs) = (w, Ok tt)) /\
  forall w, wal_run ops (Wal_open None fs) = (w, Ok tt) ->
    Wal_iter w = Ok (log_items [] ops, Finished) /\
    forall more w' r, Forall encodable more -> Wal_batch_write more w = (w', r) ->
      exists k cut, wal_file w' = Some (records (log_items [] ops ++ take k more) ++ cut) /\ cut_at more k cut /\
        Wal_iter w' = Ok (log_items [] ops ++ take k more, if (length cut <? HEADER)%nat then Finished else Panic) /\
        (r = Ok tt -> take k more = more /\ cut = []).
Proof.
  intros Henc. split; [by intros -> Hc; apply wal_run_sound|]. intros w E.
  assert (log_ok w (log_items [] ops)) as Hw by (eapply wal_run_ok; [|done|done]; by repeat split).
  set (items := log_items [] ops) in *. split.
  - destruct Hw as (Hl & _ & _ & Hc & Hi). unfold Wal_iter, wal_file. rewrite Hl, Hc. f_equal.
    pose proof (read_all_torn items [] Hi (or_intror eq_refl)) as Hr. by rewrite app_nil_r in Hr.
  - intros more w' r Hmore Eb.
    destruct (Wal_batch_write_spec _ _ _ _ _ Hw Hmore Eb) as (k & p & Hf & Hp & Hok).
    exists k, p. unfold Wal_iter. rewrite Hf. split_and!; [done|done| |intros Hr; by destruct (Hok Hr) as (_ & ? & ?)].
    f_equal. apply read_all_torn; [|by eapply cut_torn]. apply Forall_app. split; [apply Hw|by apply Forall_take].
Qed.

(** ** A log that is opened again *)

(** A writer on a file opened for reading keeps what it is given in its buffer. *)
Definition read_only (bytes : list Z) (w : BufWriter) : Prop :=
  writable (inner w) = false /\ content (inner w) = bytes.

Lemma flush_buf_read_only bytes w w' r :
  read_only bytes w -> flush_buf w = (w', r) -> w' = w /\ (r = Ok tt <-> buffer w = []).
Proof.
  intros [Hw _] E. unfold flush_buf, file_write in E. rewrite Hw in E.
  case_bool_decide; simplify_eq; [done|]. split; [by destruct w|]. split; done.
Qed.
Lemma write_all_read_only bytes data w w' r :
  read_only bytes w -> write_all data w = (w', r) ->
  read_only bytes w' /\ (r = Ok tt -> buffer w' = buffer w ++ data).
Proof.
  intros Hro E. unfold write_all, mbind, method_bind in E. case_match; [unfold write_to_buffer, assign in E; by simplify_eq|].
  assert (exists r1, (if spare_capacity w <? zlen data then flush_buf else mret tt) w = (w, r1)) as [r1 E1].
  { clear E. destruct (spare_capacity w <? zlen data); [|by eexists]. destruct (flush_buf w) as [w1 r1] eqn:Ef.
    destruct (flush_buf_read_only _ _ _ _ Hro Ef) as [-> _]. by eexists. }
  rewrite E1 in E. destruct r1 as [[]|e]; [|by simplify_eq].
  destruct (CAPACITY <=? zlen data); [|unfold write_to_buffer, assign in E; by simplify_eq].
  unfold write_inner, file_write in E. destruct Hro as [Hw Hc]. rewrite Hw in E. by simplify_eq.
Qed.
Lemma store_write_read_only bytes item s s' r :
  read_only bytes (store_writer s) -> store_write item s = (s', r) ->
  read_only bytes (store_writer s') /\ (is_ok r = true -> buffer (store_writer s') <> []).
Proof.
  intros Hro E. unfold store_write in E. destruct (encode_to_vec item) as [d|]; [|by simplify_eq].
  unfold mbind, method_bind, on_writer in E.
  destruct (write_all (to_le_bytes _ _) _) as [w1 [[]|e]] eqn:E1;
    destruct (write_all_read_only _ _ _ _ _ Hro E1) as [Hro1 Hb1]; [|by simplify_eq].
  cbn in E. destruct (write_all d w1) as [w2 [[]|e]] eqn:E2;
    destruct (write_all_read_only _ _ _ _ _ Hro1 E2) as [Hro2 Hb2]; [|by simplify_eq].
  unfold advance_start in E. simplify_eq. cbn. split; [done|]. intros _ Hnil. rewrite (Hb2 eq_refl), (Hb1 eq_refl) in Hnil.
  by apply app_eq_nil in Hnil as [[_ ?]%app_eq_nil _].
Qed.

(** Writing to a log whose file already exists fails, whatever is written, and
    leaves the file as it was: [Wal::open] opens it for reading. *)
Lemma reopened_log_rejects_writes bytes fs item items :
  exists w e, Wal_batch_write (item :: items) (Wal_open (Some bytes) fs) = (w, Err e) /\
    wal_file w = Some bytes.
Proof.
  assert (forall items s s' r, store_write_items items s = (s', r) ->
    read_only bytes (store_writer s) -> read_only bytes (store_writer s') /\
      (is_ok r = true -> items <> [] \/ buffer (store_writer s) <> [] -> buffer (store_writer s') <> [])) as Hitems.
  { clear. intros items. induction items as [|x items IH]; intros s s' r E Hro; cbn in E.
    { unfold mret, method_ret in E. simplify_eq. split; [done|]. by intros _ [].
    }
    unfold mbind, method_bind in E. destruct (store_write x s) as [s1 [o|e]] eqn:E1;
      destruct (store_write_read_only _ _ _ _ _ Hro E1) as [Hro1 Hb1]; [|by simplify_eq].
    destruct (IH _ _ _ E Hro1) as [Hro2 Hb2]. split; [done|]. auto. }
  unfold Wal_batch_write, on_store, mbind, method_bind.
  destruct (store_write_items (item :: items) _) as [s r] eqn:E.
  destruct (Hitems _ _ _ _ E) as [Hro Hb]; [done|]. destruct r as [[]|e].
  2: { do 2 eexists. split; [done|]. unfold wal_file. cbn. f_equal. apply Hro. }
  unfold store_flush, on_writer. destruct (flush_buf (store_writer s)) as [w r] eqn:Ef.
  destruct (flush_buf_read_only _ _ _ _ Hro Ef) as [-> Hok]. destruct r as [[]|e].
  - exfalso. apply (Hb eq_refl); [by left|]. by apply Hok.
  - do 2 eexists. split; [done|]. unfold wal_file. cbn. f_equal. apply Hro.
Qed.
End Records.

(** ** Fixed-size stores read back *)

Lemma collect_indexed {A} (next : nat -> next_item A) (pos : nat -> nat) (xs : list A) fuel i :
  (forall j x, xs !! j = Some x -> next (pos j) = Yield x (pos (S j))) ->
  (forall j, (length xs <= j)%nat -> next (pos j) = Stop) ->
  (length xs - i < fuel)%nat -> collect next fuel (pos i) = (drop i xs, Finished).
Proof.
  intros Hy Hs. revert i; induction fuel as [|fuel IH]; intros i Hf; [lia|]. cbn [collect].
  destruct (xs !! i) as [x|] eqn:Hx.
  - rewrite (Hy _ _ Hx), IH by (apply lookup_lt_Some in Hx; lia). by rewrite (drop_S _ _ _ Hx).
  - apply lookup_ge_None in Hx. rewrite Hs by done. by rewrite drop_ge.
Qed.

Section ConstReads.
Context {V : Type} (S : ConstSerializable V) (valid : V -> Prop) `{!ConstLaws S valid}.

(** The bytes of a file of such items. *)
Definition packed (items : list V) : list Z := concat ((fun v => default [] (const_bytes S v)) <$> items).

Lemma const_bytes_spec v :
  valid v -> exists bytes, const_bytes S v = Some bytes /\ length bytes = BYTES S /\ deserialize S bytes = Some v.
Proof.
  intros Hv. destruct (const_roundtrip v (replicate (BYTES S) 0) Hv) as (out & Hs & Hl & Hd);
    [by rewrite length_replicate|]. exists out. unfold const_bytes. rewrite Hs. cbn.
  by rewrite bool_decide_true.
Qed.
Lemma packed_app l1 l2 : packed (l1 ++ l2) = packed l1 ++ packed l2.
Proof. unfold packed. by rewrite fmap_app, concat_app. Qed.
Lemma packed_length items : Forall valid items -> length (packed items) = (length items * BYTES S)%nat.
Proof.
  induction 1 as [|v items Hv _ IH]; [done|]. change (v :: items) with ([v] ++ items).
  rewrite packed_app, !length_app, IH. destruct (const_bytes_spec v Hv) as (bytes & E & Hl & _).
  unfold packed. cbn. rewrite E. cbn. rewrite app_nil_r. lia.
Qed.

Lemma slice_slice_range (bytes : list Z) start len :
  slice bytes start len = slice_range bytes (Z.of_nat start) (Z.of_nat start + Z.of_nat len).
Proof.
  unfold slice, slice_range, zlen. rewrite (proj2 (Z.leb_le (Z.of_nat start) _)) by lia. cbn [andb].
  destruct (Nat.leb_spec (start + len) (length bytes)).
  - rewrite (proj2 (Z.leb_le _ _)) by lia. do 2 f_equal; lia || (f_equal; lia).
  - by rewrite (proj2 (Z.leb_gt _ _)) by lia.
Qed.

Lemma slice_packed items i v :
  Forall valid items -> items !! i = Some v ->
  slice (packed items) (i * BYTES S) (BYTES S) ≫= deserialize S = Some v.
Proof.
  intros Hall Hi. rewrite <- (take_drop_middle _ _ _ Hi) in Hall |- *.
  apply Forall_app in Hall as [H1 [Hv H2]%Forall_cons]. pose proof (lookup_lt_Some _ _ _ Hi) as Hlt.
  destruct (const_bytes_spec v Hv) as (bytes & E & Hl & Hd).
  change (v :: drop (Datatypes.S i) items) with ([v] ++ drop (Datatypes.S i) items). rewrite !packed_app.
  assert (packed [v] = bytes) as -> by (unfold packed; cbn; rewrite E; cbn; apply app_nil_r).
  replace (i * BYTES S)%nat with (length (packed (take i items)))
    by (rewrite packed_length, length_take by done; f_equal; lia).
  rewrite <- Hl, slice_app. done.
Qed.

(** [RandomLookup::get] gives the item with that identifier, and panics past them. *)
Lemma lookup_get_packed items i :
  Forall valid items -> lookup_get S (packed items) (Z.of_nat i) = items !! i.
Proof.
  intros Hall. unfold lookup_get. rewrite <- Nat2Z.inj_mul, <- slice_slice_range.
  destruct (items !! i) as [v|] eqn:Hi; [by apply slice_packed|]. apply lookup_ge_None in Hi.
  unfold slice. rewrite packed_length, (proj2 (Nat.leb_gt _ _)) by (done || pose proof const_pos; nia).
  done.
Qed.
Lemma lookup_iter_packed items n :
  Forall valid items ->
  lookup_iter_with_offset S (packed items) n = (drop n (imap (fun i v => (Z.of_nat i, v)) items), Finished).
Proof.
  intros Hall. unfold lookup_iter_with_offset. pose proof (packed_length _ Hall) as Hlen.
  pose proof const_pos as Hpos.
  apply (collect_indexed _ id); [| |rewrite length_imap; nia].
  - intros j x Hx. rewrite list_lookup_imap in Hx. unfold lookup_next, id.
    destruct (items !! j) as [v|] eqn:Hj; [|done]. cbn in Hx. simplify_eq.
    pose proof (lookup_lt_Some _ _ _ Hj). rewrite (proj2 (Nat.leb_gt _ _)) by nia.
    rewrite (slice_packed _ _ _ Hall Hj). f_equal. lia.
  - intros j Hj. rewrite length_imap in Hj. unfold lookup_next, id.
    by rewrite (proj2 (Nat.leb_le _ _)) by nia.
Qed.
(** The iterable store of fixed-size items. *)
Lemma const_reader_packed items :
  Forall valid items ->
  collect (const_reader_next S (packed items)) (length (packed items) + 1) 0 = (items, Finished) /\
  const_len S (packed items) = length items.
Proof.
  intros Hall. pose proof (packed_length _ Hall) as Hlen. pose proof const_pos as Hpos. split.
  - refine (collect_indexed _ (fun i => i * BYTES S)%nat items _ 0 _ _ _); [| |nia].
    + intros j x Hj. pose proof (lookup_lt_Some _ _ _ Hj). unfold const_reader_next.
      rewrite (proj2 (Nat.ltb_ge _ _)) by nia. rewrite (slice_packed _ _ _ Hall Hj). f_equal. lia.
    + intros j Hj. unfold const_reader_next. by rewrite (proj2 (Nat.ltb_lt _ _)) by nia.
  - unfold const_len. rewrite Hlen. apply Nat.div_mul. lia.
Qed.
End ConstReads.

(** ** Concrete runs *)

Module FileStoreExamples.
(** Bytes, encoded as themselves. *)
#[local] Instance byte_code : Bincode Z := {|
  encode_to_vec x := Some [x];
  decode_from_slice bytes := match bytes with b :: _ => Some (b, 1%nat) | [] => None end;
|}.
#[local] Instance byte_code_laws : BincodeLaws Z.
Proof. split. intros x bytes rest E. cbn in E. by simplify_eq. Qed.
Lemma byte_encodable (x : Z) : encodable x.
Proof. by exists [x]. Qed.

Definition history : list (wal_op (T := Z)) := [OpWrite 1; OpClear []; OpBatch [2; 3]].
Definition logged : Wal := (wal_run history (Wal_open None [])).1.
(** The fourth item is cut in the middle of its header. *)
Definition cut : Wal :=
  (Wal_batch_write [4] {|
    wal_writer := {|
      store_writer := {|
        inner := {| content := content (inner (store_writer (wal_writer logged)));
                    cursor := cursor (inner (store_writer (wal_writer logged)));
                    writable := true; faults := [Some 5%nat] |};
        buffer := [] |};
      next_start := 0 |};
    wal_linked := true |}).1.

Lemma log_reads_back_witness : Wal_iter logged = Ok ([2; 3], Finished).
Proof.
  refine (proj1 (proj2 (log_reads_back history [] _) logged _)).
  - repeat constructor; apply byte_encodable.
  - vm_compute. reflexivity.
Defined.
Example cut_log : Wal_iter cut = Ok ([2; 3], Finished).
Proof. vm_compute. reflexivity. Qed.
(** One more byte than the header, and the reader panics. *)
Example torn_payload :
  read_all (T := Z) (records [2; 3] ++ to_le_bytes HEADER 1) = ([2; 3], Panic).
Proof. vm_compute. reflexivity. Qed.
End FileStoreExamples.
