(* ===== verification/Bloom.v ===== *)
(** * Bloom filters ([crates/bloom])

    The filter on [u64] keys, with one hash, and the filter on byte strings,
    with several. A division by the length of an empty bit vector panics: those
    results are [None]. The natural logarithm and the 128-bit hash are
    parameters, the first because its rounding is the platform's. *)

From Stdlib Require Import SpecFloat.
From S2P Require Import Prelude Text Floats FileStore.

#[local] Open Scope Z_scope.

(** ** Words *)

Definition combine_u64s (nums : Z * Z) : Z := Z.lor (Z.shiftl nums.1 64) nums.2.
(** [as u64] keeps the low bits. *)
Definition split_u128 (num : Z) : Z * Z := (Z.shiftr num 64 mod 2 ^ 64, num mod 2 ^ 64).
Definition LARGE_PRIME : Z := 11400714819323198549.

(** ** Sizes *)

Section Sizes.
Context (ln : float -> float).

Definition f64_of (n : Z) : float :=
  match n with Zpos p => binary_round 53 1024 false p 0 | Zneg p => binary_round 53 1024 true p 0 | Z0 => S754_zero false end.
Definition f64_div (x y : float) : float := SFdiv 53 1024 x y.
(** [ceil() as u64]: saturating, with NaN as zero. *)
Definition ceil_u64 (x : float) : Z :=
  match x with
  | S754_nan => 0
  | S754_infinity neg => if neg then 0 else u64_max
  | _ => Z.max 0 (Z.min u64_max (ceil_Z x))
  end.

Definition num_bits (estimated_items : Z) (fp : float) : Z :=
  let ln2 := ln (f64_of 2) in
  ceil_u64 (f64_div (f64_mul (f64_of estimated_items) (ln fp)) (f64_mul (f64_of (-8)) (f64_mul ln2 ln2))).
Definition num_hashes (bits estimated_items : Z) : Z :=
  Z.max (ceil_u64 (f64_mul (f64_div (f64_of bits) (f64_of estimated_items)) (ln (f64_of 2)))) 1.
End Sizes.

(** ** Bit vectors *)

Abbreviation BitVec := (list bool).
(** [bit_vec[h % bit_vec.len()]] and the assignment to it. *)
Definition bit_index (bits : BitVec) (h : Z) : option nat :=
  if zlen bits =? 0 then None else Some (Z.to_nat (h mod zlen bits)).

(** ** [U64BloomFilter] *)

Definition U64BloomFilter_new (ln : float -> float) (estimated_items : Z) (fp : float) : BitVec :=
  replicate (Z.to_nat (num_bits ln estimated_items fp)) false.
Definition empty_from (other : BitVec) : BitVec := replicate (length other) false.
Definition fill (bits : BitVec) : BitVec := replicate (length bits) true.
Definition u64_hash (item : Z) : Z := (item * LARGE_PRIME) mod 2 ^ 64.
Definition u64_insert (item : Z) (bits : BitVec) : option BitVec :=
  i ← bit_index bits (u64_hash item); Some (<[i := true]> bits).
Definition u64_contains (bits : BitVec) (item : Z) : option bool :=
  i ← bit_index bits (u64_hash item); bits !! i.
Definition insert_u128 (item : Z) : BitVec -> option BitVec := u64_insert (item mod 2 ^ 64).
Definition contains_u128 (bits : BitVec) (item : Z) : option bool := u64_contains bits (item mod 2 ^ 64).
(** [or_assign] is [|=] of the bit vectors. Only a build with debug assertions
    compares the lengths first, and then panics on different ones. *)
Definition union (or_assign : BitVec -> BitVec -> BitVec) (debug_assertions : bool) (bits other : BitVec)
    : option BitVec :=
  if debug_assertions && negb (bool_decide (length bits = length other)) then None
  else Some (or_assign bits other).

(** [x as i64]: towards zero, saturating, with NaN as zero. *)
Definition as_i64 (x : float) : Z :=
  match x with
  | S754_nan | S754_zero _ => 0
  | S754_infinity neg => if neg then i64_min else i64_max
  | S754_finite neg m e =>
      let magnitude := if 0 <=? e then Zpos m * 2 ^ e else Zpos m / 2 ^ (- e) in
      Z.max i64_min (Z.min i64_max (if neg then - magnitude else magnitude))
  end.
(** The conversion binds tighter than the product: it is the logarithm that is
    rounded. A negative result does not convert to [u64] and counts as zero. *)
Definition estimate_card (ln : float -> float) (bits : BitVec) : Z :=
  let num_ones := zlen (List.filter id bits) in
  if (num_ones =? 0) || (zlen bits =? 0) then 0
  else if num_ones =? zlen bits then u64_max
  else
    let empty := SFsub 53 1024 (f64_of 1) (f64_div (f64_of num_ones) (f64_of (zlen bits))) in
    Z.max 0 (- zlen bits * as_i64 (ln empty)).

(** ** [BytesBloomFilter] *)

Record BytesBloomFilter := { bit_vec : BitVec; hashes : Z }.
Definition BytesBloomFilter_new (ln : float -> float) (estimated_items : Z) (fp : float) : BytesBloomFilter :=
  let bits := num_bits ln estimated_items fp in
  {| bit_vec := replicate (Z.to_nat bits) false; hashes := num_hashes ln bits estimated_items |}.

Section Bytes.
Context (hash_128 : list Z -> Z).

Definition hash_raw (item : list Z) : Z * Z := split_u128 (hash_128 item).
Definition nth_hash (ab : Z * Z) (i : Z) : Z := ((ab.1 * i) mod 2 ^ 64 + ab.2) mod 2 ^ 64 mod LARGE_PRIME.

(** The loops over [0..num_hashes], from [i] on. *)
Fixpoint contains_loop (bits : BitVec) (ab : Z * Z) (n : nat) (i : Z) : option bool :=
  match n with
  | 0%nat => Some true
  | S n =>
      k ← bit_index bits (nth_hash ab i);
      b ← bits !! k;
      if negb b then Some false else contains_loop bits ab n (i + 1)
  end.
Fixpoint insert_loop (bits : BitVec) (ab : Z * Z) (n : nat) (i : Z) : option BitVec :=
  match n with
  | 0%nat => Some bits
  | S n => k ← bit_index bits (nth_hash ab i); insert_loop (<[k := true]> bits) ab n (i + 1)
  end.
Definition contains_raw (f : BytesBloomFilter) (item : list Z) : option bool :=
  contains_loop (bit_vec f) (hash_raw item) (Z.to_nat (hashes f)) 0.
Definition insert_raw (item : list Z) (f : BytesBloomFilter) : option BytesBloomFilter :=
  bits ← insert_loop (bit_vec f) (hash_raw item) (Z.to_nat (hashes f)) 0;
  Some {| bit_vec := bits; hashes := hashes f |}.
End Bytes.

(** ** Words are split and combined without loss *)

Lemma combine_split_u128 num : 0 <= num < 2 ^ 128 -> combine_u64s (split_u128 num) = num.
Proof.
  intros Hn. unfold combine_u64s, split_u128. cbn [fst snd].
  rewrite Z.shiftr_div_pow2, Z.shiftl_mul_pow2 by lia.
  assert (0 <= num / 2 ^ 64 < 2 ^ 64) as Hq.
  { split; [apply Z.div_pos; lia|]. apply Z.div_lt_upper_bound; [lia|].
    change (2 ^ 64 * 2 ^ 64) with (2 ^ 128). lia. }
  rewrite (Z.mod_small (num / _)) by done.
  rewrite <- Z.land_ones, <- Z.shiftl_mul_pow2 by lia.
  apply Z.bits_inj'. intros n Hn'. rewrite Z.lor_spec, Z.shiftl_spec, Z.land_spec, Z.testbit_ones_nonneg by lia.
  rewrite <- Z.shiftr_div_pow2 by lia.
  destruct (Z.ltb_spec n 64).
  - rewrite Z.testbit_neg_r by lia. by rewrite andb_true_r.
  - rewrite Z.shiftr_spec by lia. replace (n - 64 + 64) with n by lia. by rewrite andb_false_r, orb_false_r.
Qed.

(** ** Bits only ever get set *)

Definition bits_le (bits bits' : BitVec) : Prop := Forall2 (fun b b' => b = true -> b' = true) bits bits'.
#[export] Instance bits_le_preorder : PreOrder bits_le.
Proof.
  split.
  - intros bits. induction bits; by constructor.
  - intros x y z Hxy. revert z.
    induction Hxy as [|b b' x y Hb _ IH]; inversion 1; simplify_eq; constructor; [by auto|by apply IH].
Qed.

Lemma bits_le_lookup bits bits' i : bits_le bits bits' -> bits !! i = Some true -> bits' !! i = Some true.
Proof.
  intros H Hi. destruct (Forall2_lookup_l _ _ _ _ _ H Hi) as (b & -> & Hb). by rewrite Hb.
Qed.
Lemma bits_le_length bits bits' : bits_le bits bits' -> length bits = length bits'.
Proof. apply Forall2_length. Qed.
Lemma insert_true_le bits i : bits_le bits (<[i := true]> bits).
Proof.
  apply Forall2_same_length_lookup_2; [by rewrite length_insert|]. intros j b b' Hj Hj' ->.
  destruct (decide (i = j)) as [->|].
  - rewrite list_lookup_insert_eq in Hj' by (by eapply lookup_lt_Some). by simplify_eq.
  - rewrite list_lookup_insert_ne in Hj' by done. congruence.
Qed.
Lemma bit_index_lt bits h i : bit_index bits h = Some i -> (i < length bits)%nat.
Proof.
  unfold bit_index, zlen. case_match; [done|]. intros [= <-].
  pose proof (Z.mod_pos_bound h (Z.of_nat (length bits))). lia.
Qed.
Lemma bit_index_total bits h : (0 < length bits)%nat -> is_Some (bit_index bits h).
Proof. unfold bit_index, zlen. case_match; [lia|by eexists]. Qed.
Lemma bit_index_le bits bits' h : bits_le bits bits' -> bit_index bits' h = bit_index bits h.
Proof. intros H. unfold bit_index, zlen. by rewrite (bits_le_length _ _ H). Qed.

Lemma insert_loop_le bits ab n i bits' : insert_loop bits ab n i = Some bits' -> bits_le bits bits'.
Proof.
  revert bits i; induction n as [|n IH]; intros bits i E; cbn in E; [by simplify_eq|].
  destruct (bit_index _ _) as [k|]; [|done]. cbn in E. etransitivity; [apply insert_true_le|by eapply IH].
Qed.
Lemma insert_loop_total bits ab n i :
  (0 < length bits)%nat -> exists bits', insert_loop bits ab n i = Some bits'.
Proof.
  revert bits i; induction n as [|n IH]; intros bits i Hl; cbn; [by eexists|].
  destruct (bit_index_total bits (nth_hash ab i) Hl) as [k ->]. cbn. apply IH. by rewrite length_insert.
Qed.
Lemma insert_loop_contains bits ab n i bits' bits'' :
  insert_loop bits ab n i = Some bits' -> bits_le bits' bits'' -> contains_loop bits'' ab n i = Some true.
Proof.
  revert bits i; induction n as [|n IH]; intros bits i E Hle; cbn in E |- *; [done|].
  destruct (bit_index bits (nth_hash ab i)) as [k|] eqn:Hk; [|done]. cbn in E.
  pose proof (insert_loop_le _ _ _ _ _ E) as Hle'.
  assert (bits_le bits bits'') as Hall
    by (etransitivity; [apply insert_true_le|etransitivity; [exact Hle'|done]]).
  rewrite (bit_index_le _ _ _ Hall), Hk. cbn.
  rewrite (bits_le_lookup (<[k := true]> bits) bits'' k); [cbn; by eapply IH|by etransitivity|].
  apply list_lookup_insert_eq. by eapply bit_index_lt.
Qed.
Lemma contains_loop_total bits ab n i :
  (0 < length bits)%nat -> exists b, contains_loop bits ab n i = Some b.
Proof.
  intros Hl. revert i; induction n as [|n IH]; intros i; cbn; [by eexists|].
  destruct (bit_index_total bits (nth_hash ab i) Hl) as [k Hk]. rewrite Hk. cbn.
  destruct (lookup_lt_is_Some_2 bits k) as [b ->]; [by eapply bit_index_lt|]. cbn.
  destruct b; [apply IH|by eexists].
Qed.

(** Inserting byte strings one after the other. *)
Definition insert_all (hash_128 : list Z -> Z) (items : list (list Z)) (f : BytesBloomFilter) : option BytesBloomFilter :=
  foldl (fun f item => f ≫= insert_raw hash_128 item) (Some f) items.

Section NoFalseNegatives.
Context (hash_128 : list Z -> Z).

Lemma insert_raw_spec item f :
  (0 < length (bit_vec f))%nat ->
  exists f', insert_raw hash_128 item f = Some f' /\ bits_le (bit_vec f) (bit_vec f') /\ hashes f' = hashes f /\
    forall f'', bits_le (bit_vec f') (bit_vec f'') -> hashes f'' = hashes f ->
      contains_raw hash_128 f'' item = Some true.
Proof.
  intros Hl. unfold insert_raw, contains_raw.
  destruct (insert_loop_total (bit_vec f) (hash_raw hash_128 item) (Z.to_nat (hashes f)) 0 Hl) as [bits' E].
  rewrite E. cbn. eexists. split_and!; [done| |done|].
  - by eapply insert_loop_le.
  - intros f'' Hle ->. by eapply insert_loop_contains.
Qed.
Lemma insert_all_spec items f :
  (0 < length (bit_vec f))%nat ->
  exists f', insert_all hash_128 items f = Some f' /\ bits_le (bit_vec f) (bit_vec f') /\ hashes f' = hashes f /\
    Forall (fun item => contains_raw hash_128 f' item = Some true) items.
Proof.
  revert f; induction items as [|item items IH]; intros f Hl.
  { exists f. split_and!; [done|reflexivity|done|done]. }
  destruct (insert_raw_spec item f Hl) as (f1 & E1 & Hle1 & Hh1 & Hc1).
  destruct (IH f1) as (f2 & E2 & Hle2 & Hh2 & Hall); [by rewrite <- (bits_le_length _ _ Hle1)|].
  exists f2. split_and!; [unfold insert_all in *; cbn; by rewrite E1|by etransitivity|congruence|].
  constructor; [apply Hc1; [done|congruence]|done].
Qed.
End NoFalseNegatives.

(** ** Histories of a filter *)

Inductive u64_op :=
| Insert (item : Z)
| InsertWide (item : Z)
| Fill
| Union (other : BitVec).
Section Histories.
(** The union of bit vectors of one length, bit by bit. *)
Context (or_assign : BitVec -> BitVec -> BitVec) (debug_assertions : bool).
Hypothesis or_assign_bits : forall bits other,
  length bits = length other -> or_assign bits other = zip_with orb bits other.

Definition u64_step (op : u64_op) (bits : BitVec) : option BitVec :=
  match op with
  | Insert item => u64_insert item bits
  | InsertWide item => insert_u128 item bits
  | Fill => Some (fill bits)
  | Union other => union or_assign debug_assertions bits other
  end.
Definition u64_run (ops : list u64_op) (bits : BitVec) : option BitVec :=
  foldl (fun bits op => bits ≫= u64_step op) (Some bits) ops.
(** What the operation promises of the filter from then on. *)
Definition u64_promises (op : u64_op) (bits : BitVec) : Prop :=
  match op with
  | Insert item => u64_contains bits item = Some true
  | InsertWide item => contains_u128 bits item = Some true
  | Fill => forall item, u64_contains bits item = Some true
  | Union other => forall item, u64_contains other item = Some true -> u64_contains bits item = Some true
  end.

Lemma u64_contains_le bits bits' item :
  bits_le bits bits' -> u64_contains bits item = Some true -> u64_contains bits' item = Some true.
Proof.
  intros Hle. unfold u64_contains. rewrite (bit_index_le _ _ _ Hle).
  destruct (bit_index _ _); [|done]. cbn. by apply bits_le_lookup.
Qed.
Lemma u64_promises_le op bits bits' : bits_le bits bits' -> u64_promises op bits -> u64_promises op bits'.
Proof. intros Hle. destruct op; cbn; unfold contains_u128; eauto using u64_contains_le. Qed.

Lemma u64_insert_spec item bits :
  (0 < length bits)%nat ->
  exists bits', u64_insert item bits = Some bits' /\ bits_le bits bits' /\ u64_contains bits' item = Some true.
Proof.
  intros Hl. unfold u64_insert, u64_contains.
  destruct (bit_index_total bits (u64_hash item) Hl) as [k Hk]. rewrite Hk. cbn. eexists.
  split_and!; [done|apply insert_true_le|]. rewrite (bit_index_le bits), Hk by apply insert_true_le. cbn.
  apply list_lookup_insert_eq. by eapply bit_index_lt.
Qed.
Lemma fill_spec bits :
  (0 < length bits)%nat -> bits_le bits (fill bits) /\ forall item, u64_contains (fill bits) item = Some true.
Proof.
  intros Hl. assert (bits_le bits (fill bits)) as Hle.
  { unfold fill. clear. induction bits; cbn; constructor; auto. }
  split; [done|]. intros item. unfold u64_contains. rewrite (bit_index_le bits) by done.
  destruct (bit_index_total bits (u64_hash item) Hl) as [k Hk]. rewrite Hk. cbn.
  apply lookup_replicate_2. by eapply bit_index_lt.
Qed.
Lemma union_spec bits other :
  length bits = length other ->
  exists bits', union or_assign debug_assertions bits other = Some bits' /\ bits_le bits bits' /\ bits_le other bits'.
Proof.
  intros Hl. unfold union. rewrite bool_decide_true, andb_false_r, or_assign_bits by done. eexists. split; [done|].
  revert other Hl; induction bits as [|b bits IH]; intros [|b' other] Hl; cbn in *; try done.
  destruct (IH other) as [H1 H2]; [lia|]. split; constructor; try done; by destruct b, b'.
Qed.

Lemma u64_step_spec op bits :
  (0 < length bits)%nat -> (forall other, op = Union other -> length other = length bits) ->
  exists bits', u64_step op bits = Some bits' /\ bits_le bits bits' /\ u64_promises op bits'.
Proof.
  intros Hl Hu. destruct op as [item|item| |other]; cbn.
  - by apply u64_insert_spec.
  - by apply u64_insert_spec.
  - eexists. split; [done|]. by apply fill_spec.
  - destruct (union_spec bits other) as (bits' & -> & H1 & H2); [by symmetry; apply Hu|].
    eexists. split_and!; [done|done|]. intros item. by apply u64_contains_le.
Qed.

Lemma u64_run_spec ops bits :
  (0 < length bits)%nat -> (forall other, Union other ∈ ops -> length other = length bits) ->
  exists bits', u64_run ops bits = Some bits' /\ bits_le bits bits' /\ Forall (fun op => u64_promises op bits') ops.
Proof.
  revert bits; induction ops as [|op ops IH]; intros bits Hl Hu.
  { exists bits. split_and!; [done|reflexivity|done]. }
  destruct (u64_step_spec op bits Hl) as (b1 & E1 & Hle1 & Hp1); [intros other ->; apply Hu; by left|].
  pose proof (bits_le_length _ _ Hle1) as Hlen.
  destruct (IH b1) as (b2 & E2 & Hle2 & Hp2); [lia|intros; rewrite <- Hlen; apply Hu; by right|].
  exists b2. split_and!; [unfold u64_run in *; cbn; by rewrite E1|by etransitivity|].
  constructor; [by eapply u64_promises_le|done].
Qed.

Lemma contains_fresh hash_128 ln n fp item :
  (0 < num_bits ln n fp) -> contains_raw hash_128 (BytesBloomFilter_new ln n fp) item = Some false.
Proof.
  intros Hb. unfold contains_raw, BytesBloomFilter_new. cbn.
  assert (exists m, Z.to_nat (num_hashes ln (num_bits ln n fp) n) = S m) as [m ->].
  { exists (Z.to_nat (num_hashes ln (num_bits ln n fp) n) - 1)%nat.
    assert (1 <= num_hashes ln (num_bits ln n fp) n) by (unfold num_hashes; lia). lia. }
  cbn. set (bits := replicate _ false).
  destruct (bit_index_total bits (nth_hash (hash_raw hash_128 item) 0)) as [k Hk];
    [unfold bits; rewrite length_replicate; lia|]. rewrite Hk. cbn.
  assert (bits !! k = Some false) as ->; [|done].
  apply lookup_replicate_2. apply bit_index_lt in Hk. unfold bits in Hk. by rewrite length_replicate in Hk.
Qed.

(** Bloom filters have no false negatives. Over any history of a non-empty
    [u64] filter, of insertions, fills and unions with filters of its size, no
    operation panics and every item inserted into it, or into a filter united
    with it, is found from then on; the byte-string filter rejects everything
    when new and finds every item inserted, in any order and number. *)
Theorem filters_have_no_false_negatives hash_128 ln n fp ops bits items :
  (0 < length bits)%nat -> (forall other, Union other ∈ ops -> length other = length bits) ->
  0 < num_bits ln n fp ->
  (exists bits', u64_run ops bits = Some bits' /\ length bits' = length bits /\
     Forall (fun op => u64_promises op bits') ops) /\
  (forall item, contains_raw hash_128 (BytesBloomFilter_new ln n fp) item = Some false) /\
  (exists f, insert_all hash_128 items (BytesBloomFilter_new ln n fp) = Some f /\
     Forall (fun item => contains_raw hash_128 f item = Some true) items).
Proof.
  intros Hl Hu Hb. split_and!.
  - destruct (u64_run_spec ops bits Hl Hu) as (bits' & E & Hle & Hp). exists bits'.
    split_and!; [done|symmetry; by apply bits_le_length|done].
  - intros item. by apply contains_fresh.
  - destruct (insert_all_spec hash_128 items (BytesBloomFilter_new ln n fp)) as (f & E & _ & _ & Hall);
      [cbn; rewrite length_replicate; lia|]. by exists f.
Qed.
End Histories.

(** ** Concrete sizes *)

Module BloomExamples.
(** [0.01], and the values of the logarithm that matter: [ln 0.01] is
    -4.60517018598809136804 and [ln 2] is 0.69314718055994530942, rounded to
    nearest. *)
Definition one_percent : float := default S754_nan (parse_f64 (lit "0.01")).
Definition ln_reference (x : float) : float :=
  default S754_nan
    (if SFeqb x one_percent then parse_f64 (lit "-4.60517018598809136804")
     else if SFeqb x (f64_of 2) then parse_f64 (lit "0.69314718055994530942")
     else if SFeqb x (f64_div (f64_of 1) (f64_of 2)) then parse_f64 (lit "-0.69314718055994530942")
     else None).
(** A polynomial of the bytes. *)
Definition hash_reference (bytes : list Z) : Z :=
  fold_left (fun h b => (h * 1000003 + b + 1) mod 2 ^ 128) bytes 7.

(** A thousand keys at one per cent: 1199 bits and one hash. The textbook size
    [- n ln p / (ln 2)^2] is 9586 bits with seven hashes; the formula of the code
    has a further factor of eight, which makes it the number of bytes. *)
Lemma thousand_keys_bits : num_bits ln_reference 1000 one_percent = 1199.
Proof. vm_compute. reflexivity. Qed.
Lemma thousand_keys_hashes : num_hashes ln_reference 1199 1000 = 1.
Proof. vm_compute. reflexivity. Qed.

(** Half of a hundred bits are set, which takes about sixty-nine distinct keys;
    the estimate is zero. *)
Lemma half_full_estimate :
  estimate_card ln_reference (replicate 50 true ++ replicate 50 false) = 0.
Proof. vm_compute. reflexivity. Qed.

Lemma filters_have_no_false_negatives_witness :
  exists f, insert_all hash_reference [[1]; [2; 3]] (BytesBloomFilter_new ln_reference 2 one_percent) = Some f /\
    Forall (fun item => contains_raw hash_reference f item = Some true) [[1]; [2; 3]].
Proof.
  refine (proj2 (proj2 (filters_have_no_false_negatives (zip_with orb) true _ hash_reference ln_reference 2 one_percent
    [Insert 5; Fill; Union [true; false; true]] [false; false; false] [[1]; [2; 3]] _ _ _))).
  - done.
  - cbn. lia.
  - intros other Hin. rewrite !elem_of_cons, elem_of_nil in Hin. by destruct Hin as [|[|[[= ->]|]]].
  - vm_compute. reflexivity.
Defined.
End BloomExamples.
