(* ===== verification/KvMerge.v ===== *)
(** * Ordered entries and their merge ([crates/speedy-kv], [crates/file-store/src/peekable.rs])

    Keys are byte strings compared lexicographically. [LiveSegment]'s ordered
    map, the eager [Peekable] and [SortedSegments], the heap-driven merge of
    segments in which the newest value of a key wins. *)

From S2P Require Import Prelude Text FileStore.

#[local] Open Scope Z_scope.

Abbreviation entry := (list Z * list Z)%type.

(** ** Sorted entries *)

Definition key_lt (a b : entry) : Prop := str_cmp a.1 b.1 = Lt.
Definition sorted (l : list entry) : Prop := StronglySorted key_lt l.

Fixpoint assoc (k : list Z) (l : list entry) : option (list Z) :=
  match l with
  | [] => None
  | (k', v) :: l => if decide (k = k') then Some v else assoc k l
  end.

(** [BTreeMap::insert] on the entries in key order. *)
Fixpoint btree_insert (k v : list Z) (l : list entry) : list entry :=
  match l with
  | [] => [(k, v)]
  | (k', v') :: l' =>
      match str_cmp k k' with
      | Lt => (k, v) :: l
      | Eq => (k', v) :: l'
      | Gt => (k', v') :: btree_insert k v l'
      end
  end.

#[export] Instance key_lt_trans : Transitive key_lt.
Proof. intros a b c. apply str_cmp_Lt_trans. Qed.

Lemma str_cmp_refl k : str_cmp k k = Eq.
Proof. by apply str_cmp_Eq. Qed.
Lemma str_cmp_Gt a b : str_cmp a b = Gt <-> str_cmp b a = Lt.
Proof. rewrite (str_cmp_opp a b). by destruct (str_cmp a b). Qed.

Lemma assoc_elem k v l : assoc k l = Some v -> (k, v) ∈ l.
Proof.
  induction l as [|[k' v'] l IH]; cbn; [done|]. case_decide; intros E; simplify_eq; [by left|right; auto].
Qed.
Lemma assoc_None k l : (forall e, e ∈ l -> e.1 <> k) -> assoc k l = None.
Proof.
  induction l as [|[k' v'] l IH]; cbn; intros H; [done|]. case_decide as Hk.
  - subst. by destruct (H (k', v') ltac:(left)).
  - apply IH. intros e He. apply H. by right.
Qed.
Lemma sorted_above e l k : sorted (e :: l) -> str_cmp k e.1 <> Gt -> assoc k l = None.
Proof.
  intros [_ Hall]%StronglySorted_inv Hk. apply assoc_None. intros e' He' <-.
  rewrite Forall_forall in Hall. apply Hall in He'. unfold key_lt in He'.
  destruct Hk. by apply str_cmp_Gt.
Qed.

Lemma elem_of_btree_insert k v l e : e ∈ btree_insert k v l -> e = (k, v) \/ e ∈ l.
Proof.
  induction l as [|[k' v'] l IH]; cbn.
  { intros ->%list_elem_of_singleton. by left. }
  destruct (str_cmp k k') eqn:E.
  - apply str_cmp_Eq in E as ->. rewrite !elem_of_cons. naive_solver.
  - rewrite !elem_of_cons. naive_solver.
  - rewrite !elem_of_cons. naive_solver.
Qed.
Lemma btree_insert_sorted k v l : sorted l -> sorted (btree_insert k v l).
Proof.
  induction l as [|[k' v'] l IH]; cbn; intros Hs; [by repeat constructor|].
  pose proof Hs as [Hl Hall]%StronglySorted_inv. destruct (str_cmp k k') eqn:E.
  - constructor; [done|]. eapply Forall_impl; [exact Hall|]. done.
  - constructor; [done|]. constructor; [done|]. eapply Forall_impl; [exact Hall|].
    intros e He. by apply (str_cmp_Lt_trans _ k').
  - constructor; [by apply IH|]. apply Forall_forall. intros e [-> | He]%elem_of_btree_insert.
    + by apply str_cmp_Gt.
    + rewrite Forall_forall in Hall. by apply Hall.
Qed.
Lemma assoc_btree_insert k v l k0 :
  sorted l -> assoc k0 (btree_insert k v l) = if decide (k0 = k) then Some v else assoc k0 l.
Proof.
  induction l as [|[k' v'] l IH]; cbn; intros Hs; [done|].
  pose proof Hs as [Hl _]%StronglySorted_inv. destruct (str_cmp k k') eqn:E; cbn.
  - apply str_cmp_Eq in E as ->. by repeat case_decide.
  - done.
  - rewrite IH by done. repeat case_decide; try done. subst. by rewrite str_cmp_refl in E.
Qed.

(** A non-negative measure of entries, summed. *)
Fixpoint total (f : entry -> Z) (l : list entry) : Z :=
  match l with [] => 0 | e :: l => f e + total f l end.
Lemma total_nonneg f l : (forall e, 0 <= f e) -> 0 <= total f l.
Proof. intros Hf. induction l as [|e l IH]; cbn; [lia|]. specialize (Hf e). lia. Qed.
Lemma total_btree_insert f k v l :
  (forall e, 0 <= f e) -> total f (btree_insert k v l) <= f (k, v) + total f l.
Proof.
  intros Hf. induction l as [|[k' v'] l IH]; cbn; [lia|]. destruct (str_cmp k k') eqn:E; cbn.
  - apply str_cmp_Eq in E as ->. specialize (Hf (k', v')). lia.
  - lia.
  - lia.
Qed.

(** ** [Peekable] *)

Record Peekable (A : Type) := { rest : list A; peeked : option A }.
Arguments rest {A} _.
Arguments peeked {A} _.

(** The iterator underneath is the list of what it still yields. *)
Definition iter_next {A} (l : list A) : option A * list A := (head l, tail l).
Definition Peekable_new {A} (l : list A) : Peekable A :=
  let '(x, l) := iter_next l in {| rest := l; peeked := x |}.
Definition peek {A} (p : Peekable A) : option A := peeked p.
Definition peekable_next {A} (p : Peekable A) : option A * Peekable A :=
  match peeked p with
  | Some x => let '(y, l) := iter_next (rest p) in (Some x, {| rest := l; peeked := y |})
  | None => (None, {| rest := rest p; peeked := None |})
  end.

(** What a [Peekable] still yields. *)
Definition remaining {A} (p : Peekable A) : list A :=
  match peeked p with Some x => x :: rest p | None => [] end.

Lemma remaining_new {A} (l : list A) : remaining (Peekable_new l) = l.
Proof. by destruct l. Qed.
Lemma peek_remaining {A} (p : Peekable A) : peek p = head (remaining p).
Proof. unfold peek, remaining. by destruct (peeked p). Qed.
Lemma peekable_next_remaining {A} (p : Peekable A) :
  (peekable_next p).1 = head (remaining p) /\ remaining (peekable_next p).2 = tail (remaining p).
Proof. unfold peekable_next, remaining. destruct (peeked p), (rest p); done. Qed.

(** ** The heap *)

Definition cmp_preorder {A} (cmp : A -> A -> comparison) : Prop :=
  (forall x y, cmp y x = CompOpp (cmp x y)) /\
  (forall x y z, cmp x y <> Gt -> cmp y z <> Gt -> cmp x z <> Gt).

(** [std::collections::BinaryHeap] as the list of its elements: [peek_mut]
    gives access to a greatest one; which one among equals is not specified. *)
Class BinaryHeap := { heap_top : forall {A}, (A -> A -> comparison) -> list A -> nat }.
Class BinaryHeapLaws `{BinaryHeap} := {
  heap_top_greatest A (cmp : A -> A -> comparison) l :
    cmp_preorder cmp -> l <> [] ->
    exists x, l !! heap_top cmp l = Some x /\ Forall (fun y => cmp y x <> Gt) l;
}.

(** ** [SortedSegments] *)

Record SortedPeekable := { segment_ord : nat; iter : Peekable entry }.

(** [Ord for SortedPeekable]: the smallest key is greatest, then the newest segment. *)
Definition segment_cmp (x y : SortedPeekable) : comparison :=
  match peek (iter x), peek (iter y) with
  | Some (a, _), Some (b, _) =>
      match CompOpp (str_cmp a b) with
      | Eq => Nat.compare (segment_ord x) (segment_ord y)
      | order => order
      end
  | Some _, None => Gt
  | None, Some _ => Lt
  | None, None => Eq
  end.

Section Merge.
Context `{BinaryHeap}.

Definition SortedSegments_new (segments : list (Peekable entry)) : list SortedPeekable :=
  imap (fun i p => {| segment_ord := i; iter := p |}) segments.

Definition advance (x : SortedPeekable) : SortedPeekable :=
  {| segment_ord := segment_ord x; iter := (peekable_next (iter x)).2 |}.
Definition head_key (x : SortedPeekable) : option (list Z) := fst <$> peek (iter x).

(** The [while let] loop that advances all segments with the same key; each
    turn advances one of them, so the fuel of [sorted_next] is enough. *)
Fixpoint skip_key (fuel : nat) (key : list Z) (heap : list SortedPeekable) : list SortedPeekable :=
  match fuel with
  | 0%nat => heap
  | S fuel =>
      let top := heap_top segment_cmp heap in
      match heap !! top with
      | None => heap
      | Some x =>
          if bool_decide (head_key x <> Some key) then heap
          else skip_key fuel key (<[top := advance x]> heap)
      end
  end.
Definition sorted_next (heap : list SortedPeekable) : option (entry * list SortedPeekable) :=
  let top := heap_top segment_cmp heap in
  match heap !! top with
  | None => None
  | Some x =>
      match peekable_next (iter x) with
      | (Some (key, value), _) =>
          Some ((key, value), skip_key (S (length heap)) key (<[top := advance x]> heap))
      | (None, _) => None
      end
  end.
Fixpoint sorted_collect (fuel : nat) (heap : list SortedPeekable) : list entry :=
  match fuel with
  | 0%nat => []
  | S fuel =>
      match sorted_next heap with
      | Some (e, heap) => e :: sorted_collect fuel heap
      | None => []
      end
  end.
Definition heap_size (heap : list SortedPeekable) : nat :=
  list_sum ((fun x => length (remaining (iter x))) <$> heap).
(** Everything the merge of the segments yields. *)
Definition sorted_segments (segments : list (list entry)) : list entry :=
  let heap := SortedSegments_new (Peekable_new <$> segments) in sorted_collect (S (heap_size heap)) heap.
End Merge.

(** What the merge stands for: the value in the newest segment that has the key. *)
Fixpoint newest (k : list Z) (segments : list (list entry)) : option (list Z) :=
  match segments with
  | [] => None
  | s :: segments => match newest k segments with Some v => Some v | None => assoc k s end
  end.

(** ** The merge is correct *)

Lemma segment_cmp_preorder : cmp_preorder segment_cmp.
Proof.
  split.
  - intros x y. unfold segment_cmp. destruct (peek (iter x)) as [[a ?]|], (peek (iter y)) as [[b ?]|]; try done.
    rewrite (str_cmp_opp a b). destruct (str_cmp a b); cbn; try done. apply Nat.compare_antisym.
  - intros x y z. unfold segment_cmp.
    destruct (peek (iter x)) as [[a ?]|], (peek (iter y)) as [[b ?]|], (peek (iter z)) as [[c ?]|]; try done.
    rewrite <- !str_cmp_opp. intros Hxy Hyz.
    destruct (str_cmp b a) eqn:E1; [apply str_cmp_Eq in E1 as ->| |done].
    + destruct (str_cmp c a); try done. rewrite Nat.compare_gt_iff in *. lia.
    + destruct (str_cmp c b) eqn:E2; [apply str_cmp_Eq in E2 as ->; by rewrite E1| |done].
      by rewrite (str_cmp_Lt_trans _ _ _ E2 E1).
Qed.

Section MergeProofs.
Context `{BinaryHeapLaws}.

Definition left (x : SortedPeekable) : list entry := remaining (iter x).
Definition heap_wf (h : list SortedPeekable) : Prop := Forall (fun x => sorted (left x)) h.
Definition drop_head (k : list Z) (x : SortedPeekable) : SortedPeekable :=
  if decide (head_key x = Some k) then advance x else x.

Lemma head_key_left x : head_key x = fst <$> head (left x).
Proof. unfold head_key. by rewrite peek_remaining. Qed.
Lemma left_advance x : left (advance x) = tail (left x).
Proof. apply (proj2 (peekable_next_remaining (iter x))). Qed.
Lemma segment_ord_drop k x : segment_ord (drop_head k x) = segment_ord x.
Proof. unfold drop_head. by case_decide. Qed.
Lemma advance_sorted x : sorted (left x) -> sorted (left (advance x)).
Proof. rewrite left_advance. destruct (left x); [done|]. by intros [? _]%StronglySorted_inv. Qed.
Lemma drop_head_sorted k x : sorted (left x) -> sorted (left (drop_head k x)).
Proof. unfold drop_head. case_decide; [apply advance_sorted|done]. Qed.
Lemma drop_head_advance k x :
  sorted (left x) -> head_key x = Some k -> drop_head k (advance x) = advance x /\ head_key (advance x) <> Some k.
Proof.
  intros Hs Hk. assert (head_key (advance x) <> Some k) as Hne.
  { rewrite head_key_left in Hk |- *. rewrite left_advance. destruct (left x) as [|[k0 v0] [|[k1 v1] l]]; try done.
    cbn in *. simplify_eq. apply StronglySorted_inv in Hs as [_ [Hlt _]%Forall_cons].
    intros E. simplify_eq. unfold key_lt in Hlt. cbn in Hlt. by rewrite str_cmp_refl in Hlt. }
  split; [|done]. unfold drop_head. by rewrite decide_False.
Qed.

(** The top of the heap has the smallest head key, in the newest segment with it. *)
Lemma top_spec h :
  h <> [] -> exists x, h !! heap_top segment_cmp h = Some x /\
    forall y k, y ∈ h -> head_key y = Some k ->
      exists k0, head_key x = Some k0 /\ str_cmp k0 k <> Gt /\ (k0 = k -> segment_ord y <= segment_ord x)%nat.
Proof.
  intros Hne. destruct (heap_top_greatest _ segment_cmp h segment_cmp_preorder Hne) as (x & Hx & Hall).
  exists x. split; [done|]. intros y k Hy Hk. rewrite Forall_forall in Hall. specialize (Hall y Hy).
  unfold segment_cmp, head_key in *. destruct (peek (iter y)) as [[ky vy]|]; [|done]. cbn in Hk. simplify_eq.
  destruct (peek (iter x)) as [[kx vx]|]; [|done]. exists kx. rewrite <- str_cmp_opp in Hall.
  split_and!; [done|by destruct (str_cmp kx k)|]. intros ->. rewrite str_cmp_refl in Hall.
  rewrite Nat.compare_gt_iff in Hall. lia.
Qed.

Lemma insert_split {A} (l : list A) i x y :
  l !! i = Some x -> exists l1 l2, l = l1 ++ x :: l2 /\ <[i := y]> l = l1 ++ y :: l2.
Proof.
  intros Hi. exists (take i l), (drop (S i) l). split; [by rewrite take_drop_middle|].
  apply insert_take_drop. by eapply lookup_lt_Some.
Qed.

(** Heads with key [k]. *)
Definition heads (k : list Z) (h : list SortedPeekable) : nat :=
  length (filter (fun x => head_key x = Some k) h).

Lemma advance_top k h i x :
  heap_wf h -> h !! i = Some x -> head_key x = Some k ->
  heap_wf (<[i := advance x]> h) /\ drop_head k <$> <[i := advance x]> h = drop_head k <$> h /\
  heads k h = S (heads k (<[i := advance x]> h)).
Proof.
  intros Hwf Hi Hk. destruct (insert_split h i x (advance x) Hi) as (l1 & l2 & -> & ->).
  apply Forall_app in Hwf as [H1 [Hx H2]%Forall_cons].
  destruct (drop_head_advance k x Hx Hk) as [Hd Hne]. split_and!.
  - apply Forall_app. split; [done|]. constructor; [by apply advance_sorted|done].
  - rewrite !fmap_app, !fmap_cons, Hd. do 2 f_equal. unfold drop_head. by rewrite decide_True.
  - unfold heads. rewrite !filter_app, !filter_cons, decide_True, decide_False by done.
    rewrite !length_app. cbn. lia.
Qed.

(** No head is before [k]. *)
Definition heads_from (k : list Z) (h : list SortedPeekable) : Prop :=
  forall y k', y ∈ h -> head_key y = Some k' -> str_cmp k k' <> Gt.
Lemma advance_ge k h i x :
  heap_wf h -> h !! i = Some x -> head_key x = Some k -> heads_from k h -> heads_from k (<[i := advance x]> h).
Proof.
  intros Hwf Hx Hk Hge y k' Hy Hy'. apply list_elem_of_lookup in Hy as [j Hj].
  destruct (decide (j = i)) as [->|Hj'].
  - rewrite list_lookup_insert_eq in Hj by (by eapply lookup_lt_Some). simplify_eq.
    assert (sorted (left x)) as Hs by exact (Forall_lookup_1 (fun x => sorted (left x)) h i x Hwf Hx).
    rewrite head_key_left in Hk, Hy'. rewrite left_advance in Hy'.
    destruct (left x) as [|[k0 v0] [|[k1 v1] l]]; try done. cbn in *. simplify_eq.
    apply StronglySorted_inv in Hs as [_ [Hlt _]%Forall_cons]. unfold key_lt in Hlt. cbn in Hlt. congruence.
  - rewrite list_lookup_insert_ne in Hj by done. apply (Hge y); [by eapply list_elem_of_lookup_2|done].
Qed.

Lemma skip_key_spec fuel k h :
  (heads k h < fuel)%nat -> heap_wf h -> heads_from k h ->
  skip_key fuel k h = drop_head k <$> h.
Proof.
  revert h; induction fuel as [|fuel IH]; intros h Hf Hwf Hge; [lia|]. cbn [skip_key].
  destruct (decide (h = [])) as [->|Hne]; [done|].
  destruct (top_spec h Hne) as (x & Hx & Htop). rewrite Hx. case_bool_decide as Hk.
  - rewrite <- (list_fmap_id h) at 1. apply list_fmap_ext. intros i y Hy. cbn. unfold drop_head.
    rewrite decide_False; [done|]. intros E. apply list_elem_of_lookup_2 in Hy.
    destruct (Htop _ _ Hy E) as (k0 & Hk0 & Hle & _).
    pose proof (Hge x k0 (list_elem_of_lookup_2 _ _ _ Hx) Hk0) as Hge0.
    apply Hk. rewrite Hk0. f_equal. apply str_cmp_Eq. destruct (str_cmp k0 k) eqn:E1; [done| |done].
    by apply str_cmp_Gt in E1.
  - destruct (advance_top k h _ x Hwf Hx Hk) as (Hwf' & Hd & Hn).
    rewrite IH; [done|lia|done|by eapply advance_ge].
Qed.

(** One step: the smallest key, its value in the newest segment that has it at
    its head, and that key gone from all of them. *)
Lemma sorted_next_spec h :
  heap_wf h ->
  match sorted_next h with
  | None => Forall (fun x => left x = []) h
  | Some ((k, v), h') =>
      h' = drop_head k <$> h /\
      heads_from k h /\
      exists x, x ∈ h /\ head (left x) = Some (k, v) /\
        forall y, y ∈ h -> head_key y = Some k -> (segment_ord y <= segment_ord x)%nat
  end.
Proof.
  intros Hwf. unfold sorted_next. destruct (decide (h = [])) as [->|Hne]; [by rewrite lookup_nil|].
  destruct (top_spec h Hne) as (x & Hx & Htop). rewrite Hx.
  pose proof (peekable_next_remaining (iter x)) as [Hn _]. fold (left x) in Hn.
  destruct (peekable_next (iter x)) as [[[k v]|] p]; cbn in Hn.
  - assert (head_key x = Some k) as Hk by (rewrite head_key_left, <- Hn; done).
    destruct (advance_top k h _ x Hwf Hx Hk) as (Hwf' & Hd & Hc).
    assert (heads_from k h) as Hge.
    { intros y k' Hy Hy'. destruct (Htop _ _ Hy Hy') as (k0 & Hk0 & Hle & _). congruence. }
    split_and!; [|done|].
    + rewrite <- Hd. apply skip_key_spec; [|done|].
      * assert (heads k h <= length h)%nat by apply length_filter. lia.
      * by eapply advance_ge.
    + exists x. split_and!; [by eapply list_elem_of_lookup_2|done|].
      intros y Hy Hy'. destruct (Htop _ _ Hy Hy') as (k0 & Hk0 & _ & Ho). apply Ho. congruence.
  - apply Forall_forall. intros y Hy. destruct (left y) as [|[ky vy] l] eqn:El; [done|].
    destruct (Htop y ky Hy) as (k0 & Hk0 & _); [by rewrite head_key_left, El|].
    rewrite head_key_left, <- Hn in Hk0. done.
Qed.

Definition htotal (f : entry -> Z) (h : list SortedPeekable) : Z :=
  fold_right Z.add 0 ((fun x => total f (left x)) <$> h).
Lemma heap_size_total h : Z.of_nat (heap_size h) = htotal (fun _ => 1) h.
Proof.
  assert (forall l, Z.of_nat (length l) = total (fun _ => 1) l) as Hlen
    by (induction l as [|e l IH]; cbn [length total]; lia).
  unfold heap_size, htotal. induction h as [|x h IH]; [done|].
  rewrite !fmap_cons. cbn [list_sum fold_right]. change (foldr Nat.add 0%nat) with list_sum.
  rewrite Nat2Z.inj_add, IH. f_equal. apply Hlen.
Qed.

Lemma htotal_drop f k v h x :
  (forall e, 0 <= f e) -> x ∈ h -> head (left x) = Some (k, v) ->
  f (k, v) + htotal f (drop_head k <$> h) <= htotal f h.
Proof.
  intros Hf Hx Hk.
  assert (forall y, total f (left (drop_head k y)) <= total f (left y)) as Hle.
  { intros y. unfold drop_head. case_decide; [|lia]. rewrite left_advance. destruct (left y) as [|e l]; cbn [tail total]; [lia|].
    specialize (Hf e). lia. }
  assert (f (k, v) + total f (left (drop_head k x)) <= total f (left x)) as Hdrop.
  { unfold drop_head. rewrite decide_True by (by rewrite head_key_left, Hk). rewrite left_advance.
    destruct (left x) as [|e l]; cbn in Hk |- *; simplify_eq. lia. }
  assert (forall h0, htotal f (drop_head k <$> h0) <= htotal f h0) as Hall.
  { intros h0. induction h0 as [|y h0 IH]; [done|]. unfold htotal in *. cbn. specialize (Hle y). lia. }
  induction h as [|y h IH]; [by apply elem_of_nil in Hx|]. apply elem_of_cons in Hx as [<-|Hx].
  - specialize (Hall h). unfold htotal in *. cbn. lia.
  - specialize (IH Hx). specialize (Hle y). unfold htotal in *. cbn. lia.
Qed.

Lemma assoc_at_head k x :
  sorted (left x) -> (forall k', head_key x = Some k' -> str_cmp k k' <> Gt) ->
  is_Some (assoc k (left x)) -> head_key x = Some k.
Proof.
  rewrite head_key_left. destruct (left x) as [|[k1 v1] l]; intros Hs Hge [v Hv]; [done|]. cbn in *.
  specialize (Hge k1 eq_refl). case_decide as E; [by subst|].
  rewrite (sorted_above (k1, v1) l k) in Hv by done. done.
Qed.
Lemma drop_head_assoc k x :
  sorted (left x) -> (forall k', head_key x = Some k' -> str_cmp k k' <> Gt) ->
  forall k0, assoc k0 (left (drop_head k x)) = if decide (k0 = k) then None else assoc k0 (left x).
Proof.
  intros Hs Hge k0. unfold drop_head. case_decide as Hk.
  - rewrite head_key_left in Hk. rewrite left_advance. destruct (left x) as [|[k1 v1] l]; [done|]. cbn in *. simplify_eq.
    case_decide; [|done]. subst. apply (sorted_above (k, v1)); [done|]. cbn. by rewrite str_cmp_refl.
  - case_decide; [|done]. subst. destruct (assoc k (left x)) eqn:E; [|done].
    exfalso. by apply Hk, assoc_at_head.
Qed.
Lemma drop_head_above k x e :
  sorted (left x) -> (forall k', head_key x = Some k' -> str_cmp k k' <> Gt) ->
  e ∈ left (drop_head k x) -> e ∈ left x /\ str_cmp k e.1 = Lt.
Proof.
  intros Hs Hge He. assert (e ∈ left x) as Hin.
  { unfold drop_head in He. case_decide; [|done]. rewrite left_advance in He.
    destruct (left x); [done|by right]. }
  split; [done|]. pose proof (drop_head_assoc k x Hs Hge k) as Hnone. rewrite decide_True in Hnone by done.
  apply (drop_head_sorted k) in Hs as Hs'. rewrite head_key_left in Hge.
  assert (str_cmp k e.1 <> Gt).
  { destruct (left x) as [|[k1 v1] l]; [by apply elem_of_nil in Hin|]. specialize (Hge k1 eq_refl).
    apply elem_of_cons in Hin as [-> |Hin]; [done|]. apply StronglySorted_inv in Hs as [_ Hall].
    rewrite Forall_forall in Hall. specialize (Hall e Hin). unfold key_lt in Hall. cbn in Hall.
    eapply str_le_trans; [done|]. congruence. }
  destruct (str_cmp k e.1) eqn:E; [|done|done]. apply str_cmp_Eq in E. exfalso.
  clear -Hnone He E. induction (left (drop_head k x)) as [|[k1 v1] l IH]; [by apply elem_of_nil in He|].
  cbn in Hnone. case_decide; [done|]. apply elem_of_cons in He as [-> |He]; [done|auto].
Qed.

(** [v] is the value of [k] in the newest of the sources that have it. *)
Definition newest_left (h : list SortedPeekable) (k v : list Z) : Prop :=
  exists x, x ∈ h /\ assoc k (left x) = Some v /\
    forall y, y ∈ h -> is_Some (assoc k (left y)) -> (segment_ord y <= segment_ord x)%nat.

Lemma sorted_collect_spec f fuel h :
  (forall e, 0 <= f e) -> heap_wf h -> (heap_size h < fuel)%nat ->
  let out := sorted_collect fuel h in
  sorted out /\ (forall e, e ∈ out -> exists x, x ∈ h /\ e ∈ left x) /\
  (forall k v, assoc k out = Some v -> newest_left h k v) /\
  (forall k, assoc k out = None -> forall x, x ∈ h -> assoc k (left x) = None) /\
  total f out <= htotal f h.
Proof.
  intros Hf. revert h; induction fuel as [|fuel IH]; intros h Hwf Hsize; [lia|]. cbn [sorted_collect].
  pose proof (sorted_next_spec h Hwf) as Hnext. destruct (sorted_next h) as [[[k v] h']|].
  2: { split_and!; [constructor|by intros e ?%elem_of_nil|done| |].
       - intros k _ x Hx. rewrite Forall_forall in Hnext. by rewrite Hnext.
       - cbn. unfold htotal. clear -Hf. induction h as [|x h IH]; [done|]. cbn.
         pose proof (total_nonneg f (left x) Hf). lia. }
  destruct Hnext as (-> & Hge & x & Hx & Hhead & Hnew).
  assert (forall y, y ∈ h -> sorted (left y)) as Hsort by (by apply Forall_forall).
  assert (head_key x = Some k) as Hkey by (by rewrite head_key_left, Hhead).
  destruct (IH (drop_head k <$> h)) as (Hs & Hfrom & Hval & Hnone & Htot).
  { apply Forall_fmap, Forall_forall. intros y Hy. by apply drop_head_sorted, Hsort. }
  { apply Nat2Z.inj_lt in Hsize. rewrite heap_size_total in Hsize. apply Nat2Z.inj_lt. rewrite heap_size_total.
    pose proof (htotal_drop (fun _ => 1) k v h x (fun _ => Z.le_0_1) Hx Hhead) as Hd.
    cbn beta in Hd. lia. }
  split_and!.
  - constructor; [done|]. apply Forall_forall. intros e He. destruct (Hfrom e He) as (y' & Hy' & Hin).
    apply list_elem_of_fmap in Hy' as (y & -> & Hy).
    destruct (drop_head_above k y e (Hsort y Hy) (fun k' => Hge y k' Hy) Hin) as [_ Hlt]. done.
  - intros e [-> |He]%elem_of_cons.
    { exists x. split; [done|]. destruct (left x); cbn in Hhead; simplify_eq. by left. }
    destruct (Hfrom e He) as (y' & Hy' & Hin). apply list_elem_of_fmap in Hy' as (y & -> & Hy).
    exists y. split; [done|]. by apply (drop_head_above k y e (Hsort y Hy) (fun k' => Hge y k' Hy)).
  - intros k0 v0 E. cbn in E. case_decide as Hk0; simplify_eq.
    + exists x. split_and!; [done| |].
      { destruct (left x) as [|[k1 v1] l]; cbn in Hhead; simplify_eq. cbn. by rewrite decide_True. }
      intros y Hy Hsome. apply Hnew; [done|]. apply assoc_at_head; [by apply Hsort|by intros; apply (Hge y)|done].
    + destruct (Hval k0 v0 E) as (y' & Hy' & Ha & Hmax). apply list_elem_of_fmap in Hy' as (y & -> & Hy).
      rewrite (drop_head_assoc k y (Hsort y Hy) (fun k' => Hge y k' Hy)), decide_False in Ha by done.
      exists y. split_and!; [done|done|]. intros z Hz Hzs. rewrite <- (segment_ord_drop k z), <- (segment_ord_drop k y).
      apply Hmax; [by apply list_elem_of_fmap_2|].
      by rewrite (drop_head_assoc k z (Hsort z Hz) (fun k' => Hge z k' Hz)), decide_False.
  - intros k0 E y Hy. cbn in E. case_decide as Hk0; [done|].
    specialize (Hnone k0 E (drop_head k y)). rewrite <- Hnone by (by apply list_elem_of_fmap_2).
    by rewrite (drop_head_assoc k y (Hsort y Hy) (fun k' => Hge y k' Hy)), decide_False.
  - cbn [total]. pose proof (htotal_drop f k v h x Hf Hx Hhead). lia.
Qed.

Lemma newest_None k segs : Forall (fun s => assoc k s = None) segs -> newest k segs = None.
Proof. induction 1 as [|s segs Hs _ IH]; cbn; [done|]. by rewrite IH. Qed.
Lemma newest_max k segs i s v :
  segs !! i = Some s -> assoc k s = Some v ->
  (forall j s', segs !! j = Some s' -> (i < j)%nat -> assoc k s' = None) -> newest k segs = Some v.
Proof.
  revert i; induction segs as [|s0 segs IH]; intros i Hi Hv Hmax; [done|]. cbn. destruct i as [|i].
  - cbn in Hi. simplify_eq. rewrite newest_None; [done|]. apply Forall_lookup. intros j s' Hj.
    apply (Hmax (S j)); [done|lia].
  - rewrite (IH i Hi Hv); [done|]. intros j s' Hj Hlt. apply (Hmax (S j)); [done|lia].
Qed.
Lemma newest_app k segs s :
  newest k (segs ++ [s]) = match assoc k s with Some v => Some v | None => newest k segs end.
Proof.
  induction segs as [|s0 segs IH]; cbn; [by destruct (assoc k s)|]. rewrite IH. by destruct (assoc k s).
Qed.

Lemma heap_lookup segs i x :
  SortedSegments_new (Peekable_new <$> segs) !! i = Some x ->
  exists s, segs !! i = Some s /\ left x = s /\ segment_ord x = i.
Proof.
  unfold SortedSegments_new. rewrite list_lookup_imap, list_lookup_fmap.
  destruct (segs !! i) as [s|] eqn:Hs; [|done]. cbn. intros [= <-].
  exists s. split_and!; [done| |done]. unfold left. cbn. apply remaining_new.
Qed.

Lemma sorted_segments_spec f segs :
  (forall e, 0 <= f e) -> Forall sorted segs ->
  sorted (sorted_segments segs) /\
  (forall k, assoc k (sorted_segments segs) = newest k segs) /\
  total f (sorted_segments segs) <= fold_right Z.add 0 (total f <$> segs).
Proof.
  intros Hf Hsegs. unfold sorted_segments. set (h := SortedSegments_new (Peekable_new <$> segs)).
  assert (heap_wf h) as Hwf.
  { apply Forall_lookup. intros i x (s & Hs & -> & _)%heap_lookup. by eapply Forall_lookup_1 in Hsegs. }
  destruct (sorted_collect_spec f (S (heap_size h)) h Hf Hwf ltac:(lia)) as (Hs & _ & Hval & Hnone & Htot).
  split_and!; [done| |].
  - intros k. destruct (assoc k _) as [v|] eqn:E.
    + destruct (Hval _ _ E) as (x & Hx & Ha & Hmax). apply list_elem_of_lookup in Hx as [i Hi].
      destruct (heap_lookup segs i x Hi) as (s & Hsi & Hl & Ho). symmetry. eapply newest_max; [done|by rewrite <- Hl|].
      intros j s' Hj Hlt. destruct (assoc k s') as [v'|] eqn:E'; [|done]. exfalso.
      destruct (h !! j) as [y|] eqn:Hy.
      * destruct (heap_lookup segs j y Hy) as (s'' & Hs'' & Hl' & Ho'). simplify_eq.
        specialize (Hmax y (list_elem_of_lookup_2 _ _ _ Hy)). rewrite E' in Hmax.
        specialize (Hmax ltac:(by eexists)). lia.
      * apply lookup_ge_None in Hy. apply lookup_lt_Some in Hj. unfold h, SortedSegments_new in Hy.
        rewrite length_imap, length_fmap in Hy. lia.
    + symmetry. apply newest_None, Forall_lookup. intros i s Hi.
      destruct (h !! i) as [x|] eqn:Hx.
      * destruct (heap_lookup segs i x Hx) as (s' & Hs' & Hl & _). simplify_eq.
        apply Hnone; [done|by eapply list_elem_of_lookup_2].
      * apply lookup_ge_None in Hx. apply lookup_lt_Some in Hi. unfold h, SortedSegments_new in Hx.
        rewrite length_imap, length_fmap in Hx. lia.
  - etransitivity; [exact Htot|]. unfold htotal.
    assert ((fun x => total f (left x)) <$> h = total f <$> segs) as ->; [|done].
    apply list_eq. intros i. rewrite !list_lookup_fmap. destruct (h !! i) as [x|] eqn:Hx.
    + destruct (heap_lookup segs i x Hx) as (s & -> & Hl & _). cbn. by rewrite Hl.
    + apply lookup_ge_None in Hx. unfold h, SortedSegments_new in Hx. rewrite length_imap, length_fmap in Hx.
      by rewrite (proj2 (lookup_ge_None segs i)).
Qed.

(** merging the segments yields their keys in strictly increasing byte
    order, each once, with the value of the newest segment that has it, whatever
    the heap does with equal elements; the loops end within their fuel. *)
Theorem merge_keeps_newest segs :
  Forall sorted segs ->
  sorted (sorted_segments segs) /\ forall k, assoc k (sorted_segments segs) = newest k segs.
Proof.
  intros Hs. destruct (sorted_segments_spec (fun _ => 0) segs) as (H1 & H2 & _); [lia|done|done].
Qed.
End MergeProofs.

(** ** A heap *)

Module HeapReference.
(** The first greatest element. *)
Fixpoint best {A} (cmp : A -> A -> comparison) (l : list A) : option (nat * A) :=
  match l with
  | [] => None
  | x :: l =>
      match best cmp l with
      | Some (i, y) => match cmp y x with Gt => Some (S i, y) | _ => Some (0%nat, x) end
      | None => Some (0%nat, x)
      end
  end.
#[export] Instance heap_reference : BinaryHeap :=
  {| heap_top A cmp l := default 0%nat (fst <$> best cmp l) |}.
#[export] Instance heap_reference_laws : BinaryHeapLaws.
Proof.
  split. intros A cmp l [Hopp Htrans] Hne.
  assert (exists i x, best cmp l = Some (i, x) /\ l !! i = Some x /\ Forall (fun y => cmp y x <> Gt) l)
    as (i & x & Hb & Hi & Hall); [|exists x; cbn; rewrite Hb; done].
  assert (forall x, cmp x x <> Gt) as Hrefl
    by (intros x E; pose proof (Hopp x x) as Ho; rewrite E in Ho; done).
  induction l as [|x l IH]; [done|]. cbn [best]. destruct (decide (l = [])) as [->|Hl].
  { exists 0%nat, x. cbn. repeat constructor; auto. }
  destruct (IH Hl) as (i & y & -> & Hi & Hall). destruct (cmp y x) eqn:E.
  3: { exists (S i), y. split_and!; [done|done|]. constructor; [|done]. rewrite Hopp, E. done. }
  all: exists 0%nat, x; (split_and!; [done|done|]); constructor; [auto|];
    eapply Forall_impl; [exact Hall|]; intros z Hz; eapply Htrans; [exact Hz|congruence].
Qed.
End HeapReference.

Module MergeExamples.
Import HeapReference.
Definition old_segment : list entry := [([1], [10]); ([1; 2], [11]); ([3], [12])].
Definition new_segment : list entry := [([1; 2], [21]); ([2], [22])].
Lemma merge_keeps_newest_witness :
  sorted_segments [old_segment; new_segment] = [([1], [10]); ([1; 2], [21]); ([2], [22]); ([3], [12])] /\
  assoc [1; 2] (sorted_segments [old_segment; new_segment]) = Some [21].
Proof.
  split; [vm_compute; reflexivity|].
  refine (proj2 (merge_keeps_newest [old_segment; new_segment] _) [1; 2]).
  repeat constructor.
Defined.
End MergeExamples.
