(* ===== verification/KvSegment.v ===== *)
(** * Segments of the key-value store ([crates/speedy-kv])

    The four files of a segment, how [SegmentWriter] produces them and what
    [Segment] reads from them. A file system call can fail; after a failure
    the error is returned with whatever had been written. A panic is the error
    [KvPanic] in a method and [None] in a read. The finite-state transducer of
    the [fst] crate is a parameter. *)

From S2P Require Import Prelude Text Floats FileStore Bloom KvMerge.

#[local] Open Scope Z_scope.

(** ** Automata and transducers *)

(** [fst::Automaton]; [accept] is [None] when it panics. *)
Record Automaton (S : Type) := {
  aut_start : S;
  aut_is_match : S -> bool;
  aut_can_match : S -> bool;
  aut_accept : S -> Z -> option S;
}.
Arguments aut_start {S} _.
Arguments aut_is_match {S} _ _.
Arguments aut_can_match {S} _ _.
Arguments aut_accept {S} _ _ _.

(** Whether the automaton matches a key; [None] is the panic. *)
Fixpoint aut_run {S} (a : Automaton S) (s : S) (k : list Z) : option bool :=
  match k with
  | [] => Some (aut_is_match a s)
  | b :: k => if aut_can_match a s then s ← aut_accept a s b; aut_run a s k else Some false
  end.

(** [speedy_kv::automaton::ExactMatch]. *)
Definition ExactMatch (key : list Z) : Automaton (option nat) := {|
  aut_start := Some 0%nat;
  aut_is_match state := bool_decide (state = Some (length key));
  aut_can_match state := bool_decide (is_Some state);
  aut_accept state byte :=
    match state with
    | Some state => b ← key !! state; Some (if b =? byte then Some (state + 1)%nat else None)
    | None => Some None
    end;
|}.

Inductive Bound := Included (k : list Z) | Excluded (k : list Z) | Unbounded.
Definition above (b : Bound) (k : list Z) : bool :=
  match b with
  | Included lo => bool_decide (str_cmp lo k <> Gt)
  | Excluded lo => bool_decide (str_cmp lo k = Lt)
  | Unbounded => true
  end.
Definition below (b : Bound) (k : list Z) : bool :=
  match b with
  | Included hi => bool_decide (str_cmp k hi <> Gt)
  | Excluded hi => bool_decide (str_cmp k hi = Lt)
  | Unbounded => true
  end.

(** The [fst] crate: the file a builder leaves for a sequence of insertions,
    whether a file can be opened, the first result of a search, all of them,
    those in a range, and the number of keys. *)
Class Fst := {
  fst_build : list (list Z * Z) -> list Z;
  fst_valid : list Z -> bool;
  fst_next : forall {S}, list Z -> Automaton S -> option (option (list Z * Z));
  fst_search : forall {S}, list Z -> Automaton S -> option (list (list Z * Z));
  fst_range : list Z -> Bound -> Bound -> list (list Z * Z);
  fst_len : list Z -> nat;
}.
Definition ids_sorted (l : list (list Z * Z)) : Prop := StronglySorted (fun a b => str_cmp a.1 b.1 = Lt) l.
(** Documented behaviour, for keys inserted in order: a search visits the keys
    in order, runs the automaton on them and is lazy. *)
Class FstLaws `{Fst} := {
  fst_valid_build l : ids_sorted l -> fst_valid (fst_build l) = true;
  fst_len_build l : ids_sorted l -> fst_len (fst_build l) = length l;
  fst_next_found S (a : Automaton S) l1 k v l2 :
    ids_sorted (l1 ++ (k, v) :: l2) ->
    Forall (fun e => aut_run a (aut_start a) e.1 = Some false) l1 ->
    aut_run a (aut_start a) k = Some true ->
    fst_next (fst_build (l1 ++ (k, v) :: l2)) a = Some (Some (k, v));
  fst_next_none S (a : Automaton S) l :
    ids_sorted l -> Forall (fun e => aut_run a (aut_start a) e.1 = Some false) l ->
    fst_next (fst_build l) a = Some None;
  fst_search_all S (a : Automaton S) l (matches : list Z -> bool) :
    ids_sorted l -> Forall (fun e => aut_run a (aut_start a) e.1 = Some (matches e.1)) l ->
    fst_search (fst_build l) a = Some (List.filter (fun e => matches e.1) l);
  fst_range_all l lo hi :
    ids_sorted l -> fst_range (fst_build l) lo hi = List.filter (fun e => above lo e.1 && below hi e.1) l;
}.

(** The other code the store is built on: the logarithm behind the filter's
    size, its hash and its [bincode] encoding. *)
Class KvLibs := {
  kv_fst :: Fst;
  kv_heap :: BinaryHeap;
  kv_ln : float -> float;
  kv_hash : list Z -> Z;
  bloom_encode : BytesBloomFilter -> list Z;
  bloom_decode : list Z -> option BytesBloomFilter;
}.
Class KvLibsLaws `{KvLibs} := {
  kv_fst_laws :: FstLaws;
  kv_heap_laws :: BinaryHeapLaws;
  bloom_decode_encode f : bloom_decode (bloom_encode f) = Some f;
}.

(** ** Pointers *)

Record BlobPointer := { ptr_key : Z * Z; ptr_value : Z * Z }.
Definition pointer_as_bytes (p : BlobPointer) : list Z :=
  concat (to_le_bytes 8 <$> [(ptr_key p).1; (ptr_key p).2; (ptr_value p).1; (ptr_value p).2]).
Definition pointer_from_bytes (bytes : list Z) : option BlobPointer :=
  a ← slice bytes 0 8; b ← slice bytes 8 8; c ← slice bytes 16 8; d ← slice bytes 24 8;
  Some {| ptr_key := (from_le_bytes a, from_le_bytes b); ptr_value := (from_le_bytes c, from_le_bytes d) |}.
(** Both conversions require the exact length. *)
Definition const_pointer : ConstSerializable BlobPointer := {|
  BYTES := 32;
  serialize p buf := if bool_decide (length buf = 32%nat) then Some (pointer_as_bytes p) else None;
  deserialize buf := if bool_decide (length buf = 32%nat) then pointer_from_bytes buf else None;
|}.
Definition pointer_ok (p : BlobPointer) : Prop :=
  is_u64 (ptr_key p).1 /\ is_u64 (ptr_key p).2 /\ is_u64 (ptr_value p).1 /\ is_u64 (ptr_value p).2.

Lemma from_to_le_u64 v : is_u64 v -> from_le_bytes (to_le_bytes 8 v) = v.
Proof.
  intros Hv. apply from_to_le_bytes. change (256 ^ Z.of_nat 8) with (u64_max + 1). unfold is_u64 in Hv. lia.
Qed.
Lemma slice_at (l1 l2 l3 : list Z) start len :
  length l1 = start -> length l2 = len -> slice (l1 ++ l2 ++ l3) start len = Some l2.
Proof. intros <- <-. apply slice_app. Qed.
#[export] Instance const_pointer_laws : ConstLaws const_pointer pointer_ok.
Proof.
  split; [cbn; lia|]. intros [[a b] [c d]] buf (Ha & Hb & Hc & Hd) Hl. cbn in Ha, Hb, Hc, Hd.
  cbn [BYTES const_pointer] in Hl. cbn [serialize deserialize const_pointer BYTES].
  rewrite bool_decide_true by done. eexists. split; [done|].
  assert (forall v, length (to_le_bytes 8 v) = 8%nat) as L by (intros; apply to_le_bytes_length).
  unfold pointer_as_bytes, pointer_from_bytes. cbn [ptr_key ptr_value fst snd fmap list_fmap concat].
  set (all := to_le_bytes 8 a ++ _).
  assert (length all = 32%nat) as Hall by (unfold all; by rewrite !length_app, !L).
  split; [done|]. rewrite bool_decide_true by done.
  assert (slice all 0 8 = Some (to_le_bytes 8 a)) as -> by (by apply (slice_at [])).
  assert (slice all 8 8 = Some (to_le_bytes 8 b)) as -> by (by apply slice_at).
  assert (slice all 16 8 = Some (to_le_bytes 8 c)) as ->.
  { unfold all. rewrite (app_assoc (to_le_bytes 8 a)). apply slice_at; by rewrite ?length_app, !L. }
  assert (slice all 24 8 = Some (to_le_bytes 8 d)) as ->.
  { unfold all. rewrite (app_assoc (to_le_bytes 8 a)), (app_assoc (_ ++ _)).
    apply slice_at; by rewrite ?length_app, !L. }
  cbn [mbind option_bind]. by rewrite !from_to_le_u64.
Qed.

(** ** Files *)

Inductive FileKind := Ids | Bid | Blobs | Blm.
#[export] Instance FileKind_eq_dec : EqDecision FileKind.
Proof. solve_decision. Defined.
#[export] Instance FileKind_countable : Countable FileKind :=
  inj_countable' (fun k => match k with Ids => 0 | Bid => 1 | Blobs => 2 | Blm => 3 end)%nat
    (fun n => match n with 0 => Ids | 1 => Bid | 2 => Blobs | _ => Blm end)%nat
    (fun k => match k with Ids => eq_refl | Bid => eq_refl | Blobs => eq_refl | Blm => eq_refl end).

Inductive KvError := KvIo | KvFst | KvDecode | KvMeta | KvPanic.

(** Files by folder, segment and kind; [meta.json] by folder, truncated or with
    the segments it lists; and how many more calls succeed, [None] when all do. *)
Abbreviation file := (Z * Z * FileKind)%type.
Record FileSystem := {
  files : gmap file (list Z);
  metas : gmap Z (option (list Z));
  calls : option nat;
}.
Abbreviation io := (method FileSystem KvError).

Definition set_files (f : gmap file (list Z)) (d : FileSystem) : FileSystem :=
  {| files := f; metas := metas d; calls := calls d |}.
Definition set_meta (folder : Z) (m : option (list Z)) (d : FileSystem) : FileSystem :=
  {| files := files d; metas := <[folder := m]> (metas d); calls := calls d |}.
Definition syscall (f : FileSystem -> FileSystem) : io unit := fun d =>
  match calls d with
  | Some 0%nat => (d, Err KvIo)
  | Some (S n) => (f {| files := files d; metas := metas d; calls := Some n |}, Ok tt)
  | None => (f d, Ok tt)
  end.
Definition create_file (k : file) : io unit := syscall (fun d => set_files (<[k := []]> (files d)) d).
Definition append_file (k : file) (bytes : list Z) : io unit :=
  syscall (fun d => set_files (<[k := default [] (files d !! k) ++ bytes]> (files d)) d).
Definition read_file (k : file) : io (list Z) :=
  syscall id ≫= fun _ => inspect (fun d => ok_or (files d !! k) KvIo).
Definition remove_file (k : file) : io unit :=
  inspect (fun d => ok_or (files d !! k) KvIo) ≫= fun _ => syscall (fun d => set_files (delete k (files d)) d).
Definition or_panic {A} (o : option A) : io A := inspect (fun _ => ok_or o KvPanic).

(** ** [SegmentWriter] *)

Section Segments.
Context `{KvLibs}.

(** [0.01_f64]. *)
Definition false_positives : float := default SpecFloat.S754_nan (parse_f64 (lit "0.01")).

(** Where the writers are; the bytes themselves go to the files, which are read
    only after the writers have been flushed. *)
Record SegmentWriter := {
  sw_folder : Z;
  sw_uuid : Z;
  sw_offset : Z;
  sw_next_id : Z;
  sw_ids : list (list Z * Z);
  sw_bloom : BytesBloomFilter;
}.
Definition SegmentWriter_new (folder uuid : Z) (num_items : Z) : SegmentWriter := {|
  sw_folder := folder; sw_uuid := uuid; sw_offset := 0; sw_next_id := 0; sw_ids := [];
  sw_bloom := BytesBloomFilter_new kv_ln num_items false_positives;
|}.
(** [u64] addition. *)
Definition wadd (a b : Z) : Z := (a + b) mod 2 ^ 64.

(** [BlobStoreWriter::write]: the pointer and the new offset. *)
Definition blob_pointer (offset : Z) (key value : list Z) : BlobPointer * Z :=
  let mid := wadd offset (zlen key) in
  let stop := wadd mid (zlen value) in
  ({| ptr_key := (offset, mid); ptr_value := (mid, stop) |}, stop).

(** [fst::MapBuilder::insert]: keys come in strictly increasing order. *)
Definition fst_insert (key : list Z) (id : Z) (ids : list (list Z * Z)) : result KvError (list (list Z * Z)) :=
  if match last ids with Some (k, _) => bool_decide (str_cmp k key = Lt) | None => true end
  then Ok (ids ++ [(key, id)]) else Err KvFst.

Definition segment_insert (e : entry) (w : SegmentWriter) : io SegmentWriter :=
  let '(key, value) := e in
  let file kind := (sw_folder w, sw_uuid w, kind) in
  append_file (file Blobs) key ≫= fun _ =>
  append_file (file Blobs) value ≫= fun _ =>
  let '(ptr, offset) := blob_pointer (sw_offset w) key value in
  or_panic (const_bytes const_pointer ptr) ≫= fun buf =>
  append_file (file Bid) buf ≫= fun _ =>
  inspect (fun _ => fst_insert key (sw_next_id w) (sw_ids w)) ≫= fun ids =>
  or_panic (insert_raw kv_hash key (sw_bloom w)) ≫= fun bloom =>
  mret {| sw_folder := sw_folder w; sw_uuid := sw_uuid w; sw_offset := offset;
          sw_next_id := sw_next_id w + 1; sw_ids := ids; sw_bloom := bloom |}.
Definition segment_finish (w : SegmentWriter) : io unit :=
  append_file (sw_folder w, sw_uuid w, Ids) (fst_build (sw_ids w)) ≫= fun _ =>
  append_file (sw_folder w, sw_uuid w, Bid) [] ≫= fun _ =>
  append_file (sw_folder w, sw_uuid w, Blobs) [] ≫= fun _ =>
  append_file (sw_folder w, sw_uuid w, Blm) (bloom_encode (sw_bloom w)).
Fixpoint write_sorted_it (l : list entry) (w : SegmentWriter) : io unit :=
  match l with
  | [] => segment_finish w
  | e :: l => segment_insert e w ≫= write_sorted_it l
  end.
(** The four [OpenOptions] calls, each with [create] and [truncate]. *)
Definition create_segment (folder uuid : Z) : io unit :=
  create_file (folder, uuid, Ids) ≫= fun _ => create_file (folder, uuid, Bid) ≫= fun _ =>
  create_file (folder, uuid, Blobs) ≫= fun _ => create_file (folder, uuid, Blm).

(** ** [Segment] *)

Record Segment := {
  seg_folder : Z;
  seg_uuid : Z;
  id_index : list Z;
  blob_index : list Z;
  store : list Z;
  bloom : BytesBloomFilter;
}.
Definition Segment_open (uuid folder : Z) : io Segment :=
  read_file (folder, uuid, Ids) ≫= fun ids =>
  inspect (fun _ => refuse_if (negb (fst_valid ids)) KvFst) ≫= fun _ =>
  read_file (folder, uuid, Bid) ≫= fun bid =>
  read_file (folder, uuid, Blobs) ≫= fun blobs =>
  read_file (folder, uuid, Blm) ≫= fun blm =>
  inspect (fun _ => ok_or (bloom_decode blm) KvDecode) ≫= fun f =>
  mret {| seg_folder := folder; seg_uuid := uuid; id_index := ids; blob_index := bid; store := blobs; bloom := f |}.

(** [BlobStore::get_raw], the [Blob] as a pair. *)
Definition store_get_raw (bytes : list Z) (p : BlobPointer) : option entry :=
  key ← slice_range bytes (ptr_key p).1 (ptr_key p).2;
  value ← slice_range bytes (ptr_value p).1 (ptr_value p).2;
  Some (key, value).
Definition get_blob (s : Segment) (id : Z) : option entry :=
  lookup_get const_pointer (blob_index s) id ≫= store_get_raw (store s).
(** [BlobIdIndex::get]. *)
Definition id_index_get (ids : list Z) (key : list Z) : option (option Z) :=
  match fst_next ids (ExactMatch key) with Some first => Some (snd <$> first) | None => None end.

Definition segment_get_raw (s : Segment) (key : list Z) : option (option (list Z)) :=
  found ← contains_raw kv_hash (bloom s) key;
  if negb found then Some None
  else id ← id_index_get (id_index s) key;
       match id with
       | Some id => e ← get_blob s id; Some (Some e.2)
       | None => Some None
       end.
(** Iterators, run to their end; [None] when one of the steps panics. *)
Definition segment_iter_raw_with_offset (s : Segment) (offset : nat) : option (list entry) :=
  match lookup_iter_with_offset const_pointer (blob_index s) offset with
  | (ptrs, Finished) => mapM (fun p => store_get_raw (store s) p.2) ptrs
  | _ => None
  end.
Definition segment_iter_raw (s : Segment) : option (list entry) := segment_iter_raw_with_offset s 0.
Definition segment_search_raw {S} (s : Segment) (query : Automaton S) : option (list entry) :=
  hits ← fst_search (id_index s) query; mapM (fun e => get_blob s e.2) hits.
Definition segment_range_raw (s : Segment) (lo hi : Bound) : option (list entry) :=
  mapM (fun e => get_blob s e.2) (fst_range (id_index s) lo hi).
Definition segment_len (s : Segment) : nat := fst_len (id_index s).

Definition remove_segment (s : Segment) : io unit :=
  remove_file (seg_folder s, seg_uuid s, Bid) ≫= fun _ => remove_file (seg_folder s, seg_uuid s, Ids) ≫= fun _ =>
  remove_file (seg_folder s, seg_uuid s, Blobs) ≫= fun _ => remove_file (seg_folder s, seg_uuid s, Blm).
Fixpoint remove_segments (l : list Segment) : io unit :=
  match l with [] => mret tt | s :: l => remove_segment s ≫= fun _ => remove_segments l end.

(** [Segment::merge]; [uuid] is the new identifier. *)
Definition Segment_merge (segments : list Segment) (folder uuid : Z) : io (option Segment) :=
  match segments with
  | [] => mret None
  | [s] => mret (Some s)
  | _ =>
      create_segment folder uuid ≫= fun _ =>
      or_panic (mapM segment_iter_raw segments) ≫= fun entries =>
      write_sorted_it (sorted_segments entries)
        (SegmentWriter_new folder uuid (Z.of_nat (list_sum (segment_len <$> segments)))) ≫= fun _ =>
      remove_segments segments ≫= fun _ =>
      Segment_open uuid folder ≫= fun s => mret (Some s)
  end.
End Segments.

(** ** The automaton *)

Lemma exact_run_dead key k : aut_run (ExactMatch key) None k = Some false.
Proof. destruct k; cbn; by rewrite ?bool_decide_false by (try done; by intros []). Qed.
Lemma exact_run_step key n b0 rest b k :
  drop n key = b0 :: rest ->
  aut_run (ExactMatch key) (Some n) (b :: k) =
    aut_run (ExactMatch key) (if b0 =? b then Some (n + 1)%nat else None) k /\ drop (n + 1) key = rest.
Proof.
  intros Hd. assert (key !! n = Some b0) as Hn.
  { rewrite <- (Nat.add_0_r n), <- lookup_drop, Hd. done. }
  split; [|by rewrite <- drop_drop, Hd].
  cbn [aut_run ExactMatch aut_can_match aut_accept]. rewrite bool_decide_true by done. by rewrite Hn.
Qed.
Lemma exact_run_end key n : drop n key = [] -> (n <= length key)%nat ->
  aut_is_match (ExactMatch key) (Some n) = true /\ aut_accept (ExactMatch key) (Some n) = (fun _ => None).
Proof.
  intros Hd Hn. assert (n = length key) as -> by (apply (f_equal length) in Hd; rewrite length_drop in Hd; cbn in Hd; lia).
  cbn. split; [by apply bool_decide_true|]. by rewrite lookup_ge_None_2.
Qed.
(** Run from its [n]th state, the automaton matches the rest of the key, and
    panics on every proper extension of it. *)
Lemma exact_run key n k :
  (n <= length key)%nat ->
  aut_run (ExactMatch key) (Some n) k =
    if decide (drop n key `prefix_of` k) then (if decide (k = drop n key) then Some true else None) else Some false.
Proof.
  revert n; induction k as [|b k IH]; intros n Hn.
  - cbn [aut_run]. destruct (drop n key) as [|b0 rest] eqn:Hd.
    + rewrite (proj1 (exact_run_end key n Hd Hn)). by rewrite decide_True, decide_True by done.
    + rewrite decide_False by (by intros ?%prefix_nil_not). cbn. rewrite bool_decide_false; [done|].
      intros [= ->]. rewrite drop_ge in Hd; done.
  - destruct (drop n key) as [|b0 rest] eqn:Hd.
    + destruct (exact_run_end key n Hd Hn) as [_ Ha]. cbn [aut_run]. rewrite Ha. cbn.
      rewrite decide_True by apply prefix_nil. by rewrite decide_False by done.
    + destruct (exact_run_step key n b0 rest b k Hd) as [-> Hd'].
      destruct (Z.eqb_spec b0 b) as [->|Hne].
      * rewrite IH, Hd'. 2: { apply (f_equal length) in Hd. rewrite length_drop in Hd. cbn in Hd. lia. }
        destruct (decide (rest `prefix_of` k)) as [Hp|Hp].
        -- rewrite (decide_True (P := b :: rest `prefix_of` b :: k)) by (by apply prefix_cons).
           destruct (decide (k = rest)) as [->|]; [by rewrite decide_True|]. rewrite decide_False; [done|]. congruence.
        -- rewrite decide_False; [done|]. by intros ?%prefix_cons_inv_2.
      * rewrite exact_run_dead, decide_False; [done|]. by intros ->%prefix_cons_inv_1.
Qed.

Lemma prefix_le (a b : list Z) : a `prefix_of` b -> str_cmp a b <> Gt.
Proof.
  intros [c ->]. induction a as [|x a IH]; cbn; [by destruct c|]. by rewrite Z.compare_refl.
Qed.

(** ** What a segment holds *)

Definition entry_bytes (e : entry) : Z := zlen e.1 + zlen e.2.
Lemma entry_bytes_nonneg e : 0 <= entry_bytes e.
Proof. unfold entry_bytes, zlen. lia. Qed.
Definition blobs (l : list entry) : list Z := concat ((fun e => e.1 ++ e.2) <$> l).
Fixpoint pointers (offset : Z) (l : list entry) : list BlobPointer :=
  match l with
  | [] => []
  | (k, v) :: l => let '(p, offset) := blob_pointer offset k v in p :: pointers offset l
  end.
Definition ids (l : list entry) : list (list Z * Z) := imap (fun i e => (e.1, Z.of_nat i)) l.

Lemma blob_pointer_fits offset k v :
  0 <= offset -> offset + entry_bytes (k, v) <= u64_max ->
  blob_pointer offset k v =
    ({| ptr_key := (offset, offset + zlen k); ptr_value := (offset + zlen k, offset + zlen k + zlen v) |},
     offset + entry_bytes (k, v)).
Proof.
  intros Ho Hf. unfold blob_pointer, wadd, entry_bytes, zlen, u64_max in *. cbn [fst snd] in *.
  rewrite (Z.mod_small (offset + _)) by lia. rewrite Z.mod_small by lia. f_equal. lia.
Qed.
Lemma total_app f l1 l2 : total f (l1 ++ l2) = total f l1 + total f l2.
Proof. induction l1 as [|e l1 IH]; cbn [app total]; lia. Qed.
Lemma blobs_app l1 l2 : blobs (l1 ++ l2) = blobs l1 ++ blobs l2.
Proof. unfold blobs. by rewrite fmap_app, concat_app. Qed.
Lemma blobs_length l : zlen (blobs l) = total entry_bytes l.
Proof.
  induction l as [|[k v] l IH]; [done|]. change ((k, v) :: l) with ([(k, v)] ++ l).
  rewrite blobs_app, total_app, <- IH. unfold blobs, entry_bytes, zlen. cbn. rewrite !length_app. cbn. lia.
Qed.
Lemma pointers_app offset l1 l2 :
  0 <= offset -> offset + total entry_bytes l1 <= u64_max ->
  pointers offset (l1 ++ l2) = pointers offset l1 ++ pointers (offset + total entry_bytes l1) l2.
Proof.
  revert offset; induction l1 as [|[k v] l1 IH]; intros offset Ho Hf; cbn [app pointers total].
  { by rewrite Z.add_0_r. }
  cbn [total] in Hf. pose proof (total_nonneg entry_bytes l1 entry_bytes_nonneg).
  pose proof (entry_bytes_nonneg (k, v)). rewrite blob_pointer_fits by lia. cbv iota beta.
  rewrite IH by lia. cbn [app]. do 3 f_equal. lia.
Qed.
Lemma pointers_ok offset l :
  0 <= offset -> offset + total entry_bytes l <= u64_max -> Forall pointer_ok (pointers offset l).
Proof.
  revert offset; induction l as [|[k v] l IH]; intros offset Ho Hf; cbn [pointers total] in *; [constructor|].
  pose proof (total_nonneg entry_bytes l entry_bytes_nonneg). pose proof (entry_bytes_nonneg (k, v)).
  rewrite blob_pointer_fits by lia. constructor; [|apply IH; lia].
  unfold pointer_ok, is_u64, entry_bytes, zlen in *. cbn [fst snd ptr_key ptr_value] in *. lia.
Qed.
Lemma pointers_read pre l post :
  zlen pre + total entry_bytes l <= u64_max ->
  Forall2 (fun p e => store_get_raw (pre ++ blobs l ++ post) p = Some e) (pointers (zlen pre) l) l.
Proof.
  revert pre; induction l as [|[k v] l IH]; intros pre Hf; cbn [pointers total] in *; [constructor|].
  pose proof (total_nonneg entry_bytes l entry_bytes_nonneg). pose proof (entry_bytes_nonneg (k, v)).
  rewrite blob_pointer_fits by (unfold zlen in *; lia).
  assert (blobs ((k, v) :: l) = k ++ v ++ blobs l) as -> by (unfold blobs; cbn; by rewrite <- app_assoc).
  constructor.
  - unfold store_get_raw. cbn [ptr_key ptr_value fst snd]. rewrite <- !app_assoc.
    rewrite (slice_app_range pre k _ (zlen pre) (zlen pre + zlen k)) by done. cbn [mbind option_bind].
    rewrite (app_assoc pre k).
    rewrite (slice_app_range (pre ++ k) v); [done|unfold zlen; rewrite length_app; lia..].
  - specialize (IH (pre ++ k ++ v)).
    assert (zlen (pre ++ k ++ v) = zlen pre + entry_bytes (k, v)) as El
      by (unfold zlen, entry_bytes; rewrite !length_app; cbn [fst snd]; unfold zlen; lia).
    rewrite El in IH. rewrite <- !app_assoc in IH |- *. apply IH. lia.
Qed.
Lemma ids_app l e : ids (l ++ [e]) = ids l ++ [(e.1, Z.of_nat (length l))].
Proof. unfold ids. rewrite imap_app. cbn. by rewrite Nat.add_0_r. Qed.
Lemma ids_sorted_ids l : sorted l -> ids_sorted (ids l).
Proof.
  induction l as [|e l IH] using rev_ind; intros Hs; [constructor|]. rewrite ids_app.
  assert (sorted l /\ forall e', e' ∈ l -> key_lt e' e) as [Hl Hlt].
  { clear IH. induction l as [|e0 l IH]; [split; [constructor|by intros ? ?%elem_of_nil]|].
    apply StronglySorted_inv in Hs as [Hs [Hall [He0 _]%Forall_cons]%Forall_app]. destruct (IH Hs) as [Hl Hlt].
    split; [by constructor|]. intros e' [-> |He']%elem_of_cons; auto. }
  specialize (IH Hl).
  assert (forall i, i ∈ ids l -> str_cmp i.1 e.1 = Lt) as Hids.
  { intros i Hi. apply list_elem_of_lookup in Hi as [j Hj]. unfold ids in Hj. rewrite list_lookup_imap in Hj.
    destruct (l !! j) as [e'|] eqn:E; [|done]. cbn in Hj. simplify_eq. apply Hlt. by eapply list_elem_of_lookup_2. }
  clear -IH Hids. induction (ids l) as [|i rest IH']; [by repeat constructor|].
  apply StronglySorted_inv in IH as [Hs Hall]. constructor.
  - apply IH'; [done|]. intros j Hj. apply Hids. by right.
  - apply Forall_app. split; [done|]. constructor; [|constructor]. apply Hids. by left.
Qed.

(** ** Reading a segment *)

Section Reads.
Context `{KvLibsLaws}.

(** The filter has bits, and finds the keys of [l] also after later insertions. *)
Definition bloom_holds (f : BytesBloomFilter) (l : list entry) : Prop :=
  (0 < length (bit_vec f))%nat /\
  forall f' e, bits_le (bit_vec f) (bit_vec f') -> hashes f' = hashes f -> e ∈ l ->
    contains_raw kv_hash f' e.1 = Some true.
(** The segment [s] holds the entries [l]. *)
Definition holds (s : Segment) (l : list entry) : Prop :=
  sorted l /\ total entry_bytes l <= u64_max /\
  id_index s = fst_build (ids l) /\
  blob_index s = packed const_pointer (pointers 0 l) /\
  store s = blobs l /\ bloom_holds (bloom s) l.

Lemma pointers_length offset l : length (pointers offset l) = length l.
Proof. revert offset; induction l as [|[k v] l IH]; intros offset; cbn; [done|]. by rewrite IH. Qed.

Lemma get_blob_holds s l i : holds s l -> get_blob s (Z.of_nat i) = l !! i.
Proof.
  intros (_ & Hf & _ & Hb & Hst & _). unfold get_blob. rewrite Hb, Hst.
  rewrite (lookup_get_packed const_pointer pointer_ok) by (apply pointers_ok; lia).
  pose proof (pointers_read [] l [] Hf) as Hall. change (zlen []) with 0 in Hall.
  rewrite app_nil_r, app_nil_l in Hall.
  destruct (l !! i) as [e|] eqn:Hi.
  - destruct (Forall2_lookup_r _ _ _ _ _ Hall Hi) as (p & -> & Hp). done.
  - apply lookup_ge_None in Hi. rewrite lookup_ge_None_2; [done|]. by rewrite pointers_length.
Qed.
Lemma iter_holds s l n : holds s l -> segment_iter_raw_with_offset s n = Some (drop n l).
Proof.
  intros (_ & Hf & _ & Hb & Hst & _). unfold segment_iter_raw_with_offset. rewrite Hb, Hst.
  rewrite (lookup_iter_packed const_pointer pointer_ok) by (apply pointers_ok; lia).
  apply mapM_Some.
  apply Forall2_drop. pose proof (pointers_read [] l [] Hf) as Hall. change (zlen []) with 0 in Hall.
  rewrite app_nil_r, app_nil_l in Hall.
  apply Forall2_same_length_lookup_2; [by rewrite length_imap, pointers_length|].
  intros i p e Hp He. rewrite list_lookup_imap in Hp.
  destruct (Forall2_lookup_r _ _ _ _ _ Hall He) as (q & Hq & Hr). rewrite Hq in Hp. cbn in Hp. by simplify_eq.
Qed.
Lemma len_holds s l : holds s l -> segment_len s = length l.
Proof.
  intros (Hs & _ & Hi & _). unfold segment_len. rewrite Hi, fst_len_build by (by apply ids_sorted_ids).
  apply length_imap.
Qed.

Lemma assoc_split k v l :
  sorted l -> assoc k l = Some v ->
  exists l1 l2, l = l1 ++ (k, v) :: l2 /\ Forall (fun e => str_cmp e.1 k = Lt) l1.
Proof.
  induction l as [|[k' v'] l IH]; intros Hs Ha; [done|]. cbn in Ha. case_decide as E; simplify_eq.
  { by exists [], l. }
  pose proof Hs as [Hs' Hall]%StronglySorted_inv. destruct (IH Hs' Ha) as (l1 & l2 & -> & H1).
  exists ((k', v') :: l1), l2. split; [done|]. constructor; [|done].
  rewrite Forall_forall in Hall. apply (Hall (k, v)). apply elem_of_app. right. by left.
Qed.
Lemma ids_split l1 k v l2 :
  exists l2', ids (l1 ++ (k, v) :: l2) = ids l1 ++ (k, Z.of_nat (length l1)) :: l2'.
Proof. unfold ids. rewrite imap_app. cbn. rewrite Nat.add_0_r. by eexists. Qed.
Lemma ids_Forall (P : list Z -> Prop) l :
  Forall (fun e => P e.1) l -> Forall (fun e => P e.1) (ids l).
Proof.
  intros Hall. apply Forall_lookup. intros i e He. unfold ids in He. rewrite list_lookup_imap in He.
  destruct (l !! i) as [e'|] eqn:Hi; [|done]. cbn in He. simplify_eq. cbn. by apply (Forall_lookup_1 _ _ _ _ Hall Hi).
Qed.

(** [key] is not a proper beginning of a key in [l]. *)
Definition no_extension (key : list Z) (l : list entry) : Prop :=
  forall e, e ∈ l -> key `prefix_of` e.1 -> e.1 = key.

Lemma get_raw_holds s l key :
  holds s l -> no_extension key l -> segment_get_raw s key = Some (assoc key l).
Proof.
  intros Hh Hext. pose proof Hh as (Hs & _ & Hi & _ & _ & Hpos & Hbloom). unfold segment_get_raw, id_index_get.
  destruct (assoc key l) as [v|] eqn:Ha.
  - assert (contains_raw kv_hash (bloom s) key = Some true) as ->
      by (apply (Hbloom (bloom s) (key, v)); [reflexivity|done|by apply assoc_elem]).
    cbn [mbind option_bind negb].
    destruct (assoc_split _ _ _ Hs Ha) as (l1 & l2 & -> & H1). destruct (ids_split l1 key v l2) as [l2' Eids].
    rewrite Hi. pose proof (ids_sorted_ids _ Hs) as Hsi. rewrite Eids in Hsi |- *.
    rewrite (fst_next_found _ (ExactMatch key)); [|done| |].
    + cbn. rewrite (get_blob_holds _ _ _ Hh), list_lookup_middle by done. done.
    + apply (ids_Forall (fun k => aut_run (ExactMatch key) (aut_start (ExactMatch key)) k = Some false)).
      eapply Forall_impl; [exact H1|]. intros e He. cbn [aut_start ExactMatch].
      rewrite exact_run by lia. rewrite decide_False; [done|]. rewrite drop_0. intros Hp%prefix_le.
      destruct Hp. by apply str_cmp_Gt.
    + cbn [aut_start ExactMatch]. rewrite exact_run by lia. by rewrite drop_0, !decide_True by done.
  - destruct (contains_loop_total (bit_vec (bloom s)) (hash_raw kv_hash key) (Z.to_nat (hashes (bloom s))) 0 Hpos)
      as [found Hfound]. unfold contains_raw. rewrite Hfound. cbn [mbind option_bind].
    destruct found; [|done]. cbn [negb]. rewrite Hi, (fst_next_none _ (ExactMatch key)); [done|by apply ids_sorted_ids|].
    apply (ids_Forall (fun k => aut_run (ExactMatch key) (aut_start (ExactMatch key)) k = Some false)).
    apply Forall_forall. intros [k v] He. cbn [aut_start ExactMatch fst]. rewrite exact_run by lia.
    rewrite decide_False; [done|]. rewrite drop_0. intros Hp. pose proof (Hext _ He Hp) as Hk. cbn in Hk. subst.
    clear -Ha He. induction l as [|[k' v'] l IH]; [by apply elem_of_nil in He|]. cbn in Ha. case_decide; [done|].
    apply elem_of_cons in He as [E|He]; [congruence|auto].
Qed.
(** Range queries, in key order. *)
Lemma range_holds s l lo hi :
  holds s l -> segment_range_raw s lo hi = Some (List.filter (fun e => above lo e.1 && below hi e.1) l).
Proof.
  intros Hh. pose proof Hh as (Hs & _ & Hi & _). unfold segment_range_raw.
  rewrite Hi, fst_range_all by (by apply ids_sorted_ids).
  apply mapM_Some.
  assert (Forall2 (fun i e => i.1 = e.1 /\ get_blob s i.2 = Some e) (ids l) l) as Hall.
  { apply Forall2_same_length_lookup_2; [by unfold ids; rewrite length_imap|]. intros i x e Hx He.
    unfold ids in Hx. rewrite list_lookup_imap, He in Hx. cbn in Hx. simplify_eq. cbn.
    by rewrite (get_blob_holds _ _ _ Hh). }
  clear -Hall. induction Hall as [|x e xs es [Hk Hg] _ IH]; cbn; [constructor|].
  rewrite Hk. by destruct (_ && _); [constructor|].
Qed.
End Reads.

(** ** Writing a segment *)

Section Writes.
Context `{KvLibsLaws}.

Lemma syscall_works f d : calls d = None -> syscall f d = (f d, Ok tt).
Proof. unfold syscall. by intros ->. Qed.
Lemma bind_works {A B} (m : io A) (k : A -> io B) d d' a : m d = (d', Ok a) -> (m ≫= k) d = k a d'.
Proof. unfold mbind, method_bind. by intros ->. Qed.
Lemma append_works k bytes d old :
  calls d = None -> files d !! k = Some old ->
  append_file k bytes d = (set_files (<[k := old ++ bytes]> (files d)) d, Ok tt).
Proof. intros Hc Hk. unfold append_file. rewrite syscall_works by done. by rewrite Hk. Qed.
Lemma create_works k d : calls d = None -> create_file k d = (set_files (<[k := []]> (files d)) d, Ok tt).
Proof. intros Hc. unfold create_file. by rewrite syscall_works. Qed.
Lemma or_panic_works {A} (a : A) d : or_panic (Some a) d = (d, Ok a).
Proof. done. Qed.
Lemma read_works k d bytes : calls d = None -> files d !! k = Some bytes -> read_file k d = (d, Ok bytes).
Proof.
  intros Hc Hk. unfold read_file. erewrite bind_works by (by apply syscall_works).
  unfold inspect, id. by rewrite Hk.
Qed.
Lemma remove_works k d bytes :
  calls d = None -> files d !! k = Some bytes ->
  remove_file k d = (set_files (delete k (files d)) d, Ok tt).
Proof.
  intros Hc Hk. unfold remove_file. rewrite (bind_works _ _ d d bytes); [by rewrite syscall_works|].
  unfold inspect. by rewrite Hk.
Qed.

(** What is the same on both file systems outside one segment. *)
Definition same_elsewhere (fo u : Z) (d0 d : FileSystem) : Prop :=
  calls d = None /\ metas d = metas d0 /\ forall k, k.1 <> (fo, u) -> files d !! k = files d0 !! k.

(** The writer [w] has written the entries [l] to the segment [u] of folder [fo]. *)
Definition written (fo u : Z) (d0 d : FileSystem) (l : list entry) (w : SegmentWriter) : Prop :=
  same_elsewhere fo u d0 d /\
  files d !! (fo, u, Ids) = Some [] /\
  files d !! (fo, u, Bid) = Some (packed const_pointer (pointers 0 l)) /\
  files d !! (fo, u, Blobs) = Some (blobs l) /\
  files d !! (fo, u, Blm) = Some [] /\
  sw_folder w = fo /\ sw_uuid w = u /\ sw_offset w = total entry_bytes l /\
  sw_next_id w = Z.of_nat (length l) /\ sw_ids w = ids l /\ bloom_holds (sw_bloom w) l.

Lemma fst_insert_sorted l e : sorted (l ++ [e]) -> fst_insert e.1 (Z.of_nat (length l)) (ids l) = Ok (ids (l ++ [e])).
Proof.
  intros Hs. unfold fst_insert. rewrite ids_app.
  assert (forall k i, last (ids l) = Some (k, i) -> str_cmp k e.1 = Lt) as Hlast.
  { intros k i Hl. pose proof (ids_sorted_ids _ Hs) as Hsi. rewrite ids_app in Hsi.
    apply last_Some in Hl as [l' El]. rewrite El in Hsi. clear -Hsi.
    induction l' as [|x l' IH]; cbn in Hsi; apply StronglySorted_inv in Hsi as [Hs Hall]; [|auto].
    by apply Forall_cons in Hall as [Hk _]. }
  destruct (last (ids l)) as [[k i]|]; [|done]. rewrite bool_decide_true; [done|]. by eapply Hlast.
Qed.

Lemma segment_insert_works fo u d0 d l w e :
  written fo u d0 d l w -> sorted (l ++ [e]) -> total entry_bytes (l ++ [e]) <= u64_max ->
  exists d' w', segment_insert e w d = (d', Ok w') /\ written fo u d0 d' (l ++ [e]) w'.
Proof.
  intros ((Hc & Hm & Helse) & HIds & HBid & HBlobs & HBlm & Hfo & Hu & Hoff & Hid & Hids & Hbl) Hs Hf.
  destruct e as [key value]. rewrite total_app in Hf. cbn [total] in Hf. rewrite Z.add_0_r in Hf.
  pose proof (total_nonneg entry_bytes l entry_bytes_nonneg) as Hnn.
  pose proof (entry_bytes_nonneg (key, value)) as Hnn'.
  unfold segment_insert. rewrite Hfo, Hu, Hoff, Hid, Hids, blob_pointer_fits by lia.
  erewrite bind_works by (by apply append_works).
  erewrite bind_works by (apply append_works; [done|cbn; apply lookup_insert_eq]). cbv iota beta.
  set (ptr := {| ptr_key := _; ptr_value := _ |}).
  destruct (const_bytes_spec const_pointer pointer_ok ptr) as (buf & Ebuf & _ & _).
  { unfold ptr, pointer_ok, is_u64, entry_bytes, zlen in *.
    cbn [fst snd ptr_key ptr_value] in *. lia. }
  rewrite Ebuf. erewrite bind_works by apply or_panic_works.
  erewrite bind_works by (apply append_works; [done|]; cbn; rewrite !lookup_insert_ne by done; exact HBid).
  pose proof (fst_insert_sorted l (key, value) Hs) as Eids. cbn [fst] in Eids.
  erewrite bind_works by (unfold inspect; rewrite Eids; done).
  destruct (insert_raw_spec kv_hash key (sw_bloom w) (proj1 Hbl)) as (f & Ef & Hle & Hh & Hin).
  rewrite Ef. erewrite bind_works by apply or_panic_works.
  do 2 eexists. split; [done|]. unfold written, same_elsewhere. cbn.
  assert (pointers 0 (l ++ [(key, value)]) = pointers 0 l ++ [ptr]) as Eptr.
  { rewrite pointers_app by lia. cbn [pointers]. by rewrite Z.add_0_l, blob_pointer_fits by lia. }
  split_and!; try done.
  - intros k Hk. rewrite !lookup_insert_ne by (by intros <-). by apply Helse.
  - by rewrite !lookup_insert_ne.
  - rewrite lookup_insert_eq, Eptr, packed_app. do 2 f_equal. unfold packed. cbn [fmap list_fmap concat].
    by rewrite Ebuf, app_nil_r.
  - rewrite lookup_insert_ne, lookup_insert_eq by done. rewrite blobs_app, <- app_assoc. do 2 f_equal.
    unfold blobs. cbn. by rewrite app_nil_r.
  - by rewrite !lookup_insert_ne.
  - rewrite total_app. cbn [total]. lia.
  - rewrite length_app. cbn. lia.
  - split; [by rewrite <- (bits_le_length _ _ Hle); apply Hbl|]. intros f' e Hle' Hh' [He|He]%elem_of_app.
    + apply (proj2 Hbl); [by etransitivity|congruence|done].
    + apply list_elem_of_singleton in He as ->. apply Hin; [done|congruence].
Qed.

(** The files of a whole segment. *)
Definition on_disk (d : FileSystem) (s : Segment) : Prop :=
  files d !! (seg_folder s, seg_uuid s, Ids) = Some (id_index s) /\
  files d !! (seg_folder s, seg_uuid s, Bid) = Some (blob_index s) /\
  files d !! (seg_folder s, seg_uuid s, Blobs) = Some (store s) /\
  files d !! (seg_folder s, seg_uuid s, Blm) = Some (bloom_encode (bloom s)).

Lemma write_sorted_works fo u d0 d l l' w :
  written fo u d0 d l w -> sorted (l ++ l') -> total entry_bytes (l ++ l') <= u64_max ->
  exists d' s, write_sorted_it l' w d = (d', Ok tt) /\ same_elsewhere fo u d0 d' /\
    seg_folder s = fo /\ seg_uuid s = u /\ on_disk d' s /\ holds s (l ++ l').
Proof.
  revert d l w; induction l' as [|e l' IH]; intros d l w Hw Hs Hf; cbn [write_sorted_it].
  - rewrite app_nil_r in *.
    destruct Hw as ((Hc & Hm & Helse) & HIds & HBid & HBlobs & HBlm & Hfo & Hu & Hoff & Hid & Hids & Hbl).
    unfold segment_finish. rewrite Hfo, Hu, Hids.
    erewrite bind_works by (by apply append_works).
    erewrite bind_works by (apply append_works; [done|]; cbn; rewrite !lookup_insert_ne by done; exact HBid).
    erewrite bind_works by (apply append_works; [done|]; cbn; rewrite !lookup_insert_ne by done; exact HBlobs).
    erewrite append_works; [|done|cbn; rewrite !lookup_insert_ne by done; exact HBlm].
    rewrite !app_nil_r, !app_nil_l. eexists.
    exists {| seg_folder := fo; seg_uuid := u; id_index := fst_build (ids l);
              blob_index := packed const_pointer (pointers 0 l); store := blobs l; bloom := sw_bloom w |}.
    split; [done|]. unfold on_disk. split_and!; try done.
    + split; [done|split; [done|]]. cbn. intros k Hk. rewrite !lookup_insert_ne by (by intros <-). by apply Helse.
    + cbn. by rewrite !lookup_insert_ne, lookup_insert_eq by done.
    + cbn. by rewrite !lookup_insert_ne, lookup_insert_eq by done.
    + cbn. by rewrite !lookup_insert_ne, lookup_insert_eq by done.
    + cbn. by rewrite lookup_insert_eq.
  - rewrite (cons_middle e l l'), app_assoc in Hs, Hf |- *.
    destruct (segment_insert_works fo u d0 d l w e Hw) as (d1 & w1 & E & Hw1).
    { by apply StronglySorted_app_1_l in Hs. }
    { rewrite total_app in Hf. pose proof (total_nonneg entry_bytes l' entry_bytes_nonneg). lia. }
    erewrite bind_works by exact E. by apply IH.
Qed.

Lemma create_written fo u d n :
  calls d = None -> 0 < num_bits kv_ln n false_positives ->
  exists d', create_segment fo u d = (d', Ok tt) /\ written fo u d d' [] (SegmentWriter_new fo u n).
Proof.
  intros Hc Hb. unfold create_segment. do 3 (erewrite bind_works by (by apply create_works)).
  rewrite create_works by done. eexists. split; [done|]. unfold written, same_elsewhere. cbn.
  split_and!; try done; try (by rewrite ?lookup_insert_ne, lookup_insert_eq by done).
  - intros k Hk. by rewrite !lookup_insert_ne by (by intros <-).
  - split; [cbn; rewrite length_replicate; lia|]. by intros f' e _ _ ?%elem_of_nil.
Qed.

Lemma Segment_open_works d s l :
  calls d = None -> on_disk d s -> holds s l -> Segment_open (seg_uuid s) (seg_folder s) d = (d, Ok s).
Proof.
  intros Hc (H1 & H2 & H3 & H4) (Hs & _ & Hi & _). unfold Segment_open.
  erewrite bind_works by (by apply read_works).
  rewrite (bind_works _ _ d d tt).
  2: { unfold inspect. rewrite Hi, fst_valid_build by (by apply ids_sorted_ids). done. }
  do 3 (erewrite bind_works by (by apply read_works)).
  rewrite (bind_works _ _ d d (bloom s)).
  2: { unfold inspect. by rewrite bloom_decode_encode. }
  by destruct s.
Qed.

(** Creating, writing and opening a segment of sorted entries. *)
Lemma write_segment_works fo u d l n :
  calls d = None -> 0 < num_bits kv_ln n false_positives -> sorted l -> total entry_bytes l <= u64_max ->
  exists d1 d2 s, create_segment fo u d = (d1, Ok tt) /\
    write_sorted_it l (SegmentWriter_new fo u n) d1 = (d2, Ok tt) /\ same_elsewhere fo u d d2 /\
    seg_folder s = fo /\ seg_uuid s = u /\ on_disk d2 s /\ holds s l.
Proof.
  intros Hc Hb Hs Hf. destruct (create_written fo u d n Hc Hb) as (d1 & E1 & Hw).
  destruct (write_sorted_works fo u d d1 [] l _ Hw Hs Hf) as (d2 & s & E2 & H2). by exists d1, d2, s.
Qed.

Definition seg_id (s : Segment) : Z * Z := (seg_folder s, seg_uuid s).
Lemma on_disk_same d d' s :
  on_disk d s -> (forall k, k.1 = seg_id s -> files d' !! k = files d !! k) -> on_disk d' s.
Proof. unfold on_disk. intros (H1 & H2 & H3 & H4) Hsame. rewrite !Hsame by done. done. Qed.

Lemma remove_segments_works d segs :
  calls d = None -> Forall (on_disk d) segs -> NoDup (seg_id <$> segs) ->
  exists d', remove_segments segs d = (d', Ok tt) /\ calls d' = None /\ metas d' = metas d /\
    forall k, k.1 ∉ seg_id <$> segs -> files d' !! k = files d !! k.
Proof.
  revert d; induction segs as [|s segs IH]; intros d Hc Hd Hnd; [by exists d|].
  apply Forall_cons in Hd as [(H1 & H2 & H3 & H4) Hd]. apply NoDup_cons in Hnd as [Hin Hnd].
  cbn [remove_segments].
  assert (exists d1, remove_segment s d = (d1, Ok tt) /\ calls d1 = None /\ metas d1 = metas d /\
    forall k, k.1 <> seg_id s -> files d1 !! k = files d !! k) as (d1 & E1 & Hc1 & Hm1 & Hsame).
  { unfold remove_segment. erewrite bind_works by (by eapply remove_works).
    erewrite bind_works by (eapply remove_works; [done|]; cbn; rewrite !lookup_delete_ne by done; exact H1).
    erewrite bind_works by (eapply remove_works; [done|]; cbn; rewrite !lookup_delete_ne by done; exact H3).
    erewrite remove_works by (first [done | cbn; rewrite !lookup_delete_ne by done; exact H4]).
    eexists. split_and!; [done|done|done|]. cbn. intros k Hk.
    by rewrite !lookup_delete_ne by (intros <-; by apply Hk). }
  destruct (IH d1) as (d2 & E2 & Hc2 & Hm2 & Hsame2); [done| |done|].
  { rewrite Forall_forall in Hd |- *. intros s' Hs'. eapply on_disk_same; [by apply Hd|].
    intros k Hk. apply Hsame. rewrite Hk. intros E. apply Hin. rewrite <- E. by apply list_elem_of_fmap_2. }
  exists d2. split_and!; [by erewrite bind_works by exact E1|done|congruence|].
  intros k Hk. rewrite fmap_cons, not_elem_of_cons in Hk. destruct Hk as [Hk1 Hk2].
  by rewrite Hsame2, Hsame.
Qed.

Lemma mapM_iter_holds segs ls : Forall2 holds segs ls -> mapM segment_iter_raw segs = Some ls.
Proof.
  intros Hall. apply mapM_Some. eapply Forall2_impl; [exact Hall|]. intros s l Hh.
  unfold segment_iter_raw. by rewrite (iter_holds s l 0).
Qed.
Lemma sum_len_holds segs ls :
  Forall2 holds segs ls -> Z.of_nat (list_sum (segment_len <$> segs)) = fold_right Z.add 0 (total (fun _ => 1) <$> ls).
Proof.
  assert (forall l, Z.of_nat (length l) = total (fun _ => 1) l) as Hlen
    by (induction l as [|e l IH]; cbn [length total]; lia).
  induction 1 as [|s l segs ls Hh _ IH]; [done|]. rewrite !fmap_cons. cbn [fold_right list_sum].
  change (foldr Nat.add 0%nat) with list_sum. rewrite Nat2Z.inj_add, IH, (len_holds _ _ Hh). by rewrite Hlen.
Qed.

(** [Segment::merge] of several segments leaves one that holds their merge, and
    the files of every other segment. *)
Lemma Segment_merge_works fo u d segs ls :
  (2 <= length segs)%nat -> calls d = None -> Forall2 holds segs ls -> Forall (on_disk d) segs ->
  NoDup (seg_id <$> segs) -> (fo, u) ∉ seg_id <$> segs ->
  0 < num_bits kv_ln (fold_right Z.add 0 (total (fun _ => 1) <$> ls)) false_positives ->
  fold_right Z.add 0 (total entry_bytes <$> ls) <= u64_max ->
  exists d' s, Segment_merge segs fo u d = (d', Ok (Some s)) /\ calls d' = None /\ metas d' = metas d /\
    (forall k, k.1 <> (fo, u) -> k.1 ∉ seg_id <$> segs -> files d' !! k = files d !! k) /\
    seg_folder s = fo /\ seg_uuid s = u /\ on_disk d' s /\ holds s (sorted_segments ls).
Proof.
  intros Hlen Hc Hholds Hdisk Hnd Hfresh Hbits Hfit.
  assert (Forall sorted ls) as Hsorted.
  { clear -Hholds. induction Hholds as [|s l segs ls [Hs _] _ IH]; by constructor. }
  destruct (sorted_segments_spec entry_bytes ls entry_bytes_nonneg Hsorted) as (Hs & _ & Htot).
  destruct (write_segment_works fo u d (sorted_segments ls) _ Hc Hbits Hs ltac:(lia))
    as (d1 & d2 & s & E1 & E2 & (Hc2 & Hm2 & Hsame2) & Hfo & Hu & Hd2 & Hh).
  destruct (remove_segments_works d2 segs) as (d3 & E3 & Hc3 & Hm3 & Hsame3); [done| |done|].
  { rewrite Forall_forall in Hdisk |- *. intros s' Hs'. eapply on_disk_same; [by apply Hdisk|].
    intros k Hk. apply Hsame2. rewrite Hk. intros E. apply Hfresh. rewrite <- E. by apply list_elem_of_fmap_2. }
  assert (on_disk d3 s) as Hd3.
  { eapply on_disk_same; [exact Hd2|]. intros k Hk. apply Hsame3. rewrite Hk. unfold seg_id. by rewrite Hfo, Hu. }
  exists d3, s. split; [|split_and!; [done|congruence| |done|done|done|done]].
  2: { intros k Hk1 Hk2. by rewrite Hsame3, Hsame2. }
  unfold Segment_merge. destruct segs as [|s1 [|s2 segs]]; [cbn in Hlen; lia..|].
  erewrite bind_works by exact E1.
  rewrite (mapM_iter_holds _ _ Hholds). erewrite bind_works by apply or_panic_works.
  rewrite (sum_len_holds _ _ Hholds). erewrite bind_works by exact E2. erewrite bind_works by exact E3.
  erewrite bind_works by (rewrite <- Hu, <- Hfo; by apply (Segment_open_works d3 s _ Hc3 Hd3 Hh)). done.
Qed.
End Writes.
