(* ===== verification/KvDb.v ===== *)
(** * The key-value store ([crates/speedy-kv/src/lib.rs])

    [Db]: a live segment in memory and committed segments on disk, listed in
    [meta.json]. Inserts go to the live segment, [commit] writes it out as the
    newest segment, [merge_all_segments] replaces all segments by their merge and
    [merge] takes over the segments of another store. Lookups ask the segments
    from the newest to the oldest. *)

From S2P Require Import Prelude Text Externals Floats FileStore Bloom KvMerge KvSegment.

#[local] Open Scope Z_scope.

Record Db := {
  db_folder : Z;
  meta_segments : list Z;
  live_segment : list entry;
  segments : list Segment;
}.
Definition set_live (l : list entry) (db : Db) : Db :=
  {| db_folder := db_folder db; meta_segments := meta_segments db; live_segment := l; segments := segments db |}.
Definition set_segments (s : list Segment) (db : Db) : Db :=
  {| db_folder := db_folder db; meta_segments := meta_segments db; live_segment := live_segment db; segments := s |}.
Definition set_meta_segments (m : list Z) (db : Db) : Db :=
  {| db_folder := db_folder db; meta_segments := m; live_segment := live_segment db; segments := segments db |}.

(** Methods on [&mut self], which also change the file system. *)
Abbreviation World := (Db * FileSystem)%type.
Abbreviation on_db := (method World KvError).
Definition on_fs {A} (m : io A) : on_db A := fun '(db, d) => let '(d, r) := m d in ((db, d), r).
Definition change (f : Db -> Db) : on_db unit := assign (fun '(db, d) => (f db, d)).
Definition this : on_db Db := fun w => (w, Ok w.1).

(** ** Opening *)

(** [std::fs::write] truncates the file and then writes it. *)
Definition write_meta (folder : Z) (uuids : list Z) : io unit :=
  syscall (set_meta folder None) ≫= fun _ => syscall (set_meta folder (Some uuids)).
Definition read_meta (folder : Z) : io (list Z) :=
  inspect (fun d => Ok (metas d !! folder)) ≫= fun meta =>
  match meta with
  | None => mret []
  | Some meta => syscall id ≫= fun _ => inspect (fun _ => ok_or meta KvMeta)
  end.
Definition create_dir_all : io unit := syscall id.

Section Kv.
Context `{KvLibs}.

Fixpoint open_segments (folder : Z) (uuids : list Z) : io (list Segment) :=
  match uuids with
  | [] => mret []
  | u :: uuids =>
      Segment_open u folder ≫= fun s => open_segments folder uuids ≫= fun l => mret (s :: l)
  end.
Definition open_or_create (folder : Z) : io Db :=
  create_dir_all ≫= fun _ =>
  read_meta folder ≫= fun uuids =>
  open_segments folder uuids ≫= fun segs =>
  write_meta folder uuids ≫= fun _ =>
  mret {| db_folder := folder; meta_segments := uuids; live_segment := []; segments := segs |}.

Definition save_meta : on_db unit :=
  this ≫= fun db => on_fs (write_meta (db_folder db) (meta_segments db)).

(** ** Inserting and committing *)

Definition uncommitted_inserts (db : Db) : nat := length (live_segment db).
Definition Db_insert_raw (key value : list Z) (db : Db) : Db :=
  set_live (btree_insert key value (live_segment db)) db.

(** [LiveSegment::store]. *)
Definition LiveSegment_store (live : list entry) (uuid folder : Z) : io Segment :=
  create_dir_all ≫= fun _ =>
  create_segment folder uuid ≫= fun _ =>
  write_sorted_it live (SegmentWriter_new folder uuid (zlen live)) ≫= fun _ =>
  Segment_open uuid folder.

(** [uuid] is the identifier [Uuid::new_v4] draws. *)
Definition commit (uuid : Z) : on_db unit :=
  this ≫= fun db =>
  if bool_decide (live_segment db = []) then mret tt
  else
    change (set_live []) ≫= fun _ =>
    on_fs (LiveSegment_store (live_segment db) uuid (db_folder db)) ≫= fun s =>
    change (fun db => set_segments (segments db ++ [s]) db) ≫= fun _ =>
    change (fun db => set_meta_segments (meta_segments db ++ [uuid]) db) ≫= fun _ =>
    save_meta.

(** ** Merging *)

Definition merge_all_segments (uuid : Z) : on_db unit :=
  this ≫= fun db =>
  change (set_segments []) ≫= fun _ =>
  on_fs (Segment_merge (segments db) (db_folder db) uuid) ≫= fun new =>
  match new with
  | None => mret tt
  | Some s =>
      change (set_meta_segments []) ≫= fun _ =>
      change (fun db => set_meta_segments (meta_segments db ++ [seg_uuid s]) db) ≫= fun _ =>
      change (fun db => set_segments (segments db ++ [s]) db) ≫= fun _ =>
      save_meta
  end.

Definition rename_file (k k' : file) : io unit :=
  inspect (fun d => ok_or (files d !! k) KvIo) ≫= fun bytes =>
  syscall (fun d => set_files (<[k' := bytes]> (delete k (files d))) d).
(** [Segment::move_to]. *)
Definition move_to (s : Segment) (folder : Z) : io Segment :=
  create_dir_all ≫= fun _ =>
  rename_file (seg_id s, Bid) (folder, seg_uuid s, Bid) ≫= fun _ =>
  rename_file (seg_id s, Ids) (folder, seg_uuid s, Ids) ≫= fun _ =>
  rename_file (seg_id s, Blobs) (folder, seg_uuid s, Blobs) ≫= fun _ =>
  rename_file (seg_id s, Blm) (folder, seg_uuid s, Blm) ≫= fun _ =>
  Segment_open (seg_uuid s) folder.
Definition remove_dir_all (folder : Z) : io unit :=
  syscall (fun d => {| files := filter (fun kv => kv.1.1.1 <> folder) (files d);
                       metas := delete folder (metas d); calls := calls d |}).
Fixpoint take_over (l : list Segment) : on_db unit :=
  match l with
  | [] => mret tt
  | s :: l =>
      this ≫= fun db => on_fs (move_to s (db_folder db)) ≫= fun s =>
      change (fun db => set_segments (segments db ++ [s]) db) ≫= fun _ => take_over l
  end.
(** [Db::merge]: the other store's uncommitted inserts are dropped with it. *)
Definition Db_merge (other : Db) : on_db unit :=
  take_over (segments other) ≫= fun _ =>
  change (fun db => set_meta_segments (seg_uuid <$> segments db) db) ≫= fun _ =>
  save_meta ≫= fun _ =>
  on_fs (remove_dir_all (db_folder other)).

(** ** Lookups *)

(** [find_map] over the segments, newest first; an [Err] would be skipped, a
    panic is not. *)
Fixpoint find_in (l : list Segment) (key : list Z) : option (option (list Z)) :=
  match l with
  | [] => Some None
  | s :: l =>
      found ← segment_get_raw s key;
      match found with Some v => Some (Some v) | None => find_in l key end
  end.
Definition Db_get_raw (db : Db) (key : list Z) : option (option (list Z)) := find_in (rev (segments db)) key.
Definition get_raw_with_live (db : Db) (key : list Z) : option (option (list Z)) :=
  match assoc key (live_segment db) with
  | Some value => Some (Some value)
  | None => find_in (rev (segments db)) key
  end.
Definition Db_search_raw {S} (db : Db) (query : Automaton S) : option (list entry) :=
  @concat entry <$> mapM (fun s => segment_search_raw s query) (rev (segments db)).
Definition Db_range_raw (db : Db) (lo hi : Bound) : option (list entry) :=
  @concat entry <$> mapM (fun s => segment_range_raw s lo hi) (rev (segments db)).
Definition Db_iter_raw (db : Db) : option (list entry) := @concat entry <$> mapM segment_iter_raw (segments db).
Definition sorted_iter_raw (db : Db) : option (list entry) :=
  sorted_segments <$> mapM segment_iter_raw (segments db).
Definition Db_len (db : Db) : nat := list_sum (segment_len <$> segments db).
Definition Db_is_empty (db : Db) : bool := forallb (fun s => segment_len s =? 0)%nat (segments db).

(** The loop that finds the segment with the offset: its index, if any, and the
    offset in it. *)
Fixpoint find_segment (l : list Segment) (idx remaining : nat) : option nat * nat :=
  match l with
  | [] => (None, remaining)
  | s :: l =>
      if (remaining <? segment_len s)%nat then (Some idx, remaining)
      else find_segment l (idx + 1) (remaining - segment_len s)
  end.
Definition Db_iter_raw_with_offset (db : Db) (offset : nat) : option (list entry) :=
  let '(found, remaining) := find_segment (segments db) 0 offset in
  let idx := default (length (segments db)) found in
  match drop idx (segments db) with
  | [] => Some []
  | s :: rest =>
      first ← segment_iter_raw_with_offset s remaining;
      others ← mapM (fun s => segment_iter_raw_with_offset s 0) rest;
      Some (first ++ concat others)
  end.

(** ** Typed keys and values *)

Context {K V : Type} `{Bincode K, Bincode V}.

Definition Db_insert (key : K) (value : V) (db : Db) : result KvError Db :=
  key ← ok_or (encode_to_vec key) KvDecode;
  value ← ok_or (encode_to_vec value) KvDecode;
  Ok (Db_insert_raw key value db).
(** [Err KvPanic] is the panic of a lookup. *)
Definition Db_get (db : Db) (key : K) : result KvError (option V) :=
  key ← ok_or (encode_to_vec key) KvDecode;
  found ← ok_or (Db_get_raw db key) KvPanic;
  match found with
  | Some bytes =>
      match decode_from_slice bytes with Some (v, _) => Ok (Some v) | None => Err KvDecode end
  | None => Ok None
  end.
End Kv.

(** ** The store as a map *)

Section Refinement.
Context `{KvLibsLaws}.

Lemma db_bind {A B} (m : on_db A) (k : A -> on_db B) w w' a : m w = (w', Ok a) -> (m ≫= k) w = k a w'.
Proof. unfold mbind, method_bind. by intros ->. Qed.
Lemma on_fs_works {A} (m : io A) db d d' r : m d = (d', r) -> on_fs m (db, d) = ((db, d'), r).
Proof. unfold on_fs. by intros ->. Qed.
Lemma this_bind {B} (k : Db -> on_db B) w : (this ≫= k) w = k w.1 w.
Proof. done. Qed.
Lemma change_bind {B} (f : Db -> Db) (k : unit -> on_db B) db d : (change f ≫= k) (db, d) = k tt (f db, d).
Proof. done. Qed.

(** The committed segments of [w] hold the entries [ls], oldest first, and the
    file system has what a restart needs to open them again. *)
Definition db_ok (w : World) (ls : list (list entry)) : Prop :=
  calls w.2 = None /\ Forall2 holds (segments w.1) ls /\ Forall (on_disk w.2) (segments w.1) /\
  Forall (fun s => seg_folder s = db_folder w.1) (segments w.1) /\
  meta_segments w.1 = seg_uuid <$> segments w.1 /\
  metas w.2 !! db_folder w.1 = Some (Some (meta_segments w.1)) /\
  NoDup (meta_segments w.1) /\ sorted (live_segment w.1).

Lemma write_meta_works folder uuids d :
  calls d = None ->
  exists d', write_meta folder uuids d = (d', Ok tt) /\ calls d' = None /\ files d' = files d /\
    metas d' = <[folder := Some uuids]> (metas d).
Proof.
  intros Hc. unfold write_meta. erewrite bind_works by (by apply syscall_works).
  rewrite syscall_works by done. eexists. split_and!; [done|done|done|]. cbn. apply insert_insert_eq.
Qed.
Lemma save_meta_works db d :
  calls d = None ->
  exists d', save_meta (db, d) = ((db, d'), Ok tt) /\ calls d' = None /\ files d' = files d /\
    metas d' = <[db_folder db := Some (meta_segments db)]> (metas d).
Proof.
  intros Hc. unfold save_meta. rewrite this_bind. cbn [fst].
  destruct (write_meta_works (db_folder db) (meta_segments db) d Hc) as (d' & E & Hd).
  exists d'. split; [by apply on_fs_works|done].
Qed.
Lemma on_disk_files d d' s : files d' = files d -> on_disk d s -> on_disk d' s.
Proof. unfold on_disk. by intros ->. Qed.
Lemma on_disk_all_files d d' segs : files d' = files d -> Forall (on_disk d) segs -> Forall (on_disk d') segs.
Proof. intros E Hall. eapply Forall_impl; [exact Hall|]. intros s. by apply on_disk_files. Qed.
Lemma seg_ids_in folder segs : Forall (fun s => seg_folder s = folder) segs ->
  seg_id <$> segs = (fun u => (folder, u)) <$> (seg_uuid <$> segs).
Proof.
  induction 1 as [|s segs Hs _ IH]; [done|]. rewrite !fmap_cons, IH. unfold seg_id. by rewrite Hs.
Qed.

Lemma commit_works w ls uuid :
  db_ok w ls -> uuid ∉ meta_segments w.1 ->
  (live_segment w.1 <> [] -> 0 < num_bits kv_ln (zlen (live_segment w.1)) false_positives) ->
  total entry_bytes (live_segment w.1) <= u64_max ->
  exists w', commit uuid w = (w', Ok tt) /\
    db_ok w' (if decide (live_segment w.1 = []) then ls else ls ++ [live_segment w.1]) /\
    live_segment w'.1 = [] /\ db_folder w'.1 = db_folder w.1 /\
    (forall u, u ∈ meta_segments w'.1 -> u = uuid \/ u ∈ meta_segments w.1).
Proof.
  destruct w as [db d]. intros (Hc & Hh & Hd & Hfo & Hmeta & Hm & Hnd & Hlive) Hfresh Hbits Hfit.
  cbn [fst snd] in *. unfold commit. rewrite this_bind. cbn [fst].
  destruct (decide (live_segment db = [])) as [El|El].
  { rewrite bool_decide_true by done. exists (db, d). unfold db_ok. cbn. rewrite ?El in *. split_and!; try done; auto. }
  rewrite bool_decide_false by done. rewrite change_bind.
  destruct (write_segment_works (db_folder db) uuid d (live_segment db) (zlen (live_segment db)) Hc (Hbits El) Hlive Hfit)
    as (d1 & d2 & s & E1 & E2 & (Hc2 & Hm2 & Hsame) & Hsf & Hsu & Hds & Hhs).
  assert (LiveSegment_store (live_segment db) uuid (db_folder db) d = (d2, Ok s)) as Estore.
  { unfold LiveSegment_store. erewrite bind_works by (by apply syscall_works). cbn [id].
    erewrite bind_works by exact E1. erewrite bind_works by exact E2.
    rewrite <- Hsu, <- Hsf. by eapply Segment_open_works. }
  erewrite db_bind by (by apply on_fs_works). rewrite !change_bind.
  match goal with |- context [save_meta (?db', ?d')] =>
    destruct (save_meta_works db' d' Hc2) as (d3 & E3 & Hc3 & Hf3 & Hm3) end.
  eexists. split; [exact E3|]. unfold db_ok. cbn in Hm3 |- *. split_and!; try done.
  - apply Forall2_app; [done|by constructor].
  - eapply on_disk_all_files; [exact Hf3|]. apply Forall_app. split; [|by constructor].
    rewrite Forall_forall in Hd |- *. intros s' Hs'. eapply on_disk_same; [by apply Hd|].
    intros k Hk. apply Hsame. rewrite Hk. intros [= Eu]. apply Hfresh. rewrite Hmeta.
    apply list_elem_of_fmap. by exists s'.
  - apply Forall_app. split; [done|by constructor].
  - by rewrite fmap_app, Hmeta, <- Hsu.
  - rewrite Hm3. apply lookup_insert_eq.
  - apply NoDup_app. split_and!; [done| |apply NoDup_singleton]. intros u Hu ->%list_elem_of_singleton. done.
  - constructor.
  - intros u [Hu| ->%list_elem_of_singleton]%elem_of_app; auto.
Qed.

(** The entries after [merge_all_segments]. *)
Definition merged (ls : list (list entry)) : list (list entry) :=
  match ls with [] => [] | [l] => [l] | _ => [sorted_segments ls] end.

Lemma merge_all_works w ls uuid :
  db_ok w ls -> uuid ∉ meta_segments w.1 ->
  ((2 <= length ls)%nat -> 0 < num_bits kv_ln (fold_right Z.add 0 (total (fun _ => 1) <$> ls)) false_positives) ->
  fold_right Z.add 0 (total entry_bytes <$> ls) <= u64_max ->
  exists w', merge_all_segments uuid w = (w', Ok tt) /\ db_ok w' (merged ls) /\
    live_segment w'.1 = live_segment w.1 /\ db_folder w'.1 = db_folder w.1 /\
    (forall u, u ∈ meta_segments w'.1 -> u = uuid \/ u ∈ meta_segments w.1).
Proof.
  destruct w as [db d]. intros (Hc & Hh & Hd & Hfo & Hmeta & Hm & Hnd & Hlive) Hfresh Hbits Hfit.
  cbn [fst snd] in *. unfold merge_all_segments. rewrite this_bind, change_bind. cbn [fst].
  pose proof (Forall2_length _ _ _ Hh) as Hlen.
  assert (match ls with
    | [] => Segment_merge (segments db) (db_folder db) uuid d = (d, Ok None)
    | _ => exists d' s, Segment_merge (segments db) (db_folder db) uuid d = (d', Ok (Some s)) /\
        calls d' = None /\ metas d' = metas d /\ on_disk d' s /\ Forall2 holds [s] (merged ls) /\
        seg_folder s = db_folder db /\ (seg_uuid s = uuid \/ seg_uuid s ∈ meta_segments db)
    end) as Hmerge.
  { destruct (decide (2 <= length ls)%nat) as [H2|H2].
    - destruct (Segment_merge_works (db_folder db) uuid d (segments db) ls)
        as (d' & s & E & Hc' & Hm' & _ & Hsf & Hsu & Hds & Hhs); try done; [lia| | |by apply Hbits|].
      + rewrite (seg_ids_in _ _ Hfo), <- Hmeta. by apply NoDup_fmap_2; [intros ? ? [=]|].
      + rewrite (seg_ids_in _ _ Hfo), <- Hmeta. intros (u & [= <-] & Hu)%list_elem_of_fmap. done.
      + destruct ls as [|l1 [|l2 ls]]; [cbn in H2; lia..|]. exists d', s. split_and!; try done; [|by left].
        by constructor; [exact Hhs|].
    - destruct Hh as [|s l segs ls' Hs Hh]; [done|]. destruct ls'; [|cbn in H2; lia].
      apply Forall2_nil_inv_r in Hh as ->. apply Forall_cons in Hd as [Hd _], Hfo as [Hfo _].
      exists d, s. split_and!; try done; [by constructor; [exact Hs|]|]. right. rewrite Hmeta. by left. }
  destruct ls as [|l0 ls].
  { apply Forall2_nil_inv_r in Hh as Eseg. erewrite db_bind by (by apply on_fs_works).
    eexists. split; [done|]. unfold db_ok. cbn. rewrite Eseg in *. cbn in Hmeta. split_and!; try done; auto. }
  destruct Hmerge as (d' & s & E & Hc' & Hm' & Hds & Hhs & Hsf & Hsu).
  erewrite db_bind by (by apply on_fs_works). cbv iota beta. rewrite !change_bind.
  match goal with |- context [save_meta (?db', ?d')] =>
    destruct (save_meta_works db' d' Hc') as (d3 & E3 & Hc3 & Hf3 & Hm3) end.
  eexists. split; [exact E3|]. unfold db_ok. cbn in Hm3 |- *. split_and!; try done.
  - eapply on_disk_all_files; [exact Hf3|]. by constructor.
  - by constructor.
  - rewrite Hm3. apply lookup_insert_eq.
  - apply NoDup_singleton.
  - intros u ->%list_elem_of_singleton. done.
Qed.

Lemma open_segments_works folder d segs ls :
  calls d = None -> Forall2 holds segs ls -> Forall (on_disk d) segs ->
  Forall (fun s => seg_folder s = folder) segs -> open_segments folder (seg_uuid <$> segs) d = (d, Ok segs).
Proof.
  intros Hc Hh. induction Hh as [|s l segs ls Hs _ IH]; intros Hd Hfo; [done|].
  apply Forall_cons in Hd as [Hd1 Hd], Hfo as [Hf1 Hfo]. rewrite fmap_cons. cbn [open_segments].
  erewrite bind_works by (rewrite <- Hf1; by eapply Segment_open_works).
  erewrite bind_works by (by apply IH). done.
Qed.
Lemma open_or_create_works w ls :
  db_ok w ls ->
  exists d' db', open_or_create (db_folder w.1) w.2 = (d', Ok db') /\ db_ok (db', d') ls /\
    live_segment db' = [] /\ db_folder db' = db_folder w.1 /\ meta_segments db' = meta_segments w.1.
Proof.
  destruct w as [db d]. intros (Hc & Hh & Hd & Hfo & Hmeta & Hm & Hnd & Hlive). cbn [fst snd] in *.
  unfold open_or_create. erewrite bind_works by (by apply syscall_works). cbn [id].
  assert (read_meta (db_folder db) d = (d, Ok (meta_segments db))) as Er.
  { unfold read_meta. rewrite (bind_works _ _ d d (Some (Some (meta_segments db)))).
    2: { unfold inspect. by rewrite Hm. }
    erewrite bind_works by (by apply syscall_works). done. }
  erewrite bind_works by exact Er.
  erewrite bind_works by (rewrite Hmeta; by eapply open_segments_works).
  destruct (write_meta_works (db_folder db) (meta_segments db) d Hc) as (d' & E & Hc' & Hf' & Hm').
  erewrite bind_works by exact E. do 2 eexists. split; [done|]. unfold db_ok. cbn. split_and!; try done.
  - by eapply on_disk_all_files.
  - rewrite Hm'. apply lookup_insert_eq.
  - constructor.
Qed.
(** A store opened on a new folder is empty. *)
Lemma open_new_works folder d :
  calls d = None -> metas d !! folder = None ->
  exists d' db', open_or_create folder d = (d', Ok db') /\ db_ok (db', d') [] /\
    live_segment db' = [] /\ db_folder db' = folder /\ meta_segments db' = [].
Proof.
  intros Hc Hm. unfold open_or_create. erewrite bind_works by (by apply syscall_works). cbn [id].
  assert (read_meta folder d = (d, Ok [])) as Er.
  { unfold read_meta. rewrite (bind_works _ _ d d None); [done|]. unfold inspect. by rewrite Hm. }
  erewrite bind_works by exact Er. cbn [open_segments]. erewrite bind_works by done.
  destruct (write_meta_works folder [] d Hc) as (d' & E & Hc' & Hf' & Hm').
  erewrite bind_works by exact E. do 2 eexists. split; [done|]. unfold db_ok. cbn. split_and!; try done.
  - rewrite Hm'. apply lookup_insert_eq.
  - constructor.
  - constructor.
Qed.

Lemma find_in_holds segs ls key :
  Forall2 holds segs ls -> (forall l, l ∈ ls -> no_extension key l) ->
  find_in (rev segs) key = Some (newest key ls).
Proof.
  intros Hh. revert ls Hh. induction segs as [|s segs IH] using rev_ind; intros ls Hh Hext.
  { by apply Forall2_nil_inv_l in Hh as ->. }
  apply Forall2_app_inv_l in Hh as (ls1 & ls2 & H1 & H2 & ->).
  destruct ls2 as [|l [|]]; [by apply Forall2_nil_inv_r in H2| |by apply Forall2_cons_inv_l in H2 as (? & ? & _ & ?%Forall2_nil_inv_l & ?); simplify_eq].
  apply Forall2_cons in H2 as [Hs _]. rewrite rev_app_distr. cbn [rev app find_in].
  rewrite (get_raw_holds s l key) by (try done; apply Hext; apply elem_of_app; right; by left).
  cbn [mbind option_bind]. rewrite newest_app. destruct (assoc key l); [done|].
  apply IH; [done|]. intros l' Hl'. apply Hext, elem_of_app. by left.
Qed.

(** ** Histories *)

Inductive kv_op :=
| OInsert (key value : list Z)
| OCommit (uuid : Z)
| OMergeAll (uuid : Z)
| OReopen.
(** Dropping the store and opening its folder again. *)
Definition reopen : on_db unit := fun '(db, d) =>
  match open_or_create (db_folder db) d with
  | (d, Ok db) => ((db, d), Ok tt)
  | (d, Err e) => ((db, d), Err e)
  end.
Definition kv_step (op : kv_op) : on_db unit :=
  match op with
  | OInsert key value => change (Db_insert_raw key value)
  | OCommit uuid => commit uuid
  | OMergeAll uuid => merge_all_segments uuid
  | OReopen => reopen
  end.
Fixpoint kv_run (ops : list kv_op) : on_db unit :=
  match ops with [] => mret tt | op :: ops => kv_step op ≫= fun _ => kv_run ops end.

(** The map it implements: what is committed and what is not. *)
Record Contents := { committed : gmap (list Z) (list Z); uncommitted : gmap (list Z) (list Z) }.
Definition map_step (m : Contents) (op : kv_op) : Contents :=
  match op with
  | OInsert k v => {| committed := committed m; uncommitted := <[k := v]> (uncommitted m) |}
  | OCommit _ => {| committed := uncommitted m ∪ committed m; uncommitted := ∅ |}
  | OMergeAll _ => m
  | OReopen => {| committed := committed m; uncommitted := ∅ |}
  end.
Definition map_run (ops : list kv_op) : Contents :=
  foldl map_step {| committed := ∅; uncommitted := ∅ |} ops.

Definition op_uuids (op : kv_op) : list Z := match op with OCommit u | OMergeAll u => [u] | _ => [] end.
Definition op_total (f : entry -> Z) (op : kv_op) : Z := match op with OInsert k v => f (k, v) | _ => 0 end.
Definition ops_total (f : entry -> Z) (ops : list kv_op) : Z := fold_right Z.add 0 (op_total f <$> ops).

Definition refines (w : World) (ls : list (list entry)) (m : Contents) : Prop :=
  db_ok w ls /\ Forall (fun l => l <> []) ls /\
  forall k, newest k ls = committed m !! k /\ assoc k (live_segment w.1) = uncommitted m !! k.
(** A measure of what [w] holds. *)
Definition held (f : entry -> Z) (w : World) (ls : list (list entry)) : Z :=
  fold_right Z.add 0 (total f <$> ls) + total f (live_segment w.1).

Lemma sum_app (l1 l2 : list Z) : fold_right Z.add 0 (l1 ++ l2) = fold_right Z.add 0 l1 + fold_right Z.add 0 l2.
Proof. induction l1 as [|x l1 IH]; cbn [app fold_right]; lia. Qed.
Lemma sum_totals_nonneg f ls : (forall e, 0 <= f e) -> 0 <= fold_right Z.add 0 (total f <$> ls).
Proof.
  intros Hf. induction ls as [|l ls IH]; cbn; [lia|]. pose proof (total_nonneg f l Hf). cbn in IH. lia.
Qed.
Lemma total_one l : total (fun _ => 1) l = zlen l.
Proof. unfold zlen. induction l as [|e l IH]; cbn [total length]; lia. Qed.
Lemma holds_sorted segs ls : Forall2 holds segs ls -> Forall sorted ls.
Proof. induction 1 as [|s l segs ls [Hs _] _ IH]; by constructor. Qed.
Lemma merged_spec f ls :
  (forall e, 0 <= f e) -> Forall sorted ls ->
  (forall k, newest k (merged ls) = newest k ls) /\
  fold_right Z.add 0 (total f <$> merged ls) <= fold_right Z.add 0 (total f <$> ls).
Proof.
  intros Hf Hs. destruct (sorted_segments_spec f ls Hf Hs) as (_ & Ha & Ht).
  unfold merged. destruct ls as [|l1 [|l2 ls]]; [done|done|]. split; [intros k; apply Ha|].
  cbn [fmap list_fmap fold_right] in *. lia.
Qed.

Lemma newest_head l ls e : l <> [] -> head l = Some e -> is_Some (newest e.1 (l :: ls)).
Proof.
  intros _ He. cbn. destruct (newest e.1 ls); [by eexists|]. destruct l as [|[k v] l]; [done|]. cbn in He.
  simplify_eq. cbn. rewrite decide_True by done. by eexists.
Qed.
Lemma merged_nonempty ls : Forall sorted ls -> Forall (fun l => l <> []) ls -> Forall (fun l => l <> []) (merged ls).
Proof.
  intros Hs Hne. unfold merged. destruct ls as [|l1 [|l2 ls]]; [done|done|].
  constructor; [|constructor]. intros E.
  destruct (sorted_segments_spec (fun _ => 0) (l1 :: l2 :: ls) ltac:(lia) Hs) as (_ & Ha & _).
  apply Forall_cons in Hne as [H1 _]. destruct l1 as [|e l1]; [done|].
  destruct (newest_head (e :: l1) (l2 :: ls) e H1 eq_refl) as [v Hv]. rewrite <- Ha, E in Hv. done.
Qed.

Lemma kv_step_refines N op w ls m :
  refines w ls m -> (forall u, u ∈ op_uuids op -> u ∉ meta_segments w.1) ->
  (forall n, 0 < n <= N -> 0 < num_bits kv_ln n false_positives) ->
  held (fun _ => 1) w ls + op_total (fun _ => 1) op <= N ->
  held entry_bytes w ls + op_total entry_bytes op <= u64_max ->
  exists w' ls', kv_step op w = (w', Ok tt) /\ refines w' ls' (map_step m op) /\
    (forall f, (forall e, 0 <= f e) -> held f w' ls' <= held f w ls + op_total f op) /\
    (forall u, u ∈ meta_segments w'.1 -> u ∈ op_uuids op \/ u ∈ meta_segments w.1).
Proof.
  intros (Hok & Hne & Hm) Hfresh Hbits Hcount Hbytes. unfold held in Hcount, Hbytes |- *.
  pose proof (sum_totals_nonneg (fun _ => 1) ls (fun _ => Z.le_0_1)) as Hnn1.
  pose proof (sum_totals_nonneg entry_bytes ls entry_bytes_nonneg) as Hnn2.
  pose proof (total_nonneg (fun _ => 1) (live_segment w.1) (fun _ => Z.le_0_1)) as Hnn3.
  pose proof (total_nonneg entry_bytes (live_segment w.1) entry_bytes_nonneg) as Hnn4.
  destruct op as [k v|uuid|uuid|]; cbn [kv_step map_step op_uuids op_total] in *.
  - destruct w as [db d]. do 2 eexists. split; [done|]. pose proof Hok as (H1 & H2 & H3 & H4 & H5 & H6 & H7 & Hs).
    split_and!.
    + split; [unfold db_ok; cbn in *; split_and!; try done; by apply btree_insert_sorted|]. split; [exact Hne|].
      intros k'. split; [apply Hm|]. cbn. rewrite assoc_btree_insert by done. rewrite lookup_insert.
      case_decide; [by rewrite decide_True|]. rewrite decide_False by done. apply Hm.
    + intros f Hf. cbn. pose proof (total_btree_insert f k v (live_segment db) Hf). lia.
    + cbn. auto.
  - destruct (commit_works w ls uuid Hok) as (w' & E & Hok' & Hl' & _ & Hu').
    + apply Hfresh. by left.
    + intros Hnl. apply Hbits. rewrite total_one in *. unfold zlen in *.
      destruct (live_segment w.1); [done|]. cbn in *. lia.
    + lia.
    + do 2 eexists. split; [exact E|]. split_and!; [split; [exact Hok'|split]| |].
      * case_decide; [done|]. apply Forall_app. by split; [|constructor].
      * intros k. rewrite Hl'. cbn [committed uncommitted assoc]. rewrite lookup_empty. split; [|done].
        rewrite lookup_union. destruct (Hm k) as [<- <-]. case_decide as El; [rewrite El; cbn; by destruct (newest k ls)|].
        rewrite newest_app. by destruct (assoc k (live_segment w.1)), (newest k ls).
      * intros f Hf. rewrite Hl'. cbn [total]. case_decide as El.
        -- rewrite El. cbn [total]. lia.
        -- rewrite fmap_app, sum_app. cbn. lia.
      * intros u Hu. destruct (Hu' u Hu) as [-> |]; [left; by left|by right].
  - pose proof (holds_sorted _ _ (proj1 (proj2 Hok))) as Hsort.
    destruct (merge_all_works w ls uuid Hok) as (w' & E & Hok' & Hl' & _ & Hu').
    + apply Hfresh. by left.
    + intros Hlen. apply Hbits. split; [|lia]. destruct ls as [|l1 ls]; [cbn in Hlen; lia|].
      apply Forall_cons in Hne as [H1 _]. rewrite fmap_cons. cbn [fold_right]. rewrite total_one.
      pose proof (sum_totals_nonneg (fun _ => 1) ls (fun _ => Z.le_0_1)). unfold zlen. destruct l1; [done|]. cbn [length]. lia.
    + lia.
    + do 2 eexists. split; [exact E|]. split_and!; [split; [exact Hok'|split]| |].
      * by apply merged_nonempty.
      * intros k. rewrite Hl', (proj1 (merged_spec (fun _ => 0) ls ltac:(lia) Hsort)). apply Hm.
      * intros f Hf. rewrite Hl'. pose proof (proj2 (merged_spec f ls Hf Hsort)). lia.
      * intros u Hu. destruct (Hu' u Hu) as [-> |]; [left; by left|by right].
  - destruct w as [db d]. destruct (open_or_create_works (db, d) ls Hok) as (d' & db' & E & Hok' & Hl' & _ & Hu').
    cbn [fst snd] in *. exists (db', d'), ls. split; [unfold reopen; by rewrite E|].
    split_and!; [split; [done|split; [done|]]| |].
    + intros k. cbn. rewrite Hl', lookup_empty. split; [apply Hm|done].
    + intros f Hf. cbn [fst]. rewrite Hl'. cbn [total]. pose proof (total_nonneg f (live_segment db) Hf). lia.
    + cbn [fst]. rewrite Hu'. auto.
Qed.

Lemma kv_run_refines N ops w ls m :
  refines w ls m -> (forall u, u ∈ concat (op_uuids <$> ops) -> u ∉ meta_segments w.1) ->
  NoDup (concat (op_uuids <$> ops)) ->
  (forall n, 0 < n <= N -> 0 < num_bits kv_ln n false_positives) ->
  held (fun _ => 1) w ls + ops_total (fun _ => 1) ops <= N ->
  held entry_bytes w ls + ops_total entry_bytes ops <= u64_max ->
  exists w' ls', kv_run ops w = (w', Ok tt) /\ refines w' ls' (foldl map_step m ops).
Proof.
  revert w ls m; induction ops as [|op ops IH]; intros w ls m Hr Hfresh Hnd Hbits Hcount Hbytes.
  { by exists w, ls. }
  unfold ops_total in *. rewrite fmap_cons in *. cbn [concat fold_right] in *. apply NoDup_app in Hnd as (Hnd1 & Hdisj & Hnd).
  assert (forall f, (forall e, 0 <= f e) -> 0 <= fold_right Z.add 0 (op_total f <$> ops)) as Hnn.
  { clear. intros f Hf. induction ops as [|[k v| | |] ops IH]; cbn; [lia|specialize (Hf (k, v))|..]; cbn in IH; lia. }
  pose proof (Hnn (fun _ => 1) (fun _ => Z.le_0_1)) as Hnn1. pose proof (Hnn entry_bytes entry_bytes_nonneg) as Hnn2.
  destruct (kv_step_refines N op w ls m) as (w1 & ls1 & E1 & Hr1 & Hheld & Hu1); try done.
  { intros u Hu. apply Hfresh, elem_of_app. by left. }
  { lia. }
  { lia. }
  pose proof (Hheld (fun _ => 1) (fun _ => Z.le_0_1)). pose proof (Hheld entry_bytes entry_bytes_nonneg).
  destruct (IH w1 ls1 (map_step m op)) as (w2 & ls2 & E2 & Hr2); try done; [|lia|lia|].
  - intros u Hu Hin. destruct (Hu1 u Hin) as [Hop|Hold]; [by eapply Hdisj|].
    eapply Hfresh; [|exact Hold]. apply elem_of_app. by right.
  - exists w2, ls2. split; [|done]. cbn [kv_run]. by erewrite db_bind by exact E1.
Qed.

Lemma elem_newest e l ls : e ∈ l -> l ∈ ls -> is_Some (newest e.1 ls).
Proof.
  intros He Hl. induction ls as [|l' ls IH]; [by apply elem_of_nil in Hl|]. cbn.
  destruct (newest e.1 ls) as [v|] eqn:E; [by eexists|]. apply elem_of_cons in Hl as [<-|Hl].
  - clear -He. induction l as [|[k v] l IH]; [by apply elem_of_nil in He|]. cbn. case_decide; [by eexists|].
    apply elem_of_cons in He as [-> |He]; [done|auto].
  - by destruct (IH Hl).
Qed.
Lemma lookups_refine w ls m key :
  refines w ls m -> (forall k, is_Some (committed m !! k) -> key `prefix_of` k -> k = key) ->
  Db_get_raw w.1 key = Some (committed m !! key) /\
  get_raw_with_live w.1 key = Some ((uncommitted m ∪ committed m) !! key).
Proof.
  intros (Hok & _ & Hm) Hext. pose proof Hok as (_ & Hh & _). unfold Db_get_raw, get_raw_with_live.
  rewrite (find_in_holds _ ls key Hh).
  2: { intros l Hl e He Hp. apply Hext; [|done]. rewrite <- (proj1 (Hm e.1)). by eapply elem_newest. }
  rewrite lookup_union. destruct (Hm key) as [<- <-]. split; [done|].
  by destruct (assoc key (live_segment w.1)), (newest key ls).
Qed.
End Refinement.

(** ** Iteration *)

Section Iteration.
Context `{KvLibsLaws}.

Lemma mapM_iter0 segs ls : Forall2 holds segs ls -> mapM (fun s => segment_iter_raw_with_offset s 0) segs = Some ls.
Proof. apply mapM_iter_holds. Qed.
Lemma find_segment_holds segs ls idx n :
  Forall2 holds segs ls ->
  match find_segment segs idx n with
  | (Some i, r) => exists l ls', (idx <= i)%nat /\ drop (i - idx) ls = l :: ls' /\ drop n (concat ls) = drop r l ++ concat ls'
  | (None, _) => drop n (concat ls) = []
  end.
Proof.
  intros Hh. revert idx n; induction Hh as [|s l segs ls Hs _ IH]; intros idx n; cbn [find_segment]; [by destruct n|].
  rewrite (len_holds _ _ Hs). destruct (Nat.ltb_spec n (length l)).
  - exists l, ls. rewrite Nat.sub_diag. split_and!; [lia|done|]. cbn. by rewrite drop_app_le by lia.
  - specialize (IH (idx + 1)%nat (n - length l)%nat). destruct (find_segment segs _ _) as [[i|] r].
    + destruct IH as (l' & ls' & Hi & Hd & E). exists l', ls'. split_and!; [lia| |].
      * replace (i - idx)%nat with (S (i - (idx + 1))) by lia. done.
      * cbn. by rewrite drop_app_ge by lia.
    + cbn. by rewrite drop_app_ge by lia.
Qed.

(** Iterating from an offset is skipping that many entries, over all segments. *)
Lemma iter_with_offset_skips w ls n :
  db_ok w ls ->
  Db_iter_raw w.1 = Some (concat ls) /\ Db_iter_raw_with_offset w.1 n = Some (drop n (concat ls)) /\
  Db_len w.1 = length (concat ls) /\ sorted_iter_raw w.1 = Some (sorted_segments ls).
Proof.
  intros (_ & Hh & _). unfold Db_iter_raw, Db_iter_raw_with_offset, Db_len, sorted_iter_raw.
  rewrite (mapM_iter_holds _ _ Hh). split_and!; [done| | |done].
  - pose proof (find_segment_holds _ _ 0 n Hh) as Hf. destruct (find_segment (segments w.1) 0 n) as [[i|] r]; cbn [default id].
    + destruct Hf as (l & ls' & _ & Hd & ->). rewrite Nat.sub_0_r in Hd.
      apply (Forall2_drop _ _ _ i) in Hh. rewrite Hd in Hh. apply Forall2_cons_inv_r in Hh as (s & segs' & Hs & Hh' & ->).
      rewrite (iter_holds _ _ r Hs). cbn [mbind option_bind]. by rewrite (mapM_iter0 _ _ Hh').
    + by rewrite drop_all, Hf.
  - clear n. induction Hh as [|s l segs ls Hs _ IH]; [done|]. rewrite fmap_cons. cbn [concat].
    rewrite length_app, <- IH, (len_holds _ _ Hs). done.
Qed.
End Iteration.

(** ** Taking over another store *)

(** Looks past the other files that were written or removed. *)
Ltac other_files :=
  repeat first [rewrite lookup_insert_ne by congruence | rewrite lookup_delete_ne by congruence].

Section TakeOver.
Context `{KvLibsLaws}.

Definition moved (s : Segment) (folder : Z) : Segment :=
  {| seg_folder := folder; seg_uuid := seg_uuid s; id_index := id_index s; blob_index := blob_index s;
     store := store s; bloom := bloom s |}.
Lemma rename_works k k' d bytes :
  calls d = None -> files d !! k = Some bytes ->
  rename_file k k' d = (set_files (<[k' := bytes]> (delete k (files d))) d, Ok tt).
Proof.
  intros Hc Hk. unfold rename_file. rewrite (bind_works _ _ d d bytes); [by rewrite syscall_works|].
  unfold inspect. by rewrite Hk.
Qed.
Lemma move_to_works d s l folder :
  calls d = None -> on_disk d s -> holds s l -> folder <> seg_folder s ->
  exists d', move_to s folder d = (d', Ok (moved s folder)) /\ calls d' = None /\ metas d' = metas d /\
    on_disk d' (moved s folder) /\
    forall k, k.1 <> seg_id s -> k.1 <> (folder, seg_uuid s) -> files d' !! k = files d !! k.
Proof.
  intros Hc (D1 & D2 & D3 & D4) Hh Hne. unfold move_to, create_dir_all.
  erewrite bind_works by (by apply syscall_works). cbn [id].
  unfold seg_id. erewrite bind_works by (apply rename_works; [done|exact D2]).
  erewrite bind_works by (apply rename_works; [done|]; cbn; other_files; exact D1).
  erewrite bind_works by (apply rename_works; [done|]; cbn; other_files; exact D3).
  erewrite bind_works by (apply rename_works; [done|]; cbn; other_files; exact D4).
  match goal with |- context [Segment_open _ _ ?d1] => set (d' := d1) end.
  assert (on_disk d' (moved s folder)) as Hd'.
  { unfold on_disk, d'. cbn. split_and!; other_files; by rewrite lookup_insert_eq. }
  exists d'. split_and!; [|done|done|done|].
  - by apply (Segment_open_works d' (moved s folder) l).
  - intros k H1' H2'. unfold d', seg_id in *. cbn.
    by repeat first [rewrite lookup_insert_ne by (intros <-; by apply H2')
      | rewrite lookup_delete_ne by (intros <-; by apply H1')].
Qed.

Lemma take_over_works db d lo segs :
  calls d = None -> Forall2 holds segs lo -> Forall (on_disk d) segs ->
  Forall (on_disk d) (segments db) -> Forall (fun s => seg_folder s = db_folder db) (segments db) ->
  Forall (fun s => seg_folder s <> db_folder db) segs ->
  NoDup (seg_uuid <$> segments db ++ segs) ->
  exists d', take_over segs (db, d) =
      ((set_segments (segments db ++ ((fun s => moved s (db_folder db)) <$> segs)) db, d'), Ok tt) /\
    calls d' = None /\ metas d' = metas d /\
    Forall (on_disk d') (segments db ++ ((fun s => moved s (db_folder db)) <$> segs)).
Proof.
  revert db d lo. induction segs as [|s segs IH]; intros db d lo Hc Hh Hd Hdb Hfo Hne Hnd.
  { exists d. rewrite app_nil_r. by destruct db. }
  apply Forall2_cons_inv_l in Hh as (l & lo' & Hs & Hh & ->). apply Forall_cons in Hd as [Hd1 Hd], Hne as [Hn1 Hne].
  cbn [take_over]. rewrite this_bind. cbn [fst].
  destruct (move_to_works d s l (db_folder db) Hc Hd1 Hs (not_eq_sym Hn1)) as (d1 & E1 & Hc1 & Hm1 & Hd' & Hsame).
  erewrite db_bind by (by apply on_fs_works). rewrite change_bind.
  rewrite fmap_app, fmap_cons in Hnd.
  assert (forall s', s' ∈ segments db \/ s' ∈ segs -> seg_uuid s' <> seg_uuid s) as Hdist.
  { intros s' Hin E. apply NoDup_app in Hnd as (_ & Hdisj & [Hnin _]%NoDup_cons). destruct Hin as [Hin|Hin].
    - apply (Hdisj (seg_uuid s')); [by apply list_elem_of_fmap_2|rewrite E; by left].
    - apply Hnin. rewrite <- E. by apply list_elem_of_fmap_2. }
  assert (forall s', s' ∈ segments db \/ s' ∈ segs -> on_disk d s' -> on_disk d1 s') as Hkeep.
  { intros s' Hin Hon. eapply on_disk_same; [exact Hon|]. intros k Hk.
    apply Hsame; rewrite Hk; intros [= _ E]; by apply (Hdist s'). }
  match goal with |- context [take_over segs (?db1, _)] => set (db' := db1) end.
  destruct (IH db' d1 lo') as (d2 & E2 & Hc2 & Hm2 & Hd2); try done.
  - rewrite Forall_forall in Hd |- *. intros s' Hs'. apply Hkeep; auto.
  - apply Forall_app. split; [|by constructor]. rewrite Forall_forall in Hdb |- *. intros s' Hs'. apply Hkeep; auto.
  - apply Forall_app. split; [done|by constructor].
  - unfold db'. cbn [segments set_segments]. rewrite <- app_assoc, fmap_app. exact Hnd.
  - exists d2. unfold db' in *. cbn in *. rewrite <- app_assoc in E2, Hd2. cbn in E2, Hd2.
    split_and!; [exact E2|done|congruence|done].
Qed.

(** [Db::merge] adds the other store's committed entries as the newest ones;
    its folder is gone afterwards. *)
Lemma Db_merge_works w ls other lo :
  db_ok w ls -> Forall2 holds (segments other) lo -> Forall (on_disk w.2) (segments other) ->
  Forall (fun s => seg_folder s = db_folder other) (segments other) -> db_folder other <> db_folder w.1 ->
  NoDup (seg_uuid <$> segments w.1 ++ segments other) ->
  exists w', Db_merge other w = (w', Ok tt) /\ db_ok w' (ls ++ lo) /\ metas w'.2 !! db_folder other = None.
Proof.
  destruct w as [db d]. cbn [fst snd]. intros (Hc & Hh & Hd & Hfo & Hmeta & Hm & Hnd0 & Hlive) Hho Hdo Hfoo Hne Hnd.
  cbn [fst snd] in *. unfold Db_merge.
  destruct (take_over_works db d lo (segments other)) as (d1 & E1 & Hc1 & Hm1 & Hd1); try done.
  { eapply Forall_impl; [exact Hfoo|]. cbn. by intros s ->. }
  erewrite db_bind by exact E1. rewrite change_bind.
  match goal with |- context [(save_meta ≫= _) (?db', ?d')] =>
    destruct (save_meta_works db' d' Hc1) as (d2 & E2 & Hc2 & Hf2 & Hm2); set (db2 := db') in * end.
  erewrite db_bind by exact E2. unfold remove_dir_all. rewrite (on_fs_works _ db2 d2 _ _ (syscall_works _ d2 Hc2)).
  eexists. split; [done|]. unfold db_ok. cbn [fst snd calls files metas segments meta_segments db_folder live_segment].
  set (moved_segs := (fun s => moved s (db_folder db)) <$> segments other) in *.
  assert (seg_uuid <$> moved_segs = seg_uuid <$> segments other) as Eu.
  { unfold moved_segs. by rewrite <- list_fmap_compose. }
  assert (Forall2 holds (segments db ++ moved_segs) (ls ++ lo)) as Hhold.
  { apply Forall2_app; [done|]. unfold moved_segs. apply Forall2_fmap_l. eapply Forall2_impl; [exact Hho|]. done. }
  assert (Forall (fun s => seg_folder s = db_folder db) (segments db ++ moved_segs)) as Hfol.
  { apply Forall_app. split; [done|]. by apply Forall_fmap, Forall_true. }
  split; [split_and!|]; try done.
  - unfold db2. cbn. rewrite Forall_forall in Hd1, Hfol |- *. intros s Hs. specialize (Hd1 s Hs). specialize (Hfol s Hs).
    unfold on_disk in *. cbn. rewrite <- Hf2 in Hd1. destruct Hd1 as (A & B & C' & D).
    split_and!; apply map_lookup_filter_Some; (split; [done|]); cbn; by rewrite Hfol.
  - cbn. rewrite lookup_delete_ne by done. rewrite Hm2. unfold db2. cbn. apply lookup_insert_eq.
  - unfold db2. cbn. by rewrite fmap_app, Eu, <- fmap_app.
  - cbn. apply lookup_delete_eq.
Qed.
End TakeOver.

(** ** Typed stores *)

Section Prefix.
Context `{BincodeLaws T}.

Lemma encode_prefix (x y : T) a b :
  encode_to_vec x = Some a -> encode_to_vec y = Some b -> a `prefix_of` b -> x = y /\ a = b.
Proof.
  intros Hx Hy [r ->]. pose proof (decode_encode x a r Hx) as Dx.
  pose proof (decode_encode y (a ++ r) [] Hy) as Dy. rewrite app_nil_r, Dx, length_app in Dy.
  injection Dy as -> Hl. split; [done|]. destruct r; [by rewrite app_nil_r|cbn in Hl; lia].
Qed.
Lemma encode_inj (x y : T) a : encode_to_vec x = Some a -> encode_to_vec y = Some a -> x = y.
Proof. intros Hx Hy. by destruct (encode_prefix x y a a Hx Hy). Qed.
End Prefix.

Section Typed.
Context `{KvLibsLaws} {K V : Type} `{!EqDecision K, !Countable K} `{BincodeLaws K} `{BincodeLaws V}.

Inductive typed_op :=
| TInsert (key : K) (value : V)
| TCommit (uuid : Z)
| TMergeAll (uuid : Z)
| TReopen.
Definition typed_step (op : typed_op) : on_db unit :=
  match op with
  | TInsert key value => fun '(db, d) =>
      match Db_insert key value db with Ok db => ((db, d), Ok tt) | Err e => ((db, d), Err e) end
  | TCommit uuid => commit uuid
  | TMergeAll uuid => merge_all_segments uuid
  | TReopen => reopen
  end.
Fixpoint typed_run (ops : list typed_op) : on_db unit :=
  match ops with [] => mret tt | op :: ops => typed_step op ≫= fun _ => typed_run ops end.

(** The committed and the uncommitted map. *)
Definition typed_map_step (m : gmap K V * gmap K V) (op : typed_op) : gmap K V * gmap K V :=
  match op with
  | TInsert x y => (m.1, <[x := y]> m.2)
  | TCommit _ => (m.2 ∪ m.1, ∅)
  | TMergeAll _ => m
  | TReopen => (m.1, ∅)
  end.
Definition typed_map (ops : list typed_op) : gmap K V * gmap K V := foldl typed_map_step (∅, ∅) ops.

Definition typed_ok (op : typed_op) : Prop :=
  match op with TInsert x y => is_Some (encode_to_vec x) /\ is_Some (encode_to_vec y) | _ => True end.
Definition raw_op (op : typed_op) : kv_op :=
  match op with
  | TInsert x y => OInsert (default [] (encode_to_vec x)) (default [] (encode_to_vec y))
  | TCommit u => OCommit u
  | TMergeAll u => OMergeAll u
  | TReopen => OReopen
  end.
Lemma typed_run_raw ops w : Forall typed_ok ops -> typed_run ops w = kv_run (raw_op <$> ops) w.
Proof.
  intros Hall. revert w; induction Hall as [|op ops Hop _ IH]; intros w; [done|].
  rewrite fmap_cons. cbn [typed_run kv_run]. unfold mbind, method_bind.
  assert (typed_step op w = kv_step (raw_op op) w) as ->.
  { destruct op as [x y| | |]; try done. destruct Hop as [[a Ha] [b Hb]], w as [db d]. cbn [typed_step].
    unfold Db_insert. rewrite Ha, Hb. cbn. by rewrite Ha, Hb. }
  destruct (kv_step _ w) as [w' [[]|]]; [apply IH|done].
Qed.

(** A map of bytes that is the encoding of a typed one. *)
Definition encodes (raw : gmap (list Z) (list Z)) (m : gmap K V) : Prop :=
  (forall x a, encode_to_vec x = Some a -> raw !! a = m !! x ≫= encode_to_vec) /\
  (forall x y, m !! x = Some y -> is_Some (encode_to_vec y)) /\
  (forall a, is_Some (raw !! a) -> exists x : K, encode_to_vec x = Some a).
Lemma encodes_empty : encodes ∅ ∅.
Proof.
  split_and!; [intros; by rewrite !lookup_empty|intros x y; by rewrite lookup_empty|].
  intros a [v Hv]. by rewrite lookup_empty in Hv.
Qed.
Lemma encodes_insert raw m x y a b :
  encodes raw m -> encode_to_vec x = Some a -> encode_to_vec y = Some b -> encodes (<[a := b]> raw) (<[x := y]> m).
Proof.
  intros (H1' & H2' & H3') Ha Hb. split_and!.
  - intros x' a' Ha'. rewrite !lookup_insert. destruct (decide (x = x')) as [<-|Hne].
    + rewrite Ha in Ha'. simplify_eq. by rewrite !decide_True.
    + rewrite decide_False; [by apply H1'|]. intros <-. apply Hne. by eapply encode_inj.
  - intros x' y'. rewrite lookup_insert. case_decide; [|by apply H2']. intros [= <-]. by eexists.
  - intros a' Hs. rewrite lookup_insert in Hs. case_decide; [by subst; eexists|by apply H3'].
Qed.
Lemma encodes_union raw m raw' m' : encodes raw m -> encodes raw' m' -> encodes (raw ∪ raw') (m ∪ m').
Proof.
  intros (A1 & A2 & A3) (B1 & B2 & B3). split_and!.
  - intros x a Ha. rewrite !lookup_union, (A1 _ _ Ha), (B1 _ _ Ha).
    destruct (m !! x) as [y|] eqn:Hy; cbn; [|by destruct (m' !! x) as [y'|]; cbn; [destruct (encode_to_vec y')|]].
    destruct (A2 _ _ Hy) as [b Hb]. rewrite Hb.
    destruct (m' !! x) as [y'|]; cbn; rewrite Hb; [by destruct (encode_to_vec y')|done].
  - intros x y Hxy. rewrite lookup_union in Hxy.
    destruct (m !! x) as [y1|] eqn:E, (m' !! x) as [y2|] eqn:E'; cbn in Hxy; simplify_eq; eauto.
  - intros a [b Hb]. rewrite lookup_union in Hb. destruct (raw !! a) eqn:E; [eauto|].
    destruct (raw' !! a) eqn:E'; [eauto|done].
Qed.
Lemma typed_map_raw ops raw m :
  Forall typed_ok ops -> encodes (committed raw) m.1 -> encodes (uncommitted raw) m.2 ->
  encodes (committed (foldl map_step raw (raw_op <$> ops))) (foldl typed_map_step m ops).1.
Proof.
  intros Hall. revert raw m; induction Hall as [|op ops Hop _ IH]; intros raw m Hc Hu; [done|].
  rewrite fmap_cons. cbn [foldl]. apply IH; destruct op as [x y| | |]; cbn; try done;
    try apply encodes_empty; [by apply encodes_union|].
  destruct Hop as [[a Ha] [b Hb]]. rewrite Ha, Hb. by apply encodes_insert.
Qed.

(** C39: a store created on a new folder, on a file system that works, is a map:
    any sequence of inserts, commits, merges of all segments and reopenings
    succeeds, and afterwards [get] returns for every key the value of the latest
    committed insert of it, and nothing for a key without one. *)
Theorem store_is_a_map folder d ops N :
  calls d = None -> metas d !! folder = None -> Forall typed_ok ops ->
  NoDup (concat (op_uuids ∘ raw_op <$> ops)) ->
  ops_total (fun _ => 1) (raw_op <$> ops) <= N ->
  (forall n, 0 < n <= N -> 0 < num_bits kv_ln n false_positives) ->
  ops_total entry_bytes (raw_op <$> ops) <= u64_max ->
  exists d0 db0 w, open_or_create folder d = (d0, Ok db0) /\ typed_run ops (db0, d0) = (w, Ok tt) /\
    forall x, is_Some (encode_to_vec x) -> Db_get w.1 x = Ok ((typed_map ops).1 !! x).
Proof.
  intros Hc Hm Hall Hnd Hcount Hbits Hbytes.
  destruct (open_new_works folder d Hc Hm) as (d0 & db0 & Eo & Hok & Hl & Hfo & Hu).
  set (m0 := {| committed := ∅; uncommitted := ∅ |}).
  assert (refines (db0, d0) [] m0) as Hr.
  { split; [done|split; [done|]]. intros k. cbn. by rewrite Hl, !lookup_empty. }
  destruct (kv_run_refines N (raw_op <$> ops) (db0, d0) [] m0 Hr) as (w & ls & E & Hr'); try done.
  - cbn. intros u _. rewrite Hu. by apply not_elem_of_nil.
  - by rewrite <- list_fmap_compose.
  - unfold held. cbn. rewrite Hl. cbn. lia.
  - unfold held. cbn. rewrite Hl. cbn. lia.
  - exists d0, db0, w. split_and!; [done|by rewrite typed_run_raw|]. intros x [a Ha].
    destruct (typed_map_raw ops m0 (∅, ∅) Hall encodes_empty encodes_empty) as (M1 & M2 & M3).
    fold (typed_map ops) in M1, M2. set (raw := foldl map_step m0 (raw_op <$> ops)) in *.
    destruct (lookups_refine w ls raw a Hr') as [Hget _].
    { intros k Hk Hp. destruct (M3 k Hk) as [x' Hx']. by destruct (encode_prefix x x' a k Ha Hx' Hp). }
    unfold Db_get. rewrite Ha. cbn [ok_or mbind result_bind]. rewrite Hget, (M1 x a Ha). cbn [ok_or mbind result_bind].
    destruct ((typed_map ops).1 !! x) as [y|] eqn:Hy; [|done]. cbn. destruct (M2 _ _ Hy) as [b Hb]. rewrite Hb.
    pose proof (decode_encode y b [] Hb) as Hd. rewrite app_nil_r in Hd. by rewrite Hd.
Qed.
End Typed.

(** ** Failures *)

Section Failures.
Context `{KvLibs}.

(** A commit that fails has already emptied the live segment: the inserts it
    was to write are in neither place. *)
Lemma failed_commit_drops_inserts uuid w w' e :
  commit uuid w = (w', Err e) -> live_segment w'.1 = [].
Proof.
  destruct w as [db d]. unfold commit. rewrite this_bind. cbn [fst]. case_bool_decide; [done|].
  rewrite change_bind. unfold mbind at 1, method_bind at 1, on_fs at 1.
  destruct (LiveSegment_store _ _ _ d) as [d' [s|e']]; [|by intros [= <- _]].
  rewrite !change_bind. unfold save_meta. rewrite this_bind. unfold on_fs.
  destruct (write_meta _ _ d') as [d'' r]. by intros [= <- _].
Qed.
End Failures.

(** ** A concrete store *)

Module KvReference.
Import Codec HeapReference BloomExamples.

Definition fst_entries (file : list Z) : list (list Z * Z) :=
  match get (A := list (list Z * Z)) file with Some (l, []) => l | _ => [] end.
Fixpoint first_match {S} (a : Automaton S) (l : list (list Z * Z)) : option (option (list Z * Z)) :=
  match l with
  | [] => Some None
  | e :: l =>
      match aut_run a (aut_start a) e.1 with
      | None => None
      | Some true => Some (Some e)
      | Some false => first_match a l
      end
  end.
Fixpoint all_matches {S} (a : Automaton S) (l : list (list Z * Z)) : option (list (list Z * Z)) :=
  match l with
  | [] => Some []
  | e :: l =>
      found ← aut_run a (aut_start a) e.1;
      rest ← all_matches a l;
      Some (if found : bool then e :: rest else rest)
  end.
#[export] Instance fst_reference : Fst := {|
  fst_build l := put l;
  fst_valid file := bool_decide (is_Some (get (A := list (list Z * Z)) file));
  fst_next S file a := first_match a (fst_entries file);
  fst_search S file a := all_matches a (fst_entries file);
  fst_range file lo hi := List.filter (fun e => above lo e.1 && below hi e.1) (fst_entries file);
  fst_len file := length (fst_entries file);
|}.
Lemma fst_entries_build l : fst_entries (fst_build l) = l.
Proof. unfold fst_entries. cbn [fst_build fst_reference]. rewrite <- (app_nil_r (put l)), get_put. done. Qed.
#[export] Instance fst_reference_laws : FstLaws.
Proof.
  split; cbn [fst_valid fst_next fst_search fst_range fst_len fst_reference]; intros;
    try rewrite fst_entries_build; try done.
  - change (fst_build l) with (put l). rewrite <- (app_nil_r (put l)), get_put. done.
  - match goal with HF : Forall _ l1 |- _ => induction HF as [|e l1 He _ IH]; cbn end.
    + by match goal with HR : aut_run _ _ _ = Some true |- _ => rewrite HR end.
    + rewrite He. apply IH. by match goal with HS : ids_sorted _ |- _ => apply StronglySorted_inv in HS as [? _] end.
  - match goal with HF : Forall _ l |- _ => induction HF as [|e l' He _ IH]; cbn; [done|] end.
    rewrite He. apply IH. by match goal with HS : ids_sorted _ |- _ => apply StronglySorted_inv in HS as [? _] end.
  - match goal with HF : Forall _ l |- _ => induction HF as [|e l' He _ IH]; cbn; [done|] end.
    rewrite He. cbn. rewrite IH; [done|].
    by match goal with HS : ids_sorted _ |- _ => apply StronglySorted_inv in HS as [? _] end.
Qed.

Definition bit_to_Z (b : bool) : Z := if b then 1 else 0.
#[export] Instance kv_reference : KvLibs := {|
  kv_fst := fst_reference;
  kv_heap := heap_reference;
  kv_ln := ln_reference;
  kv_hash := hash_reference;
  bloom_encode f := put (bit_to_Z <$> bit_vec f, hashes f);
  bloom_decode bytes :=
    match get (A := list Z * Z) bytes with
    | Some ((bits, n), []) => Some {| bit_vec := (fun b => b =? 1) <$> bits; hashes := n |}
    | _ => None
    end;
|}.
#[export] Instance kv_reference_laws : KvLibsLaws.
Proof.
  split; [apply fst_reference_laws|apply heap_reference_laws|]. intros [bits n]. cbn [bloom_decode bloom_encode kv_reference].
  rewrite <- (app_nil_r (put _)), get_put. cbn. do 2 f_equal. rewrite <- list_fmap_compose.
  rewrite <- (list_fmap_id bits) at 2. apply list_fmap_ext. by intros i [|] _.
Qed.

(** Bytes as keys and values. *)
#[local] Instance byte_code : Bincode Z := {|
  encode_to_vec x := Some [x];
  decode_from_slice bytes := match bytes with b :: _ => Some (b, 1%nat) | [] => None end;
|}.
#[local] Instance byte_code_laws : BincodeLaws Z.
Proof. split. intros x bytes rest E. cbn in E. by simplify_eq. Qed.

Definition empty_disk : FileSystem := {| files := ∅; metas := ∅; calls := None |}.
Definition session : list (typed_op (K := Z) (V := Z)) :=
  [TInsert 1 2; TInsert 2 3; TCommit 100; TInsert 1 4; TCommit 101; TMergeAll 102; TInsert 2 9; TReopen].

Lemma session_map : (typed_map session).1 !! 1 = Some 4 /\ (typed_map session).1 !! 2 = Some 3.
Proof. split; vm_compute; reflexivity. Qed.
Lemma small_filters n : 0 < n <= 4 -> 0 < num_bits ln_reference n false_positives.
Proof.
  intros Hn. assert (n = 1 \/ n = 2 \/ n = 3 \/ n = 4) as [-> |[-> |[-> | ->]]] by lia; vm_compute; reflexivity.
Qed.
Lemma store_is_a_map_witness :
  exists d0 db0 w, open_or_create 1 empty_disk = (d0, Ok db0) /\ typed_run session (db0, d0) = (w, Ok tt) /\
    forall x : Z, is_Some (encode_to_vec x) -> Db_get (V := Z) w.1 x = Ok ((typed_map session).1 !! x).
Proof.
  apply (store_is_a_map 1 empty_disk session 4).
  - reflexivity.
  - reflexivity.
  - repeat constructor; by eexists.
  - apply (bool_decide_unpack _). vm_compute. exact I.
  - vm_compute. discriminate.
  - exact small_filters.
  - vm_compute. discriminate.
Defined.

(** ** What goes wrong *)

Definition limit (n : nat) (w : World) : World :=
  (w.1, {| files := files w.2; metas := metas w.2; calls := Some n |}).
Definition unlimited (w : World) : World :=
  (w.1, {| files := files w.2; metas := metas w.2; calls := None |}).
Definition two_segments : World :=
  (kv_run [OInsert [1] [2]; OCommit 100; OInsert [1] [4]; OCommit 101]
     ({| db_folder := 1; meta_segments := []; live_segment := []; segments := [] |}, empty_disk)).1.

(** [Segment::merge] removes the old segments before [meta.json] names the new
    one: a failure in between leaves a store that does not open. *)
Example interrupted_merge_does_not_open :
  (merge_all_segments 102 (limit 12 two_segments)).2 = Err KvIo /\
  (reopen (unlimited (merge_all_segments 102 (limit 12 two_segments)).1)).2 = Err KvIo.
Proof. split; vm_compute; reflexivity. Qed.

(** Looking up an absent key that a stored key extends indexes out of range in
    [ExactMatch::accept], when the filter lets it through. *)
Definition long_key : World :=
  (kv_run [OInsert [1; 3] [5]; OCommit 100]
     ({| db_folder := 1; meta_segments := []; live_segment := []; segments := [] |}, empty_disk)).1.
Example prefix_lookup_panics : exists key, key `prefix_of` [1; 3] /\ Db_get_raw long_key.1 key = None.
Proof. exists [1]. split; [by exists [3]|]. vm_compute. reflexivity. Qed.
End KvReference.
