(* ===== verification/QueryTerm.v ===== *)
(** * Query terms and the query grammar

    The terms of [query/parser/term.rs] and the grammar of [query/parser/mod.rs]
    over the nom combinators, with the URL normalisation of [webpage/url_ext.rs]. *)

From S2P Require Import Prelude Text Externals.

#[local] Open Scope Z_scope.

(** ** Terms *)

Inductive SimpleOrPhrase :=
| Simple (text : str)
| Phrase (words : list str).
Inductive Term :=
| Term_SimpleOrPhrase (s : SimpleOrPhrase)
| Term_Site (site : str)
| Term_LinkTo (site : str)
| Term_Title (s : SimpleOrPhrase)
| Term_Body (s : SimpleOrPhrase)
| Term_Url (s : SimpleOrPhrase)
| Term_ExactUrl (url : str)
| Term_PossibleBang (prefix : char) (bang : str)
| Term_Not (t : Term).
#[export] Instance SimpleOrPhrase_eq : EqDecision SimpleOrPhrase.
Proof. solve_decision. Defined.
#[export] Instance Term_eq : EqDecision Term.
Proof. solve_decision. Defined.

Definition MAX_TERMS_PER_QUERY : nat := 32.
Definition MAX_PHRASE_LENGTH : nat := 32.
Definition MAX_TERM_LENGTH_CHARS : nat := 1024.

Definition truncate_text (s : SimpleOrPhrase) : SimpleOrPhrase :=
  match s with
  | Simple text => Simple (take MAX_TERM_LENGTH_CHARS text)
  | Phrase words => Phrase (map (take MAX_TERM_LENGTH_CHARS) (take MAX_PHRASE_LENGTH words))
  end.
Definition text_string (s : SimpleOrPhrase) : str :=
  match s with Simple text => text | Phrase words => join [ch_space] words end.
Definition display_text (s : SimpleOrPhrase) : str :=
  match s with Simple text => text | Phrase words => [34] ++ join [ch_space] words ++ [34] end.
Fixpoint display (t : Term) : str :=
  match t with
  | Term_SimpleOrPhrase s => display_text s
  | Term_Not t => lit "-" ++ display t
  | Term_Site s => lit "site:" ++ s
  | Term_LinkTo s => lit "linkto:" ++ s
  | Term_Title s => lit "intitle:" ++ display_text s
  | Term_Body s => lit "inbody:" ++ display_text s
  | Term_Url s => lit "inurl:" ++ display_text s
  | Term_ExactUrl s => lit "exacturl:" ++ s
  | Term_PossibleBang prefix bang => prefix :: bang
  end.
Definition as_simple_text (t : Term) : option str :=
  match t with Term_SimpleOrPhrase s => Some (text_string s) | _ => None end.
Fixpoint truncate_term (t : Term) : Term :=
  match t with
  | Term_SimpleOrPhrase s => Term_SimpleOrPhrase (truncate_text s)
  | Term_Site s => Term_Site s
  | Term_LinkTo s => Term_LinkTo s
  | Term_Title s => Term_Title (truncate_text s)
  | Term_Body s => Term_Body (truncate_text s)
  | Term_Url s => Term_Url (truncate_text s)
  | Term_ExactUrl s => Term_ExactUrl s
  | Term_Not t => Term_Not (truncate_term t)
  | Term_PossibleBang prefix bang => Term_PossibleBang prefix (take MAX_TERM_LENGTH_CHARS bang)
  end.
Definition truncate (terms : list Term) : list Term := map truncate_term (take MAX_TERMS_PER_QUERY terms).

Definition negative_term (t : Term) : bool := match t with Term_Not _ => true | _ => false end.
Definition single_negation (t : Term) : bool := match t with Term_Not t => negb (negative_term t) | _ => true end.

(** ** URLs *)

(** [query_pairs], and [query_pairs_mut] cleared and extended with pairs. *)
Class UrlPairs `{U : UrlOps} := {
  url_query_pairs : url -> list (str * str);
  url_set_query_pairs : url -> list (str * str) -> url;
}.

Definition tracking_key (key : str) : bool :=
  existsb (fun p => starts_with p key) [lit "utm_"; lit "fbclid"; lit "gclid"; lit "msclkid"].

Section Parser.
Context `{N : Nom} `{U : UrlOps} `{UP : !UrlPairs}.

Definition url_normalize (u : url) : url :=
  let u := url_clear_fragment u in
  let queries := List.filter (fun p => negb (tracking_key p.1)) (url_query_pairs u) in
  let u := url_set_query_pairs u queries in
  let u := if is_empty (default [] (url_query u)) then url_clear_query u else u in
  if negb (is_empty (url_username u)) || match url_password u with Some _ => true | None => false end
  then url_clear_userinfo u else u.

(** ** The grammar *)

Definition trim_leading_whitespace (i : str) : option str :=
  match multispace0 i with Some (i, _) => Some i | None => None end.
Definition until_space_or_end : parser str := take_while (fun c => negb (c =? ch_space)).
Definition simple_str : parser str := fun i =>
  if is_empty i then None
  else match trim_leading_whitespace i with Some i => until_space_or_end i | None => None end.
Definition simple : parser SimpleOrPhrase := fun i =>
  match simple_str i with Some (i, text) => Some (i, Simple text) | None => None end.
Definition simple_term : parser Term := fun i =>
  match simple i with Some (i, s) => Some (i, Term_SimpleOrPhrase s) | None => None end.

Definition quoted (start_quote end_quote : char) : parser str := fun i =>
  match nom_char start_quote i with
  | None => None
  | Some (i, _) =>
      match take_until [end_quote] i with
      | None => None
      | Some (i, output) =>
          match nom_char end_quote i with None => None | Some (i, _) => Some (i, output) end
      end
  end.
Definition phrase_helper (start_quote end_quote : char) : parser SimpleOrPhrase := fun i =>
  match quoted start_quote end_quote i with
  | Some (i, output) => Some (i, Phrase (split_whitespace output))
  | None => None
  end.
(** The straight quote and the typographic ones. *)
Definition ch_quote : char := 34.
Definition ch_ldquo : char := 8220.
Definition ch_rdquo : char := 8221.
Definition ch_laquo : char := 171.
Definition ch_raquo : char := 187.
Definition ch_bdquo : char := 8222.
Definition ch_lcorner : char := 12300.
Definition ch_rcorner : char := 12301.
Definition phrase : parser SimpleOrPhrase :=
  alt [phrase_helper ch_quote ch_quote; phrase_helper ch_ldquo ch_rdquo; phrase_helper ch_ldquo ch_ldquo].
Definition phrase_term : parser Term := fun i =>
  match phrase i with Some (i, s) => Some (i, Term_SimpleOrPhrase s) | None => None end.
Definition simple_or_phrase : parser SimpleOrPhrase := alt [phrase; simple].

Definition BANG_PREFIXES : list char := [33; 65281].
Definition single_bang (pref : char) : parser Term := fun i =>
  match nom_char pref i with
  | None => None
  | Some (i, _) =>
      match until_space_or_end i with Some (i, bang) => Some (i, Term_PossibleBang pref bang) | None => None end
  end.
Fixpoint bang_from (prefs : list char) : parser Term := fun i =>
  match prefs with
  | [] => None
  | pref :: prefs' => match single_bang pref i with Some r => Some r | None => bang_from prefs' i end
  end.
Definition bang : parser Term := bang_from BANG_PREFIXES.

(** A field name and its operand. *)
Definition field {A} (name : parser str) (operand : parser A) (make : A -> Term) : parser Term := fun i =>
  match name i with
  | None => None
  | Some (i, _) => match operand i with Some (i, a) => Some (i, make a) | None => None end
  end.
Definition site_field : parser Term := field (tag (lit "site:")) simple_str Term_Site.
Definition links_to_field : parser Term :=
  field (alt [tag (lit "linksto:"); tag (lit "linkto:")]) simple_str Term_LinkTo.
Definition title_field : parser Term := field (tag (lit "intitle:")) simple_or_phrase Term_Title.
Definition body_field : parser Term := field (tag (lit "inbody:")) simple_or_phrase Term_Body.
Definition url_field : parser Term := field (tag (lit "inurl:")) simple_or_phrase Term_Url.
Definition exact_url : parser Term := fun i =>
  match tag (lit "exacturl:") i with
  | None => None
  | Some (i, _) =>
      match simple_str i with
      | None => None
      | Some (i, output) =>
          let parsed := if starts_with (lit "http://") output || starts_with (lit "https://") output
                        then url_parse output else url_parse (lit "https://" ++ output) in
          match parsed with
          | Some u => Some (i, Term_ExactUrl (url_as_str (url_normalize u)))
          | None => None
          end
      end
  end.
Definition field_selector : parser Term :=
  alt [site_field; links_to_field; title_field; body_field; url_field; exact_url].

Definition not_term (term : parser Term) : parser Term := fun i =>
  if match tag (lit "--") i with Some _ => true | None => false end then None
  else match tag (lit "-") i with
       | None => None
       | Some (i, _) => match term i with Some (i, t) => Some (i, Term_Not t) | None => None end
       end.
Definition ignore_weird_quotes : parser str :=
  alt [quoted ch_laquo ch_raquo; quoted ch_bdquo ch_ldquo; quoted ch_raquo ch_laquo; quoted ch_lcorner ch_rcorner].

(** The quoted text replaces the input, and with it what follows the quotes. *)
Definition unquote (i : str) : str := match ignore_weird_quotes i with Some (_, inner) => inner | None => i end.
Definition term_body (term : parser Term) : parser Term := fun i =>
  match trim_leading_whitespace i with
  | None => None
  | Some i => alt [phrase_term; bang; field_selector; not_term term; simple_term] (unquote i)
  end.
Fixpoint term_fuel (fuel : nat) : parser Term :=
  match fuel with O => fun _ => None | S fuel' => term_body (term_fuel fuel') end.
Definition term : parser Term := fun i => term_fuel (S (length i)) i.

(** [None] is a parse error. *)
Definition parse (query : str) : option (list Term) :=
  if is_empty query || forallb is_whitespace query then Some []
  else match many1 term query with Some (_, terms) => Some terms | None => None end.

(** ** The grammar's recursion is bounded by its input *)

Context {NL : NomLaws N}.

Ltac down :=
  repeat match goal with
  | H : alt _ _ = Some _ |- _ => rewrite ?alt_cons, ?alt_nil in H
  | H : Some _ = Some _ |- _ => progress simplify_eq
  | H : None = Some _ |- _ => discriminate H
  | H : multispace0 _ = Some _ |- _ => apply multispace0_down in H
  | H : nom_char _ _ = Some _ |- _ => apply nom_char_down in H
  | H : take_until _ _ = Some _ |- _ => apply take_until_down in H
  | H : take_while _ _ = Some _ |- _ => apply take_while_down in H
  | H : tag _ _ = Some _ |- _ => apply tag_down in H
  | H : context [match ?x with _ => _ end] |- _ => destruct x eqn:?
  end; try lia.
Lemma trim_leading_down i i' : trim_leading_whitespace i = Some i' -> (length i' <= length i)%nat.
Proof. unfold trim_leading_whitespace. intros. down. Qed.
Lemma simple_str_down : consumes_down simple_str.
Proof.
  intros i i' a. unfold simple_str, until_space_or_end. destruct (is_empty i); [done|].
  destruct (trim_leading_whitespace i) eqn:Ht; [|done]. apply trim_leading_down in Ht. intros. down.
Qed.
Lemma simple_down : consumes_down simple.
Proof.
  intros i i' a. unfold simple. destruct (simple_str i) as [[r x]|] eqn:Hs; [|done].
  intros [= <- <-]. by apply simple_str_down in Hs.
Qed.
Lemma quoted_down l r i i' a : quoted l r i = Some (i', a) -> (length i' < length i)%nat /\ (length a < length i)%nat.
Proof.
  unfold quoted. rewrite nom_char_spec. destruct i as [|c i]; [done|]. destruct (c =? l); [|done].
  rewrite take_until_spec. destruct (find [r] i) as [n|]; [|done]. cbn [length].
  destruct (nom_char r _) as [[j x]|] eqn:Hc; [|done]. apply nom_char_down in Hc.
  intros [= <- <-]. rewrite length_drop in Hc. rewrite length_take. lia.
Qed.
Lemma phrase_helper_down l r : consumes_down (phrase_helper l r).
Proof.
  intros i i' a. unfold phrase_helper. destruct (quoted l r i) as [[j x]|] eqn:Hq; [|done].
  intros [= <- <-]. apply quoted_down in Hq. lia.
Qed.
Lemma phrase_down : consumes_down phrase.
Proof. apply alt_down. repeat constructor; apply phrase_helper_down. Qed.
Lemma simple_or_phrase_down : consumes_down simple_or_phrase.
Proof. apply alt_down. repeat constructor; [apply phrase_down|apply simple_down]. Qed.
Lemma single_bang_down c : consumes_down (single_bang c).
Proof. intros i i' a. unfold single_bang, until_space_or_end. intros. down. Qed.
Lemma bang_from_down prefs : consumes_down (bang_from prefs).
Proof.
  induction prefs as [|c prefs IH]; intros i i' a; cbn; [done|].
  destruct (single_bang c i) eqn:Hs; [|apply IH]. intros [= ->]. by apply single_bang_down in Hs.
Qed.
Lemma bang_down : consumes_down bang.
Proof. apply bang_from_down. Qed.
Lemma term_field_down {A} (name : parser str) (operand : parser A) make :
  consumes_down name -> consumes_down operand -> consumes_down (field name operand make).
Proof.
  intros Hn Ho i i' a. unfold field. destruct (name i) as [[j x]|] eqn:Hj; [|done].
  destruct (operand j) as [[k y]|] eqn:Hk; [|done]. intros [= <- <-].
  apply Hn in Hj. apply Ho in Hk. lia.
Qed.
Lemma exact_url_down : consumes_down exact_url.
Proof.
  intros i i' a. unfold exact_url. destruct (tag _ i) as [[j x]|] eqn:Hj; [|done].
  destruct (simple_str j) as [[k y]|] eqn:Hk; [|done]. apply tag_down in Hj. apply simple_str_down in Hk.
  cbv zeta. case_match; [|done]. intros [= <- <-]. lia.
Qed.
Lemma field_selector_down : consumes_down field_selector.
Proof.
  apply alt_down. repeat constructor; auto using exact_url_down;
    apply term_field_down; auto with nom; try apply simple_str_down; try apply simple_or_phrase_down.
Qed.
Lemma not_term_down p : consumes_down p -> consumes_down (not_term p).
Proof.
  intros Hp i i' a. unfold not_term. case_match; [done|].
  destruct (tag (lit "-") i) as [[j x]|] eqn:Hj; [|done]. destruct (p j) as [[k y]|] eqn:Hk; [|done].
  intros [= <- <-]. apply tag_down in Hj. apply Hp in Hk. lia.
Qed.
Lemma unquote_down i : (length (unquote i) <= length i)%nat.
Proof.
  unfold unquote, ignore_weird_quotes. rewrite !alt_cons, alt_nil.
  repeat (match goal with |- context [quoted ?l ?r i] => destruct (quoted l r i) as [[? ?]|] eqn:Hq end;
          [apply quoted_down in Hq; lia|clear Hq]).
  lia.
Qed.
Lemma term_body_down p : consumes_down p -> consumes_down (term_body p).
Proof.
  intros Hp i i' a. unfold term_body. destruct (trim_leading_whitespace i) as [j|] eqn:Hj; [|done].
  apply trim_leading_down in Hj. pose proof (unquote_down j) as Hu. intros Ha.
  enough (consumes_down (alt [phrase_term; bang; field_selector; not_term p; simple_term])) as Hd
    by (apply Hd in Ha; lia).
  apply alt_down. repeat constructor; auto using bang_down, field_selector_down, not_term_down;
    intros k k' b; unfold phrase_term, simple_term.
  - destruct (phrase k) as [[? ?]|] eqn:Hk; [|done]. intros [= <- <-]. by apply phrase_down in Hk.
  - destruct (simple k) as [[? ?]|] eqn:Hk; [|done]. intros [= <- <-]. by apply simple_down in Hk.
Qed.
Lemma term_fuel_down fuel : consumes_down (term_fuel fuel).
Proof. induction fuel; [by intros ???|by apply term_body_down]. Qed.
Lemma term_down : consumes_down term.
Proof. intros i i' a. apply term_fuel_down. Qed.

(** Two recursions that agree on shorter inputs give the same term: the
    grammar recurs only after a minus sign. *)
Lemma term_body_local p q i :
  (forall j, (length j < length i)%nat -> p j = q j) -> term_body p i = term_body q i.
Proof.
  intros Hpq. unfold term_body. destruct (trim_leading_whitespace i) as [j|] eqn:Hj; [|done].
  apply trim_leading_down in Hj. pose proof (unquote_down j) as Hu. rewrite !alt_cons.
  destruct (phrase_term _); [done|]. destruct (bang _); [done|]. destruct (field_selector _); [done|].
  unfold not_term. destruct (tag (lit "--") _); [done|].
  rewrite tag_spec. destruct (starts_with (lit "-") (unquote j)) eqn:Hm; [|done].
  apply starts_with_spec in Hm as [rest Hm]. rewrite Hm in *. rewrite drop_app_length.
  rewrite Hpq; [done|]. rewrite length_app in Hu. cbn in Hu. lia.
Qed.
Lemma term_fuel_enough f g i :
  (length i < f)%nat -> (length i < g)%nat -> term_fuel f i = term_fuel g i.
Proof.
  revert g i. induction f as [|f IH]; intros [|g] i Hf Hg; try lia.
  apply term_body_local. intros j Hj. apply IH; lia.
Qed.
(** The fuel of [term] is never the reason it fails. *)
Lemma term_unfold i : term i = term_body term i.
Proof.
  apply term_body_local. intros j Hj. apply term_fuel_enough; lia.
Qed.

(** *** Negations

    Only a minus sign makes a negation. *)
Definition never_negative (p : parser Term) : Prop :=
  forall i r t, p i = Some (r, t) -> negative_term t = false.
Lemma alt_never_negative ps : Forall never_negative ps -> never_negative (alt ps).
Proof.
  induction 1 as [|p ps Hp _ IH]; intros i r t.
  - by rewrite alt_nil.
  - rewrite alt_cons. destruct (p i) as [[? ?]|] eqn:He; [|apply IH]. intros [= <- <-]. by apply Hp in He.
Qed.
Lemma field_never_negative {A} (name : parser str) (operand : parser A) make :
  (forall a, negative_term (make a) = false) -> never_negative (field name operand make).
Proof.
  intros Hm i r t. unfold field. destruct (name i) as [[? ?]|]; [|done].
  destruct (operand _) as [[? ?]|]; [|done]. by intros [= <- <-].
Qed.
Lemma field_selector_never_negative : never_negative field_selector.
Proof.
  apply alt_never_negative. repeat constructor; try (by apply field_never_negative).
  intros i r t. unfold exact_url. destruct (tag _ i) as [[? ?]|]; [|done].
  destruct (simple_str _) as [[? ?]|]; [|done]. cbv zeta. case_match; [|done]. by intros [= <- <-].
Qed.
Lemma phrase_term_never_negative : never_negative phrase_term.
Proof. intros i r t. unfold phrase_term. destruct (phrase i) as [[? ?]|]; [|done]. by intros [= <- <-]. Qed.
Lemma simple_term_never_negative : never_negative simple_term.
Proof. intros i r t. unfold simple_term. destruct (simple i) as [[? ?]|]; [|done]. by intros [= <- <-]. Qed.
Lemma bang_never_negative : never_negative bang.
Proof.
  unfold bang. induction BANG_PREFIXES as [|c cs IH]; intros i r t; cbn; [done|].
  destruct (single_bang c i) as [[? ?]|] eqn:Hs; [|apply IH]. intros [= <- <-].
  unfold single_bang in Hs. destruct (nom_char c i) as [[? ?]|]; [|done].
  destruct (until_space_or_end _) as [[? ?]|]; [|done]. by injection Hs as <- <-.
Qed.
(** A character at which [term] neither skips blanks nor opens quotes. *)
Definition plain_start (c : char) : bool :=
  negb (is_multispace c) && negb (one_char_of [ch_laquo; ch_bdquo; ch_raquo; ch_lcorner] c).
Lemma quoted_other l r c i : (c =? l) = false -> quoted l r (c :: i) = None.
Proof. intros Hc. unfold quoted. by rewrite nom_char_spec, Hc. Qed.
Lemma unquote_plain c i : plain_start c = true -> unquote (c :: i) = c :: i.
Proof.
  unfold plain_start, one_char_of. cbn [existsb]. intros Hc. bool_to_prop.
  unfold unquote, ignore_weird_quotes. rewrite !alt_cons, alt_nil, !quoted_other; [done|lia..].
Qed.
Lemma term_negative c i r t :
  plain_start c = true -> term (c :: i) = Some (r, Term_Not t) -> c = ch_minus /\ term i = Some (r, t).
Proof.
  intros Hc. rewrite term_unfold. unfold term_body, trim_leading_whitespace.
  rewrite multispace0_spec, span_stop by (unfold plain_start in Hc; bool_to_prop; done).
  rewrite unquote_plain by done. rewrite !alt_cons, alt_nil.
  destruct (phrase_term _) as [[? ?]|] eqn:H1; [intros [= -> ->]; by apply phrase_term_never_negative in H1|clear H1].
  destruct (bang _) as [[? ?]|] eqn:H1; [intros [= -> ->]; by apply bang_never_negative in H1|clear H1].
  destruct (field_selector _) as [[? ?]|] eqn:H1; [intros [= -> ->]; by apply field_selector_never_negative in H1|clear H1].
  destruct (not_term _ _) as [[? ?]|] eqn:H1.
  - intros [= -> ->]. unfold not_term in H1. destruct (tag (lit "--") _); [done|].
    rewrite tag_spec in H1. destruct (starts_with (lit "-") (c :: i)) eqn:Hm; [|done].
    apply starts_with_spec in Hm as [rest [= -> ->]]. cbn [drop length lit] in H1.
    replace (drop _ _) with rest in H1 by reflexivity.
    destruct (term rest) as [[? ?]|] eqn:Ht; [|done]. injection H1 as <- <-. done.
  - destruct (simple_term _) as [[? ?]|] eqn:H2; [|done]. intros [= -> ->]. by apply simple_term_never_negative in H2.
Qed.
(** Only the field of exact URLs makes one. *)
Lemma alt_elem {A} (ps : list (parser A)) i r : alt ps i = Some r -> exists p, p ∈ ps /\ p i = Some r.
Proof.
  induction ps as [|p ps IH]; [by rewrite alt_nil|]. rewrite alt_cons. destruct (p i) as [x|] eqn:Hp.
  - intros [= ->]. exists p. split; [by left|done].
  - intros (q & Hq & ?)%IH. exists q. split; [by right|done].
Qed.
Lemma bang_makes i r t : bang i = Some (r, t) -> exists c b, t = Term_PossibleBang c b.
Proof.
  unfold bang. induction BANG_PREFIXES as [|c cs IH]; cbn; [done|]. destruct (single_bang c i) as [[r' t']|] eqn:Hs; [|apply IH].
  intros [= <- <-]. unfold single_bang in Hs. destruct (nom_char c i) as [[? ?]|]; [|done].
  destruct (until_space_or_end _) as [[? b]|]; [|done]. injection Hs as <- <-. eauto.
Qed.
Lemma field_makes {A} (name : parser str) (operand : parser A) make i r t :
  field name operand make i = Some (r, t) -> exists a, t = make a.
Proof.
  unfold field. destruct (name i) as [[? ?]|]; [|done]. destruct (operand _) as [[? a]|]; [|done]. intros [= <- <-]. eauto.
Qed.
Lemma field_selector_exact i r u :
  field_selector i = Some (r, Term_ExactUrl u) -> starts_with (lit "exacturl:") i = true.
Proof.
  intros (p & Hp & Ht)%alt_elem.
  repeat (apply elem_of_cons in Hp as [->|Hp]; [try (by apply field_makes in Ht as [a Ha])|]); [|by apply elem_of_nil in Hp].
  unfold exact_url in Ht. rewrite tag_spec in Ht. by destruct (starts_with _ i).
Qed.
Lemma term_exact_url c i r u :
  plain_start c = true -> term (c :: i) = Some (r, Term_ExactUrl u) -> starts_with (lit "exacturl:") (c :: i) = true.
Proof.
  intros Hc. rewrite term_unfold. unfold term_body, trim_leading_whitespace.
  rewrite multispace0_spec, span_stop by (unfold plain_start in Hc; bool_to_prop; done).
  rewrite unquote_plain by done. intros (p & Hp & Ht)%alt_elem.
  apply elem_of_cons in Hp as [->|Hp]; [unfold phrase_term in Ht; by destruct (phrase _) as [[? ?]|]|].
  apply elem_of_cons in Hp as [->|Hp]; [by apply bang_makes in Ht as (? & ? & ?)|].
  apply elem_of_cons in Hp as [->|Hp]; [by eapply field_selector_exact|].
  apply elem_of_cons in Hp as [->|Hp].
  { unfold not_term in Ht. destruct (tag (lit "--") _); [done|]. destruct (tag (lit "-") _) as [[? ?]|]; [|done].
    by destruct (term _) as [[? ?]|]. }
  apply list_elem_of_singleton in Hp as ->. unfold simple_term in Ht. by destruct (simple _) as [[? ?]|].
Qed.
Lemma parse_one i t : parse i = Some [t] -> exists r, term i = Some (r, t).
Proof.
  unfold parse. destruct (_ || _); [done|].
  destruct (many1_spec term i term_down) as (more & _ & ->).
  destruct (term i) as [[r u]|] eqn:Ht; [|done]. destruct (more r) as [[? ?]|]; [|done]. intros [= -> ->]. eauto.
Qed.
(** A text that is not negated twice parses to a term that is not. *)
Lemma parse_single_negation c d i t :
  plain_start c = true -> plain_start d = true -> d <> ch_minus ->
  parse (c :: d :: i) = Some [t] -> single_negation t = true.
Proof.
  intros Hc Hd Hn (r & Ht)%parse_one. destruct t as [ | | | | | | | |t]; try done.
  apply term_negative in Ht as [-> Ht]; [|done]. cbn. destruct t as [ | | | | | | | |t]; try done.
  apply term_negative in Ht as [-> _]; done.
Qed.
End Parser.

(** ** Examples *)

Module QueryReference.
Import NomReference UrlReference.
(** Pairs are separated by [&] and [=], without percent-encoding. *)
#[export] Instance pairs_reference : UrlPairs := {
  url_query_pairs u :=
    match r_query u with
    | None => []
    | Some q => map (fun p => let '(k, v) := cut 61 p in (k, default [] v))
                  (List.filter (fun p => negb (is_empty p)) (split 38 q))
    end;
  url_set_query_pairs u pairs :=
    {| r_scheme := r_scheme u; r_username := r_username u; r_password := r_password u;
       r_host := r_host u; r_port := r_port u; r_path := r_path u;
       r_query := Some (join [38] (map (fun p => p.1 ++ [61] ++ p.2) pairs));
       r_fragment := r_fragment u |};
}.
Definition word (s : string) : Term := Term_SimpleOrPhrase (Simple (lit s)).

Example parse_terms :
  parse (lit "this -that site:a.b exacturl:a.b/c?utm_x=1&y=2#z !g") =
  Some [word "this"; Term_Not (word "that"); Term_Site (lit "a.b");
        Term_ExactUrl (lit "https://a.b/c?y=2"); Term_PossibleBang 33 (lit "g")].
Proof. vm_compute. reflexivity. Qed.
(** A second minus sign after a blank is a second negation. *)
Example parse_not_not : parse (lit "- -a") = Some [Term_Not (Term_Not (word "a"))].
Proof. vm_compute. reflexivity. Qed.
(** The text after typographic quotes is lost: [term] continues inside them. *)
Example parse_drops_after_quotes :
  parse ([ch_laquo] ++ lit "foo" ++ [ch_raquo] ++ lit " bar") = Some [word "foo"].
Proof. vm_compute. reflexivity. Qed.
End QueryReference.
