(* ===== verification/QueryBounds.v ===== *)
(** * Admission of query text

    [query/planner/bounds.rs]: the original query is scanned into atoms with
    their exact source intervals before anything is parsed or sent, and is
    refused when a bound is exceeded. *)

From S2P Require Import Prelude Text Externals QueryTerm.

#[local] Open Scope Z_scope.

Definition MAX_BODY_BYTES : Z := 64 * 1024.
Definition MAX_QUERY_BYTES : Z := 4096.
Definition MAX_ATOMS : nat := MAX_TERMS_PER_QUERY.
Definition MAX_ATOM_SCALARS : nat := 1024.
Definition MAX_PHRASE_WORDS : nat := 32.
Definition MAX_OPERATORS : Z := 8.
Definition MAX_REPETITIONS : nat := 8.
Definition MAX_PUBLIC_RESULTS : Z := 100.
Definition MAX_CANDIDATES : Z := 300.
Definition MAX_STAGES : nat := 4.
Definition MAX_COMPILED_NODES : Z := 16384.
Definition MAX_RENDER_BYTES : Z := 256 * 1024.
Definition MAX_OPTIC_RULES : Z := 1024.
Definition MAX_HOST_RANKING_ENTRIES : Z := 1024.
Definition MAX_HOST_BYTES : Z := 8192.

Inductive InputError :=
| InvalidRequest | RequestTooLarge | EmptyQuery | QueryTooLong | TooManyTerms | TermTooLong | PhraseTooLong
| EmptyPhrase | InvalidQuotes | InvalidOperator | InvalidQuerySyntax | TooManyOperators | NoSearchableTerms
| ForbiddenCharacter | ExcessiveRepetition | InvalidResultCount | InvalidPage | PlanTooComplex
| PreferencesTooLarge.
#[export] Instance InputError_eq : EqDecision InputError.
Proof. solve_decision. Defined.
Abbreviation ires := (result InputError).

Record SourceAtom := { atom_term : Term; atom_source : Z * Z; atom_original : str }.
#[export] Instance SourceAtom_eq : EqDecision SourceAtom.
Proof. solve_decision. Defined.

(** [checked_mul] at the width of [usize]. *)
Definition u64_checked_mul (a b : Z) : option Z := if a * b <=? u64_max then Some (a * b) else None.
Definition validate_numbers (page count : Z) (public : bool) : ires Z :=
  let limit := if public then MAX_PUBLIC_RESULTS else MAX_CANDIDATES in
  _ ← refuse_if ((count =? 0) || (limit <? count)) InvalidResultCount;
  offset ← ok_or (u64_checked_mul page count) InvalidPage;
  _ ← ok_or (u64_checked_add offset count) InvalidPage;
  Ok offset.

(** The host lists of the request's rankings and of its optic, in that order;
    [rules] is the number of the optic's rules. *)
Record HostRankings := { liked : list str; disliked : list str; blocked : list str }.
Definition validate_preferences (optic : option (Z * HostRankings)) (host_rankings : option HostRankings)
    : ires unit :=
  _ ← refuse_if match optic with Some (rules, _) => MAX_OPTIC_RULES <? rules | None => false end
        PreferencesTooLarge;
  let hosts := option_list host_rankings ++ option_list (snd <$> optic) in
  _ ← try_fold (fun entries l =>
        entries ← ok_or (u64_checked_add entries (Z.of_nat (length l))) PreferencesTooLarge;
        _ ← refuse_if ((MAX_HOST_RANKING_ENTRIES <? entries) ||
                       existsb (fun host => MAX_HOST_BYTES <? byte_len host) l) PreferencesTooLarge;
        Ok entries) 0 (concat (map (fun h => [liked h; disliked h; blocked h]) hosts));
  Ok tt.

Definition comparison_key (text : str) : str := if forallb is_ascii text then to_ascii_lowercase text else text.

Definition forbidden (c : char) : bool :=
  is_control c || one_char_of [173; 847; 1564; 65279] c || between 8203 8207 c || between 8234 8238 c ||
  between 8288 8303 c.
Definition quote (c : char) : bool :=
  one_char_of [ch_quote; ch_ldquo; ch_rdquo; ch_laquo; ch_raquo; ch_bdquo; ch_lcorner; ch_rcorner] c.

Definition query_quotes : list (char * char) :=
  [(ch_laquo, ch_raquo); (ch_bdquo, ch_ldquo); (ch_raquo, ch_laquo); (ch_lcorner, ch_rcorner)].
Fixpoint strip_query_quotes (pairs : list (char * char)) (offset : Z) (input : str) : ires (Z * str) :=
  match pairs with
  | [] => Ok (offset, input)
  | (l, r) :: pairs' =>
      match strip_prefix [l] input with
      | None => strip_query_quotes pairs' offset input
      | Some inner =>
          inner ← ok_or (strip_suffix [r] inner) InvalidQuotes;
          _ ← refuse_if (existsb quote inner) InvalidQuotes;
          Ok (offset + char_len l, inner)
      end
  end.
Definition inner_query (query : str) : ires (Z * str) :=
  strip_query_quotes query_quotes (byte_len query - byte_len (trim_start query)) (trim query).

Definition scalar_bound (value : str) : ires unit :=
  refuse_if (Nat.ltb MAX_ATOM_SCALARS (length value)) TermTooLong.
Definition text_bound (s : SimpleOrPhrase) : ires unit :=
  match s with
  | Simple text => scalar_bound text
  | Phrase words =>
      _ ← refuse_if (is_empty words) EmptyPhrase;
      _ ← refuse_if (Nat.ltb MAX_PHRASE_WORDS (length words)) PhraseTooLong;
      try_for_each scalar_bound words
  end.
Fixpoint operand_bound (t : Term) : ires unit :=
  match t with
  | Term_Not t => operand_bound t
  | Term_SimpleOrPhrase s | Term_Title s | Term_Body s | Term_Url s => text_bound s
  | Term_Site s | Term_LinkTo s | Term_ExactUrl s => scalar_bound s
  | Term_PossibleBang _ bang => scalar_bound bang
  end.
Definition positive (t : Term) : bool :=
  match t with Term_Not _ | Term_PossibleBang _ _ => false | _ => true end.

(** The position after the quote that closes a phrase opened by [first]. *)
Fixpoint closing (first : char) (s : str) (i : nat) : ires nat :=
  match s with
  | [] => Err InvalidQuotes
  | c :: s' =>
      if quote c then
        if ((first =? ch_quote) && (c =? ch_quote)) ||
           ((first =? ch_ldquo) && ((c =? ch_ldquo) || (c =? ch_rdquo)))
        then Ok (S i) else Err InvalidQuotes
      else closing first s' (S i)
  end.
(** In characters. *)
Definition operand_length (operand : str) (bang : bool) (field : option str) : ires nat :=
  match operand with
  | [] => Err InvalidQuerySyntax
  | first :: rest =>
      if (first =? ch_quote) || (first =? ch_ldquo) then
        _ ← refuse_if (bang || match field with
              | Some f => one_of f ["site:"; "linkto:"; "linksto:"; "exacturl:"]%string
              | None => false end) InvalidOperator;
        closing first rest 1
      else
        let word := (span (fun c => negb (is_whitespace c)) operand).1 in
        _ ← refuse_if (existsb quote word) InvalidQuotes;
        _ ← scalar_bound word;
        Ok (length word)
  end.

Definition field_prefixes : list str :=
  [lit "site:"; lit "linkto:"; lit "linksto:"; lit "intitle:"; lit "inbody:"; lit "inurl:"; lit "exacturl:"].
Fixpoint strip_field (prefixes : list str) (operand : str) : option (str * str) :=
  match prefixes with
  | [] => None
  | p :: prefixes' =>
      match strip_prefix p operand with Some rest => Some (p, rest) | None => strip_field prefixes' operand end
  end.
Definition starts_blank (s : str) : bool := match s with c :: _ => is_whitespace c | [] => false end.
Definition starts_bang (s : str) : bool := match s with c :: _ => one_char_of BANG_PREFIXES c | [] => false end.
Definition is_exact_url (t : Term) : bool := match t with Term_ExactUrl _ => true | _ => false end.
Definition is_plain (t : Term) : bool := match t with Term_SimpleOrPhrase _ => true | _ => false end.
Definition unnegated (t : Term) : Term := match t with Term_Not t => t | t => t end.

Section Scan.
Context `{N : Nom} `{U : UrlOps} `{UP : !UrlPairs}.

(** The prefixes of an atom: its minus sign, then its field, its operand and
    the operators counted so far. *)
Definition strip_minus (operators : Z) (remaining : str) : ires (str * Z) :=
  match strip_prefix (lit "-") remaining with
  | None => Ok (remaining, operators)
  | Some rest =>
      _ ← refuse_if (is_empty rest || starts_with (lit "-") rest || starts_blank rest) InvalidOperator;
      Ok (rest, operators + 1)
  end.
Definition take_field (operators : Z) (operand : str) : option str * str * Z :=
  match strip_field field_prefixes operand with
  | Some (p, rest) => (Some p, rest, operators + 1)
  | None => (None, operand, operators)
  end.
Definition atom_prefixes (operators : Z) (remaining : str) : ires (option str * str * Z) :=
  '(operand, operators) ← strip_minus operators remaining; Ok (take_field operators operand).

(** One atom at the start of [remaining]: the atom's term and text, what
    follows it and the operators counted so far. *)
Definition scan_atom (operators : Z) (remaining : str) : ires (Term * str * str * Z) :=
  '(field, operand, operators) ← atom_prefixes operators remaining;
  let bang := starts_bang operand && match field with None => true | Some _ => false end in
  let operators := if bang then operators + 1 else operators in
  _ ← refuse_if (MAX_OPERATORS <? operators) TooManyOperators;
  _ ← refuse_if (is_empty operand || starts_blank operand) InvalidOperator;
  n ← operand_length operand bang field;
  let after := drop n operand in
  _ ← refuse_if (negb (is_empty after) && negb (starts_blank after)) InvalidQuotes;
  let original := take (length remaining - length after) remaining in
  parsed ← ok_or (parse original) InvalidQuerySyntax;
  match parsed with
  | [t] =>
      _ ← refuse_if (match field with Some _ => is_plain (unnegated t) | None => false end) InvalidOperator;
      _ ← (if is_exact_url (unnegated t) then Ok tt else operand_bound t);
      Ok (t, original, after, operators)
  | _ => Err InvalidQuerySyntax
  end.

Definition repetitions (t : Term) (atoms : list SourceAtom) : nat :=
  length (List.filter (fun a => str_eqb (comparison_key (display (atom_term a))) (comparison_key (display t))) atoms).

(** [input] is the rest of the input from [cursor]. *)
Fixpoint scan_loop (fuel : nat) (base cursor : Z) (input : str) (atoms : list SourceAtom) (operators : Z)
    : ires (list SourceAtom) :=
  match fuel with
  | O => Ok atoms
  | S fuel' =>
      let remaining := trim_start input in
      let start := cursor + (byte_len input - byte_len remaining) in
      if is_empty remaining then Ok atoms
      else
        _ ← refuse_if (Nat.eqb (length atoms) MAX_ATOMS) TooManyTerms;
        '(t, original, after, operators) ← scan_atom operators remaining;
        _ ← refuse_if (Nat.leb MAX_REPETITIONS (repetitions t atoms)) ExcessiveRepetition;
        let stop := start + byte_len original in
        scan_loop fuel' base stop after
          (atoms ++ [{| atom_term := t; atom_source := (base + start, base + stop); atom_original := original |}])
          operators
  end.
Definition scan_query (query : str) : ires (list SourceAtom) :=
  _ ← refuse_if (MAX_QUERY_BYTES <? byte_len query) QueryTooLong;
  _ ← refuse_if (existsb forbidden query) ForbiddenCharacter;
  _ ← refuse_if (is_empty (trim query)) EmptyQuery;
  '(base, input) ← inner_query query;
  atoms ← scan_loop (S (length input)) base 0 input [] 0;
  _ ← refuse_if (is_empty atoms) EmptyQuery;
  Ok atoms.
Definition validate_query (query : str) : ires (list SourceAtom) :=
  atoms ← scan_query query;
  _ ← refuse_if (negb (existsb (fun a => positive (atom_term a)) atoms)) NoSearchableTerms;
  Ok atoms.
End Scan.

(** ** What admission guarantees *)

Definition blank (s : str) : Prop := Forall (fun c => is_whitespace c = true) s.
Definition stops (after : str) : Prop := after = [] \/ starts_blank after = true.
Definition text_within (s : SimpleOrPhrase) : Prop :=
  match s with
  | Simple text => (length text <= 1024)%nat
  | Phrase words => (1 <= length words <= 32)%nat /\ Forall (fun w => (length w <= 1024)%nat) words
  end.
(** The bounds of a term whose operand was written [raw]; that of an exact URL is
    on what was written, before it is normalised. *)
Fixpoint term_within (raw : str) (t : Term) : Prop :=
  match t with
  | Term_Not t => term_within raw t
  | Term_SimpleOrPhrase s | Term_Title s | Term_Body s | Term_Url s => text_within s
  | Term_Site s | Term_LinkTo s | Term_PossibleBang _ s => (length s <= 1024)%nat
  | Term_ExactUrl _ => (length raw <= 1024)%nat
  end.
(** The operators of an atom's text: a minus sign, a field or a bang. *)
Definition operators_in (text : str) : Z :=
  match atom_prefixes 0 text with
  | Ok (field, operand, n) =>
      if starts_bang operand && match field with None => true | Some _ => false end then n + 1 else n
  | Err _ => 0
  end.
Definition operators_of (atoms : list SourceAtom) : Z :=
  fold_right (fun a n => operators_in (atom_original a) + n) 0 atoms.

Lemma byte_len_app s t : byte_len (s ++ t) = byte_len s + byte_len t.
Proof. induction s as [|c s IH]; [done|]. change (char_len c + byte_len (s ++ t) = char_len c + byte_len s + byte_len t). lia. Qed.
Lemma trim_start_by_app f s : exists gap, s = gap ++ trim_start_by f s /\ Forall (fun c => f c = true) gap.
Proof.
  induction s as [|c s (gap & Hs & Hg)]; cbn; [by exists []|].
  destruct (f c) eqn:Hc; [|by exists []]. exists (c :: gap). cbn. rewrite <- Hs. auto.
Qed.
Lemma trim_app s : exists a b, s = a ++ trim s ++ b /\ blank a /\ blank b /\
  byte_len s - byte_len (trim_start s) = byte_len a.
Proof.
  destruct (trim_start_by_app is_whitespace s) as (a & Hs & Ha).
  destruct (trim_start_by_app is_whitespace (rev (trim_start s))) as (b & Hb & Hw).
  exists a, (rev b). unfold trim, trim_end_by. rewrite <- rev_app_distr, <- Hb, rev_involutive.
  split_and!; [done|done|by apply Forall_rev|].
  fold (trim_start s) in Hs. rewrite Hs at 1. rewrite byte_len_app. lia.
Qed.
Lemma strip_prefix_cut p s u r : strip_prefix p (s ++ u) = Some (r ++ u) -> strip_prefix p s = Some r.
Proof. rewrite !strip_prefix_Some, app_assoc. by intros ?%app_inv_tail. Qed.
Lemma strip_prefix_None_cut p s u : strip_prefix p (s ++ u) = None -> strip_prefix p s = None.
Proof.
  intros Hn. destruct (strip_prefix p s) as [r|] eqn:Hs; [|done]. apply strip_prefix_Some in Hs as ->.
  rewrite <- app_assoc in Hn. by rewrite (proj2 (strip_prefix_Some p (p ++ r ++ u) (r ++ u)) eq_refl) in Hn.
Qed.
Lemma strip_field_cut prefixes s u p r :
  strip_field prefixes (s ++ u) = Some (p, r ++ u) -> strip_field prefixes s = Some (p, r).
Proof.
  induction prefixes as [|q prefixes IH]; cbn; [done|].
  destruct (strip_prefix q (s ++ u)) as [x|] eqn:Hq.
  - intros [= -> ->]. by rewrite (strip_prefix_cut p s u r).
  - intros. by rewrite (strip_prefix_None_cut q s u), IH.
Qed.
Lemma strip_field_None_cut prefixes s u : strip_field prefixes (s ++ u) = None -> strip_field prefixes s = None.
Proof.
  induction prefixes as [|q prefixes IH]; cbn; [done|].
  destruct (strip_prefix q (s ++ u)) eqn:Hq; [done|]. intros. by rewrite (strip_prefix_None_cut q s u), IH.
Qed.
Lemma strip_field_app prefixes s p r : strip_field prefixes s = Some (p, r) -> s = p ++ r.
Proof.
  induction prefixes as [|q prefixes IH]; cbn; [done|].
  destruct (strip_prefix q s) eqn:Hq; [|done]. intros [= <- <-]. by apply strip_prefix_Some in Hq.
Qed.
Lemma starts_blank_cut s u : s <> [] -> starts_blank (s ++ u) = starts_blank s.
Proof. by destruct s. Qed.
Lemma starts_bang_cut s u : s <> [] -> starts_bang (s ++ u) = starts_bang s.
Proof. by destruct s. Qed.

(** The prefixes are a prefix of the text, and are the same whatever follows. *)
Lemma strip_minus_app n s rest n' : strip_minus n s = Ok (rest, n') -> exists pre, s = pre ++ rest.
Proof.
  unfold strip_minus. destruct (strip_prefix _ s) as [r|] eqn:Hm; intros H; res_inv; [|by exists []].
  apply strip_prefix_Some in Hm. eauto.
Qed.
Lemma take_field_app n s f rest n' : take_field n s = (f, rest, n') -> exists pre, s = pre ++ rest.
Proof.
  unfold take_field. destruct (strip_field _ s) as [[p r]|] eqn:Hf; intros [= <- <- <-]; [|by exists []].
  apply strip_field_app in Hf. eauto.
Qed.
Lemma strip_minus_cut n m s u r n' :
  r <> [] -> strip_minus n (s ++ u) = Ok (r ++ u, n') -> strip_minus m s = Ok (r, m + (n' - n)).
Proof.
  intros Hr. unfold strip_minus. destruct (strip_prefix _ (s ++ u)) as [x|] eqn:Hm; intros H.
  - apply bind_Ok in H as (? & H1 & [= -> <-]). rewrite (strip_prefix_cut _ _ _ _ Hm).
    apply refuse_if_Ok in H1. destruct r as [|c r]; [done|]. cbn in *. rewrite H1. cbn. do 2 f_equal. lia.
  - injection H as ->%app_inv_tail <-. rewrite (strip_prefix_None_cut _ _ _ Hm). do 2 f_equal. lia.
Qed.
Lemma take_field_cut n m s u f r n' :
  take_field n (s ++ u) = (f, r ++ u, n') -> take_field m s = (f, r, m + (n' - n)).
Proof.
  unfold take_field. destruct (strip_field _ (s ++ u)) as [[p x]|] eqn:Hf.
  - intros [= <- -> <-]. rewrite (strip_field_cut _ _ _ _ _ Hf). f_equal. lia.
  - intros [= <- ->%app_inv_tail <-]. rewrite (strip_field_None_cut _ _ _ Hf). f_equal. lia.
Qed.
Lemma atom_prefixes_app n s f operand n' :
  atom_prefixes n s = Ok (f, operand, n') -> exists pre, s = pre ++ operand.
Proof.
  unfold atom_prefixes. intros ([rest k] & Hm & [= Hf])%bind_Ok.
  apply strip_minus_app in Hm as [a ->]. apply take_field_app in Hf as [b ->].
  exists (a ++ b). by rewrite app_assoc.
Qed.
Lemma atom_prefixes_cut n m s u f operand n' :
  operand <> [] -> atom_prefixes n (s ++ u) = Ok (f, operand ++ u, n') ->
  atom_prefixes m s = Ok (f, operand, m + (n' - n)).
Proof.
  intros Ho. unfold atom_prefixes. intros ([rest k] & Hm & [= Hf])%bind_Ok.
  destruct (take_field_app _ _ _ _ _ Hf) as [a ->]. rewrite app_assoc in Hm, Hf.
  assert (a ++ operand <> []) as Ha by (by destruct a).
  rewrite (strip_minus_cut n m s u _ k Ha Hm). cbn.
  rewrite (take_field_cut _ (m + (k - n)) _ _ _ _ _ Hf). do 2 f_equal. lia.
Qed.

Lemma closing_within first s i n : closing first s i = Ok n -> (i < n <= i + length s)%nat.
Proof.
  revert i; induction s as [|c s IH]; intros i; cbn [closing length]; [done|].
  destruct (quote c); [|intros ?%IH; lia].
  match goal with |- (if ?b then _ else _) = _ -> _ => destruct b end; [|done]. intros [= <-]. lia.
Qed.
Lemma Ok_inj {E A} (a b : A) : @Ok E A a = Ok b -> a = b.
Proof. by intros [= ->]. Qed.
Lemma span_first p c s : p c = true -> (0 < length (span p (c :: s)).1 <= length (c :: s))%nat.
Proof.
  intros Hc. destruct (span p (c :: s)) as [a b] eqn:Hs. pose proof (span_app _ _ _ _ Hs) as He.
  cbn in Hs. rewrite Hc in Hs. destruct (span p s). injection Hs as <- <-. rewrite He. cbn. rewrite length_app. lia.
Qed.
Lemma operand_length_within operand bang f n :
  starts_blank operand = false -> operand_length operand bang f = Ok n -> (0 < n <= length operand)%nat.
Proof.
  intros Hb. unfold operand_length. destruct operand as [|c rest]; [done|].
  match goal with |- (if ?b then _ else _) = _ -> _ => destruct b end; intros H.
  - apply bind_Ok in H as (? & _ & H). apply closing_within in H. cbn. lia.
  - apply bind_Ok in H as (? & _ & H). apply bind_Ok in H as (? & _ & H). apply Ok_inj in H as <-.
    apply span_first. by apply negb_true_iff.
Qed.
Lemma scalar_bound_Ok s u : scalar_bound s = Ok u <-> (length s <= 1024)%nat.
Proof. unfold scalar_bound. rewrite refuse_if_Ok, Nat.ltb_ge. done. Qed.
Lemma text_bound_Ok s u : text_bound s = Ok u -> text_within s.
Proof.
  destruct s as [text|words]; cbn [text_bound text_within]; [by rewrite scalar_bound_Ok|]. intros H. res_inv.
  apply try_for_each_Ok in H. apply is_empty_false in H0. apply Nat.ltb_ge in H1. split.
  - destruct words; [done|]. cbn in *. unfold MAX_PHRASE_WORDS in H1. lia.
  - eapply Forall_impl; [exact H|]. intros w. by rewrite scalar_bound_Ok.
Qed.
Lemma operand_bound_Ok raw t u :
  is_exact_url (unnegated t) = false -> single_negation t = true -> operand_bound t = Ok u -> term_within raw t.
Proof.
  destruct t as [ | | | | | | | |t]; cbn; try done; try (by rewrite scalar_bound_Ok); try (intros _ _; apply text_bound_Ok).
  destruct t; cbn; try done; try (by rewrite scalar_bound_Ok); intros _ _; apply text_bound_Ok.
Qed.
(** The operand of [exacturl:] cannot be quoted. *)
Lemma exact_operand_within operand bang n :
  operand_length operand bang (Some (lit "exacturl:")) = Ok n -> (length (take n operand) <= 1024)%nat.
Proof.
  unfold operand_length. destruct operand as [|c rest]; [done|].
  match goal with |- (if ?b then _ else _) = _ -> _ => destruct b end; intros H.
  - apply bind_Ok in H as (x & H%refuse_if_Ok & _). by destruct bang.
  - apply bind_Ok in H as (x & _ & H). apply bind_Ok in H as (y & Hs%scalar_bound_Ok & H). apply Ok_inj in H as <-.
    rewrite length_take. lia.
Qed.

(** *** Minus signs *)

Definition starts_plain (s : str) : bool := match s with c :: _ => plain_start c | [] => false end.
Lemma operand_starts_plain operand bang f n :
  starts_blank operand = false -> operand_length operand bang f = Ok n -> starts_plain operand = true.
Proof.
  intros Hb. unfold operand_length. destruct operand as [|c rest]; [done|]. cbn [starts_plain].
  assert (is_multispace c = false) as Hm.
  { cbn in Hb. destruct (is_multispace c) eqn:Hm; [|done]. unfold is_multispace, one_char_of in Hm.
    apply existsb_exists in Hm as (x & Hx & ->%Z.eqb_eq). cbn in Hx.
    destruct Hx as [<-|[<-|[<-|[<-|[]]]]]; done. }
  unfold plain_start. rewrite Hm. cbn [negb andb].
  match goal with |- (if ?b then _ else _) = _ -> _ => destruct b eqn:Hq end.
  - intros _. apply orb_true_iff in Hq as [->%Z.eqb_eq| ->%Z.eqb_eq]; reflexivity.
  - intros ([] & Hw%refuse_if_Ok & _)%bind_Ok. cbn [span] in Hw. cbn [starts_blank] in Hb. rewrite Hb in Hw.
    cbn [negb] in Hw. destruct (span _ rest) as [a b]. cbn [fst existsb] in Hw.
    apply orb_false_iff in Hw as [Hw _]. apply negb_true_iff.
    destruct (one_char_of _ c) eqn:Ho; [|done]. unfold one_char_of in Ho.
    apply existsb_exists in Ho as (x & Hx & ->%Z.eqb_eq). cbn in Hx.
    destruct Hx as [<-|[<-|[<-|[<-|[]]]]]; done.
Qed.
Lemma field_prefix_plain p r : p ∈ field_prefixes -> starts_plain (p ++ r) = true /\ starts_with (lit "-") (p ++ r) = false.
Proof.
  intros Hp. assert (Forall (fun p => starts_plain (p ++ r) = true /\ starts_with (lit "-") (p ++ r) = false) field_prefixes) as H.
  { repeat constructor. }
  rewrite Forall_forall in H. by apply H.
Qed.
Lemma strip_field_elem prefixes s p r : strip_field prefixes s = Some (p, r) -> p ∈ prefixes.
Proof.
  induction prefixes as [|q prefixes IH]; cbn; [done|]. destruct (strip_prefix q s).
  - intros [= <- <-]. by left.
  - intros. right. auto.
Qed.
(** The text of an atom starts plainly, after at most one minus sign. *)
Lemma atom_starts n s f operand k :
  atom_prefixes n s = Ok (f, operand, k) -> starts_plain operand = true ->
  (starts_plain s = true /\ starts_with (lit "-") s = false) \/
  exists rest, s = ch_minus :: rest /\ starts_plain rest = true /\ starts_with (lit "-") rest = false.
Proof.
  unfold atom_prefixes. intros ([rest m] & Hm & [= Hf])%bind_Ok Ho.
  assert (starts_plain rest = true) as Hr.
  { unfold take_field in Hf. destruct (strip_field _ rest) as [[p r]|] eqn:Hs; [|by simplify_eq].
    pose proof (strip_field_elem _ _ _ _ Hs) as He. apply strip_field_app in Hs as ->. by apply field_prefix_plain. }
  unfold strip_minus in Hm. destruct (strip_prefix (lit "-") s) as [x|] eqn:Hs.
  - apply bind_Ok in Hm as ([] & Hx%refuse_if_Ok & [= -> <-]). apply strip_prefix_Some in Hs as ->.
    right. exists rest. bool_to_prop. done.
  - injection Hm as -> <-. left. split; [done|]. unfold strip_prefix in Hs. by destruct (starts_with (lit "-") rest).
Qed.

Section Admission.
Context `{N : Nom} `{NL : !NomLaws N} `{U : UrlOps} `{UP : !UrlPairs}.

Lemma atom_single_negation n s f operand k t :
  atom_prefixes n s = Ok (f, operand, k) -> starts_plain operand = true -> parse s = Some [t] ->
  single_negation t = true.
Proof.
  intros Hp Ho Ht. destruct (atom_starts _ _ _ _ _ Hp Ho) as [[Hs Hm]|(rest & -> & Hr & Hm)].
  - apply parse_one in Ht as [r Ht]. destruct s as [|c s]; [done|]. destruct t as [ | | | | | | | |t]; try done.
    apply term_negative in Ht as [-> _]; [|done]. by destruct s.
  - destruct rest as [|d rest]; [done|]. apply (parse_single_negation ch_minus d rest t); [reflexivity|exact Hr| |exact Ht].
    intros ->. by destruct rest.
Qed.

Lemma exact_url_field n s f operand k t :
  atom_prefixes n s = Ok (f, operand, k) -> starts_plain operand = true -> parse s = Some [t] ->
  is_exact_url (unnegated t) = true -> f = Some (lit "exacturl:").
Proof.
  intros Hp Ho (r & Ht)%parse_one Hx.
  assert (forall rest m, take_field m rest = (f, operand, k) -> starts_with (lit "exacturl:") rest = true ->
    f = Some (lit "exacturl:")) as Hfield.
  { intros rest m Hf [tl ->]%starts_with_spec. unfold take_field in Hf. cbn in Hf. by injection Hf as <- _ _. }
  destruct (atom_starts _ _ _ _ _ Hp Ho) as [[Hs Hm]|(rest & -> & Hr & Hm)];
    unfold atom_prefixes in Hp; apply bind_Ok in Hp as ([x m] & Hstrip & [= Hf]); unfold strip_minus in Hstrip.
  - unfold strip_prefix in Hstrip. rewrite Hm in Hstrip. injection Hstrip as -> <-. destruct x as [|c x]; [done|].
    apply (Hfield _ _ Hf). destruct t as [ | | | | | | | |t]; try done; [by eapply term_exact_url|].
    apply term_negative in Ht as [-> _]; [|done]. by destruct x.
  - change (strip_prefix (lit "-") (ch_minus :: rest)) with (Some rest) in Hstrip.
    apply bind_Ok in Hstrip as (y & _ & [= <- <-]). apply (Hfield _ _ Hf). destruct rest as [|d rest]; [done|].
    destruct t as [ | | | | | | | |t]; try done; [by apply term_exact_url in Ht|].
    apply term_negative in Ht as [_ Ht]; [|done]. destruct t; try done. by eapply term_exact_url.
Qed.

(** The atoms lie in [s], which starts at byte [at_] of the query, in order and
    separated by blanks; nothing but blanks is left between and after them. *)
Fixpoint tiled (at_ : Z) (s : str) (atoms : list SourceAtom) : Prop :=
  match atoms with
  | [] => blank s
  | a :: atoms' =>
      exists gap after field operand operators,
        s = gap ++ atom_original a ++ after /\ blank gap /\ atom_original a <> [] /\ stops after /\
        atom_source a = (at_ + byte_len gap, at_ + byte_len gap + byte_len (atom_original a)) /\
        parse (atom_original a) = Some [atom_term a] /\
        atom_prefixes 0 (atom_original a) = Ok (field, operand, operators) /\ operand <> [] /\
        term_within operand (atom_term a) /\ (is_Some field -> is_plain (unnegated (atom_term a)) = false) /\
        single_negation (atom_term a) = true /\
        tiled (at_ + byte_len gap + byte_len (atom_original a)) after atoms'
  end.

Lemma take_before {A} (o d : list A) : take (length (o ++ d) - length d) (o ++ d) = o.
Proof. rewrite length_app. apply take_app_length'. lia. Qed.
Lemma scan_atom_Ok n s t original after n' :
  scan_atom n s = Ok (t, original, after, n') ->
  s = original ++ after /\ original <> [] /\ stops after /\ parse original = Some [t] /\
  (exists field operand operators, atom_prefixes 0 original = Ok (field, operand, operators) /\ operand <> [] /\
     term_within operand t /\ (is_Some field -> is_plain (unnegated t) = false)) /\
  single_negation t = true /\ n' = n + operators_in original /\ n' <= 8.
Proof.
  unfold scan_atom. intros ([[f operand] k] & Hp & H)%bind_Ok. cbv zeta in H.
  apply bind_Ok in H as ([] & Hops & H). apply bind_Ok in H as ([] & Hblank & H).
  apply bind_Ok in H as (len & Hlen & H). apply bind_Ok in H as ([] & Hstop & H).
  apply bind_Ok in H as (parsed & Hparse & H). apply refuse_if_Ok in Hops, Hblank, Hstop. apply ok_or_Ok in Hparse.
  destruct parsed as [|t0 [|? ?]]; try done.
  apply bind_Ok in H as ([] & Hfield%refuse_if_Ok & H). apply bind_Ok in H as (u & Hbound & H). injection H as -> <- <- <-.
  apply orb_false_iff in Hblank as [Hne Hblank].
  pose proof (operand_length_within _ _ _ _ Hblank Hlen) as Hn.
  destruct (atom_prefixes_app _ _ _ _ _ Hp) as [pre Hs].
  assert (s = (pre ++ take len operand) ++ drop len operand) as Hsplit by (by rewrite <- app_assoc, take_drop).
  assert (take (length s - length (drop len operand)) s = pre ++ take len operand) as Ho
    by (rewrite Hsplit at 1 2; apply take_before).
  rewrite Ho in Hparse |- *.
  assert (take len operand <> []) as Htake.
  { destruct operand; cbn in Hn; [lia|]. destruct len; [lia|done]. }
  assert (atom_prefixes n ((pre ++ take len operand) ++ drop len operand) =
          Ok (f, take len operand ++ drop len operand, k)) as Hp' by (by rewrite <- Hsplit, take_drop).
  pose proof (atom_prefixes_cut n 0 _ _ _ _ _ Htake Hp') as Hcut.
  assert (starts_plain (take len operand) = true) as Hplain.
  { apply operand_starts_plain in Hlen; [|done]. by destruct operand, len; cbn in *; try lia. }
  pose proof (atom_single_negation _ _ _ _ _ _ Hcut Hplain Hparse) as Hsn.
  split_and!; try done.
  - by destruct pre.
  - unfold stops. destruct (drop len operand); [by left|]. right. cbn in *. by destruct (is_whitespace _).
  - exists f, (take len operand). eexists. split_and!; [exact Hcut|done| |intros [name ->]; exact Hfield].
    destruct (is_exact_url (unnegated t)) eqn:Hx; [|by eapply operand_bound_Ok].
    pose proof (exact_url_field _ _ _ _ _ _ Hcut Hplain Hparse Hx) as ->.
    apply exact_operand_within in Hlen. by destruct t as [ | | | | | | | |[]].
  - assert (starts_bang operand = starts_bang (take len operand)) as ->
      by (by rewrite <- (starts_bang_cut _ (drop len operand) Htake), take_drop).
    unfold operators_in. rewrite Hcut.
    destruct (starts_bang (take len operand)), f; cbn [andb]; lia.
  - unfold MAX_OPERATORS in Hops. bool_to_prop. lia.
Qed.

Lemma repetitions_snoc t a atoms :
  repetitions t (atoms ++ [a]) =
  (repetitions t atoms +
   if str_eqb (comparison_key (display (atom_term a))) (comparison_key (display t)) then 1 else 0)%nat.
Proof. unfold repetitions. rewrite List.filter_app, length_app. cbn. by destruct (str_eqb _ _). Qed.
Lemma repetitions_same t t' atoms :
  comparison_key (display t) = comparison_key (display t') -> repetitions t atoms = repetitions t' atoms.
Proof. unfold repetitions. by intros ->. Qed.

Lemma scan_loop_Ok fuel base cursor input atoms n all :
  (length input < fuel)%nat -> (length atoms <= 32)%nat -> n <= 8 ->
  (forall t, (repetitions t atoms <= 8)%nat) ->
  scan_loop fuel base cursor input atoms n = Ok all ->
  exists new, all = atoms ++ new /\ tiled (base + cursor) input new /\ (length all <= 32)%nat /\
    n + operators_of new <= 8 /\ (forall t, (repetitions t all <= 8)%nat).
Proof.
  revert cursor input atoms n; induction fuel as [|fuel IH]; intros cursor input atoms n Hf Hl Hn Hr; [lia|].
  cbn [scan_loop]. cbv zeta.
  destruct (trim_start_by_app is_whitespace input) as (gap & Hi & Hg). fold (trim_start input) in Hi.
  destruct (is_empty (trim_start input)) eqn:He.
  { intros [= <-]. apply is_empty_true in He. rewrite He, app_nil_r in Hi. subst gap.
    exists []. rewrite app_nil_r. cbn. split_and!; auto; lia. }
  intros ([] & Hmax%refuse_if_Ok & H)%bind_Ok.
  apply bind_Ok in H as ([[[t original] after] n'] & Ha & H).
  apply bind_Ok in H as ([] & Hrep%refuse_if_Ok & H).
  apply scan_atom_Ok in Ha as (Hs & Ho & Hst & Hp & (fld & opd & k & Hpre & Hopd & Hw & Hfl) & Hsn & -> & Hn').
  apply Nat.eqb_neq in Hmax. apply Nat.leb_gt in Hrep. unfold MAX_ATOMS, MAX_TERMS_PER_QUERY, MAX_REPETITIONS in *.
  apply IH in H as (new & -> & Ht & Hlen & Hops & Hreps); [|..|done|].
  - rewrite <- app_assoc. rewrite <- app_assoc in Hlen, Hreps. cbn [app] in *.
    eexists. split; [reflexivity|]. split_and!; [|done| |done].
    + cbn [tiled atom_original atom_source atom_term]. exists gap, after, fld, opd, k. rewrite <- Hs.
      assert (byte_len input - byte_len (trim_start input) = byte_len gap) as Hgap
        by (pose proof (f_equal byte_len Hi) as Hb; rewrite byte_len_app in Hb; lia).
      rewrite Hgap in *. split_and!; try done; [f_equal; lia|].
      replace (base + cursor + byte_len gap + byte_len original)
        with (base + (cursor + byte_len gap + byte_len original)) by lia. done.
    + cbn [operators_of fold_right atom_original]. fold (operators_of new). lia.
  - rewrite Hi, Hs, !length_app in Hf. destruct original; [done|]. cbn in Hf. lia.
  - rewrite length_app. cbn. lia.
  - intros t'. rewrite repetitions_snoc. cbn. case_match; [|specialize (Hr t'); lia].
    rewrite <- (repetitions_same t t'); [lia|]. by apply str_eqb_eq.
Qed.

(** The blanks around the query, with one pair of quotes around all of it. *)
Definition framed (pre post : str) : Prop :=
  (blank pre /\ blank post) \/
  exists l r a b, (l, r) ∈ query_quotes /\ pre = a ++ [l] /\ post = [r] ++ b /\ blank a /\ blank b.
Lemma strip_query_quotes_Ok pairs offset input base inner :
  strip_query_quotes pairs offset input = Ok (base, inner) ->
  (base = offset /\ inner = input) \/
  exists l r, (l, r) ∈ pairs /\ input = [l] ++ inner ++ [r] /\ base = offset + byte_len [l].
Proof.
  induction pairs as [|[l r] pairs IH]; cbn [strip_query_quotes]; [intros [= <- <-]; auto|].
  destruct (strip_prefix [l] input) as [rest|] eqn:Hl.
  - apply strip_prefix_Some in Hl as ->. intros (x & Hr%ok_or_Ok & H)%bind_Ok.
    apply bind_Ok in H as ([] & _ & H). injection H as <- <-. apply strip_suffix_Some in Hr as ->.
    right. exists l, r. split_and!; [left|done|]. cbn. lia.
  - intros [?|(l' & r' & ? & ?)]%IH; [auto|]. right. exists l', r'. split; [by right|done].
Qed.
Lemma inner_query_Ok q base input :
  inner_query q = Ok (base, input) ->
  exists pre post, q = pre ++ input ++ post /\ base = byte_len pre /\ framed pre post.
Proof.
  destruct (trim_app q) as (a & b & Hq & Ha & Hb & Hlen). unfold inner_query. rewrite Hlen.
  intros [[-> ->]|(l & r & Hin & Ht & ->)]%strip_query_quotes_Ok.
  - exists a, b. split_and!; [done|done|by left].
  - exists (a ++ [l]), ([r] ++ b). rewrite Ht in Hq. rewrite byte_len_app. split_and!; [|done|].
    + rewrite Hq, <- !app_assoc. done.
    + right. by exists l, r, a, b.
Qed.

(** C27: An admitted query is at most 4096 bytes without forbidden characters and
    is, apart from blanks around and between them and one pair of typographic
    quotes around the whole, exactly its 1 to 32 atoms in order: each atom's
    interval is the byte interval of its unmodified text, each text is delimited
    by blanks and parses to that one term, negated at most once and never a plain
    one when a field is written, each operand has
    at most 1024 characters, that of an exact URL as it was written, each phrase
    1 to 32 words of at most 1024, all atoms together have at most 8 operators, no
    identity occurs more than 8 times and at least one atom can anchor the search. *)
Theorem admitted_query_is_its_atoms q atoms :
  validate_query q = Ok atoms ->
  byte_len q <= 4096 /\ Forall (fun c => forbidden c = false) q /\
  (exists pre input post,
     q = pre ++ input ++ post /\ framed pre post /\ tiled (byte_len pre) input atoms) /\
  (1 <= length atoms <= 32)%nat /\ operators_of atoms <= 8 /\
  (forall t, (repetitions t atoms <= 8)%nat) /\ Exists (fun a => positive (atom_term a) = true) atoms.
Proof.
  intros (atoms' & H & Hp)%bind_Ok. apply bind_Ok in Hp as ([] & Hpos%refuse_if_Ok & [= ->]).
  apply bind_Ok in H as ([] & Hlen%refuse_if_Ok & H). apply bind_Ok in H as ([] & Hforb%refuse_if_Ok & H).
  apply bind_Ok in H as ([] & _ & H). apply bind_Ok in H as ([base input] & Hi & H).
  apply bind_Ok in H as (all & Hs & H). apply bind_Ok in H as ([] & Hne%refuse_if_Ok & [= ->]).
  apply inner_query_Ok in Hi as (pre & post & Hq & -> & Hframe).
  apply scan_loop_Ok in Hs as (new & -> & Htile & Hmax & Hops & Hrep); cbn [app length] in *;
    [|lia|lia|lia|intros; cbn; lia].
  apply is_empty_false in Hne. rewrite Z.add_0_r in Htile.
  split_and!; eauto; unfold MAX_QUERY_BYTES in *; bool_to_prop; try lia.
  - apply Forall_forall. intros c Hc. destruct (forbidden c) eqn:Hx; [|done].
    exfalso. enough (existsb forbidden q = true) by congruence. apply existsb_exists.
    exists c. by rewrite <- list_elem_of_In.
  - exists pre, input, post. done.
  - destruct new; [done|cbn; lia].
  - apply existsb_exists in Hpos as (a & Ha & Hpa). apply Exists_exists. exists a.
    by rewrite list_elem_of_In.
Qed.
End Admission.

(** A page and a result count are admitted exactly when the count is within
    its limit and the end of the page is representable; the offset is then
    their product. *)
Theorem admitted_page_is_representable page count public offset :
  0 <= page -> 0 <= count ->
  validate_numbers page count public = Ok offset <->
  1 <= count <= (if public then 100 else 300) /\ offset = page * count /\ page * count + count <= u64_max.
Proof.
  intros Hp Hc. unfold validate_numbers, u64_checked_mul, u64_checked_add, MAX_PUBLIC_RESULTS, MAX_CANDIDATES.
  cbv zeta. split.
  - intros ([] & Hl%refuse_if_Ok & H)%bind_Ok. apply bind_Ok in H as (o & Ho%ok_or_Ok & H).
    apply bind_Ok in H as (e & He%ok_or_Ok & [= <-]).
    destruct (page * count <=? u64_max) eqn:?; simplify_eq.
    destruct (page * count + count <=? u64_max) eqn:?; simplify_eq. bool_to_prop. destruct public; lia.
  - intros (Hl & -> & He).
    assert ((count =? 0) || ((if public then 100 else 300) <? count) = false) as ->.
    { apply orb_false_iff. split; [lia|]. apply Z.ltb_ge. lia. }
    cbn. rewrite (proj2 (Z.leb_le (page * count) u64_max)) by nia. cbn.
    by rewrite (proj2 (Z.leb_le _ u64_max)) by lia.
Qed.
Lemma admitted_page_is_representable_witness :
  (0 <= 3 /\ 0 <= 100) /\
  (validate_numbers 3 100 true = Ok 300 <-> 1 <= 100 <= 100 /\ 300 = 3 * 100 /\ 3 * 100 + 100 <= u64_max).
Proof. split; [lia|]. apply (admitted_page_is_representable 3 100 true 300); lia. Defined.

(** ** Examples *)

Module BoundsReference.
Import NomReference UrlReference QueryReference.

Definition query0 : str := lit " rust -java site:a.b !g " .
Definition atoms0 : list SourceAtom :=
  [{| atom_term := word "rust"; atom_source := (1, 5); atom_original := lit "rust" |};
   {| atom_term := Term_Not (word "java"); atom_source := (6, 11); atom_original := lit "-java" |};
   {| atom_term := Term_Site (lit "a.b"); atom_source := (12, 20); atom_original := lit "site:a.b" |};
   {| atom_term := Term_PossibleBang 33 (lit "g"); atom_source := (21, 23); atom_original := lit "!g" |}].
Lemma admitted_query_is_its_atoms_witness :
  validate_query query0 = Ok atoms0 /\ (1 <= length atoms0 <= 32)%nat /\ operators_of atoms0 <= 8 /\
  Exists (fun a => positive (atom_term a) = true) atoms0.
Proof.
  assert (validate_query query0 = Ok atoms0) as H by (vm_compute; reflexivity).
  split; [exact H|]. pose proof (admitted_query_is_its_atoms query0 atoms0 H) as Ha.
  split_and!; apply Ha.
Defined.
Example refuses_double_minus : scan_query (lit "a --b") = Err InvalidOperator.
Proof. vm_compute. reflexivity. Qed.
Example refuses_open_phrase : scan_query (lit "a " ++ [ch_quote] ++ lit "b c") = Err InvalidQuotes.
Proof. vm_compute. reflexivity. Qed.
Example refuses_bangs_alone : validate_query (lit "!g") = Err NoSearchableTerms.
Proof. vm_compute. reflexivity. Qed.
End BoundsReference.
