(* ===== verification/QueryPlan.v ===== *)
(** * Logical and lexical query plans

    [query/plan/node.rs] and [query/plan/mod.rs]: a query's terms become a node
    over the searchable text fields ([schema/text_field.rs]), the node is
    optimised and turned into a boolean query, which is compacted and
    deduplicated. *)

From S2P Require Import Prelude Text Externals QueryTerm.

#[local] Open Scope Z_scope.

(** ** Text fields *)

Inductive TextFieldEnum :=
| F_Title | F_CleanBody | F_StemmedTitle | F_StemmedCleanBody | F_AllBody | F_Url | F_UrlNoTokenizer
| F_UrlForSiteOperator | F_SiteWithout | F_Domain | F_SiteNoTokenizer | F_DomainNoTokenizer
| F_DomainNameNoTokenizer | F_SiteIfHomepageNoTokenizer | F_DomainIfHomepage
| F_DomainNameIfHomepageNoTokenizer | F_DomainIfHomepageNoTokenizer | F_TitleIfHomepage | F_BacklinkText
| F_Description | F_DmozDescription | F_SchemaOrgJson | F_FlattenedSchemaOrgJson | F_CleanBodyBigrams
| F_TitleBigrams | F_CleanBodyTrigrams | F_TitleTrigrams | F_MicroformatTags | F_SafetyClassification
| F_InsertionTimestamp | F_RecipeFirstIngredientTagId | F_Keywords | F_KeyPhrases | F_Links
| F_BacklinkLabelsGroup0 | F_BacklinkLabelsGroup1 | F_BacklinkLabelsGroup2 | F_BacklinkLabelsGroup3
| F_BacklinkLabelsGroup4 | F_BacklinkLabelsGroup5 | F_BacklinkLabelsGroup6 | F_BacklinkLabelsGroup7
| F_BacklinkLabelsGroup8 | F_BacklinkLabelsGroup9 | F_FirstH1 | F_AllH2 | F_AllH3.
#[export] Instance TextFieldEnum_eq : EqDecision TextFieldEnum.
Proof. solve_decision. Defined.
Definition all_fields : list TextFieldEnum :=
  [F_Title; F_CleanBody; F_StemmedTitle; F_StemmedCleanBody; F_AllBody; F_Url; F_UrlNoTokenizer;
   F_UrlForSiteOperator; F_SiteWithout; F_Domain; F_SiteNoTokenizer; F_DomainNoTokenizer;
   F_DomainNameNoTokenizer; F_SiteIfHomepageNoTokenizer; F_DomainIfHomepage;
   F_DomainNameIfHomepageNoTokenizer; F_DomainIfHomepageNoTokenizer; F_TitleIfHomepage; F_BacklinkText;
   F_Description; F_DmozDescription; F_SchemaOrgJson; F_FlattenedSchemaOrgJson; F_CleanBodyBigrams;
   F_TitleBigrams; F_CleanBodyTrigrams; F_TitleTrigrams; F_MicroformatTags; F_SafetyClassification;
   F_InsertionTimestamp; F_RecipeFirstIngredientTagId; F_Keywords; F_KeyPhrases; F_Links;
   F_BacklinkLabelsGroup0; F_BacklinkLabelsGroup1; F_BacklinkLabelsGroup2; F_BacklinkLabelsGroup3;
   F_BacklinkLabelsGroup4; F_BacklinkLabelsGroup5; F_BacklinkLabelsGroup6; F_BacklinkLabelsGroup7;
   F_BacklinkLabelsGroup8; F_BacklinkLabelsGroup9; F_FirstH1; F_AllH2; F_AllH3].
(** The fields whose [TextField] implementation overrides the default [false]. *)
Definition is_searchable (f : TextFieldEnum) : bool :=
  match f with
  | F_Title | F_CleanBody | F_StemmedTitle | F_StemmedCleanBody | F_AllBody | F_Url | F_UrlNoTokenizer
  | F_SiteNoTokenizer | F_DomainNoTokenizer | F_DomainNameNoTokenizer | F_Description | F_CleanBodyBigrams
  | F_TitleBigrams | F_CleanBodyTrigrams | F_TitleTrigrams => true
  | _ => false
  end.
Definition has_pos (f : TextFieldEnum) : bool :=
  match f with
  | F_Title | F_CleanBody | F_Url | F_UrlForSiteOperator | F_SiteWithout | F_Domain | F_Description
  | F_DmozDescription | F_FlattenedSchemaOrgJson | F_MicroformatTags | F_Links => true
  | _ => false
  end.
Definition is_compound_searchable (f : TextFieldEnum) : bool :=
  match f with
  | F_Title | F_AllBody | F_Url => true
  | _ => false
  end.
Definition is_phrase_searchable (f : TextFieldEnum) : bool := is_searchable f && has_pos f.
Lemma all_fields_complete f : f ∈ all_fields.
Proof. destruct f; cbn; set_solver. Qed.

(** ** Nodes and queries *)

Record PTerm := { text : SimpleOrPhrase; field : TextFieldEnum }.
#[export] Instance PTerm_eq : EqDecision PTerm.
Proof. solve_decision. Defined.

Inductive Node :=
| Node_Term (t : PTerm)
| Node_And (l r : Node)
| Node_Or (l r : Node)
| Node_Not (n : Node)
| Node_AtLeast (minimum : nat) (children : list Node).

Inductive Occur := Must | Should | MustNot.
#[export] Instance Occur_eq : EqDecision Occur.
Proof. solve_decision. Defined.
Definition compose (l r : Occur) : Occur :=
  match l, r with
  | Should, _ => r
  | Must, MustNot => MustNot
  | Must, _ => Must
  | MustNot, MustNot => Must
  | MustNot, _ => MustNot
  end.

Inductive Query :=
| Query_Term (t : PTerm)
| Query_Boolean (clauses : list (Occur * Query))
| Query_AtLeast (minimum : nat) (children : list Query).

(** [a == b] on vectors, by the elements' equality. *)
Fixpoint eq_all {A} (eqb : A -> A -> bool) (l k : list A) : bool :=
  match l, k with
  | [], [] => true
  | x :: l', y :: k' => eqb x y && eq_all eqb l' k'
  | _, _ => false
  end.

(** Equality of nodes reads a conjunction and a disjunction in either order. *)
Fixpoint node_eqb (a b : Node) {struct a} : bool :=
  match a, b with
  | Node_Term s, Node_Term t => bool_decide (s = t)
  | Node_And a1 a2, Node_And b1 b2 | Node_Or a1 a2, Node_Or b1 b2 =>
      (node_eqb a1 b1 && node_eqb a2 b2) || (node_eqb a1 b2 && node_eqb a2 b1)
  | Node_Not a, Node_Not b => node_eqb a b
  | Node_AtLeast m l, Node_AtLeast n k => (m =? n)%nat && eq_all node_eqb l k
  | _, _ => false
  end.
(** The derived equality of queries. *)
Fixpoint query_eqb (a b : Query) {struct a} : bool :=
  match a, b with
  | Query_Term s, Query_Term t => bool_decide (s = t)
  | Query_Boolean l, Query_Boolean k =>
      eq_all (fun x y => bool_decide (x.1 = y.1) && query_eqb x.2 y.2) l k
  | Query_AtLeast m l, Query_AtLeast n k => (m =? n)%nat && eq_all query_eqb l k
  | _, _ => false
  end.

(** [iter.reduce(f)]. *)
Definition reduce {A} (f : A -> A -> A) (l : list A) : option A :=
  match l with [] => None | x :: l' => Some (fold_left f l' x) end.

(** ** From terms to nodes *)

(** [expect("fields should not be empty")]: the last branch is a panic. *)
Definition any_field (s : SimpleOrPhrase) (fields : list TextFieldEnum) : Node :=
  default (Node_AtLeast 0 []) (reduce Node_Or (map (fun f => Node_Term {| text := s; field := f |}) fields)).
Fixpoint from_term (t : Term) : Node :=
  match t with
  | Term_SimpleOrPhrase (Simple s) => any_field (Simple s) (List.filter is_searchable all_fields)
  | Term_SimpleOrPhrase (Phrase p) =>
      any_field (Phrase p) (List.filter (fun f => is_searchable f && is_phrase_searchable f) all_fields)
  | Term_Site s => Node_Term {| text := Simple s; field := F_UrlForSiteOperator |}
  | Term_LinkTo s => Node_Term {| text := Simple s; field := F_Links |}
  | Term_Title s => Node_Term {| text := s; field := F_Title |}
  | Term_Body s => Node_Term {| text := s; field := F_AllBody |}
  | Term_Url s => Node_Term {| text := s; field := F_Url |}
  | Term_ExactUrl u => Node_Term {| text := Simple u; field := F_UrlNoTokenizer |}
  | Term_PossibleBang prefix bang =>
      any_field (Simple (prefix :: bang)) (List.filter is_searchable all_fields)
  | Term_Not t => Node_Not (from_term t)
  end.

Definition MAX_TERMS_FOR_NGRAM_LOOKUPS : nat := 16.
Definition sliding_window (window_size i : nat) : list (nat * nat) :=
  List.filter (fun p => negb (p.2 =? p.1)%nat)
    (List.filter (fun p => (p.1 <? p.2)%nat)
      (map (fun offset => ((i + offset - window_size)%nat, (i + offset)%nat)) (seq 0 (S window_size)))).
Definition simple_text (t : Term) : option str :=
  match t with Term_SimpleOrPhrase (Simple s) => Some s | _ => None end.
(** The simple terms at the positions [start..=last]. *)
Definition compounds (terms : list Term) (start last : nat) : list str :=
  omap (fun k => t ← terms !! k; simple_text t) (seq start (S last - start)).
Definition adjacent_of (terms : list Term) (i : nat) (t : Term) : list (list str) :=
  if (length terms <=? MAX_TERMS_FOR_NGRAM_LOOKUPS)%nat then
    match simple_text t with
    | None => []
    | Some _ =>
        concat (map (fun window_size =>
          List.filter (fun c => negb (is_empty c))
            (map (fun p => compounds terms p.1 p.2) (sliding_window window_size i))) [2; 3]%nat)
    end
  else [].
Definition compound_nodes (compound : list str) : list Node :=
  map (fun f => Node_Term {| text := Simple (concat compound); field := f |})
    (List.filter is_compound_searchable (List.filter is_searchable all_fields)).
Definition initial_node (terms : list Term) (i : nat) (t : Term) : Node :=
  let adjacent := adjacent_of terms i t in
  let node := from_term t in
  if is_empty adjacent then node
  else match reduce Node_Or (concat (map compound_nodes adjacent)) with
       | Some adj => Node_Or node adj
       | None => node
       end.
Definition initial (terms : list Term) : option Node := reduce Node_And (imap (initial_node terms) terms).

(** ** Optimisation of nodes *)

(** A [HashSet<Node>] is the list of its elements in the order they were
    inserted. The hash of a node depends on the order of its operands and its
    equality does not, so a lookup may miss an equal element. *)
Class NodeHash := {
  (** a lookup finds an element equal to the node *)
  found : list Node -> Node -> bool;
  (** the elements in iteration order *)
  iteration : list Node -> list Node;
  (** [format!("{node:?}")] *)
  debug_text : Node -> str;
}.
Class NodeHashLaws (H : NodeHash) : Prop := {
  found_sound s n : found s n = true -> exists m, m ∈ s /\ node_eqb m n = true;
  found_complete s n : n ∈ s -> found s n = true;
  iteration_perm s : iteration s ≡ₚ s;
}.

Section Optimise.
Context {NH : NodeHash}.

Definition set_insert (s : list Node) (n : Node) : list Node := if found s n then s else s ++ [n].
Fixpoint or_children (n : Node) : list Node :=
  match n with
  | Node_Or l r => fold_left set_insert (iteration (or_children r)) (or_children l)
  | _ => set_insert [] n
  end.
(** The smaller set is traversed. *)
Definition intersection (s k : list Node) : list Node :=
  let '(smaller, larger) := if (length s <=? length k)%nat then (s, k) else (k, s) in
  List.filter (found larger) (iteration smaller).

Fixpoint prune_direct_or_child (n child : Node) : Node :=
  match n with
  | Node_Or a b =>
      if node_eqb a child then b
      else if node_eqb b child then a
      else Node_Or (prune_direct_or_child a child) (prune_direct_or_child b child)
  | t => t
  end.

Fixpoint Deduplicate_optimise (n : Node) : Node :=
  match n with
  | Node_AtLeast m l => Node_AtLeast m l
  | Node_Term t => Node_Term t
  | Node_Not n => Node_Not (Deduplicate_optimise n)
  | Node_Or l r =>
      let l := Deduplicate_optimise l in let r := Deduplicate_optimise r in
      if node_eqb l r then l else Node_Or l r
  | Node_And l r =>
      let l := Deduplicate_optimise l in let r := Deduplicate_optimise r in
      if node_eqb l r then l else Node_And l r
  end.

(** [(A | B) & (A | C)] becomes [(B & C) | A]. *)
Definition distribute (l r : Node) : Node :=
  match l, r with
  | Node_Or _ _, Node_Or _ _ =>
      let common := stable_sort (fun a b => str_cmp (debug_text a) (debug_text b))
                      (intersection (or_children l) (or_children r)) in
      match common with
      | [] => Node_And l r
      | c :: cs =>
          Node_Or (Node_And (fold_left prune_direct_or_child common l) (fold_left prune_direct_or_child common r))
            (fold_left Node_Or cs c)
      end
  | _, _ => Node_And l r
  end.
Fixpoint DistributiveLaw_optimise (n : Node) : Node :=
  match n with
  | Node_AtLeast m l => Node_AtLeast m l
  | Node_Term t => Node_Term t
  | Node_Not n => Node_Not (DistributiveLaw_optimise n)
  | Node_Or l r => Node_Or (DistributiveLaw_optimise l) (DistributiveLaw_optimise r)
  | Node_And l r => distribute (DistributiveLaw_optimise l) (DistributiveLaw_optimise r)
  end.
Definition optimise (n : Node) : Node := DistributiveLaw_optimise (Deduplicate_optimise n).

(** ** From nodes to queries *)

(** [child] is [Node::into_query], for the children of a threshold. *)
Fixpoint into_non_compacted_query (child : Node -> Query) (n : Node) : Query :=
  match n with
  | Node_Term t => Query_Term t
  | Node_And l r =>
      Query_Boolean [(Must, into_non_compacted_query child l); (Must, into_non_compacted_query child r)]
  | Node_Or l r =>
      Query_Boolean [(Should, into_non_compacted_query child l); (Should, into_non_compacted_query child r)]
  | Node_Not n => Query_Boolean [(MustNot, into_non_compacted_query child n)]
  | Node_AtLeast m l => Query_AtLeast m (map child l)
  end.
(** The clauses that replace the clause of a compacted query. *)
Definition merge_clause (occur : Occur) (q : Query) : list (Occur * Query) :=
  match q with
  | Query_Boolean inner =>
      if forallb (fun c => bool_decide (occur = c.1)) inner then inner
      else match inner with [(inner_occur, q)] => [(compose occur inner_occur, q)] | _ => [(occur, Query_Boolean inner)] end
  | _ => [(occur, q)]
  end.
Fixpoint compact (q : Query) : Query :=
  match q with
  | Query_Boolean clauses =>
      Query_Boolean (concat (map (fun c => merge_clause c.1 (compact c.2)) clauses))
  | q => q
  end.
(** [iter.unique()]: the first of equal elements. *)
Fixpoint unique {A} (eqb : A -> A -> bool) (seen l : list A) : list A :=
  match l with
  | [] => []
  | x :: l' => if existsb (eqb x) seen then unique eqb seen l' else x :: unique eqb (x :: seen) l'
  end.
Definition clause_eqb (x y : Occur * Query) : bool := bool_decide (x.1 = y.1) && query_eqb x.2 y.2.
Fixpoint deduplicate (q : Query) : Query :=
  match q with
  | Query_Boolean clauses =>
      Query_Boolean (unique clause_eqb [] (map (fun c => (c.1, deduplicate c.2)) clauses))
  | q => q
  end.

(** How deep thresholds are nested, which is how deep the conversion recurs. *)
Fixpoint depth (n : Node) : nat :=
  match n with
  | Node_Term _ => 0
  | Node_And l r | Node_Or l r => Nat.max (depth l) (depth r)
  | Node_Not n => depth n
  | Node_AtLeast _ l => S (list_max (map depth l))
  end.
Fixpoint into_query_fuel (fuel : nat) (n : Node) : Query :=
  match fuel with
  | O => Query_Boolean []
  | S fuel' => deduplicate (compact (into_non_compacted_query (into_query_fuel fuel') (optimise n)))
  end.
Definition into_query (n : Node) : Query := into_query_fuel (S (depth n)) n.
End Optimise.

(** ** What nodes and queries match

    [v] tells which lexical terms a document matches. *)

Section Matching.
Context (v : PTerm -> bool).

Definition votes {A} (matches : A -> bool) (l : list A) : nat := length (List.filter matches l).
Fixpoint node_matches (n : Node) : bool :=
  match n with
  | Node_Term t => v t
  | Node_And l r => node_matches l && node_matches r
  | Node_Or l r => node_matches l || node_matches r
  | Node_Not n => negb (node_matches n)
  | Node_AtLeast m l => (m <=? votes node_matches l)%nat
  end.

(** The documents of a boolean query, as the index evaluates it: those that all
    required clauses match, or, without one, some optional clause, except those
    an excluding clause matches. *)
Definition occurs (o : Occur) (c : Occur * Query) : bool := bool_decide (c.1 = o).
Fixpoint query_matches (q : Query) : bool :=
  match q with
  | Query_Term t => v t
  | Query_Boolean clauses =>
      (if existsb (occurs Must) clauses
       then forallb (fun c => match c.1 with Must => query_matches c.2 | _ => true end) clauses
       else existsb (fun c => match c.1 with Should => query_matches c.2 | _ => false end) clauses) &&
      negb (existsb (fun c => match c.1 with MustNot => query_matches c.2 | _ => false end) clauses)
  | Query_AtLeast m l => (m <=? votes query_matches l)%nat
  end.
End Matching.

(** ** Equality and matching *)

Section NodeInduction.
Context (P : Node -> Prop)
  (HT : forall t, P (Node_Term t)) (HA : forall l r, P l -> P r -> P (Node_And l r))
  (HO : forall l r, P l -> P r -> P (Node_Or l r)) (HN : forall n, P n -> P (Node_Not n))
  (HL : forall m l, Forall P l -> P (Node_AtLeast m l)).
Fixpoint node_ind' (n : Node) : P n :=
  match n with
  | Node_Term t => HT t
  | Node_And l r => HA l r (node_ind' l) (node_ind' r)
  | Node_Or l r => HO l r (node_ind' l) (node_ind' r)
  | Node_Not n => HN n (node_ind' n)
  | Node_AtLeast m l =>
      HL m l ((fix go l := match l return Forall P l with
                           | [] => Forall_nil_2 P
                           | x :: l' => Forall_cons_2 P x l' (node_ind' x) (go l')
                           end) l)
  end.
End NodeInduction.
Section QueryInduction.
Context (P : Query -> Prop)
  (HT : forall t, P (Query_Term t)) (HB : forall cs, Forall (fun c => P c.2) cs -> P (Query_Boolean cs))
  (HL : forall m l, Forall P l -> P (Query_AtLeast m l)).
Fixpoint query_ind' (q : Query) : P q :=
  match q with
  | Query_Term t => HT t
  | Query_Boolean cs =>
      HB cs ((fix go l := match l return Forall (fun c => P c.2) l with
                          | [] => Forall_nil_2 _
                          | x :: l' => Forall_cons_2 _ x l' (query_ind' x.2) (go l')
                          end) cs)
  | Query_AtLeast m l =>
      HL m l ((fix go l := match l return Forall P l with
                           | [] => Forall_nil_2 P
                           | x :: l' => Forall_cons_2 P x l' (query_ind' x) (go l')
                           end) l)
  end.
End QueryInduction.

Lemma votes_cons {A} (f : A -> bool) x l : votes f (x :: l) = ((if f x then 1 else 0) + votes f l)%nat.
Proof. unfold votes. cbn. by destruct (f x). Qed.
Lemma votes_app {A} (f : A -> bool) l k : votes f (l ++ k) = (votes f l + votes f k)%nat.
Proof. unfold votes. by rewrite List.filter_app, length_app. Qed.
Lemma votes_filter_le {A} (f g : A -> bool) l : (votes f (List.filter g l) <= votes f l)%nat.
Proof. induction l as [|x l IH]; [done|]. cbn [List.filter]. destruct (g x); rewrite ?votes_cons; lia. Qed.
Lemma votes_none {A} (f : A -> bool) l : Forall (fun x => f x = false) l -> votes f l = 0%nat.
Proof. induction 1 as [|x l Hx _ IH]; [done|]. by rewrite votes_cons, Hx, IH. Qed.
Lemma votes_all {A} (f : A -> bool) l : forallb f l = true -> votes f l = length l.
Proof. induction l as [|x l IH]; cbn [forallb]; [done|]. intros [Hx Hl]%andb_true_iff. rewrite votes_cons, Hx, IH; done. Qed.
Lemma votes_ext {A} (f g : A -> bool) l : Forall (fun x => f x = g x) l -> votes f l = votes g l.
Proof. induction 1 as [|x l Hx _ IH]; [done|]. by rewrite !votes_cons, Hx, IH. Qed.
Lemma votes_map {A B} (f : B -> bool) (g : A -> B) l : votes f (map g l) = votes (fun x => f (g x)) l.
Proof. induction l as [|x l IH]; [done|]. cbn [map]. by rewrite !votes_cons, IH. Qed.
Lemma votes_pos {A} (f : A -> bool) l : (0 < votes f l)%nat <-> exists x, x ∈ l /\ f x = true.
Proof.
  unfold votes. split.
  - intros H. destruct (List.filter f l) as [|x k] eqn:Hl; [cbn in H; lia|]. exists x.
    rewrite list_elem_of_In, <- filter_In, Hl. by left.
  - intros (x & Hx & Hf). destruct (List.filter f l) eqn:Hl; [|cbn; lia].
    apply list_elem_of_In in Hx. pose proof (proj2 (filter_In f x l) (conj Hx Hf)) as Hi. by rewrite Hl in Hi.
Qed.
Lemma eq_all_votes {A} (eqb : A -> A -> bool) f l k :
  Forall (fun x => forall y, eqb x y = true -> f x = f y) l -> eq_all eqb l k = true -> votes f l = votes f k.
Proof.
  intros Hl. revert k. induction Hl as [|x l Hx _ IH]; intros [|y k]; cbn [eq_all]; try done.
  intros [Hy Hk]%andb_true_iff. by rewrite !votes_cons, (Hx y Hy), (IH k Hk).
Qed.
Lemma eq_all_eq {A} (eqb : A -> A -> bool) l k :
  Forall (fun x => forall y, eqb x y = true -> x = y) l -> eq_all eqb l k = true -> l = k.
Proof.
  intros Hl. revert k. induction Hl as [|x l Hx _ IH]; intros [|y k]; cbn [eq_all]; try done.
  intros [Hy Hk]%andb_true_iff. by rewrite (Hx y Hy), (IH k Hk).
Qed.
(** Nodes that compare equal match the same documents. *)
Lemma node_eqb_matches v a b : node_eqb a b = true -> node_matches v a = node_matches v b.
Proof.
  revert b. induction a as [s|a1 a2 IH1 IH2|a1 a2 IH1 IH2|a IH|m l IH] using node_ind';
    intros [t|b1 b2|b1 b2|b|n k]; cbn [node_eqb node_matches]; try done.
  - by intros ->%bool_decide_eq_true.
  - intros [[H1 H2]%andb_true_iff|[H1 H2]%andb_true_iff]%orb_true_iff;
      rewrite (IH1 _ H1), (IH2 _ H2); [done|apply andb_comm].
  - intros [[H1 H2]%andb_true_iff|[H1 H2]%andb_true_iff]%orb_true_iff;
      rewrite (IH1 _ H1), (IH2 _ H2); [done|apply orb_comm].
  - intros H. by rewrite (IH _ H).
  - intros [->%Nat.eqb_eq Hk]%andb_true_iff. by rewrite (eq_all_votes _ _ _ _ IH Hk).
Qed.
Lemma query_eqb_eq a b : query_eqb a b = true -> a = b.
Proof.
  revert b. induction a as [s|cs IH|m l IH] using query_ind'; intros [t|ds|n k]; cbn [query_eqb]; try done.
  - by intros ->%bool_decide_eq_true.
  - intros H. f_equal. eapply eq_all_eq; [|exact H]. eapply Forall_impl; [exact IH|].
    intros [o q] Hq [p r]. cbn. intros [->%bool_decide_eq_true Hr]%andb_true_iff. apply Hq in Hr. cbn in Hr. by subst r.
  - intros [->%Nat.eqb_eq Hk]%andb_true_iff. by rewrite (eq_all_eq _ _ _ IH Hk).
Qed.

(** ** Optimisation keeps the documents *)

Section OptimiseMatches.
Context {NH : NodeHash} {NHL : NodeHashLaws NH} (v : PTerm -> bool).
Abbreviation matches := (node_matches v).

Lemma set_insert_elem s n m : m ∈ set_insert s n -> m ∈ s \/ m = n.
Proof. unfold set_insert. destruct (found s n); [auto|]. set_solver. Qed.
Lemma set_extend_elem l s m : m ∈ fold_left set_insert l s -> m ∈ s \/ m ∈ l.
Proof.
  revert s. induction l as [|x l IH]; intros s; cbn; [auto|].
  intros [[?| ->]%set_insert_elem|]%IH; set_solver.
Qed.
(** A document that matches an operand of a disjunction matches it. *)
Lemma or_children_matches n m : m ∈ or_children n -> matches m = true -> matches n = true.
Proof.
  induction n as [t|l _ r _|l IHl r IHr|n _|k l] using Node_ind; cbn [or_children];
    try (intros [H| ->]%set_insert_elem; [by apply not_elem_of_nil in H|done]).
  intros [H|H]%set_extend_elem Hm; cbn [node_matches]; apply orb_true_iff; [auto|].
  rewrite iteration_perm in H. auto.
Qed.
Lemma intersection_matches l r m :
  m ∈ intersection (or_children l) (or_children r) -> matches m = true -> matches l = true /\ matches r = true.
Proof.
  unfold intersection. destruct (_ <=? _)%nat; rewrite list_elem_of_In, filter_In; intros [Hi Hf] Hm;
    apply list_elem_of_In in Hi; rewrite iteration_perm in Hi;
    destruct (found_sound _ _ Hf) as (k & Hk & He); rewrite <- (node_eqb_matches v _ _ He) in Hm;
    split; eapply or_children_matches; eauto; by rewrite <- (node_eqb_matches v _ _ He).
Qed.
Lemma prune_matches n c : matches (prune_direct_or_child n c) || matches c = matches n || matches c.
Proof.
  induction n as [t|l _ r _|l IHl r IHr|n _|k l] using Node_ind; cbn [prune_direct_or_child]; try done.
  destruct (node_eqb l c) eqn:Hl.
  { cbn. rewrite (node_eqb_matches v _ _ Hl). by destruct (matches r), (matches c). }
  destruct (node_eqb r c) eqn:Hr.
  { cbn. rewrite (node_eqb_matches v _ _ Hr). by destruct (matches l), (matches c). }
  cbn. destruct (matches c); rewrite ?orb_true_r in *; [done|]. rewrite !orb_false_r in *. by rewrite IHl, IHr.
Qed.
Definition some_matches (cs : list Node) : bool := existsb matches cs.
Lemma prune_all_matches cs n :
  matches (fold_left prune_direct_or_child cs n) || some_matches cs = matches n || some_matches cs.
Proof.
  revert n. induction cs as [|c cs IH]; intros n; cbn [fold_left]; [done|].
  change (some_matches (c :: cs)) with (matches c || some_matches cs).
  rewrite (orb_comm (matches c)), orb_assoc, IH, <- orb_assoc, (orb_comm (some_matches cs)), !orb_assoc.
  by rewrite prune_matches.
Qed.
Lemma or_all_matches cs c : matches (fold_left Node_Or cs c) = matches c || some_matches cs.
Proof.
  revert c. induction cs as [|d cs IH]; intros c; cbn [fold_left]; [by rewrite orb_false_r|].
  rewrite IH. cbn. by rewrite orb_assoc.
Qed.
Lemma distribute_matches l r : matches (distribute l r) = matches l && matches r.
Proof.
  destruct l as [|l1 l2|l1 l2| |], r as [|r1 r2|r1 r2| |]; try done.
  unfold distribute. set (l := Node_Or l1 l2). set (r := Node_Or r1 r2).
  set (common := stable_sort _ _).
  assert (some_matches common = true -> matches l = true /\ matches r = true) as Hc.
  { intros (m & Hm & Hv)%existsb_exists. apply list_elem_of_In in Hm. subst common.
    rewrite stable_sort_perm in Hm. by eapply intersection_matches. }
  destruct common as [|c cs]; [done|].
  cbn [node_matches]. rewrite or_all_matches. change (matches c || some_matches cs) with (some_matches (c :: cs)).
  pose proof (prune_all_matches (c :: cs) l) as Hl. pose proof (prune_all_matches (c :: cs) r) as Hr.
  destruct (some_matches (c :: cs)) eqn:Hs.
  - destruct (Hc eq_refl) as [-> ->]. by rewrite orb_true_r.
  - rewrite !orb_false_r in Hl, Hr. by rewrite Hl, Hr, orb_false_r.
Qed.
Lemma DistributiveLaw_matches n : matches (DistributiveLaw_optimise n) = matches n.
Proof.
  induction n as [t|l IHl r IHr|l IHl r IHr|n IH|k l] using Node_ind; cbn [DistributiveLaw_optimise]; try done.
  - by rewrite distribute_matches, IHl, IHr.
  - cbn. by rewrite IHl, IHr.
  - cbn. by rewrite IH.
Qed.
Lemma Deduplicate_matches n : matches (Deduplicate_optimise n) = matches n.
Proof.
  induction n as [t|l IHl r IHr|l IHl r IHr|n IH|k l] using Node_ind; cbn; try done.
  - destruct (node_eqb _ _) eqn:He; cbn; rewrite <- IHl, <- IHr; [|done].
    rewrite <- (node_eqb_matches v _ _ He). by rewrite andb_diag.
  - destruct (node_eqb _ _) eqn:He; cbn; rewrite <- IHl, <- IHr; [|done].
    rewrite <- (node_eqb_matches v _ _ He). by rewrite orb_diag.
  - by rewrite IH.
Qed.
Lemma optimise_matches n : matches (optimise n) = matches n.
Proof. unfold optimise. by rewrite DistributiveLaw_matches, Deduplicate_matches. Qed.
End OptimiseMatches.

(** ** Compacting and deduplicating queries *)

Lemma existsb_elem {A} (f : A -> bool) l k : (forall x, x ∈ l <-> x ∈ k) -> existsb f l = existsb f k.
Proof.
  intros H. apply eq_true_iff_eq. rewrite !existsb_exists.
  split; intros (x & Hx & Hf); exists x; rewrite <- list_elem_of_In in *; naive_solver.
Qed.
Lemma forallb_elem {A} (f : A -> bool) l k : (forall x, x ∈ l <-> x ∈ k) -> forallb f l = forallb f k.
Proof.
  intros H. apply eq_true_iff_eq. rewrite !forallb_forall.
  split; intros Hf x Hx; apply Hf; rewrite <- list_elem_of_In in *; naive_solver.
Qed.
Lemma existsb_ext {A} (f g : A -> bool) l : Forall (fun x => f x = g x) l -> existsb f l = existsb g l.
Proof. induction 1 as [|x l Hx _ IH]; cbn; [done|]. by rewrite Hx, IH. Qed.
Lemma forallb_ext {A} (f g : A -> bool) l : Forall (fun x => f x = g x) l -> forallb f l = forallb g l.
Proof. induction 1 as [|x l Hx _ IH]; cbn; [done|]. by rewrite Hx, IH. Qed.
Lemma existsb_none {A} (f : A -> bool) l : Forall (fun x => f x = false) l -> existsb f l = false.
Proof. induction 1 as [|x l Hx _ IH]; cbn; [done|]. by rewrite Hx, IH. Qed.
Lemma existsb_map {A B} (f : B -> bool) (g : A -> B) l : existsb f (map g l) = existsb (fun x => f (g x)) l.
Proof. induction l as [|x l IH]; cbn; [done|]. by rewrite IH. Qed.
Lemma forallb_map {A B} (f : B -> bool) (g : A -> B) l : forallb f (map g l) = forallb (fun x => f (g x)) l.
Proof. induction l as [|x l IH]; cbn; [done|]. by rewrite IH. Qed.

Lemma unique_elem {A} (eqb : A -> A -> bool) seen l x :
  (forall x y, eqb x y = true -> x = y) ->
  (x ∈ unique eqb seen l -> x ∈ l) /\ (x ∈ l -> x ∈ unique eqb seen l \/ x ∈ seen).
Proof.
  intros He. revert seen. induction l as [|y l IH]; intros seen; cbn; [set_solver|].
  destruct (existsb (eqb y) seen) eqn:Hs.
  - apply existsb_exists in Hs as (z & Hz & ->%He). apply list_elem_of_In in Hz.
    destruct (IH seen). set_solver.
  - destruct (IH (y :: seen)). set_solver.
Qed.
Lemma clause_eqb_eq x y : clause_eqb x y = true -> x = y.
Proof.
  destruct x, y. unfold clause_eqb. cbn. intros [->%bool_decide_eq_true ->%query_eqb_eq]%andb_true_iff. done.
Qed.
Lemma unique_clauses cs x : x ∈ unique clause_eqb [] cs <-> x ∈ cs.
Proof. destruct (unique_elem clause_eqb [] cs x clause_eqb_eq) as [H1 H2]. set_solver. Qed.

Lemma deduplicate_matches v q : query_matches v (deduplicate q) = query_matches v q.
Proof.
  induction q as [t|cs IH|m l IH] using query_ind'; [done| |done]. cbn [deduplicate query_matches].
  rewrite !(existsb_elem _ _ _ (unique_clauses _)), (forallb_elem _ _ _ (unique_clauses _)).
  rewrite !existsb_map, forallb_map. f_equal; [|f_equal].
  - replace (existsb _ cs) with (existsb (occurs Must) cs) by (apply existsb_ext, Forall_true; done).
    destruct (existsb (occurs Must) cs); [apply forallb_ext|apply existsb_ext];
      (eapply Forall_impl; [exact IH|]); intros [[] q] Hq; cbn in *; done.
  - apply existsb_ext. eapply Forall_impl; [exact IH|]. intros [[] q] Hq; cbn in *; done.
Qed.

(** *** The nodes planned for a query

    A positive node has no negation; a conjunction combines positive nodes and
    negated ones. A positive node is proper, and a conjunction is when one operand
    is proper and the other is proper or one negated node. *)
Fixpoint positive_node (n : Node) : bool :=
  match n with
  | Node_Term _ => true
  | Node_And l r | Node_Or l r => positive_node l && positive_node r
  | Node_Not _ => false
  | Node_AtLeast _ l => forallb positive_node l
  end.
Fixpoint conjunction (n : Node) : bool :=
  positive_node n ||
  match n with Node_Not n => positive_node n | Node_And l r => conjunction l && conjunction r | _ => false end.
Definition negated (n : Node) : bool := match n with Node_Not n => positive_node n | _ => false end.
Fixpoint proper (n : Node) : bool :=
  positive_node n ||
  match n with
  | Node_And l r => (proper l && proper r) || (proper l && negated r) || (negated l && proper r)
  | _ => false
  end.

Section Compaction.
Context {NH : NodeHash} {NHL : NodeHashLaws NH} (v : PTerm -> bool) (child : Node -> Query) (d : nat).
(** The children of a threshold are converted exactly. *)
Hypothesis child_matches : forall n,
  positive_node n = true -> (depth n < d)%nat -> query_matches v (child n) = node_matches v n.
Abbreviation lexical n := (compact (into_non_compacted_query child n)).
Abbreviation clauses_of o n := (merge_clause o (lexical n)).

Lemma depth_child m l n : n ∈ l -> (depth n < depth (Node_AtLeast m l))%nat.
Proof.
  intros Hn. cbn. enough (depth n <= list_max (map depth l))%nat by lia.
  pose proof (proj1 (list_max_le (map depth l) _) (Nat.le_refl _)) as Hl. rewrite List.Forall_forall in Hl.
  apply Hl, in_map, list_elem_of_In, Hn.
Qed.
Lemma children_votes m l :
  forallb positive_node l = true -> (depth (Node_AtLeast m l) <= d)%nat ->
  votes (query_matches v) (map child l) = votes (node_matches v) l.
Proof.
  intros Hp Hd. assert (Forall (fun n => query_matches v (child n) = node_matches v n) l) as Hl.
  { apply Forall_forall. intros n Hn. apply child_matches.
    - rewrite forallb_forall in Hp. by apply Hp, list_elem_of_In.
    - pose proof (depth_child m l n Hn). lia. }
  clear Hp Hd. induction Hl as [|n l Hn _ IH]; [done|]. cbn [map]. by rewrite !votes_cons, Hn, IH.
Qed.

(** A list of clauses of one kind, at least two. *)
Definition all_of (o : Occur) (cs : list (Occur * Query)) : Prop := Forall (fun c => c.1 = o) cs.
Lemma all_of_forallb o cs : forallb (fun c => bool_decide (o = c.1)) cs = true <-> all_of o cs.
Proof.
  unfold all_of. rewrite forallb_forall, Forall_forall. setoid_rewrite list_elem_of_In.
  split; intros H x Hx; specialize (H x Hx); [by apply bool_decide_eq_true in H|by apply bool_decide_eq_true].
Qed.
Lemma must_matches cs :
  cs <> [] -> all_of Must cs -> query_matches v (Query_Boolean cs) = forallb (fun c => query_matches v c.2) cs.
Proof.
  intros Hne Ha. cbn [query_matches].
  assert (existsb (occurs Must) cs = true) as ->.
  { destruct Ha as [|c cs Hc]; [done|]. cbn. unfold occurs. by rewrite bool_decide_true. }
  rewrite (existsb_none (fun c => match c.1 with MustNot => _ | _ => false end))
    by (eapply Forall_impl; [exact Ha|]; by intros c ->).
  rewrite andb_true_r. apply forallb_ext. eapply Forall_impl; [exact Ha|]. by intros c ->.
Qed.
Lemma should_matches cs :
  all_of Should cs -> query_matches v (Query_Boolean cs) = existsb (fun c => query_matches v c.2) cs.
Proof.
  intros Ha. cbn [query_matches].
  rewrite (existsb_none (occurs Must)), (existsb_none (fun c => match c.1 with MustNot => _ | _ => false end));
    try (eapply Forall_impl; [exact Ha|]; intros c Hc; unfold occurs; by rewrite Hc).
  rewrite andb_true_r. apply existsb_ext. eapply Forall_impl; [exact Ha|]. by intros c ->.
Qed.

(** The compacted query of a positive node: a leaf, or at least two clauses, all
    required or all optional. *)
Definition uniform (q : Query) : Prop :=
  match q with
  | Query_Boolean cs => (2 <= length cs)%nat /\ (all_of Must cs \/ all_of Should cs)
  | _ => True
  end.
Lemma uniform_cons o cs : uniform (Query_Boolean cs) -> forallb (fun c => bool_decide (o = c.1)) cs = false ->
  merge_clause o (Query_Boolean cs) = [(o, Query_Boolean cs)].
Proof. intros [Hl _] Hf. cbn [merge_clause]. rewrite Hf. destruct cs as [|[] [|]]; cbn in Hl; (lia || done). Qed.
Lemma merge_must q : uniform q ->
  all_of Must (merge_clause Must q) /\ merge_clause Must q <> [] /\
  forallb (fun c => query_matches v c.2) (merge_clause Must q) = query_matches v q.
Proof.
  intros Hu. destruct q as [t|cs|m l];
    [split_and!; [by constructor|done|apply andb_true_r]| |split_and!; [by constructor|done|apply andb_true_r]].
  destruct (forallb (fun c => bool_decide (Must = c.1)) cs) eqn:Hf.
  - cbn [merge_clause]. rewrite Hf. apply all_of_forallb in Hf. destruct Hu as [Hl _].
    assert (cs <> []) as Hne by (by destruct cs; cbn in Hl; [lia|]).
    split_and!; [done|done|by rewrite must_matches].
  - rewrite uniform_cons by done. split_and!; [by constructor|done|apply andb_true_r].
Qed.
Lemma merge_should q : uniform q ->
  all_of Should (merge_clause Should q) /\ merge_clause Should q <> [] /\
  existsb (fun c => query_matches v c.2) (merge_clause Should q) = query_matches v q.
Proof.
  intros Hu. destruct q as [t|cs|m l];
    [split_and!; [by constructor|done|apply orb_false_r]| |split_and!; [by constructor|done|apply orb_false_r]].
  destruct (forallb (fun c => bool_decide (Should = c.1)) cs) eqn:Hf.
  - cbn [merge_clause]. rewrite Hf. apply all_of_forallb in Hf. destruct Hu as [Hl _].
    assert (cs <> []) as Hne by (by destruct cs; cbn in Hl; [lia|]).
    split_and!; [done|done|by rewrite should_matches].
  - rewrite uniform_cons by done. split_and!; [by constructor|done|apply orb_false_r].
Qed.
Lemma merge_must_not q : uniform q -> merge_clause MustNot q = [(MustNot, q)].
Proof.
  destruct q as [t|cs|m l]; [done| |done]. intros Hu. apply uniform_cons; [done|].
  apply not_true_iff_false. rewrite all_of_forallb. destruct Hu as [Hl Ho].
  destruct cs as [|c cs]; cbn in Hl; [lia|]. intros Ha. inversion Ha. destruct Ho as [Ho|Ho]; inversion Ho; congruence.
Qed.
Lemma pair_length {A} (l k : list A) : l <> [] -> k <> [] -> (2 <= length (l ++ k))%nat.
Proof. destruct l, k; cbn; rewrite ?length_app; cbn; try done; lia. Qed.

Lemma lexical_And l r : lexical (Node_And l r) = Query_Boolean (clauses_of Must l ++ clauses_of Must r).
Proof. cbn. by rewrite app_nil_r. Qed.
Lemma lexical_Or l r : lexical (Node_Or l r) = Query_Boolean (clauses_of Should l ++ clauses_of Should r).
Proof. cbn. by rewrite app_nil_r. Qed.
Lemma lexical_Not n : lexical (Node_Not n) = Query_Boolean (clauses_of MustNot n).
Proof. cbn. by rewrite app_nil_r. Qed.

(** A positive node's query matches what the node does. *)
Lemma positive_lexical n : positive_node n = true -> (depth n <= d)%nat ->
  uniform (lexical n) /\ query_matches v (lexical n) = node_matches v n.
Proof.
  induction n as [t|l IHl r IHr|l IHl r IHr|n IH|m l] using Node_ind; cbn [positive_node]; intros Hp Hd; try done.
  - apply andb_true_iff in Hp as [Hl Hr]. cbn in Hd.
    destruct (IHl Hl ltac:(lia)) as [Ul Ml]. destruct (IHr Hr ltac:(lia)) as [Ur Mr].
    destruct (merge_must _ Ul) as (Al & Nl & El). destruct (merge_must _ Ur) as (Ar & Nr & Er).
    rewrite lexical_And. assert (all_of Must (clauses_of Must l ++ clauses_of Must r)) as Ha by by apply Forall_app.
    split; [split; [by apply pair_length|by left]|].
    rewrite must_matches; [|by destruct (clauses_of Must l)|done].
    by rewrite forallb_app, El, Er, Ml, Mr.
  - apply andb_true_iff in Hp as [Hl Hr]. cbn in Hd.
    destruct (IHl Hl ltac:(lia)) as [Ul Ml]. destruct (IHr Hr ltac:(lia)) as [Ur Mr].
    destruct (merge_should _ Ul) as (Al & Nl & El). destruct (merge_should _ Ur) as (Ar & Nr & Er).
    rewrite lexical_Or. assert (all_of Should (clauses_of Should l ++ clauses_of Should r)) as Ha by by apply Forall_app.
    split; [split; [by apply pair_length|by right]|].
    rewrite should_matches by done. by rewrite existsb_app, El, Er, Ml, Mr.
  - split; [done|]. cbn. by rewrite (children_votes m).
Qed.

(** *** Conjunctions with negations

    Without optional clauses a boolean query matches when it has a required
    clause and every clause holds. *)
Definition signed (cs : list (Occur * Query)) : Prop := Forall (fun c => c.1 <> Should) cs.
Definition holds_clause (c : Occur * Query) : bool :=
  match c.1 with Must => query_matches v c.2 | Should => true | MustNot => negb (query_matches v c.2) end.
Definition all_hold (cs : list (Occur * Query)) : bool := forallb holds_clause cs.
Lemma signed_matches cs : signed cs ->
  query_matches v (Query_Boolean cs) = existsb (occurs Must) cs && all_hold cs.
Proof.
  intros Hs. cbn [query_matches].
  rewrite (existsb_none (fun c => match c.1 with Should => _ | _ => false end))
    by (eapply Forall_impl; [exact Hs|]; by intros [[] q]).
  destruct (existsb (occurs Must) cs); [|done]. cbn [andb]. clear Hs.
  unfold all_hold. induction cs as [|[[] q] cs IH]; cbn; [done|..]; rewrite <- ?IH; try done.
  - by rewrite andb_assoc.
  - destruct (query_matches v q); cbn; rewrite ?andb_false_r; done.
Qed.
Lemma signed_app cs ds : signed (cs ++ ds) <-> signed cs /\ signed ds.
Proof. apply Forall_app. Qed.
Lemma all_must_hold cs : all_of Must cs -> all_hold cs = forallb (fun c => query_matches v c.2) cs.
Proof. intros Ha. apply forallb_ext. eapply Forall_impl; [exact Ha|]. intros [[] q]; by cbn. Qed.
Lemma all_of_signed cs : all_of Must cs -> signed cs.
Proof. intros Ha. eapply Forall_impl; [exact Ha|]. by intros c ->. Qed.
Lemma has_must cs : cs <> [] -> all_of Must cs -> existsb (occurs Must) cs = true.
Proof. intros Hne Ha. destruct Ha as [|c cs Hc]; [done|]. cbn. unfold occurs. by rewrite bool_decide_true. Qed.

Record clauses_spec (n : Node) (cs : list (Occur * Query)) : Prop := {
  cs_signed : signed cs;
  cs_nonempty : cs <> [];
  cs_hold : all_hold cs = (proper n || negated n) && node_matches v n;
  cs_must : proper n = true -> existsb (occurs Must) cs = true;
  cs_negated : negated n = true -> existsb (occurs Must) cs = false;
}.
Lemma positive_clauses n : positive_node n = true -> (depth n <= d)%nat -> clauses_spec n (clauses_of Must n).
Proof.
  intros Hp Hd. destruct (positive_lexical n Hp Hd) as [Hu Hm]. destruct (merge_must _ Hu) as (Ha & Hne & He).
  assert (all_hold (clauses_of Must n) = node_matches v n) as Hh by (rewrite all_must_hold by done; congruence).
  assert (proper n = true) as Hpr by (destruct n; cbn [proper]; by rewrite Hp).
  split; auto using all_of_signed, has_must; [by rewrite Hpr, Hh|]. by destruct n.
Qed.
Lemma negated_clauses n : positive_node n = true -> (depth n <= d)%nat ->
  clauses_of Must (Node_Not n) = [(MustNot, lexical n)] /\ clauses_spec (Node_Not n) (clauses_of Must (Node_Not n)).
Proof.
  intros Hp Hd. destruct (positive_lexical n Hp Hd) as [Hu Hm].
  rewrite lexical_Not, merge_must_not by done.
  assert (merge_clause Must (Query_Boolean [(MustNot, lexical n)]) = [(MustNot, lexical n)]) as -> by done.
  split; [done|].
  split; [by constructor|done| |done|done]. cbn. unfold holds_clause. cbn. by rewrite Hm, Hp, andb_true_r.
Qed.
Lemma signed_merge cs : signed cs -> signed (merge_clause Must (Query_Boolean cs)).
Proof.
  intros Hs. cbn [merge_clause]. destruct (forallb _ cs) eqn:Hf; [done|].
  destruct cs as [|[o q] [|c cs]]; [done| |by constructor].
  constructor; [|done]. inversion Hs as [|? ? Ho]. by destruct o.
Qed.
Lemma merge_many cs : (2 <= length cs)%nat ->
  merge_clause Must (Query_Boolean cs) = cs /\ all_of Must cs \/
  merge_clause Must (Query_Boolean cs) = [(Must, Query_Boolean cs)].
Proof.
  intros Hl. cbn [merge_clause]. destruct (forallb _ cs) eqn:Hf; [left; by rewrite <- all_of_forallb|right].
  destruct cs as [|[] [|]]; cbn in Hl; (lia || done).
Qed.
Lemma negated_improper n : negated n = true -> proper n = false.
Proof. by destruct n. Qed.
(** The clauses of both operands together. *)
Lemma joined_clauses l r :
  clauses_spec l (clauses_of Must l) -> clauses_spec r (clauses_of Must r) -> positive_node (Node_And l r) = false ->
  existsb (occurs Must) (clauses_of Must l ++ clauses_of Must r) && all_hold (clauses_of Must l ++ clauses_of Must r) =
  proper (Node_And l r) && node_matches v (Node_And l r).
Proof.
  intros Hl Hr Hp. unfold all_hold. rewrite existsb_app, forallb_app. cbn [proper node_matches]. rewrite Hp. cbn [orb].
  fold (all_hold (clauses_of Must l)) (all_hold (clauses_of Must r)). rewrite (cs_hold _ _ Hl), (cs_hold _ _ Hr).
  pose proof (cs_must _ _ Hl). pose proof (cs_must _ _ Hr). pose proof (cs_negated _ _ Hl). pose proof (cs_negated _ _ Hr).
  pose proof (negated_improper l) as Nl. pose proof (negated_improper r) as Nr.
  destruct (proper l), (negated l), (proper r), (negated r); cbn; try discriminate (Nl eq_refl); try discriminate (Nr eq_refl);
    repeat match goal with H : true = true -> _ |- _ => rewrite (H eq_refl) end;
    cbn; rewrite ?andb_false_r, ?andb_true_r, ?orb_true_r; done.
Qed.
Lemma and_clauses l r :
  clauses_spec l (clauses_of Must l) -> clauses_spec r (clauses_of Must r) ->
  positive_node (Node_And l r) = false -> clauses_spec (Node_And l r) (clauses_of Must (Node_And l r)).
Proof.
  intros Hl Hr Hp. pose proof (joined_clauses l r Hl Hr Hp) as Hj. rewrite lexical_And.
  set (cs := clauses_of Must l ++ clauses_of Must r) in *.
  assert (signed cs) as Hs by (apply signed_app; split; [apply Hl|apply Hr]).
  assert (2 <= length cs)%nat as Hlen by (apply pair_length; [apply Hl|apply Hr]).
  assert (cs <> []) as Hne by (by destruct cs; cbn in Hlen; [lia|]).
  assert (negated (Node_And l r) = false) as Hn by done. rewrite <- signed_matches in Hj by done.
  destruct (merge_many cs Hlen) as [[-> Ha]| ->].
  - split; [done|done| |by intros; apply has_must|done]. rewrite Hn, orb_false_r, <- Hj, signed_matches by done.
    by rewrite has_must.
  - split; [by constructor|done| |done|done]. rewrite Hn, orb_false_r, <- Hj.
    unfold all_hold, holds_clause. cbn [forallb fst snd]. by rewrite andb_true_r.
Qed.
Lemma conjunction_clauses n :
  conjunction n = true -> (depth n <= d)%nat -> clauses_spec n (clauses_of Must n).
Proof.
  induction n as [t|l IHl r IHr|l IHl r IHr|n IH|m l] using Node_ind; intros Hc Hd;
    try (apply positive_clauses; [|done]; cbn in *; by rewrite ?orb_false_r in Hc).
  - destruct (positive_node (Node_And l r)) eqn:Hp; [by apply positive_clauses|].
    cbn [conjunction] in Hc. rewrite Hp in Hc. apply andb_true_iff in Hc as [Hl Hr]. cbn in Hd.
    apply and_clauses; [apply IHl|apply IHr|]; (done || lia).
  - by apply negated_clauses.
Qed.
Lemma proper_conjunction n : proper n = true -> conjunction n = true.
Proof.
  induction n as [t|l IHl r IHr|l _ r _|n _|m l] using Node_ind; cbn [proper conjunction]; try done.
  - intros [->|H]%orb_true_iff; [done|]. apply orb_true_iff. right.
    assert (forall n, negated n = true -> conjunction n = true) as Hn by (by intros []).
    apply orb_true_iff in H as [[[H1 H2]%andb_true_iff|[H1 H2]%andb_true_iff]%orb_true_iff|[H1 H2]%andb_true_iff];
      apply andb_true_iff; auto.
Qed.
(** The query of a conjunction matches what the node does when the node is
    proper, and nothing when it is not. *)
Lemma conjunction_lexical n : conjunction n = true -> (depth n <= d)%nat ->
  query_matches v (lexical n) = proper n && node_matches v n.
Proof.
  intros Hc Hd. destruct (positive_node n) eqn:Hp.
  { destruct (positive_lexical n Hp Hd) as [_ ->]. destruct n; cbn [proper]; by rewrite Hp. }
  destruct n as [t|l r|l r|n|m l]; cbn [conjunction] in Hc; rewrite ?Hp in Hc; try done.
  - apply andb_true_iff in Hc as [Hl Hr]. cbn in Hd. rewrite lexical_And.
    pose proof (conjunction_clauses l Hl ltac:(lia)) as Sl. pose proof (conjunction_clauses r Hr ltac:(lia)) as Sr.
    rewrite signed_matches by (apply signed_app; split; [apply Sl|apply Sr]). by apply joined_clauses.
  - cbn in Hc. rewrite lexical_Not. destruct (positive_lexical n Hc Hd) as [Hu _].
    rewrite merge_must_not by done. done.
Qed.
End Compaction.

(** ** Optimisation keeps the kind of a node *)

Section Inherited.
Context {NH : NodeHash} {NHL : NodeHashLaws NH} (P : Node -> Prop).
(** A property of a node's leaves and negations. *)
Hypothesis P_And : forall l r, P (Node_And l r) <-> P l /\ P r.
Hypothesis P_Or : forall l r, P (Node_Or l r) <-> P l /\ P r.
Hypothesis P_Not : forall n n', (P n -> P n') -> P (Node_Not n) -> P (Node_Not n').

Lemma or_children_inherit n m : P n -> m ∈ or_children n -> P m.
Proof.
  induction n as [t|l _ r _|l IHl r IHr|n _|k l] using Node_ind; cbn [or_children]; intros Hn;
    try (intros [H| ->]%set_insert_elem; [by apply not_elem_of_nil in H|done]).
  apply P_Or in Hn as [Hl Hr]. intros [H|H]%set_extend_elem; [auto|].
  rewrite iteration_perm in H. auto.
Qed.
Lemma prune_inherit n c : P n -> P (prune_direct_or_child n c).
Proof.
  induction n as [t|l _ r _|l IHl r IHr|n _|k l] using Node_ind; cbn [prune_direct_or_child]; try done.
  intros [Hl Hr]%P_Or. repeat (case_match; [done|]). apply P_Or. auto.
Qed.
Lemma prune_all_inherit cs n : P n -> P (fold_left prune_direct_or_child cs n).
Proof. revert n. induction cs as [|c cs IH]; intros n Hn; cbn; [done|]. by apply IH, prune_inherit. Qed.
Lemma or_all_inherit cs c : P c -> Forall P cs -> P (fold_left Node_Or cs c).
Proof.
  intros Hc Hcs. revert c Hc. induction Hcs as [|x cs Hx _ IH]; intros c Hc; cbn; [done|].
  by apply IH, P_Or.
Qed.
Lemma distribute_inherit l r : P l -> P r -> P (distribute l r).
Proof.
  intros Hl Hr. destruct l as [|l1 l2|l1 l2| |], r as [|r1 r2|r1 r2| |]; try (by apply P_And).
  unfold distribute. set (l := Node_Or l1 l2) in *. set (r := Node_Or r1 r2) in *.
  destruct (stable_sort _ _) as [|c cs] eqn:Hcs; [by apply P_And|].
  assert (Forall P (c :: cs)) as Hc.
  { rewrite <- Hcs. apply Forall_forall. intros m. rewrite stable_sort_perm. unfold intersection.
    destruct (_ <=? _)%nat; rewrite list_elem_of_In, filter_In, <- list_elem_of_In, iteration_perm;
      intros [Hm _]; [by apply (or_children_inherit l)|by apply (or_children_inherit r)]. }
  apply P_Or. split; [apply P_And; split; by apply prune_all_inherit|].
  inversion Hc. by apply or_all_inherit.
Qed.
Lemma Deduplicate_inherit n : P n -> P (Deduplicate_optimise n).
Proof.
  induction n as [t|l IHl r IHr|l IHl r IHr|n IH|k l] using Node_ind; cbn; try done.
  - intros [Hl Hr]%P_And. destruct (node_eqb _ _); [auto|]. apply P_And. auto.
  - intros [Hl Hr]%P_Or. destruct (node_eqb _ _); [auto|]. apply P_Or. auto.
  - by apply P_Not.
Qed.
Lemma DistributiveLaw_inherit n : P n -> P (DistributiveLaw_optimise n).
Proof.
  induction n as [t|l IHl r IHr|l IHl r IHr|n IH|k l] using Node_ind; cbn [DistributiveLaw_optimise]; try done.
  - intros [Hl Hr]%P_And. apply distribute_inherit; auto.
  - intros [Hl Hr]%P_Or. apply P_Or. auto.
  - by apply P_Not.
Qed.
End Inherited.

Section OptimiseKinds.
Context {NH : NodeHash} {NHL : NodeHashLaws NH}.
Abbreviation pos n := (positive_node n = true).

Lemma positive_split l r : pos (Node_And l r) <-> pos l /\ pos r.
Proof. apply andb_true_iff. Qed.
Lemma Deduplicate_positive n : pos n -> pos (Deduplicate_optimise n).
Proof. apply (Deduplicate_inherit (fun n => pos n)); [exact positive_split|exact positive_split|done]. Qed.
Lemma DistributiveLaw_positive n : pos n -> pos (DistributiveLaw_optimise n).
Proof. apply (DistributiveLaw_inherit (fun n => pos n)); [exact positive_split|exact positive_split|done]. Qed.
Lemma distribute_positive l r : pos l -> pos r -> pos (distribute l r).
Proof. apply (distribute_inherit (fun n => pos n)); exact positive_split. Qed.
Lemma optimise_depth n : (depth (optimise n) <= depth n)%nat.
Proof.
  unfold optimise. set (k := depth n). assert (depth n <= k)%nat as Hk by done. revert Hk. generalize k. intros d Hd.
  apply (DistributiveLaw_inherit (fun n => depth n <= d)%nat); [cbn; lia..|].
  apply (Deduplicate_inherit (fun n => depth n <= d)%nat); [cbn; lia..|done].
Qed.

Lemma conjunction_And l r : conjunction (Node_And l r) = true <-> conjunction l = true /\ conjunction r = true.
Proof.
  cbn [conjunction]. split.
  - intros [Hp|Hc]%orb_true_iff; [|by apply andb_true_iff].
    apply positive_split in Hp as [Hl Hr]. split; [destruct l|destruct r]; cbn [conjunction];
      rewrite ?Hl, ?Hr; done.
  - intros [Hl Hr]. rewrite Hl, Hr. by rewrite orb_true_r.
Qed.
Lemma positive_conjunction n : pos n -> conjunction n = true.
Proof. intros Hp. destruct n; cbn [conjunction]; rewrite Hp; done. Qed.
Lemma positive_proper n : pos n -> proper n = true.
Proof. intros Hp. destruct n; cbn [proper]; rewrite Hp; done. Qed.
(** A disjunction is a conjunction only when it is positive. *)
Lemma conjunction_Or l r : conjunction (Node_Or l r) = true -> pos (Node_Or l r).
Proof. cbn [conjunction]. by rewrite orb_false_r. Qed.
Lemma proper_Or l r : proper (Node_Or l r) = true -> pos (Node_Or l r).
Proof. cbn [proper]. by rewrite orb_false_r. Qed.

(** Either both operands are disjunctions or the conjunction stays as it is. *)
Lemma distribute_cases l r :
  distribute l r = Node_And l r \/ exists a b c d, l = Node_Or a b /\ r = Node_Or c d.
Proof. destruct l, r; auto. right. eauto 10. Qed.
Lemma Deduplicate_conjunction n : conjunction n = true -> conjunction (Deduplicate_optimise n) = true.
Proof.
  induction n as [t|l IHl r IHr|l _ r _|n _|k l] using Node_ind; intros Hc; try done.
  - apply conjunction_And in Hc as [Hl Hr]. cbn. destruct (node_eqb _ _); [auto|]. apply conjunction_And. auto.
  - by apply positive_conjunction, Deduplicate_positive, conjunction_Or.
  - by apply Deduplicate_positive in Hc.
Qed.
Lemma DistributiveLaw_conjunction n : conjunction n = true -> conjunction (DistributiveLaw_optimise n) = true.
Proof.
  induction n as [t|l IHl r IHr|l _ r _|n _|k l] using Node_ind; intros Hc; try done.
  - apply conjunction_And in Hc as [Hl Hr]. cbn [DistributiveLaw_optimise].
    specialize (IHl Hl). specialize (IHr Hr).
    destruct (distribute_cases (DistributiveLaw_optimise l) (DistributiveLaw_optimise r))
      as [->|(a & b & c & d & Ha & Hd)]; [by apply conjunction_And|].
    rewrite Ha in IHl. rewrite Hd in IHr. rewrite Ha, Hd.
    apply positive_conjunction, distribute_positive; by apply conjunction_Or.
  - by apply positive_conjunction, DistributiveLaw_positive, conjunction_Or.
  - by apply DistributiveLaw_positive in Hc.
Qed.
Lemma optimise_conjunction n : conjunction n = true -> conjunction (optimise n) = true.
Proof. intros. by apply DistributiveLaw_conjunction, Deduplicate_conjunction. Qed.

(** The operands of a proper conjunction. *)
Lemma proper_And l r : proper (Node_And l r) = true <->
  proper l = true /\ proper r = true \/ proper l = true /\ negated r = true \/ negated l = true /\ proper r = true.
Proof.
  cbn [proper]. rewrite !orb_true_iff, !andb_true_iff. split; [|tauto].
  intros [[Hl Hr]%positive_split|]; [left|tauto]. split; by apply positive_proper.
Qed.
Lemma Deduplicate_negated n : negated n = true -> negated (Deduplicate_optimise n) = true.
Proof. destruct n; try done. apply Deduplicate_positive. Qed.
Lemma DistributiveLaw_negated n : negated n = true -> negated (DistributiveLaw_optimise n) = true.
Proof. destruct n; try done. apply DistributiveLaw_positive. Qed.
Lemma node_eqb_kinds a b : node_eqb a b = true -> negated a = true -> proper b = true -> False.
Proof. by destruct a, b. Qed.
Lemma Deduplicate_proper n : proper n = true -> proper (Deduplicate_optimise n) = true.
Proof.
  induction n as [t|l IHl r IHr|l _ r _|n _|k l] using Node_ind; intros Hc; try done.
  - apply proper_And in Hc. cbn. destruct (node_eqb _ _) eqn:He.
    + destruct Hc as [[Hl _]|[[Hl _]|[Hl Hr]]]; auto.
      exfalso. eapply node_eqb_kinds; eauto using Deduplicate_negated.
    + apply proper_And. destruct Hc as [[Hl Hr]|[[Hl Hr]|[Hl Hr]]]; auto using Deduplicate_negated.
  - by apply positive_proper, Deduplicate_positive, proper_Or.
Qed.
Lemma DistributiveLaw_proper n : proper n = true -> proper (DistributiveLaw_optimise n) = true.
Proof.
  induction n as [t|l IHl r IHr|l _ r _|n _|k l] using Node_ind; intros Hc; try done.
  - apply proper_And in Hc. cbn [DistributiveLaw_optimise].
    assert (proper (Node_And (DistributiveLaw_optimise l) (DistributiveLaw_optimise r)) = true) as Hp.
    { apply proper_And. destruct Hc as [[Hl Hr]|[[Hl Hr]|[Hl Hr]]]; auto using DistributiveLaw_negated. }
    destruct (distribute_cases (DistributiveLaw_optimise l) (DistributiveLaw_optimise r))
      as [->|(a & b & c & d & Ha & Hd)]; [done|].
    rewrite Ha, Hd in *. apply positive_proper, distribute_positive; apply proper_Or;
      apply proper_And in Hp as [[? ?]|[[? ?]|[? ?]]]; done.
  - by apply positive_proper, DistributiveLaw_positive, proper_Or.
Qed.
Lemma optimise_proper n : proper n = true -> proper (optimise n) = true.
Proof. intros. by apply DistributiveLaw_proper, Deduplicate_proper. Qed.
End OptimiseKinds.

(** ** Queries match what their nodes do *)

Section IntoQuery.
Context {NH : NodeHash} {NHL : NodeHashLaws NH}.

Lemma into_query_fuel_exact v fuel n : (depth n < fuel)%nat -> conjunction n = true ->
  query_matches v (into_query_fuel fuel n) = proper (optimise n) && node_matches v n.
Proof.
  revert n. induction fuel as [|fuel IH]; intros n Hd Hc; [lia|]. cbn [into_query_fuel].
  rewrite deduplicate_matches, <- (optimise_matches v n). pose proof (optimise_depth n) as Ho.
  apply (conjunction_lexical v (into_query_fuel fuel) fuel); [|by apply optimise_conjunction|lia].
  intros m Hm Hdm. rewrite IH by auto using positive_conjunction. by rewrite optimise_proper by (by apply positive_proper).
Qed.
Lemma into_query_fuel_matches v fuel n : (depth n < fuel)%nat -> conjunction n = true ->
  (query_matches v (into_query_fuel fuel n) = true -> node_matches v n = true) /\
  (proper n = true -> query_matches v (into_query_fuel fuel n) = node_matches v n).
Proof.
  intros Hd Hc. rewrite into_query_fuel_exact by done. split; [by intros [_ ?]%andb_true_iff|].
  intros Hp. by rewrite optimise_proper.
Qed.

(** Optimising a node, by merging equal operands and by the distributive law
    with common operands found in hash sets in any order, keeps exactly the
    documents the node matches. *)
Theorem optimise_keeps_documents v n : node_matches v (optimise n) = node_matches v n.
Proof. apply optimise_matches. Qed.

(** C26: The query of a conjunction of positive and negated nodes is exact or
    empty. A node without negations is proper, and a conjunction is when one of
    its operands is proper and the other is proper or a single negated node. If
    the optimised node is proper, the query matches exactly the documents the node
    matches, and a proper node stays proper when it is optimised; if it is not,
    the query matches no document at all. *)
Theorem into_query_matches_node v n : conjunction n = true ->
  query_matches v (into_query n) = proper (optimise n) && node_matches v n /\
  (proper n = true -> proper (optimise n) = true).
Proof. intros Hc. split; [apply into_query_fuel_exact; [lia|done]|apply optimise_proper]. Qed.

(** The fuel never cuts a conversion short. *)
Lemma into_non_compacted_ext f g n :
  (forall m, (depth m < depth n)%nat -> f m = g m) -> into_non_compacted_query f n = into_non_compacted_query g n.
Proof.
  induction n as [t|l IHl r IHr|l IHl r IHr|n IH|k l] using Node_ind; cbn [into_non_compacted_query]; intros H; try done.
  - rewrite IHl, IHr; [done|..]; intros; apply H; cbn; lia.
  - rewrite IHl, IHr; [done|..]; intros; apply H; cbn; lia.
  - rewrite IH; [done|]. intros; apply H; cbn; lia.
  - f_equal. apply map_ext_in. intros m Hm. apply H, depth_child. by apply list_elem_of_In.
Qed.
Lemma into_query_fuel_enough f g n :
  (depth n < f)%nat -> (depth n < g)%nat -> into_query_fuel f n = into_query_fuel g n.
Proof.
  revert g n. induction f as [|f IH]; intros [|g] n Hf Hg; try lia. cbn [into_query_fuel]. do 2 f_equal.
  pose proof (optimise_depth n). apply into_non_compacted_ext. intros m Hm. apply IH; lia.
Qed.
Lemma into_query_unfold n :
  into_query n = deduplicate (compact (into_non_compacted_query into_query (optimise n))).
Proof.
  unfold into_query at 1. cbn [into_query_fuel]. do 2 f_equal. pose proof (optimise_depth n).
  apply into_non_compacted_ext. intros m Hm. apply into_query_fuel_enough; lia.
Qed.
End IntoQuery.

(** ** The nodes of terms *)

Section TermNodes.
Context (v : PTerm -> bool).

(** What a document must match for a term, field by field. *)
Definition in_field (s : SimpleOrPhrase) (f : TextFieldEnum) : bool := v {| text := s; field := f |}.
Fixpoint term_matches (t : Term) : bool :=
  match t with
  | Term_SimpleOrPhrase (Simple s) => existsb (fun f => is_searchable f && in_field (Simple s) f) all_fields
  | Term_SimpleOrPhrase (Phrase p) => existsb (fun f => is_phrase_searchable f && in_field (Phrase p) f) all_fields
  | Term_Site s => in_field (Simple s) F_UrlForSiteOperator
  | Term_LinkTo s => in_field (Simple s) F_Links
  | Term_Title s => in_field s F_Title
  | Term_Body s => in_field s F_AllBody
  | Term_Url s => in_field s F_Url
  | Term_ExactUrl u => in_field (Simple u) F_UrlNoTokenizer
  | Term_PossibleBang prefix bang =>
      existsb (fun f => is_searchable f && in_field (Simple (prefix :: bang)) f) all_fields
  | Term_Not t => negb (term_matches t)
  end.
Lemma existsb_filter {A} (p q : A -> bool) l : existsb q (List.filter p l) = existsb (fun x => p x && q x) l.
Proof. induction l as [|x l IH]; cbn; [done|]. destruct (p x); cbn; by rewrite IH. Qed.
Lemma any_field_matches s fields :
  fields <> [] -> node_matches v (any_field s fields) = existsb (in_field s) fields.
Proof.
  destruct fields as [|f fields]; [done|]. intros _. unfold any_field. cbn [map reduce from_option id].
  rewrite or_all_matches. unfold some_matches. by rewrite existsb_map.
Qed.
Lemma from_term_matches t : node_matches v (from_term t) = term_matches t.
Proof.
  induction t as [[s|p]| | | | | | |c b|t IH]; cbn [from_term term_matches]; try done.
  - by rewrite any_field_matches, existsb_filter.
  - rewrite any_field_matches, existsb_filter by done. apply existsb_ext, Forall_true.
    intros f. unfold is_phrase_searchable. by destruct (is_searchable f).
  - by rewrite any_field_matches, existsb_filter.
  - cbn. by rewrite IH.
Qed.
Lemma any_field_positive s fields : positive_node (any_field s fields) = true.
Proof.
  unfold any_field. destruct fields as [|f fields]; [done|]. cbn [map reduce from_option id].
  assert (forall n, positive_node n = true ->
    positive_node (fold_left Node_Or (map (fun f => Node_Term {| text := s; field := f |}) fields) n) = true) as H.
  { induction fields as [|g fields IH]; intros n Hn; cbn; [done|]. apply IH. cbn. by rewrite Hn. }
  by apply H.
Qed.
Lemma from_term_positive t : negative_term t = false -> positive_node (from_term t) = true.
Proof. destruct t as [[s|p]| | | | | | |c b|t]; cbn [from_term]; intros; try done; apply any_field_positive. Qed.
Lemma from_term_negated t :
  single_negation t = true -> negative_term t = true -> negated (from_term t) = true.
Proof. destruct t; try done. intros H _. cbn. apply from_term_positive. by destruct t. Qed.

(** A conjunction of a list of nodes. *)
Lemma and_all_matches ns n :
  node_matches v (fold_left Node_And ns n) = node_matches v n && forallb (node_matches v) ns.
Proof.
  revert n. induction ns as [|m ns IH]; intros n; cbn [fold_left forallb]; [by rewrite andb_true_r|].
  rewrite IH. cbn. by rewrite andb_assoc.
Qed.
Definition operand (n : Node) : Prop := positive_node n = true \/ negated n = true.
Lemma operand_conjunction n : operand n -> conjunction n = true.
Proof. intros [H|H]; [by apply positive_conjunction|by destruct n]. Qed.
Lemma and_all_conjunction ns n :
  conjunction n = true -> Forall operand ns -> conjunction (fold_left Node_And ns n) = true.
Proof.
  intros Hn Hns. revert n Hn. induction Hns as [|m ns Hm _ IH]; intros n Hn; cbn; [done|].
  apply IH, conjunction_And. auto using operand_conjunction.
Qed.
Lemma and_all_proper ns n : proper n = true -> Forall operand ns -> proper (fold_left Node_And ns n) = true.
Proof.
  intros Hn Hns. revert n Hn. induction Hns as [|m ns Hm _ IH]; intros n Hn; cbn; [done|].
  apply IH, proper_And. destruct Hm; auto using positive_proper.
Qed.

(** Adjacent simple terms also match joined, in the fields for compounds. *)
Definition compound_matches (c : list str) : bool :=
  existsb (fun f => is_searchable f && (is_compound_searchable f && in_field (Simple (concat c)) f)) all_fields.
Definition position_matches (terms : list Term) (i : nat) (t : Term) : bool :=
  term_matches t || existsb compound_matches (adjacent_of terms i t).
Lemma some_matches_concat {A} (f : A -> list Node) l :
  some_matches v (concat (map f l)) = existsb (fun x => some_matches v (f x)) l.
Proof. induction l as [|x l IH]; cbn; [done|]. unfold some_matches in *. by rewrite existsb_app, IH. Qed.
Lemma compound_nodes_matches c : some_matches v (compound_nodes c) = compound_matches c.
Proof. unfold some_matches, compound_nodes, compound_matches. by rewrite existsb_map, !existsb_filter. Qed.
Lemma initial_node_matches terms i t : node_matches v (initial_node terms i t) = position_matches terms i t.
Proof.
  unfold initial_node, position_matches. rewrite <- from_term_matches.
  assert (some_matches v (concat (map compound_nodes (adjacent_of terms i t))) =
          existsb compound_matches (adjacent_of terms i t)) as <-.
  { rewrite some_matches_concat. apply existsb_ext, Forall_true. intros c. apply compound_nodes_matches. }
  cbv zeta. destruct (is_empty (adjacent_of terms i t)) eqn:He.
  { apply is_empty_true in He. rewrite He. cbn. by rewrite orb_false_r. }
  destruct (concat _) as [|n ns]; cbn [reduce]; [by rewrite orb_false_r|].
  cbn [node_matches]. by rewrite or_all_matches.
Qed.
Lemma or_all_positive ns n :
  positive_node n = true -> Forall (fun n => positive_node n = true) ns -> positive_node (fold_left Node_Or ns n) = true.
Proof. apply (or_all_inherit (fun n => positive_node n = true)). exact positive_split. Qed.
Lemma compound_nodes_positive l : Forall (fun n => positive_node n = true) (concat (map compound_nodes l)).
Proof.
  induction l as [|c l IH]; cbn [map concat]; [done|]. apply Forall_app. split; [|done].
  unfold compound_nodes. apply Forall_map, Forall_true. done.
Qed.
(** Only a positive simple term has adjacent terms. *)
Lemma adjacent_of_negative terms i t : negative_term t = true -> adjacent_of terms i t = [].
Proof. unfold adjacent_of. destruct (_ <=? _)%nat; [|done]. by destruct t. Qed.
Lemma initial_node_positive terms i t : negative_term t = false -> positive_node (initial_node terms i t) = true.
Proof.
  intros Hn. unfold initial_node. cbv zeta. destruct (is_empty _); [by apply from_term_positive|].
  pose proof (compound_nodes_positive (adjacent_of terms i t)) as Hc.
  destruct (concat _) as [|n ns]; cbn [reduce]; [by apply from_term_positive|].
  inversion Hc. cbn. by rewrite from_term_positive, or_all_positive.
Qed.
Lemma initial_node_negated terms i t :
  single_negation t = true -> negative_term t = true -> negated (initial_node terms i t) = true.
Proof. intros. unfold initial_node. rewrite adjacent_of_negative by done. by apply from_term_negated. Qed.
Lemma initial_node_operand terms i t : single_negation t = true -> operand (initial_node terms i t).
Proof.
  intros Hs. destruct (negative_term t) eqn:Hn; [right; by apply initial_node_negated|left; by apply initial_node_positive].
Qed.

(** Every term, at its position among the terms. *)
Definition all_positions (f : nat -> Term -> bool) (terms : list Term) : bool := forallb id (imap f terms).
Lemma imap_Forall {A B} (P : B -> Prop) (f : nat -> A -> B) l :
  (forall i x, x ∈ l -> P (f i x)) -> Forall P (imap f l).
Proof.
  revert f. induction l as [|x l IH]; intros f H; [constructor|]. rewrite imap_cons. constructor; [set_solver|].
  apply IH. intros i y Hy. apply H. by right.
Qed.
Lemma initial_matches terms n : initial terms = Some n ->
  node_matches v n = all_positions (position_matches terms) terms.
Proof.
  unfold initial, all_positions, reduce. intros Hi.
  assert (forall l k, forallb (node_matches v) (imap (fun i => initial_node terms (k + i)) l) =
                      forallb id (imap (fun i => position_matches terms (k + i)) l)) as Hall.
  { induction l as [|x l IH]; intros k; [done|]. rewrite !imap_cons. cbn [forallb]. unfold id at 1.
    rewrite initial_node_matches. f_equal.
    rewrite (imap_ext _ (fun i => initial_node terms (S k + i))) by (intros; cbn; f_equal; lia).
    rewrite (imap_ext (_ ∘ S) (fun i => position_matches terms (S k + i))) by (intros; cbn; f_equal; lia).
    apply IH. }
  destruct (imap (initial_node terms) terms) as [|m ms] eqn:Hm; [done|]. injection Hi as <-.
  rewrite and_all_matches. specialize (Hall terms 0%nat). cbn [Nat.add] in Hall.
  change (fun i => initial_node terms i) with (initial_node terms) in Hall. rewrite Hm in Hall.
  exact Hall.
Qed.
Definition anchored (terms : list Term) : bool :=
  match terms with
  | [] => false
  | [t] => negb (negative_term t)
  | t :: u :: _ => negb (negative_term t && negative_term u)
  end.
Lemma initial_conjunction terms n :
  forallb single_negation terms = true -> initial terms = Some n ->
  conjunction n = true /\ (anchored terms = true -> proper n = true).
Proof.
  intros Hs. unfold initial. destruct terms as [|t terms]; [done|]. rewrite imap_cons. cbn [reduce].
  set (ns := imap _ terms). intros [= <-]. set (all := t :: terms) in *.
  assert (forall x, x ∈ all -> single_negation x = true) as Hall.
  { intros x Hx. rewrite forallb_forall in Hs. by apply Hs, list_elem_of_In. }
  assert (Forall operand ns) as Hns.
  { apply imap_Forall. intros i x Hx. apply initial_node_operand, Hall. by right. }
  pose proof (initial_node_operand all 0 t (Hall t ltac:(by left))) as Ht.
  split; [by apply and_all_conjunction; [apply operand_conjunction|]|].
  unfold all. destruct terms as [|u terms]; cbn [anchored].
  { intros Hn%negb_true_iff. apply and_all_proper; [|done]. by apply positive_proper, initial_node_positive. }
  intros Hn%negb_true_iff. subst ns. rewrite imap_cons in Hns |- *. cbn [fold_left].
  apply Forall_cons in Hns as [Hu Hns]. apply and_all_proper; [|done]. apply proper_And.
  apply andb_false_iff in Hn as [Hn|Hn].
  - apply initial_node_positive with (terms := all) (i := 0%nat) in Hn. apply positive_proper in Hn.
    destruct Hu as [Hu|Hu]; auto using positive_proper.
  - apply initial_node_positive with (terms := all) (i := 1%nat) in Hn. apply positive_proper in Hn.
    destruct Ht as [Ht|Ht]; auto using positive_proper.
Qed.
End TermNodes.

(** The query of a list of terms matches only documents that match every
    term, itself in its fields or joined with its neighbours, and no negated
    one; unless the first two terms are both negated it matches exactly those. *)
Theorem initial_query_means_all_terms `{NHL : NodeHashLaws} v terms n :
  forallb single_negation terms = true -> initial terms = Some n ->
  (query_matches v (into_query n) = true -> all_positions (position_matches v terms) terms = true) /\
  (anchored terms = true -> query_matches v (into_query n) = all_positions (position_matches v terms) terms).
Proof.
  intros Hs Hn. destruct (initial_conjunction terms n Hs Hn) as [Hc Hp].
  rewrite <- (initial_matches v terms n Hn).
  destruct (into_query_fuel_matches v (S (depth n)) n) as [H1 H2]; [lia|done|]. auto.
Qed.

(** ** A reference hash and examples *)

Lemma node_eqb_refl n : node_eqb n n = true.
Proof.
  induction n as [t|l r Hl Hr|l r Hl Hr|n IH|m l IH] using node_ind'; cbn [node_eqb].
  - by apply bool_decide_eq_true.
  - by rewrite Hl, Hr.
  - by rewrite Hl, Hr.
  - done.
  - rewrite Nat.eqb_refl. cbn. induction IH as [|x l Hx _ IHl]; cbn; [done|]. by rewrite Hx, IHl.
Qed.

Module PlanReference.
(** Finds every equal element and iterates in reverse. *)
#[export] Instance hash_reference : NodeHash := {
  found s n := existsb (fun m => node_eqb m n) s;
  iteration s := rev s;
  debug_text n := match n with Node_Term t => text_string (text t) | _ => [] end;
}.
#[export] Instance hash_reference_laws : NodeHashLaws hash_reference.
Proof.
  split.
  - intros s n (m & Hm & He)%existsb_exists. exists m. by rewrite list_elem_of_In.
  - intros s n Hn. apply existsb_exists. exists n. by rewrite <- list_elem_of_In, node_eqb_refl.
  - intros s. symmetry. apply Permutation_rev.
Qed.

Definition leaf (s : string) : Node := Node_Term {| text := Simple (lit s); field := F_Title |}.
Example distributes :
  optimise (Node_And (Node_Or (leaf "a") (leaf "b")) (Node_Or (leaf "a") (leaf "c"))) =
  Node_Or (Node_And (leaf "b") (leaf "c")) (leaf "a").
Proof. vm_compute. reflexivity. Qed.

Definition titled (s : string) : Term := Term_Title (Simple (lit s)).
Definition valued : PTerm -> bool := fun t => bool_decide (text t = Simple (lit "a")).
(** One negation beside a positive node is exact; two of them in one operand,
    on either side, empty the query although the node matches. *)
Definition one_not : Node := Node_And (leaf "a") (Node_Not (leaf "b")).
Definition two_nots : Node := Node_And (leaf "a") (Node_And (Node_Not (leaf "b")) (Node_Not (leaf "c"))).
Lemma into_query_matches_node_witness :
  query_matches valued (into_query one_not) = node_matches valued one_not /\ node_matches valued one_not = true /\
  query_matches valued (into_query two_nots) = false /\ node_matches valued two_nots = true.
Proof.
  split_and!; [|reflexivity| |reflexivity].
  - exact (proj1 (into_query_matches_node valued one_not eq_refl)).
  - exact (proj1 (into_query_matches_node valued two_nots eq_refl)).
Defined.
Lemma initial_query_means_all_terms_witness : exists n,
  initial [titled "a"; Term_Not (titled "b")] = Some n /\
  forall v, query_matches v (into_query n) =
    all_positions (position_matches v [titled "a"; Term_Not (titled "b")]) [titled "a"; Term_Not (titled "b")].
Proof.
  eexists. split; [reflexivity|]. intros v.
  apply (initial_query_means_all_terms v [titled "a"; Term_Not (titled "b")] _ eq_refl eq_refl).
  reflexivity.
Defined.

(** A double negation is compacted to a single one. *)
Example double_negation_is_one :
  into_query (Node_And (leaf "a") (Node_Not (Node_Not (leaf "b")))) =
  into_query (Node_And (leaf "a") (Node_Not (leaf "b"))).
Proof. vm_compute. reflexivity. Qed.
End PlanReference.

(** Two negations that come first are required together as one clause, which
    has no positive clause of its own: no document matches, whatever the rest. *)
Theorem leading_negations_match_nothing `{NHL : NodeHashLaws} v a b c :
  negb (bool_decide (a = b)) = true ->
  query_matches v (into_query (Node_And (Node_And (Node_Not (Node_Term a)) (Node_Not (Node_Term b))) (Node_Term c))) = false.
Proof.
  intros Hab%negb_true_iff. rewrite into_query_unfold.
  assert (optimise (Node_And (Node_And (Node_Not (Node_Term a)) (Node_Not (Node_Term b))) (Node_Term c)) =
          Node_And (Node_And (Node_Not (Node_Term a)) (Node_Not (Node_Term b))) (Node_Term c)) as ->.
  { unfold optimise. cbn. by rewrite Hab. }
  rewrite deduplicate_matches. reflexivity.
Qed.
