(* ===== verification/Planner.v ===== *)
(** * The query planner

    [query/planner/mod.rs] and [query/planner/stopwords.rs]: an admitted query
    becomes at most four stages, each the original atoms with fewer or weaker
    content atoms and every explicit constraint. *)

From S2P Require Import Prelude Text Externals QueryTerm QueryBounds QueryPlan.

#[local] Open Scope Z_scope.

(** ** English data *)

Definition STOPWORDS : list str := map lit
  ["a"; "an"; "and"; "are"; "as"; "at"; "be"; "been"; "being"; "by"; "can"; "could"; "did"; "do";
   "does"; "for"; "from"; "had"; "has"; "have"; "how"; "i"; "in"; "into"; "is"; "it"; "me"; "my";
   "of"; "on"; "or"; "our"; "please"; "that"; "the"; "their"; "them"; "there"; "these"; "they";
   "this"; "those"; "to"; "was"; "we"; "were"; "what"; "when"; "where"; "which"; "who"; "why";
   "will"; "with"; "would"; "you"; "your"]%string.
Definition SCAFFOLDS : list str := map lit
  ["can you find"; "can you show me"; "could you find"; "could you show me"; "find me"; "give me";
   "help me find"; "how can i"; "how do i"; "i want to find"; "please find"; "please show me";
   "show me"; "tell me"; "what are"; "what is"; "where can i find"]%string.
Definition is_stopword (word : str) : bool :=
  forallb is_ascii word && existsb (eq_ignore_ascii_case word) STOPWORDS.
Definition is_vocabulary (word : str) : bool :=
  is_stopword word || existsb (eq_ignore_ascii_case word) (concat (map (split ch_space) SCAFFOLDS)).

(** ** Stages *)

Inductive StageId := Strict | Content | Relaxed | Core.
#[export] Instance StageId_eq : EqDecision StageId.
Proof. solve_decision. Defined.
Definition StageId_as_str (id : StageId) : str :=
  match id with Strict => lit "strict" | Content => lit "content" | Relaxed => lit "relaxed" | Core => lit "core" end.

Record Atom := {
  source : SourceAtom; constraint : bool; entity : bool; occurrences : Z; position : nat;
}.
Record Preference := { p_term : Term; p_source : Z * Z }.
Inductive RewriteReason := Scaffold | Stopword | Punctuation | Duplicate.
Record Rewrite := { r_source : Z * Z; r_reason : RewriteReason }.
Record StagePlan := {
  id : StageId; original : str; language : option str; atoms : list Atom; preferences : list Preference;
  minimum : option nat; rewrites : list Rewrite;
}.
Definition AgentPlan := list StagePlan.

Definition atom_text (a : Atom) : Term := atom_term (source a).
Definition set_entity (e : bool) (a : Atom) : Atom :=
  {| source := source a; constraint := constraint a; entity := e; occurrences := occurrences a; position := position a |}.
Definition add_occurrence (a : Atom) : Atom :=
  {| source := source a; constraint := constraint a; entity := entity a; occurrences := occurrences a + 1;
     position := position a |}.
Definition set_text (t : Term) (a : Atom) : Atom :=
  {| source := {| atom_term := t; atom_source := atom_source (source a); atom_original := atom_original (source a) |};
     constraint := constraint a; entity := entity a; occurrences := occurrences a; position := position a |}.

(** The [whatlang] crate: the code of the detected language, and the language of a code. *)
Class Whatlang := {
  lang_type : Type;
  detect_lang : str -> option str;
  from_code : str -> option lang_type;
}.
Definition stage_lang `{Whatlang} (s : StagePlan) : ires (option lang_type) :=
  match language s with
  | None => Ok None
  | Some code => l ← ok_or (from_code code) InvalidQuerySyntax; Ok (Some l)
  end.
Definition rewritten_query (s : StagePlan) : str :=
  if bool_decide (id s = Strict) then original s
  else join [ch_space] (map (fun a => display (atom_text a)) (atoms s)).
Definition simple_terms (s : StagePlan) : list str :=
  concat (map split_whitespace (omap (fun a => as_simple_text (atom_text a)) (atoms s))).

Definition stage_node (s : StagePlan) : ires Node :=
  if bool_decide (id s = Strict) then ok_or (initial (map atom_text (atoms s))) NoSearchableTerms
  else
    let mandatory := map (fun a => from_term (atom_text a)) (List.filter constraint (atoms s)) in
    let content := map (fun a => from_term (atom_text a)) (List.filter (fun a => negb (constraint a)) (atoms s)) in
    let mandatory :=
      match minimum s with
      | Some m => if is_empty content then mandatory else mandatory ++ [Node_AtLeast m content]
      | None => mandatory ++ content
      end in
    ok_or (reduce Node_And mandatory) NoSearchableTerms.

(** ** Lexical rules *)

Definition literal (t : Term) : option str :=
  match t with Term_SimpleOrPhrase (Simple s) => Some s | _ => None end.
Definition punctuation (s : str) : str :=
  if negb (forallb is_ascii s) then s
  else
    let trimmed := trim_matches (one_char_of (lit ",;:?!()[]{}")) s in
    if ends_with (lit ".") trimmed && (length (List.filter (Z.eqb 46) trimmed) =? 1)%nat &&
       negb (existsb is_ascii_digit trimmed)
    then take (length trimmed - 1) trimmed else trimmed.
Definition acronym (s : str) : bool :=
  forallb is_ascii s && (2 <=? length (List.filter is_ascii_alphabetic s))%nat && negb (existsb is_ascii_lowercase s).
Definition title_case (s : str) : bool :=
  forallb is_ascii s && match s with c :: _ => is_ascii_uppercase c | [] => false end &&
  forallb (fun c => negb (is_ascii_uppercase c)) (drop 1 s) && existsb is_ascii_lowercase s && negb (is_vocabulary s).
Definition mixed_case (s : str) : bool :=
  forallb is_ascii s && existsb is_ascii_lowercase s && existsb is_ascii_uppercase (drop 1 s).

Definition mark_entity (a : Atom) : Atom :=
  match literal (atom_text a) with
  | Some s => set_entity (acronym s || mixed_case s || ((0 <? position a)%nat && title_case s)) a
  | None => a
  end.
(** The number of atoms from the start of [l] that make one capitalised run;
    [prev] is the atom before, within the run. *)
Definition in_run (a : Atom) : bool :=
  negb (constraint a) && match literal (atom_text a) with Some s => title_case s | None => false end &&
  str_eqb (atom_original (source a)) (default [] (literal (atom_text a))).
Fixpoint run_length (prev : option Atom) (l : list Atom) : nat :=
  match l with
  | [] => 0
  | a :: l' =>
      if in_run a && match prev with None => true | Some p => (position p + 1 =? position a)%nat end
      then S (run_length (Some a) l') else 0
  end.
Definition run_preference (run : list Atom) : Preference :=
  {| p_term := Term_SimpleOrPhrase (Phrase (omap (fun a => literal (atom_text a)) run));
     p_source := (match head run with Some a => (atom_source (source a)).1 | None => 0 end,
                  match last run with Some a => (atom_source (source a)).2 | None => 0 end) |}.
(** The loop over [i]: the atoms with their entity flags and the preferences. *)
Fixpoint entity_runs (fuel : nat) (l : list Atom) : list Atom * list Preference :=
  match fuel, l with
  | O, _ | _, [] => (l, [])
  | S fuel', a :: l' =>
      match run_length None l with
      | O => let '(rest, prefs) := entity_runs fuel' l' in (a :: rest, prefs)
      | n =>
          let '(rest, prefs) := entity_runs fuel' (drop n l) in
          if (2 <=? n)%nat
          then (map (set_entity true) (take n l) ++ rest, run_preference (take n l) :: prefs)
          else (take n l ++ rest, prefs)
      end
  end.
Definition is_phrase (t : Term) : bool := match t with Term_SimpleOrPhrase (Phrase _) => true | _ => false end.
Fixpoint distinct_preferences (seen l : list Preference) : list Preference :=
  match l with
  | [] => seen
  | p :: l' =>
      distinct_preferences (if existsb (fun q => bool_decide (p_term q = p_term p)) seen then seen else seen ++ [p]) l'
  end.
Definition preferred (l : list Atom) : list Atom * list Preference :=
  let l := map mark_entity l in
  let '(l, prefs) := entity_runs (length l) l in
  let own := map (fun a => {| p_term := atom_text a; p_source := atom_source (source a) |})
               (List.filter (fun a => entity a || is_phrase (atom_text a)) l) in
  (l, distinct_preferences [] (stable_sort (fun p q => Z.compare (p_source p).1 (p_source q).1) (prefs ++ own))).

(** The words of the longest scaffold the query starts with. *)
Definition scaffold_prefix (l : list Atom) : nat :=
  fold_left (fun prefix scaffold =>
    let words := split ch_space scaffold in
    if (prefix <? length words)%nat && (length words <=? length l)%nat &&
       forallb (fun p => match literal (atom_text p.2) with
                         | Some s => forallb is_ascii s && eq_ignore_ascii_case s p.1
                         | None => false end) (combine words l)
    then length words else prefix) SCAFFOLDS 0%nat.
Definition rewrite_of (a : Atom) (reason : RewriteReason) : Rewrite :=
  {| r_source := atom_source (source a); r_reason := reason |}.
(** The first retained content atom of the same identity counts the occurrence. *)
Fixpoint count_duplicate (key : str) (retained : list Atom) : option (list Atom) :=
  match retained with
  | [] => None
  | a :: l =>
      if negb (constraint a) &&
         match literal (atom_text a) with Some s => str_eqb (comparison_key s) key | None => false end
      then Some (add_occurrence a :: l)
      else match count_duplicate key l with Some l' => Some (a :: l') | None => None end
  end.
Definition content_step (prefix : nat) (st : list Atom * list Rewrite) (a : Atom) : list Atom * list Rewrite :=
  let '(retained, rws) := st in
  if (position a <? prefix)%nat then (retained, rws ++ [rewrite_of a Scaffold])
  else match literal (atom_text a) with
  | None => (retained ++ [a], rws)
  | Some s =>
      let text := punctuation s in
      let rws := if str_eqb text s then rws else rws ++ [rewrite_of a Punctuation] in
      if is_empty text then (retained, rws)
      else if is_stopword text then (retained, rws ++ [rewrite_of a Stopword])
      else
        let a := set_text (Term_SimpleOrPhrase (Simple text)) a in
        match count_duplicate (comparison_key text) retained with
        | Some retained => (retained, rws ++ [rewrite_of a Duplicate])
        | None => (retained ++ [a], rws)
        end
  end.
Definition content_atoms (l : list Atom) : list Atom * list Rewrite :=
  fold_left (content_step (scaffold_prefix l)) l ([], []).

(** ** Plans *)

Definition specific (a : Atom) : bool :=
  match literal (atom_text a) with
  | Some s => acronym s || existsb (fun c => is_ascii_digit c || one_char_of (lit "_.-/+#") c) s
  | None => false
  end.
Definition then_cmp (a b : comparison) : comparison := match a with Eq => b | c => c end.
Definition bool_cmp (a b : bool) : comparison := Bool.compare a b.
Definition option_cmp (a b : option str) : comparison :=
  match a, b with
  | None, None => Eq | None, Some _ => Lt | Some _, None => Gt | Some s, Some t => str_cmp s t
  end.
Definition literal_len (a : Atom) : nat := length (default [] (literal (atom_text a))).
Definition core_order (a b : Atom) : comparison :=
  then_cmp (bool_cmp (specific b) (specific a))
  (then_cmp (Z.compare (occurrences a) (occurrences b))
  (then_cmp (Nat.compare (literal_len b) (literal_len a))
  (then_cmp (Z.compare (atom_source (source a)).1 (atom_source (source b)).1)
            (option_cmp (literal (atom_text a)) (literal (atom_text b)))))).
Definition content_of (l : list Atom) : list Atom := List.filter (fun a => negb (constraint a)) l.
Definition core_atoms (l : list Atom) : list Atom :=
  let selected := take 3 (stable_sort core_order (content_of l)) in
  List.filter (fun a => constraint a || existsb (fun s => (position s =? position a)%nat) selected) l.
(** The preferences whose atoms are all among [kept]. *)
Definition core_preferences (content : StagePlan) (kept : list Atom) : list Preference :=
  List.filter (fun p =>
    forallb (fun a => existsb (fun r => (position r =? position a)%nat) kept)
      (List.filter (fun a => ((p_source p).1 <=? (atom_source (source a)).1) &&
                             ((atom_source (source a)).2 <=? (p_source p).2)) (atoms content)))
    (preferences content).

Section Plan.
Context `{N : Nom} `{U : UrlOps} `{UP : !UrlPairs} {NH : NodeHash} {W : Whatlang}.

Definition equivalent (s t : StagePlan) : ires bool :=
  n ← stage_node s;
  m ← stage_node t;
  Ok (query_eqb (into_query n) (into_query m) &&
      bool_decide (map p_term (preferences s) = map p_term (preferences t))).
Fixpoint equivalent_to_some (s : StagePlan) (stages : list StagePlan) : ires bool :=
  match stages with
  | [] => Ok false
  | t :: stages' =>
      match equivalent s t with
      | Ok true => Ok true
      | Ok false => equivalent_to_some s stages'
      | Err e => Err e
      end
  end.
Definition plan_push (plan : AgentPlan) (s : StagePlan) : ires AgentPlan :=
  same ← equivalent_to_some s plan;
  Ok (if same : bool then plan else plan ++ [s]).

Definition original_atom (pos : nat) (src : SourceAtom) : Atom :=
  {| source := src; constraint := match literal (atom_term src) with None => true | Some _ => false end;
     entity := false; occurrences := 1; position := pos |}.
Definition strict_stage (query : str) (l : list Atom) : StagePlan :=
  {| id := Strict; original := query; language := detect_lang query; atoms := l; preferences := [];
     minimum := None; rewrites := [] |}.
Definition content_stage (query : str) (l : list Atom) (rws : list Rewrite) : StagePlan :=
  let '(retained, prefs) := preferred l in
  {| id := Content; original := query; language := detect_lang query; atoms := retained; preferences := prefs;
     minimum := None; rewrites := rws |}.
Definition relaxed_stage (c : StagePlan) (count : nat) : StagePlan :=
  {| id := Relaxed; original := original c; language := language c; atoms := atoms c; preferences := preferences c;
     minimum := Some ((count + 1) / 2)%nat; rewrites := rewrites c |}.
Definition core_stage (c : StagePlan) : StagePlan :=
  {| id := Core; original := original c; language := language c; atoms := core_atoms (atoms c);
     preferences := core_preferences c (core_atoms (atoms c)); minimum := Some 1%nat; rewrites := rewrites c |}.
Definition AgentPlan_new (query : str) : ires AgentPlan :=
  sources ← validate_query query;
  let originals := imap original_atom sources in
  let plan := [strict_stage query originals] in
  let '(retained, rws) := content_atoms originals in
  if negb (existsb (fun a => positive (atom_text a)) retained) then Ok plan
  else
    let content := content_stage query retained rws in
    let count := length (content_of (atoms content)) in
    plan ← plan_push plan content;
    plan ← (if (1 <? count)%nat then plan_push plan (relaxed_stage content count) else Ok plan);
    if (1 <? count)%nat then plan_push plan (core_stage content) else Ok plan.
End Plan.

(** ** Atoms through the lexical rules *)

Definition is_literal (t : Term) : bool := match literal t with Some _ => true | None => false end.
(** Negated at most once, and a constraint unless it is a plain word. *)
Definition atom_wf (a : Atom) : Prop :=
  single_negation (atom_text a) = true /\ constraint a = negb (is_literal (atom_text a)).
(** The part of an atom that ranking marks do not touch. *)
Definition identity (a : Atom) : SourceAtom * bool * nat := (source a, constraint a, position a).
Lemma atom_wf_identity a b : identity a = identity b -> atom_wf a -> atom_wf b.
Proof. unfold identity, atom_wf, atom_text. by intros [= -> -> _]. Qed.

Lemma run_length_le prev l : (run_length prev l <= length l)%nat.
Proof. revert prev. induction l as [|a l IH]; intros prev; cbn; [done|]. case_match; [|lia]. specialize (IH (Some a)). lia. Qed.
Lemma map_identity_set l e : map identity (map (set_entity e) l) = map identity l.
Proof. rewrite map_map. done. Qed.
Lemma entity_runs_identity fuel l : map identity (entity_runs fuel l).1 = map identity l.
Proof.
  revert l. induction fuel as [|fuel IH]; intros [|a l]; try done. cbn [entity_runs].
  destruct (run_length None (a :: l)) as [|n] eqn:Hr.
  - specialize (IH l). destruct (entity_runs fuel l) as [rest prefs]. cbn in *. by rewrite IH.
  - specialize (IH (drop (S n) (a :: l))). destruct (entity_runs fuel _) as [rest prefs]. cbn [fst] in IH.
    destruct (2 <=? S n)%nat; cbn [fst]; rewrite map_app, ?map_identity_set, IH, <- map_app, take_drop; done.
Qed.
Lemma preferred_identity l : map identity (preferred l).1 = map identity l.
Proof.
  unfold preferred. pose proof (entity_runs_identity (length (map mark_entity l)) (map mark_entity l)) as H.
  destruct (entity_runs _ _) as [l' prefs]. cbn in *. rewrite H, map_map. apply map_ext.
  intros a. unfold mark_entity. by destruct (literal (atom_text a)).
Qed.

Lemma count_duplicate_keeps key l l' : count_duplicate key l = Some l' ->
  length l' = length l /\ (Forall atom_wf l -> Forall atom_wf l') /\
  (forall a, a ∈ l -> constraint a = true -> a ∈ l').
Proof.
  revert l'. induction l as [|a l IH]; intros l'; cbn [count_duplicate]; [done|].
  destruct (negb (constraint a) && _) eqn:Hc.
  - intros [= <-]. apply andb_true_iff in Hc as [Hc%negb_true_iff _]. split_and!; [done| |].
    + intros [Ha Hl]%Forall_cons. constructor; [|done]. by eapply atom_wf_identity; [|exact Ha].
    + intros b [->|Hb]%elem_of_cons Hb'; [congruence|by right].
  - destruct (count_duplicate key l) as [k|]; [|done]. intros [= <-].
    destruct (IH k eq_refl) as (H1 & H2 & H3). split_and!; [cbn; lia| |].
    + intros [Ha Hl]%Forall_cons. constructor; auto.
    + intros b [->|Hb]%elem_of_cons Hb'; [by left|right; auto].
Qed.

Lemma content_step_keeps prefix st a :
  atom_wf a -> Forall atom_wf st.1 -> ((position a < prefix)%nat -> constraint a = false) ->
  Forall atom_wf (content_step prefix st a).1 /\ (length (content_step prefix st a).1 <= S (length st.1))%nat /\
  (forall b, b ∈ st.1 \/ b = a -> constraint b = true -> b ∈ (content_step prefix st a).1).
Proof.
  destruct st as [kept rws]. cbn [fst]. intros [Ha Hl] Hkept Hprefix. unfold content_step.
  destruct (position a <? prefix)%nat eqn:Hp.
  { apply Nat.ltb_lt in Hp. cbn. split_and!; [done|lia|]. intros b [Hb| ->]; [done|]. rewrite Hprefix by done. done. }
  unfold is_literal in Hl. destruct (literal (atom_text a)) as [s|] eqn:Hlit; cbn [negb] in Hl.
  - cbv zeta. assert (forall b, b ∈ kept \/ b = a -> constraint b = true -> b ∈ kept) as Hold
      by (intros b [Hb| ->] Hc; [done|congruence]).
    destruct (is_empty _); [cbn; auto|]. destruct (is_stopword _); [cbn; auto|].
    destruct (count_duplicate _ kept) as [k|] eqn:Hk.
    + destruct (count_duplicate_keeps _ _ _ Hk) as (H1 & H2 & H3). cbn. split_and!; [auto|lia|auto].
    + cbn [fst]. split_and!.
      * apply Forall_app. split; [done|]. repeat constructor. cbn. by rewrite Hl.
      * rewrite length_app. cbn. lia.
      * intros b Hb Hc. apply elem_of_app. auto.
  - cbn [fst]. split_and!.
    + apply Forall_app. split; [done|]. repeat constructor; [done|]. unfold is_literal. by rewrite Hlit.
    + rewrite length_app. cbn. lia.
    + intros b [Hb| ->] _; apply elem_of_app; [by left|right; by left].
Qed.
Lemma content_fold_keeps prefix l st :
  Forall atom_wf l -> Forall atom_wf st.1 -> Forall (fun a => (position a < prefix)%nat -> constraint a = false) l ->
  let kept := (fold_left (content_step prefix) l st).1 in
  Forall atom_wf kept /\ (length kept <= length l + length st.1)%nat /\
  (forall b, b ∈ st.1 \/ b ∈ l -> constraint b = true -> b ∈ kept).
Proof.
  intros Hl. revert st. induction Hl as [|a l Ha _ IH]; intros st Hst Hp; cbn [fold_left].
  - cbv zeta. split_and!; [done|cbn; lia|]. intros b [Hb|Hb]; [done|by apply not_elem_of_nil in Hb].
  - apply Forall_cons in Hp as [Hpa Hp]. destruct (content_step_keeps prefix st a Ha Hst Hpa) as (H1 & H2 & H3).
    destruct (IH _ H1 Hp) as (G1 & G2 & G3). cbv zeta in *. split_and!; [done|cbn; lia|].
    intros b Hb Hc. apply G3; [|done]. rewrite elem_of_cons in Hb. destruct Hb as [Hb|[Hb|Hb]]; auto.
Qed.

(** A scaffold covers plain words only. *)
Lemma combine_Forall {A B} (g : B -> bool) (f : A * B -> bool) ws l :
  (forall p, f p = true -> g p.2 = true) -> (length ws <= length l)%nat -> forallb f (combine ws l) = true ->
  Forall (fun b => g b = true) (take (length ws) l).
Proof.
  intros Hf. revert l. induction ws as [|w ws IH]; intros [|b l]; cbn; try done; try lia.
  intros Hl [Hb Hr]%andb_true_iff. constructor; [by apply (Hf (w, b))|]. apply IH; [lia|done].
Qed.
Lemma scaffold_prefix_literal l : Forall (fun a => is_literal (atom_text a) = true) (take (scaffold_prefix l) l).
Proof.
  unfold scaffold_prefix. generalize (take_0 l). generalize 0%nat as k. intros k Hk.
  assert (Forall (fun a => is_literal (atom_text a) = true) (take k l)) as H by (by rewrite Hk). clear Hk.
  revert k H. induction SCAFFOLDS as [|w ws IH]; intros k H; cbn [fold_left]; [done|]. apply IH.
  cbv zeta. match goal with |- Forall _ (take (if ?b then _ else _) _) => destruct b eqn:Hb end; [|done].
  apply andb_true_iff in Hb as [Hb Hw]. apply andb_true_iff in Hb as [_ Hlen%Nat.leb_le].
  eapply combine_Forall; [|exact Hlen|exact Hw]. intros p. unfold is_literal.
  by destruct (literal (atom_text p.2)).
Qed.

(** ** Stages of a plan *)

Section Stages.
Context `{N : Nom} `{NL : !NomLaws N} `{U : UrlOps} `{UP : !UrlPairs} {W : Whatlang}.

(** What every stage for the admitted atoms [srcs] keeps. *)
Record stage_wf (srcs : list SourceAtom) (s : StagePlan) : Prop := {
  wf_atoms : Forall atom_wf (atoms s);
  wf_size : (length (atoms s) <= length srcs)%nat;
  wf_constraints src : src ∈ srcs -> is_literal (atom_term src) = false ->
    exists a, a ∈ atoms s /\ source a = src /\ constraint a = true;
  wf_minimum : match minimum s with
               | Some m => (1 <= m <= length (content_of (atoms s)))%nat
               | None => atoms s <> []
               end;
  wf_strict : id s = Strict -> map atom_text (atoms s) = map atom_term srcs;
  wf_positive : id s <> Strict -> exists a, a ∈ atoms s /\ negative_term (atom_text a) = false;
}.

Lemma tiled_negations at_ i srcs : tiled at_ i srcs -> Forall (fun a => single_negation (atom_term a) = true) srcs.
Proof.
  revert at_ i. induction srcs as [|a srcs IH]; intros at_ i; cbn [tiled]; [done|].
  intros (gap & after & f & o & k & _ & _ & _ & _ & _ & _ & _ & _ & _ & _ & Hs & Ht). constructor; eauto.
Qed.
(** [validate_query] in the terms of [scan_loop]. *)
Lemma validate_query_Ok q srcs : validate_query q = Ok srcs ->
  srcs <> [] /\ (length srcs <= 32)%nat /\ Forall (fun a => single_negation (atom_term a) = true) srcs.
Proof.
  intros (all & H & Hp)%bind_Ok. apply bind_Ok in Hp as ([] & _ & [= ->]).
  apply bind_Ok in H as ([] & _ & H). apply bind_Ok in H as ([] & _ & H). apply bind_Ok in H as ([] & _ & H).
  apply bind_Ok in H as ([base input] & _ & H). apply bind_Ok in H as (all & Hs & H).
  apply bind_Ok in H as ([] & Hne%refuse_if_Ok & [= ->]). apply is_empty_false in Hne.
  apply scan_loop_Ok in Hs as (new & -> & Ht & Hmax & _); cbn [app length] in *; [|lia|lia|lia|intros; cbn; lia].
  split_and!; [done|done|by eapply tiled_negations].
Qed.

Lemma map_imap {A B C} (f : B -> C) (g : nat -> A -> B) (h : A -> C) l :
  (forall i x, f (g i x) = h x) -> map f (imap g l) = map h l.
Proof.
  revert g. induction l as [|x l IH]; intros g H; [done|]. rewrite imap_cons. cbn. rewrite H. f_equal.
  apply IH. intros i y. apply H.
Qed.
Section OfQuery.
Context (q : str) (srcs : list SourceAtom).
Hypothesis negations : Forall (fun a => single_negation (atom_term a) = true) srcs.
Abbreviation originals := (imap original_atom srcs).

Lemma originals_wf : Forall atom_wf originals.
Proof.
  apply imap_Forall. intros i src Hsrc. rewrite Forall_forall in negations. split; [by apply negations|].
  unfold is_literal, atom_text. cbn. by destruct (literal (atom_term src)).
Qed.
Lemma originals_lookup a : a ∈ originals -> originals !! position a = Some a.
Proof.
  intros (i & Hi)%list_elem_of_lookup. rewrite list_lookup_imap in Hi.
  destruct (srcs !! i) as [src|] eqn:Hs; [|done]. injection Hi as <-. cbn. by rewrite list_lookup_imap, Hs.
Qed.
Lemma originals_prefix :
  Forall (fun a => (position a < scaffold_prefix originals)%nat -> constraint a = false) originals.
Proof.
  apply Forall_forall. intros a Ha Hp. pose proof originals_wf as Hwf. rewrite Forall_forall in Hwf.
  destruct (Hwf a Ha) as [_ ->]. pose proof (scaffold_prefix_literal originals) as Hl. rewrite Forall_forall in Hl.
  rewrite Hl; [done|]. apply list_elem_of_lookup. exists (position a). rewrite lookup_take_lt by done.
  by apply originals_lookup.
Qed.
Lemma strict_wf : srcs <> [] -> stage_wf srcs (strict_stage q originals).
Proof.
  intros Hne. split; cbn.
  - apply originals_wf.
  - by rewrite length_imap.
  - intros src (i & Hi)%list_elem_of_lookup Hlit. exists (original_atom i src). split_and!; [|done|].
    + apply list_elem_of_lookup. exists i. by rewrite list_lookup_imap, Hi.
    + unfold is_literal in Hlit. cbn. by destruct (literal (atom_term src)).
  - by destruct srcs.
  - intros _. by apply map_imap.
  - done.
Qed.
Lemma content_atoms_keep :
  Forall atom_wf (content_atoms originals).1 /\ (length (content_atoms originals).1 <= length srcs)%nat /\
  (forall b, b ∈ originals -> constraint b = true -> b ∈ (content_atoms originals).1).
Proof.
  destruct (content_fold_keeps (scaffold_prefix originals) originals ([], []) originals_wf) as (H1 & H2 & H3);
    [constructor|apply originals_prefix|]. cbv zeta in *. fold (content_atoms originals) in *.
  rewrite length_imap in H2. cbn in H2. split_and!; [done|lia|auto].
Qed.
Lemma identity_elem (l k : list Atom) a : map identity l = map identity k -> a ∈ k ->
  exists b, b ∈ l /\ identity b = identity a.
Proof.
  intros He Ha. assert (identity a ∈ map identity l) as Hi by (rewrite He; by apply list_elem_of_In, in_map, list_elem_of_In).
  apply list_elem_of_In, in_map_iff in Hi as (b & Hb & Hin). exists b. by rewrite list_elem_of_In.
Qed.
Lemma content_wf : existsb (fun a => positive (atom_text a)) (content_atoms originals).1 = true ->
  stage_wf srcs (content_stage q (content_atoms originals).1 (content_atoms originals).2).
Proof.
  intros (p & Hp & Hpos)%existsb_exists. apply list_elem_of_In in Hp.
  destruct content_atoms_keep as (H1 & H2 & H3). unfold content_stage.
  pose proof (preferred_identity (content_atoms originals).1) as Hid.
  pose proof (f_equal length Hid) as Hlen. rewrite !length_map in Hlen.
  destruct (preferred _) as [kept prefs]. cbn [fst] in *. split; cbn.
  - apply Forall_forall. intros a Ha. symmetry in Hid.
    destruct (identity_elem _ _ a Hid Ha) as (b & Hb & Hab). rewrite Forall_forall in H1.
    eapply atom_wf_identity; [exact Hab|]. auto.
  - lia.
  - intros src Hsrc Hlit. destruct (wf_constraints _ _ (strict_wf ltac:(by destruct srcs; [by apply not_elem_of_nil in Hsrc|])) src Hsrc Hlit)
      as (a & Ha & Hs & Hc). cbn in Ha.
    destruct (identity_elem _ _ a Hid (H3 a Ha Hc)) as (b & Hb & Hab). exists b. unfold identity in Hab.
    injection Hab as H5 H6 _. split_and!; congruence.
  - destruct (identity_elem _ _ p Hid Hp) as (b & Hb & _). intros ->. by apply not_elem_of_nil in Hb.
  - done.
  - intros _. destruct (identity_elem _ _ p Hid Hp) as (b & Hb & Hbp). exists b. split; [done|].
    unfold identity in Hbp. injection Hbp as Hbs _ _. unfold atom_text in *. rewrite Hbs.
    by destruct (atom_term (source p)).
Qed.
End OfQuery.

Lemma relaxed_wf srcs c : stage_wf srcs c -> (1 < length (content_of (atoms c)))%nat -> id c = Content ->
  stage_wf srcs (relaxed_stage c (length (content_of (atoms c)))).
Proof.
  intros Hc Hn Hid. split; [apply Hc..| |done|intros _; apply (wf_positive _ _ Hc); by rewrite Hid]. cbn [minimum relaxed_stage atoms].
  set (n := length (content_of (atoms c))) in *. pose proof (Nat.div_mod (n + 1) 2 ltac:(lia)). pose proof (Nat.mod_upper_bound (n + 1) 2 ltac:(lia)). lia.
Qed.
Lemma core_atoms_content l : content_of l <> [] -> content_of (core_atoms l) <> [].
Proof.
  intros Hne. unfold core_atoms. cbv zeta.
  destruct (stable_sort core_order (content_of l)) as [|x k] eqn:Hs.
  { destruct (content_of l) as [|x k]; [done|]. pose proof (stable_sort_perm core_order (x :: k)) as Hp.
    rewrite Hs in Hp. by apply Permutation_nil in Hp. }
  assert (x ∈ content_of l) as Hx by (rewrite <- (stable_sort_perm core_order), Hs; by left).
  apply list_elem_of_In, filter_In in Hx as [Hx Hc].
  assert (In x (content_of (List.filter (fun a => constraint a || existsb (fun s => (position s =? position a)%nat)
    (take 3 (x :: k))) l))) as Hin.
  { apply filter_In. split; [|done]. apply filter_In. split; [done|].
    cbn. by rewrite Nat.eqb_refl, orb_true_r. }
  intros Hnil. by rewrite Hnil in Hin.
Qed.
Lemma core_wf srcs c : stage_wf srcs c -> content_of (atoms c) <> [] -> stage_wf srcs (core_stage c).
Proof.
  intros Hc Hn. split; cbn [atoms core_stage minimum id].
  - apply Forall_forall. intros a Ha. apply list_elem_of_In, filter_In in Ha as [Ha _].
    pose proof (wf_atoms _ _ Hc) as Hw. rewrite Forall_forall in Hw. by apply Hw, list_elem_of_In.
  - pose proof (wf_size _ _ Hc). unfold core_atoms. cbv zeta.
    etransitivity; [apply filter_length_le|done].
  - intros src Hs Hl. destruct (wf_constraints _ _ Hc src Hs Hl) as (a & Ha & H1 & H2). exists a.
    split_and!; [|done|done]. apply list_elem_of_In, filter_In. rewrite <- list_elem_of_In. by rewrite H2.
  - pose proof (core_atoms_content _ Hn) as H. destruct (content_of (core_atoms (atoms c))); [done|]. cbn. lia.
  - done.
  - intros _. pose proof (core_atoms_content _ Hn) as H.
    destruct (content_of (core_atoms (atoms c))) as [|a l] eqn:Hl; [done|]. exists a.
    assert (In a (content_of (core_atoms (atoms c)))) as Ha by (rewrite Hl; by left).
    apply filter_In in Ha as [Ha Hca%negb_true_iff]. split; [by apply list_elem_of_In|].
    apply filter_In in Ha as [Ha _]. pose proof (wf_atoms _ _ Hc) as Hw. rewrite Forall_forall in Hw.
    destruct (Hw a ltac:(by apply list_elem_of_In)) as [_ Hlit]. rewrite Hca in Hlit.
    unfold is_literal in Hlit. by destruct (atom_text a).
Qed.
End Stages.

(** ** What the stages match *)

Section StageNodes.
Context {NH : NodeHash} {NHL : NodeHashLaws NH}.

Lemma literal_positive t : is_literal t = true -> negative_term t = false.
Proof. by destruct t. Qed.
Lemma wf_operand a : atom_wf a -> operand (from_term (atom_text a)).
Proof.
  intros [Hs _]. destruct (negative_term (atom_text a)) eqn:Hn;
    [right; by apply from_term_negated|left; by apply from_term_positive].
Qed.
Lemma wf_content_positive a : atom_wf a -> constraint a = false -> positive_node (from_term (atom_text a)) = true.
Proof.
  intros [_ Hc] Hf. rewrite Hf in Hc. symmetry in Hc. apply negb_false_iff in Hc.
  by apply from_term_positive, literal_positive.
Qed.

(** The operands of the conjunction of a stage after the first. *)
Definition mandatory_nodes (s : StagePlan) : list Node :=
  map (fun a => from_term (atom_text a)) (List.filter constraint (atoms s)).
Definition content_nodes (s : StagePlan) : list Node :=
  map (fun a => from_term (atom_text a)) (content_of (atoms s)).
Definition operand_nodes (s : StagePlan) : list Node :=
  match minimum s with
  | Some m => if is_empty (content_nodes s) then mandatory_nodes s
              else mandatory_nodes s ++ [Node_AtLeast m (content_nodes s)]
  | None => mandatory_nodes s ++ content_nodes s
  end.
Lemma stage_node_operands s : id s <> Strict ->
  stage_node s = ok_or (reduce Node_And (operand_nodes s)) NoSearchableTerms.
Proof.
  intros Hi. unfold stage_node. rewrite bool_decide_false by done. unfold operand_nodes. by destruct (minimum s).
Qed.
Lemma content_nodes_positive s : Forall atom_wf (atoms s) -> Forall (fun n => positive_node n = true) (content_nodes s).
Proof.
  intros Hw. apply Forall_map, Forall_forall. intros a Ha. apply list_elem_of_In, filter_In in Ha as [Ha Hc%negb_true_iff].
  rewrite Forall_forall in Hw. apply wf_content_positive; [|done]. by apply Hw, list_elem_of_In.
Qed.
Lemma operand_nodes_operands s : Forall atom_wf (atoms s) -> Forall operand (operand_nodes s).
Proof.
  intros Hw. pose proof (content_nodes_positive s Hw) as Hp.
  assert (Forall operand (mandatory_nodes s)) as Hm.
  { apply Forall_map, Forall_forall. intros a Ha. apply list_elem_of_In, filter_In in Ha as [Ha _].
    rewrite Forall_forall in Hw. by apply wf_operand, Hw, list_elem_of_In. }
  unfold operand_nodes. destruct (minimum s) as [m|].
  - destruct (is_empty _); [done|]. apply Forall_app. split; [done|]. apply Forall_singleton. left. cbn.
    apply forallb_forall. intros n Hn. rewrite Forall_forall in Hp. by apply Hp, list_elem_of_In.
  - apply Forall_app. split; [done|]. eapply Forall_impl; [exact Hp|]. intros n Hn. by left.
Qed.
Lemma operand_nodes_nonempty srcs s : stage_wf srcs s -> operand_nodes s <> [].
Proof.
  intros Hw. pose proof (wf_minimum _ _ Hw) as Hm. unfold operand_nodes, content_nodes, mandatory_nodes.
  destruct (minimum s) as [m|].
  - destruct (content_of (atoms s)) as [|a l] eqn:Hc; cbn in *; [lia|]. by destruct (map _ _).
  - destruct (atoms s) as [|a l]; [done|]. cbn. destruct (constraint a); cbn; [done|].
    by destruct (map _ (List.filter constraint l)).
Qed.
Lemma stage_node_succeeds srcs s : stage_wf srcs s -> srcs <> [] -> exists n, stage_node s = Ok n.
Proof.
  intros Hw Hne. destruct (decide (id s = Strict)) as [Hi|Hi].
  - unfold stage_node. rewrite bool_decide_true, (wf_strict _ _ Hw) by done.
    destruct srcs as [|a srcs]; [done|]. unfold initial. cbn [map]. rewrite imap_cons. cbn. eauto.
  - rewrite stage_node_operands by done. pose proof (operand_nodes_nonempty _ _ Hw).
    destruct (operand_nodes s); [done|]. cbn. eauto.
Qed.

(** The documents of a later stage: every constraint, and enough content. *)
Definition enough_content (v : PTerm -> bool) (s : StagePlan) : bool :=
  match minimum s with
  | Some m => (m <=? votes (fun a => term_matches v (atom_text a)) (content_of (atoms s)))%nat
  | None => forallb (fun a => term_matches v (atom_text a)) (content_of (atoms s))
  end.
Definition stage_matches (v : PTerm -> bool) (s : StagePlan) : bool :=
  forallb (fun a => term_matches v (atom_text a)) (List.filter constraint (atoms s)) && enough_content v s.
Lemma from_terms_matches v l :
  forallb (node_matches v) (map (fun a => from_term (atom_text a)) l) = forallb (fun a => term_matches v (atom_text a)) l.
Proof. rewrite forallb_map. apply forallb_ext, Forall_true. intros a. apply from_term_matches. Qed.
Lemma from_terms_votes v l :
  votes (node_matches v) (map (fun a => from_term (atom_text a)) l) = votes (fun a => term_matches v (atom_text a)) l.
Proof. induction l as [|a l IH]; [done|]. cbn [map]. by rewrite !votes_cons, from_term_matches, IH. Qed.
Lemma operand_nodes_match v srcs s : stage_wf srcs s ->
  forallb (node_matches v) (operand_nodes s) = stage_matches v s.
Proof.
  intros Hw. pose proof (wf_minimum _ _ Hw) as Hm. unfold operand_nodes, stage_matches, enough_content.
  destruct (minimum s) as [m|].
  - destruct (is_empty (content_nodes s)) eqn:He.
    { apply is_empty_true in He. unfold content_nodes in He. apply map_eq_nil in He. rewrite He in Hm. cbn in Hm. lia. }
    rewrite forallb_app. unfold mandatory_nodes. rewrite from_terms_matches. cbn [forallb node_matches].
    unfold content_nodes. by rewrite from_terms_votes, andb_true_r.
  - rewrite forallb_app. unfold mandatory_nodes, content_nodes. by rewrite !from_terms_matches.
Qed.
Lemma later_stage_matches v srcs s n : stage_wf srcs s -> id s <> Strict -> stage_node s = Ok n ->
  conjunction n = true /\ node_matches v n = stage_matches v s.
Proof.
  intros Hw Hi. rewrite stage_node_operands by done. pose proof (operand_nodes_operands s (wf_atoms _ _ Hw)) as Ho.
  rewrite <- (operand_nodes_match v _ _ Hw). intros Hn%ok_or_Ok.
  destruct (operand_nodes s) as [|m ms]; [done|]. injection Hn as <-. apply Forall_cons in Ho as [Hm Hms].
  split; [by apply and_all_conjunction; [apply operand_conjunction|]|apply and_all_matches].
Qed.
Lemma strict_stage_matches v srcs s n : stage_wf srcs s -> id s = Strict -> stage_node s = Ok n ->
  conjunction n = true /\
  node_matches v n = all_positions (position_matches v (map atom_term srcs)) (map atom_term srcs).
Proof.
  intros Hw Hi. unfold stage_node. rewrite bool_decide_true by done. intros Hn%ok_or_Ok.
  pose proof (wf_strict _ _ Hw Hi) as Hs. split.
  - apply (initial_conjunction (map atom_text (atoms s))); [|done]. rewrite forallb_map. apply forallb_forall.
    intros a Ha. pose proof (wf_atoms _ _ Hw) as H. rewrite Forall_forall in H. by apply H, list_elem_of_In.
  - rewrite Hs in Hn. by apply initial_matches.
Qed.
Lemma all_positions_elem f terms t : all_positions f terms = true -> t ∈ terms -> exists i, f i t = true.
Proof.
  unfold all_positions. intros Ha (i & Hi)%list_elem_of_lookup. exists i. rewrite forallb_forall in Ha.
  apply Ha, list_elem_of_In, list_elem_of_lookup. exists i. by rewrite list_lookup_imap, Hi.
Qed.
Lemma constraint_position v terms i t :
  is_literal t = false -> position_matches v terms i t = term_matches v t.
Proof.
  intros Ht. unfold position_matches, adjacent_of. unfold is_literal in Ht. change simple_text with literal.
  destruct (_ <=? _)%nat; [|by rewrite orb_false_r]. destruct (literal t); [done|]. apply orb_false_r.
Qed.

(** A document the node of a stage matches satisfies every constraint of the
    query. *)
Lemma stage_conjunction srcs s n : stage_wf srcs s -> stage_node s = Ok n -> conjunction n = true.
Proof.
  intros Hw Hn. destruct (decide (id s = Strict)) as [Hi|Hi].
  - by apply (strict_stage_matches (fun _ => true) _ _ _ Hw Hi Hn).
  - by apply (later_stage_matches (fun _ => true) _ _ _ Hw Hi Hn).
Qed.
Lemma stage_node_keeps_constraints v srcs s n src :
  stage_wf srcs s -> stage_node s = Ok n -> node_matches v n = true ->
  src ∈ srcs -> is_literal (atom_term src) = false -> term_matches v (atom_term src) = true.
Proof.
  intros Hw Hn Hq Hin Hlit. destruct (decide (id s = Strict)) as [Hi|Hi].
  - destruct (strict_stage_matches v _ _ _ Hw Hi Hn) as [Hc Hm]. rewrite Hm in Hq.
    destruct (all_positions_elem _ _ (atom_term src) Hq) as [i Hp];
      [by apply list_elem_of_In, in_map, list_elem_of_In|]. by rewrite constraint_position in Hp.
  - destruct (later_stage_matches v _ _ _ Hw Hi Hn) as [Hc Hm]. rewrite Hm in Hq.
    apply andb_true_iff in Hq as [Hq _]. destruct (wf_constraints _ _ Hw _ Hin Hlit) as (a & Ha & <- & Hca).
    rewrite forallb_forall in Hq. apply Hq, filter_In. by rewrite <- list_elem_of_In.
Qed.

(** *** Exactness, with at most one negation *)

Definition negations (s : StagePlan) : nat := votes (fun a => negative_term (atom_text a)) (atoms s).
Lemma positive_not_negated n : positive_node n = true -> negated n = false.
Proof. by destruct n. Qed.
Lemma negated_from_term t : negated (from_term t) = true -> negative_term t = true.
Proof.
  intros Hn. destruct (negative_term t) eqn:Ht; [done|]. apply from_term_positive, positive_not_negated in Ht. congruence.
Qed.
Lemma votes_from_terms l :
  (votes negated (map (fun a => from_term (atom_text a)) l) <= votes (fun a => negative_term (atom_text a)) l)%nat.
Proof.
  induction l as [|a l IH]; [done|]. cbn [map]. rewrite !votes_cons.
  destruct (negated _) eqn:Hn; [|lia]. rewrite (negated_from_term _ Hn). lia.
Qed.
Lemma operand_nodes_negations s : Forall atom_wf (atoms s) -> (votes negated (operand_nodes s) <= negations s)%nat.
Proof.
  intros Hw. assert (votes negated (mandatory_nodes s) <= negations s)%nat as Hm
    by (etransitivity; [apply votes_from_terms|apply votes_filter_le]).
  assert (votes negated (content_nodes s) = 0%nat) as Hc.
  { apply votes_none. eapply Forall_impl; [by apply content_nodes_positive|]. apply positive_not_negated. }
  unfold operand_nodes. destruct (minimum s); [|rewrite votes_app; lia].
  destruct (is_empty _); [done|]. rewrite votes_app. cbn. lia.
Qed.
Lemma and_all_anchored n ns :
  Forall operand (n :: ns) -> (votes negated (n :: ns) <= 1)%nat -> Exists (fun m => positive_node m = true) (n :: ns) ->
  proper (fold_left Node_And ns n) = true.
Proof.
  intros [Hn Hns]%Forall_cons Hv Hex. destruct Hn as [Hn|Hn]; [by apply and_all_proper; [apply positive_proper|]|].
  rewrite votes_cons, Hn in Hv. apply Exists_cons in Hex as [Hp|Hex]; [apply positive_not_negated in Hp; congruence|].
  destruct ns as [|m ns]; [by inversion Hex|]. apply Forall_cons in Hns as [Hm Hns].
  rewrite votes_cons in Hv. destruct Hm as [Hm|Hm]; [|rewrite Hm in Hv; lia].
  cbn. apply and_all_proper; [|done]. apply proper_And. auto using positive_proper.
Qed.
Lemma operand_nodes_positive srcs s : stage_wf srcs s -> id s <> Strict ->
  Exists (fun m => positive_node m = true) (operand_nodes s).
Proof.
  intros Hw Hi. destruct (wf_positive _ _ Hw Hi) as (a & Ha & Hn).
  assert (positive_node (from_term (atom_text a)) = true) as Hp by by apply from_term_positive.
  pose proof (content_nodes_positive s (wf_atoms _ _ Hw)) as Hc. pose proof (wf_minimum _ _ Hw) as Hm.
  apply Exists_exists. unfold operand_nodes. destruct (minimum s) as [m|].
  - destruct (is_empty (content_nodes s)) eqn:He.
    { apply is_empty_true in He. unfold content_nodes in He. apply map_eq_nil in He. rewrite He in Hm. cbn in Hm. lia. }
    exists (Node_AtLeast m (content_nodes s)). split; [apply elem_of_app; right; by left|].
    cbn. apply forallb_forall. intros n Hin. rewrite Forall_forall in Hc. by apply Hc, list_elem_of_In.
  - exists (from_term (atom_text a)). split; [|done]. apply elem_of_app. rewrite !list_elem_of_In.
    apply list_elem_of_In in Ha. destruct (constraint a) eqn:Hca; [left|right];
      apply (in_map (fun a => from_term (atom_text a))), filter_In; by rewrite Hca.
Qed.
Lemma later_stage_exact v srcs s n :
  stage_wf srcs s -> id s <> Strict -> (negations s <= 1)%nat -> stage_node s = Ok n ->
  query_matches v (into_query n) = stage_matches v s.
Proof.
  intros Hw Hi Hneg Hn. destruct (later_stage_matches v _ _ _ Hw Hi Hn) as [Hc <-].
  apply (into_query_fuel_matches v (S (depth n))); [lia|done|].
  rewrite stage_node_operands in Hn by done. apply ok_or_Ok in Hn.
  pose proof (operand_nodes_operands s (wf_atoms _ _ Hw)) as Ho.
  pose proof (operand_nodes_negations s (wf_atoms _ _ Hw)) as Hv.
  pose proof (operand_nodes_positive _ _ Hw Hi) as Hp.
  destruct (operand_nodes s) as [|m ms]; [done|]. injection Hn as <-.
  apply and_all_anchored; [done|lia|done].
Qed.

(** *** Weaker stages *)

Lemma relaxed_weaker v c : minimum c = None -> (1 < length (content_of (atoms c)))%nat ->
  stage_matches v c = true -> stage_matches v (relaxed_stage c (length (content_of (atoms c)))) = true.
Proof.
  unfold stage_matches, enough_content. intros -> Hn [Hc Hall]%andb_true_iff.
  cbn [minimum relaxed_stage atoms]. rewrite Hc. cbn [andb]. rewrite votes_all by done. apply Nat.leb_le.
  apply Nat.Div0.div_le_upper_bound. lia.
Qed.
Lemma core_weaker v c : minimum c = None -> content_of (atoms c) <> [] ->
  stage_matches v c = true -> stage_matches v (core_stage c) = true.
Proof.
  unfold stage_matches, enough_content. intros -> Hn [Hc Hall]%andb_true_iff.
  cbn [minimum core_stage atoms]. apply andb_true_iff. split.
  - rewrite forallb_forall in Hc |- *. intros a [Ha Hca]%filter_In. apply filter_In in Ha as [Ha _].
    apply Hc, filter_In. done.
  - assert (forallb (fun a => term_matches v (atom_text a)) (content_of (core_atoms (atoms c))) = true) as H.
    { rewrite forallb_forall in Hall |- *. intros a [Ha Hca]%filter_In. apply filter_In in Ha as [Ha _].
      apply Hall, filter_In. done. }
    rewrite votes_all by done. pose proof (core_atoms_content _ Hn). destruct (content_of (core_atoms _)); done.
Qed.
Lemma core_negations c : (negations (core_stage c) <= negations c)%nat.
Proof. apply votes_filter_le. Qed.
End StageNodes.

(** ** Plans of queries *)

Section Plans.
Context `{N : Nom} `{NL : !NomLaws N} `{U : UrlOps} `{UP : !UrlPairs}.
Context {NH : NodeHash} {NHL : NodeHashLaws NH} {W : Whatlang}.

Lemma plan_push_cases plan s plan' : plan_push plan s = Ok plan' -> plan' = plan \/ plan' = plan ++ [s].
Proof. intros ([] & _ & [= <-])%bind_Ok; auto. Qed.
Lemma plan_push_succeeds srcs plan s : srcs <> [] -> Forall (stage_wf srcs) plan -> stage_wf srcs s ->
  exists plan', plan_push plan s = Ok plan'.
Proof.
  intros Hne Hp Hs. unfold plan_push. enough (exists b, equivalent_to_some s plan = Ok b) as [b ->] by (cbn; eauto).
  induction Hp as [|t plan Ht _ IH]; cbn [equivalent_to_some]; [eauto|]. unfold equivalent.
  destruct (stage_node_succeeds _ _ Hs Hne) as [n ->]. destruct (stage_node_succeeds _ _ Ht Hne) as [m ->].
  cbn. destruct (_ && _); eauto.
Qed.
(** Pushing a stage succeeds and keeps the plan's order of stages. *)
Lemma plan_push_keeps srcs plan s ids :
  srcs <> [] -> Forall (stage_wf srcs) plan -> stage_wf srcs s -> sublist (map id plan) ids ->
  exists more, plan_push plan s = Ok (plan ++ more) /\ Forall (stage_wf srcs) (plan ++ more) /\
    sublist (map id (plan ++ more)) (ids ++ [id s]).
Proof.
  intros Hne Hp Hs Hi. destruct (plan_push_succeeds srcs plan s Hne Hp Hs) as [plan' Hpush].
  destruct (plan_push_cases _ _ _ Hpush) as [-> | ->].
  - exists []. rewrite app_nil_r. split_and!; [done|done|by apply sublist_inserts_r].
  - exists [s]. split_and!; [done|apply Forall_app; by rewrite Forall_singleton|rewrite map_app; by apply sublist_app].
Qed.
Lemma content_stage_atoms q l rws : map identity (atoms (content_stage q l rws)) = map identity l.
Proof. unfold content_stage. pose proof (preferred_identity l) as H. by destruct (preferred l). Qed.

Lemma plan_of_query q srcs : validate_query q = Ok srcs ->
  exists later, AgentPlan_new q = Ok (strict_stage q (imap original_atom srcs) :: later) /\
    Forall (stage_wf srcs) (strict_stage q (imap original_atom srcs) :: later) /\
    sublist (map id (strict_stage q (imap original_atom srcs) :: later)) [Strict; Content; Relaxed; Core].
Proof.
  intros Hv. destruct (validate_query_Ok _ _ Hv) as (Hne & _ & Hneg). unfold AgentPlan_new. rewrite Hv.
  cbn [mbind result_bind]. cbv zeta.
  set (originals := imap original_atom srcs). set (strict := strict_stage q originals).
  assert (Forall (stage_wf srcs) [strict]) as Hstrict by (apply Forall_singleton; by apply strict_wf).
  assert (sublist (map id [strict]) [Strict]) as Hids by done.
  destruct (content_atoms originals) as [retained rws] eqn:Hc.
  destruct (existsb (fun a => positive (atom_text a)) retained) eqn:Hpos; cbn [negb].
  2:{ exists []. split_and!; [done|done|]. by apply (sublist_inserts_r [Content; Relaxed; Core]) in Hids. }
  assert (stage_wf srcs (content_stage q retained rws)) as Hcontent.
  { pose proof (content_wf q srcs Hneg) as H. fold originals in H. rewrite Hc in H. apply H.
    done. }
  set (content := content_stage q retained rws) in *.
  assert (id content = Content) as Hcid by (unfold content, content_stage; by destruct (preferred retained)).
  destruct (plan_push_keeps srcs [strict] content [Strict] Hne Hstrict Hcontent Hids) as (m1 & -> & Hw1 & Hi1).
  cbn [mbind result_bind]. rewrite Hcid in Hi1. set (plan1 := [strict] ++ m1) in *.
  destruct (1 <? length (content_of (atoms content)))%nat eqn:Hcount.
  2:{ exists m1. split_and!; [done|done|]. by apply (sublist_inserts_r [Relaxed; Core]) in Hi1. }
  apply Nat.ltb_lt in Hcount.
  assert (content_of (atoms content) <> []) as Hcne by (intros He; rewrite He in Hcount; cbn in Hcount; lia).
  destruct (plan_push_keeps srcs plan1 (relaxed_stage content (length (content_of (atoms content)))) _
              Hne Hw1 (relaxed_wf _ _ Hcontent Hcount Hcid) Hi1) as (m2 & -> & Hw2 & Hi2).
  cbn [mbind result_bind].
  destruct (plan_push_keeps srcs (plan1 ++ m2) (core_stage content) _ Hne Hw2 (core_wf _ _ Hcontent Hcne) Hi2)
    as (m3 & -> & Hw3 & Hi3).
  exists (m1 ++ m2 ++ m3). subst plan1. rewrite <- !app_assoc in *. done.
Qed.
Lemma plan_of_Ok q plan : AgentPlan_new q = Ok plan -> exists srcs, validate_query q = Ok srcs /\ srcs <> [] /\
  (length srcs <= 32)%nat /\ Forall (stage_wf srcs) plan /\ sublist (map id plan) [Strict; Content; Relaxed; Core] /\
  head plan = Some (strict_stage q (imap original_atom srcs)).
Proof.
  intros Hp. destruct (validate_query q) as [srcs|e] eqn:Hv; [|unfold AgentPlan_new in Hp; by rewrite Hv in Hp].
  destruct (plan_of_query q srcs Hv) as (later & Hq & Hw & Hi). destruct (validate_query_Ok _ _ Hv) as (Hne & Hl & _).
  rewrite Hq in Hp. injection Hp as <-. by exists srcs.
Qed.

(** Planning fails exactly when the query is refused, and then with that
    error: no planning step adds an error of its own. *)
Theorem planning_fails_only_on_refused_queries q e :
  AgentPlan_new q = Err e <-> validate_query q = Err e.
Proof.
  split.
  - intros Hp. destruct (validate_query q) as [srcs|e'] eqn:Hv.
    + destruct (plan_of_query q srcs Hv) as (later & Hq & _). congruence.
    + unfold AgentPlan_new in Hp. rewrite Hv in Hp. by injection Hp as ->.
  - intros Hv. unfold AgentPlan_new. by rewrite Hv.
Qed.

(** C24: A plan is a strict stage of all atoms as they were admitted, then some of
    content, relaxed and core in this order; every stage has at most 32 atoms,
    converts to a node, and a stage with a threshold asks for at least one and
    at most all of its content atoms. *)
Theorem plan_stages_are_bounded q plan : AgentPlan_new q = Ok plan ->
  sublist (map id plan) [Strict; Content; Relaxed; Core] /\
  (exists srcs later, validate_query q = Ok srcs /\ plan = strict_stage q (imap original_atom srcs) :: later) /\
  Forall (fun s => (length (atoms s) <= 32)%nat /\ (exists n, stage_node s = Ok n) /\
    match minimum s with
    | Some m => (1 <= m <= length (content_of (atoms s)))%nat /\ (length (content_of (atoms s)) <= 32)%nat
    | None => True
    end) plan.
Proof.
  intros (srcs & Hv & Hne & Hlen & Hw & Hi & Hh)%plan_of_Ok. split_and!; [done| |].
  - destruct plan as [|s later]; [done|]. injection Hh as ->. by exists srcs, later.
  - eapply Forall_impl; [exact Hw|]. intros s Hs. pose proof (wf_size _ _ Hs) as Hsize. split_and!; [lia| |].
    + by eapply stage_node_succeeds.
    + pose proof (wf_minimum _ _ Hs) as Hm. destruct (minimum s); [|done].
      pose proof (filter_length_le (fun a => negb (constraint a)) (atoms s)) as Hf.
      unfold content_of in *. lia.
Qed.

(** No stage weakens an explicit constraint: a document matched by the query
    of any stage satisfies every quoted phrase, field selector, negation and
    unknown bang of the admitted query. *)
Theorem stages_keep_explicit_constraints q srcs plan s n v src :
  validate_query q = Ok srcs -> AgentPlan_new q = Ok plan -> s ∈ plan -> stage_node s = Ok n ->
  query_matches v (into_query n) = true ->
  src ∈ srcs -> is_literal (atom_term src) = false -> term_matches v (atom_term src) = true.
Proof.
  intros Hv (srcs' & Hv' & _ & _ & Hw & _)%plan_of_Ok Hs Hn Hq Hin Hlit. rewrite Hv in Hv'. injection Hv' as <-.
  rewrite Forall_forall in Hw. specialize (Hw s Hs). eapply stage_node_keeps_constraints; [done|done| |done|done].
  apply (into_query_fuel_matches v (S (depth n))) in Hq; [done|lia|by eapply stage_conjunction].
Qed.

(** C25: With at most one negation, the query of a content, relaxed or core stage
    matches exactly the documents that satisfy every constraint and enough of
    the content: all of it, or as many atoms as the stage's minimum. *)
Theorem later_stages_match_exactly q plan s n v :
  AgentPlan_new q = Ok plan -> s ∈ plan -> id s <> Strict -> (negations s <= 1)%nat -> stage_node s = Ok n ->
  query_matches v (into_query n) = stage_matches v s.
Proof.
  intros (srcs & _ & _ & _ & Hw & _)%plan_of_Ok Hs Hi Hn Hnode. rewrite Forall_forall in Hw.
  by eapply (later_stage_exact v srcs s n (Hw s Hs)).
Qed.

(** Later stages only widen the search: for a query with at most one
    negation, every document the content stage's query matches is matched by
    the query of the relaxed stage and by that of the core stage made of it. *)
Theorem later_stages_widen q srcs retained rws v nc nr nk :
  validate_query q = Ok srcs -> content_atoms (imap original_atom srcs) = (retained, rws) ->
  existsb (fun a => positive (atom_text a)) retained = true ->
  let c := content_stage q retained rws in
  (negations c <= 1)%nat -> (1 < length (content_of (atoms c)))%nat ->
  stage_node c = Ok nc -> stage_node (relaxed_stage c (length (content_of (atoms c)))) = Ok nr ->
  stage_node (core_stage c) = Ok nk ->
  query_matches v (into_query nc) = true ->
  query_matches v (into_query nr) = true /\ query_matches v (into_query nk) = true.
Proof.
  intros Hv Hc Hpos c Hneg Hcount Hnc Hnr Hnk Hq.
  destruct (validate_query_Ok _ _ Hv) as (Hne & _ & Hn).
  assert (stage_wf srcs c) as Hw by (pose proof (content_wf q srcs Hn) as H; rewrite Hc in H; by apply H).
  assert (id c = Content /\ minimum c = None) as [Hid Hmin] by (unfold c, content_stage; by destruct (preferred retained)).
  assert (content_of (atoms c) <> []) as Hcne by (intros He; rewrite He in Hcount; cbn in Hcount; lia).
  rewrite (later_stage_exact v srcs c nc Hw) in Hq by (done || by rewrite Hid). split.
  - rewrite (later_stage_exact v srcs _ nr (relaxed_wf _ _ Hw Hcount Hid)); [by apply relaxed_weaker|done|done|done].
  - rewrite (later_stage_exact v srcs _ nk (core_wf _ _ Hw Hcne)); [by apply core_weaker|done| |done].
    pose proof (core_negations c). lia.
Qed.
End Plans.

(** ** Examples *)

Module PlannerReference.
Import NomReference UrlReference QueryReference PlanReference.
#[export] Instance no_detection : Whatlang := {| lang_type := unit; detect_lang _ := None; from_code _ := None |}.

Definition plan_of (q : string) : AgentPlan := match AgentPlan_new (lit q) with Ok plan => plan | Err _ => [] end.
Definition node_of (s : StagePlan) : Node := match stage_node s with Ok n => n | Err _ => Node_AtLeast 0 [] end.
Definition everything : PTerm -> bool := fun _ => true.

(** "x site:y" and its content stage. *)
Definition srcs1 : list SourceAtom :=
  [{| atom_term := word "x"; atom_source := (0, 1); atom_original := lit "x" |};
   {| atom_term := Term_Site (lit "y"); atom_source := (2, 8); atom_original := lit "site:y" |}].
Definition plan1 : AgentPlan := plan_of "x site:y".
Definition content1 : StagePlan := nth 1 plan1 (strict_stage [] []).
Lemma srcs1_valid : validate_query (lit "x site:y") = Ok srcs1.
Proof. vm_compute. reflexivity. Qed.
Lemma plan1_planned : AgentPlan_new (lit "x site:y") = Ok plan1.
Proof. vm_compute. reflexivity. Qed.
Lemma content1_planned : content1 ∈ plan1.
Proof. apply list_elem_of_lookup. exists 1%nat. vm_compute. reflexivity. Qed.
Lemma content1_node : stage_node content1 = Ok (node_of content1).
Proof. vm_compute. reflexivity. Qed.

Lemma plan_stages_are_bounded_witness :
  AgentPlan_new (lit "x site:y") = Ok plan1 /\ sublist (map id plan1) [Strict; Content; Relaxed; Core].
Proof.
  split; [exact plan1_planned|]. apply (plan_stages_are_bounded (lit "x site:y") plan1 plan1_planned).
Defined.
Lemma stages_keep_explicit_constraints_witness :
  query_matches everything (into_query (node_of content1)) = true /\
  term_matches everything (Term_Site (lit "y")) = true.
Proof.
  assert (query_matches everything (into_query (node_of content1)) = true) as Hq by (vm_compute; reflexivity).
  split; [exact Hq|].
  apply (stages_keep_explicit_constraints _ _ _ _ _ everything
           {| atom_term := Term_Site (lit "y"); atom_source := (2, 8); atom_original := lit "site:y" |}
           srcs1_valid plan1_planned content1_planned content1_node Hq); [|reflexivity].
  right. left.
Defined.
Lemma later_stages_match_exactly_witness :
  AgentPlan_new (lit "x site:y") = Ok plan1 /\ id content1 = Content /\
  query_matches everything (into_query (node_of content1)) = stage_matches everything content1.
Proof.
  split_and!; [exact plan1_planned|vm_compute; reflexivity|].
  apply (later_stages_match_exactly (lit "x site:y") plan1 content1 (node_of content1) everything
           plan1_planned content1_planned); [vm_compute; done|vm_compute; lia|exact content1_node].
Defined.

(** "x y". *)
Definition srcs2 : list SourceAtom :=
  [{| atom_term := word "x"; atom_source := (0, 1); atom_original := lit "x" |};
   {| atom_term := word "y"; atom_source := (2, 3); atom_original := lit "y" |}].
Definition content2 : StagePlan :=
  content_stage (lit "x y") (content_atoms (imap original_atom srcs2)).1 (content_atoms (imap original_atom srcs2)).2.
Lemma later_stages_widen_witness :
  validate_query (lit "x y") = Ok srcs2 /\
  query_matches everything (into_query (node_of (relaxed_stage content2 2))) = true /\
  query_matches everything (into_query (node_of (core_stage content2))) = true.
Proof.
  assert (validate_query (lit "x y") = Ok srcs2) as Hv by (vm_compute; reflexivity).
  split; [exact Hv|].
  apply (later_stages_widen (lit "x y") srcs2 (content_atoms (imap original_atom srcs2)).1
           (content_atoms (imap original_atom srcs2)).2 everything (node_of content2)
           (node_of (relaxed_stage content2 2)) (node_of (core_stage content2)) Hv);
    try (vm_compute; (reflexivity || lia)).
Defined.

(** Two exclusions are planned before the content, as a clause that no document
    matches: after the strict stage, nothing is found. *)
Theorem two_exclusions_find_nothing v :
  map id (plan_of "x -y -z") = [Strict; Content] /\
  map (fun s => query_matches v (into_query (node_of s))) (drop 1 (plan_of "x -y -z")) = [false].
Proof. vm_compute. split; reflexivity. Qed.
End PlannerReference.
