(* ===== verification/MinimumMatch.v ===== *)
(** * Minimum-should-match scoring

    [query/plan/minimum_match.rs]: a document set of the documents that at least
    [minimum] of the child document sets contain, over the index's [DocSet]
    interface ([crates/tantivy/src/docset.rs]). *)

From S2P Require Import Prelude Text QueryTerm QueryBounds QueryPlan.

#[local] Open Scope Z_scope.

(** ** Document sets *)

Definition TERMINATED : Z := 2147483647.

Class DocSet (S : Type) := {
  doc : S -> Z;
  advance : S -> S;
  seek : S -> Z -> S;
}.
(** The documents from position [t] on. *)
Definition from_doc (t : Z) (l : list Z) : list Z := List.filter (fun d => t <=? d) l.
(** A document set is a strictly increasing sequence of documents read from the
    front; [seek] is only called forwards. *)
Class DocSetLaws (S : Type) {D : DocSet S} := {
  remaining : S -> list Z;
  remaining_sorted s : StronglySorted Z.lt (remaining s);
  remaining_range s : Forall (fun d => 0 <= d < TERMINATED) (remaining s);
  doc_spec s : doc s = List.hd TERMINATED (remaining s);
  advance_spec s : remaining (advance s) = List.tl (remaining s);
  seek_spec s t : doc s <= t -> remaining (seek s t) = from_doc t (remaining s);
}.

(** ** The scorer *)

Record MinimumScorer (S : Type) := { ms_minimum : nat; ms_children : list S; ms_current : Z }.
Arguments ms_minimum {S}. Arguments ms_children {S}. Arguments ms_current {S}. Arguments Build_MinimumScorer {S}.
Record MinimumMatch (Q : Type) := { mm_children : list Q; mm_minimum : nat }.
Arguments Build_MinimumMatch {Q}. Arguments mm_children {Q}. Arguments mm_minimum {Q}.
Definition MinimumMatch_new {Q} (minimum : nat) (children : list Q) : ires (MinimumMatch Q) :=
  _ ← refuse_if ((minimum =? 0)%nat || (length children <? minimum)%nat || (MAX_ATOMS <? length children)%nat) PlanTooComplex;
  Ok {| mm_children := children; mm_minimum := minimum |}.

Section Scorer.
Context {S : Type} {D : DocSet S}.

(** [children.map(doc).min().unwrap_or(TERMINATED)]. *)
Definition min_doc (children : list S) : Z := default TERMINATED (reduce Z.min (map doc children)).
Definition advance_at (d : Z) (children : list S) : list S :=
  map (fun c => if doc c =? d then advance c else c) children.
(** [None]: the loop has not ended after [fuel] rounds. *)
Fixpoint align (fuel : nat) (s : MinimumScorer S) : option (MinimumScorer S) :=
  match fuel with
  | O => None
  | Datatypes.S fuel' =>
      let next := min_doc (ms_children s) in
      if next =? TERMINATED then Some (Build_MinimumScorer (ms_minimum s) (ms_children s) TERMINATED)
      else if (ms_minimum s <=? votes (fun c => (doc c =? next)%Z) (ms_children s))%nat
      then Some (Build_MinimumScorer (ms_minimum s) (ms_children s) next)
      else align fuel' (Build_MinimumScorer (ms_minimum s) (advance_at next (ms_children s)) (ms_current s))
  end.
Definition MinimumScorer_new (fuel minimum : nat) (children : list S) : option (MinimumScorer S) :=
  align fuel (Build_MinimumScorer minimum children TERMINATED).
Definition MinimumScorer_doc (s : MinimumScorer S) : Z := ms_current s.
Definition MinimumScorer_advance (fuel : nat) (s : MinimumScorer S) : option (MinimumScorer S) :=
  if ms_current s =? TERMINATED then Some s
  else align fuel (Build_MinimumScorer (ms_minimum s) (advance_at (ms_current s) (ms_children s)) (ms_current s)).
Definition MinimumScorer_seek (fuel : nat) (s : MinimumScorer S) (target : Z) : option (MinimumScorer S) :=
  if target <=? ms_current s then Some s
  else align fuel (Build_MinimumScorer (ms_minimum s)
         (map (fun c => if doc c <? target then seek c target else c) (ms_children s)) (ms_current s)).
Definition MinimumScorer_size_hint (size_hint : S -> Z) (s : MinimumScorer S) : Z :=
  fold_left u32_saturating_add (map size_hint (ms_children s)) 0.

(** The calls of a reader and the documents it is given. *)
Inductive call := Advance | Seek (target : Z).
Definition scorer_call (fuel : nat) (s : MinimumScorer S) (c : call) : option (MinimumScorer S) :=
  match c with Advance => MinimumScorer_advance fuel s | Seek t => MinimumScorer_seek fuel s t end.
Fixpoint scorer_run (fuel : nat) (s : MinimumScorer S) (calls : list call) : option (list Z) :=
  match calls with
  | [] => Some []
  | c :: calls' =>
      s ← scorer_call fuel s c;
      docs ← scorer_run fuel s calls';
      Some (MinimumScorer_doc s :: docs)
  end.
End Scorer.

(** A cursor over a sorted list of documents: what a document set promises. *)
Definition cursor_call (l : list Z) (c : call) : list Z :=
  match c with Advance => List.tl l | Seek t => from_doc t l end.
Fixpoint cursor_run (l : list Z) (calls : list call) : list Z :=
  match calls with
  | [] => []
  | c :: calls' => List.hd TERMINATED (cursor_call l c) :: cursor_run (cursor_call l c) calls'
  end.

(** ** Sorted lists of documents *)

Lemma from_doc_elem t l d : d ∈ from_doc t l <-> d ∈ l /\ t <= d.
Proof. unfold from_doc. rewrite !list_elem_of_In, filter_In, Z.leb_le. done. Qed.
Lemma sorted_hd d l e : StronglySorted Z.lt (d :: l) -> e ∈ l -> d < e.
Proof. inversion 1 as [|? ? _ Hf]. rewrite Forall_forall in Hf. apply Hf. Qed.
Lemma sorted_tl_elem l d : StronglySorted Z.lt l -> d ∈ List.tl l <-> d ∈ l /\ d <> List.hd TERMINATED l.
Proof.
  intros Hs. destruct l as [|x l]; cbn; [set_solver|]. split.
  - intros Hd. split; [by right|]. pose proof (sorted_hd x l d Hs Hd). lia.
  - intros [[-> | Hd]%elem_of_cons Hne]; done.
Qed.
Lemma sorted_tl l : StronglySorted Z.lt l -> StronglySorted Z.lt (List.tl l).
Proof. destruct l; [done|]. by inversion 1. Qed.
Lemma sorted_from t l : StronglySorted Z.lt l -> StronglySorted Z.lt (from_doc t l).
Proof.
  induction 1 as [|d l Hs IH Hd]; cbn; [constructor|]. destruct (t <=? d); [|done]. constructor; [done|].
  rewrite Forall_forall in *. intros e [He _]%from_doc_elem. auto.
Qed.
(** A sorted list is determined by its elements. *)
Lemma sorted_unique l k : StronglySorted Z.lt l -> StronglySorted Z.lt k -> (forall d, d ∈ l <-> d ∈ k) -> l = k.
Proof.
  intros Hl. revert k. induction Hl as [|x l Hl IH Hx]; intros k Hk He.
  - destruct k as [|y k]; [done|]. exfalso. eapply not_elem_of_nil, He. by left.
  - destruct k as [|y k]; [exfalso; eapply not_elem_of_nil, He; by left|].
    assert (x = y) as ->.
    { pose proof (proj1 (He x) ltac:(by left)) as [-> | Hxk]%elem_of_cons; [done|].
      pose proof (proj2 (He y) ltac:(by left)) as [-> | Hyl]%elem_of_cons; [done|].
      pose proof (sorted_hd y k x Hk Hxk). rewrite Forall_forall in Hx. specialize (Hx y Hyl). lia. }
    f_equal. apply IH; [by inversion Hk|]. intros d. specialize (He d). rewrite !elem_of_cons in He.
    rewrite Forall_forall in Hx. pose proof (sorted_hd y k d Hk). specialize (Hx d).
    destruct (decide (d = y)) as [->|]; [|tauto]. split; intros Hd; [specialize (Hx Hd); lia|].
    specialize (H Hd). lia.
Qed.

(** ** The scorer implements a document set *)

Section Refinement.
Context {S : Type} {D : DocSet S} {DL : DocSetLaws S}.

(** The documents with enough votes. *)
Definition holds_doc (d : Z) (c : S) : bool := bool_decide (d ∈ remaining c).
Definition enough (minimum : nat) (children : list S) (d : Z) : Prop := (minimum <= votes (holds_doc d) children)%nat.
(** The documents still to be read from the children. *)
Definition work (children : list S) : nat := sum_list (map (fun c => length (remaining c)) children).

Lemma doc_range c : 0 <= doc c <= TERMINATED.
Proof.
  rewrite doc_spec. pose proof (remaining_range c) as H. destruct (remaining c); cbn; [done|].
  apply Forall_cons in H as [? _]. lia.
Qed.
Lemma doc_least c d : d ∈ remaining c -> doc c <= d.
Proof.
  rewrite doc_spec. pose proof (remaining_sorted c) as H. destruct (remaining c) as [|x l]; [by intros ?%not_elem_of_nil|].
  intros [-> | Hd]%elem_of_cons; cbn; [lia|]. pose proof (sorted_hd x l d H Hd). lia.
Qed.
Lemma doc_terminated c : doc c = TERMINATED <-> remaining c = [].
Proof.
  rewrite doc_spec. pose proof (remaining_range c) as H. destruct (remaining c); cbn; [done|].
  apply Forall_cons in H as [? _]. split; [lia|done].
Qed.
Lemma doc_remaining c : doc c <> TERMINATED -> doc c ∈ remaining c.
Proof. rewrite doc_spec. destruct (remaining c); cbn; [done|]. by left. Qed.

Lemma min_doc_le children c : c ∈ children -> min_doc children <= doc c.
Proof.
  unfold min_doc. destruct children as [|x l]; [by intros ?%not_elem_of_nil|]. cbn [map reduce from_option id].
  assert (forall l m, fold_left Z.min (map doc l) m <= m /\ forall c, c ∈ l -> fold_left Z.min (map doc l) m <= doc c) as H.
  { clear. induction l as [|x l IH]; intros m; cbn; [split; [lia|by intros ? ?%not_elem_of_nil]|].
    destruct (IH (Z.min m (doc x))) as [H1 H2]. split; [lia|]. intros c [-> | Hc]%elem_of_cons; [lia|auto]. }
  destruct (H l (doc x)) as [H1 H2]. intros [-> | Hc]%elem_of_cons; auto.
Qed.
Lemma min_doc_attained children :
  min_doc children = TERMINATED \/ exists c, c ∈ children /\ doc c = min_doc children.
Proof.
  unfold min_doc. destruct children as [|x l]; [by left|]. cbn [map reduce from_option id]. right.
  assert (forall l m, fold_left Z.min (map doc l) m = m \/ exists c, c ∈ l /\ doc c = fold_left Z.min (map doc l) m) as H.
  { clear. induction l as [|x l IH]; intros m; cbn; [by left|].
    destruct (IH (Z.min m (doc x))) as [->|(c & Hc & Heq)]; [|right; exists c; split; [by right|done]].
    destruct (Z.min_spec m (doc x)) as [[_ ->]|[_ ->]]; [by left|right; exists x; split; [by left|done]]. }
  destruct (H l (doc x)) as [->|(c & Hc & Heq)]; [exists x; split; [by left|done]|exists c; split; [by right|done]].
Qed.

(** Advancing the children that stand at [d], when none is before it, takes [d]
    out of all of them and leaves the other documents. *)
Lemma advance_at_holds children d e : (forall c, c ∈ children -> d <= doc c) -> d < TERMINATED ->
  Forall (fun c => holds_doc e (if doc c =? d then advance c else c) = negb (e =? d) && holds_doc e c) children.
Proof.
  intros Hmin Hd. apply Forall_forall. intros c Hc. specialize (Hmin c Hc). unfold holds_doc.
  destruct (doc c =? d) eqn:Hcd; bool_to_prop.
  - assert (e ∈ remaining (advance c) <-> e <> d /\ e ∈ remaining c) as Heq.
    { rewrite advance_spec, sorted_tl_elem, <- doc_spec, Hcd by apply remaining_sorted. tauto. }
    rewrite (bool_decide_ext _ _ Heq), bool_decide_and. f_equal. destruct (Z.eqb_spec e d); cbn;
      [by rewrite bool_decide_false by naive_solver|by rewrite bool_decide_true].
  - destruct (Z.eqb_spec e d) as [->|]; [|done]. cbn. apply bool_decide_false. intros He%doc_least. lia.
Qed.
Lemma advance_at_enough minimum children d e : (0 < minimum)%nat ->
  (forall c, c ∈ children -> d <= doc c) -> d < TERMINATED ->
  enough minimum (advance_at d children) e <-> e <> d /\ enough minimum children e.
Proof.
  intros Hpos Hmin Hd. unfold enough, advance_at.
  rewrite votes_map, (votes_ext _ _ _ (advance_at_holds children d e Hmin Hd)).
  destruct (Z.eqb_spec e d) as [->|Hne]; cbn.
  - rewrite votes_none by by apply Forall_true. split; [lia|tauto].
  - tauto.
Qed.
Lemma work_advance_at children d : d < TERMINATED -> (exists c, c ∈ children /\ doc c = d) ->
  (work (advance_at d children) < work children)%nat.
Proof.
  intros Hd (c & Hc & Heq). unfold work, advance_at. rewrite map_map.
  assert (forall x, (length (remaining (if (doc x =? d)%Z then advance x else x)) <= length (remaining x))%nat /\
    (doc x = d -> (length (remaining (if (doc x =? d)%Z then advance x else x)) < length (remaining x))%nat)) as Hx.
  { intros x. destruct (Z.eqb_spec (doc x) d) as [Hxd|]; [|split; [lia|done]]. rewrite advance_spec.
    pose proof (doc_remaining x ltac:(lia)) as Hr. destruct (remaining x); [by apply not_elem_of_nil in Hr|]. cbn. lia. }
  induction children as [|x l IH]; [by apply not_elem_of_nil in Hc|]. cbn. destruct (Hx x) as [H1 H2].
  assert (forall l, (sum_list (map (fun x => length (remaining (if (doc x =? d)%Z then advance x else x))) l) <=
                     sum_list (map (fun c => length (remaining c)) l))%nat) as Hle.
  { clear -Hx. induction l as [|y l IH]; cbn; [done|]. destruct (Hx y). lia. }
  apply elem_of_cons in Hc as [-> | Hc]; [specialize (H2 Heq); specialize (Hle l); lia|]. specialize (IH Hc). lia.
Qed.

(** The scorer stands at the first document with enough votes, and no child is
    before it. *)
Record aligned (s : MinimumScorer S) : Prop := {
  al_children c : c ∈ ms_children s -> ms_current s <= doc c;
  al_current : ms_current s = TERMINATED \/
    ms_current s < TERMINATED /\ enough (ms_minimum s) (ms_children s) (ms_current s);
}.
Lemma enough_held minimum children d : (0 < minimum)%nat -> enough minimum children d ->
  exists c, c ∈ children /\ d ∈ remaining c.
Proof.
  unfold enough. intros H1 H2. assert (0 < votes (holds_doc d) children)%nat as H by lia.
  apply votes_pos in H as (c & Hc & Hd). exists c. split; [done|]. by apply bool_decide_eq_true in Hd.
Qed.
Lemma votes_at_min children : min_doc children <> TERMINATED ->
  votes (fun c => doc c =? min_doc children) children = votes (holds_doc (min_doc children)) children.
Proof.
  intros Hne. apply votes_ext, Forall_forall. intros c Hc. pose proof (min_doc_le _ _ Hc) as Hle.
  unfold holds_doc. destruct (Z.eqb_spec (doc c) (min_doc children)) as [Heq|Hn].
  - symmetry. apply bool_decide_true. rewrite <- Heq. apply doc_remaining. congruence.
  - symmetry. apply bool_decide_false. intros He%doc_least. lia.
Qed.
Lemma min_doc_range children : min_doc children <= TERMINATED.
Proof. destruct (min_doc_attained children) as [->|(c & _ & <-)]; [done|]. apply doc_range. Qed.

Lemma align_spec fuel s : (0 < ms_minimum s)%nat -> (work (ms_children s) < fuel)%nat ->
  exists s', align fuel s = Some s' /\ ms_minimum s' = ms_minimum s /\ aligned s' /\
    (work (ms_children s') <= work (ms_children s))%nat /\
    (forall d, enough (ms_minimum s) (ms_children s') d <-> enough (ms_minimum s) (ms_children s) d).
Proof.
  revert s. induction fuel as [|fuel IH]; intros s Hpos Hwork; [lia|]. cbn [align]. cbv zeta.
  pose proof (min_doc_range (ms_children s)) as Hrange.
  destruct (Z.eqb_spec (min_doc (ms_children s)) TERMINATED) as [Heq|Hne].
  { eexists. split; [reflexivity|]. cbn. split_and!; [done| |done|done]. split; cbn; [|by left].
    intros c Hc%min_doc_le. lia. }
  rewrite votes_at_min by done. destruct (_ <=? _)%nat eqn:Hv.
  { eexists. split; [reflexivity|]. cbn. split_and!; [done| |done|done]. split; cbn; [apply min_doc_le|right].
    split; [lia|]. by apply Nat.leb_le in Hv. }
  apply Nat.leb_gt in Hv. set (d := min_doc (ms_children s)) in *.
  assert (exists c, c ∈ ms_children s /\ doc c = d) as Hex by (destruct (min_doc_attained (ms_children s)); done).
  pose proof (work_advance_at (ms_children s) d ltac:(lia) Hex) as Hless.
  destruct (IH (Build_MinimumScorer (ms_minimum s) (advance_at d (ms_children s)) (ms_current s)))
    as (s' & -> & Hm & Hal & Hw & Hen); cbn [ms_minimum ms_children] in *; [done|lia|].
  exists s'. split_and!; [done|done|done|lia|]. intros e. rewrite Hen, advance_at_enough by (done || apply min_doc_le || lia).
  split; [tauto|]. intros He. split; [|done]. intros ->. unfold enough in He. lia.
Qed.

(** The scorer has still to give the documents [l]. *)
Definition gives (s : MinimumScorer S) (l : list Z) : Prop :=
  (0 < ms_minimum s)%nat /\ aligned s /\ StronglySorted Z.lt l /\
  (forall d, d ∈ l <-> enough (ms_minimum s) (ms_children s) d).
Lemma current_least s d : (0 < ms_minimum s)%nat -> aligned s -> enough (ms_minimum s) (ms_children s) d ->
  ms_current s <= d < TERMINATED.
Proof.
  intros Hpos Hal (c & Hc & Hd)%enough_held; [|done]. pose proof (al_children _ Hal c Hc).
  pose proof (doc_least _ _ Hd). pose proof (remaining_range c) as Hr. rewrite Forall_forall in Hr.
  specialize (Hr d Hd). lia.
Qed.
Lemma gives_doc s l : gives s l -> MinimumScorer_doc s = List.hd TERMINATED l.
Proof.
  intros (Hpos & Hal & Hs & Hl). unfold MinimumScorer_doc.
  destruct (al_current _ Hal) as [Hc|[Hlt Hc]]; destruct l as [|x l]; cbn.
  - done.
  - pose proof (current_least s x Hpos Hal (proj1 (Hl x) ltac:(by left))). lia.
  - apply Hl in Hc. by apply not_elem_of_nil in Hc.
  - pose proof (current_least s x Hpos Hal (proj1 (Hl x) ltac:(by left))) as Hle.
    apply Hl in Hc as [-> | Hc]%elem_of_cons; [done|]. pose proof (sorted_hd _ _ _ Hs Hc). lia.
Qed.
Lemma align_gives fuel s l : (0 < ms_minimum s)%nat -> (work (ms_children s) < fuel)%nat ->
  StronglySorted Z.lt l -> (forall d, d ∈ l <-> enough (ms_minimum s) (ms_children s) d) ->
  exists s', align fuel s = Some s' /\ gives s' l /\ (work (ms_children s') <= work (ms_children s))%nat.
Proof.
  intros Hpos Hw Hs Hl. destruct (align_spec fuel s Hpos Hw) as (s' & -> & Hm & Hal & Hw' & He).
  exists s'. split_and!; [done| |done]. split_and!; [lia|done|done|]. intros d. by rewrite Hm, He, Hl.
Qed.

Lemma work_map_le (f : S -> S) children :
  (forall c, length (remaining (f c)) <= length (remaining c))%nat -> (work (map f children) <= work children)%nat.
Proof. intros Hf. unfold work. induction children as [|c l IH]; cbn; [done|]. specialize (Hf c). lia. Qed.
Lemma advance_gives fuel s l : gives s l -> (work (ms_children s) < fuel)%nat ->
  exists s', MinimumScorer_advance fuel s = Some s' /\ gives s' (List.tl l) /\
    (work (ms_children s') <= work (ms_children s))%nat.
Proof.
  intros Hg Hw. pose proof (gives_doc s l Hg) as Hdoc. destruct Hg as (Hpos & Hal & Hs & Hl).
  unfold MinimumScorer_advance, MinimumScorer_doc in *. destruct (Z.eqb_spec (ms_current s) TERMINATED) as [Ht|Hne].
  - exists s. assert (l = []) as ->.
    { destruct l as [|x l]; [done|]. pose proof (current_least s x Hpos Hal (proj1 (Hl x) ltac:(by left))). lia. }
    split_and!; [done|by split_and!|done].
  - destruct (al_current _ Hal) as [?|[Hlt Hc]]; [done|].
    assert (work (advance_at (ms_current s) (ms_children s)) <= work (ms_children s))%nat as Hle.
    { apply work_map_le. intros c. destruct (doc c =? ms_current s); [|done]. rewrite advance_spec. destruct (remaining c); cbn; lia. }
    destruct (align_gives fuel (Build_MinimumScorer (ms_minimum s) (advance_at (ms_current s) (ms_children s)) (ms_current s)) (List.tl l))
      as (s' & -> & Hg & Hw'); cbn [ms_minimum ms_children] in *; [done|lia|by apply sorted_tl| |].
    + intros d. rewrite advance_at_enough by (done || apply (al_children _ Hal)).
      rewrite sorted_tl_elem, <- Hdoc, Hl by done. tauto.
    + exists s'. split_and!; [done|done|lia].
Qed.
Lemma seek_holds t c d : holds_doc d (if doc c <? t then seek c t else c) = (t <=? d) && holds_doc d c.
Proof.
  unfold holds_doc. destruct (doc c <? t) eqn:Hc; bool_to_prop.
  - rewrite seek_spec by lia. rewrite (bool_decide_ext _ _ (from_doc_elem t (remaining c) d)), bool_decide_and, andb_comm.
    f_equal. destruct (Z.leb_spec t d); [by apply bool_decide_true|apply bool_decide_false; lia].
  - destruct (Z.leb_spec t d); [done|]. cbn. apply bool_decide_false. intros He%doc_least. lia.
Qed.
Lemma seek_gives fuel s l t : gives s l -> (work (ms_children s) < fuel)%nat ->
  exists s', MinimumScorer_seek fuel s t = Some s' /\ gives s' (from_doc t l) /\
    (work (ms_children s') <= work (ms_children s))%nat.
Proof.
  intros (Hpos & Hal & Hs & Hl) Hw. unfold MinimumScorer_seek. destruct (t <=? ms_current s) eqn:Ht; bool_to_prop.
  - exists s. split_and!; [done| |done]. split_and!; [done|done|by apply sorted_from|].
    intros d. rewrite from_doc_elem, Hl. split; [tauto|]. intros He. split; [done|].
    pose proof (current_least s d Hpos Hal He). lia.
  - set (cs := map _ (ms_children s)).
    assert (work cs <= work (ms_children s))%nat as Hle.
    { apply work_map_le. intros c. destruct (doc c <? t) eqn:Hc; [|done]. bool_to_prop. rewrite seek_spec by lia.
      apply filter_length_le. }
    destruct (align_gives fuel (Build_MinimumScorer (ms_minimum s) cs (ms_current s)) (from_doc t l))
      as (s' & -> & Hg & Hw'); cbn [ms_minimum ms_children] in *; [done|lia|by apply sorted_from| |].
    + intros d. rewrite from_doc_elem, Hl. unfold enough, cs. rewrite votes_map.
      rewrite (votes_ext (fun c => holds_doc d (if doc c <? t then seek c t else c)) (fun c => (t <=? d) && holds_doc d c)) by (apply Forall_true; intros c; apply seek_holds).
      destruct (Z.leb_spec t d); cbn [andb]; [tauto|].
      rewrite (votes_none (fun _ => false)) by by apply Forall_true. lia.
    + exists s'. split_and!; [done|done|lia].
Qed.
Lemma call_gives fuel s l c : gives s l -> (work (ms_children s) < fuel)%nat ->
  exists s', scorer_call fuel s c = Some s' /\ gives s' (cursor_call l c) /\
    (work (ms_children s') <= work (ms_children s))%nat.
Proof. destruct c as [|t]; [apply advance_gives|apply seek_gives]. Qed.
Lemma run_gives fuel s l calls : gives s l -> (work (ms_children s) < fuel)%nat ->
  scorer_run fuel s calls = Some (cursor_run l calls).
Proof.
  revert s l. induction calls as [|c calls IH]; intros s l Hg Hw; cbn; [done|].
  destruct (call_gives fuel s l c Hg Hw) as (s' & -> & Hg' & Hw'). cbn.
  rewrite (IH s' (cursor_call l c)) by (done || lia). cbn. by rewrite (gives_doc _ _ Hg').
Qed.

(** C29: The threshold scorer implements a document set: built over children with
    a positive minimum, its loops end after at most as many rounds as the
    children hold documents, it stands at the first of the documents that at
    least the minimum of children contain, and every sequence of advances and
    seeks gives what a cursor over the sorted list of those documents gives. *)
Theorem minimum_scorer_is_a_document_set minimum children l fuel calls :
  (0 < minimum)%nat -> StronglySorted Z.lt l ->
  (forall d, d ∈ l <-> enough minimum children d) -> (work children < fuel)%nat ->
  exists s, MinimumScorer_new fuel minimum children = Some s /\
    MinimumScorer_doc s = List.hd TERMINATED l /\ scorer_run fuel s calls = Some (cursor_run l calls).
Proof.
  intros Hpos Hs Hl Hw.
  destruct (align_gives fuel (Build_MinimumScorer minimum children TERMINATED) l Hpos Hw Hs Hl) as (s & Ha & Hg & Hw').
  exists s. split_and!; [done|by apply gives_doc|]. cbn [ms_children] in Hw'. apply run_gives; [done|lia].
Qed.
End Refinement.

(** ** A reference document set *)

Module DocSetReference.
(** A sorted list that is consumed from the front. *)
Record Docs := { docs : list Z; docs_sorted : StronglySorted Z.lt docs;
                 docs_range : Forall (fun d => 0 <= d < TERMINATED) docs }.
Lemma range_sub (l k : list Z) : (forall d, d ∈ k -> d ∈ l) ->
  Forall (fun d => 0 <= d < TERMINATED) l -> Forall (fun d => 0 <= d < TERMINATED) k.
Proof. rewrite !Forall_forall. auto. Qed.
Lemma tl_sub (l : list Z) d : d ∈ List.tl l -> d ∈ l.
Proof. destruct l; [done|]. by right. Qed.
Lemma from_sub t (l : list Z) d : d ∈ from_doc t l -> d ∈ l.
Proof. by intros [? _]%from_doc_elem. Qed.
#[export] Instance docs_set : DocSet Docs := {
  doc s := List.hd TERMINATED (docs s);
  advance s := {| docs := List.tl (docs s); docs_sorted := sorted_tl _ (docs_sorted s);
                  docs_range := range_sub _ _ (tl_sub (docs s)) (docs_range s) |};
  seek s t := {| docs := from_doc t (docs s); docs_sorted := sorted_from t _ (docs_sorted s);
                 docs_range := range_sub _ _ (from_sub t (docs s)) (docs_range s) |};
}.
#[export] Instance docs_laws : DocSetLaws Docs.
Proof. refine {| remaining := docs |}; try done; [apply docs_sorted|apply docs_range]. Defined.

Lemma sorted3 a b c : a < b < c -> StronglySorted Z.lt [a; b; c].
Proof. intros. repeat constructor; lia. Qed.
Lemma range3 a b c : 0 <= a < b -> b < c < TERMINATED -> Forall (fun d => 0 <= d < TERMINATED) [a; b; c].
Proof. intros. repeat constructor; lia. Qed.
Definition set3 (a b c : Z) (H : a < b < c) (K : 0 <= a < b) (R : b < c < TERMINATED) : Docs :=
  {| docs := [a; b; c]; docs_sorted := sorted3 a b c H; docs_range := range3 a b c K R |}.
Lemma in_bounds a b : Z.ltb a b = true -> a < b.
Proof. apply Z.ltb_lt. Qed.
Definition children0 : list Docs.
Proof.
  refine [set3 1 4 7 _ _ _; set3 2 4 9 _ _ _; set3 4 7 9 _ _ _];
    (split; [apply in_bounds || (apply Z.leb_le)|apply in_bounds]; reflexivity).
Defined.
Lemma minimum_scorer_is_a_document_set_witness :
  exists s, MinimumScorer_new 10 2 children0 = Some s /\
    MinimumScorer_doc s = 4 /\ scorer_run 10 s [Advance; Seek 8; Advance] = Some [7; 9; TERMINATED].
Proof.
  apply (minimum_scorer_is_a_document_set 2 children0 [4; 7; 9] 10 [Advance; Seek 8; Advance]).
  - lia.
  - repeat constructor; lia.
  - intros d. unfold enough, votes, children0, holds_doc, remaining. cbn [docs_laws docs set3 List.filter length].
    repeat case_bool_decide; cbn [length]; set_unfold; intuition lia.
  - vm_compute. lia.
Defined.
End DocSetReference.
