(* ===== verification/QueryRender.v ===== *)
(** * Compiling a query for the index

    [query/plan/render.rs]: the boolean query is compiled to the index's query
    and described, in one traversal under a shared budget of nodes and bytes. *)

From S2P Require Import Prelude Text Externals QueryTerm QueryBounds QueryPlan MinimumMatch.

#[local] Open Scope Z_scope.

(** ** Fields as the index sees them *)

(** [name] of each field's implementation. *)
Definition field_name (f : TextFieldEnum) : str := lit
  match f with
  | F_Title => "title" | F_CleanBody => "body" | F_StemmedTitle => "stemmed_title"
  | F_StemmedCleanBody => "stemmed_body" | F_AllBody => "all_body" | F_Url => "url"
  | F_UrlNoTokenizer => "url_no_tokenizer" | F_UrlForSiteOperator => "url_for_site_operator"
  | F_SiteWithout => "site" | F_Domain => "domain" | F_SiteNoTokenizer => "site_no_tokenizer"
  | F_DomainNoTokenizer => "domain_no_tokenizer" | F_DomainNameNoTokenizer => "domain_name_no_tokenizer"
  | F_SiteIfHomepageNoTokenizer => "site_if_homepage_no_tokenizer"
  | F_DomainIfHomepage => "domain_if_homepage"
  | F_DomainNameIfHomepageNoTokenizer => "domain_name_if_homepage_no_tokenizer"
  | F_DomainIfHomepageNoTokenizer => "domain_if_homepage_no_tokenizer"
  | F_TitleIfHomepage => "title_if_homepage" | F_BacklinkText => "backlink_text"
  | F_Description => "description" | F_DmozDescription => "dmoz_description"
  | F_SchemaOrgJson => "schema_org_json" | F_FlattenedSchemaOrgJson => "flattened_schema_org_json"
  | F_CleanBodyBigrams => "clean_body_bigrams" | F_TitleBigrams => "title_bigrams"
  | F_CleanBodyTrigrams => "clean_body_trigrams" | F_TitleTrigrams => "title_trigrams"
  | F_MicroformatTags => "microformat_tags" | F_SafetyClassification => "safety_classification"
  | F_InsertionTimestamp => "insertion_timestamp"
  | F_RecipeFirstIngredientTagId => "recipe_first_ingredient_tag_id" | F_Keywords => "keywords"
  | F_KeyPhrases => "key_phrases" | F_Links => "links" | F_BacklinkLabelsGroup0 => "backlink_group_0"
  | F_BacklinkLabelsGroup1 => "backlink_group_1" | F_BacklinkLabelsGroup2 => "backlink_group_2"
  | F_BacklinkLabelsGroup3 => "backlink_group_3" | F_BacklinkLabelsGroup4 => "backlink_group_4"
  | F_BacklinkLabelsGroup5 => "backlink_group_5" | F_BacklinkLabelsGroup6 => "backlink_group_6"
  | F_BacklinkLabelsGroup7 => "backlink_group_7" | F_BacklinkLabelsGroup8 => "backlink_group_8"
  | F_BacklinkLabelsGroup9 => "backlink_group_9" | F_FirstH1 => "first_h1" | F_AllH2 => "all_h2"
  | F_AllH3 => "all_h3"
  end%string.
Inductive IndexRecordOption := Basic | WithFreqs | WithFreqsAndPositions.
#[export] Instance IndexRecordOption_eq : EqDecision IndexRecordOption.
Proof. solve_decision. Defined.
(** No field of [TextFieldEnum] overrides the default. *)
Definition has_freqs (f : TextFieldEnum) : bool := true.
Definition record_option (f : TextFieldEnum) : IndexRecordOption :=
  match has_freqs f, has_pos f with
  | true, true => WithFreqsAndPositions
  | true, false => WithFreqs
  | false, _ => Basic
  end.
Definition has_positions (o : IndexRecordOption) : bool := bool_decide (o = WithFreqsAndPositions).

(** The schema of the index, the fields' query tokenizers for the query's
    language, and [serde_json::to_string] of a string. *)
Class Analysis := {
  in_schema : TextFieldEnum -> bool;
  indexed_option : TextFieldEnum -> option IndexRecordOption;
  tokens : TextFieldEnum -> str -> list str;
  json_string : str -> option str;
}.

(** The index's queries: a token, a phrase, clauses and a threshold. *)
Inductive TQuery :=
| TQuery_Term (f : TextFieldEnum) (token : str)
| TQuery_Phrase (f : TextFieldEnum) (tokens : list str)
| TQuery_Boolean (clauses : list (Occur * TQuery))
| TQuery_Minimum (minimum : nat) (children : list TQuery).
Record Compiled := { c_query : TQuery; c_rendered : str }.

(** ** Budget *)

Record Budget := { b_nodes : Z; b_bytes : Z; b_max_nodes : Z; b_max_bytes : Z }.
Definition Budget_new (max_nodes max_bytes : Z) : Budget :=
  {| b_nodes := 0; b_bytes := 0; b_max_nodes := max_nodes; b_max_bytes := max_bytes |}.
Definition Budget_default : Budget := Budget_new MAX_COMPILED_NODES MAX_RENDER_BYTES.
Abbreviation budgeted := (method Budget InputError).
Definition fails {A} (e : InputError) : budgeted A := fun b => (b, Err e).
Definition Budget_nodes (count : Z) : budgeted unit := fun b =>
  match u64_checked_add (b_nodes b) count with
  | None => (b, Err PlanTooComplex)
  | Some n =>
      ({| b_nodes := n; b_bytes := b_bytes b; b_max_nodes := b_max_nodes b; b_max_bytes := b_max_bytes b |},
       if b_max_nodes b <? n then Err PlanTooComplex else Ok tt)
  end.
Definition Budget_push (output text : str) : budgeted str := fun b =>
  match u64_checked_add (b_bytes b) (byte_len text) with
  | None => (b, Err PlanTooComplex)
  | Some n =>
      ({| b_nodes := b_nodes b; b_bytes := n; b_max_nodes := b_max_nodes b; b_max_bytes := b_max_bytes b |},
       if b_max_bytes b <? n then Err PlanTooComplex else Ok (output ++ text))
  end.

Section Compile.
Context {A : Analysis}.

(** [while stream.advance()]: one node a token. *)
Fixpoint charge_tokens (l : list str) : budgeted unit :=
  match l with [] => mret tt | _ :: l' => _ ← Budget_nodes 1; charge_tokens l' end.
Fixpoint push_tokens (phrase : bool) (position : nat) (l : list str) (rendered : str) : budgeted str :=
  match l with
  | [] => mret rendered
  | token :: l' =>
      rendered ← (if (0 <? position)%nat then Budget_push rendered (lit ",") else mret rendered);
      rendered ← (if phrase then Budget_push rendered (dec (Z.of_nat position) ++ lit ":") else mret rendered);
      match json_string token with
      | None => fails InvalidQuerySyntax
      | Some text =>
          rendered ← Budget_push rendered text;
          push_tokens phrase (S position) l' rendered
      end
  end.
Definition is_phrase_text (s : SimpleOrPhrase) : bool := match s with Phrase _ => true | Simple _ => false end.
Definition token_query (f : TextFieldEnum) (phrase : bool) (terms : list str) : TQuery :=
  match terms with
  | [token] => TQuery_Term f token
  | _ => if phrase then TQuery_Phrase f terms
         else TQuery_Boolean (map (fun token => (Must, TQuery_Term f token)) terms)
  end.
Definition compile_term (t : PTerm) : budgeted (option Compiled) :=
  let f := field t in
  if negb (in_schema f) then mret None
  else
    let terms := tokens f (text_string (text t)) in
    _ ← charge_tokens terms;
    if is_empty terms then mret None
    else if negb (bool_decide (indexed_option f = Some (record_option f))) then fails InvalidQuerySyntax
    else if is_phrase_text (text t) && (1 <? length terms)%nat && negb (has_positions (record_option f)) then mret None
    else
      rendered ← Budget_push [] (field_name f);
      let phrase := (1 <? length terms)%nat && has_positions (record_option f) in
      rendered ← Budget_push rendered
        (if phrase then lit ":PHRASE(" else if (length terms =? 1)%nat then lit ":TERM(" else lit ":AND(");
      rendered ← push_tokens phrase 0 terms rendered;
      rendered ← Budget_push rendered (lit ")");
      mret (Some {| c_query := token_query f phrase terms; c_rendered := rendered |}).

Definition occur_text (o : Occur) : str :=
  match o with Must => lit "must:" | Should => lit "should:" | MustNot => lit "must_not:" end.
Section Loops.
Context (compile_optional : Query -> budgeted (option Compiled)).
(** The loop over the clauses of a boolean query, and over the children of a
    threshold. *)
Fixpoint compile_clauses (clauses : list (Occur * Query)) (children : list (Occur * TQuery)) (rendered : str)
    : budgeted (list (Occur * TQuery) * str) :=
  match clauses with
  | [] => mret (children, rendered)
  | (occur, q) :: clauses' =>
      child ← compile_optional q;
      match child with
      | Some child =>
          rendered ← (if is_empty children then mret rendered else Budget_push rendered (lit ","));
          rendered ← Budget_push rendered (occur_text occur);
          compile_clauses clauses' (children ++ [(occur, c_query child)]) (rendered ++ c_rendered child)
      | None =>
          if bool_decide (occur = Should) then compile_clauses clauses' children rendered
          else fails NoSearchableTerms
      end
  end.
Definition compile_with (q : Query) : budgeted Compiled :=
  child ← compile_optional q;
  match child with Some child => mret child | None => fails NoSearchableTerms end.
Fixpoint compile_children (l : list Query) (children : list TQuery) (rendered : str)
    : budgeted (list TQuery * str) :=
  match l with
  | [] => mret (children, rendered)
  | q :: l' =>
      child ← compile_with q;
      rendered ← (if is_empty children then mret rendered else Budget_push rendered (lit ","));
      compile_children l' (children ++ [c_query child]) (rendered ++ c_rendered child)
  end.
End Loops.
Fixpoint compile_optional (q : Query) : budgeted (option Compiled) :=
  _ ← Budget_nodes 1;
  match q with
  | Query_Term t => compile_term t
  | Query_Boolean clauses =>
      rendered ← Budget_push [] (lit "BOOL(");
      '(children, rendered) ← compile_clauses compile_optional clauses [] rendered;
      if is_empty children then mret None
      else
        rendered ← Budget_push rendered (lit ")");
        mret (Some {| c_query := TQuery_Boolean children; c_rendered := rendered |})
  | Query_AtLeast minimum l =>
      if (32 <? length l)%nat || (minimum =? 0)%nat || (length l <? minimum)%nat then fails InvalidQuerySyntax
      else
        rendered ← Budget_push [] (lit "AT_LEAST(" ++ dec (Z.of_nat minimum) ++ lit ";");
        '(children, rendered) ← compile_children compile_optional l [] rendered;
        rendered ← Budget_push rendered (lit ")");
        match MinimumMatch_new minimum children with
        | Ok m => mret (Some {| c_query := TQuery_Minimum (mm_minimum m) (mm_children m); c_rendered := rendered |})
        | Err _ => fails InvalidQuerySyntax
        end
  end.
Definition compile (q : Query) : budgeted Compiled := compile_with compile_optional q.
End Compile.

(** ** What is spent and what is compiled *)

(** The first step of a successful method. *)
Ltac m_step H := let b := fresh "b" in let x := fresh "x" in let Hx := fresh "Hx" in
  apply method_bind_Ok in H as (b & x & Hx & H).

Section Matching.
Context {A : Analysis} (token_in : TextFieldEnum -> str -> bool) (phrase_in : TextFieldEnum -> list str -> bool).

(** The documents of the index's query, as [query_matches]. *)
Fixpoint tquery_matches (q : TQuery) : bool :=
  match q with
  | TQuery_Term f token => token_in f token
  | TQuery_Phrase f l => phrase_in f l
  | TQuery_Boolean clauses =>
      (if existsb (fun c => bool_decide (c.1 = Must)) clauses
       then forallb (fun c => match c.1 with Must => tquery_matches c.2 | _ => true end) clauses
       else existsb (fun c => match c.1 with Should => tquery_matches c.2 | _ => false end) clauses) &&
      negb (existsb (fun c => match c.1 with MustNot => tquery_matches c.2 | _ => false end) clauses)
  | TQuery_Minimum m l => (m <=? votes tquery_matches l)%nat
  end.
(** The analysed query of a lexical term, if the index has its field and it has
    tokens; a phrase of several tokens needs positions. *)
Definition term_query (t : PTerm) : option TQuery :=
  let terms := tokens (field t) (text_string (text t)) in
  let positions := has_positions (record_option (field t)) in
  if negb (in_schema (field t)) || is_empty terms ||
     (is_phrase_text (text t) && (1 <? length terms)%nat && negb positions)
  then None else Some (token_query (field t) ((1 <? length terms)%nat && positions) terms).
Definition analysed (t : PTerm) : bool := match term_query t with Some q => tquery_matches q | None => false end.
Fixpoint tquery_size (q : TQuery) : Z :=
  match q with
  | TQuery_Term _ _ => 1
  | TQuery_Phrase _ l => 1 + Z.of_nat (length l)
  | TQuery_Boolean clauses => 1 + fold_right (fun c n => tquery_size c.2 + n) 0 clauses
  | TQuery_Minimum _ l => 1 + fold_right (fun c n => tquery_size c + n) 0 l
  end.

Lemma tquery_size_pos : forall q, 0 < tquery_size q.
Proof.
  fix IH 1. intros [f t|f l|cs|m l]; cbn [tquery_size]; try lia.
  - induction cs as [|[o c] cs IHl]; cbn [fold_right snd]; [lia|]. specialize (IH c). lia.
  - induction l as [|c l IHl]; cbn [fold_right]; [lia|]. specialize (IH c). lia.
Qed.

(** A budget within its limits, and spending at least so many nodes and bytes. *)
Definition within (b : Budget) : Prop := 0 <= b_nodes b <= b_max_nodes b /\ 0 <= b_bytes b <= b_max_bytes b.
Record spends (b b' : Budget) (nodes bytes : Z) : Prop := {
  sp_max : b_max_nodes b' = b_max_nodes b /\ b_max_bytes b' = b_max_bytes b;
  sp_within : within b -> within b';
  sp_nodes : b_nodes b + nodes <= b_nodes b';
  sp_bytes : b_bytes b + bytes <= b_bytes b';
}.
Lemma byte_len_nonneg s : 0 <= byte_len s.
Proof. rewrite byte_len_as_bytes. lia. Qed.
Lemma spends_refl b : spends b b 0 0.
Proof. split; [done|done|lia|lia]. Qed.
Lemma spends_trans b1 b2 b3 n m k j : spends b1 b2 n m -> spends b2 b3 k j -> spends b1 b3 (n + k) (m + j).
Proof. intros [[H1 H2] H3 H4 H5] [[K1 K2] K3 K4 K5]. split; [split; congruence|auto|lia|lia]. Qed.
Lemma spends_weaken b b' n m n' m' : spends b b' n m -> n' <= n -> m' <= m -> spends b b' n' m'.
Proof. intros [H1 H2 H3 H4] ? ?. split; [done|done|lia|lia]. Qed.
Lemma nodes_Ok count b b' u : 0 <= count -> Budget_nodes count b = (b', Ok u) -> spends b b' count 0.
Proof.
  intros Hc. unfold Budget_nodes, u64_checked_add. destruct (_ <=? u64_max); [|done]. destruct (_ <? _) eqn:Hl; [done|].
  intros [= <- _]. bool_to_prop. split; cbn; [done| |lia|lia]. intros [? ?]. split; cbn; lia.
Qed.
Lemma push_Ok output text b b' r : Budget_push output text b = (b', Ok r) ->
  r = output ++ text /\ spends b b' 0 (byte_len text).
Proof.
  pose proof (byte_len_nonneg text).
  unfold Budget_push, u64_checked_add. destruct (_ <=? u64_max); [|done]. destruct (_ <? _) eqn:Hl; [done|].
  intros [= <- <-]. bool_to_prop. split; [done|]. split; cbn; [done| |lia|lia]. intros [? ?]. split; cbn; lia.
Qed.
Lemma ret_Ok {B} (x y : B) b b' : (mret x : budgeted B) b = (b', Ok y) -> b' = b /\ y = x.
Proof. by intros [= <- <-]. Qed.

Lemma push_if_Ok (p : bool) output text b b' r :
  (if p then Budget_push output text else mret output) b = (b', Ok r) -> spends b b' 0 (byte_len r - byte_len output).
Proof.
  destruct p; intros H.
  - apply push_Ok in H as [-> Hs]. rewrite byte_len_app. eapply spends_weaken; [exact Hs|lia|lia].
  - apply ret_Ok in H as [-> ->]. rewrite Z.sub_diag. apply spends_refl.
Qed.
Lemma push_unless_Ok (p : bool) output text b b' r :
  (if p then mret output else Budget_push output text) b = (b', Ok r) -> spends b b' 0 (byte_len r - byte_len output).
Proof. intros H. apply (push_if_Ok (negb p) output text). by destruct p. Qed.
Lemma push_unless_grows (p : bool) output text b b' r :
  (if p then mret output else Budget_push output text) b = (b', Ok r) -> byte_len output <= byte_len r.
Proof.
  destruct p; [by intros [_ ->]%ret_Ok|]. intros [-> _]%push_Ok. rewrite byte_len_app.
  pose proof (byte_len_nonneg text). lia.
Qed.
Lemma charge_tokens_Ok l b b' u : charge_tokens l b = (b', Ok u) -> spends b b' (Z.of_nat (length l)) 0.
Proof.
  revert b. induction l as [|x l IH]; intros b; cbn [charge_tokens].
  - intros [-> _]%ret_Ok. apply spends_refl.
  - intros H. m_step H. apply nodes_Ok in Hx; [|done]. apply IH in H.
    eapply spends_weaken; [eapply spends_trans; eassumption|cbn [length]; lia|lia].
Qed.
Lemma push_tokens_Ok phrase i l r0 b b' r : push_tokens phrase i l r0 b = (b', Ok r) ->
  spends b b' 0 (byte_len r - byte_len r0).
Proof.
  revert i r0 b. induction l as [|x l IH]; intros i r0 b; cbn [push_tokens].
  - intros [-> ->]%ret_Ok. rewrite Z.sub_diag. apply spends_refl.
  - intros H. m_step H. m_step H. apply push_if_Ok in Hx, Hx0.
    destruct (json_string x) as [text|]; [|done]. m_step H. apply push_Ok in Hx1 as [-> Hx1]. apply IH in H.
    rewrite byte_len_app in H.
    eapply spends_weaken; [eapply spends_trans; [exact Hx|eapply spends_trans; [exact Hx0|eapply spends_trans; [exact Hx1|exact H]]]|lia|lia].
Qed.
Lemma token_query_size f phrase terms : tquery_size (token_query f phrase terms) <= 1 + Z.of_nat (length terms).
Proof.
  assert (forall l, fold_right (fun c n => tquery_size c.2 + n) 0 (map (fun token => (Must, TQuery_Term f token)) l)
                    = Z.of_nat (length l)) as Hl by (induction l as [|x l IH]; [done|]; cbn -[Z.of_nat]; rewrite IH; lia).
  unfold token_query. destruct terms as [|x [|y terms]]; [by destruct phrase|cbn; lia|].
  destruct phrase; cbn [tquery_size]; [lia|]. rewrite Hl. lia.
Qed.
Lemma compile_term_Ok t b b' o : compile_term t b = (b', Ok o) ->
  (c_query <$> o) = term_query t /\
  match o with
  | Some c => spends b b' (tquery_size (c_query c) - 1) (byte_len (c_rendered c))
  | None => spends b b' 0 0
  end.
Proof.
  unfold compile_term, term_query. cbv zeta. set (terms := tokens (field t) _).
  destruct (in_schema (field t)); cbn [negb orb]; [|by intros [-> ->]%ret_Ok; split; [|apply spends_refl]].
  intros H. m_step H. apply charge_tokens_Ok in Hx.
  assert (spends b b0 0 0) as Hx0 by (eapply spends_weaken; [exact Hx|lia|lia]).
  destruct (is_empty terms); cbn [orb]; [by apply ret_Ok in H as [-> ->]|].
  destruct (negb (bool_decide _)); [done|].
  destruct (is_phrase_text _ && _ && _); [by apply ret_Ok in H as [-> ->]|].
  m_step H. m_step H. m_step H. m_step H. apply ret_Ok in H as [-> ->]. split; [done|]. cbn [c_query c_rendered].
  apply push_Ok in Hx1 as [-> Hx1], Hx2 as [-> Hx2], Hx4 as [-> Hx4]. apply push_tokens_Ok in Hx3.
  rewrite !byte_len_app in *. change (byte_len []) with 0 in *.
  pose proof (token_query_size (field t) ((1 <? length terms)%nat && has_positions (record_option (field t))) terms).
  eapply spends_weaken; [eapply spends_trans; [exact Hx|eapply spends_trans; [exact Hx1|
    eapply spends_trans; [exact Hx2|eapply spends_trans; [exact Hx3|exact Hx4]]]]|lia|lia].
Qed.

(** The compiled clauses are the clauses that have tokens; only optional clauses
    may be left out, and only when nothing matches them. *)
Inductive kept : list (Occur * Query) -> list (Occur * TQuery) -> Prop :=
| kept_nil : kept [] []
| kept_cons o q t cs ds :
    tquery_matches t = query_matches analysed q -> kept cs ds -> kept ((o, q) :: cs) ((o, t) :: ds)
| kept_drop q cs ds : query_matches analysed q = false -> kept cs ds -> kept ((Should, q) :: cs) ds.
Lemma kept_matches cs ds : kept cs ds ->
  tquery_matches (TQuery_Boolean ds) = query_matches analysed (Query_Boolean cs).
Proof.
  intros Hk. cbn [tquery_matches query_matches].
  assert (existsb (fun c => bool_decide (c.1 = Must)) ds = existsb (occurs Must) cs /\
          forallb (fun c => match c.1 with Must => tquery_matches c.2 | _ => true end) ds =
          forallb (fun c => match c.1 with Must => query_matches analysed c.2 | _ => true end) cs /\
          existsb (fun c => match c.1 with Should => tquery_matches c.2 | _ => false end) ds =
          existsb (fun c => match c.1 with Should => query_matches analysed c.2 | _ => false end) cs /\
          existsb (fun c => match c.1 with MustNot => tquery_matches c.2 | _ => false end) ds =
          existsb (fun c => match c.1 with MustNot => query_matches analysed c.2 | _ => false end) cs)
    as (-> & -> & -> & ->); [|done].
  induction Hk as [|o q t cs ds Hm Hk (H1 & H2 & H3 & H4)|q cs ds Hm Hk (H1 & H2 & H3 & H4)]; [done|..];
    cbn [existsb forallb fst snd]; rewrite H1, H2, H3, H4, ?Hm; done.
Qed.
Lemma kept_empty cs : kept cs [] -> query_matches analysed (Query_Boolean cs) = false.
Proof. intros <-%kept_matches. done. Qed.

Definition compiled (q : Query) (b b' : Budget) (o : option Compiled) : Prop :=
  match o with
  | Some c => spends b b' (tquery_size (c_query c)) (byte_len (c_rendered c)) /\
              tquery_matches (c_query c) = query_matches analysed q
  | None => spends b b' 0 0 /\ query_matches analysed q = false
  end.
Abbreviation compiles q := (forall b b' o, compile_optional q b = (b', Ok o) -> compiled q b b' o).

Definition clauses_size (l : list (Occur * TQuery)) : Z := fold_right (fun c n => tquery_size c.2 + n) 0 l.
Definition children_size (l : list TQuery) : Z := fold_right (fun c n => tquery_size c + n) 0 l.
Lemma compile_clauses_Ok cs : Forall (fun c => compiles c.2) cs ->
  forall ch r b b' ch' r', compile_clauses compile_optional cs ch r b = (b', Ok (ch', r')) ->
  exists new, ch' = ch ++ new /\ kept cs new /\ spends b b' (clauses_size new) (byte_len r' - byte_len r) /\
    byte_len r <= byte_len r'.
Proof.
  induction 1 as [|[o q] cs Hq _ IH]; intros ch r b b' ch' r'; cbn [compile_clauses].
  - intros [-> [= -> ->]]%ret_Ok. exists []. rewrite app_nil_r, Z.sub_diag. split_and!; [done|constructor|apply spends_refl|done].
  - intros H. m_step H. apply Hq in Hx. cbn [snd] in Hx. destruct x as [c|]; destruct Hx as [Hs Hm].
    + m_step H. m_step H. pose proof (push_unless_grows _ _ _ _ _ _ Hx) as Hg. apply push_unless_Ok in Hx. apply push_Ok in Hx0 as [-> Hx0]. apply IH in H as (new & -> & Hk & Hsp & Hle).
      exists ((o, c_query c) :: new). rewrite <- app_assoc. rewrite !byte_len_app in Hsp, Hle.
      pose proof (byte_len_nonneg (occur_text o)). pose proof (byte_len_nonneg (c_rendered c)).
      split_and!; [done|by constructor| |lia]. cbn [clauses_size fold_right snd] in *. fold (clauses_size new) in *.
      eapply spends_weaken; [eapply spends_trans; [exact Hs|eapply spends_trans; [exact Hx|eapply spends_trans; [exact Hx0|exact Hsp]]]|lia|lia].
    + case_bool_decide as Ho; [|done]. subst o. apply IH in H as (new & -> & Hk & Hsp & Hle).
      exists new. split_and!; [done|by constructor| |done]. eapply spends_weaken; [eapply spends_trans; eassumption|lia|lia].
Qed.
Lemma compile_children_Ok l : Forall (fun q => compiles q) l ->
  forall ch r b b' ch' r', compile_children compile_optional l ch r b = (b', Ok (ch', r')) ->
  exists new, ch' = ch ++ new /\ Forall2 (fun q t => tquery_matches t = query_matches analysed q) l new /\
    spends b b' (children_size new) (byte_len r' - byte_len r).
Proof.
  induction 1 as [|q l Hq _ IH]; intros ch r b b' ch' r'; cbn [compile_children].
  - intros [-> [= -> ->]]%ret_Ok. exists []. rewrite app_nil_r, Z.sub_diag. split_and!; [done|constructor|apply spends_refl].
  - intros H. m_step H. unfold compile_with in Hx. m_step Hx. apply Hq in Hx0.
    destruct x0 as [c|]; [|done]. apply ret_Ok in Hx as [-> ->]. destruct Hx0 as [Hs Hm].
    m_step H. apply push_unless_Ok in Hx. apply IH in H as (new & -> & Hk & Hsp).
    exists (c_query c :: new). rewrite <- app_assoc. split_and!; [done|by constructor|].
    rewrite !byte_len_app in Hsp. cbn [children_size fold_right] in *. fold (children_size new) in *.
    eapply spends_weaken; [eapply spends_trans; [exact Hs|eapply spends_trans; [exact Hx|exact Hsp]]|lia|lia].
Qed.
Lemma Forall2_votes l new : Forall2 (fun q t => tquery_matches t = query_matches analysed q) l new ->
  votes tquery_matches new = votes (query_matches analysed) l /\ length new = length l.
Proof. induction 1 as [|q t l new Hq _ [IH1 IH2]]; [done|]. rewrite !votes_cons, Hq, IH1. cbn. by rewrite IH2. Qed.

Lemma compile_optional_Ok q : compiles q.
Proof.
  induction q as [t|cs IH|m l IH] using query_ind'; intros b b' o H; cbn [compile_optional] in H;
    m_step H; apply nodes_Ok in Hx; [|done| |done| |done].
  - apply compile_term_Ok in H as [Hq Hs]. unfold compiled. cbn [query_matches]. unfold analysed.
    destruct o as [c|]; cbn in Hq; rewrite <- Hq; (split; [|done]);
      (eapply spends_weaken; [eapply spends_trans; eassumption|lia|lia]).
  - m_step H. apply push_Ok in Hx0 as [-> Hx0]. m_step H. destruct x0 as [ch r].
    apply compile_clauses_Ok in Hx1 as (new & -> & Hk & Hs & Hle); [|done]. cbn [app] in H.
    destruct (is_empty new) eqn:Hn.
    + apply is_empty_true in Hn as ->. apply ret_Ok in H as [-> ->]. split; [|by apply kept_empty].
      pose proof (byte_len_nonneg (lit "BOOL(")).
      eapply spends_weaken; [eapply spends_trans; [exact Hx|eapply spends_trans; [exact Hx0|exact Hs]]|cbn; lia|lia].
    + m_step H. apply push_Ok in Hx1 as [-> Hx1]. apply ret_Ok in H as [-> ->]. split; [|by apply kept_matches].
      cbn [c_query c_rendered tquery_size]. fold (clauses_size new). rewrite !byte_len_app.
      change (byte_len ([] ++ lit "BOOL(")) with (byte_len (lit "BOOL(")) in Hs.
      eapply spends_weaken; [eapply spends_trans; [exact Hx|eapply spends_trans; [exact Hx0|
        eapply spends_trans; [exact Hs|exact Hx1]]]|lia|lia].
  - destruct (_ || _ || _) eqn:Hb; [done|]. bool_to_prop. m_step H. apply push_Ok in Hx0 as [-> Hx0]. m_step H.
    destruct x0 as [ch r]. apply compile_children_Ok in Hx1 as (new & -> & Hk & Hs); [|done]. cbn [app] in H.
    m_step H. apply push_Ok in Hx1 as [-> Hx1]. destruct (Forall2_votes _ _ Hk) as [Hv Hlen].
    unfold MinimumMatch_new in H. rewrite Hlen in H. destruct (_ || _ || _); [done|]. cbn [refuse_if mbind result_bind mm_minimum mm_children] in H.
    apply ret_Ok in H as [-> ->]. split; [|cbn; by rewrite Hv].
    cbn [c_query c_rendered tquery_size]. fold (children_size new). rewrite !byte_len_app in *.
    change (byte_len []) with 0 in *.
    eapply spends_weaken; [eapply spends_trans; [exact Hx|eapply spends_trans; [exact Hx0|
      eapply spends_trans; [exact Hs|exact Hx1]]]|lia|lia].
Qed.

Lemma compile_Ok q b b' c : compile q b = (b', Ok c) ->
  spends b b' (tquery_size (c_query c)) (byte_len (c_rendered c)) /\
  tquery_matches (c_query c) = query_matches analysed q.
Proof.
  intros H. unfold compile, compile_with in H. m_step H. apply compile_optional_Ok in Hx.
  destruct x as [c'|]; [|done]. by apply ret_Ok in H as [-> ->].
Qed.

(** C28: What is compiled is the query: the index's query matches exactly the
    documents of the boolean query over analysed terms, tokenless optional
    clauses apart, which match nothing; and it fits the budget, its size within
    the nodes and its description within the bytes that were charged. *)
Theorem compiled_query_is_the_query q b b' c :
  compile q b = (b', Ok c) ->
  tquery_matches (c_query c) = query_matches analysed q /\
  (within b -> within b') /\
  tquery_size (c_query c) <= b_nodes b' - b_nodes b /\ byte_len (c_rendered c) <= b_bytes b' - b_bytes b.
Proof.
  intros [[_ Hw Hn Hb] Hm]%compile_Ok. split_and!; [done|done|lia|lia].
Qed.
End Matching.

(** ** Example *)

Module RenderReference.
(** Every field is indexed as declared and a text is one token a word. *)
#[export] Instance words : Analysis := {|
  in_schema _ := true; indexed_option f := Some (record_option f);
  tokens _ s := split_whitespace s; json_string s := Some ([34] ++ s ++ [34]);
|}.
Definition query0 : Query :=
  Query_Boolean [(Must, Query_Term {| text := Simple (lit "a"); field := F_Title |});
                 (Should, Query_Term {| text := Simple []; field := F_Url |});
                 (MustNot, Query_Term {| text := Phrase [lit "b"; lit "c"]; field := F_Title |})].
Definition compiled0 : Compiled :=
  {| c_query := TQuery_Boolean [(Must, TQuery_Term F_Title (lit "a"));
                                (MustNot, TQuery_Phrase F_Title [lit "b"; lit "c"])];
     c_rendered := lit "BOOL(must:title:TERM(" ++ [34] ++ lit "a" ++ [34] ++ lit "),must_not:title:PHRASE(0:" ++ [34] ++
                   lit "b" ++ [34] ++ lit ",1:" ++ [34] ++ lit "c" ++ [34] ++ lit "))" |}.
Definition spent0 : Budget := {| b_nodes := 7; b_bytes := 61; b_max_nodes := 16384; b_max_bytes := 262144 |}.
Lemma compiled_query_is_the_query_witness :
  compile query0 Budget_default = (spent0, Ok compiled0) /\
  tquery_size (c_query compiled0) <= 7 - 0 /\ byte_len (c_rendered compiled0) <= 61 - 0.
Proof.
  assert (compile query0 Budget_default = (spent0, Ok compiled0)) as H by (vm_compute; reflexivity).
  split; [exact H|].
  destruct (compiled_query_is_the_query (fun _ _ => true) (fun _ _ => true) query0 _ _ _ H) as (_ & _ & H1 & H2).
  split; [exact H1|exact H2].
Defined.
Example tokenless_constraint_fails :
  snd (compile (Query_Boolean [(Must, Query_Term {| text := Simple []; field := F_Title |})]) Budget_default) =
  Err NoSearchableTerms.
Proof. vm_compute. reflexivity. Qed.
Example small_budget_fails : snd (compile query0 (Budget_new 6 1000)) = Err PlanTooComplex.
Proof. vm_compute. reflexivity. Qed.
End RenderReference.
