(* ===== verification/QueryStage.v ===== *)
(** * Compiling a request

    [Query::compile_stage] of [query/mod.rs]: the numbers and preferences of a
    request are checked, its stage is taken from the plan or planned, every atom,
    the stage with the safe-search exclusion and every preference are compiled
    under one budget, and the request's filters are added to the description. *)

From S2P Require Import Prelude Text Externals QueryTerm QueryBounds QueryPlan Planner MinimumMatch QueryRender.

#[local] Open Scope Z_scope.

(** The optic of a request, and the digest of its and the rankings' JSON. *)
Class Optics := {
  optic : Type;
  optic_rules : optic -> Z;
  optic_hosts : optic -> HostRankings;
  optic_json : optic -> option (list Z);
  rankings_json : HostRankings -> option (list Z);
  sha256_digest : list Z -> list Z;
}.
Record SearchQuery `{Optics} := {
  sq_stage_plan : option StagePlan; sq_query : str; sq_page : Z; sq_num_results : Z;
  sq_optic : option optic; sq_host_rankings : option HostRankings; sq_safe_search : bool;
}.
Record CompiledStage `{Whatlang} := {
  cs_query : TQuery; cs_rendered : str; cs_preferences : list TQuery; cs_lang : option lang_type;
  cs_simple_terms : list str;
}.
Definition nsfw_term : PTerm := {| text := Simple (lit "NSFW"); field := F_SafetyClassification |}.

Section Stage.
Context `{N : Nom} `{U : UrlOps} `{UP : !UrlPairs} {NH : NodeHash} {W : Whatlang} {O : Optics}.
(** The index's schema and tokenizers, for the query's language. *)
Context (analysis : option lang_type -> Analysis).

Definition chosen_stage (q : SearchQuery) : ires StagePlan :=
  match sq_stage_plan q with
  | Some stage => if str_eqb (original stage) (sq_query q) then Ok stage else Err InvalidQuerySyntax
  | None =>
      plan ← AgentPlan_new (sq_query q);
      (* [remove(0)] panics on an empty plan *)
      match plan with stage :: _ => Ok stage | [] => Err InvalidQuerySyntax end
  end.
Definition lift_result {A} (r : ires A) : budgeted A := fun b => (b, r).

Section Body.
Context {A : Analysis}.
Fixpoint compile_atoms (l : list Atom) : budgeted unit :=
  match l with
  | [] => mret tt
  | a :: l' => _ ← compile (into_query (from_term (atom_text a))); compile_atoms l'
  end.
Fixpoint compile_preferences (l : list Preference) (compiled : list TQuery) (rendered : str)
    : budgeted (list TQuery * str) :=
  match l with
  | [] => mret (compiled, rendered)
  | p :: l' =>
      c ← compile (into_query (from_term (p_term p)));
      rendered ← Budget_push rendered (lit ";PREFERENCE(weight=2,");
      rendered ← Budget_push (rendered ++ c_rendered c) (lit ")");
      compile_preferences l' (compiled ++ [c_query c]) rendered
  end.
Fixpoint describe_filters (l : list (str * option (option (list Z)))) (rendered : str) : budgeted str :=
  match l with
  | [] => mret rendered
  | (name, None) :: l' => describe_filters l' rendered
  | (name, Some value) :: l' =>
      _ ← Budget_nodes 1;
      match value with
      | None => fails InvalidRequest
      | Some bytes =>
          rendered ← Budget_push rendered
            (lit ";FILTER(" ++ name ++ lit ",sha256=" ++ concat (map encode_byte (sha256_digest bytes)) ++ lit ")");
          describe_filters l' rendered
      end
  end.
Definition safe_node (safe_search : bool) (n : Node) : Node :=
  if safe_search then Node_And n (Node_Not (Node_Term nsfw_term)) else n.
Definition compile_body (q : SearchQuery) (stage : StagePlan) : budgeted (TQuery * str * list TQuery) :=
  _ ← compile_atoms (atoms stage);
  node ← lift_result (stage_node stage);
  compiled ← compile (into_query (safe_node (sq_safe_search q) node));
  '(prefs, rendered) ← compile_preferences (preferences stage) [] (c_rendered compiled);
  rendered ← describe_filters [(lit "optic", optic_json <$> sq_optic q);
                               (lit "host_rankings", rankings_json <$> sq_host_rankings q)] rendered;
  mret (c_query compiled, rendered, prefs).
End Body.

Definition compile_stage (q : SearchQuery) : ires CompiledStage :=
  _ ← validate_numbers (sq_page q) (sq_num_results q) false;
  _ ← validate_preferences ((fun o => (optic_rules o, optic_hosts o)) <$> sq_optic q) (sq_host_rankings q);
  stage ← chosen_stage q;
  lang ← stage_lang stage;
  '(query, rendered, prefs) ← snd (compile_body (A := analysis lang) q stage Budget_default);
  Ok {| cs_query := query; cs_rendered := rendered; cs_preferences := prefs; cs_lang := lang;
        cs_simple_terms := simple_terms stage |}.
End Stage.

(** ** What a compiled request matches *)

Section StageMatches.
Context `{N : Nom} `{NL : !NomLaws N} `{U : UrlOps} `{UP : !UrlPairs}.
Context {NH : NodeHash} {NHL : NodeHashLaws NH} {W : Whatlang} {O : Optics}.
Context (analysis : option lang_type -> Analysis).
Context (token_in : TextFieldEnum -> str -> bool) (phrase_in : TextFieldEnum -> list str -> bool).

Section Body.
Context {A : Analysis}.
Abbreviation document := (analysed token_in phrase_in).
Lemma compile_spends q b b' c : compile q b = (b', Ok c) -> spends b b' 0 (byte_len (c_rendered c)).
Proof.
  intros [Hs _]%(compile_Ok token_in phrase_in). eapply spends_weaken; [exact Hs| |lia].
  pose proof (tquery_size_pos (c_query c)). lia.
Qed.
Lemma compile_atoms_Ok l b b' u : compile_atoms l b = (b', Ok u) -> spends b b' 0 0.
Proof.
  revert b. induction l as [|a l IH]; intros b; cbn [compile_atoms]; [by intros [-> _]%ret_Ok; apply spends_refl|].
  intros H. m_step H. apply compile_spends in Hx. apply IH in H. pose proof (byte_len_nonneg (c_rendered x)).
  eapply spends_weaken; [eapply spends_trans; eassumption|lia|lia].
Qed.
Lemma compile_preferences_Ok l ps r b b' ps' r' : compile_preferences l ps r b = (b', Ok (ps', r')) ->
  spends b b' 0 (byte_len r' - byte_len r).
Proof.
  revert ps r b. induction l as [|p l IH]; intros ps r b; cbn [compile_preferences].
  - intros [-> [= -> ->]]%ret_Ok. rewrite Z.sub_diag. apply spends_refl.
  - intros H. m_step H. m_step H. m_step H. apply compile_spends in Hx.
    apply push_Ok in Hx0 as [-> Hx0], Hx1 as [-> Hx1]. apply IH in H. rewrite !byte_len_app in H.
    eapply spends_weaken; [eapply spends_trans; [exact Hx|eapply spends_trans; [exact Hx0|
      eapply spends_trans; [exact Hx1|exact H]]]|lia|lia].
Qed.
Lemma describe_filters_Ok l r b b' r' : describe_filters l r b = (b', Ok r') ->
  spends b b' 0 (byte_len r' - byte_len r).
Proof.
  revert r b. induction l as [|[name [value|]] l IH]; intros r b; cbn [describe_filters].
  - intros [-> ->]%ret_Ok. rewrite Z.sub_diag. apply spends_refl.
  - intros H. m_step H. apply nodes_Ok in Hx; [|done]. destruct value as [bytes|]; [|done]. m_step H.
    apply push_Ok in Hx0 as [-> Hx0]. apply IH in H. rewrite byte_len_app in H.
    eapply spends_weaken; [eapply spends_trans; [exact Hx|eapply spends_trans; [exact Hx0|exact H]]|lia|lia].
  - apply IH.
Qed.
Lemma compile_body_Ok q stage b b' query r ps : compile_body q stage b = (b', Ok (query, r, ps)) ->
  spends b b' 0 (byte_len r) /\ exists n, stage_node stage = Ok n /\
    tquery_matches token_in phrase_in query = query_matches document (into_query (safe_node (sq_safe_search q) n)).
Proof.
  unfold compile_body. intros H. m_step H. apply compile_atoms_Ok in Hx. m_step H. injection Hx0 as <- Hn.
  m_step H. pose proof (compile_spends _ _ _ _ Hx0) as Hs. apply (compile_Ok token_in phrase_in) in Hx0 as [_ Hm].
  m_step H. destruct x2 as [ps' r1]. apply compile_preferences_Ok in Hx0. m_step H. apply describe_filters_Ok in Hx1.
  apply ret_Ok in H as [-> [= -> -> ->]]. split; [|by exists x0].
  eapply spends_weaken; [eapply spends_trans; [exact Hx|eapply spends_trans; [exact Hs|
    eapply spends_trans; [exact Hx0|exact Hx1]]]|lia|lia].
Qed.
End Body.

(** The stage of a request is one of the stages of its query's plan. *)
Definition planned (q : SearchQuery) : Prop :=
  match sq_stage_plan q with
  | None => True
  | Some s => exists plan, AgentPlan_new (sq_query q) = Ok plan /\ s ∈ plan
  end.
Lemma chosen_stage_wf q s : chosen_stage q = Ok s -> planned q ->
  exists srcs, validate_query (sq_query q) = Ok srcs /\ stage_wf srcs s.
Proof.
  unfold chosen_stage, planned. destruct (sq_stage_plan q) as [t|].
  - destruct (str_eqb _ _); [|done]. intros [= ->] (plan & Hp & Hs).
    apply plan_of_Ok in Hp as (srcs & Hv & _ & _ & Hw & _). exists srcs. split; [done|].
    rewrite Forall_forall in Hw. auto.
  - intros (plan & Hp & H)%bind_Ok _. apply plan_of_Ok in Hp as (srcs & Hv & _ & _ & Hw & _).
    destruct plan as [|t plan]; [done|]. injection H as ->. exists srcs. split; [done|]. by inversion Hw.
Qed.
Lemma safe_node_conjunction safe n : conjunction n = true -> conjunction (safe_node safe n) = true.
Proof. intros Hn. destruct safe; [|done]. by apply conjunction_And. Qed.
Lemma safe_node_matches v safe n : node_matches v (safe_node safe n) = node_matches v n && negb (safe && v nsfw_term).
Proof. destruct safe; cbn; by rewrite ?andb_true_r. Qed.

(** C23: A compiled request finds only documents that satisfy every explicit
    constraint of its query, whichever stage of the plan it runs, and with safe
    search no document classified as NSFW; its result count is between 1 and
    300 and its description at most 256 KiB. *)
Theorem compiled_request_is_constrained q c srcs :
  compile_stage analysis q = Ok c -> planned q -> validate_query (sq_query q) = Ok srcs -> 0 <= sq_num_results q ->
  1 <= sq_num_results q <= 300 /\ byte_len (cs_rendered c) <= 262144 /\
  (tquery_matches token_in phrase_in (cs_query c) = true ->
   let document := analysed (A := analysis (cs_lang c)) token_in phrase_in in
   (forall src, src ∈ srcs -> is_literal (atom_term src) = false -> term_matches document (atom_term src) = true) /\
   (sq_safe_search q = true -> document nsfw_term = false)).
Proof.
  unfold compile_stage. intros (offset & Hnum & H)%bind_Ok Hplan Hv Hpos.
  apply bind_Ok in H as ([] & _ & H). apply bind_Ok in H as (stage & Hs & H). apply bind_Ok in H as (lang & _ & H).
  apply bind_Ok in H as ([[query r] ps] & Hb & [= <-]). cbn [cs_rendered cs_query cs_lang].
  destruct (compile_body q stage Budget_default) as [b' res] eqn:Hbody. cbn in Hb. subst res.
  apply compile_body_Ok in Hbody as [Hsp (n & Hn & Hm)].
  destruct (chosen_stage_wf q stage Hs Hplan) as (srcs' & Hv' & Hw). rewrite Hv in Hv'. injection Hv' as <-.
  apply bind_Ok in Hnum as ([] & Hl%refuse_if_Ok & _). unfold MAX_CANDIDATES in Hl. bool_to_prop. split_and!; [lia|lia| |].
  - destruct Hsp as [[_ Hmax] Hwithin _ Hbytes]. destruct Hwithin as [_ Hb]; [done|].
    cbn in Hmax, Hbytes. rewrite Hmax in Hb. unfold MAX_RENDER_BYTES in Hb. lia.
  - rewrite Hm. intros Hq. pose proof (stage_conjunction _ _ _ Hw Hn) as Hc.
    apply (into_query_fuel_matches _ (S (depth (safe_node (sq_safe_search q) n)))) in Hq;
      [|lia|by apply safe_node_conjunction].
    rewrite safe_node_matches in Hq. apply andb_true_iff in Hq as [Hq Hsafe%negb_true_iff]. split.
    + intros src Hin Hlit. by eapply stage_node_keeps_constraints.
    + intros Hss. by rewrite Hss in Hsafe.
Qed.
End StageMatches.

(** ** Example *)

Module StageReference.
Import NomReference UrlReference QueryReference PlanReference PlannerReference RenderReference.
#[export] Instance no_optics : Optics := {|
  optic := unit; optic_rules _ := 0; optic_hosts _ := {| liked := []; disliked := []; blocked := [] |};
  optic_json _ := Some []; rankings_json _ := Some []; sha256_digest _ := [];
|}.
Definition request0 : SearchQuery :=
  {| sq_stage_plan := None; sq_query := lit "x site:y"; sq_page := 0; sq_num_results := 20; sq_optic := None;
     sq_host_rankings := None; sq_safe_search := true |}.
Definition result0 : ires CompiledStage := compile_stage (fun _ => words) request0.
Definition compiled0 : CompiledStage :=
  match result0 with Ok c => c | Err _ => {| cs_query := TQuery_Boolean []; cs_rendered := []; cs_preferences := [];
                                             cs_lang := None; cs_simple_terms := [] |} end.
Lemma compiled_request_is_constrained_witness :
  compile_stage (fun _ => words) request0 = Ok compiled0 /\ byte_len (cs_rendered compiled0) <= 262144 /\
  (tquery_matches (fun f _ => bool_decide (f <> F_SafetyClassification)) (fun _ _ => true) (cs_query compiled0) = true).
Proof.
  assert (compile_stage (fun _ => words) request0 = Ok compiled0) as H by (vm_compute; reflexivity).
  split; [exact H|]. split; [|vm_compute; reflexivity].
  apply (compiled_request_is_constrained (fun _ => words) (fun f _ => bool_decide (f <> F_SafetyClassification))
           (fun _ _ => true) request0 compiled0 srcs1 H I srcs1_valid). vm_compute. done.
Defined.
End StageReference.
